(* ===== verification/_CoqProject ===== *)
-Q . S2P
Prelude.v
ReadBuf.v
HttpLex.v
HttpParse.v
Queue.v
Timewheel.v
Batching.v
Spin.v
AsyncLock.v
EventMap.v
IoDriver.v
DriverTable.v
Sockets.v
UdpGroup.v
Mio.v
Calls.v
Wakeups.v
Registration.v
Sleeping.v
IoContext.v
Globals.v
QuicConfig.v
QuicConn.v
QuicListener.v
QuicClient.v
QuicKeeps.v
QuicHandles.v
QuicRaces.v
QuicTasks.v
QuicServer.v
QuicClientTasks.v
Leveldb.v
PprofReport.v
Protobuf.v
Wire.v
Gperf.v
GperfReport.v
RecursiveMutex.v
Profiler.v
Tls.v
Rproxy.v
ProxyQuic.v
