(* ===== verification/Prelude.v ===== *)
(** * hala-rs: a verification development

    The repository is a set of Rust crates for asynchronous network programs: lock-free
    structures and futures-aware locks (crates/lockfree, crates/sync, crates/future), an io layer
    of handles and commands over the crate mio (crates/io), sockets on it (crates/net/tcp, udp,
    tls, quic, http), a reverse proxy on those (crates/rproxy), a wrapper of leveldb
    (crates/leveldb) and a profiler (crates/pprof).  This library models these crates, one file
    per part, and proves what each part promises to the parts above it.

    ** How the parts use each other

    A future that waits is registered in an event map ([EventMap.v]) or in a batch
    ([Batching.v]) before it gives up its lock ([AsyncLock.v], [Spin.v]).  The sockets
    ([Sockets.v], [UdpGroup.v]) call a driver through the interface of [IoDriver.v], behind the
    table of functions of [DriverTable.v]; [Mio.v] is the driver over mio, and its poller keeps
    the sleeping tasks in the time wheel of [Timewheel.v].  Sockets, sleep and driver
    are put together in [Wakeups.v] and [Sleeping.v], with the thread that polls in
    [IoContext.v]; the registration of the context and of the executor is in [Globals.v].
    A QUIC connection ([QuicConn.v]) is shared by its handles, which close it when they go
    ([QuicHandles.v], [QuicRaces.v]), and by the server ([QuicListener.v]) or client ([QuicClient.v]), which
    move packets between it and a group of UDP sockets; their tasks run over the group in
    [QuicServer.v] and [QuicClientTasks.v].  The HTTP parsers ([HttpParse.v] over [HttpLex.v] and [ReadBuf.v])
    read any stream; the proxy ([Rproxy.v]) accepts plain, TLS ([Tls.v]) and QUIC
    ([ProxyQuic.v]) streams.  The heap
    profiler ([Profiler.v]) writes its blocks into a report ([PprofReport.v]), which the
    generated messages ([Gperf.v]) bring to a file and back ([GperfReport.v]).

    ** The files, and the code they model (paths under src/crates)

    - [Prelude.v]: results with panics ([res]), code over a shared state ([sm]), loops over bytes,
      pools of threads, permutations by counting, machine integers.
    - [ReadBuf.v]: io/src/read_buf.rs over the class [BytesMut].
    - [HttpLex.v], [HttpParse.v]: net/http/src/parse.rs and body.rs.  A state of the source's two
      state machines is a constructor; their loops are defined once over the handler.
    - [Queue.v], [Timewheel.v]: lockfree/src/queue.rs and timewheel.rs, one atomic access per step.
    - [Batching.v], [EventMap.v]: future/src/batching.rs and event_map.rs.
    - [Spin.v], [AsyncLock.v]: sync/src/spin.rs, maker.rs and api.rs.
    - [IoDriver.v]: io/src/driver.rs, driver_ext.rs, file.rs, interest.rs; the class [RawDriverExt]
      is what an implementation provides, [RawDriver] what the sockets call.
    - [DriverTable.v]: io/src/driver.rs, the type-erased [Driver] and the boxes it points to.
    - [Sockets.v]: net/tcp/src, net/udp/src/udp.rs, io/src/sleep.rs, timeout.rs, wouldblock.rs.
    - [UdpGroup.v]: net/udp/src/group.rs.
    - [Mio.v]: io/src/mio: driver.rs, poller.rs, timer.rs, with_poller.rs.
    - [Calls.v]: runs of calls of the driver; a relation between states that the primitive
      steps respect ([Stable]) is respected by every call on other handles ([rel_calls]).
    - [Wakeups.v], [Registration.v], [Sleeping.v]: the sockets and the sleep over the mio driver,
      beside any other calls; the two halves of [MioDriver::timeout].
    - [IoContext.v]: io/src/context.rs: [MioContext], its thread and its drop.
    - [Globals.v]: the OnceLocks of io/src/context.rs, future/src/executor.rs and
      pprof/src/prolog/profiling.rs, and future/src/poll.rs.
    - [QuicConfig.v]: net/quic/src/config.rs over the class [QuicheConfig].
    - [QuicConn.v]: net/quic/src/state/conn.rs and errors.rs; a method is split into the segments
      between its waits.
    - [QuicListener.v]: net/quic/src/state/listener.rs and listener.rs.
    - [QuicClient.v]: net/quic/src/conn.rs, conn_pool.rs and state/connector.rs.
    - [QuicKeeps.v], [QuicHandles.v]: net/quic/src/conn.rs and state/conn.rs: the reference
      counts of connections and streams, what their drops spawn, and [QuicConn::connect]'s tasks.
      One thread runs there: a value is dropped to its end.  [QuicRaces.v] has the accesses of a
      drop apart, with the drops of several threads interleaved.
    - [QuicTasks.v], [QuicServer.v], [QuicClientTasks.v]: net/quic/src/listener.rs and conn.rs: the
      two tasks of a server or a client over its sockets.
    - [Leveldb.v]: leveldb/src/lib.rs over the class [CLeveldb].
    - [PprofReport.v], [Profiler.v]: pprof/src/profiler: report.rs; heap.rs, cpu.rs, frames.rs.
    - [RecursiveMutex.v]: pprof/src/c/mod.rs, and the guards and references to the table that
      the nested calls of heap.rs take.
    - [Gperf.v]: pprof/src/gperf/gperf.rs, a module per message, over the classes [Protobuf] and
      [ProtobufLaws] of [Protobuf.v] and with the interface [Message] of the generated types;
      [Wire.v] is an implementation of the classes, and [GperfReport.v] the messages that
      report.rs builds.
    - [Tls.v]: net/tls/src/lib.rs and bridge.rs, over the class [Boring].
    - [Rproxy.v]: rproxy/src/rproxy.rs, utils.rs and listener/tcp.rs.
    - [ProxyQuic.v]: rproxy/src/listener/quic.rs over the class [Channel].

    A record has the fields of the struct it models, an operation the name of the method.  Code
    outside the repository (bytes, http, boring, quiche, mio, leveldb, the system
    allocator, protobuf, backtrace) is a class or a parameter; the laws that a theorem needs of it are
    named hypotheses, each met by a concrete instance in the witness of the theorem.

    ** What the theorems show

    - Round trips and refinement: a printed request or response is parsed back, in any number of reads, if it
      fits the buffer and the blank line that ends the head comes with one read; of the body, the line
      breaks at its front are lost ([request_roundtrip], [response_roundtrip]); one header line is read as the reference
      reads it ([parse_header_reads_a_line]); the queue and the spinning mutex refine their
      sequential specifications ([queue_linearizable], [spin_mutual_exclusion]); a [Driver] answers
      what its implementation answers ([driver_is_its_implementation]); the database is a
      map ([database_is_a_map]); integers, messages and heap profiles round-trip ([num_bytes_roundtrip],
      [profile_roundtrip], [profile_decodes], [profiles_concatenate], [report_reaches_its_reader],
      [heap_profile_is_the_live_heap]).
    - Conservation: timers, batched futures, streams, connections, buffers, descriptors and samples
      are handed out once ([timers_conserved], [batch_futures_conserved], [streams_handed_out_once],
      [connections_served_once], [streams_delivered_once], [group_polls_every_socket], [sockets_own_their_descriptors],
      [cpu_samples_reported_once], [heap_stats_exact], [rproxy_stats_exact]); a global is
      set once ([registered_once]); a connection and a stream are closed once, after their
      last handle ([handles_close_once]).
    - Wake-ups: no task sleeps for ever on an event that has happened ([batch_no_lost_wakeup],
      [async_no_lost_wakeup], [wait_is_answered], [stream_recv_is_woken], [poll_once_wakes],
      [tls_pending_is_registered], [closed_session_wakes_its_task]); a connection that nobody holds
      is closed ([dropped_connection_is_closed]), and a client that was told to retry is let in
      ([retry_leads_to_accept]); from a socket's future through
      the driver to mio and back ([blocked_task_is_woken], [context_wakes]); a sleep
      lasts its duration to within a tick ([sleep_lasts]).
    - Safety: handles never lead to a dangling object ([handle_lifecycle]), timers are never early
      ([timer_never_early]), only validated clients get a connection ([handshake_admits]), and a
      server sends only where it was spoken to, a client to its server
      ([server_answers_heard_paths], [client_sends_to_its_server]).
    - Errors: what the code does on the paths where it does not do what it means to, among them
      [split_head_is_lost], [recv_loop_stops_on_garbage], [second_build_is_broken],
      [timeout_race], [map_is_borrowed_twice], [client_loops_keep_connection],
      [connection_freed_only_by_a_race],
      [poll_error_ends_the_thread], [failed_registration_leaks],
      [accepted_timer_lost], [iterator_starts_over], [failed_allocations_are_counted].

    ** Bounds and fuel

    The loops that are not structural take fuel. [parse_total] shows that the lengths of the
    buffer and of the stream are enough for the parsers, [skip_newlines_counts_tokens] that
    of the slice for the newline scanner, [read_never_spins] that two rounds are enough for
    a read of a connection, [half_closed_drain_ends] that the buffered bytes are enough to
    drain a stream, [gateway_stops_at_first_error] that the number of answers is enough for
    the accept loop, [dropped_connection_is_closed] that the tasks of dropped handles end,
    [merge_rounds_fuel] that its bytes are enough to read a message. The retry of interrupted system calls in [Mio.v] has one round more
    than the [interrupts] that the operating system still makes. Every other recursion is
    structural, on the input, on the pending futures or on the trace. Lengths and indices
    are [nat]; where width matters ([wrap]) the numbers are [Z] or [N]: the ticks of the
    time wheel, the counters of the allocator and of the proxy, stream ids, sizes and
    integer keys.

    Concurrent code is a step relation with one access to shared state per step and any number
    of threads, under sequentially consistent memory.  The operations of [Mio.v], [QuicConn.v] and
    [QuicListener.v] hold their locks between two waits and run there without interference.  The
    runs of [QuicHandles.v] are those of [QuicRaces.v] where no drop is interrupted ([use_is_race]).

    ** What is not modelled

    Weak memory orderings; the descriptors of the generated messages, which serve the reflection
    of the crate protobuf; wrappers that only
    forward to another crate (parking_lot, the TLS callbacks, the deref traits); logging and
    Debug impls; the inside of the executor and of [block_on]'s channel (crate futures);
    macros, tests and benches.

    ** Plan

    What could follow: the HTTP parsers over the TCP streams of [Wakeups.v], and a session of a
    client with a server, which needs laws that join the two ends of the quiche library. *)

From stdpp Require Export base tactics list gmap sets strings option numbers relations.
From Stdlib Require Export Strings.Byte.
From Stdlib Require Strings.String.

(** Every list operation of the development is stdpp's (overloaded [!!], [take],
    [drop]); numbers are [nat] where the source has a [usize] that only indexes
    or counts, [Z] or [N] where width matters. *)

(** ** Results: [Ok], [Err], or a Rust panic

    A Rust function that returns [Result<A, E>] and may panic ([unwrap],
    [expect], [assert!], slice index) is a function into [res E A]. *)
Inductive res (E A : Type) : Type :=
| Ok (a : A)
| Err (e : E)
| Panic.
Arguments Ok {E A} a.
Arguments Err {E A} e.
Arguments Panic {E A}.

#[export] Instance res_ret E : MRet (res E) := λ A a, Ok a.
#[export] Instance res_bind E : MBind (res E) := λ A B f m,
  match m with Ok a => f a | Err e => Err e | Panic => Panic end.
#[export] Instance res_fmap E : FMap (res E) := λ A B f m,
  match m with Ok a => Ok (f a) | Err e => Err e | Panic => Panic end.

(** [Result::map_err]. *)
Definition map_err {E F A} (f : E → F) (m : res E A) : res F A :=
  match m with Ok a => Ok a | Err e => Err (f e) | Panic => Panic end.

(** [Option::ok_or] and [Option::unwrap]. *)
Definition ok_or {E A} (o : option A) (e : E) : res E A :=
  match o with Some a => Ok a | None => Err e end.
Definition unwrap {E A} (o : option A) : res E A :=
  match o with Some a => Ok a | None => Panic end.

Definition is_panic {E A} (m : res E A) : bool :=
  match m with Panic => true | _ => false end.

Lemma res_bind_ok {E A B} (f : A → res E B) (m : res E A) b :
  m ≫= f = Ok b ↔ ∃ a, m = Ok a ∧ f a = Ok b.
Proof. split; [destruct m; simpl; intros; simplify_eq; eauto|by intros (a&->&?)]. Qed.

Lemma res_bind_err {E A B} (f : A → res E B) (m : res E A) e :
  m ≫= f = Err e ↔ m = Err e ∨ ∃ a, m = Ok a ∧ f a = Err e.
Proof. split; [destruct m; simpl; intros; simplify_eq; eauto|by intros [->|(a&->&?)]]. Qed.

Lemma res_bind_panic {E A B} (f : A → res E B) (m : res E A) :
  m ≫= f = Panic ↔ m = Panic ∨ ∃ a, m = Ok a ∧ f a = Panic.
Proof. split; [destruct m; simpl; intros; simplify_eq; eauto|by intros [->|(a&->&?)]]. Qed.

(** ** Code that updates a shared state and returns a result *)
Definition sm (St E A : Type) : Type := St → St * res E A.

#[export] Instance sm_ret St E : MRet (sm St E) := λ A a s, (s, Ok a).
#[export] Instance sm_bind St E : MBind (sm St E) := λ A B f m s,
  match m s with (s, Ok a) => f a s | (s, Err e) => (s, Err e) | (s, Panic) => (s, Panic) end.

Definition fail {St E A} (e : E) : sm St E A := λ s, (s, Err e).
Definition panic {St E A} : sm St E A := λ s, (s, Panic).
(** [assert!]. *)
Definition assert_ {St E} (b : bool) : sm St E () := if b then mret () else panic.
Definition modify {St E} (f : St → St) : sm St E () := λ s, (f s, Ok ()).
Definition gets {St E A} (f : St → A) : sm St E A := λ s, (s, Ok (f s)).
Definition lift {St E A} (r : res E A) : sm St E A := λ s, (s, r).

(** A call that reads the state, or whose outcome is known. *)
Lemma bind_known {St E A B} (m : sm St E A) (f : A → sm St E B) a s s' :
  m s = (s', Ok a) → (m ≫= f) s = f a s'.
Proof. intros Hm. unfold mbind, sm_bind. by rewrite Hm. Qed.

Lemma bind_err {St E A B} (m : sm St E A) (f : A → sm St E B) e s s' :
  m s = (s', Err e) → (m ≫= f) s = (s', Err e).
Proof. intros Hm. unfold mbind, sm_bind. by rewrite Hm. Qed.

(** What every run of some code does to the state. *)
Definition sm_rel {St E A} (R : relation St) (m : sm St E A) : Prop := ∀ s, R s (m s).1.

Section sm_rel.
Context {St E : Type} (R : relation St) `{!PreOrder R}.

Lemma sm_rel_bind {A B} (m : sm St E A) (f : A → sm St E B) :
  sm_rel R m → (∀ a, sm_rel R (f a)) → sm_rel R (m ≫= f).
Proof.
  intros Hm Hf s. specialize (Hm s). unfold mbind, sm_bind.
  destruct (m s) as [s' [a|e|]]; simpl in *; [|done|done]. etrans; [done|apply Hf].
Qed.
Lemma sm_rel_pure {A} (m : sm St E A) : (∀ s, (m s).1 = s) → sm_rel R m.
Proof. intros Hm s. by rewrite Hm. Qed.
Lemma sm_rel_ret {A} (a : A) : sm_rel R (mret a : sm St E A).
Proof. by apply sm_rel_pure. Qed.
Lemma sm_rel_fail {A} (e : E) : sm_rel R (fail e : sm St E A).
Proof. by apply sm_rel_pure. Qed.
End sm_rel.

(** ** [std::io::ErrorKind]

    An [io::Error] is its kind; the message text, which no code of the
    repository reads, is dropped. *)
Inductive ErrorKind : Set :=
| WouldBlock | Interrupted | TimedOut | InvalidInput | InvalidData | BrokenPipe
| NotFound | ConnectionRefused | UnexpectedEof | Other
| OtherKind (code : nat).

#[export] Instance ErrorKind_eq_dec : EqDecision ErrorKind.
Proof. solve_decision. Defined.

(** ** [std::task::Poll] *)
Inductive Poll (A : Type) := Pending | Ready (a : A).
Arguments Pending {A}.
Arguments Ready {A} a.

(** ** Bytes *)
#[export] Instance byte_eq_decision : EqDecision byte := byte_eq_dec.
#[export] Instance byte_countable : Countable byte.
Proof.
  refine (inj_countable Byte.to_N Byte.of_N _).
  intros b. apply Byte.of_to_N.
Defined.

(** [b"..."] literals. *)
Definition bs (s : String.string) : list byte := String.list_byte_of_string s.

(** ** Loops over a byte slice *)

(** The loop [for (offset, c) in buf.iter().enumerate() { if p(c) { return
    Some(offset) } } None], started at [offset]. *)
Fixpoint find_offset {A} (p : A → bool) (offset : nat) (buf : list A) : option nat :=
  match buf with
  | [] => None
  | c :: rest => if p c then Some offset else find_offset p (S offset) rest
  end.

Section find_offset.
Context {A : Type} (p : A → bool).
Implicit Types (buf : list A) (k n : nat).

Lemma find_offset_Some k buf n :
  find_offset p k buf = Some n ↔
    ∃ l c r, buf = l ++ c :: r ∧ n = k + length l ∧ p c = true ∧
             Forall (λ x, p x = false) l.
Proof.
  revert k. induction buf as [|b buf IH]; intros k; simpl.
  - split; [done|]. intros (l&c&r&H&_). by destruct l.
  - destruct (p b) eqn:Hb.
    + split.
      * intros [= <-]. exists [], b, buf. simpl. auto with lia.
      * intros (l&c&r&Heq&->&Hc&Hl). destruct l as [|x l]; simplify_eq/=; [f_equal; lia|].
        apply Forall_cons in Hl as [? _]. congruence.
    + rewrite IH. split.
      * intros (l&c&r&->&->&?&?). exists (b :: l), c, r. simpl.
        split_and!; [done|lia|done|by constructor].
      * intros (l&c&r&Heq&->&Hc&Hl). destruct l as [|x l']; simplify_eq/=; [congruence|].
        apply Forall_cons in Hl as [_ Hl].
        exists l', c, r. split_and!; [done|lia|done|done].
Qed.

Lemma find_offset_None k buf :
  find_offset p k buf = None ↔ Forall (λ x, p x = false) buf.
Proof.
  revert k. induction buf as [|b buf IH]; intros k; simpl; [by split|].
  rewrite Forall_cons. destruct (p b) eqn:Hb; [|rewrite IH]; intuition congruence.
Qed.

(** The first hit of a prefix without hits followed by a hit. *)
Lemma find_offset_app k l c r :
  Forall (λ x, p x = false) l → p c = true →
  find_offset p k (l ++ c :: r) = Some (k + length l).
Proof. intros. apply find_offset_Some. by exists l, c, r. Qed.

Lemma find_offset_shift k buf : find_offset p (S k) buf = S <$> find_offset p k buf.
Proof. revert k. induction buf as [|b buf IH]; intros k; simpl; [done|]. by case_match. Qed.

Lemma find_offset_lt buf n : find_offset p 0 buf = Some n → n < length buf.
Proof.
  intros (l&c&r&->&->&_)%find_offset_Some. rewrite length_app. simpl. lia.
Qed.
End find_offset.

Lemma drop_1_tail {A} (l : list A) : drop 1 l = tail l.
Proof. by destruct l. Qed.

Lemma elem_of_concat {A} (x : A) (ls : list (list A)) :
  x ∈ concat ls ↔ ∃ l, l ∈ ls ∧ x ∈ l.
Proof.
  rewrite list_elem_of_In, in_concat. by setoid_rewrite list_elem_of_In.
Qed.

(** ** Transition systems: reachability and invariants *)
Section invariants.
Context {S : Type} (step : S → S → Prop).

Lemma rtc_invariant (P : S → Prop) s t :
  P s → (∀ x y, P x → step x y → P y) → rtc step s t → P t.
Proof. intros Hs Hstep Hr. induction Hr; eauto. Qed.
End invariants.

(** ** Pools of threads

    A pool maps a thread to where it is; [pool_any Q m] says that some thread is
    at a place in [Q]. *)
Definition pool_any {P} (Q : P → Prop) (m : gmap nat P) : Prop :=
  ∃ k p, m !! k = Some p ∧ Q p.

Section pools.
Context {P : Type} (Q : P → Prop).
Implicit Types (m : gmap nat P).

Lemma pool_any_here m i p : Q p → pool_any Q (<[i := p]> m).
Proof. intros. exists i, p. by rewrite lookup_insert_eq. Qed.

(** A thread moves from [p] to [p'], and keeps [Q] if it had it. *)
Lemma pool_any_update m i p' :
  pool_any Q m → (∀ p, m !! i = Some p → Q p → Q p') → pool_any Q (<[i := p']> m).
Proof.
  intros (k&p&Hk&Hp) Hi. destruct (decide (k = i)) as [->|].
  - apply pool_any_here. eauto.
  - exists k, p. by rewrite lookup_insert_ne.
Qed.

(** What the threads hold, in some order, when each place holds a list. *)
Definition pool_hold {A} (h : P → list A) (m : gmap nat P) : list A :=
  concat ((λ x : nat * P, h x.2) <$> map_to_list m).

Lemma pool_hold_update {A} (h : P → list A) m i p p' :
  m !! i = Some p → h p ++ pool_hold h (<[i := p']> m) ≡ₚ h p' ++ pool_hold h m.
Proof.
  intros Hi. unfold pool_hold. rewrite <-(map_to_list_delete m i p Hi).
  rewrite <-insert_delete_eq, map_to_list_insert by apply lookup_delete_eq. simpl.
  rewrite !app_assoc. by rewrite (Permutation_app_comm (h p)).
Qed.

Lemma pool_hold_insert {A} (h : P → list A) m i p :
  m !! i = None → pool_hold h (<[i := p]> m) ≡ₚ h p ++ pool_hold h m.
Proof. intros Hi. unfold pool_hold. by rewrite map_to_list_insert. Qed.

Lemma pool_hold_delete {A} (h : P → list A) m i p :
  m !! i = Some p → pool_hold h m ≡ₚ h p ++ pool_hold h (delete i m).
Proof. intros Hi. unfold pool_hold. by rewrite <-(map_to_list_delete m i p Hi). Qed.

Lemma pool_hold_In {A} (h : P → list A) m i p x : m !! i = Some p → x ∈ h p → x ∈ pool_hold h m.
Proof.
  intros Hi Hx. unfold pool_hold. apply elem_of_concat. exists (h p). split; [|done].
  apply (list_elem_of_fmap_2 (λ x : nat * P, h x.2) _ (i, p)). by apply elem_of_map_to_list.
Qed.

Lemma pool_hold_inv {A} (h : P → list A) m x :
  x ∈ pool_hold h m → ∃ i p, m !! i = Some p ∧ x ∈ h p.
Proof.
  unfold pool_hold. intros (l&Hl&Hx)%elem_of_concat.
  apply list_elem_of_fmap in Hl as ([i p]&->&Hm). exists i, p.
  split; [by apply elem_of_map_to_list|done].
Qed.
End pools.

(** The list without its first [x]. *)
Fixpoint remove_one {A} `{EqDecision A} (x : A) (l : list A) : list A :=
  match l with
  | [] => []
  | y :: l => if decide (x = y) then l else y :: remove_one x l
  end.

Lemma remove_one_perm {A} `{EqDecision A} (x : A) l : x ∈ l → l ≡ₚ x :: remove_one x l.
Proof.
  induction l as [|y l IH]; simpl; [set_solver|]. case_decide; [by subst|].
  intros [->|Hx]%elem_of_cons; [done|]. rewrite (IH Hx) at 1. apply perm_swap.
Qed.

(** The keys of a map. *)
Definition keys {A} (m : gmap nat A) : list nat := (map_to_list m).*1.

Lemma keys_insert {A} (m : gmap nat A) i x : m !! i = None → keys (<[i := x]> m) ≡ₚ i :: keys m.
Proof. intros. unfold keys. by rewrite map_to_list_insert by done. Qed.

Lemma keys_delete {A} (m : gmap nat A) i x : m !! i = Some x → keys m ≡ₚ i :: keys (delete i m).
Proof. intros Hi. unfold keys. by rewrite <-(map_to_list_delete m i x Hi). Qed.

Lemma elem_of_keys {A} (m : gmap nat A) i : i ∈ keys m ↔ is_Some (m !! i).
Proof.
  unfold keys. rewrite list_elem_of_fmap. split.
  - intros ([j x]&->&Hj%elem_of_map_to_list). by eexists.
  - intros [x Hx]. exists (i, x). split; [done|by apply elem_of_map_to_list].
Qed.

(** Removing keys one by one. *)
Lemma delete_all {K} `{Countable K} {V} (m : gmap K V) (ks : list K) k :
  foldl (λ m k, delete k m) m ks !! k = if decide (k ∈ ks) then None else m !! k.
Proof.
  revert m. induction ks as [|k' ks IH]; intros m; simpl; [done|].
  rewrite IH. destruct (decide (k ∈ ks)); destruct (decide (k ∈ k' :: ks)); try set_solver.
  - assert (k = k') as -> by set_solver. apply lookup_delete_eq.
  - apply lookup_delete_ne. set_solver.
Qed.

(** ** Permutations by counting *)
Definition occ (x : nat) (l : list nat) : nat := count_occ Nat.eq_dec l x.

Lemma perm_occ l k : l ≡ₚ k ↔ ∀ x, occ x l = occ x k.
Proof. apply (Permutation_count_occ Nat.eq_dec). Qed.
Lemma occ_app x l k : occ x (l ++ k) = occ x l + occ x k.
Proof. apply count_occ_app. Qed.
Lemma occ_cons x a l : occ x (a :: l) = occ x [a] + occ x l.
Proof. apply (occ_app x [a]). Qed.
Lemma occ_nil x : occ x [] = 0.
Proof. done. Qed.

(** A permutation from the permutations in the context, by counting. *)
Ltac perm_lia :=
  repeat match goal with H : _ ≡ₚ _ |- _ => rewrite perm_occ in H end;
  rewrite ?perm_occ;
  let x := fresh "x" in
  intros x;
  repeat match goal with H : ∀ y, occ y _ = occ y _ |- _ => specialize (H x) end;
  repeat match goal with
  | H : context [occ _ (_ ++ _)] |- _ => rewrite occ_app in H
  | |- context [occ _ (_ ++ _)] => rewrite occ_app
  | H : context [occ _ (?a :: ?b :: ?l)] |- _ => rewrite (occ_cons _ a (b :: l)) in H
  | |- context [occ _ (?a :: ?b :: ?l)] => rewrite (occ_cons _ a (b :: l))
  | H : context [occ _ (?a :: ?l)] |- _ =>
      assert_fails (constr_eq l (@nil nat)); rewrite (occ_cons _ a l) in H
  | |- context [occ _ (?a :: ?l)] =>
      assert_fails (constr_eq l (@nil nat)); rewrite (occ_cons _ a l)
  end;
  rewrite ?occ_nil in *; lia.

(** ** Machine integers *)
Definition wrap (w : Z) (x : Z) : Z := (x `mod` 2 ^ w)%Z.

Lemma wrap_small w x : (0 ≤ x < 2 ^ w)%Z → wrap w x = x.
Proof. apply Z.mod_small. Qed.

Lemma wrap_bound w x : (0 ≤ w)%Z → (0 ≤ wrap w x < 2 ^ w)%Z.
Proof. intros. apply Z.mod_pos_bound. lia. Qed.

(** ** Automation *)

(** Case analysis of every [match] and [if] in the hypotheses and the goal. *)
Ltac cases := repeat (case_match; simplify_eq/=).

Create HintDb hala.
#[export] Hint Resolve wrap_bound : hala.
