(* ===== verification/ReadBuf.v ===== *)
(** * crates/io/src/read_buf.rs: the read buffer of the parsers

    [BytesMut] belongs to the crate [bytes], which is not in the repository: it
    is the class [BytesMut], whose laws are the documented behaviour of the
    methods the code calls.  [ReadBuf] is modelled over it. *)

From S2P Require Import Prelude.

(** The methods of [bytes::BytesMut] that the code calls.  [chunk_mut] may
    reallocate, so it returns the buffer too; [write] is the caller writing into
    the slice that [chunk_mut] returned.  [split_to] and [split_off] are [None]
    where the documentation says they panic. *)
Class BytesMut (B : Type) := {
  bm_with_capacity : nat → B;
  bm_data : B → list byte;
  bm_chunk_mut : B → B * nat;
  bm_write : B → list byte → B;
  bm_advance_mut : B → nat → B;
  bm_split_to : B → nat → option (B * B);
  bm_split_off : B → nat → option (B * B);
}.

(** Documented laws of [BytesMut]: a new buffer is empty and can hold its
    capacity; bytes written to the writable chunk and committed by
    [advance_mut] are appended; [split_to(at)] returns the first [at] bytes and
    keeps the rest; [split_off(at)] keeps the first [at] bytes and returns the
    rest; both panic when [at] exceeds the length. *)
Class BytesMutLaws (B : Type) `{BytesMut B} : Prop := {
  bm_new_data n : bm_data (bm_with_capacity n) = [];
  bm_new_chunk n : n ≤ (bm_chunk_mut (bm_with_capacity n)).2;
  bm_chunk_data b : bm_data (bm_chunk_mut b).1 = bm_data b;
  bm_fill_data b d :
    length d ≤ (bm_chunk_mut b).2 →
    bm_data (bm_advance_mut (bm_write (bm_chunk_mut b).1 d) (length d)) =
      bm_data b ++ d;
  bm_split_to_spec b at_ :
    at_ ≤ length (bm_data b) →
    ∃ p r, bm_split_to b at_ = Some (p, r) ∧
           bm_data p = take at_ (bm_data b) ∧ bm_data r = drop at_ (bm_data b);
  bm_split_off_spec b at_ :
    at_ ≤ length (bm_data b) →
    ∃ r p, bm_split_off b at_ = Some (r, p) ∧
           bm_data p = take at_ (bm_data b) ∧ bm_data r = drop at_ (bm_data b);
}.

Section ReadBuf.
Context {B : Type} `{BytesMut B}.

Record ReadBuf := { bytes : B }.

Definition with_capacity (capacity : nat) : ReadBuf :=
  {| bytes := bm_with_capacity capacity |}.

(** The writable slice: the buffer after a possible reallocation, and the
    length of the slice. *)
Definition chunk_mut (rb : ReadBuf) : ReadBuf * nat :=
  let '(b, len) := bm_chunk_mut (bytes rb) in ({| bytes := b |}, len).

(** What the caller of [chunk_mut] does with the slice. *)
Definition write_chunk (rb : ReadBuf) (d : list byte) : ReadBuf :=
  {| bytes := bm_write (bytes rb) d |}.

Definition filled (rb : ReadBuf) (advance : nat) : ReadBuf :=
  {| bytes := bm_advance_mut (bytes rb) advance |}.

Definition into_bytes_mut (rb : ReadBuf) (advance : option nat) : B :=
  match advance with
  | Some advance => bytes (filled rb advance)
  | None => bytes rb
  end.

(** [Bytes] is immutable: it is its contents. *)
Definition into_bytes (rb : ReadBuf) (advance : option nat) : list byte :=
  bm_data (into_bytes_mut rb advance).

Definition chunk (rb : ReadBuf) : list byte := bm_data (bytes rb).

Definition split_to {E} (rb : ReadBuf) (at_ : nat) : res E (B * ReadBuf) :=
  match bm_split_to (bytes rb) at_ with
  | Some (p, r) => Ok (p, {| bytes := r |})
  | None => Panic
  end.

Context `{!BytesMutLaws B}.

(** A read of [d] into the chunk appends [d] to what the parser sees. *)
Lemma chunk_filled rb rb' len d :
  chunk_mut rb = (rb', len) → length d ≤ len →
  chunk (filled (write_chunk rb' d) (length d)) = chunk rb ++ d.
Proof.
  unfold chunk_mut, chunk. intros Hc Hd. pose proof (bm_fill_data (bytes rb) d).
  destruct (bm_chunk_mut (bytes rb)) as [b l]. simplify_eq/=. auto.
Qed.

Lemma chunk_with_capacity n : chunk (with_capacity n) = [].
Proof. apply bm_new_data. Qed.

(** In range, [split_to] succeeds and cuts the contents. *)
Lemma split_to_ok {E} rb at_ :
  at_ ≤ length (chunk rb) →
  ∃ p r, split_to (E:=E) rb at_ = Ok (p, r) ∧
         bm_data p = take at_ (chunk rb) ∧ chunk r = drop at_ (chunk rb).
Proof.
  intros Hle. unfold split_to, chunk in *.
  destruct (bm_split_to_spec _ _ Hle) as (p&r&->&?&?).
  by exists p, {| bytes := r |}.
Qed.
End ReadBuf.
Arguments ReadBuf : clear implicits.

(** ** The capacity of a buffer

    [BytesMut::capacity], with what the documentation says of it: [with_capacity(n)] holds [n]
    bytes without reallocating; [chunk_mut] gives the spare capacity, and is empty only if the
    buffer cannot grow; writing into the slice does not take from the capacity; [split_to(at)] panics
    out of range, and what is left keeps the capacity that was not split off. *)
Class BytesMutCapacity (B : Type) `{BytesMut B} := { bm_capacity : B → nat }.
Class BytesMutCapacityLaws (B : Type) `{BytesMutCapacity B} : Prop := {
  bm_capacity_new n : n ≤ bm_capacity (bm_with_capacity n);
  bm_capacity_chunk b :
    0 < (bm_chunk_mut b).2 ∧ bm_capacity b ≤ (bm_chunk_mut b).2 + length (bm_data b);
  bm_capacity_fill b d :
    length d ≤ (bm_chunk_mut b).2 →
    bm_capacity b ≤ bm_capacity (bm_advance_mut (bm_write (bm_chunk_mut b).1 d) (length d));
  bm_capacity_split_to b at_ p r :
    bm_split_to b at_ = Some (p, r) →
    at_ ≤ length (bm_data b) ∧ bm_capacity b ≤ bm_capacity r + at_;
}.

Section capacity.
Context {B : Type} `{BytesMut B, !BytesMutLaws B, !BytesMutCapacity B, !BytesMutCapacityLaws B}.
Implicit Types rb : ReadBuf B.

(** The bytes that can be read into the buffer without reallocating. *)
Definition room rb : nat := bm_capacity (bytes rb) - length (chunk rb).

Lemma room_new n : n ≤ room (with_capacity n).
Proof. unfold room. rewrite chunk_with_capacity. simpl. pose proof (bm_capacity_new (B:=B) n). lia. Qed.

Lemma room_chunk rb rb' len : chunk_mut rb = (rb', len) → 0 < len ∧ room rb ≤ len.
Proof.
  unfold chunk_mut, room, chunk. pose proof (bm_capacity_chunk (bytes rb)) as [H1 H2].
  destruct (bm_chunk_mut (bytes rb)) as [b n]. intros [= <- <-]. simpl in *. lia.
Qed.

Lemma room_filled rb rb' len d :
  chunk_mut rb = (rb', len) → length d ≤ len →
  room rb ≤ room (filled (write_chunk rb' d) (length d)) + length d.
Proof.
  intros Hc Hd. pose proof (chunk_filled _ _ _ _ Hc Hd) as Hf. unfold room. rewrite Hf, length_app.
  unfold chunk_mut in Hc. pose proof (bm_capacity_fill (bytes rb) d) as Hl.
  destruct (bm_chunk_mut (bytes rb)) as [b n]. injection Hc as <- <-. simpl in *. specialize (Hl Hd). lia.
Qed.

Lemma room_split_to {E} rb n p rb' : split_to (E:=E) rb n = Ok (p, rb') → room rb ≤ room rb'.
Proof.
  unfold split_to, room, chunk. destruct (bm_split_to (bytes rb) n) as [[p0 r]|] eqn:Hs; [|done].
  intros [= -> <-]. simpl. destruct (bm_capacity_split_to _ _ _ _ Hs) as [Hn Hc].
  destruct (bm_split_to_spec _ _ Hn) as (p1&r1&Hs1&_&Hr). rewrite Hs in Hs1. injection Hs1 as <- <-.
  rewrite Hr, length_drop. lia.
Qed.
End capacity.

(** ** A buffer that satisfies the laws

    It grows by 64 bytes when it is full, as [BytesMut] does; [gb_spare] is what is left of its
    capacity.  [gb_pending] holds the bytes written to the slice and not yet committed. *)
Record GrowBuf := { gb_data : list byte; gb_spare : nat; gb_pending : list byte }.

#[export] Instance GrowBuf_BytesMut : BytesMut GrowBuf := {
  bm_with_capacity n := {| gb_data := []; gb_spare := n; gb_pending := [] |};
  bm_data := gb_data;
  bm_chunk_mut b :=
    let spare := if decide (gb_spare b = 0) then 64 else gb_spare b in
    ({| gb_data := gb_data b; gb_spare := spare; gb_pending := [] |}, spare);
  bm_write b d := {| gb_data := gb_data b; gb_spare := gb_spare b; gb_pending := d |};
  bm_advance_mut b n :=
    {| gb_data := gb_data b ++ take n (gb_pending b);
       gb_spare := gb_spare b - n; gb_pending := [] |};
  bm_split_to b n :=
    if decide (n ≤ length (gb_data b)) then
      Some ({| gb_data := take n (gb_data b); gb_spare := 0; gb_pending := [] |},
            {| gb_data := drop n (gb_data b); gb_spare := gb_spare b; gb_pending := [] |})
    else None;
  bm_split_off b n :=
    if decide (n ≤ length (gb_data b)) then
      Some ({| gb_data := drop n (gb_data b); gb_spare := gb_spare b; gb_pending := [] |},
            {| gb_data := take n (gb_data b); gb_spare := 0; gb_pending := [] |})
    else None;
}.

#[export] Instance GrowBuf_laws : BytesMutLaws GrowBuf.
Proof.
  split; simpl.
  - done.
  - intros n. case_decide; lia.
  - done.
  - intros b d _. by rewrite firstn_all.
  - intros b n Hn. rewrite decide_True by done. eauto.
  - intros b n Hn. rewrite decide_True by done. eauto.
Qed.

#[export] Instance GrowBuf_capacity : BytesMutCapacity GrowBuf := {
  bm_capacity b := length (gb_data b) + gb_spare b;
}.
#[export] Instance GrowBuf_capacity_laws : BytesMutCapacityLaws GrowBuf.
Proof.
  split; simpl.
  - lia.
  - intros b. case_decide; lia.
  - intros b d. rewrite length_app, firstn_all. case_decide; lia.
  - intros b n p r. case_decide; [|done]. intros [= <- <-]. simpl. rewrite length_drop. lia.
Qed.
