(* ===== verification/HttpLex.v ===== *)
(** * crates/net/http/src/parse.rs: the lexical functions

    The functions on byte slices that the request and the response parser share,
    [parse_header] on the read buffer, and the crate [http] as a class.  The
    newline scanner is proved equal to a tokenisation of the slice, and
    [parse_header] never to index or split out of range. *)

From S2P Require Import Prelude ReadBuf.

(** ** The crate [http] (not in the repository)

    Its constructors are total functions to [option] ([None]: the crate's error
    value, which the parser only wraps); its builders are opaque states. *)
Inductive Version := HTTP_09 | HTTP_10 | HTTP_11 | HTTP_2 | HTTP_3.

Class HttpCrate := {
  Method : Type;
  Uri : Type;
  HeaderName : Type;
  HeaderValue : Type;
  StatusCode : Type;
  Method_from_bytes : list byte → option Method;
  Uri_from_maybe_shared : list byte → option Uri;
  HeaderName_from_bytes : list byte → option HeaderName;
  HeaderValue_from_maybe_shared : list byte → option HeaderValue;
  StatusCode_from_bytes : list byte → option StatusCode;
  RequestBuilder : Type;
  RequestHead : Type;
  request_builder_new : RequestBuilder;
  request_builder_method : RequestBuilder → Method → RequestBuilder;
  request_builder_uri : RequestBuilder → Uri → RequestBuilder;
  request_builder_version : RequestBuilder → Version → RequestBuilder;
  request_builder_header : RequestBuilder → HeaderName → HeaderValue → RequestBuilder;
  request_builder_body : RequestBuilder → option RequestHead;
  ResponseBuilder : Type;
  ResponseHead : Type;
  response_builder_new : ResponseBuilder;
  response_builder_status : ResponseBuilder → StatusCode → ResponseBuilder;
  response_builder_version : ResponseBuilder → Version → ResponseBuilder;
  response_builder_header : ResponseBuilder → HeaderName → HeaderValue → ResponseBuilder;
  response_builder_body : ResponseBuilder → option ResponseHead;
}.

(** ** Errors *)
Module ParseError.
Inductive t :=
| HttpError
| ParseBufOverflow (max : nat)
| IoError (e : ErrorKind)
| Eof
| Method
| InvalidMethod
| Uri
| InvalidUri
| Version
| InvalidHeaderName
| InvalidHeaderValue
| InvalidStatusCode.

(** [impl From<ParseError> for io::Error]. *)
Definition into_io_error (value : t) : ErrorKind :=
  match value with
  | IoError err => err
  | _ => Other
  end.
End ParseError.

(** ** Scanning functions *)

Definition is_space (b : byte) : bool := ((b =? " ") || (b =? "009"))%byte.
Definition is_newline (b : byte) : bool := ((b =? x0d) || (b =? x0a))%byte.

Definition skip_spaces (buf : list byte) : nat :=
  match find_offset (λ b, negb (is_space b)) 0 buf with
  | Some offset => offset
  | None => length buf
  end.

Definition parse_token (buf : list byte) : option nat :=
  find_offset (λ c, is_space c || is_newline c) 0 buf.

Definition parse_header_name (buf : list byte) : option nat :=
  find_offset (λ c, (c =? ":")%byte) 0 buf.

Definition parse_header_value (buf : list byte) : option nat :=
  find_offset is_newline 0 buf.

Definition parse_reason (buf : list byte) : option nat :=
  find_offset is_newline 0 buf.

Definition parse_version (buf : list byte) : res ParseError.t (option Version) :=
  if decide (8 ≤ length buf) then
    let v := take 8 buf in
    if decide (v = bs "HTTP/0.9") then Ok (Some HTTP_09)
    else if decide (v = bs "HTTP/1.0") then Ok (Some HTTP_10)
    else if decide (v = bs "HTTP/1.1") then Ok (Some HTTP_11)
    else if decide (v = bs "HTTP/2.0") then Ok (Some HTTP_2)
    else if decide (v = bs "HTTP/3.0") then Ok (Some HTTP_3)
    else Err ParseError.Version
  else Ok None.

Definition parse_code `{HttpCrate} (buf : list byte) :
    res ParseError.t (option StatusCode) :=
  if decide (3 ≤ length buf) then
    code ← ok_or (StatusCode_from_bytes (take 3 buf)) ParseError.InvalidStatusCode;
    Ok (Some code)
  else Ok None.

(** [enum SkipNewLine]. *)
Inductive SkipNewLine := NlNone | NlOne (len : nat) | NlBreak (len : nat) | NlIncomplete.

Definition _skip_newline (buf : list byte) : SkipNewLine :=
  if decide (1 < length buf ∧ take 2 buf = [x0d; x0a]) then NlOne 2
  else if decide (1 < length buf ∧ take 2 buf = [x0a; x0a]) then NlBreak 2
  else match buf with
       | c :: _ => if (c =? x0a)%byte then NlOne 1
                   else if (c =? x0d)%byte then NlIncomplete
                   else NlNone
       | [] => NlNone
       end.

(** The [loop] of [_skip_newlines]; every iteration that continues advances
    [offset], so [length buf + 1] iterations are enough
    ([_skip_newlines_loop_spec]). *)
Fixpoint _skip_newlines_loop (fuel : nat) (buf : list byte) (offset : nat)
    (is_break : bool) : option SkipNewLine :=
  match fuel with
  | 0 => None
  | S fuel =>
    match _skip_newline (drop offset buf) with
    | NlIncomplete | NlNone =>
        Some (if is_break then NlBreak offset
              else if decide (0 < offset) then NlOne offset else NlNone)
    | NlOne len =>
        _skip_newlines_loop fuel buf (offset + len)
          (if decide (0 < offset) then true else is_break)
    | NlBreak len => _skip_newlines_loop fuel buf (offset + len) true
    end
  end.

Definition _skip_newlines (buf : list byte) : option SkipNewLine :=
  _skip_newlines_loop (S (length buf)) buf 0 false.

(** ** Functions on the read buffer *)
Section header.
Context {B : Type} `{BytesMut B} `{HttpCrate}.

Definition skip_newlines (rb : ReadBuf B) :
    res ParseError.t (ReadBuf B * SkipNewLine) :=
  skip_new_line ← unwrap (_skip_newlines (chunk rb));
  match skip_new_line with
  | NlOne len | NlBreak len =>
      '(_, rb) ← split_to rb len;
      Ok (rb, skip_new_line)
  | _ => Ok (rb, skip_new_line)
  end.

Definition trim_suffix_spaces (buf : B) : res ParseError.t B :=
  let data := bm_data buf in
  match find_offset (λ c, negb (is_space c)) 0 (rev data) with
  | Some offset =>
      if decide (0 < offset) then
        match bm_split_off buf (length data - offset) with
        | Some (_, buf) => Ok buf
        | None => Panic
        end
      else Ok buf
  | None => Ok buf
  end.

(** [&buf[from..]]. *)
Definition slice_from (buf : list byte) (from : nat) : res ParseError.t (list byte) :=
  if decide (from ≤ length buf) then Ok (drop from buf) else Panic.

Definition parse_header (rb : ReadBuf B) :
    res ParseError.t (ReadBuf B * option (HeaderName * HeaderValue)) :=
  let chunk := chunk rb in
  let offset := skip_spaces chunk in
  let name_offset := offset in
  name_slice ← slice_from chunk offset;
  match parse_header_name name_slice with
  | None => Ok (rb, None)
  | Some name_len =>
      let offset := offset + (name_len + 1) in
      value_slice ← slice_from chunk offset;
      let value_offset := skip_spaces value_slice in
      let offset := offset + value_offset in
      value_slice ← slice_from chunk offset;
      match parse_header_value value_slice with
      | None => Ok (rb, None)
      | Some value_len =>
          '(_, rb) ← split_to rb name_offset;
          '(buf, rb) ← split_to rb name_len;
          buf ← trim_suffix_spaces buf;
          header_name ← ok_or (HeaderName_from_bytes (bm_data buf))
                              ParseError.InvalidHeaderName;
          '(_, rb) ← split_to rb (value_offset + 1);
          '(buf, rb) ← split_to rb value_len;
          buf ← trim_suffix_spaces buf;
          header_value ← ok_or (HeaderValue_from_maybe_shared (bm_data buf))
                               ParseError.InvalidHeaderValue;
          Ok (rb, Some (header_name, header_value))
      end
  end.
End header.

(** ** Reference definitions *)

(** The newline tokens ("\n" or "\r\n") a slice starts with: their number and
    the number of bytes they take. *)
Fixpoint newline_run (buf : list byte) : nat * nat :=
  match buf with
  | x0a :: t => let '(k, n) := newline_run t in (S k, S n)
  | x0d :: x0a :: t => let '(k, n) := newline_run t in (S k, S (S n))
  | _ => (0, 0)
  end.

Fixpoint drop_spaces (l : list byte) : list byte :=
  match l with
  | b :: t => if is_space b then drop_spaces t else l
  | [] => []
  end.

(** Without its trailing spaces and tabs; a slice of spaces only is unchanged. *)
Definition trim_end (l : list byte) : list byte :=
  match drop_spaces (rev l) with [] => l | r => rev r end.

Definition split_first {A} (p : A → bool) (l : list A) : option (list A * list A) :=
  (λ n, (take n l, drop n l)) <$> find_offset p 0 l.

(** What one header line is: the name (before the first colon), the value (up
    to the first newline byte), both without the spaces around them, and the
    rest, which starts with the newline byte. *)
Definition header_fields (data : list byte) : option (list byte * list byte * list byte) :=
  '(name, rest) ← split_first (λ c, (c =? ":")%byte) (drop_spaces data);
  '(value, rest) ← split_first is_newline (drop_spaces (tail rest));
  Some (trim_end name, trim_end value, rest).

(** ** The scanning functions *)

Lemma drop_skip_spaces buf : drop (skip_spaces buf) buf = drop_spaces buf.
Proof.
  unfold skip_spaces. induction buf as [|b buf IH]; [done|]. simpl.
  destruct (is_space b); simpl; [|done].
  rewrite <-IH, find_offset_shift. by destruct (find_offset _ _ _).
Qed.

Lemma skip_spaces_le buf : skip_spaces buf ≤ length buf.
Proof.
  unfold skip_spaces. destruct (find_offset _ _ _) eqn:Hf; [|done].
  apply find_offset_lt in Hf. lia.
Qed.

Lemma drop_spaces_length l : length (drop_spaces l) ≤ length l.
Proof. rewrite <-drop_skip_spaces, length_drop. lia. Qed.

Lemma _skip_newline_cases buf :
  _skip_newline buf =
    match buf with
    | x0d :: x0a :: _ => NlOne 2
    | x0a :: x0a :: _ => NlBreak 2
    | x0a :: _ => NlOne 1
    | x0d :: _ => NlIncomplete
    | _ => NlNone
    end.
Proof.
  unfold _skip_newline. destruct buf as [|c buf]; [done|].
  repeat case_decide; destruct_and?; simplify_eq/=.
  - by destruct buf; simplify_eq/=.
  - by destruct buf; simplify_eq/=.
  - destruct c; try done; destruct buf as [|c' buf]; try done; simpl in *;
      destruct c'; try done; exfalso;
      match goal with H : ¬ (_ ∧ _) |- _ => by apply H; split; [lia|] end.
Qed.

Lemma newline_run_cons_lf t :
  newline_run (x0a :: t) = (S (newline_run t).1, S (newline_run t).2).
Proof. simpl. by destruct (newline_run t). Qed.

Lemma newline_run_cons_crlf t :
  newline_run (x0d :: x0a :: t) = (S (newline_run t).1, S (S (newline_run t).2)).
Proof. simpl. by destruct (newline_run t). Qed.

(** One iteration of the scanner against the reference. *)
Lemma _skip_newline_run buf :
  match _skip_newline buf with
  | NlNone | NlIncomplete => newline_run buf = (0, 0)
  | NlOne n => 0 < n ≤ length buf ∧
      newline_run buf = (S (newline_run (drop n buf)).1, n + (newline_run (drop n buf)).2)
  | NlBreak n => 0 < n ≤ length buf ∧
      newline_run buf = (S (S (newline_run (drop n buf)).1), n + (newline_run (drop n buf)).2)
  end.
Proof.
  rewrite _skip_newline_cases.
  destruct buf as [|c buf]; [done|]. destruct c; try done.
  - destruct buf as [|c' buf]; [by split; [simpl; lia|]|].
    destruct c'; try (split; [simpl; lia|]; rewrite newline_run_cons_lf; done).
    split; [simpl; lia|]. by rewrite !newline_run_cons_lf.
  - destruct buf as [|c' buf]; [done|]. destruct c'; try done.
    split; [simpl; lia|]. by rewrite newline_run_cons_crlf.
Qed.

Lemma newline_run_pos buf : (newline_run buf).1 ≠ 0 → 0 < (newline_run buf).2.
Proof.
  destruct buf as [|c buf]; [done|]. destruct c; try done.
  - rewrite newline_run_cons_lf. simpl. lia.
  - destruct buf as [|c' buf]; [done|]. destruct c'; try done.
    rewrite newline_run_cons_crlf. simpl. lia.
Qed.

Definition classify_run (is_break : bool) (offset : nat) (run : nat * nat) : SkipNewLine :=
  let '(k, n) := run in
  if is_break || bool_decide (2 ≤ k) || bool_decide (0 < offset ∧ 1 ≤ k)
  then NlBreak (offset + n)
  else if decide (0 < offset + n) then NlOne (offset + n) else NlNone.

Lemma newline_run_bytes buf : (newline_run buf).1 = 0 → (newline_run buf).2 = 0.
Proof.
  destruct buf as [|c buf]; [done|]. destruct c; try done.
  - by rewrite newline_run_cons_lf.
  - destruct buf as [|c' buf]; [done|]. destruct c'; try done.
    by rewrite newline_run_cons_crlf.
Qed.

Lemma newline_run_le buf : (newline_run buf).2 ≤ length buf.
Proof.
  remember (length buf) as m eqn:Hm. revert buf Hm.
  induction m as [m IH] using lt_wf_ind. intros [|c buf] ->; simpl; [lia|].
  destruct c; simpl; try lia.
  - specialize (IH (length buf) ltac:(simpl; lia) buf eq_refl). cases; simpl in *; lia.
  - destruct buf as [|c' buf]; simpl; [lia|]. destruct c'; simpl; try lia.
    specialize (IH (length buf) ltac:(simpl; lia) buf eq_refl). cases; simpl in *; lia.
Qed.

Lemma _skip_newlines_loop_spec fuel buf offset is_break :
  length (drop offset buf) < fuel →
  _skip_newlines_loop fuel buf offset is_break =
    Some (classify_run is_break offset (newline_run (drop offset buf))).
Proof.
  revert offset is_break. induction fuel as [|fuel IH]; intros offset is_break Hlen; [lia|].
  simpl. pose proof (_skip_newline_run (drop offset buf)) as Hrun.
  destruct (_skip_newline (drop offset buf)) as [|n|n|] eqn:Hnl.
  - rewrite Hrun. unfold classify_run. simpl. rewrite Nat.add_0_r.
    destruct is_break; simpl; [done|].
    by rewrite bool_decide_false by lia.
  - destruct Hrun as [Hn ->]. rewrite drop_drop.
    rewrite IH by (rewrite ?drop_drop, length_drop in *; lia).
    unfold classify_run. destruct (newline_run (drop (offset + n) buf)) as [k m] eqn:Hr; simpl.
    pose proof (newline_run_bytes (drop (offset + n) buf)) as Hz. rewrite Hr in Hz. simpl in Hz.
    rewrite <-!Nat.add_assoc. f_equal.
    repeat (case_bool_decide || case_decide); destruct is_break; simpl; try done; try lia.
    all: rewrite ?orb_true_r; try done; try lia.
  - destruct Hrun as [Hn ->]. rewrite drop_drop.
    rewrite IH by (rewrite ?drop_drop, length_drop in *; lia).
    unfold classify_run. destruct (newline_run (drop (offset + n) buf)) as [k m]; simpl.
    rewrite <-!Nat.add_assoc.
    by rewrite orb_true_r.
  - rewrite Hrun. unfold classify_run. simpl. rewrite Nat.add_0_r.
    destruct is_break; simpl; [done|].
    by rewrite bool_decide_false by lia.
Qed.

Lemma _skip_newlines_run buf :
  _skip_newlines buf = Some (classify_run false 0 (newline_run buf)).
Proof. unfold _skip_newlines. by rewrite _skip_newlines_loop_spec by (rewrite drop_0; lia). Qed.

(** ** Trimming and header lines *)

Lemma drop_spaces_find l :
  drop_spaces l =
    match find_offset (λ b, negb (is_space b)) 0 l with Some n => drop n l | None => [] end.
Proof.
  induction l as [|b l IH]; [done|]. simpl. destruct (is_space b); simpl; [|done].
  rewrite IH, find_offset_shift. by destruct (find_offset _ _ _).
Qed.

Lemma trim_end_find l :
  trim_end l =
    match find_offset (λ b, negb (is_space b)) 0 (rev l) with
    | Some n => take (length l - n) l
    | None => l
    end.
Proof.
  unfold trim_end. rewrite drop_spaces_find.
  destruct (find_offset _ _ _) as [n|] eqn:Hf; [|done].
  apply find_offset_lt in Hf. rewrite length_rev in Hf.
  rewrite skipn_rev. destruct (rev (take _ l)) eqn:Hd.
  - apply (f_equal length) in Hd. rewrite length_rev, length_take in Hd. simpl in Hd. lia.
  - by rewrite <-Hd, rev_involutive.
Qed.

Section header_spec.
Context {B : Type} `{BytesMut B, !BytesMutLaws B} `{HttpCrate}.

Lemma trim_suffix_spaces_spec (b : B) :
  ∃ b', trim_suffix_spaces b = Ok b' ∧ bm_data b' = trim_end (bm_data b).
Proof.
  unfold trim_suffix_spaces. rewrite trim_end_find.
  destruct (find_offset _ _ _) as [n|] eqn:Hf; [|by eauto].
  apply find_offset_lt in Hf. rewrite length_rev in Hf.
  case_decide.
  - destruct (bm_split_off_spec b (length (bm_data b) - n)) as (r&p&->&Hp&_); [lia|].
    by exists p.
  - replace n with 0 by lia. exists b. split; [done|].
    by rewrite Nat.sub_0_r, firstn_all.
Qed.

Lemma slice_from_ok buf from :
  from ≤ length buf → slice_from buf from = Ok (drop from buf).
Proof. intros. unfold slice_from. by rewrite decide_True. Qed.

Lemma split_first_Some {A} (p : A → bool) (l : list A) n :
  find_offset p 0 l = Some n →
  split_first p l = Some (take n l, drop n l) ∧ n < length l.
Proof.
  intros Hf. unfold split_first. rewrite Hf. split; [done|]. by eapply find_offset_lt.
Qed.

(** What [parse_header] does, in terms of [header_fields]. *)
Definition parse_header_result (rb rb' : ReadBuf B)
    (o : option (list byte * list byte * list byte)) :
    res ParseError.t (ReadBuf B * option (HeaderName * HeaderValue)) :=
  match o with
  | None => Ok (rb, None)
  | Some (name, value, _) =>
      header_name ← ok_or (HeaderName_from_bytes name) ParseError.InvalidHeaderName;
      header_value ← ok_or (HeaderValue_from_maybe_shared value)
                           ParseError.InvalidHeaderValue;
      Ok (rb', Some (header_name, header_value))
  end.

Lemma parse_header_refines (rb : ReadBuf B) :
  ∃ rb', parse_header rb = parse_header_result rb rb' (header_fields (chunk rb)) ∧
         ∀ n v rest, header_fields (chunk rb) = Some (n, v, rest) → chunk rb' = rest.
Proof.
  unfold parse_header, header_fields.
  pose proof (skip_spaces_le (chunk rb)) as Hsp.
  rewrite slice_from_ok by done. simpl. rewrite drop_skip_spaces.
  unfold parse_header_name, split_first.
  destruct (find_offset _ 0 (drop_spaces (chunk rb))) as [name_len|] eqn:Hname; simpl;
    [|by exists rb].
  pose proof (find_offset_lt _ _ _ Hname) as Hnl.
  rewrite <-drop_skip_spaces, length_drop in Hnl.
  set (sp := skip_spaces (chunk rb)) in *.
  rewrite slice_from_ok by lia. simpl.
  assert (drop (sp + (name_len + 1)) (chunk rb) =
          tail (drop name_len (drop_spaces (chunk rb)))) as Htail.
  { rewrite <-drop_skip_spaces. fold sp. rewrite <-drop_1_tail, !drop_drop. by rewrite Nat.add_assoc. }
  rewrite Htail. set (after := tail _) in *.
  pose proof (skip_spaces_le after) as Hsp'.
  assert (length after = length (chunk rb) - (sp + (name_len + 1))) as Hla.
  { by rewrite <-Htail, length_drop. }
  rewrite slice_from_ok by lia. simpl.
  rewrite <-drop_drop, Htail, drop_skip_spaces.
  unfold parse_header_value.
  destruct (find_offset is_newline 0 (drop_spaces after)) as [value_len|] eqn:Hval; simpl;
    [|by exists rb].
  pose proof (find_offset_lt _ _ _ Hval) as Hvl.
  rewrite <-drop_skip_spaces, length_drop in Hvl.
  destruct (split_to_ok (E:=ParseError.t) rb sp) as (p0&rb0&->&_&Hrb0); [lia|]. simpl.
  destruct (split_to_ok (E:=ParseError.t) rb0 name_len) as (pn&rb1&->&Hpn&Hrb1);
    [rewrite Hrb0, length_drop; lia|]. simpl.
  destruct (trim_suffix_spaces_spec pn) as (pn'&->&Hpn'). simpl.
  assert (drop (skip_spaces after + 1) (chunk rb1) = drop_spaces after) as Hval_start.
  { rewrite Hrb1, Hrb0. subst sp. rewrite drop_skip_spaces, Nat.add_comm.
    by rewrite <-drop_drop, drop_1_tail, drop_skip_spaces. }
  destruct (split_to_ok (E:=ParseError.t) rb1 (skip_spaces after + 1))
    as (p2&rb2&Hs2&_&Hrb2); [rewrite Hrb1, Hrb0, !length_drop; lia|].
  rewrite Hval_start in Hrb2.
  destruct (split_to_ok (E:=ParseError.t) rb2 value_len) as (pv&rb3&Hs3&Hpv&Hrb3);
    [rewrite Hrb2, <-drop_skip_spaces, length_drop; lia|].
  destruct (trim_suffix_spaces_spec pv) as (pv'&Ht&Hpv').
  exists rb3. split.
  - rewrite Hpn', Hpn, Hrb0. subst sp. rewrite drop_skip_spaces.
    destruct (HeaderName_from_bytes _); simpl; [|done].
    rewrite Hs2. simpl. rewrite Hs3. simpl. rewrite Ht. simpl.
    by rewrite Hpv', Hpv, Hrb2.
  - intros n v rest [= _ _ <-]. by rewrite Hrb3, Hrb2.
Qed.

Lemma parse_header_no_panic (rb : ReadBuf B) : parse_header rb ≠ Panic.
Proof.
  destruct (parse_header_refines rb) as (rb'&->&_).
  destruct (header_fields _) as [[[n v] rest]|]; simpl; [|done].
  destruct (HeaderName_from_bytes n); simpl; [|done].
  by destruct (HeaderValue_from_maybe_shared v).
Qed.

Lemma skip_newlines_spec (rb : ReadBuf B) :
  let r := classify_run false 0 (newline_run (chunk rb)) in
  ∃ rb', skip_newlines rb = Ok (rb', r) ∧
         chunk rb' = drop (newline_run (chunk rb)).2 (chunk rb).
Proof.
  unfold skip_newlines. rewrite _skip_newlines_run. simpl.
  pose proof (newline_run_bytes (chunk rb)) as Hz.
  pose proof (newline_run_le (chunk rb)) as Hle.
  unfold classify_run. destruct (newline_run (chunk rb)) as [k n]; simpl in *.
  destruct (split_to_ok (E:=ParseError.t) rb n Hle) as (p&rb'&Hs&_&Hr).
  repeat case_bool_decide || case_decide; simpl; rewrite ?Hs; simpl; try by exists rb'.
  exists rb. replace n with 0 by lia. by rewrite drop_0.
Qed.
End header_spec.

(** ** Properties *)

(** C10. [skip_newlines] is a tokenizer on the read buffer: it consumes exactly the maximal run of
    "\n" and "\r\n" tokens that the buffer starts with, leaves the rest, and reports [None],
    [One] or [Break] for a run of no, one, or at least two tokens, with the bytes consumed.  It
    does not panic and never reports [Incomplete]; a "\r" at the end of the buffer is left
    there. *)
Theorem skip_newlines_counts_tokens {B} `{BytesMut B, !BytesMutLaws B} (rb : ReadBuf B) :
  let '(tokens, len) := newline_run (chunk rb) in
  ∃ rb', chunk rb' = drop len (chunk rb) ∧
    skip_newlines rb =
      Ok (rb', match tokens with 0 => NlNone | 1 => NlOne len | _ => NlBreak len end).
Proof.
  destruct (skip_newlines_spec rb) as (rb'&Hs&Hc). pose proof (newline_run_bytes (chunk rb)) as Hz.
  pose proof (newline_run_pos (chunk rb)) as Hp.
  unfold classify_run in Hs. destruct (newline_run (chunk rb)) as [k n]; simpl in *.
  exists rb'. split; [done|]. rewrite Hs. destruct k as [|[|k]]; simpl.
  - by rewrite Hz.
  - by rewrite decide_True by lia.
  - done.
Qed.

(** C20. [parse_header] reads one header line: it waits for more bytes, with the
    buffer unchanged, when the slice has no colon or no newline after it;
    otherwise it consumes exactly up to the newline byte and hands the name
    before the first colon and the value after it, both trimmed of spaces and
    tabs, to the crate's constructors.  It never panics. *)
Theorem parse_header_reads_a_line {B} `{BytesMut B, !BytesMutLaws B, HttpCrate}
    (rb : ReadBuf B) :
  match header_fields (chunk rb) with
  | None => parse_header rb = Ok (rb, None)
  | Some (name, value, rest) =>
      ∃ rb', chunk rb' = rest ∧
        parse_header rb =
          match HeaderName_from_bytes name, HeaderValue_from_maybe_shared value with
          | None, _ => Err ParseError.InvalidHeaderName
          | Some _, None => Err ParseError.InvalidHeaderValue
          | Some n, Some v => Ok (rb', Some (n, v))
          end
  end.
Proof.
  destruct (parse_header_refines rb) as (rb'&->&Hrest).
  destruct (header_fields _) as [[[n v] rest]|]; simpl; [|done].
  exists rb'. split; [by apply (Hrest n v)|].
  destruct (HeaderName_from_bytes n); simpl; [|done].
  by destruct (HeaderValue_from_maybe_shared v).
Qed.

(** ** An instance of the crate, for the witnesses

    Names and values are their bytes; a builder lists what it was given. *)
Record TextRequest := {
  tr_method : option (list byte);
  tr_uri : option (list byte);
  tr_version : option Version;
  tr_headers : list (list byte * list byte);
}.
Record TextResponse := {
  ts_status : option (list byte);
  ts_version : option Version;
  ts_headers : list (list byte * list byte);
}.

Definition non_empty (b : list byte) : option (list byte) :=
  match b with [] => None | _ => Some b end.

#[export] Instance TextHttp : HttpCrate := {
  Method := list byte;
  Uri := list byte;
  HeaderName := list byte;
  HeaderValue := list byte;
  StatusCode := list byte;
  Method_from_bytes := non_empty;
  Uri_from_maybe_shared := non_empty;
  HeaderName_from_bytes := non_empty;
  HeaderValue_from_maybe_shared := Some;
  StatusCode_from_bytes := non_empty;
  request_builder_new := {| tr_method := None; tr_uri := None; tr_version := None; tr_headers := [] |};
  request_builder_method b m :=
    {| tr_method := Some m; tr_uri := tr_uri b; tr_version := tr_version b; tr_headers := tr_headers b |};
  request_builder_uri b u :=
    {| tr_method := tr_method b; tr_uri := Some u; tr_version := tr_version b; tr_headers := tr_headers b |};
  request_builder_version b v :=
    {| tr_method := tr_method b; tr_uri := tr_uri b; tr_version := Some v; tr_headers := tr_headers b |};
  request_builder_header b n v :=
    {| tr_method := tr_method b; tr_uri := tr_uri b; tr_version := tr_version b;
       tr_headers := tr_headers b ++ [(n, v)] |};
  request_builder_body := Some;
  response_builder_new := {| ts_status := None; ts_version := None; ts_headers := [] |};
  response_builder_status b s :=
    {| ts_status := Some s; ts_version := ts_version b; ts_headers := ts_headers b |};
  response_builder_version b v :=
    {| ts_status := ts_status b; ts_version := Some v; ts_headers := ts_headers b |};
  response_builder_header b n v :=
    {| ts_status := ts_status b; ts_version := ts_version b;
       ts_headers := ts_headers b ++ [(n, v)] |};
  response_builder_body := Some;
}.

Definition grow_buf (d : list byte) : ReadBuf GrowBuf :=
  {| bytes := {| gb_data := d; gb_spare := 64; gb_pending := [] |} |}.

Definition crlf : list byte := [x0d; x0a].

Lemma parse_header_reads_a_line_witness :
  ∃ rb', chunk rb' = crlf ++ bs "x" ∧
    @parse_header GrowBuf _ TextHttp (grow_buf (bs " Host : foo.com " ++ crlf ++ bs "x")) =
      Ok (rb', Some (bs "Host", bs "foo.com")).
Proof.
  exact (parse_header_reads_a_line (grow_buf (bs " Host : foo.com " ++ crlf ++ bs "x"))).
Defined.

(** Three line breaks and a lone "\r". *)
Lemma skip_newlines_counts_tokens_witness :
  ∃ rb', chunk rb' = [x0d] ∧
    skip_newlines (grow_buf (x0a :: crlf ++ x0a :: [x0d])) = Ok (rb', NlBreak 4).
Proof. exact (skip_newlines_counts_tokens (grow_buf (x0a :: crlf ++ x0a :: [x0d]))). Defined.
