(* ===== verification/HttpParse.v ===== *)
(** * crates/net/http/src/parse.rs, body.rs: the streaming parsers

    [Requester::parse] and [Responser::parse] have the same two nested loops
    around different state machines: the loops are defined once, over the handler
    of a state ([Section loops]), and instantiated for the two parsers.  The
    stream is any [AsyncRead]; an [await] is its completion. *)

From S2P Require Import Prelude ReadBuf HttpLex.

(** ** The stream

    [read s n] is one completed [stream.read(buf).await] into a slice of [n]
    bytes: an error, or the bytes read (at most [n], [AsyncRead]'s contract). *)
Class AsyncRead (S : Type) := {
  read : S → nat → S * (ErrorKind + list byte);
}.
Class AsyncReadLaws (S : Type) `{AsyncRead S} : Prop := {
  read_len s n s' d : read s n = (s', inr d) → length d ≤ n;
}.

(** ** The states of the two parsers *)
Module RequestParseState.
Inductive t := Method | Uri | Version | Headers | Finished.

(** The [repr(u8)] discriminants. *)
Definition repr (s : t) : nat :=
  match s with Method => 1 | Uri => 2 | Version => 3 | Headers => 4 | Finished => 5 end.

Definition of_repr (n : nat) : option t :=
  match n with
  | 1 => Some Method | 2 => Some Uri | 3 => Some Version
  | 4 => Some Headers | 5 => Some Finished | _ => None
  end.

(** The byte of [self] is incremented in place unless it is [Finished]; [None]
    would be an invalid discriminant. *)
Definition next (s : t) : option t :=
  match s with
  | Finished => Some Finished
  | _ => of_repr (repr s + 1)
  end.
End RequestParseState.

Module ResponseParseState.
Inductive t := Version | StatusCode | Reason | Headers | Finished.

Definition repr (s : t) : nat :=
  match s with
  | Version => 1 | StatusCode => 2 | Reason => 3 | Headers => 4 | Finished => 5
  end.

Definition of_repr (n : nat) : option t :=
  match n with
  | 1 => Some Version | 2 => Some StatusCode | 3 => Some Reason
  | 4 => Some Headers | 5 => Some Finished | _ => None
  end.

Definition next (s : t) : option t :=
  match s with
  | Finished => Some Finished
  | _ => of_repr (repr s + 1)
  end.
End ResponseParseState.

Record Config := { parsing_headers_max_buf : nat }.
Definition default_config : Config := {| parsing_headers_max_buf := 2048 |}.

(** ** The loops of [parse] *)
Section loops.
Context {B : Type} `{BytesMut B} {S : Type} `{AsyncRead S}.
Context {P : Type} (finished : P → bool)
        (handle : P → ReadBuf B → res ParseError.t (P * ReadBuf B * bool)).

(** ['inner: while read_buf.chunk().len() > 0 { match self.state { .. } }];
    [None] is an exhausted fuel. *)
Fixpoint inner_loop (fuel : nat) (p : P) (rb : ReadBuf B) :
    option (res ParseError.t (P * ReadBuf B)) :=
  match fuel with
  | 0 => None
  | Datatypes.S fuel =>
      if decide (length (chunk rb) = 0) then Some (Ok (p, rb))
      else if finished p then Some (Ok (p, rb))
      else match handle p rb with
           | Ok (p, rb, true) => inner_loop fuel p rb
           | Ok (p, rb, false) => Some (Ok (p, rb))
           | Err e => Some (Err e)
           | Panic => Some Panic
           end
  end.

(** ['out: while self.state != Finished { .. }]. *)
Fixpoint outer_loop (fuel : nat) (max : nat) (p : P) (rb : ReadBuf B) (stream : S) :
    option (res ParseError.t (P * ReadBuf B * S)) :=
  match fuel with
  | 0 => None
  | Datatypes.S fuel =>
      if finished p then Some (Ok (p, rb, stream))
      else
        let '(rb, len) := chunk_mut rb in
        if decide (len = 0) then Some (Err (ParseError.ParseBufOverflow max))
        else match read stream len with
             | (stream, inl e) => Some (Err (ParseError.IoError e))
             | (stream, inr d) =>
                 if decide (length d = 0) then Some (Err ParseError.Eof)
                 else
                   let rb := filled (write_chunk rb d) (length d) in
                   match inner_loop (length (chunk rb) + 6) p rb with
                   | None => None
                   | Some (Ok (p, rb)) =>
                       if finished p then Some (Ok (p, rb, stream))
                       else outer_loop fuel max p rb stream
                   | Some (Err e) => Some (Err e)
                   | Some Panic => Some Panic
                   end
             end
  end.
End loops.

(** [BodyReader]: the bytes the parser read beyond the head, and the stream. *)
Record BodyReader (S : Type) := { cached : list byte; body_stream : S }.
Arguments cached {S} _.
Arguments body_stream {S} _.
Definition BodyReader_new {S} (cached : list byte) (stream : S) : BodyReader S :=
  {| cached := cached; body_stream := stream |}.

Section parsers.
Context {B : Type} `{BytesMut B} `{HttpCrate} {S : Type} `{AsyncRead S}.

(** *** The request parser

    [stream] is threaded beside the record. *)
Record Requester := {
  rq_config : Config;
  rq_state : RequestParseState.t;
  rq_builder : option RequestBuilder;
}.

Definition Requester_new_with (config : Config) : Requester :=
  {| rq_config := config; rq_state := RequestParseState.Method;
     rq_builder := Some request_builder_new |}.
Definition Requester_new : Requester := Requester_new_with default_config.

Definition rq_next (self : Requester) : res ParseError.t Requester :=
  st ← unwrap (RequestParseState.next (rq_state self));
  Ok {| rq_config := rq_config self; rq_state := st; rq_builder := rq_builder self |}.

(** [self.builder = Some(self.builder.take().unwrap().f())]. *)
Definition rq_update (f : RequestBuilder → RequestBuilder) (self : Requester) :
    res ParseError.t Requester :=
  b ← unwrap (rq_builder self);
  Ok {| rq_config := rq_config self; rq_state := rq_state self; rq_builder := Some (f b) |}.

Definition rq_set_method (m : Method) := rq_update (λ b, request_builder_method b m).
Definition rq_set_uri (u : Uri) := rq_update (λ b, request_builder_uri b u).
Definition rq_set_version (v : Version) := rq_update (λ b, request_builder_version b v).
Definition rq_set_header (n : HeaderName) (v : HeaderValue) :=
  rq_update (λ b, request_builder_header b n v).

Definition buf_skip_spaces (rb : ReadBuf B) : res ParseError.t (ReadBuf B) :=
  '(_, rb) ← split_to rb (skip_spaces (chunk rb)); Ok rb.

Definition rq_parse_method (self : Requester) (rb : ReadBuf B) :
    res ParseError.t (Requester * ReadBuf B * bool) :=
  rb ← buf_skip_spaces rb;
  match parse_token (chunk rb) with
  | Some len =>
      if decide (len = 0) then Err ParseError.Method
      else
        '(buf, rb) ← split_to rb len;
        m ← ok_or (Method_from_bytes (bm_data buf)) ParseError.InvalidMethod;
        self ← rq_set_method m self;
        self ← rq_next self;
        Ok (self, rb, true)
  | None => Ok (self, rb, false)
  end.

Definition rq_parse_uri (self : Requester) (rb : ReadBuf B) :
    res ParseError.t (Requester * ReadBuf B * bool) :=
  rb ← buf_skip_spaces rb;
  match parse_token (chunk rb) with
  | Some len =>
      if decide (len = 0) then Err ParseError.Uri
      else
        '(buf, rb) ← split_to rb len;
        u ← ok_or (Uri_from_maybe_shared (bm_data buf)) ParseError.InvalidUri;
        self ← rq_set_uri u self;
        self ← rq_next self;
        Ok (self, rb, true)
  | None => Ok (self, rb, false)
  end.

Definition rq_parse_version (self : Requester) (rb : ReadBuf B) :
    res ParseError.t (Requester * ReadBuf B * bool) :=
  rb ← buf_skip_spaces rb;
  version ← parse_version (chunk rb);
  match version with
  | Some version =>
      '(_, rb) ← split_to rb 8;
      self ← rq_set_version version self;
      self ← rq_next self;
      Ok (self, rb, true)
  | None => Ok (self, rb, false)
  end.

Definition rq_parse_header (self : Requester) (rb : ReadBuf B) :
    res ParseError.t (Requester * ReadBuf B * bool) :=
  '(rb, nl) ← skip_newlines rb;
  match nl with
  | NlBreak _ => self ← rq_next self; Ok (self, rb, false)
  | NlIncomplete => Ok (self, rb, false)
  | NlOne _ | NlNone =>
      '(rb, header) ← parse_header rb;
      match header with
      | Some (name, value) =>
          self ← rq_set_header name value self;
          Ok (self, rb, true)
      | None => Ok (self, rb, false)
      end
  end.

Definition rq_finished (self : Requester) : bool :=
  match rq_state self with RequestParseState.Finished => true | _ => false end.

Definition rq_handle (self : Requester) (rb : ReadBuf B) :
    res ParseError.t (Requester * ReadBuf B * bool) :=
  match rq_state self with
  | RequestParseState.Method => rq_parse_method self rb
  | RequestParseState.Uri => rq_parse_uri self rb
  | RequestParseState.Version => rq_parse_version self rb
  | RequestParseState.Headers => rq_parse_header self rb
  | RequestParseState.Finished => Ok (self, rb, false)
  end.

Definition Requester_parse (fuel : nat) (self : Requester) (stream : S) :
    option (res ParseError.t (RequestHead * BodyReader S)) :=
  let max := parsing_headers_max_buf (rq_config self) in
  r ← outer_loop rq_finished rq_handle fuel max self (with_capacity max) stream;
  Some ('(self, rb, stream) ← r;
        builder ← unwrap (rq_builder self);
        head ← ok_or (request_builder_body builder) ParseError.HttpError;
        Ok (head, BodyReader_new (into_bytes rb None) stream)).

Definition parse_request (fuel : nat) (stream : S) :
    option (res ErrorKind (RequestHead * BodyReader S)) :=
  map_err ParseError.into_io_error <$> Requester_parse fuel Requester_new stream.

Definition parse_request_with (fuel : nat) (stream : S) (config : Config) :
    option (res ErrorKind (RequestHead * BodyReader S)) :=
  map_err ParseError.into_io_error <$>
    Requester_parse fuel (Requester_new_with config) stream.

(** *** The response parser *)
Record Responser := {
  rs_config : Config;
  rs_state : ResponseParseState.t;
  rs_builder : option ResponseBuilder;
  rs_reason : option (list byte);
}.

Definition Responser_new_with (config : Config) : Responser :=
  {| rs_config := config; rs_state := ResponseParseState.Version;
     rs_builder := Some response_builder_new; rs_reason := Some [] |}.
Definition Responser_new : Responser := Responser_new_with default_config.

Definition rs_next (self : Responser) : res ParseError.t Responser :=
  st ← unwrap (ResponseParseState.next (rs_state self));
  Ok {| rs_config := rs_config self; rs_state := st; rs_builder := rs_builder self;
        rs_reason := rs_reason self |}.

Definition rs_update (f : ResponseBuilder → ResponseBuilder) (self : Responser) :
    res ParseError.t Responser :=
  b ← unwrap (rs_builder self);
  Ok {| rs_config := rs_config self; rs_state := rs_state self; rs_builder := Some (f b);
        rs_reason := rs_reason self |}.

Definition rs_set_code (c : StatusCode) := rs_update (λ b, response_builder_status b c).
Definition rs_set_version (v : Version) := rs_update (λ b, response_builder_version b v).
Definition rs_set_header (n : HeaderName) (v : HeaderValue) :=
  rs_update (λ b, response_builder_header b n v).
Definition rs_set_reason (reason : list byte) (self : Responser) : Responser :=
  {| rs_config := rs_config self; rs_state := rs_state self; rs_builder := rs_builder self;
     rs_reason := Some reason |}.

Definition rs_parse_status_code (self : Responser) (rb : ReadBuf B) :
    res ParseError.t (Responser * ReadBuf B * bool) :=
  rb ← buf_skip_spaces rb;
  code ← parse_code (chunk rb);
  match code with
  | Some code =>
      self ← rs_set_code code self;
      '(_, rb) ← split_to rb 3;
      self ← rs_next self;
      Ok (self, rb, true)
  | None => Ok (self, rb, false)
  end.

Definition rs_parse_reason (self : Responser) (rb : ReadBuf B) :
    res ParseError.t (Responser * ReadBuf B * bool) :=
  rb ← buf_skip_spaces rb;
  match parse_reason (chunk rb) with
  | Some len =>
      '(buf, rb) ← split_to rb len;
      let self := rs_set_reason (bm_data buf) self in
      self ← rs_next self;
      Ok (self, rb, true)
  | None => Ok (self, rb, false)
  end.

Definition rs_parse_version (self : Responser) (rb : ReadBuf B) :
    res ParseError.t (Responser * ReadBuf B * bool) :=
  rb ← buf_skip_spaces rb;
  version ← parse_version (chunk rb);
  match version with
  | Some version =>
      '(_, rb) ← split_to rb 8;
      self ← rs_set_version version self;
      self ← rs_next self;
      Ok (self, rb, true)
  | None => Ok (self, rb, false)
  end.

Definition rs_parse_header (self : Responser) (rb : ReadBuf B) :
    res ParseError.t (Responser * ReadBuf B * bool) :=
  '(rb, nl) ← skip_newlines rb;
  match nl with
  | NlBreak _ => self ← rs_next self; Ok (self, rb, false)
  | NlIncomplete => Ok (self, rb, false)
  | NlOne _ | NlNone =>
      '(rb, header) ← parse_header rb;
      match header with
      | Some (name, value) =>
          self ← rs_set_header name value self;
          Ok (self, rb, true)
      | None => Ok (self, rb, false)
      end
  end.

Definition rs_finished (self : Responser) : bool :=
  match rs_state self with ResponseParseState.Finished => true | _ => false end.

Definition rs_handle (self : Responser) (rb : ReadBuf B) :
    res ParseError.t (Responser * ReadBuf B * bool) :=
  match rs_state self with
  | ResponseParseState.Version => rs_parse_version self rb
  | ResponseParseState.StatusCode => rs_parse_status_code self rb
  | ResponseParseState.Reason => rs_parse_reason self rb
  | ResponseParseState.Headers => rs_parse_header self rb
  | ResponseParseState.Finished => Ok (self, rb, false)
  end.

Definition Responser_parse (fuel : nat) (self : Responser) (stream : S) :
    option (res ParseError.t (ResponseHead * BodyReader S)) :=
  let max := parsing_headers_max_buf (rs_config self) in
  r ← outer_loop rs_finished rs_handle fuel max self (with_capacity max) stream;
  Some ('(self, rb, stream) ← r;
        builder ← unwrap (rs_builder self);
        head ← ok_or (response_builder_body builder) ParseError.HttpError;
        Ok (head, BodyReader_new (into_bytes rb None) stream)).

Definition parse_response (fuel : nat) (stream : S) :
    option (res ErrorKind (ResponseHead * BodyReader S)) :=
  map_err ParseError.into_io_error <$> Responser_parse fuel Responser_new stream.

Definition parse_response_with (fuel : nat) (stream : S) (config : Config) :
    option (res ErrorKind (ResponseHead * BodyReader S)) :=
  map_err ParseError.into_io_error <$>
    Responser_parse fuel (Responser_new_with config) stream.
End parsers.

(** ** What a state handler promises to the loops *)
Class Handler {B P} `{BytesMut B} (finished : P → bool)
    (handle : P → ReadBuf B → res ParseError.t (P * ReadBuf B * bool))
    (good : P → Prop) (rank : P → nat) : Prop := {
  (** in a good state the handler does not panic, keeps the state good, and
      when it asks to be called again it has consumed bytes or advanced the
      state *)
  handle_spec p rb :
    good p →
    match handle p rb with
    | Panic => False
    | Err _ => True
    | Ok (p', rb', again) =>
        good p' ∧
        (again = true → length (chunk rb') + rank p' < length (chunk rb) + rank p)
    end;
  rank_bound p : rank p ≤ 5;
}.

Section loop_lemmas.
Context {B : Type} `{BytesMut B} {S : Type} `{AsyncRead S}.
Context {P : Type} (finished : P → bool)
        (handle : P → ReadBuf B → res ParseError.t (P * ReadBuf B * bool)).
Context (good : P → Prop) (rank : P → nat) `{!Handler finished handle good rank}.

Definition ends_well {A} (good : A → Prop) (o : option (res ParseError.t A)) : Prop :=
  match o with
  | None | Some Panic => False
  | Some (Err _) => True
  | Some (Ok a) => good a
  end.

Lemma inner_loop_total fuel p rb :
  good p → length (chunk rb) + rank p < fuel →
  ends_well (λ x, good x.1) (inner_loop finished handle fuel p rb).
Proof.
  revert p rb. induction fuel as [|fuel IH]; intros p rb Hg Hlt; simpl; [lia|].
  case_decide; [done|]. destruct (finished p); [done|].
  pose proof (handle_spec p rb Hg) as Hh.
  destruct (handle p rb) as [[[p' rb'] []]| |]; simpl in *; try tauto.
  destruct Hh as [Hg' Hdec]. apply IH; [done|]. specialize (Hdec eq_refl). lia.
Qed.

(** With a stream whose successful reads are finite in number, the parse
    loop ends. *)
Lemma outer_loop_total (left : S → nat) fuel max p rb stream :
  (∀ s n s' d, read s n = (s', inr d) → d ≠ [] → left s' < left s) →
  good p → left stream < fuel →
  ends_well (λ x, good x.1.1) (outer_loop finished handle fuel max p rb stream).
Proof.
  intros Hleft. revert p rb stream.
  induction fuel as [|fuel IH]; intros p rb stream Hg Hlt; simpl; [lia|].
  destruct (finished p); [done|].
  destruct (chunk_mut rb) as [rb1 len]. case_decide; [done|].
  destruct (read stream len) as [stream' [e|d]] eqn:Hr; [done|].
  case_decide; [done|].
  set (rb2 := filled _ _).
  pose proof (rank_bound p) as Hb.
  pose proof (inner_loop_total (length (chunk rb2) + 6) p rb2 Hg ltac:(lia)) as Hin.
  destruct (inner_loop _ _ _ p rb2) as [[[p' rb']| |]|]; simpl in *; try done.
  destruct (finished p'); [done|]. apply IH; [done|].
  apply Hleft in Hr; [lia|]. by intros ->.
Qed.

(** If the writable slice is never empty, the overflow check never fires. *)
Lemma outer_loop_no_overflow fuel max m p rb stream :
  (∀ b : B, 0 < (bm_chunk_mut b).2) →
  (∀ p rb n, good p → handle p rb ≠ Err (ParseError.ParseBufOverflow n)) →
  good p →
  outer_loop finished handle fuel max p rb stream ≠
    Some (Err (ParseError.ParseBufOverflow m)).
Proof.
  intros Hgrow Hh.
  assert (∀ fuel p rb, good p → inner_loop finished handle fuel p rb ≠
    Some (Err (ParseError.ParseBufOverflow m))) as Hin.
  { clear fuel p rb. intros fuel. induction fuel as [|fuel IH]; intros p rb Hg; simpl; [done|].
    case_decide; [done|]. destruct (finished p); [done|].
    specialize (Hh p rb m Hg). pose proof (handle_spec p rb Hg) as Hs.
    destruct (handle p rb) as [[[p' rb'] []]|e|]; simpl; try done; [|congruence].
    by apply IH; destruct Hs. }
  revert p rb stream. induction fuel as [|fuel IH]; intros p rb stream Hg; simpl; [done|].
  destruct (finished p); [done|].
  unfold chunk_mut. specialize (Hgrow (bytes rb)).
  destruct (bm_chunk_mut (bytes rb)) as [b len]; simpl in *.
  rewrite decide_False by lia.
  destruct (read stream len) as [stream' [e|d]]; [done|].
  case_decide; [done|].
  set (rb2 := filled _ _). pose proof (rank_bound p) as Hb.
  pose proof (inner_loop_total (length (chunk rb2) + 6) p rb2 Hg ltac:(lia)) as Hw.
  specialize (Hin (length (chunk rb2) + 6) p rb2 Hg).
  destruct (inner_loop _ _ _ p rb2) as [[[p' rb']|e|]|]; simpl in *; try done.
  - destruct (finished p'); [done|]. by apply IH.
  - congruence.
Qed.
End loop_lemmas.

Section handlers.
Context {B : Type} `{BytesMut B, !BytesMutLaws B} `{HttpCrate} {S : Type} `{AsyncRead S}.

Lemma buf_skip_spaces_spec (rb : ReadBuf B) :
  ∃ rb', buf_skip_spaces rb = Ok rb' ∧ chunk rb' = drop_spaces (chunk rb).
Proof.
  unfold buf_skip_spaces.
  destruct (split_to_ok (E:=ParseError.t) rb (skip_spaces (chunk rb))) as (p&rb'&->&_&Hr);
    [apply skip_spaces_le|]. exists rb'. by rewrite Hr, drop_skip_spaces.
Qed.

Definition rq_good (self : Requester) : Prop := is_Some (rq_builder self).
Definition rq_rank (self : Requester) : nat := 5 - RequestParseState.repr (rq_state self).
Definition rs_good (self : Responser) : Prop := is_Some (rs_builder self).
Definition rs_rank (self : Responser) : nat := 5 - ResponseParseState.repr (rs_state self).

Lemma drop_spaces_le l : length (drop_spaces l) ≤ length l.
Proof. apply drop_spaces_length. Qed.

Lemma parse_version_cases buf :
  match parse_version buf with
  | Ok (Some _) => 8 ≤ length buf
  | Ok None | Err ParseError.Version => True
  | _ => False
  end.
Proof. unfold parse_version. repeat case_decide; simpl; auto. Qed.

Lemma parse_code_cases buf :
  match parse_code buf with
  | Ok (Some _) => 3 ≤ length buf
  | Ok None | Err ParseError.InvalidStatusCode => True
  | _ => False
  end.
Proof.
  unfold parse_code. case_decide; simpl; [|done]. by destruct (StatusCode_from_bytes _); simpl.
Qed.

Lemma parse_header_progress (rb rb' : ReadBuf B) hv :
  parse_header rb = Ok (rb', Some hv) → length (chunk rb') < length (chunk rb).
Proof.
  destruct (parse_header_refines rb) as (rb1&->&Hrest).
  destruct (header_fields (chunk rb)) as [[[n v] rest]|] eqn:Hf; simpl; [|done].
  destruct (HeaderName_from_bytes n); simpl; [|done].
  destruct (HeaderValue_from_maybe_shared v); simpl; [|done].
  intros [= <- <-]. rewrite (Hrest n v rest) by done.
  unfold header_fields in Hf. apply bind_Some in Hf as ([n' r]&Hn&Hf).
  apply bind_Some in Hf as ([v' r']&Hv&Hf). simplify_eq.
  unfold split_first in Hn, Hv.
  apply fmap_Some in Hn as (i&Hi&?), Hv as (j&Hj&?). simplify_eq.
  apply find_offset_lt in Hi, Hj.
  pose proof (drop_spaces_le (chunk rb)).
  pose proof (drop_spaces_le (tail (drop i (drop_spaces (chunk rb))))).
  rewrite <-drop_1_tail, drop_drop, !length_drop in *. lia.
Qed.

(** The common shape of the handlers that read one token. *)
Ltac handler_start rb :=
  let Hs := fresh "Hs" in let Hc := fresh "Hc" in
  destruct (buf_skip_spaces_spec rb) as (?rb&Hs&Hc); rewrite Hs; simpl;
  pose proof (drop_spaces_le (chunk rb)).

Ltac split_step rb n :=
  let Hs := fresh "Hs" in let Hp := fresh "Hp" in let Hc := fresh "Hc" in
  destruct (split_to_ok (E:=ParseError.t) rb n) as (?p&?rb&Hs&Hp&Hc);
  [|rewrite Hs; simpl].

Ltac no_progress := by split; [by eexists|].
Ltac progress_by :=
  split; [by eexists|intros _]; unfold rq_rank, rs_rank in *; simpl;
  repeat match goal with
         | Hc : chunk _ = drop _ _ |- _ => rewrite Hc, length_drop
         | Hc : chunk _ = drop_spaces _ |- _ => rewrite Hc in *
         end; lia.

Lemma parse_header_no_overflow (rb : ReadBuf B) n :
  parse_header rb ≠ Err (ParseError.ParseBufOverflow n).
Proof.
  destruct (parse_header_refines rb) as (rb'&->&_).
  destruct (header_fields _) as [[[m v] rest]|]; simpl; [|done].
  destruct (HeaderName_from_bytes m); simpl; [|done].
  by destruct (HeaderValue_from_maybe_shared v).
Qed.

Lemma rq_handle_spec (self : Requester) (rb : ReadBuf B) :
  rq_good self →
  match rq_handle self rb with
  | Panic => False
  | Err e => ∀ n, e ≠ ParseError.ParseBufOverflow n
  | Ok (self', rb', again) =>
      rq_good self' ∧
      (again = true → length (chunk rb') + rq_rank self' < length (chunk rb) + rq_rank self)
  end.
Proof.
  destruct self as [c st bo]. intros [b ?]; simpl in *; subst bo.
  unfold rq_handle; simpl. destruct st.
  - unfold rq_parse_method. handler_start rb.
    destruct (parse_token (chunk rb0)) as [len|] eqn:Ht; [|no_progress].
    apply find_offset_lt in Ht. case_decide; [done|].
    split_step rb0 len; [lia|].
    destruct (Method_from_bytes _); simpl; [|done]. progress_by.
  - unfold rq_parse_uri. handler_start rb.
    destruct (parse_token (chunk rb0)) as [len|] eqn:Ht; [|no_progress].
    apply find_offset_lt in Ht. case_decide; [done|].
    split_step rb0 len; [lia|].
    destruct (Uri_from_maybe_shared _); simpl; [|done]. progress_by.
  - unfold rq_parse_version. handler_start rb.
    pose proof (parse_version_cases (chunk rb0)) as Hv.
    destruct (parse_version (chunk rb0)) as [[v|]|[]|]; simpl; try done; [|no_progress].
    split_step rb0 8; [lia|]. progress_by.
  - unfold rq_parse_header. destruct (skip_newlines_spec rb) as (rb1&->&Hc); simpl.
    pose proof (parse_header_no_panic rb1) as Hp.
    pose proof (parse_header_no_overflow rb1) as Ho.
    pose proof (parse_header_progress rb1) as Hpr.
    assert (length (chunk rb1) ≤ length (chunk rb)) by (rewrite Hc, length_drop; lia).
    destruct (parse_header rb1) as [[rb2 [[n v]|]]|e|]; simpl; try done.
    + specialize (Hpr rb2 (n, v) eq_refl).
      destruct (classify_run _ _ _); simpl; first [no_progress | progress_by].
    + destruct (classify_run _ _ _); simpl; no_progress.
    + destruct (classify_run _ _ _); simpl; first [no_progress | by intros m ->; apply (Ho m)].
  - no_progress.
Qed.

Lemma rs_handle_spec (self : Responser) (rb : ReadBuf B) :
  rs_good self →
  match rs_handle self rb with
  | Panic => False
  | Err e => ∀ n, e ≠ ParseError.ParseBufOverflow n
  | Ok (self', rb', again) =>
      rs_good self' ∧
      (again = true → length (chunk rb') + rs_rank self' < length (chunk rb) + rs_rank self)
  end.
Proof.
  destruct self as [c st bo rs]. intros [b ?]; simpl in *; subst bo.
  unfold rs_handle; simpl. destruct st.
  - unfold rs_parse_version. handler_start rb.
    pose proof (parse_version_cases (chunk rb0)) as Hv.
    destruct (parse_version (chunk rb0)) as [[v|]|[]|]; simpl; try done; [|no_progress].
    split_step rb0 8; [lia|]. progress_by.
  - unfold rs_parse_status_code. handler_start rb.
    pose proof (parse_code_cases (chunk rb0)) as Hv.
    destruct (parse_code (chunk rb0)) as [[v|]|[]|]; simpl; try done; [|no_progress].
    split_step rb0 3; [lia|]. progress_by.
  - unfold rs_parse_reason. handler_start rb.
    destruct (parse_reason (chunk rb0)) as [len|] eqn:Ht; [|no_progress].
    apply find_offset_lt in Ht. split_step rb0 len; [lia|]. progress_by.
  - unfold rs_parse_header. destruct (skip_newlines_spec rb) as (rb1&->&Hc); simpl.
    pose proof (parse_header_no_panic rb1) as Hp.
    pose proof (parse_header_no_overflow rb1) as Ho.
    pose proof (parse_header_progress rb1) as Hpr.
    assert (length (chunk rb1) ≤ length (chunk rb)) by (rewrite Hc, length_drop; lia).
    destruct (parse_header rb1) as [[rb2 [[n v]|]]|e|]; simpl; try done.
    + specialize (Hpr rb2 (n, v) eq_refl).
      destruct (classify_run _ _ _); simpl; first [no_progress | progress_by].
    + destruct (classify_run _ _ _); simpl; no_progress.
    + destruct (classify_run _ _ _); simpl; first [no_progress | by intros m ->; apply (Ho m)].
  - no_progress.
Qed.

#[export] Instance rq_Handler : Handler rq_finished rq_handle rq_good rq_rank.
Proof.
  split; [|intros p; unfold rq_rank; lia].
  intros p rb Hg. pose proof (rq_handle_spec p rb Hg).
  by destruct (rq_handle p rb) as [[[] ]| |].
Qed.

#[export] Instance rs_Handler : Handler rs_finished rs_handle rs_good rs_rank.
Proof.
  split; [|intros p; unfold rs_rank; lia].
  intros p rb Hg. pose proof (rs_handle_spec p rb Hg).
  by destruct (rs_handle p rb) as [[[] ]| |].
Qed.
End handlers.

(** ** Printing a message head, for the round trips *)
Definition print_version (v : Version) : list byte :=
  match v with
  | HTTP_09 => bs "HTTP/0.9" | HTTP_10 => bs "HTTP/1.0" | HTTP_11 => bs "HTTP/1.1"
  | HTTP_2 => bs "HTTP/2.0" | HTTP_3 => bs "HTTP/3.0"
  end.

Definition print_headers (hs : list (list byte * list byte)) (tl : list byte) : list byte :=
  foldr (λ h acc, crlf ++ h.1 ++ bs ": " ++ h.2 ++ acc) (crlf ++ crlf ++ tl) hs.

Definition print_request (m u : list byte) (v : Version)
    (hs : list (list byte * list byte)) (body : list byte) : list byte :=
  m ++ bs " " ++ u ++ bs " " ++ print_version v ++ print_headers hs body.

Definition print_response (v : Version) (code reason : list byte)
    (hs : list (list byte * list byte)) (body : list byte) : list byte :=
  print_version v ++ bs " " ++ code ++ bs " " ++ reason ++ print_headers hs body.

(** A method or a target: no space or newline in it. *)
Definition wf_token (t : list byte) : Prop :=
  t ≠ [] ∧ Forall (λ c, is_space c || is_newline c = false) t.

(** A header: no colon in the name, no newline in either, no space around them. *)
Definition wf_header (h : list byte * list byte) : Prop :=
  h.1 ≠ [] ∧ Forall (λ c, (c =? ":")%byte = false ∧ is_newline c = false) h.1 ∧
  drop_spaces h.1 = h.1 ∧ trim_end h.1 = h.1 ∧
  Forall (λ c, is_newline c = false) h.2 ∧ drop_spaces h.2 = h.2 ∧ trim_end h.2 = h.2.

Section printing.
Lemma drop_spaces_app l r : l ≠ [] → drop_spaces l = l → drop_spaces (l ++ r) = l ++ r.
Proof.
  destruct l as [|b l]; [done|]. simpl. intros _. destruct (is_space b); [|done].
  intros Hl. apply (f_equal length) in Hl. simpl in Hl.
  pose proof (drop_spaces_length l). lia.
Qed.

Lemma drop_spaces_token t r : wf_token t → drop_spaces (t ++ r) = t ++ r.
Proof.
  intros [Hne Hall]. destruct t as [|b t]; [done|]. simpl.
  apply Forall_cons in Hall as [Hb _]. by apply orb_false_iff in Hb as [-> _].
Qed.

Lemma split_first_app {A} (p : A → bool) l c r :
  Forall (λ x, p x = false) l → p c = true →
  split_first p (l ++ c :: r) = Some (l, c :: r).
Proof.
  intros. unfold split_first. rewrite find_offset_app by done. simpl.
  by rewrite take_app_length, drop_app_length.
Qed.

Lemma newline_run_no c r : is_newline c = false → newline_run (c :: r) = (0, 0).
Proof. destruct c; done. Qed.

(** One printed header line is read back, up to its newline. *)
Lemma header_fields_line h c r :
  wf_header h → is_newline c = true → is_space c = false →
  header_fields (h.1 ++ bs ": " ++ h.2 ++ c :: r) = Some (h.1, h.2, c :: r).
Proof.
  destruct h as [n v]; simpl. intros (Hne&Hn&Hdn&Htn&Hv&Hdv&Htv) Hc Hcs; simpl in *.
  unfold header_fields. rewrite drop_spaces_app by done.
  rewrite split_first_app; [|by eapply Forall_impl; [done|]; intros ? []|done]. simpl.
  assert (drop_spaces (v ++ c :: r) = v ++ c :: r) as ->.
  { destruct v as [|b v]; simpl; [by rewrite Hcs|]. apply (drop_spaces_app (b :: v)); done. }
  rewrite split_first_app by done. simpl. by rewrite Htn, Htv.
Qed.

Lemma print_headers_newline hs body :
  ∃ r, print_headers hs body = crlf ++ r.
Proof. destruct hs; simpl; by eexists. Qed.

End printing.

Section roundtrip.
Context {B : Type} `{BytesMut B, !BytesMutLaws B} `{HttpCrate} {S : Type} `{AsyncRead S}.

(** The header the crate builds from printed bytes. *)
Definition header_parses (h : list byte * list byte) (h' : HeaderName * HeaderValue) : Prop :=
  HeaderName_from_bytes h.1 = Some h'.1 ∧ HeaderValue_from_maybe_shared h.2 = Some h'.2.

(** After a line break, a printed header is read up to its own line break. *)
Lemma parse_printed_header (rb : ReadBuf B) h h' r :
  wf_header h → header_parses h h' →
  chunk rb = crlf ++ h.1 ++ bs ": " ++ h.2 ++ x0d :: r →
  ∃ rb1 rb2, skip_newlines rb = Ok (rb1, NlOne 2) ∧
             parse_header rb1 = Ok (rb2, Some h') ∧ chunk rb2 = x0d :: r.
Proof.
  intros Hw [Hn Hv] Hrb.
  destruct (skip_newlines_spec rb) as (rb1&Hs&Hc1).
  assert (newline_run (chunk rb) = (1, 2)) as Hrun.
  { destruct Hw as (Hne&Hnn&_). rewrite Hrb. unfold crlf. cbn [app].
    rewrite newline_run_cons_crlf. destruct h.1 as [|c n]; [done|].
    apply Forall_cons in Hnn as [[_ Hc] _]. rewrite <-app_comm_cons.
    by rewrite newline_run_no. }
  rewrite Hrun in Hs, Hc1. simpl in Hs, Hc1. rewrite Hrb in Hc1. simpl in Hc1.
  destruct (parse_header_refines rb1) as (rb2&Hp&Hrest).
  assert (header_fields (chunk rb1) = Some (h.1, h.2, x0d :: r)) as Hf.
  { rewrite Hc1. by apply header_fields_line. }
  rewrite Hf in Hp. simpl in Hp. rewrite Hn, Hv in Hp. simpl in Hp.
  exists rb1, rb2. split_and!; [done| |by eapply Hrest].
  rewrite Hp. by destruct h'.
Qed.

(** A token followed by a space, after the spaces before it are skipped. *)
Lemma parse_token_printed t r :
  wf_token t → parse_token (t ++ bs " " ++ r) = Some (length t).
Proof. intros [_ Ht]. apply (find_offset_app _ 0 t " "%byte r); done. Qed.

Lemma buf_skip_spaces_to (rb : ReadBuf B) l :
  drop_spaces (chunk rb) = l →
  ∃ rb', buf_skip_spaces rb = Ok rb' ∧ chunk rb' = l.
Proof. intros <-. apply buf_skip_spaces_spec. Qed.

Lemma split_to_app {E} (rb : ReadBuf B) l r :
  chunk rb = l ++ r →
  ∃ p rb', split_to (E:=E) rb (length l) = Ok (p, rb') ∧ bm_data p = l ∧ chunk rb' = r.
Proof.
  intros Hc. destruct (split_to_ok (E:=E) rb (length l)) as (p&rb'&Hs&Hp&Hr).
  { rewrite Hc, length_app. lia. }
  rewrite Hc, take_app_length in Hp. rewrite Hc, drop_app_length in Hr. eauto.
Qed.

Lemma parse_version_printed v r : parse_version (print_version v ++ r) = Ok (Some v).
Proof. unfold parse_version. rewrite decide_True; [by destruct v|]. destruct v; simpl; lia. Qed.

Lemma drop_spaces_version v r : drop_spaces (print_version v ++ r) = print_version v ++ r.
Proof. by destruct v. Qed.

Lemma drop_spaces_sp r : drop_spaces (bs " " ++ r) = drop_spaces r.
Proof. done. Qed.

Lemma drop_spaces_print_headers hs body :
  drop_spaces (print_headers hs body) = print_headers hs body.
Proof. by destruct (print_headers_newline hs body) as [r ->]. Qed.

Implicit Types (c : Config).
Definition rq_at c st b : Requester :=
  {| rq_config := c; rq_state := st; rq_builder := Some b |}.
Definition rs_at c st b reason : Responser :=
  {| rs_config := c; rs_state := st; rs_builder := Some b; rs_reason := Some reason |}.

Definition request_with_headers :=
  foldl (λ b (h : HeaderName * HeaderValue), request_builder_header b h.1 h.2).
Definition response_with_headers :=
  foldl (λ b (h : HeaderName * HeaderValue), response_builder_header b h.1 h.2).

Lemma inner_loop_again {P} (finished : P → bool) handle fuel p p' (rb rb' : ReadBuf B) :
  chunk rb ≠ [] → finished p = false → handle p rb = Ok (p', rb', true) →
  inner_loop finished handle (Datatypes.S fuel) p rb = inner_loop finished handle fuel p' rb'.
Proof.
  intros Hne Hf Hh. simpl. rewrite decide_False; [by rewrite Hf, Hh|].
  by intros ?%length_zero_iff_nil.
Qed.

Lemma rq_method_step c b m m' (rb : ReadBuf B) r :
  wf_token m → Method_from_bytes m = Some m' → chunk rb = m ++ bs " " ++ r →
  ∃ rb', rq_handle (rq_at c RequestParseState.Method b) rb =
           Ok (rq_at c RequestParseState.Uri (request_builder_method b m'), rb', true) ∧
         chunk rb' = bs " " ++ r.
Proof.
  intros Hm Hm' Hc. unfold rq_handle, rq_parse_method; simpl.
  destruct (buf_skip_spaces_to rb (m ++ bs " " ++ r)) as (rb1&->&Hc1).
  { rewrite Hc. by apply drop_spaces_token. }
  simpl. rewrite Hc1, parse_token_printed by done.
  destruct Hm as [Hne _]. rewrite decide_False by (by intros ?%length_zero_iff_nil).
  destruct (split_to_app (E:=ParseError.t) rb1 m (bs " " ++ r) Hc1) as (p&rb2&->&Hp&Hc2).
  simpl. rewrite Hp, Hm'. simpl. by exists rb2.
Qed.

Lemma rq_uri_step c b u u' (rb : ReadBuf B) r :
  wf_token u → Uri_from_maybe_shared u = Some u' → chunk rb = bs " " ++ u ++ bs " " ++ r →
  ∃ rb', rq_handle (rq_at c RequestParseState.Uri b) rb =
           Ok (rq_at c RequestParseState.Version (request_builder_uri b u'), rb', true) ∧
         chunk rb' = bs " " ++ r.
Proof.
  intros Hm Hm' Hc. unfold rq_handle, rq_parse_uri; simpl.
  destruct (buf_skip_spaces_to rb (u ++ bs " " ++ r)) as (rb1&->&Hc1).
  { rewrite Hc, drop_spaces_sp. by apply drop_spaces_token. }
  simpl. rewrite Hc1, parse_token_printed by done.
  destruct Hm as [Hne _]. rewrite decide_False by (by intros ?%length_zero_iff_nil).
  destruct (split_to_app (E:=ParseError.t) rb1 u (bs " " ++ r) Hc1) as (p&rb2&->&Hp&Hc2).
  simpl. rewrite Hp, Hm'. simpl. by exists rb2.
Qed.

Lemma version_step (rb : ReadBuf B) l v r :
  chunk rb = l ++ print_version v ++ r → drop_spaces (l ++ print_version v ++ r) = print_version v ++ r →
  ∃ rb1 p rb2, buf_skip_spaces rb = Ok rb1 ∧ parse_version (chunk rb1) = Ok (Some v) ∧
               split_to (E:=ParseError.t) rb1 8 = Ok (p, rb2) ∧ chunk rb2 = r.
Proof.
  intros Hc Hd. destruct (buf_skip_spaces_to rb (print_version v ++ r)) as (rb1&Hs&Hc1).
  { by rewrite Hc. }
  destruct (split_to_app (E:=ParseError.t) rb1 (print_version v) r Hc1) as (p&rb2&Hsp&Hp&Hc2).
  exists rb1, p, rb2. rewrite Hc1, parse_version_printed. split_and!; [done..| |done].
  replace 8 with (length (print_version v)) by (by destruct v). done.
Qed.

Lemma rq_version_step c b v (rb : ReadBuf B) r :
  chunk rb = bs " " ++ print_version v ++ r →
  ∃ rb', rq_handle (rq_at c RequestParseState.Version b) rb =
           Ok (rq_at c RequestParseState.Headers (request_builder_version b v), rb', true) ∧
         chunk rb' = r.
Proof.
  intros Hc. unfold rq_handle, rq_parse_version; simpl.
  destruct (version_step rb (bs " ") v r Hc) as (rb1&p&rb2&->&Hv&Hs&Hr).
  { by rewrite drop_spaces_sp, drop_spaces_version. }
  simpl. rewrite Hv; simpl. rewrite Hs; simpl. by exists rb2.
Qed.

Lemma rq_request_line c b fuel m m' u u' v l (rb : ReadBuf B) :
  wf_token m → Method_from_bytes m = Some m' →
  wf_token u → Uri_from_maybe_shared u = Some u' →
  chunk rb = m ++ bs " " ++ u ++ bs " " ++ print_version v ++ l →
  ∃ rb', chunk rb' = l ∧
    inner_loop rq_finished rq_handle (3 + fuel) (rq_at c RequestParseState.Method b) rb =
    inner_loop rq_finished rq_handle fuel
      (rq_at c RequestParseState.Headers
         (request_builder_version (request_builder_uri (request_builder_method b m') u') v)) rb'.
Proof.
  intros Hm Hm' Hu Hu' Hc. cbn [Nat.add].
  destruct (rq_method_step c b m m' rb (u ++ bs " " ++ print_version v ++ l))
    as (rb1&He1&Hc1); [done..|].
  destruct (rq_uri_step c (request_builder_method b m') u u' rb1 (print_version v ++ l))
    as (rb2&He2&Hc2); [done..|].
  destruct (rq_version_step c (request_builder_uri (request_builder_method b m') u') v rb2 l)
    as (rb3&He3&Hc3); [done..|].
  assert (chunk rb ≠ []) as Hne by (rewrite Hc; destruct Hm as [Hm _]; by destruct m).
  assert (chunk rb1 ≠ []) as Hne1 by (by rewrite Hc1).
  assert (chunk rb2 ≠ []) as Hne2 by (by rewrite Hc2).
  exists rb3. split; [done|].
  rewrite (inner_loop_again _ _ _ _ _ _ _ Hne eq_refl He1).
  rewrite (inner_loop_again _ _ _ _ _ _ _ Hne1 eq_refl He2).
  by rewrite (inner_loop_again _ _ _ _ _ _ _ Hne2 eq_refl He3).
Qed.
End roundtrip.

(** ** Parsing from any number of reads *)

(** The stream brings [ds], a read each, whatever slice of enough room it is offered. *)
Fixpoint delivers {S} `{AsyncRead S} (s : S) (ds : list (list byte)) (s' : S) : Prop :=
  match ds with
  | [] => s = s'
  | d :: ds => d ≠ [] ∧ ∃ s1, (∀ n, length d ≤ n → read s n = (s1, inr d)) ∧ delivers s1 ds s'
  end.

(** [core p t]: in state [p], [t] is what the parser has in its buffer and what is still to come of
    a message.  A step stays in such a state when bytes are missing, and reaches [final] when
    none are; [ok r] restricts what may be missing. *)
Class Feeds {B P} `{BytesMut B, !BytesMutCapacity B} (finished : P → bool)
    (handle : P → ReadBuf B → res ParseError.t (P * ReadBuf B * bool)) (good : P → Prop)
    (core : P → list byte → Prop) (ok : list byte → Prop) (final : P → list byte → Prop) : Prop := {
  feed_state p t : core p t → finished p = false ∧ good p ∧ t ≠ [];
  feed_final p c : final p c → finished p = true;
  feed_room p p' rb rb' again : handle p rb = Ok (p', rb', again) → room rb ≤ room rb';
  feed_step p (rb : ReadBuf B) r :
    core p (chunk rb ++ r) → ok r → chunk rb ≠ [] →
    ∃ p' rb' again, handle p rb = Ok (p', rb', again) ∧
      ((core p' (chunk rb' ++ r) ∧ (again = false → r ≠ [])) ∨
       (r = [] ∧ again = false ∧ final p' (chunk rb')));
}.

Section feeds.
Context {B : Type} `{BytesMut B, !BytesMutLaws B, !BytesMutCapacity B, !BytesMutCapacityLaws B}.
Context {S P : Type} `{AsyncRead S} (finished : P → bool)
        (handle : P → ReadBuf B → res ParseError.t (P * ReadBuf B * bool)).
Context (good : P → Prop) (rank : P → nat) `{!Handler finished handle good rank}.
Context (core : P → list byte → Prop) (ok : list byte → Prop) (final : P → list byte → Prop)
        `{!Feeds finished handle good core ok final}.

Lemma inner_loop_feeds fuel p (rb : ReadBuf B) r :
  core p (chunk rb ++ r) → ok r → length (chunk rb) + rank p < fuel →
  ∃ p' rb', inner_loop finished handle fuel p rb = Some (Ok (p', rb')) ∧ room rb ≤ room rb' ∧
    ((r ≠ [] ∧ core p' (chunk rb' ++ r)) ∨ (r = [] ∧ final p' (chunk rb'))).
Proof.
  revert p rb. induction fuel as [|fuel IH]; intros p rb Hc Hok Hf; [lia|]. simpl.
  destruct (feed_state _ _ Hc) as (Hfin&Hg&Hne). case_decide as Hz.
  - apply length_zero_iff_nil in Hz. exists p, rb. split_and!; [done|done|]. left. split; [|done].
    intros ->. by rewrite Hz in Hne.
  - rewrite Hfin.
    destruct (feed_step p rb r Hc Hok) as (p'&rb'&again&Hh&Hr); [by intros Hnil%(f_equal length)|].
    pose proof (feed_room _ _ _ _ _ Hh) as Hroom. pose proof (handle_spec p rb Hg) as Hs.
    rewrite Hh in *. destruct Hs as [_ Hdec], Hr as [[Hc' Hm]|(->&->&Hd)].
    + destruct again; [|exists p', rb'; split_and!; [done|done|left; by split; [apply Hm|]]].
      specialize (Hdec eq_refl). destruct (IH p' rb' Hc' Hok) as (p2&rb2&Hi&Hr2&Hres); [lia|].
      exists p2, rb2. split_and!; [done|lia|done].
    + exists p', rb'. split_and!; [done|done|]. by right.
Qed.

(** One read of a message that fits the buffer. *)
Lemma read_feeds max fuel p (rb : ReadBuf B) d r s s1 :
  core p (chunk rb ++ d ++ r) → ok r → d ≠ [] → length d ≤ room rb →
  (∀ n, length d ≤ n → read s n = (s1, inr d)) →
  ∃ p' rb', room rb ≤ room rb' + length d ∧
    ((r ≠ [] ∧ core p' (chunk rb' ++ r) ∧
      outer_loop finished handle (Datatypes.S fuel) max p rb s = outer_loop finished handle fuel max p' rb' s1) ∨
     (r = [] ∧ final p' (chunk rb') ∧
      outer_loop finished handle (Datatypes.S fuel) max p rb s = Some (Ok (p', rb', s1)))).
Proof.
  intros Hc Hok Hd Hroom Hread. cbn [outer_loop]. rewrite (proj1 (feed_state _ _ Hc)).
  destruct (chunk_mut rb) as [rb0 len] eqn:Hcm. destruct (room_chunk _ _ _ Hcm) as [Hlen Hrl].
  rewrite decide_False by lia. rewrite Hread by lia.
  rewrite decide_False by (by intros ?%length_zero_iff_nil).
  pose proof (room_filled _ _ _ d Hcm ltac:(lia)) as Hfill.
  pose proof (chunk_filled _ _ _ d Hcm ltac:(lia)) as Hch.
  set (rb1 := filled _ _) in *. rewrite app_assoc, <-Hch in Hc. pose proof (rank_bound p).
  destruct (inner_loop_feeds (length (chunk rb1) + 6) p rb1 r Hc Hok) as (p'&rb'&->&Hr&Hres); [lia|].
  exists p', rb'. split; [lia|]. destruct Hres as [[Hne Hc']|[-> Hf]].
  - left. by rewrite (proj1 (feed_state _ _ Hc')).
  - right. by rewrite (feed_final _ _ Hf).
Qed.

(** All the reads of a message: [ds], and the one that completes it. *)
Lemma outer_loop_feeds max fuel ds d p (rb : ReadBuf B) s s' :
  core p (chunk rb ++ concat ds ++ d) → ok [] → (∀ l, ok (l ++ d)) →
  length (concat ds ++ d) ≤ room rb → delivers s (ds ++ [d]) s' →
  ∃ p' rb', final p' (chunk rb') ∧
    outer_loop finished handle (length ds + Datatypes.S fuel) max p rb s = Some (Ok (p', rb', s')).
Proof.
  intros Hc Hnil Hok. revert p rb s Hc. induction ds as [|e ds IH]; intros p rb s Hc Hroom Hds.
  - destruct Hds as (Hd&s1&Hread&<-). simpl in *.
    destruct (read_feeds max fuel p rb d [] s s1) as (p'&rb'&_&[(?&_)|(_&Hf&Ho)]);
      rewrite ?app_nil_r; try done. by exists p', rb'.
  - destruct Hds as (He&s1&Hread&Hds). simpl in Hc, Hroom. rewrite <-app_assoc in Hc, Hroom.
    rewrite length_app in Hroom.
    assert (d ≠ []) as Hd.
    { clear -Hds. revert s1 Hds. induction ds as [|x ds IH]; intros s1; [by intros [? _]|].
      intros (_&s2&_&Hds). by apply (IH s2). }
    destruct (read_feeds max (length ds + Datatypes.S fuel) p rb e (concat ds ++ d) s s1)
      as (p'&rb'&Hr&[(_&Hc'&Ho)|(Hn&_)]); [done|apply Hok|done|lia|done| |].
    + change (length (e :: ds) + Datatypes.S fuel) with (Datatypes.S (length ds + Datatypes.S fuel)).
      rewrite Ho. apply IH; [done|lia|done].
    + apply (f_equal length) in Hn. rewrite length_app in Hn. destruct d; [done|simpl in Hn; lia].
Qed.
End feeds.

(** ** A message whose end has not come yet *)
Section partial.
Context {B : Type} `{BytesMut B, !BytesMutLaws B} `{HttpCrate}.

(** What is cut off a text [l ++ x :: t]: it ends in [l], or after [x]. *)
Lemma cut_at {A} (c r l t : list A) x :
  c ++ r = l ++ x :: t →
  (∃ c', c = l ++ x :: c' ∧ c' ++ r = t) ∨ (∃ l', l = c ++ l' ∧ r = l' ++ x :: t).
Proof.
  intros Heq. apply app_eq_app in Heq as (k&[[-> Ht]|[-> ->]]); [|by right; exists k].
  destruct k as [|y k]; simpl in Ht.
  - right. exists []. by rewrite !app_nil_r.
  - injection Ht as <- ->. left. by exists k.
Qed.

Definition spaces (l : list byte) : Prop := Forall (λ c, is_space c = true) l.

(** The spaces before a text that starts with another byte are skipped as they come. *)
Lemma skip_partial c r l t :
  c ++ r = l ++ t → spaces l → t ≠ [] → drop_spaces t = t →
  ∃ l', spaces l' ∧ drop_spaces c ++ r = l' ++ t ∧ (drop_spaces c = [] ∧ r ≠ [] ∨ l' = []).
Proof.
  intros Heq Hl. revert c Heq. induction Hl as [|x l Hx Hl IH]; intros c Heq Ht Hd; simpl in Heq.
  - exists []. split_and!; [constructor| |by right]. simpl. rewrite <-Heq. f_equal.
    destruct c as [|y c]; [done|]. simpl in *. subst t. simpl in Hd. destruct (is_space y); [|done].
    apply (f_equal length) in Hd. simpl in Hd. pose proof (drop_spaces_length (c ++ r)). lia.
  - destruct c as [|y c]; simpl in Heq.
    + exists (x :: l). split_and!; [by constructor|by rewrite Heq|]. left. by rewrite Heq.
    + injection Heq as -> Heq. simpl. rewrite Hx. by apply IH.
Qed.

(** A slice without a newline is not a header line yet. *)
Lemma header_fields_partial d : Forall (λ c, is_newline c = false) d → header_fields d = None.
Proof.
  intros Hd. unfold header_fields, split_first. rewrite <-drop_skip_spaces.
  destruct (find_offset (λ c, (c =? ":")%byte) 0 _) as [n|]; [|done]. simpl.
  rewrite <-(drop_skip_spaces (tail _)), <-drop_1_tail.
  assert (find_offset is_newline 0
    (drop (skip_spaces (drop 1 (drop n (drop (skip_spaces d) d)))) (drop 1 (drop n (drop (skip_spaces d) d)))) = None)
    as ->; [|done]. apply find_offset_None. by repeat apply Forall_drop.
Qed.

(** [header_text body hs t]: [t] is what is left of the headers [hs], the end of the head and
    the body, with the line break before the next header, or without it. *)
Definition header_text (body : list byte) (hs : list (list byte * list byte)) (t : list byte) : Prop :=
  t = print_headers hs body ∨
  ∃ h hs1, hs = h :: hs1 ∧ t = h.1 ++ bs ": " ++ h.2 ++ print_headers hs1 body.

(** The end of a head must not be cut after its first two bytes. *)
Definition whole_end (body r : list byte) : Prop := r = [] ∨ 3 + length body ≤ length r.

(** The body without the line breaks that it starts with. *)
Definition body_rest (body : list byte) : list byte := drop (newline_run body).2 body.

(** What the two functions of [parse_header] do with what has come. *)
Inductive header_outcome (rb : ReadBuf B) (body r : list byte) : list (list byte * list byte) → Prop :=
| ho_end rb1 n :
    skip_newlines rb = Ok (rb1, NlBreak n) → r = [] → chunk rb1 = body_rest body →
    header_outcome rb body r []
| ho_wait rb1 nl rb2 hs :
    skip_newlines rb = Ok (rb1, nl) → (nl = NlNone ∨ ∃ n, nl = NlOne n) →
    parse_header rb1 = Ok (rb2, None) → r ≠ [] → header_text body hs (chunk rb2 ++ r) →
    header_outcome rb body r hs
| ho_line rb1 nl rb2 h hs :
    skip_newlines rb = Ok (rb1, nl) → (nl = NlNone ∨ ∃ n, nl = NlOne n) →
    (∀ h', header_parses h h' → parse_header rb1 = Ok (rb2, Some h')) →
    chunk rb2 ++ r = print_headers hs body → header_outcome rb body r (h :: hs).

(** After the line break. *)
Lemma header_line_partial (rb rb1 : ReadBuf B) nl body r h hs :
  skip_newlines rb = Ok (rb1, nl) → (nl = NlNone ∨ ∃ n, nl = NlOne n) → wf_header h →
  chunk rb1 ++ r = h.1 ++ bs ": " ++ h.2 ++ print_headers hs body →
  header_outcome rb body r (h :: hs).
Proof.
  intros Hs Hnl Hw Hc. destruct (print_headers_newline hs body) as [t Ht].
  destruct (parse_header_refines rb1) as (rb2&Hp&Hrest).
  assert (chunk rb1 ++ r = (h.1 ++ bs ": " ++ h.2) ++ x0d :: x0a :: t) as Hc'
    by (rewrite Hc, Ht, <-!app_assoc; done).
  apply cut_at in Hc' as [(c'&Hc1&Hr)|(l'&Hl&Hr)].
  - assert (header_fields (chunk rb1) = Some (h.1, h.2, x0d :: c')) as Hf.
    { rewrite Hc1, <-!app_assoc. by apply header_fields_line. }
    rewrite Hf in Hp. eapply (ho_line _ _ _ _ _ rb2); [exact Hs|exact Hnl| |].
    + intros h' [Hn Hv]. rewrite Hp. simpl. rewrite Hn. simpl. rewrite Hv. simpl. by destruct h'.
    + rewrite (Hrest _ _ _ Hf), Ht. unfold crlf. simpl. by rewrite Hr.
  - assert (Forall (λ c, is_newline c = false) (h.1 ++ bs ": " ++ h.2)) as Hno.
    { destruct Hw as (_&Hn&_&_&Hv&_). apply Forall_app. split; [by eapply Forall_impl; [done|]; intros ? []|].
      apply Forall_app. split; [by repeat constructor|done]. }
    rewrite Hl in Hno. apply Forall_app in Hno as [Hno _]. rewrite (header_fields_partial _ Hno) in Hp.
    eapply ho_wait; [exact Hs|exact Hnl|exact Hp| |].
    + rewrite Hr. by destruct l'.
    + right. by exists h, hs.
Qed.

Lemma skip_newlines_run (rb : ReadBuf B) k n t :
  newline_run (chunk rb) = (k, n) → chunk rb = take n (chunk rb) ++ t → length (take n (chunk rb)) = n →
  ∃ rb1, skip_newlines rb = Ok (rb1, classify_run false 0 (k, n)) ∧ chunk rb1 = t.
Proof.
  intros Hr Hc Hl. destruct (skip_newlines_spec rb) as (rb1&Hs&Hc1). rewrite Hr in *. simpl in Hc1.
  exists rb1. split; [done|]. rewrite Hc1. rewrite Hc at 1. rewrite <-Hl at 1. apply drop_app_length.
Qed.

(** A "\r" alone. *)
Lemma lone_cr (rb : ReadBuf B) :
  chunk rb = [x0d] → ∃ rb1, skip_newlines rb = Ok (rb1, NlNone) ∧ chunk rb1 = [x0d] ∧ parse_header rb1 = Ok (rb1, None).
Proof.
  intros Hc. destruct (skip_newlines_run rb 0 0 [x0d]) as (rb1&Hs&Hc1); [by rewrite Hc|by rewrite Hc|done|].
  exists rb1. split_and!; [done|done|]. destruct (parse_header_refines rb1) as (rb2&Hp&_).
  by rewrite Hc1 in Hp.
Qed.

(** A line break, when what follows it is not one. *)
Lemma one_break (rb : ReadBuf B) c :
  chunk rb = x0d :: x0a :: c → newline_run c = (0, 0) →
  ∃ rb1, skip_newlines rb = Ok (rb1, NlOne 2) ∧ chunk rb1 = c.
Proof.
  intros Hc Hn. destruct (skip_newlines_run rb 1 2 c) as (rb1&Hs&Hc1); [|by rewrite Hc|by rewrite Hc|].
  - by rewrite Hc, newline_run_cons_crlf, Hn.
  - by exists rb1.
Qed.

Lemma header_start_run h t c r :
  wf_header h → c ++ r = h.1 ++ t → newline_run c = (0, 0).
Proof.
  intros (Hne&Hn&_) Hc. destruct c as [|x c]; [done|]. apply newline_run_no.
  destruct h.1 as [|y n]; [done|]. apply Forall_cons in Hn as [[_ Hy] _]. simpl in Hc. by injection Hc as -> _.
Qed.

Lemma header_partial (rb : ReadBuf B) body r hs :
  Forall wf_header hs → header_text body hs (chunk rb ++ r) → whole_end body r → chunk rb ≠ [] →
  header_outcome rb body r hs.
Proof.
  intros Hw Ht Hr Hne. assert (∀ t, chunk rb = [x0d] → r = x0a :: t → header_outcome rb body r hs) as Hcr.
  { intros t Hc Hr'. destruct (lone_cr rb Hc) as (rb1&Hs&Hc1&Hp).
    eapply ho_wait; [exact Hs|by left|exact Hp|by rewrite Hr'|]. by rewrite Hc1, <-Hc. }
  destruct Ht as [Ht|(h&hs1&->&Ht)].
  - destruct (chunk rb) as [|x [|y c]] eqn:Hc; [done| |].
    { destruct (print_headers_newline hs body) as [t Hh]. rewrite Hh in Ht. unfold crlf in Ht.
      simpl in Ht. injection Ht as -> Ht. by apply (Hcr t). }
    destruct hs as [|h hs1].
    + simpl in Ht. injection Ht as -> -> Ht. destruct Hr as [->|Hr].
      * rewrite app_nil_r in Ht. subst c.
        destruct (newline_run body) as [k n] eqn:Hk.
        destruct (skip_newlines_run rb (2 + k) (4 + n) (body_rest body)) as (rb1&Hs&Hc1).
        -- by rewrite Hc, !newline_run_cons_crlf, Hk.
        -- rewrite Hc. unfold body_rest. rewrite Hk. simpl. by rewrite take_drop.
        -- rewrite Hc. simpl. rewrite length_take. pose proof (newline_run_le body). rewrite Hk in *. simpl in *. lia.
        -- eapply ho_end; [exact Hs|done|exact Hc1].
      * apply (f_equal length) in Ht. rewrite length_app in Ht. simpl in Ht. lia.
    + apply Forall_cons in Hw as [Hwh _].
      change (print_headers (h :: hs1) body)
        with (x0d :: x0a :: h.1 ++ bs ": " ++ h.2 ++ print_headers hs1 body) in Ht.
      simpl in Ht. injection Ht as -> -> Ht.
      destruct (one_break rb c Hc) as (rb1&Hs&Hc1); [by eapply header_start_run|].
      eapply header_line_partial; [exact Hs|by right; eexists|done|]. by rewrite Hc1.
  - apply Forall_cons in Hw as [Hwh _].
    destruct (skip_newlines_run rb 0 0 (chunk rb)) as (rb1&Hs&Hc1); [by eapply header_start_run|done|done|].
    eapply header_line_partial; [exact Hs|by left|done|]. by rewrite Hc1.
Qed.
End partial.

Section handlers_feed.
Context {B : Type} `{BytesMut B, !BytesMutLaws B, !BytesMutCapacity B, !BytesMutCapacityLaws B} `{HttpCrate}.

(** *** The room of the buffer never shrinks by parsing *)
Ltac room_tac :=
  repeat match goal with
  | H : mbind _ _ = Ok _ |- _ => apply res_bind_ok in H as (?&?&?)
  | H : ok_or ?o _ = Ok _ |- _ => destruct o; simplify_eq/=
  | H : split_to _ _ = Ok (_, _) |- _ => apply room_split_to in H
  | x : _ * _ |- _ => destruct x
  end.

Lemma room_skip_spaces (rb rb' : ReadBuf B) : buf_skip_spaces rb = Ok rb' → room rb ≤ room rb'.
Proof. unfold buf_skip_spaces. intros Hb. room_tac. simplify_eq/=. done. Qed.
Lemma room_skip_newlines (rb rb' : ReadBuf B) nl : skip_newlines rb = Ok (rb', nl) → room rb ≤ room rb'.
Proof.
  unfold skip_newlines. intros Hb. apply res_bind_ok in Hb as (x&_&Hb).
  destruct x; room_tac; by simplify_eq/=.
Qed.
Lemma room_parse_header (rb rb' : ReadBuf B) o : parse_header rb = Ok (rb', o) → room rb ≤ room rb'.
Proof.
  unfold parse_header. intros Hb. apply res_bind_ok in Hb as (x&_&Hb).
  destruct (parse_header_name x); [|by simplify_eq].
  apply res_bind_ok in Hb as (y&_&Hb). apply res_bind_ok in Hb as (z&_&Hb).
  destruct (parse_header_value z); [|by simplify_eq]. room_tac. simplify_eq/=. lia.
Qed.


Ltac room_step :=
  match goal with
  | Hb : (_ ≫= _) = Ok _ |- _ => apply res_bind_ok in Hb as (?&?&Hb)
  | x : (_ * _)%type |- _ => destruct x
  | H : buf_skip_spaces _ = Ok _ |- _ => apply room_skip_spaces in H
  | H : skip_newlines _ = Ok _ |- _ => apply room_skip_newlines in H
  | H : parse_header _ = Ok _ |- _ => apply room_parse_header in H
  | H : split_to _ _ = Ok _ |- _ => apply room_split_to in H
  | H : Ok _ = Ok _ |- _ => injection H as ? ? ?; subst
  | H : Err _ = Ok _ |- _ => discriminate H
  | Hb : context [match ?x with _ => _ end] |- _ => destruct x; simpl in Hb
  end.

Lemma rq_handle_room (p p' : Requester) (rb rb' : ReadBuf B) again :
  rq_handle p rb = Ok (p', rb', again) → room rb ≤ room rb'.
Proof.
  unfold rq_handle, rq_parse_method, rq_parse_uri, rq_parse_version, rq_parse_header.
  intros Hb. destruct (rq_state p); repeat room_step; lia.
Qed.
Lemma rs_handle_room (p p' : Responser) (rb rb' : ReadBuf B) again :
  rs_handle p rb = Ok (p', rb', again) → room rb ≤ room rb'.
Proof.
  unfold rs_handle, rs_parse_reason, rs_parse_status_code, rs_parse_version, rs_parse_header.
  intros Hb. destruct (rs_state p); repeat room_step; lia.
Qed.
End handlers_feed.

Section tokens.
Context {B : Type} `{BytesMut B, !BytesMutLaws B}.

(** A token up to the first byte in [stop]. *)
Lemma token_partial (stop : byte → bool) (rb : ReadBuf B) r l tok x t :
  chunk rb ++ r = l ++ tok ++ x :: t → spaces l → drop_spaces (tok ++ x :: t) = tok ++ x :: t →
  Forall (λ c, stop c = false) tok → stop x = true →
  ∃ rb1, buf_skip_spaces rb = Ok rb1 ∧
    ((find_offset stop 0 (chunk rb1) = None ∧ r ≠ [] ∧ ∃ l', spaces l' ∧ chunk rb1 ++ r = l' ++ tok ++ x :: t) ∨
     (∃ p rb2, find_offset stop 0 (chunk rb1) = Some (length tok) ∧
        split_to (E:=ParseError.t) rb1 (length tok) = Ok (p, rb2) ∧ bm_data p = tok ∧ chunk rb2 ++ r = x :: t)).
Proof.
  intros Heq Hl Hd Htok Hx. destruct (buf_skip_spaces_spec rb) as (rb1&Hs&Hc). exists rb1. split; [done|].
  destruct (skip_partial _ _ _ _ Heq Hl) as (l'&Hl'&Heq'&Hcase); [by destruct tok|done|]. rewrite <-Hc in *.
  destruct Hcase as [[Hn Hr]| ->].
  - left. rewrite Hn. split_and!; [done|done|]. exists l'. by rewrite <-Hn at 1.
  - simpl in Heq'. apply cut_at in Heq' as [(c'&Hc'&Hr)|(k&Hk&Hr)].
    + right. destruct (split_to_app (E:=ParseError.t) rb1 tok (x :: c') Hc') as (p&rb2&Hsp&Hp&Hc2).
      exists p, rb2. split_and!; [|done|done|by rewrite Hc2, <-Hr].
      rewrite Hc'. by apply (find_offset_app _ 0).
    + left. rewrite Hk in Htok. apply Forall_app in Htok as [Htok _]. split_and!.
      * by apply find_offset_None.
      * rewrite Hr. by destruct k.
      * exists []. split; [constructor|]. simpl. by rewrite Hr, app_assoc, <-Hk.
Qed.

(** A token of known length. *)
Lemma fixed_partial (rb : ReadBuf B) r l tok t :
  chunk rb ++ r = l ++ tok ++ t → spaces l → tok ≠ [] → drop_spaces tok = tok →
  ∃ rb1, buf_skip_spaces rb = Ok rb1 ∧
    ((length (chunk rb1) < length tok ∧ r ≠ [] ∧ ∃ l', spaces l' ∧ chunk rb1 ++ r = l' ++ tok ++ t) ∨
     (∃ c p rb2, chunk rb1 = tok ++ c ∧
        split_to (E:=ParseError.t) rb1 (length tok) = Ok (p, rb2) ∧ chunk rb2 ++ r = t)).
Proof.
  intros Heq Hl Hne Hd. destruct (buf_skip_spaces_spec rb) as (rb1&Hs&Hc). exists rb1. split; [done|].
  destruct (skip_partial _ _ _ _ Heq Hl) as (l'&Hl'&Heq'&Hcase); [by destruct tok|by apply drop_spaces_app|].
  rewrite <-Hc in *. assert (0 < length tok) as Hlen by (destruct tok; [done|simpl; lia]).
  destruct Hcase as [[Hn Hr]| ->].
  - left. rewrite Hn. split_and!; [done|done|]. exists l'. by rewrite <-Hn at 1.
  - simpl in Heq'. apply app_eq_app in Heq' as (k&[[Hk Ht]|[Hk Ht]]).
    + right. destruct (split_to_app (E:=ParseError.t) rb1 tok k Hk) as (p&rb2&Hsp&_&Hc2).
      exists k, p, rb2. split_and!; [done|done|by rewrite Hc2].
    + destruct k as [|y k].
      * rewrite app_nil_r in Hk. right.
        destruct (split_to_app (E:=ParseError.t) rb1 tok []) as (p&rb2&Hsp&_&Hc2); [by rewrite app_nil_r|].
        exists [], p, rb2. rewrite app_nil_r. split_and!; [done|done|]. by rewrite Hc2, Ht.
      * left. split_and!; [rewrite Hk, length_app; simpl; lia|by rewrite Ht|].
        exists []. split; [constructor|]. simpl. by rewrite Ht, Hk, <-app_assoc.
Qed.
Lemma header_text_ne body k t : Forall wf_header k → header_text body k t → t ≠ [].
Proof.
  intros Hk [->|(h&k1&->&->)].
  - by destruct (print_headers_newline k body) as [r ->].
  - apply Forall_cons in Hk as [(Hne&_) _]. by destruct h.1.
Qed.

Lemma app_ne (l t : list byte) : t ≠ [] → l ++ t ≠ [].
Proof. by destruct l. Qed.
Lemma print_version_ne v : print_version v ≠ [].
Proof. by destruct v. Qed.
Lemma sp_spaces : spaces (bs " ").
Proof. by repeat constructor. Qed.

(** [HTTP/1.1] and the like. *)
Lemma version_partial v (rb : ReadBuf B) r l t :
  chunk rb ++ r = l ++ print_version v ++ t → spaces l →
  ∃ rb1, buf_skip_spaces rb = Ok rb1 ∧
    ((parse_version (chunk rb1) = Ok None ∧ r ≠ [] ∧ ∃ l', spaces l' ∧ chunk rb1 ++ r = l' ++ print_version v ++ t) ∨
     (∃ p rb2, parse_version (chunk rb1) = Ok (Some v) ∧ split_to (E:=ParseError.t) rb1 8 = Ok (p, rb2) ∧
        chunk rb2 ++ r = t)).
Proof.
  intros Hc Hl. assert (length (print_version v) = 8) as H8 by (by destruct v).
  destruct (fixed_partial rb r l (print_version v) t) as (rb1&Hs&Hres);
    [done|done|apply print_version_ne|by destruct v|]. exists rb1. split; [done|].
  rewrite H8 in Hres. destruct Hres as [(Hlt&Hr&Hl')|(c&p&rb2&Hc1&Hsp&Hc2)].
  - left. split_and!; [|done|done]. unfold parse_version. by rewrite decide_False by lia.
  - right. exists p, rb2. split_and!; [|done|done]. rewrite Hc1. apply parse_version_printed.
Qed.
End tokens.

(** The parser goes on, in the state that the goal names. *)
Ltac feed_next :=
  do 3 eexists; (split; [done|]); (split; [|done]); do 2 eexists; (split; [done|]); simpl.

Section request_feed.
Context {B : Type} `{BytesMut B, !BytesMutLaws B, !BytesMutCapacity B, !BytesMutCapacityLaws B} `{HttpCrate}.
Context (config : Config) (m u : list byte) (m' : Method) (u' : Uri) (v : Version)
  (hs : list (list byte * list byte)) (hs' : list (HeaderName * HeaderValue)) (body : list byte).
Context (Hm : wf_token m) (Hm' : Method_from_bytes m = Some m')
  (Hu : wf_token u) (Hu' : Uri_from_maybe_shared u = Some u')
  (Hw : Forall wf_header hs) (Hhs : Forall2 header_parses hs hs').

Definition rq_start : RequestBuilder := request_builder_version
  (request_builder_uri (request_builder_method request_builder_new m') u') v.
Definition rq_final (self : Requester) (c : list byte) : Prop :=
  self = rq_at config RequestParseState.Finished (request_with_headers rq_start hs') ∧ c = body_rest body.

(** The parser in the middle of the message. *)
Definition rq_core (self : Requester) (t : list byte) : Prop :=
  ∃ st b, self = rq_at config st b ∧
  match st with
  | RequestParseState.Method => b = request_builder_new ∧
      ∃ l, spaces l ∧ t = l ++ m ++ bs " " ++ u ++ bs " " ++ print_version v ++ print_headers hs body
  | RequestParseState.Uri => b = request_builder_method request_builder_new m' ∧
      ∃ l, spaces l ∧ t = l ++ u ++ bs " " ++ print_version v ++ print_headers hs body
  | RequestParseState.Version =>
      b = request_builder_uri (request_builder_method request_builder_new m') u' ∧
      ∃ l, spaces l ∧ t = l ++ print_version v ++ print_headers hs body
  | RequestParseState.Headers => ∃ k k', Forall wf_header k ∧ Forall2 header_parses k k' ∧
      request_with_headers b k' = request_with_headers rq_start hs' ∧ header_text body k t
  | RequestParseState.Finished => False
  end.

Lemma rq_core_method (rb : ReadBuf B) r :
  rq_core (rq_at config RequestParseState.Method request_builder_new) (chunk rb ++ r) →
  ∃ p' rb' again, rq_handle (rq_at config RequestParseState.Method request_builder_new) rb = Ok (p', rb', again) ∧
    rq_core p' (chunk rb' ++ r) ∧ (again = false → r ≠ []).
Proof.
  intros (st&b&He&Hc). injection He as <- <-. destruct Hc as (_&l&Hl&Hc).
  unfold rq_handle, rq_parse_method. simpl.
  destruct (token_partial (λ c, is_space c || is_newline c) rb r l m " "%byte
    (u ++ bs " " ++ print_version v ++ print_headers hs body)) as (rb1&->&Hres);
    [exact Hc|done|by apply drop_spaces_token|apply Hm|done|]. cbn [mbind res_bind].
  fold (parse_token (chunk rb1)) in Hres. destruct Hres as [(->&Hr&l'&Hl'&Hc')|(p&rb2&->&Hsp&Hp&Hc')].
  - feed_next. split; [done|]. by exists l'.
  - rewrite decide_False by (destruct Hm as [Hne _]; by destruct m). rewrite Hsp. simpl. rewrite Hp, Hm'. simpl.
    feed_next. split; [done|]. exists (bs " "). by split; [apply sp_spaces|].
Qed.

Lemma rq_core_uri b (rb : ReadBuf B) r :
  rq_core (rq_at config RequestParseState.Uri b) (chunk rb ++ r) →
  ∃ p' rb' again, rq_handle (rq_at config RequestParseState.Uri b) rb = Ok (p', rb', again) ∧
    rq_core p' (chunk rb' ++ r) ∧ (again = false → r ≠ []).
Proof.
  intros (st&b0&He&Hc). injection He as <- <-. destruct Hc as (->&l&Hl&Hc).
  unfold rq_handle, rq_parse_uri. simpl.
  destruct (token_partial (λ c, is_space c || is_newline c) rb r l u " "%byte
    (print_version v ++ print_headers hs body)) as (rb1&->&Hres);
    [exact Hc|done|by apply drop_spaces_token|apply Hu|done|]. cbn [mbind res_bind].
  fold (parse_token (chunk rb1)) in Hres. destruct Hres as [(->&Hr&l'&Hl'&Hc')|(p&rb2&->&Hsp&Hp&Hc')].
  - feed_next. split; [done|]. by exists l'.
  - rewrite decide_False by (destruct Hu as [Hne _]; by destruct u). rewrite Hsp. simpl. rewrite Hp, Hu'. simpl.
    feed_next. split; [done|]. exists (bs " "). by split; [apply sp_spaces|].
Qed.

Lemma rq_core_version b (rb : ReadBuf B) r :
  rq_core (rq_at config RequestParseState.Version b) (chunk rb ++ r) →
  ∃ p' rb' again, rq_handle (rq_at config RequestParseState.Version b) rb = Ok (p', rb', again) ∧
    rq_core p' (chunk rb' ++ r) ∧ (again = false → r ≠ []).
Proof.
  intros (st&b0&He&Hc). injection He as <- <-. destruct Hc as (->&l&Hl&Hc).
  unfold rq_handle, rq_parse_version. simpl.
  destruct (version_partial v rb r l _ Hc Hl) as (rb1&->&Hres). simpl.
  destruct Hres as [(->&Hr&l'&Hl'&Hc')|(p&rb2&->&Hsp&Hc')]; simpl.
  - feed_next. split; [done|]. by exists l'.
  - rewrite Hsp. simpl. feed_next. exists hs, hs'. split_and!; [done|done|done|by left].
Qed.

Lemma rq_core_headers b (rb : ReadBuf B) r :
  rq_core (rq_at config RequestParseState.Headers b) (chunk rb ++ r) → whole_end body r → chunk rb ≠ [] →
  ∃ p' rb' again, rq_handle (rq_at config RequestParseState.Headers b) rb = Ok (p', rb', again) ∧
    ((rq_core p' (chunk rb' ++ r) ∧ (again = false → r ≠ [])) ∨
     (r = [] ∧ again = false ∧ rq_final p' (chunk rb'))).
Proof.
  intros (st&b0&He&Hc) Hr Hne. injection He as <- <-. destruct Hc as (k&k'&Hk&Hp&Hb&Ht).
  unfold rq_handle, rq_parse_header. simpl.
  destruct (header_partial rb body r k Hk Ht Hr Hne) as
    [rb1 n Hs -> Hc1|rb1 nl rb2 k Hs Hnl Hph Hr' Ht'|rb1 nl rb2 h k Hs Hnl Hph Hc'].
  - rewrite Hs. simpl. do 3 eexists. split; [done|]. right. split_and!; [done|done|]. split; [|done].
    apply Forall2_nil_inv_l in Hp. subst k'. simpl in Hb. by rewrite <-Hb.
  - rewrite Hs. simpl.
    exists (rq_at config RequestParseState.Headers b), rb2, false. split.
    + by destruct Hnl as [-> | [n ->]]; rewrite Hph.
    + left. split; [|done]. do 2 eexists. split; [done|]. simpl. by exists k, k'.
  - apply Forall2_cons_inv_l in Hp as (h'&k1'&Hh&Hp&->). apply Forall_cons in Hk as [_ Hk].
    specialize (Hph _ Hh). rewrite Hs. simpl.
    exists (rq_at config RequestParseState.Headers (request_builder_header b h'.1 h'.2)), rb2, true. split.
    + destruct h' as [n0 v0]. by destruct Hnl as [-> | [n ->]]; rewrite Hph.
    + left. split; [|done]. do 2 eexists. split; [done|]. simpl. exists k, k1'. split_and!; [done|done|done|by left].
Qed.

#[export] Instance rq_Feeds :
  Feeds (B:=B) rq_finished rq_handle rq_good rq_core (whole_end body) rq_final.
Proof.
  split.
  - intros p t (st&b&->&Hc). destruct st; [..|done]; (split; [done|]); (split; [by eexists|]).
    + destruct Hc as (_&l&_&->). apply app_ne. destruct Hm as [Hne _]. by destruct m.
    + destruct Hc as (_&l&_&->). apply app_ne. destruct Hu as [Hne _]. by destruct u.
    + destruct Hc as (_&l&_&->). apply app_ne. by destruct v.
    + destruct Hc as (k&k'&Hk&_&_&Ht). by eapply header_text_ne.
  - by intros p c [-> _].
  - apply rq_handle_room.
  - intros p rb r Hc Hr Hne. destruct (id Hc) as (st&b&->&Hst). destruct st; [..|done].
    + destruct (id Hst) as [-> _]. destruct (rq_core_method rb r Hc) as (p'&rb'&a&Hh&Hres). exists p', rb', a. eauto.
    + destruct (rq_core_uri b rb r Hc) as (p'&rb'&a&Hh&Hres). exists p', rb', a. eauto.
    + destruct (rq_core_version b rb r Hc) as (p'&rb'&a&Hh&Hres). exists p', rb', a. eauto.
    + by apply rq_core_headers.
Qed.
End request_feed.

Section response_feed.
Context {B : Type} `{BytesMut B, !BytesMutLaws B, !BytesMutCapacity B, !BytesMutCapacityLaws B} `{HttpCrate}.
Context (config : Config) (v : Version) (code reason : list byte) (code' : StatusCode)
  (hs : list (list byte * list byte)) (hs' : list (HeaderName * HeaderValue)) (body : list byte).
Context (Hl3 : length code = 3) (Hcd : drop_spaces code = code) (Hcode : StatusCode_from_bytes code = Some code')
  (Hn : Forall (λ x, is_newline x = false) reason) (Hrd : drop_spaces reason = reason)
  (Hw : Forall wf_header hs) (Hhs : Forall2 header_parses hs hs').

Definition rs_start : ResponseBuilder :=
  response_builder_status (response_builder_version response_builder_new v) code'.
Definition rs_final (self : Responser) (c : list byte) : Prop :=
  self = rs_at config ResponseParseState.Finished (response_with_headers rs_start hs') reason ∧ c = body_rest body.

Definition rs_core (self : Responser) (t : list byte) : Prop :=
  ∃ st b re, self = rs_at config st b re ∧
  match st with
  | ResponseParseState.Version => b = response_builder_new ∧
      ∃ l, spaces l ∧ t = l ++ print_version v ++ bs " " ++ code ++ bs " " ++ reason ++ print_headers hs body
  | ResponseParseState.StatusCode => b = response_builder_version response_builder_new v ∧
      ∃ l, spaces l ∧ t = l ++ code ++ bs " " ++ reason ++ print_headers hs body
  | ResponseParseState.Reason => b = rs_start ∧ ∃ l, spaces l ∧ t = l ++ reason ++ print_headers hs body
  | ResponseParseState.Headers => re = reason ∧ ∃ k k', Forall wf_header k ∧ Forall2 header_parses k k' ∧
      response_with_headers b k' = response_with_headers rs_start hs' ∧ header_text body k t
  | ResponseParseState.Finished => False
  end.

Ltac rs_next := do 3 eexists; (split; [done|]); (split; [|done]); do 3 eexists; (split; [done|]); simpl.

Lemma rs_core_version b re (rb : ReadBuf B) r :
  rs_core (rs_at config ResponseParseState.Version b re) (chunk rb ++ r) →
  ∃ p' rb' again, rs_handle (rs_at config ResponseParseState.Version b re) rb = Ok (p', rb', again) ∧
    rs_core p' (chunk rb' ++ r) ∧ (again = false → r ≠ []).
Proof.
  intros (st&b0&re0&He&Hc). injection He as <- <- <-. destruct Hc as (->&l&Hl&Hc).
  unfold rs_handle, rs_parse_version. simpl.
  destruct (version_partial v rb r l _ Hc Hl) as (rb1&->&Hres). simpl.
  destruct Hres as [(->&Hr&l'&Hl'&Hc')|(p&rb2&->&Hsp&Hc')]; simpl.
  - rs_next. split; [done|]. by exists l'.
  - rewrite Hsp. simpl. rs_next. split; [done|]. exists (bs " "). by split; [apply sp_spaces|].
Qed.

Lemma rs_core_code b re (rb : ReadBuf B) r :
  rs_core (rs_at config ResponseParseState.StatusCode b re) (chunk rb ++ r) →
  ∃ p' rb' again, rs_handle (rs_at config ResponseParseState.StatusCode b re) rb = Ok (p', rb', again) ∧
    rs_core p' (chunk rb' ++ r) ∧ (again = false → r ≠ []).
Proof.
  intros (st&b0&re0&He&Hc). injection He as <- <- <-. destruct Hc as (->&l&Hl&Hc).
  unfold rs_handle, rs_parse_status_code. simpl.
  destruct (fixed_partial rb r l code (bs " " ++ reason ++ print_headers hs body)) as (rb1&->&Hres);
    [done|done|by intros ->|done|]. simpl. unfold parse_code. rewrite Hl3 in Hres.
  destruct Hres as [(Hlt&Hr&l'&Hl'&Hc')|(c&p&rb2&Hc1&Hsp&Hc')].
  - rewrite decide_False by lia. simpl. rs_next. split; [done|]. by exists l'.
  - rewrite decide_True by (rewrite Hc1, length_app; lia). rewrite Hc1.
    replace (take 3 (code ++ c)) with code by (rewrite <-Hl3; by rewrite take_app_length).
    rewrite Hcode. simpl. rewrite Hsp. simpl. rs_next. split; [done|].
    exists (bs " "). by split; [apply sp_spaces|].
Qed.

Lemma rs_core_reason b re (rb : ReadBuf B) r :
  rs_core (rs_at config ResponseParseState.Reason b re) (chunk rb ++ r) →
  ∃ p' rb' again, rs_handle (rs_at config ResponseParseState.Reason b re) rb = Ok (p', rb', again) ∧
    rs_core p' (chunk rb' ++ r) ∧ (again = false → r ≠ []).
Proof.
  intros (st&b0&re0&He&Hc). injection He as <- <- <-. destruct Hc as (->&l&Hl&Hc).
  unfold rs_handle, rs_parse_reason. simpl.
  destruct (print_headers_newline hs body) as [t Ht]. rewrite Ht in Hc.
  destruct (token_partial is_newline rb r l reason x0d (x0a :: t)) as (rb1&->&Hres);
    [exact Hc|done| |done|done|].
  { destruct (decide (reason = [])) as [->|]; [done|by apply drop_spaces_app]. }
  cbn [mbind res_bind]. fold (parse_reason (chunk rb1)) in Hres.
  destruct Hres as [(->&Hr&l'&Hl'&Hc')|(p&rb2&->&Hsp&Hp&Hc')].
  - rs_next. split; [done|]. exists l'. by rewrite Ht.
  - rewrite Hsp. simpl. rewrite Hp. rs_next. split; [done|]. exists hs, hs'. split_and!; [done|done|done|].
    left. by rewrite Hc', Ht.
Qed.

Lemma rs_core_headers b re (rb : ReadBuf B) r :
  rs_core (rs_at config ResponseParseState.Headers b re) (chunk rb ++ r) → whole_end body r → chunk rb ≠ [] →
  ∃ p' rb' again, rs_handle (rs_at config ResponseParseState.Headers b re) rb = Ok (p', rb', again) ∧
    ((rs_core p' (chunk rb' ++ r) ∧ (again = false → r ≠ [])) ∨
     (r = [] ∧ again = false ∧ rs_final p' (chunk rb'))).
Proof.
  intros (st&b0&re0&He&Hc) Hr Hne. injection He as <- <- <-. destruct Hc as (->&k&k'&Hk&Hp&Hb&Ht).
  unfold rs_handle, rs_parse_header. simpl.
  destruct (header_partial rb body r k Hk Ht Hr Hne) as
    [rb1 n Hs -> Hc1|rb1 nl rb2 k Hs Hnl Hph Hr' Ht'|rb1 nl rb2 h k Hs Hnl Hph Hc'].
  - rewrite Hs. simpl. do 3 eexists. split; [done|]. right. split_and!; [done|done|]. split; [|done].
    apply Forall2_nil_inv_l in Hp. subst k'. simpl in Hb. by rewrite <-Hb.
  - rewrite Hs. simpl. exists (rs_at config ResponseParseState.Headers b reason), rb2, false. split.
    + by destruct Hnl as [-> | [n ->]]; rewrite Hph.
    + left. split; [|done]. do 3 eexists. split; [done|]. simpl. split; [done|]. by exists k, k'.
  - apply Forall2_cons_inv_l in Hp as (h'&k1'&Hh&Hp&->). apply Forall_cons in Hk as [_ Hk].
    specialize (Hph _ Hh). rewrite Hs. simpl.
    exists (rs_at config ResponseParseState.Headers (response_builder_header b h'.1 h'.2) reason), rb2, true. split.
    + destruct h' as [n0 v0]. by destruct Hnl as [-> | [n ->]]; rewrite Hph.
    + left. split; [|done]. do 3 eexists. split; [done|]. simpl. split; [done|].
      exists k, k1'. split_and!; [done|done|done|by left].
Qed.

#[export] Instance rs_Feeds :
  Feeds (B:=B) rs_finished rs_handle rs_good rs_core (whole_end body) rs_final.
Proof.
  split.
  - intros p t (st&b&re&->&Hc). destruct st; [..|done]; (split; [done|]); (split; [by eexists|]).
    + destruct Hc as (_&l&_&->). apply app_ne. by destruct v.
    + destruct Hc as (_&l&_&->). apply app_ne. by destruct code.
    + destruct Hc as (_&l&_&->). destruct (print_headers_newline hs body) as [t0 ->].
      apply app_ne. by destruct reason.
    + destruct Hc as (_&k&k'&Hk&_&_&Ht). by eapply header_text_ne.
  - by intros p c [-> _].
  - apply rs_handle_room.
  - intros p rb r Hc Hr Hne. destruct (id Hc) as (st&b&re&->&Hst). destruct st; [..|done].
    + destruct (rs_core_version b re rb r Hc) as (p'&rb'&a&Hh&Hres). exists p', rb', a. eauto.
    + destruct (rs_core_code b re rb r Hc) as (p'&rb'&a&Hh&Hres). exists p', rb', a. eauto.
    + destruct (rs_core_reason b re rb r Hc) as (p'&rb'&a&Hh&Hres). exists p', rb', a. eauto.
    + by apply rs_core_headers.
Qed.
End response_feed.

(** ** A stream of given reads: a [Cursor] split in chunks, or failing *)
Definition Chunks := list (ErrorKind + list byte).

#[export] Instance Chunks_AsyncRead : AsyncRead Chunks := {
  read s n :=
    match s with
    | [] => ([], inr [])
    | inl e :: s => (s, inl e)
    | inr d :: s => if decide (length d ≤ n) then (s, inr d)
                    else (inr (drop n d) :: s, inr (take n d))
    end;
}.

#[export] Instance Chunks_laws : AsyncReadLaws Chunks.
Proof.
  split. intros [|[e|d] s] n s' d'; simpl; intros Hr; simplify_eq/=; [lia|].
  case_decide; simplify_eq; [done|]. rewrite length_take. lia.
Qed.

(** The reads left in it: every byte could be one read. *)
Definition chunks_left (s : Chunks) : nat :=
  foldr (λ x acc, match x with inl _ => 0 | inr d => length d end + S acc) 0 s.

Lemma chunks_read_left s n s' d :
  read s n = (s', inr d) → d ≠ [] → chunks_left s' < chunks_left s.
Proof.
  unfold chunks_left. destruct s as [|[e|x] s]; simpl; intros Hr Hd; simplify_eq/=.
  case_decide; simplify_eq/=; [destruct d; simpl in *; [done|lia]|].
  rewrite length_drop. destruct n; simpl in *; [done|lia].
Qed.

Lemma chunks_deliver (ds : list (list byte)) : Forall (λ d, d ≠ []) ds → delivers (S:=Chunks) (inr <$> ds) ds [].
Proof.
  induction 1 as [|d ds Hd _ IH]; [done|]. split; [done|]. exists (inr <$> ds). split; [|done].
  intros n Hn. simpl. by rewrite decide_True.
Qed.

(** ** The body *)
Section body.
Context {B : Type} `{BytesMut B} {S : Type} `{AsyncRead S}.

(** [Cursor::new(self.cached).chain(self.stream)]: the cached bytes, then the
    stream; a read does not cross from the one to the other. *)
Record Chain := { ch_cached : list byte; ch_stream : S }.

Definition into_read (self : BodyReader S) : Chain :=
  {| ch_cached := cached self; ch_stream := body_stream self |}.

#[export] Instance Chain_AsyncRead : AsyncRead Chain := {
  read s n :=
    match ch_cached s with
    | [] => let '(s', r) := read (ch_stream s) n in ({| ch_cached := []; ch_stream := s' |}, r)
    | d => ({| ch_cached := drop n d; ch_stream := ch_stream s |}, inr (take n d))
    end;
}.

Fixpoint into_bytes_loop (fuel : nat) (max_body_len : nat) (rb : ReadBuf B) (stream : Chain) :
    option (res ParseError.t B) :=
  match fuel with
  | 0 => None
  | Datatypes.S fuel =>
      let '(rb, len) := chunk_mut rb in
      if decide (len = 0) then Some (Err (ParseError.ParseBufOverflow max_body_len))
      else match read stream len with
           | (stream, inl e) => Some (Err (ParseError.IoError e))
           | (stream, inr d) =>
               if decide (length d = 0) then Some (Ok (into_bytes_mut rb None))
               else into_bytes_loop fuel max_body_len
                      (filled (write_chunk rb d) (length d)) stream
           end
  end.

Definition body_into_bytes (fuel : nat) (self : BodyReader S) (max_body_len : nat) :
    option (res ParseError.t B) :=
  into_bytes_loop fuel max_body_len (with_capacity max_body_len) (into_read self).
End body.
Arguments Chain : clear implicits.

(** ** A head cut inside its last line break *)
Definition print_open_headers (hs : list (list byte * list byte)) : list byte :=
  foldr (λ h acc, crlf ++ h.1 ++ bs ": " ++ h.2 ++ acc) crlf hs.

Definition print_open_request (m u : list byte) (v : Version)
    (hs : list (list byte * list byte)) : list byte :=
  m ++ bs " " ++ u ++ bs " " ++ print_version v ++ print_open_headers hs.

Lemma print_request_split m u v hs body :
  print_request m u v hs body = print_open_request m u v hs ++ crlf ++ body.
Proof.
  unfold print_request, print_open_request. rewrite <-!app_assoc. do 5 f_equal.
  unfold print_headers, print_open_headers. induction hs as [|h hs IH]; [done|].
  simpl in *. rewrite IH. rewrite <-!app_assoc. simpl. by rewrite <-!app_assoc.
Qed.

Lemma print_open_headers_length hs : length hs ≤ length (print_open_headers hs).
Proof.
  unfold print_open_headers. induction hs as [|h hs IH]; simpl in *; [lia|].
  rewrite length_app. simpl. rewrite length_app. lia.
Qed.

Section split_head.
Context {B : Type} `{BytesMut B, !BytesMutLaws B} `{HttpCrate} {S : Type} `{AsyncRead S}.

(** A line break, with or without half of the next one, leaves the parser in [Headers]. *)
Lemma rq_lone_crlf c b e fuel (rb : ReadBuf B) :
  chunk rb = crlf ++ e → e = [] ∨ e = [x0d] →
  ∃ rb', inner_loop rq_finished rq_handle (Datatypes.S fuel)
           (rq_at c RequestParseState.Headers b) rb =
           Some (Ok (rq_at c RequestParseState.Headers b, rb')) ∧ chunk rb' = e.
Proof.
  intros Hc He. cbn [inner_loop]. rewrite decide_False by (rewrite Hc; simpl; lia). simpl.
  unfold rq_handle, rq_parse_header; simpl.
  destruct (one_break rb e Hc) as (rb1&Hs&Hc1); [by destruct He as [-> | ->]|].
  destruct (parse_header_refines rb1) as (rb2&Hp&_). rewrite Hc1 in Hp.
  assert (header_fields e = None) as Hn by (by destruct He as [-> | ->]). rewrite Hn in Hp.
  rewrite Hs; simpl. rewrite Hp; simpl. by exists rb1.
Qed.

Lemma rq_open_headers_loop c fuel hs hs' b e (rb : ReadBuf B) :
  Forall wf_header hs → Forall2 header_parses hs hs' → e = [] ∨ e = [x0d] →
  chunk rb = print_open_headers hs ++ e → length hs < fuel →
  ∃ rb', inner_loop rq_finished rq_handle fuel (rq_at c RequestParseState.Headers b) rb =
           Some (Ok (rq_at c RequestParseState.Headers (request_with_headers b hs'), rb')) ∧
         chunk rb' = e.
Proof.
  intros Hw Hp He. revert fuel b rb.
  induction Hp as [|h h' hs hs' Hh Hhs IH]; intros fuel b rb Hrb Hf;
    (destruct fuel as [|fuel]; simpl in Hf; [lia|]).
  - by apply rq_lone_crlf.
  - assert (∃ r, print_open_headers hs ++ e = x0d :: r) as [r Hr] by (destruct hs; by eexists).
    apply Forall_cons in Hw as [Hwh Hw]. change (print_open_headers (h :: hs)) with
      (crlf ++ h.1 ++ bs ": " ++ h.2 ++ print_open_headers hs) in Hrb.
    rewrite <-!app_assoc, Hr in Hrb.
    destruct (parse_printed_header rb h h' r) as (rb1&rb2&Hs&Hh2&Hc); [done..|].
    rewrite <-Hr in Hc. cbn [inner_loop]. rewrite decide_False by (rewrite Hrb; simpl; lia).
    unfold rq_handle, rq_parse_header; simpl. rewrite Hs; simpl. rewrite Hh2; simpl.
    destruct h' as [n v]; simpl.
    apply (IH Hw fuel (request_builder_header b n v) rb2 Hc). lia.
Qed.

(** Where a message is cut when fewer than three bytes are left. *)
Lemma cut_in_the_last_break m u v hs first last :
  first ++ last = print_request m u v hs [] → 0 < length last < 3 →
  ∃ e, first = print_open_request m u v hs ++ e ∧ (e = [] ∨ e = [x0d]) ∧ e ++ last = crlf.
Proof.
  intros Hc Hl. rewrite print_request_split, app_nil_r in Hc.
  apply app_eq_app in Hc as (k&[[-> Hk]|[Ho Hk]]).
  - exists k. split; [done|]. split; [|done]. apply (f_equal length) in Hk as Hlen. rewrite length_app in Hlen.
    simpl in Hlen. destruct k as [|x [|y k]]; [by left| |simpl in Hlen; lia]. right. by injection Hk as <- _.
  - assert (k = []) as ->.
    { apply (f_equal length) in Hk. rewrite length_app in Hk. simpl in Hk. destruct k; [done|simpl in *; lia]. }
    rewrite app_nil_r in Ho. simpl in Hk. exists []. rewrite app_nil_r. split_and!; [done|by left|done].
Qed.
End split_head.

(** One read after which the parser asks for more. *)
Section more.
Context {B : Type} `{BytesMut B, !BytesMutLaws B, !BytesMutCapacity B, !BytesMutCapacityLaws B} `{HttpCrate}.
Context {S : Type} `{AsyncRead S}.

Lemma inner_loop_room fuel p p' (rb rb' : ReadBuf B) :
  inner_loop rq_finished rq_handle fuel p rb = Some (Ok (p', rb')) → room rb ≤ room rb'.
Proof.
  revert p rb. induction fuel as [|fuel IH]; intros p rb; simpl; [done|].
  case_decide; [by intros [= _ <-]|]. destruct (rq_finished p); [by intros [= _ <-]|].
  destruct (rq_handle p rb) as [[[p1 rb1] []]|e|] eqn:Hh; [| |done..].
  - intros Hi%IH. apply rq_handle_room in Hh. lia.
  - intros [= _ <-]. by eapply rq_handle_room.
Qed.

Lemma outer_loop_more max fuel p p' (rb : ReadBuf B) c' stream stream' d :
  rq_finished p = false → d ≠ [] → length d ≤ room rb →
  (∀ n, length d ≤ n → read stream n = (stream', inr d)) →
  (∀ rb2, chunk rb2 = chunk rb ++ d →
     ∃ rb', inner_loop rq_finished rq_handle (length (chunk rb2) + 6) p rb2 = Some (Ok (p', rb')) ∧
            chunk rb' = c') →
  rq_finished p' = false →
  ∃ rb', chunk rb' = c' ∧ room rb ≤ room rb' + length d ∧
    outer_loop rq_finished rq_handle (Datatypes.S fuel) max p rb stream =
    outer_loop rq_finished rq_handle fuel max p' rb' stream'.
Proof.
  intros Hf Hd Hlen Hread Hin Hf'. cbn [outer_loop]. rewrite Hf.
  destruct (chunk_mut rb) as [rb0 len] eqn:Hcm. destruct (room_chunk _ _ _ Hcm) as [Hpos Hrl].
  assert (length d ≠ 0) by (by intros ?%length_zero_iff_nil).
  rewrite decide_False by lia. rewrite Hread by lia. rewrite decide_False by done.
  pose proof (room_filled _ _ _ d Hcm ltac:(lia)) as Hfill.
  destruct (Hin (filled (write_chunk rb0 d) (length d))) as (rb3&Hi&Hc).
  { apply (chunk_filled _ _ _ d Hcm). lia. }
  rewrite Hi. pose proof (inner_loop_room _ _ _ _ _ Hi). rewrite Hf'. exists rb3. split_and!; [done|lia|done].
Qed.
End more.

Section chunk_body.
Context {B : Type} `{BytesMut B, !BytesMutLaws B}.

(** The bytes of a stream of successful, non-empty reads. *)
Definition chunks_content (s : Chunks) : list byte :=
  foldr (λ x acc, match x with inl _ => acc | inr d => d ++ acc end) [] s.
Definition chunks_ok (s : Chunks) : Prop :=
  Forall (λ x, match x with inl _ => False | inr d => d ≠ [] end) s.

Lemma chain_read (ch : Chain Chunks) n s' r :
  0 < n → chunks_ok (ch_stream ch) → read ch n = (s', r) →
  ∃ d, r = inr d ∧ length d ≤ n ∧ chunks_ok (ch_stream s') ∧
    ch_cached ch ++ chunks_content (ch_stream ch) =
      d ++ ch_cached s' ++ chunks_content (ch_stream s') ∧
    (d = [] → ch_cached ch ++ chunks_content (ch_stream ch) = []) ∧
    (d ≠ [] → length (ch_cached s') + chunks_left (ch_stream s') <
              length (ch_cached ch) + chunks_left (ch_stream ch)).
Proof.
  unfold chunks_ok, chunks_left, chunks_content.
  destruct ch as [[|b c] st]; simpl; intros Hn Hok Hr.
  - destruct st as [|[e|x] st]; simpl in *.
    + injection Hr as <- <-. exists []. by split_and!; simpl; try lia.
    + apply Forall_cons in Hok as [[] _].
    + apply Forall_cons in Hok as [Hx Hok]. case_decide; injection Hr as <- <-.
      * exists x. split_and!; simpl; try done. destruct x; simpl; [done|lia].
      * exists (take n x). split_and!; simpl; try done.
        -- rewrite length_take. lia.
        -- apply Forall_cons. split; [|done]. intros ?%(f_equal length).
           rewrite length_drop in *. simpl in *. lia.
        -- by rewrite app_assoc, take_drop.
        -- intros ?%(f_equal length). rewrite length_take in *. simpl in *.
           destruct x; simpl in *; [done|lia].
        -- rewrite length_drop. lia.
  - injection Hr as <- <-. exists (take n (b :: c)).
    split_and!; simpl; try done.
    + rewrite length_take. simpl. lia.
    + by rewrite app_assoc, take_drop.
    + destruct n; [lia|done].
    + rewrite length_drop. destruct n; simpl; lia.
Qed.

Lemma into_bytes_loop_spec fuel max (rb : ReadBuf B) (ch : Chain Chunks) :
  (∀ b : B, 0 < (bm_chunk_mut b).2) → chunks_ok (ch_stream ch) →
  length (ch_cached ch) + chunks_left (ch_stream ch) < fuel →
  ∃ b, into_bytes_loop fuel max rb ch = Some (Ok b) ∧
       bm_data b = chunk rb ++ ch_cached ch ++ chunks_content (ch_stream ch).
Proof.
  intros Hgrow. revert rb ch. induction fuel as [|fuel IH]; intros rb ch Hok Hf; [lia|].
  cbn [into_bytes_loop]. destruct (chunk_mut rb) as [rb0 len] eqn:Hcm.
  assert (0 < len) as Hlen.
  { specialize (Hgrow (bytes rb)). unfold chunk_mut in Hcm.
    destruct (bm_chunk_mut _). by simplify_eq/=. }
  assert (chunk rb0 = chunk rb) as Hc0.
  { unfold chunk_mut, chunk in *. pose proof (bm_chunk_data (bytes rb)).
    destruct (bm_chunk_mut _). by simplify_eq/=. }
  rewrite decide_False by lia.
  destruct (read ch len) as [ch' r] eqn:Hr.
  destruct (chain_read ch len ch' r Hlen Hok Hr) as (d&->&Hd&Hok'&Hcon&Hnil&Hdec).
  case_decide as Hd0.
  - apply length_zero_iff_nil in Hd0. subst d. eexists. split; [done|].
    rewrite Hnil by done. by rewrite app_nil_r, <-Hc0.
  - destruct (IH (filled (write_chunk rb0 d) (length d)) ch') as (b&->&Hb); [done| |].
    { specialize (Hdec ltac:(by intros ->)). lia. }
    exists b. split; [done|]. rewrite Hb, (chunk_filled _ _ _ d Hcm), Hcon by done.
    by rewrite <-app_assoc.
Qed.
End chunk_body.

(** ** Properties *)

(** C1. Both parsers end without a panic, whatever the bytes, the chunking and
    the errors of the stream: if the stream delivers only finitely many
    non-empty reads ([left] bounds them), a fuel above that bound gives a
    result, [Ok] or [Err]. *)
Theorem parse_total {B S} `{BytesMut B, !BytesMutLaws B, HttpCrate, AsyncRead S}
    (left : S → nat) (config : Config) (stream : S) (fuel : nat) :
  (∀ s n s' d, read s n = (s', inr d) → d ≠ [] → left s' < left s) →
  left stream < fuel →
  (∃ r, Requester_parse (B:=B) fuel (Requester_new_with config) stream = Some r ∧ r ≠ Panic) ∧
  (∃ r, Responser_parse (B:=B) fuel (Responser_new_with config) stream = Some r ∧ r ≠ Panic).
Proof.
  intros Hleft Hf. split.
  - pose proof (outer_loop_total (B:=B) rq_finished rq_handle rq_good rq_rank left fuel
      (parsing_headers_max_buf config) (Requester_new_with config)
      (with_capacity (parsing_headers_max_buf config)) stream Hleft
      ltac:(by eexists) Hf) as Ht.
    unfold Requester_parse. simpl in *.
    destruct (outer_loop _ _ _ _ _ _ _) as [[[[self rb] s']| |]|]; simpl in *; [|by eauto..].
    destruct Ht as [b Hb]. simpl in Hb. rewrite Hb. simpl.
    destruct (request_builder_body b); by eauto.
  - pose proof (outer_loop_total (B:=B) rs_finished rs_handle rs_good rs_rank left fuel
      (parsing_headers_max_buf config) (Responser_new_with config)
      (with_capacity (parsing_headers_max_buf config)) stream Hleft
      ltac:(by eexists) Hf) as Ht.
    unfold Responser_parse. simpl in *.
    destruct (outer_loop _ _ _ _ _ _ _) as [[[[self rb] s']| |]|]; simpl in *; [|by eauto..].
    destruct Ht as [b Hb]. simpl in Hb. rewrite Hb. simpl.
    destruct (response_builder_body b); by eauto.
Qed.

(** C2. Round trip of requests: a well-formed head printed with CRLF line breaks, with some of the
    body after it, that arrives in any number of reads, [reads] and a [last] one, of bytes that
    fit the parse buffer, is parsed to the builder that received exactly the method, the target,
    the version and the headers in order.  The end of the head must not be cut: [last]
    brings its last three bytes and what has come of the body.  The body reader caches
    these bytes of the body, without the line breaks that they start with, which the parser
    takes for line breaks of the head, and keeps the stream where it is. *)
Theorem request_roundtrip {B S} `{BytesMut B, !BytesMutLaws B, !BytesMutCapacity B, !BytesMutCapacityLaws B,
      HttpCrate, AsyncRead S}
    (config : Config) (m u : list byte) (m' : Method) (u' : Uri) (v : Version)
    (hs : list (list byte * list byte)) (hs' : list (HeaderName * HeaderValue))
    (body : list byte) (reads : list (list byte)) (last : list byte) (stream stream' : S) (fuel : nat) :
  wf_token m → Method_from_bytes m = Some m' →
  wf_token u → Uri_from_maybe_shared u = Some u' →
  Forall wf_header hs → Forall2 header_parses hs hs' →
  concat reads ++ last = print_request m u v hs body → 3 + length body ≤ length last →
  length (print_request m u v hs body) ≤ parsing_headers_max_buf config →
  delivers stream (reads ++ [last]) stream' →
  Requester_parse (B:=B) (length reads + (1 + fuel)) (Requester_new_with config) stream =
    Some (match request_builder_body
                  (request_with_headers
                     (request_builder_version
                        (request_builder_uri
                           (request_builder_method request_builder_new m') u') v) hs') with
          | Some head => Ok (head, {| cached := body_rest body; body_stream := stream' |})
          | None => Err ParseError.HttpError
          end).
Proof.
  intros Hm Hm' Hu Hu' Hw Hhs Hc Hlast Hmax Hread. unfold Requester_parse.
  change (rq_config (Requester_new_with config)) with config.
  pose proof (rq_Feeds (B:=B) config m u m' u' v hs hs' body Hm Hm' Hu Hu' Hw Hhs) as Hfeeds.
  destruct (outer_loop_feeds (B:=B) rq_finished rq_handle rq_good rq_rank
    (rq_core config m u m' u' v hs hs' body) (whole_end body) (rq_final config m' u' v hs' body)
    (parsing_headers_max_buf config) fuel reads last (Requester_new_with config)
    (with_capacity (parsing_headers_max_buf config)) stream stream') as (p&rb&[-> Hb]&Ho);
    [|by left|by intros l; right; rewrite length_app; lia| |done|].
  - rewrite chunk_with_capacity. simpl. rewrite Hc. do 2 eexists. split; [done|]. simpl. split; [done|].
    exists []. by split; [constructor|].
  - rewrite Hc. etrans; [exact Hmax|apply room_new].
  - cbn [Nat.add]. rewrite Ho. simpl. unfold into_bytes, into_bytes_mut. fold (chunk rb).
    rewrite Hb. by destruct (request_builder_body _).
Qed.

(** C3. Round trip of responses, in the same terms: any number of reads that fit the parse buffer, of which
    the last one brings the last three bytes of the head; the line breaks that the body starts with are lost. *)
Theorem response_roundtrip {B S} `{BytesMut B, !BytesMutLaws B, !BytesMutCapacity B, !BytesMutCapacityLaws B,
      HttpCrate, AsyncRead S}
    (config : Config) (v : Version) (code reason : list byte) (code' : StatusCode)
    (hs : list (list byte * list byte)) (hs' : list (HeaderName * HeaderValue))
    (body : list byte) (reads : list (list byte)) (last : list byte) (stream stream' : S) (fuel : nat) :
  length code = 3 → drop_spaces code = code → StatusCode_from_bytes code = Some code' →
  Forall (λ x, is_newline x = false) reason → drop_spaces reason = reason →
  Forall wf_header hs → Forall2 header_parses hs hs' →
  concat reads ++ last = print_response v code reason hs body → 3 + length body ≤ length last →
  length (print_response v code reason hs body) ≤ parsing_headers_max_buf config →
  delivers stream (reads ++ [last]) stream' →
  Responser_parse (B:=B) (length reads + (1 + fuel)) (Responser_new_with config) stream =
    Some (match response_builder_body
                  (response_with_headers
                     (response_builder_status
                        (response_builder_version response_builder_new v) code') hs') with
          | Some head => Ok (head, {| cached := body_rest body; body_stream := stream' |})
          | None => Err ParseError.HttpError
          end).
Proof.
  intros Hl Hd Hcode Hn Hdr Hw Hhs Hc Hlast Hmax Hread. unfold Responser_parse.
  change (rs_config (Responser_new_with config)) with config.
  pose proof (rs_Feeds (B:=B) config v code reason code' hs hs' body Hl Hd Hcode Hn Hdr Hw Hhs) as Hfeeds.
  destruct (outer_loop_feeds (B:=B) rs_finished rs_handle rs_good rs_rank
    (rs_core config v code reason code' hs hs' body) (whole_end body) (rs_final config v reason code' hs' body)
    (parsing_headers_max_buf config) fuel reads last (Responser_new_with config)
    (with_capacity (parsing_headers_max_buf config)) stream stream') as (p&rb&[-> Hb]&Ho);
    [|by left|by intros l; right; rewrite length_app; lia| |done|].
  - rewrite chunk_with_capacity. simpl. rewrite Hc. do 3 eexists. split; [done|]. simpl. split; [done|].
    exists []. by split; [constructor|].
  - rewrite Hc. etrans; [exact Hmax|apply room_new].
  - cbn [Nat.add]. rewrite Ho. simpl. unfold into_bytes, into_bytes_mut. fold (chunk rb).
    rewrite Hb. by destruct (response_builder_body _).
Qed.

(** C4. A code bug: when the last line break of a head arrives in a read of its own, or only its last
    byte, the parser does not see the end of the head.  The bytes that [request_roundtrip] parses
    when they come together give [Eof] in these two reads, because [_skip_newlines] forgets,
    between the reads, that a line break was skipped. *)
Theorem split_head_is_lost {B S} `{BytesMut B, !BytesMutLaws B, !BytesMutCapacity B, !BytesMutCapacityLaws B,
      HttpCrate, AsyncRead S}
    (config : Config) (m u : list byte) (m' : Method) (u' : Uri) (v : Version)
    (hs : list (list byte * list byte)) (hs' : list (HeaderName * HeaderValue))
    (first last : list byte) (s0 s2 : S) (fuel : nat) :
  wf_token m → Method_from_bytes m = Some m' →
  wf_token u → Uri_from_maybe_shared u = Some u' →
  Forall wf_header hs → Forall2 header_parses hs hs' →
  first ++ last = print_request m u v hs [] → 0 < length last < 3 →
  length (print_request m u v hs []) ≤ parsing_headers_max_buf config →
  delivers s0 [first; last] s2 → (∀ n, (read s2 n).2 = inr []) →
  Requester_parse (B:=B) (3 + fuel) (Requester_new_with config) s0 =
    Some (Err ParseError.Eof).
Proof.
  intros Hm Hm' Hu Hu' Hw Hhs Hcut Hlast Hmax (Hd1&s1&Hr1&Hd2&s&Hr2&<-) Hr3.
  destruct (cut_in_the_last_break m u v hs first last Hcut Hlast) as (e&->&He&Hel).
  unfold Requester_parse. change (rq_config (Requester_new_with config)) with config.
  set (max := parsing_headers_max_buf config) in *. cbn [Nat.add].
  set (b1 := request_with_headers (request_builder_version
               (request_builder_uri (request_builder_method request_builder_new m') u') v) hs').
  pose proof (room_new (B:=B) max) as Hroom. rewrite <-Hcut, length_app in Hmax.
  destruct (outer_loop_more (B:=B) max (2 + fuel)
    (Requester_new_with config) (rq_at config RequestParseState.Headers b1)
    (with_capacity max) e s0 s1 (print_open_request m u v hs ++ e))
    as (rb1&Hc1&Hroom1&Ho1); [done|done|lia|done| |done|].
  { intros rb2. rewrite chunk_with_capacity. simpl. intros Hc. unfold print_open_request in Hc.
    rewrite <-!app_assoc in Hc.
    destruct (rq_request_line config request_builder_new (length (chunk rb2) + 3) m m' u u' v
      (print_open_headers hs ++ e) rb2) as (rb3&Hc3&Heq); [done..|].
    replace (length (chunk rb2) + 6) with (3 + (length (chunk rb2) + 3)) by lia.
    fold (rq_at config RequestParseState.Method request_builder_new) in *.
    change (Requester_new_with config)
      with (rq_at config RequestParseState.Method request_builder_new).
    rewrite Heq. apply rq_open_headers_loop with hs; [done..|].
    rewrite Hc. rewrite !length_app. pose proof (print_open_headers_length hs). lia. }
  destruct (outer_loop_more (B:=B) max (1 + fuel)
    (rq_at config RequestParseState.Headers b1) (rq_at config RequestParseState.Headers b1)
    rb1 [] s1 s last) as (rb2&Hc2&_&Ho2); [done|done|lia|done| |done|].
  { intros rb2. rewrite Hc1, Hel. intros Hc. rewrite Nat.add_comm.
    apply rq_lone_crlf; [by rewrite app_nil_r|by left]. }
  cbn [Nat.add] in Ho1, Ho2. rewrite Ho1, Ho2. cbn [outer_loop]. simpl.
  destruct (chunk_mut rb2) as [rb3 len] eqn:Hcm. destruct (room_chunk _ _ _ Hcm) as [Hlen _].
  rewrite decide_False by lia. specialize (Hr3 len).
  destruct (read s len) as [s3 r]. simpl in Hr3. by rewrite Hr3.
Qed.

(** The limit of the parse buffer is never enforced: [BytesMut::chunk_mut]
    never returns an empty slice (it grows), so neither parser ever returns
    [ParseBufOverflow], whatever the configuration and the stream. *)
Theorem parse_buf_never_overflows {B S} `{BytesMut B, !BytesMutLaws B, HttpCrate, AsyncRead S}
    (config : Config) (stream : S) (fuel n : nat) :
  (∀ b : B, 0 < (bm_chunk_mut b).2) →
  Requester_parse (B:=B) fuel (Requester_new_with config) stream ≠
    Some (Err (ParseError.ParseBufOverflow n)) ∧
  Responser_parse (B:=B) fuel (Responser_new_with config) stream ≠
    Some (Err (ParseError.ParseBufOverflow n)).
Proof.
  intros Hgrow.
  assert (∀ p (rb : ReadBuf B) n, rq_good p → rq_handle p rb ≠ Err (ParseError.ParseBufOverflow n))
    as Hrq.
  { intros p rb k Hg. pose proof (rq_handle_spec p rb Hg) as Hs.
    destruct (rq_handle p rb) as [|e|]; simpl; try done. intros [= ->]. by apply (Hs k). }
  assert (∀ p (rb : ReadBuf B) n, rs_good p → rs_handle p rb ≠ Err (ParseError.ParseBufOverflow n))
    as Hrs.
  { intros p rb k Hg. pose proof (rs_handle_spec p rb Hg) as Hs.
    destruct (rs_handle p rb) as [|e|]; simpl; try done. intros [= ->]. by apply (Hs k). }
  split.
  - unfold Requester_parse. change (rq_config (Requester_new_with config)) with config.
    pose proof (outer_loop_no_overflow (B:=B) rq_finished rq_handle rq_good rq_rank fuel
      (parsing_headers_max_buf config) n (Requester_new_with config)
      (with_capacity (parsing_headers_max_buf config)) stream Hgrow Hrq ltac:(by eexists)) as Ho.
    destruct (outer_loop _ _ _ _ _ _ _) as [[[[self rb] s']|e|]|]; simpl; try done; [|congruence].
    destruct (rq_builder self); simpl; [|done]. by destruct (request_builder_body _).
  - unfold Responser_parse. change (rs_config (Responser_new_with config)) with config.
    pose proof (outer_loop_no_overflow (B:=B) rs_finished rs_handle rs_good rs_rank fuel
      (parsing_headers_max_buf config) n (Responser_new_with config)
      (with_capacity (parsing_headers_max_buf config)) stream Hgrow Hrs ltac:(by eexists)) as Ho.
    destruct (outer_loop _ _ _ _ _ _ _) as [[[[self rb] s']|e|]|]; simpl; try done; [|congruence].
    destruct (rs_builder self); simpl; [|done]. by destruct (response_builder_body _).
Qed.

(** C30. [BodyReader::into_bytes] returns the cached bytes followed by everything
    the stream delivers, however the stream is cut into reads, and whatever
    [max_body_len] is: the limit is not enforced either. *)
Theorem body_read_whole {B} `{BytesMut B, !BytesMutLaws B}
    (body : BodyReader Chunks) (max_body_len fuel : nat) :
  (∀ b : B, 0 < (bm_chunk_mut b).2) → chunks_ok (body_stream body) →
  length (cached body) + chunks_left (body_stream body) < fuel →
  ∃ b : B, body_into_bytes fuel body max_body_len = Some (Ok b) ∧
           bm_data b = cached body ++ chunks_content (body_stream body).
Proof.
  intros Hgrow Hok Hf.
  destruct (into_bytes_loop_spec fuel max_body_len (with_capacity max_body_len)
    (into_read body) Hgrow Hok Hf) as (b&Hb&Hd).
  exists b. split; [done|]. by rewrite Hd, chunk_with_capacity.
Qed.

(** ** Witnesses *)
Definition demo_headers : list (list byte * list byte) := [(bs "Host", bs "foo.com"); (bs "A", [])].

Definition demo_request : list byte :=
  print_request (bs "GET") (bs "/a") HTTP_11 demo_headers (bs "body").
Definition demo_response : list byte :=
  print_response HTTP_10 (bs "200") (bs "OK") demo_headers (bs "body").

Lemma parse_total_witness :
  (∃ r, @Requester_parse GrowBuf _ TextHttp Chunks _ 99 Requester_new
          [inr (take 9 demo_request); inr (drop 9 demo_request); inl BrokenPipe] = Some r ∧ r ≠ Panic) ∧
  (∃ r, @Responser_parse GrowBuf _ TextHttp Chunks _ 99 Responser_new
          [inr (take 9 demo_request); inr (drop 9 demo_request); inl BrokenPipe] = Some r ∧ r ≠ Panic).
Proof.
  apply (parse_total chunks_left default_config).
  - exact chunks_read_left.
  - apply Nat.ltb_lt. vm_compute. reflexivity.
Defined.

Ltac all_bytes := repeat (constructor; [by vm_compute|]); constructor.
Ltac all_headers :=
  repeat (constructor; [repeat split; try done; repeat constructor|]); constructor.

(** Three reads: one ends in the target, one between the two line breaks' first bytes; the
    body starts with a line break. *)
Definition demo_reads : list (list byte) :=
  let d := print_request (bs "GET") (bs "/a") HTTP_11 demo_headers (crlf ++ bs "body") in
  [take 5 d; drop 5 (take (length d - 9) d); drop (length d - 9) d].

Lemma request_roundtrip_witness :
  @Requester_parse GrowBuf _ TextHttp Chunks _ 3 Requester_new (inr <$> demo_reads) =
    Some (Ok ({| tr_method := Some (bs "GET"); tr_uri := Some (bs "/a");
                 tr_version := Some HTTP_11; tr_headers := demo_headers |},
              {| cached := bs "body"; body_stream := [] |})).
Proof.
  refine (request_roundtrip (H0:=TextHttp) default_config (bs "GET") (bs "/a")
    (bs "GET") (bs "/a") HTTP_11 demo_headers demo_headers (crlf ++ bs "body")
    (take 2 demo_reads) (default [] (demo_reads !! 2))
    (inr <$> demo_reads) [] 0 _ eq_refl _ eq_refl _ _ _ _ _ _).
  - split; [done|all_bytes].
  - split; [done|all_bytes].
  - all_headers.
  - repeat constructor.
  - vm_compute. reflexivity.
  - apply Nat.leb_le. vm_compute. reflexivity.
  - apply Nat.leb_le. vm_compute. reflexivity.
  - apply chunks_deliver. repeat constructor; discriminate.
Defined.

Definition demo_response_reads : list (list byte) := [take 7 demo_response; drop 7 demo_response].

Lemma response_roundtrip_witness :
  @Responser_parse GrowBuf _ TextHttp Chunks _ 2 Responser_new (inr <$> demo_response_reads) =
    Some (Ok ({| ts_status := Some (bs "200"); ts_version := Some HTTP_10;
                 ts_headers := demo_headers |},
              {| cached := bs "body"; body_stream := [] |})).
Proof.
  refine (response_roundtrip (H0:=TextHttp) default_config HTTP_10 (bs "200") (bs "OK")
    (bs "200") demo_headers demo_headers (bs "body")
    [take 7 demo_response] (drop 7 demo_response)
    (inr <$> demo_response_reads) [] 0 eq_refl eq_refl eq_refl _ eq_refl _ _ _ _ _ _).
  - all_bytes.
  - all_headers.
  - repeat constructor.
  - vm_compute. reflexivity.
  - apply Nat.leb_le. vm_compute. reflexivity.
  - apply Nat.leb_le. vm_compute. reflexivity.
  - apply (chunks_deliver demo_response_reads). repeat constructor; discriminate.
Defined.

Lemma split_head_is_lost_witness :
  let head := print_open_request (bs "GET") (bs "/a") HTTP_11 demo_headers in
  print_request (bs "GET") (bs "/a") HTTP_11 demo_headers [] = head ++ crlf ∧
  @Requester_parse GrowBuf _ TextHttp Chunks _ 3 Requester_new [inr head; inr crlf] =
    Some (Err ParseError.Eof).
Proof.
  split; [vm_compute; reflexivity|].
  refine (split_head_is_lost (B:=GrowBuf) (H0:=TextHttp) default_config (bs "GET") (bs "/a")
    (bs "GET") (bs "/a") HTTP_11 demo_headers demo_headers
    (print_open_request (bs "GET") (bs "/a") HTTP_11 demo_headers) crlf
    [inr (print_open_request (bs "GET") (bs "/a") HTTP_11 demo_headers); inr crlf]
    [] 0 _ eq_refl _ eq_refl _ _ _ _ _ _ _).
  - split; [done|all_bytes].
  - split; [done|all_bytes].
  - all_headers.
  - repeat constructor.
  - vm_compute. reflexivity.
  - simpl. lia.
  - apply Nat.leb_le. vm_compute. reflexivity.
  - apply (chunks_deliver [print_open_request (bs "GET") (bs "/a") HTTP_11 demo_headers; crlf]).
    repeat constructor; discriminate.
  - done.
Defined.

Lemma parse_buf_never_overflows_witness :
  let tiny := {| parsing_headers_max_buf := 1 |} in
  @Requester_parse GrowBuf _ TextHttp Chunks _ 9 (Requester_new_with tiny) [inr demo_request] ≠
    Some (Err (ParseError.ParseBufOverflow 1)) ∧
  @Responser_parse GrowBuf _ TextHttp Chunks _ 9 (Responser_new_with tiny) [inr demo_request] ≠
    Some (Err (ParseError.ParseBufOverflow 1)).
Proof.
  apply (parse_buf_never_overflows (B:=GrowBuf) (H0:=TextHttp)). intros b. simpl. case_decide; lia.
Defined.

Lemma body_read_whole_witness :
  ∃ b : GrowBuf,
    body_into_bytes 99 {| cached := bs "ab"; body_stream := [inr (bs "cd"); inr (bs "e")] |} 1 =
      Some (Ok b) ∧ gb_data b = bs "abcde".
Proof.
  destruct (body_read_whole (B:=GrowBuf)
    {| cached := bs "ab"; body_stream := [inr (bs "cd"); inr (bs "e")] |} 1 99)
    as (b&Hb&Hd).
  - intros b. simpl. case_decide; lia.
  - by repeat constructor.
  - apply Nat.ltb_lt. vm_compute. reflexivity.
  - by exists b.
Defined.
