(* ===== verification/Queue.v ===== *)
(** * crates/lockfree/src/queue.rs: the concurrent FIFO queue

    Threads share [head], [tail] (atomic counters) and [slots] (a concurrent
    map).  One atomic access is one step: [exec] is the step of one thread, a
    function, and [step] interleaves the threads.  The abstract specification is a
    sequential queue on which every call takes effect at one instant between its
    call and its return; [queue_linearizable] is the refinement.  The counters are
    [nat]: the 64-bit counters would wrap only after 2^64 pushes.  The memory
    orderings are taken as sequentially consistent. *)

From S2P Require Import Prelude.

Section queue.
Context {T : Type}.

Record Queue := { head : nat; tail : nat; slots : gmap nat T }.

Definition Queue_default : Queue := {| head := 0; tail := 0; slots := ∅ |}.
Definition Queue_new : Queue := Queue_default.

(** The operations, and what they return; [RLen None] is the overflow of the
    subtraction in [len]. *)
Inductive op := OPush (value : T) | OPop | OLen.
Inductive ret := RPush | RPop (r : option T) | RLen (n : option nat).

(** Where a thread is: before each atomic access of its operation. *)
Inductive pc :=
| Idle
| PushReserve (value : T)
| PushInsert (offset : nat) (value : T)
| PopHead
| PopTail (header : nat)
| PopCas (header : nat)
| SpinRemove (index : nat)
| LenTail
| LenHead (tl : nat)
| Returned (r : ret).

Definition enter (o : op) : pc :=
  match o with OPush v => PushReserve v | OPop => PopHead | OLen => LenTail end.

(** *** One atomic access *)

(** [push]: [tail.fetch_add(1)], then [slots.insert]. *)
Definition push_reserve (q : Queue) (v : T) : Queue * pc :=
  ({| head := head q; tail := tail q + 1; slots := slots q |}, PushInsert (tail q) v).
Definition push_insert (q : Queue) (offset : nat) (v : T) : Queue * pc :=
  ({| head := head q; tail := tail q; slots := <[offset := v]> (slots q) |}, Returned RPush).

(** [pop]: two loads, the emptiness test, the compare-exchange, the spin. *)
Definition pop_load_head (q : Queue) : Queue * pc := (q, PopTail (head q)).
Definition pop_load_tail (q : Queue) (header : nat) : Queue * pc :=
  (q, if decide (header = tail q) then Returned (RPop None) else PopCas header).
Definition pop_cas (q : Queue) (header : nat) : Queue * pc :=
  if decide (head q = header)
  then ({| head := header + 1; tail := tail q; slots := slots q |}, SpinRemove header)
  else (q, PopHead).
Definition spin_pop_by_offset (q : Queue) (index : nat) : Queue * pc :=
  match slots q !! index with
  | Some value =>
      ({| head := head q; tail := tail q; slots := delete index (slots q) |},
       Returned (RPop (Some value)))
  | None => (q, SpinRemove index)
  end.

(** [len]: the two loads of [tail - head]. *)
Definition len_load_tail (q : Queue) : Queue * pc := (q, LenHead (tail q)).
Definition len_load_head (q : Queue) (tl : nat) : Queue * pc :=
  (q, Returned (RLen (if decide (head q ≤ tl) then Some (tl - head q) else None))).

Definition exec (q : Queue) (p : pc) : Queue * pc :=
  match p with
  | Idle | Returned _ => (q, p)
  | PushReserve v => push_reserve q v
  | PushInsert offset v => push_insert q offset v
  | PopHead => pop_load_head q
  | PopTail header => pop_load_tail q header
  | PopCas header => pop_cas q header
  | SpinRemove index => spin_pop_by_offset q index
  | LenTail => len_load_tail q
  | LenHead tl => len_load_head q tl
  end.

(** *** The threads together *)
Record sys := { queue : Queue; threads : gmap nat pc }.

Inductive event := ECall (i : nat) (o : op) | ERet (i : nat) (r : ret).

Inductive step : sys → option event → sys → Prop :=
| step_call s i o :
    threads s !! i = Some Idle →
    step s (Some (ECall i o)) {| queue := queue s; threads := <[i := enter o]> (threads s) |}
| step_exec s i p q' p' :
    threads s !! i = Some p → exec (queue s) p = (q', p') →
    step s None {| queue := q'; threads := <[i := p']> (threads s) |}
| step_ret s i r :
    threads s !! i = Some (Returned r) →
    step s (Some (ERet i r)) {| queue := queue s; threads := <[i := Idle]> (threads s) |}.

Definition emit (e : option event) (tr : list event) : list event :=
  match e with Some e => e :: tr | None => tr end.

Inductive steps : sys → list event → sys → Prop :=
| steps_refl s : steps s [] s
| steps_cons s e s' tr s'' : step s e s' → steps s' tr s'' → steps s (emit e tr) s''.

Definition init (ids : gset nat) : sys :=
  {| queue := Queue_new; threads := gset_to_gmap Idle ids |}.

(** A run by a schedule: which thread moves, and the call it makes if idle. *)
Fixpoint run (s : sys) (schedule : list (nat * op)) : sys :=
  match schedule with
  | [] => s
  | (i, o) :: schedule =>
      match threads s !! i with
      | None => run s schedule
      | Some Idle =>
          run {| queue := queue s; threads := <[i := enter o]> (threads s) |} schedule
      | Some (Returned r) =>
          run {| queue := queue s; threads := <[i := Idle]> (threads s) |} schedule
      | Some p =>
          run {| queue := (exec (queue s) p).1;
                 threads := <[i := (exec (queue s) p).2]> (threads s) |} schedule
      end
  end.

(** ** Abstract specification: an atomic queue *)

(** What one call does to the list of the queued values, and what it returns.
    [len] promises nothing. *)
Inductive aspec : list T → op → ret → list T → Prop :=
| aspec_push l v : aspec l (OPush v) RPush (l ++ [v])
| aspec_pop v l : aspec (v :: l) OPop (RPop (Some v)) l
| aspec_pop_empty : aspec [] OPop (RPop None) []
| aspec_len l n : aspec l OLen (RLen n) l.

Inductive apc := AIdle | ACalled (o : op) | ADone (r : ret).
Record asys := { aqueue : list T; athreads : gmap nat apc }.

Inductive astep : asys → option event → asys → Prop :=
| astep_call a i o :
    athreads a !! i = Some AIdle →
    astep a (Some (ECall i o))
      {| aqueue := aqueue a; athreads := <[i := ACalled o]> (athreads a) |}
| astep_effect a i o r l :
    athreads a !! i = Some (ACalled o) → aspec (aqueue a) o r l →
    astep a None {| aqueue := l; athreads := <[i := ADone r]> (athreads a) |}
| astep_ret a i r :
    athreads a !! i = Some (ADone r) →
    astep a (Some (ERet i r)) {| aqueue := aqueue a; athreads := <[i := AIdle]> (athreads a) |}.

Inductive asteps : asys → list event → asys → Prop :=
| asteps_refl a : asteps a [] a
| asteps_cons a e a' tr a'' : astep a e a' → asteps a' tr a'' → asteps a (emit e tr) a''.

Definition ainit (ids : gset nat) : asys :=
  {| aqueue := []; athreads := gset_to_gmap AIdle ids |}.

(** ** The invariant and the abstraction

    [vals] is the history of the reservations: the value of offset [i]. *)
Definition pc_ok (q : Queue) (vals : list T) (p : pc) : Prop :=
  match p with
  | PushInsert i v => vals !! i = Some v ∧ slots q !! i = None
  | PopTail h => h ≤ head q
  | PopCas h => h ≤ head q ∧ h < tail q
  | SpinRemove i => i < head q
  | _ => True
  end.

(** The offset a thread will insert at, or remove from. *)
Definition pushes (p : pc) (i : nat) : Prop :=
  match p with PushInsert j _ => i = j | _ => False end.
Definition removes (p : pc) (i : nat) : Prop :=
  match p with SpinRemove j => i = j | _ => False end.

(** Offset [i] has been reserved and its value not yet taken. *)
Definition pending (s : sys) (i : nat) : Prop :=
  head (queue s) ≤ i < tail (queue s) ∨ ∃ k p, threads s !! k = Some p ∧ removes p i.

Record wf (s : sys) (vals : list T) : Prop := {
  wf_tail : length vals = tail (queue s);
  wf_head : head (queue s) ≤ tail (queue s);
  wf_pc k p : threads s !! k = Some p → pc_ok (queue s) vals p;
  wf_slots i v : slots (queue s) !! i = Some v → vals !! i = Some v;
  wf_pushes k k' p p' i :
    threads s !! k = Some p → threads s !! k' = Some p' →
    pushes p i → pushes p' i → k = k';
  wf_removes k k' p p' i :
    threads s !! k = Some p → threads s !! k' = Some p' →
    removes p i → removes p' i → k = k';
  wf_pending i : pending s i →
    is_Some (slots (queue s) !! i) ∨ pool_any (λ p, pushes p i) (threads s);
}.

Definition abs_pc (vals : list T) (p : pc) : apc :=
  match p with
  | Idle => AIdle
  | PushReserve v => ACalled (OPush v)
  | PushInsert _ _ => ADone RPush
  | PopHead | PopTail _ | PopCas _ => ACalled OPop
  | SpinRemove i => ADone (RPop (vals !! i))
  | LenTail | LenHead _ => ACalled OLen
  | Returned r => ADone r
  end.

Definition abs (vals : list T) (s : sys) : asys :=
  {| aqueue := drop (head (queue s)) vals; athreads := abs_pc vals <$> threads s |}.
End queue.
Arguments Queue : clear implicits.
Arguments op : clear implicits.
Arguments ret : clear implicits.
Arguments pc : clear implicits.
Arguments sys : clear implicits.
Arguments asys : clear implicits.

Section queue_proofs.
Context {T : Type}.
Implicit Types (s : sys T) (q : Queue T) (vals : list T).

(** Case analysis of the lookups in an updated thread pool. *)
Local Ltac lookups :=
  repeat match goal with
  | H : <[?i := _]> _ !! ?k = Some _ |- _ =>
      apply lookup_insert_Some in H as [[? ?]|[? H]]; simplify_eq/=
  end.

(** A thread that moves without touching the queue, and that neither pushes
    nor removes, before and after. *)
Lemma wf_quiet s vals i p p' :
  wf s vals → threads s !! i = Some p →
  (∀ j, ¬ pushes p j) → (∀ j, ¬ removes p j) →
  (∀ j, ¬ pushes p' j) → (∀ j, ¬ removes p' j) →
  pc_ok (queue s) vals p' →
  wf {| queue := queue s; threads := <[i := p']> (threads s) |} vals.
Proof.
  intros [Ht Hh Hpc Hs Hpu Hre Hpe] Hi Hp1 Hr1 Hp2 Hr2 Hok. split; simpl; try done.
  - intros k p0 Hk. lookups; eauto.
  - intros k k' p0 p0' j Hk Hk' ? ?. lookups; eauto; by exfalso; eapply Hp2.
  - intros k k' p0 p0' j Hk Hk' ? ?. lookups; eauto; by exfalso; eapply Hr2.
  - intros j [Hj|(k&p0&Hk&Hj)]; simpl in *.
    + destruct (Hpe j (or_introl Hj)); [by left|right].
      apply pool_any_update; [done|]. intros p0 ? ?. simplify_eq. by exfalso; eapply Hp1.
    + lookups; [by exfalso; eapply Hr2|].
      destruct (Hpe j (or_intror (ex_intro _ k (ex_intro _ p0 (conj Hk Hj))))); [by left|right].
      apply pool_any_update; [done|]. intros p1 ? ?. simplify_eq. by exfalso; eapply Hp1.
Qed.

Lemma wf_init ids : wf (init (T:=T) ids) [].
Proof.
  split; simpl; try done.
  - intros k p [_ <-]%lookup_gset_to_gmap_Some. done.
  - intros k k' p p' i [_ <-]%lookup_gset_to_gmap_Some. done.
  - intros k k' p p' i [_ <-]%lookup_gset_to_gmap_Some. done.
  - intros i [Hi|(k&p&[_ <-]%lookup_gset_to_gmap_Some&[])]. simpl in Hi. lia.
Qed.

Lemma wf_reserve s vals i v :
  wf s vals → threads s !! i = Some (PushReserve v) →
  wf {| queue := (push_reserve (queue s) v).1;
        threads := <[i := PushInsert (tail (queue s)) v]> (threads s) |} (vals ++ [v]).
Proof.
  intros [Ht Hh Hpc Hs Hpu Hre Hpe] Hi.
  assert (slots (queue s) !! tail (queue s) = None) as Hfree.
  { destruct (slots (queue s) !! _) eqn:E; [|done]. apply Hs, lookup_lt_Some in E. lia. }
  assert (∀ k p, threads s !! k = Some p → ¬ pushes p (tail (queue s))) as Hnew.
  { intros k p Hk Hp. specialize (Hpc k p Hk). destruct p; simpl in *; try done.
    subst. destruct Hpc as [Hv%lookup_lt_Some _]. lia. }
  split; simpl.
  - rewrite length_app. simpl. lia.
  - lia.
  - intros k p Hk. lookups.
    + split; [|done]. rewrite <-Ht. by rewrite lookup_app_r, Nat.sub_diag.
    + specialize (Hpc k p Hk). destruct p; simpl in *; try done; [|lia].
      split; [|tauto]. apply lookup_app_l_Some; tauto.
  - intros j w Hj. by apply lookup_app_l_Some, Hs.
  - intros k k' p p' j Hk Hk' Hp Hp'. lookups; eauto; subst; by exfalso; eapply Hnew.
  - intros k k' p p' j Hk Hk' Hp Hp'. lookups; eauto.
  - intros j Hj. destruct (decide (j = tail (queue s))) as [->|Hne].
    { right. by apply pool_any_here. }
    destruct (Hpe j) as [?|?]; [|by left|].
    + destruct Hj as [Hj|(k&p&Hk&Hj)]; simpl in *; [left; lia|right]. lookups. eauto.
    + right. apply pool_any_update; [done|]. intros p ? ?. by simplify_eq.
Qed.

Lemma wf_insert s vals i j v :
  wf s vals → threads s !! i = Some (PushInsert j v) →
  wf {| queue := (push_insert (queue s) j v).1;
        threads := <[i := Returned RPush]> (threads s) |} vals.
Proof.
  intros [Ht Hh Hpc Hs Hpu Hre Hpe] Hi. destruct (Hpc _ _ Hi) as [Hv Hn]. split; simpl; try done.
  - intros k p Hk. lookups; [done|]. pose proof (Hpc k p Hk) as Hp.
    destruct p as [| |j' v'| | | | | | |]; simpl in *; try done. split; [tauto|].
    rewrite lookup_insert_ne; [tauto|]. intros <-.
    by pose proof (Hpu _ _ _ _ j Hi Hk eq_refl eq_refl).
  - intros j' w Hj. apply lookup_insert_Some in Hj as [[<- <-]|[_ ?]]; [done|by apply Hs].
  - intros k k' p p' x Hk Hk' Hp Hp'. lookups; eauto.
  - intros k k' p p' x Hk Hk' Hp Hp'. lookups; eauto.
  - intros x Hx. destruct (decide (x = j)) as [->|Hne].
    { left. by rewrite lookup_insert_eq. }
    rewrite lookup_insert_ne by done.
    destruct (Hpe x) as [?|?]; [|by left|].
    + destruct Hx as [Hx|(k&p&Hk&Hx)]; simpl in *; [by left|right]. lookups. eauto.
    + right. apply pool_any_update; [done|]. intros p ? ?. by simplify_eq/=.
Qed.

Lemma wf_cas s vals i :
  wf s vals → threads s !! i = Some (PopCas (head (queue s))) →
  wf {| queue := {| head := head (queue s) + 1; tail := tail (queue s);
                    slots := slots (queue s) |};
        threads := <[i := SpinRemove (head (queue s))]> (threads s) |} vals.
Proof.
  intros [Ht Hh Hpc Hs Hpu Hre Hpe] Hi. pose proof (Hpc _ _ Hi) as [_ Hlt].
  assert (∀ k p, threads s !! k = Some p → ¬ removes p (head (queue s))) as Hnew.
  { intros k p Hk Hp. specialize (Hpc k p Hk). destruct p; simpl in *; try done. lia. }
  split; simpl; try done.
  - lia.
  - intros k p Hk. lookups; [lia|]. pose proof (Hpc k p Hk) as Hp.
    destruct p; simpl in *; try done; lia.
  - intros k k' p p' x Hk Hk' Hp Hp'. lookups; eauto.
  - intros k k' p p' x Hk Hk' Hp Hp'. lookups; eauto; subst; by exfalso; eapply Hnew.
  - intros x Hx. destruct (Hpe x) as [?|?]; [|by left|].
    + destruct Hx as [Hx|(k&p&Hk&Hx)]; simpl in *; [left; lia|]. lookups; [left; lia|right; eauto].
    + right. apply pool_any_update; [done|]. intros p ? ?. by simplify_eq/=.
Qed.

Lemma wf_remove s vals i j v :
  wf s vals → threads s !! i = Some (SpinRemove j) → slots (queue s) !! j = Some v →
  wf {| queue := {| head := head (queue s); tail := tail (queue s);
                    slots := delete j (slots (queue s)) |};
        threads := <[i := Returned (RPop (Some v))]> (threads s) |} vals.
Proof.
  intros [Ht Hh Hpc Hs Hpu Hre Hpe] Hi Hj. pose proof (Hpc _ _ Hi) as Hlt. simpl in Hlt.
  split; simpl; try done.
  - intros k p Hk. lookups; [done|]. pose proof (Hpc k p Hk) as Hp.
    destruct p; simpl in *; try done. split; [tauto|].
    rewrite lookup_delete_None. tauto.
  - intros x w Hx. apply lookup_delete_Some in Hx as [_ ?]. by apply Hs.
  - intros k k' p p' x Hk Hk' Hp Hp'. lookups; eauto.
  - intros k k' p p' x Hk Hk' Hp Hp'. lookups; eauto.
  - intros x Hx. assert (x ≠ j) as Hne.
    { intros ->. destruct Hx as [Hx|(k&p&Hk&Hx)]; simpl in *; [lia|]. lookups; [done|].
      by pose proof (Hre i k _ _ j Hi Hk eq_refl Hx). }
    rewrite lookup_delete_ne by done.
    destruct (Hpe x) as [?|?]; [|by left|].
    + destruct Hx as [Hx|(k&p&Hk&Hx)]; simpl in *; [by left|right]. lookups. eauto.
    + right. apply pool_any_update; [done|]. intros p ? ?. by simplify_eq/=.
Qed.

(** A thread in [p] neither pushes nor removes. *)
Local Ltac quiet := first [done|by intros ? []|simpl; lia].

(** ** The simulation *)
Definition matched (s : sys T) (vals : list T) (e : option (event)) (s' : sys T) : Prop :=
  ∃ vals', wf s' vals' ∧
    ((e = None ∧ abs vals' s' = abs vals s) ∨ astep (abs vals s) e (abs vals' s')).

Lemma abs_same s vals i p q' p' :
  threads s !! i = Some p → abs_pc vals p' = abs_pc vals p → head q' = head (queue s) →
  abs vals {| queue := q'; threads := <[i := p']> (threads s) |} = abs vals s.
Proof.
  intros Hi Hp Hh. unfold abs. simpl. rewrite Hh. f_equal. rewrite fmap_insert, Hp.
  apply insert_id. by rewrite lookup_fmap, Hi.
Qed.

Lemma abs_update s vals i q' p' :
  abs vals {| queue := q'; threads := <[i := p']> (threads s) |} =
    {| aqueue := drop (head q') vals;
       athreads := <[i := abs_pc vals p']> (athreads (abs vals s)) |}.
Proof. unfold abs. simpl. by rewrite fmap_insert. Qed.

Lemma abs_lookup s vals i p :
  threads s !! i = Some p → athreads (abs vals s) !! i = Some (abs_pc vals p).
Proof. intros Hi. simpl. by rewrite lookup_fmap, Hi. Qed.

(** The threads see the same abstract state when the history grows. *)
Lemma abs_grow s vals v :
  wf s vals → abs_pc (vals ++ [v]) <$> threads s = abs_pc vals <$> threads s.
Proof.
  intros Hwf. apply map_fmap_ext. intros k p Hk. pose proof (wf_pc _ _ Hwf k p Hk) as Hp.
  destruct p; simpl in *; try done. rewrite lookup_app_l; [done|].
  rewrite (wf_tail _ _ Hwf). pose proof (wf_head _ _ Hwf). lia.
Qed.

Lemma sim_quiet s vals i p p' :
  wf s vals → threads s !! i = Some p →
  (∀ j, ¬ pushes p j) → (∀ j, ¬ removes p j) →
  (∀ j, ¬ pushes p' j) → (∀ j, ¬ removes p' j) →
  pc_ok (queue s) vals p' → abs_pc vals p' = abs_pc vals p →
  matched s vals None {| queue := queue s; threads := <[i := p']> (threads s) |}.
Proof.
  intros. exists vals. split; [by eapply wf_quiet|left]. split; [done|].
  by eapply abs_same.
Qed.

Lemma sim_exec s vals i p q' p' :
  wf s vals → threads s !! i = Some p → exec (queue s) p = (q', p') →
  matched s vals None {| queue := q'; threads := <[i := p']> (threads s) |}.
Proof.
  intros Hwf Hi He. pose proof (wf_pc _ _ Hwf _ _ Hi) as Hok.
  destruct p as [|v|j v| |h|h|j| |tl|r]; simpl in He, Hok.
  - simplify_eq. apply sim_quiet with Idle; quiet.
  - unfold push_reserve in He. simplify_eq. exists (vals ++ [v]). split; [by apply wf_reserve|right].
    rewrite abs_update. unfold abs at 2. simpl. rewrite abs_grow by done.
    rewrite drop_app_le by (rewrite (wf_tail _ _ Hwf); apply (wf_head _ _ Hwf)).
    apply (astep_effect (abs vals s) i (OPush v)); [by apply (abs_lookup _ _ _ _ Hi)|constructor].
  - unfold push_insert in He. simplify_eq. exists vals. split; [by apply (wf_insert _ _ _ _ _ Hwf)|left].
    split; [done|]. by apply abs_same with (PushInsert j v).
  - unfold pop_load_head in He. simplify_eq. apply sim_quiet with PopHead; quiet.
  - unfold pop_load_tail in He. simplify_eq. case_decide.
    + exists vals. split; [apply wf_quiet with (PopTail h); quiet|right].
      rewrite abs_update. apply (astep_effect (abs vals s) i OPop); [by apply (abs_lookup _ _ _ _ Hi)|].
      simpl. assert (head (queue s) = length vals) as ->.
      { rewrite (wf_tail _ _ Hwf). pose proof (wf_head _ _ Hwf). lia. }
      rewrite drop_all. constructor.
    + apply sim_quiet with (PopTail h); try quiet. simpl. split; [done|].
      pose proof (wf_head _ _ Hwf). lia.
  - unfold pop_cas in He. case_decide; simplify_eq.
    + exists vals. split; [by apply wf_cas|right]. rewrite abs_update. simpl.
      assert (is_Some (vals !! head (queue s))) as [v Hv].
      { apply lookup_lt_is_Some. rewrite (wf_tail _ _ Hwf). lia. }
      rewrite Hv. apply (astep_effect (abs vals s) i OPop); [by apply (abs_lookup _ _ _ _ Hi)|].
      simpl. rewrite (drop_S vals v) by done. rewrite Nat.add_1_r. constructor.
    + apply sim_quiet with (PopCas h); quiet.
  - unfold spin_pop_by_offset in He. destruct (slots (queue s) !! j) as [v|] eqn:Hj; simplify_eq.
    + exists vals. split; [by apply wf_remove|left]. split; [done|].
      apply abs_same with (SpinRemove j); [done| |done]. simpl.
      by rewrite (wf_slots _ _ Hwf j v).
    + exists vals. rewrite insert_id by done. destruct s. split; [done|by left].
  - unfold len_load_tail in He. simplify_eq. apply sim_quiet with LenTail; quiet.
  - unfold len_load_head in He. simplify_eq. exists vals.
    split; [apply wf_quiet with (LenHead tl); quiet|right]. rewrite abs_update.
    apply (astep_effect (abs vals s) i OLen); [by apply (abs_lookup _ _ _ _ Hi)|constructor].
  - simplify_eq. apply sim_quiet with (Returned r); quiet.
Qed.

Lemma sim_step s vals e s' : wf s vals → step s e s' → matched s vals e s'.
Proof.
  intros Hwf Hs. destruct Hs as [s i o Hi|s i p q' p' Hi He|s i r Hi].
  - exists vals. split.
    + apply wf_quiet with Idle; destruct o; quiet.
    + right. rewrite abs_update. simpl. replace (abs_pc vals (enter o)) with (ACalled o)
        by (by destruct o).
      apply (astep_call (abs vals s)). by apply (abs_lookup _ _ _ _ Hi).
  - by eapply sim_exec.
  - exists vals. split; [apply wf_quiet with (Returned r); quiet|right]. rewrite abs_update.
    apply (astep_ret (abs vals s)). by apply (abs_lookup _ _ _ _ Hi).
Qed.

Lemma sim_steps s vals tr s' :
  wf s vals → steps s tr s' → ∃ vals', wf s' vals' ∧ asteps (abs vals s) tr (abs vals' s').
Proof.
  intros Hwf Hs. revert vals Hwf. induction Hs as [s|s e s' tr s'' Hstep _ IH]; intros vals Hwf.
  - exists vals. split; [done|constructor].
  - destruct (sim_step _ _ _ _ Hwf Hstep) as (vals'&Hwf'&Habs).
    destruct (IH _ Hwf') as (vals''&?&Hr). exists vals''. split; [done|].
    destruct Habs as [[-> Heq]|Ha]; [by rewrite Heq in Hr|by econstructor].
Qed.
End queue_proofs.

Section queue_runs.
Context {T : Type}.
Implicit Types (s : sys T).

Lemma steps_emit s e s' : step s e s' → steps s (emit e []) s'.
Proof. intros. econstructor; [done|constructor]. Qed.

Lemma run_steps sched s : ∃ tr, steps s tr (run s sched).
Proof.
  revert s. induction sched as [|[i o] sched IH]; intros s; simpl; [eexists; constructor|].
  destruct (threads s !! i) as [p|] eqn:Hi; [|apply IH].
  assert (∀ e s', step s e s' → ∃ tr, steps s tr (run s' sched)) as Hone.
  { intros e s' Hstep. destruct (IH s') as [tr Htr]. eexists. by econstructor. }
  destruct p; (eapply Hone; first [by eapply step_call|by eapply step_ret|
    eapply (step_exec s i); [done|by apply surjective_pairing]]).
Qed.

(** Every reachable state is well formed. *)
Lemma reachable_wf ids tr s : steps (init ids) tr s → ∃ vals, wf s vals.
Proof.
  intros Hs. destruct (sim_steps _ _ _ _ (wf_init ids) Hs) as (vals&?&_). by exists vals.
Qed.

Lemma spin_stuck n s i j o :
  threads s !! i = Some (SpinRemove j) → slots (queue s) !! j = None →
  run s (replicate n (i, o)) = s.
Proof.
  intros Hi Hj. induction n as [|n IH]; [done|]. simpl. rewrite Hi. simpl.
  unfold spin_pop_by_offset. rewrite Hj. simpl. rewrite insert_id by done.
  by destruct s.
Qed.
End queue_runs.

(** ** Properties *)

(** C5. Linearizability of the queue: every interleaving of any number of threads
    that push and pop has the same calls and returns as a run of the atomic
    queue, where each call takes effect at one instant between its call and its
    return: values leave in the order in which they entered, none is lost,
    duplicated or invented, and [pop] returns [None] only when the queue is
    empty at that instant. *)
Theorem queue_linearizable {T} (ids : gset nat) (tr : list event) (s : sys T) :
  steps (init ids) tr s → ∃ a, asteps (ainit ids) tr a.
Proof.
  intros Hs. destruct (sim_steps _ _ _ _ (wf_init ids) Hs) as (vals&_&Ha).
  exists (abs vals s). replace (ainit ids) with (abs [] (init (T:=T) ids)); [done|].
  unfold abs, ainit. simpl. f_equal. by rewrite fmap_gset_to_gmap.
Qed.

(** What a [pop] that has claimed an offset waits for: in every reachable
    state, either its slot is filled, and its next step returns the value, or
    some thread is between its [fetch_add] and its [insert] at that offset.  In the
    second case the popping thread alone never returns, however many steps it
    makes: the queue is not lock-free. *)
Theorem pop_waits_for_its_push {T} (ids : gset nat) (tr : list event) (s : sys T)
    (i j n : nat) (o : op T) :
  steps (init ids) tr s → threads s !! i = Some (SpinRemove j) →
  (∃ v, slots (queue s) !! j = Some v ∧
        (exec (queue s) (SpinRemove j)).2 = Returned (RPop (Some v))) ∨
  (∃ k v, threads s !! k = Some (PushInsert j v) ∧
          slots (exec (queue s) (PushInsert j v)).1 !! j = Some v ∧
          run s (replicate n (i, o)) = s).
Proof.
  intros [vals Hwf]%reachable_wf Hi.
  destruct (slots (queue s) !! j) as [v|] eqn:Hj.
  - left. exists v. split; [done|]. simpl. unfold spin_pop_by_offset. by rewrite Hj.
  - right. destruct (wf_pending _ _ Hwf j) as [[v Hv]|(k&p&Hk&Hp)].
    + right. by exists i, (SpinRemove j).
    + by rewrite Hj in Hv.
    + destruct p as [| |j' v| | | | | | |]; simpl in Hp; try done. subst j'. exists k, v.
      split; [done|]. split; [simpl; by rewrite lookup_insert_eq|by apply spin_stuck with j].
Qed.

(** The schedule of [len_can_underflow]: thread 1 loads [tail] in [len], then
    thread 2 pushes and pops, then thread 1 loads [head]. *)
Definition len_schedule {T} (v : T) : list (nat * op T) :=
  let len := (1, OLen) in let push := (2, OPush v) in let pop := (2, OPop) in
  [len; len; push; push; push; push; pop; pop; pop; pop; pop; len].

(** A code bug: [len] subtracts two loads made at different times.  A push and
    a pop between them make the subtraction overflow (a panic in a debug build,
    a huge length in a release build); without interference it is [tail - head]. *)
Theorem len_can_underflow {T} (v : T) :
  (∃ tr (s : sys T), steps (init (T:=T) {[1; 2]}) tr s ∧ threads s !! 1 = Some (Returned (RLen None))) ∧
  (∀ ids tr (s : sys T), steps (init ids) tr s →
     ∃ tl, (exec (queue s) LenTail).2 = LenHead tl ∧
       (exec (queue s) (LenHead tl)).2 =
         Returned (RLen (Some (tail (queue s) - head (queue s))))).
Proof.
  split.
  - destruct (run_steps (len_schedule v) (init {[1; 2]})) as [tr Htr].
    exists tr, (run (init {[1; 2]}) (len_schedule v)). split; [done|]. by vm_compute.
  - intros ids tr s [vals Hwf]%reachable_wf. exists (tail (queue s)). split; [done|].
    simpl. by rewrite decide_True by apply (wf_head _ _ Hwf).
Qed.

(** ** Witnesses *)

(** Thread 2 is inside [pop] while thread 1 is inside [push]. *)
Definition demo_schedule : list (nat * op nat) :=
  [(1, OPush 7); (1, OPush 7); (2, OPop); (2, OPop); (2, OPop); (2, OPop)].

Lemma demo_trace :
  steps (init {[1; 2]}) [ECall 1 (OPush 7); ECall 2 OPop] (run (init {[1; 2]}) demo_schedule).
Proof.
  set (s0 := init {[1; 2]}).
  assert (∀ (s : sys nat) i p q' p' s' tr, threads s !! i = Some p → exec (queue s) p = (q', p') →
    steps {| queue := q'; threads := <[i := p']> (threads s) |} tr s' →
    steps (T:=nat) s tr s') as Hx.
  { intros s i p q' p' s' tr Hi He Hs.
    exact (steps_cons s None _ tr s' (step_exec s i p q' p' Hi He) Hs). }
  eapply (steps_cons s0 (Some (ECall 1 (OPush 7)))); [by apply step_call|].
  eapply (Hx _ 1); [by vm_compute|by vm_compute|].
  eapply (steps_cons _ (Some (ECall 2 OPop))); [by apply step_call|].
  eapply (Hx _ 2); [by vm_compute|by vm_compute|].
  eapply (Hx _ 2); [by vm_compute|by vm_compute|].
  eapply (Hx _ 2); [by vm_compute|by vm_compute|].
  apply steps_refl.
Qed.

Lemma queue_linearizable_witness :
  ∃ a : asys nat, asteps (ainit {[1; 2]}) [ECall 1 (OPush 7); ECall 2 OPop] a.
Proof. exact (queue_linearizable _ _ _ demo_trace). Defined.

Lemma pop_waits_for_its_push_witness :
  let s := run (init {[1; 2]}) demo_schedule in
  (∃ v, slots (queue s) !! 0 = Some v ∧
        (exec (queue s) (SpinRemove 0)).2 = Returned (RPop (Some v))) ∨
  (∃ k v, threads s !! k = Some (PushInsert 0 v) ∧
          slots (exec (queue s) (PushInsert 0 v)).1 !! 0 = Some v ∧
          run s (replicate 5 (2, OPop)) = s).
Proof.
  apply (pop_waits_for_its_push _ _ _ 2 0 5 OPop demo_trace). by vm_compute.
Defined.

Lemma len_can_underflow_witness :
  ∃ tl : nat, (exec (queue (init (T:=nat) {[1]})) LenTail).2 = LenHead tl.
Proof.
  destruct (len_can_underflow 7) as [_ H].
  destruct (H {[1]} [] (init {[1]}) (steps_refl _)) as (tl&Htl&_). by exists tl.
Defined.
