(* ===== verification/Timewheel.v ===== *)
(** * crates/lockfree/src/timewheel.rs: the hashed time wheel

    Timers are kept by expiration tick in a concurrent map; [new_timer] and
    [next_tick] race on it and on the tick counter.  [exec] is one atomic access of
    one thread ([fetch_update] is its load, its closure and its compare-exchange;
    the closure of the second one removes a slot); [observe] reads off the places of a call what
    it has done.  Time is the number of nanoseconds since
    [start_instant], ticks are 64-bit.  [new_timer_seq] and [next_tick_seq] are the
    two operations without interference. *)

From S2P Require Import Prelude.

Local Open Scope N_scope.

(** [Duration::as_micros]. *)
Definition as_micros (nanos : N) : N := nanos `div` 1000.
(** [as u64]. *)
Definition as_u64 (x : N) : N := x `mod` 2 ^ 64.

Section timewheel.
Context {T : Type}.

Record HashedTimeWheel := {
  timers_map : gmap N (list T);
  ticks : N;
  tick_duration : N;
  timer_count : N;
}.

Definition HashedTimeWheel_new (tick_duration : N) : HashedTimeWheel :=
  {| timers_map := ∅; ticks := 0; tick_duration := as_micros tick_duration; timer_count := 0 |}.

Definition timers (w : HashedTimeWheel) : N := timer_count w.

(** The tick of an instant. *)
Definition tick_of (w : HashedTimeWheel) (nanos : N) : N :=
  as_u64 (as_micros nanos `div` tick_duration w).

Definition set_timers (m : gmap N (list T)) (w : HashedTimeWheel) : HashedTimeWheel :=
  {| timers_map := m; ticks := ticks w; tick_duration := tick_duration w;
     timer_count := timer_count w |}.
Definition set_ticks (n : N) (w : HashedTimeWheel) : HashedTimeWheel :=
  {| timers_map := timers_map w; ticks := n; tick_duration := tick_duration w;
     timer_count := timer_count w |}.
Definition incr_count (w : HashedTimeWheel) : HashedTimeWheel :=
  {| timers_map := timers_map w; ticks := ticks w; tick_duration := tick_duration w;
     timer_count := timer_count w + 1 |}.

(** [self.timers.entry(ticks).or_default().push(timer)]. *)
Definition entry_push (tk : N) (t : T) (w : HashedTimeWheel) : HashedTimeWheel :=
  set_timers (<[tk := default [] (timers_map w !! tk) ++ [t]]> (timers_map w)) w.

(** [self.timers.remove(&ticks)]. *)
Definition remove (tk : N) (w : HashedTimeWheel) : option (list T) * HashedTimeWheel :=
  (timers_map w !! tk, set_timers (delete tk (timers_map w)) w).

(** ** The atomic accesses *)
Inductive ret := RNew (r : option N) | RTick (r : option (list T)).

Inductive pc :=
| Idle
| NewStart (t : T) (duration : N)
| NewLoad1 (t : T) (due tk : N)
| NewCas1 (t : T) (due tk current : N)
| NewPush (t : T) (due tk : N)
| NewLoad (tk : N)
| NewRemove (tk : N)
| NewLoad2 (tk : N)
| NewRemove2 (tk current : N)
| NewCas2 (tk current : N)
| NewCount (tk : N)
| TickLoad
| TickClock (current : N)
| TickCas (current tk : N)
| TickRemove (i tk : N) (timeout_timers : list T)
| Returned (r : ret)
| Panicked.

(** The closures of the two [fetch_update]s: where they lead. *)
Definition closure1 (t : T) (due tk current : N) : pc :=
  if decide (tk < current) then Returned (RNew None) else NewCas1 t due tk current.
Definition closure2 (tk current : N) : pc :=
  if decide (tk < current) then NewRemove2 tk current else NewCas2 tk current.

(** One access of [new_timer]. *)
Definition new_timer_exec (w : HashedTimeWheel) (now : N) (p : pc) : HashedTimeWheel * pc :=
  match p with
  | NewStart t duration =>
      if decide (tick_duration w = 0) then (w, Panicked)
      else (w, NewLoad1 t (now + duration) (tick_of w (now + duration)))
  | NewLoad1 t due tk => (w, closure1 t due tk (ticks w))
  | NewCas1 t due tk current =>
      (w, if decide (ticks w = current) then NewPush t due tk else closure1 t due tk (ticks w))
  | NewPush t due tk => (entry_push tk t w, NewLoad tk)
  | NewLoad tk => (w, if decide (tk < ticks w) then NewRemove tk else NewLoad2 tk)
  | NewRemove tk =>
      match remove tk w with
      | (Some _, w) => (w, Returned (RNew None))
      | (None, w) => (w, NewLoad2 tk)
      end
  | NewLoad2 tk => (w, closure2 tk (ticks w))
  | NewRemove2 tk current =>
      match remove tk w with
      | (Some _, w) => (w, Returned (RNew None))
      | (None, w) => (w, NewCas2 tk current)
      end
  | NewCas2 tk current =>
      (w, if decide (ticks w = current) then NewCount tk else closure2 tk (ticks w))
  | NewCount tk => (incr_count w, Returned (RNew (Some tk)))
  | p => (w, p)
  end.

(** One access of [next_tick]. *)
Definition next_tick_exec (w : HashedTimeWheel) (now : N) (p : pc) : HashedTimeWheel * pc :=
  match p with
  | TickLoad => (w, TickClock (ticks w))
  | TickClock current =>
      if decide (tick_duration w = 0) then (w, Panicked)
      else
        let tk := tick_of w now in
        if decide (current ≤ tk) then
          (w, if decide (current = tk) then Returned (RTick None) else TickCas current tk)
        else (w, Panicked)
  | TickCas current tk =>
      if decide (ticks w = current) then (set_ticks tk w, TickRemove current tk [])
      else (w, TickLoad)
  | TickRemove i tk timeout_timers =>
      if decide (i < tk) then
        match remove i w with
        | (Some ts, w) => (w, TickRemove (i + 1) tk (timeout_timers ++ ts))
        | (None, w) => (w, TickRemove (i + 1) tk timeout_timers)
        end
      else (w, Returned (RTick (Some timeout_timers)))
  | p => (w, p)
  end.

Definition exec (w : HashedTimeWheel) (now : N) (p : pc) : HashedTimeWheel * pc :=
  match p with
  | TickLoad | TickClock _ | TickCas _ _ | TickRemove _ _ _ => next_tick_exec w now p
  | p => new_timer_exec w now p
  end.

(** What is seen of a call, from its accesses and its result: [new_timer] stores a timer that is due at
    [due] in slot [tk], has dropped a slot when it fails, has succeeded; [next_tick] has put the
    timers of slot [tk] into the vector that it returns; a call returns. *)
Inductive event :=
| EPush (due tk : N) (t : T)
| EDrop (tk : N) (ts : list T)
| EFire (now tk : N) (ts : list T)
| EAccept (tk : N)
| ERet (r : ret).

(** The access of a call that was at [p], in wheel [w], and is at [p'] now. *)
Definition observe (w : HashedTimeWheel) (now : N) (p p' : pc) : list event :=
  match p, p' with
  | NewPush t due tk, _ => [EPush due tk t]
  | (NewRemove tk | NewRemove2 tk _), Returned (RNew None) => [EDrop tk (default [] (timers_map w !! tk))]
  | NewCount _, Returned (RNew (Some tk)) => [EAccept tk]
  | TickRemove i _ before, TickRemove _ _ after =>
      match drop (length before) after with [] => [] | ts => [EFire now i ts] end
  | _, _ => []
  end.

(** ** The threads together, under a clock that only advances *)
Record sys := { wheel : HashedTimeWheel; now : N; pool : gmap nat pc }.

Inductive step : sys → list event → sys → Prop :=
| step_clock s n :
    now s ≤ n → step s [] {| wheel := wheel s; now := n; pool := pool s |}
| step_new s i t duration :
    pool s !! i = Some Idle →
    step s [] {| wheel := wheel s; now := now s; pool := <[i := NewStart t duration]> (pool s) |}
| step_tick s i :
    pool s !! i = Some Idle →
    step s [] {| wheel := wheel s; now := now s; pool := <[i := TickLoad]> (pool s) |}
| step_exec s i p w p' :
    pool s !! i = Some p → exec (wheel s) (now s) p = (w, p') →
    step s (observe (wheel s) (now s) p p') {| wheel := w; now := now s; pool := <[i := p']> (pool s) |}
| step_ret s i r :
    pool s !! i = Some (Returned r) →
    step s [ERet r] {| wheel := wheel s; now := now s; pool := <[i := Idle]> (pool s) |}.

Definition init (tick_duration : N) (ids : gset nat) : sys :=
  {| wheel := HashedTimeWheel_new tick_duration; now := 0; pool := gset_to_gmap Idle ids |}.

(** The states reachable from a new wheel, with the events on the way. *)
Inductive reach (tick_duration : N) (ids : gset nat) : list event → sys → Prop :=
| reach_init : reach tick_duration ids [] (init tick_duration ids)
| reach_step tr s es s' :
    reach tick_duration ids tr s → step s es s' → reach tick_duration ids (tr ++ es) s'.

(** Scheduled moves, to exhibit runs. *)
Inductive move := MClock (n : N) | MNew (i : nat) (t : T) (duration : N) | MTick (i : nat)
  | MExec (i : nat) | MRet (i : nat).

Definition apply_move (s : sys) (m : move) : sys * list event :=
  let at_ i := default Panicked (pool s !! i) in
  let goto w i p := {| wheel := w; now := now s; pool := <[i := p]> (pool s) |} in
  match m with
  | MClock n => ({| wheel := wheel s; now := N.max (now s) n; pool := pool s |}, [])
  | MNew i t d =>
      match at_ i with Idle => (goto (wheel s) i (NewStart t d), []) | _ => (s, []) end
  | MTick i => match at_ i with Idle => (goto (wheel s) i TickLoad, []) | _ => (s, []) end
  | MExec i =>
      match pool s !! i with
      | Some p => let '(w, p') := exec (wheel s) (now s) p in (goto w i p', observe (wheel s) (now s) p p')
      | None => (s, [])
      end
  | MRet i => match at_ i with Returned r => (goto (wheel s) i Idle, [ERet r]) | _ => (s, []) end
  end.

Fixpoint run (s : sys) (ms : list move) : sys * list event :=
  match ms with
  | [] => (s, [])
  | m :: ms => let '(s, es) := apply_move s m in let '(s, es') := run s ms in (s, es ++ es')
  end.

(** ** The two operations without interference *)
Definition new_timer_seq (w : HashedTimeWheel) (now : N) (t : T) (duration : N) :
    HashedTimeWheel * option N :=
  let tk := tick_of w (now + duration) in
  if decide (tk < ticks w) then (w, None)
  else (incr_count (entry_push tk t w), Some tk).

(** The loop [for i in current..ticks]: the slots [i], [i + 1], .. taken out. *)
Fixpoint take_slots (n : nat) (i : N) (w : HashedTimeWheel) (acc : list T) :
    HashedTimeWheel * list T :=
  match n with
  | 0%nat => (w, acc)
  | S n =>
      let '(r, w) := remove i w in take_slots n (i + 1) w (acc ++ default [] r)
  end.

Definition next_tick_seq (w : HashedTimeWheel) (now : N) : HashedTimeWheel * option (list T) :=
  let tk := tick_of w now in
  if decide (ticks w = tk) then (w, None)
  else let '(w, ts) := take_slots (N.to_nat (tk - ticks w)) (ticks w) (set_ticks tk w) [] in
       (w, Some ts).

(** [n] accesses of one thread. *)
Fixpoint exec_n (n : nat) (w : HashedTimeWheel) (now : N) (p : pc) : HashedTimeWheel * pc :=
  match n with
  | 0%nat => (w, p)
  | S n => let '(w, p) := exec w now p in exec_n n w now p
  end.
End timewheel.
Arguments HashedTimeWheel : clear implicits.
Arguments ret : clear implicits.
Arguments pc : clear implicits.
Arguments event : clear implicits.
Arguments sys : clear implicits.
Arguments move : clear implicits.

(** ** Accounting: where the timers of a history are *)
Section accounting.
Context {T : Type}.

(** The timers in the wheel, with their slots. *)
Definition held (w : HashedTimeWheel T) : list (N * T) :=
  concat ((λ x : N * list T, pair x.1 <$> x.2) <$> map_to_list (timers_map w)).

Definition pushed (tr : list (event T)) : list (N * T) :=
  concat ((λ e, match e with EPush _ tk t => [(tk, t)] | _ => [] end) <$> tr).
Definition fired (tr : list (event T)) : list (N * T) :=
  concat ((λ e, match e with EFire _ tk ts => pair tk <$> ts | _ => [] end) <$> tr).
Definition dropped (tr : list (event T)) : list (N * T) :=
  concat ((λ e, match e with EDrop tk ts => pair tk <$> ts | _ => [] end) <$> tr).
Definition accepted (tr : list (event T)) : list N :=
  concat ((λ e, match e with EAccept tk => [tk] | _ => [] end) <$> tr).
(** The vectors that [next_tick] has returned, and those of the calls that have not. *)
Definition returned (tr : list (event T)) : list T :=
  concat ((λ e, match e with ERet (RTick (Some ts)) => ts | _ => [] end) <$> tr).
Definition collected (p : pc T) : list T :=
  match p with TickRemove _ _ ts | Returned (RTick (Some ts)) => ts | _ => [] end.

Lemma returned_app tr es : returned (tr ++ es) = returned tr ++ returned es.
Proof. unfold returned. by rewrite fmap_app, concat_app. Qed.
Lemma pushed_app tr es : pushed (tr ++ es) = pushed tr ++ pushed es.
Proof. unfold pushed. by rewrite fmap_app, concat_app. Qed.
Lemma fired_app tr es : fired (tr ++ es) = fired tr ++ fired es.
Proof. unfold fired. by rewrite fmap_app, concat_app. Qed.
Lemma dropped_app tr es : dropped (tr ++ es) = dropped tr ++ dropped es.
Proof. unfold dropped. by rewrite fmap_app, concat_app. Qed.
Lemma accepted_app tr es : accepted (tr ++ es) = accepted tr ++ accepted es.
Proof. unfold accepted. by rewrite fmap_app, concat_app. Qed.

Lemma held_lookup w tk ts :
  timers_map w !! tk = Some ts →
  held w ≡ₚ (pair tk <$> ts) ++ held (remove tk w).2.
Proof.
  intros Htk. unfold held. simpl. rewrite <-(map_to_list_delete _ _ _ Htk). done.
Qed.

Lemma held_push w tk t : held (entry_push tk t w) ≡ₚ (tk, t) :: held w.
Proof.
  unfold held, entry_push. simpl. destruct (timers_map w !! tk) as [ts|] eqn:Htk; simpl.
  - rewrite <-insert_delete_eq, map_to_list_insert by apply lookup_delete_eq.
    rewrite <-(map_to_list_delete _ _ _ Htk). simpl. rewrite fmap_app. simpl.
    rewrite <-app_assoc. simpl. by rewrite <-Permutation_middle.
  - by rewrite map_to_list_insert by done.
Qed.
End accounting.

(** ** The invariant of the interleavings *)
Section invariant.
Context {T : Type} (td : N) (Htd : as_micros td ≠ 0).
Implicit Types (w : HashedTimeWheel T) (s : sys T).

(** The tick of an instant, before [as u64]. *)
Definition tick (nanos : N) : N := as_micros nanos `div` as_micros td.

Lemma tick_mono n m : n ≤ m → tick n ≤ tick m.
Proof. intros. unfold tick, as_micros. apply N.Div0.div_le_mono, N.Div0.div_le_mono. done. Qed.

Lemma tick_of_tick w n :
  tick_duration w = as_micros td → tick n < 2 ^ 64 → tick_of w n = tick n.
Proof. intros Hw Hn. unfold tick_of, as_u64. rewrite Hw. by apply N.mod_small. Qed.

Lemma tick_of_same w w' n : tick_duration w' = tick_duration w → tick_of w' n = tick_of w n.
Proof. unfold tick_of. by intros ->. Qed.

Definition pc_ok w (nw : N) (p : pc T) : Prop :=
  match p with
  | NewLoad1 _ due tk | NewCas1 _ due tk _ | NewPush _ due tk => tk = as_u64 (tick due)
  | TickClock current => current ≤ ticks w
  | TickCas current tk => current < tk ≤ tick nw
  | TickRemove _ tk _ => tk ≤ tick nw
  | Panicked => False
  | _ => True
  end.

Definition event_ok (nw : N) (e : event T) : Prop :=
  match e with
  | EPush due tk _ => tk = as_u64 (tick due)
  | EFire at_ tk _ => at_ ≤ nw ∧ tk < tick at_
  | _ => True
  end.

Record inv (tr : list (event T)) (s : sys T) : Prop := {
  inv_td : tick_duration (wheel s) = as_micros td;
  inv_ticks : ticks (wheel s) ≤ tick (now s);
  inv_pool i p : pool s !! i = Some p → pc_ok (wheel s) (now s) p;
  inv_events e : e ∈ tr → event_ok (now s) e;
  inv_timers : pushed tr ≡ₚ fired tr ++ dropped tr ++ held (wheel s);
  inv_fired : (fired tr).*2 ≡ₚ returned tr ++ pool_hold collected (pool s);
  inv_count : timer_count (wheel s) = N.of_nat (length (accepted tr));
}.

(** What one access of a thread guarantees, of what is seen of it. *)
Record exec_ok w (nw : N) (p : pc T) (w' : HashedTimeWheel T) (p' : pc T)
    (es : list (event T)) : Prop := {
  eo_td : tick_duration w' = tick_duration w;
  eo_ticks : ticks w ≤ ticks w' ≤ tick nw;
  eo_pc : pc_ok w' nw p';
  eo_events e : e ∈ es → event_ok nw e;
  eo_timers : pushed es ++ held w ≡ₚ fired es ++ dropped es ++ held w';
  eo_fired : collected p' ≡ₚ (fired es).*2 ++ collected p;
  eo_returned : returned es = [];
  eo_count : timer_count w' = timer_count w + N.of_nat (length (accepted es));
}.

(** Neither the wheel nor a vector changes. *)
Lemma exec_ok_quiet w nw p p' es :
  ticks w ≤ tick nw → pc_ok w nw p' → es = [] → collected p' = collected p → exec_ok w nw p w p' es.
Proof. intros Ht Hp -> Hc. split; simpl; try done; try lia; [by intros e ?%elem_of_nil|by rewrite Hc]. Qed.

Lemma closure1_ok w nw t due tk current :
  tk = as_u64 (tick due) → pc_ok w nw (closure1 t due tk current).
Proof. intros. unfold closure1. by case_decide. Qed.
Lemma closure2_ok w nw tk current : pc_ok w nw (closure2 (T:=T) tk current).
Proof. unfold closure2. by case_decide. Qed.

(** A slot dropped by [new_timer]. *)
Lemma drop_ok w nw p tk ts :
  ticks w ≤ tick nw → timers_map w !! tk = Some ts → collected p = [] →
  exec_ok w nw p (remove tk w).2 (Returned (RNew None)) [EDrop tk (default [] (timers_map w !! tk))].
Proof.
  intros Ht Hts Hp. rewrite Hts. split; simpl; try done; try lia.
  - by intros e ->%list_elem_of_singleton.
  - unfold dropped. simpl. rewrite app_nil_r. by apply held_lookup.
  - by rewrite Hp.
Qed.

(** An absent slot, removed. *)
Lemma absent_ok w nw p p' tk es :
  ticks w ≤ tick nw → (∀ w', ticks w' = ticks w → pc_ok w' nw p') → timers_map w !! tk = None →
  es = [] → collected p' = collected p → exec_ok w nw p (remove tk w).2 p' es.
Proof.
  intros Ht Hp Hts. assert ((remove tk w).2 = w) as ->.
  { unfold remove, set_timers. simpl. rewrite delete_id by done. by destruct w. }
  apply exec_ok_quiet; auto.
Qed.

Lemma new_timer_exec_ok w nw p w' p' :
  tick_duration w = as_micros td → ticks w ≤ tick nw → pc_ok w nw p → collected p = [] →
  new_timer_exec w nw p = (w', p') →
  exec_ok w nw p w' p' (observe w nw p p').
Proof.
  intros Hw Ht Hok Hcol He.
  assert (∀ t due tk c, collected (closure1 (T:=T) t due tk c) = []) as Hc1
    by (intros; unfold closure1; by case_decide).
  assert (∀ tk c, collected (closure2 (T:=T) tk c) = []) as Hc2 by (intros; unfold closure2; by case_decide).
  destruct p; simpl in He, Hok, Hcol; try done.
  all: try (simplify_eq; apply exec_ok_quiet; done).
  - rewrite decide_False in He by congruence. simplify_eq. apply exec_ok_quiet; try done.
    simpl. unfold tick_of, tick. by rewrite Hw.
  - simplify_eq. apply exec_ok_quiet; try done. by apply closure1_ok.
  - simplify_eq. apply exec_ok_quiet; [done| |done|]; case_decide; try done. by apply closure1_ok.
  - simplify_eq. split; simpl; try done; try lia.
    + by intros e ->%list_elem_of_singleton.
    + unfold pushed. simpl. by rewrite held_push.
  - simplify_eq. apply exec_ok_quiet; [done|by case_decide|done|by case_decide].
  - destruct (timers_map w !! tk) eqn:Htk; simplify_eq; [by eapply drop_ok|by apply absent_ok].
  - simplify_eq. apply exec_ok_quiet; try done. apply closure2_ok.
  - destruct (timers_map w !! tk) eqn:Htk; simplify_eq; [by eapply drop_ok|by apply absent_ok].
  - simplify_eq. apply exec_ok_quiet; [done| |done|]; case_decide; try done. apply closure2_ok.
  - simplify_eq. split; simpl; try done; try lia. by intros e ->%list_elem_of_singleton.
Qed.

Lemma next_tick_exec_ok w nw p w' p' :
  tick_duration w = as_micros td → ticks w ≤ tick nw → tick nw < 2 ^ 64 → pc_ok w nw p →
  next_tick_exec w nw p = (w', p') →
  match p with TickLoad | TickClock _ | TickCas _ _ | TickRemove _ _ _ => True | _ => False end →
  exec_ok w nw p w' p' (observe w nw p p').
Proof.
  intros Hw Ht Hnw Hok He Hp. destruct p as [| | | | | | | | | | | |c|c tk|i tk acc| |]; simpl in He, Hok; try done.
  - simplify_eq. apply exec_ok_quiet; simpl; [done|lia|done|done].
  - rewrite decide_False in He by congruence. rewrite tick_of_tick in He by done.
    rewrite decide_True in He by lia. simplify_eq.
    apply exec_ok_quiet; [done| |by case_decide|by case_decide]. case_decide; simpl; [done|lia].
  - case_decide; simplify_eq; [|by apply exec_ok_quiet].
    split; simpl; try done; try lia. by intros e ?%elem_of_nil.
  - case_decide; [|by simplify_eq; apply exec_ok_quiet].
    destruct (timers_map w !! i) as [ts|] eqn:Hts; simplify_eq.
    2: { apply absent_ok; try done. simpl. by rewrite drop_all. }
    cbn [observe]. rewrite drop_app_length. pose proof (held_lookup w i ts Hts) as Hh.
    destruct ts as [|x ts]; (split; simpl; try done; try lia).
    + by intros e ?%elem_of_nil.
    + by rewrite app_nil_r.
    + intros e ->%list_elem_of_singleton. simpl. lia.
    + unfold fired. simpl. rewrite app_nil_r. by apply Hh.
    + unfold fired. simpl. rewrite app_nil_r, <-list_fmap_compose, list_fmap_id.
      by rewrite Permutation_app_comm.
Qed.

Lemma thread_exec_ok w nw p w' p' :
  tick_duration w = as_micros td → ticks w ≤ tick nw → tick nw < 2 ^ 64 → pc_ok w nw p →
  exec w nw p = (w', p') → exec_ok w nw p w' p' (observe w nw p p').
Proof.
  intros Hw Ht Hnw Hok He. destruct p; try (by eapply next_tick_exec_ok); try (by eapply new_timer_exec_ok).
  simpl in He. simplify_eq. by apply exec_ok_quiet.
Qed.

(** The conditions of the other threads are kept when time and ticks advance. *)
Lemma pc_ok_mono w w' nw nw' p :
  ticks w ≤ ticks w' → nw ≤ nw' → pc_ok w nw p → pc_ok w' nw' p.
Proof. intros Ht Hn%tick_mono. destruct p; simpl; try done; lia. Qed.

Lemma event_ok_mono nw nw' e : nw ≤ nw' → event_ok nw e → event_ok nw' e.
Proof. intros Hn. destruct e; simpl; try done. intros []. split; [lia|done]. Qed.

(** A call that starts or returns. *)
Lemma inv_pool_update tr s i p p' es :
  inv tr s → pool s !! i = Some p → pc_ok (wheel s) (now s) p' →
  pushed es = [] → fired es = [] → dropped es = [] → accepted es = [] →
  (∀ e, e ∈ es → event_ok (now s) e) → collected p = returned es ++ collected p' →
  inv (tr ++ es) {| wheel := wheel s; now := now s; pool := <[i := p']> (pool s) |}.
Proof.
  intros [H1 H2 H3 H4 H5 H6 H7] Hi Hp Hpu Hf Hd Ha He Hc. split; simpl; try done.
  - intros j q [[<- <-]|[_ Hj]]%lookup_insert_Some; [done|eauto].
  - intros e [?|?]%elem_of_app; auto.
  - by rewrite pushed_app, fired_app, dropped_app, Hpu, Hf, Hd, !app_nil_r.
  - rewrite fired_app, returned_app, Hf, app_nil_r, H6.
    pose proof (pool_hold_update collected _ _ _ p' Hi) as Hu. rewrite Hc in Hu.
    rewrite <-!app_assoc. apply Permutation_app_head.
    apply (Permutation_app_inv_l (collected p')). rewrite <-Hu. solve_Permutation.
  - by rewrite accepted_app, Ha, app_nil_r.
Qed.

Lemma wheel_step_inv tr s es s' :
  inv tr s → step s es s' → tick (now s') < 2 ^ 64 → inv (tr ++ es) s'.
Proof.
  intros Hinv Hs Hb. destruct Hs as [s n Hn|s i t d Hi|s i Hi|s i p w p' Hi He|s i r Hi].
  - rewrite app_nil_r. destruct Hinv. split; simpl in *; try done.
    + by etrans; [|apply tick_mono].
    + intros i p Hi. eapply pc_ok_mono; [| |by eapply inv_pool0]; [done|done].
    + intros e He. eapply event_ok_mono; [|by apply inv_events0]. done.
  - eapply inv_pool_update; try done. by intros e ?%elem_of_nil.
  - eapply inv_pool_update; try done. by intros e ?%elem_of_nil.
  - destruct Hinv as [Hw Ht Hpool Hev Htm Hfi Hc]. simpl in Hb.
    destruct (thread_exec_ok _ _ _ _ _ Hw Ht Hb (Hpool _ _ Hi) He) as [Hw' Ht' Hp' Hev' Htm' Hfi' Hre' Hc'].
    set (es := observe _ _ _ _) in *. clearbody es. split; simpl.
    + congruence.
    + lia.
    + intros j q [[<- <-]|[_ Hj]]%lookup_insert_Some; [done|].
      eapply pc_ok_mono; [| |by apply (Hpool j)]; [lia|done].
    + intros e [?|?]%elem_of_app; auto.
    + rewrite pushed_app, fired_app, dropped_app, Htm, (Permutation_app_comm _ (pushed es)).
      rewrite (app_assoc (fired tr)), app_assoc, (Permutation_app_comm (pushed es)).
      rewrite <-!app_assoc, Htm'. solve_Permutation.
    + pose proof (pool_hold_update collected _ _ _ p' Hi) as Hu. rewrite Hfi' in Hu.
      rewrite fired_app, returned_app, fmap_app, Hfi, Hre', app_nil_r.
      apply (Permutation_app_inv_l (collected p)).
      transitivity (returned tr ++ collected p ++ pool_hold collected (<[i:=p']> (pool s)));
        [rewrite Hu; solve_Permutation|solve_Permutation].
    + rewrite accepted_app, length_app, Hc', Hc. lia.
  - eapply inv_pool_update; try done.
    + by intros e ->%list_elem_of_singleton.
    + unfold returned. simpl. by destruct r as [|[ts|]]; simpl; rewrite ?app_nil_r.
Qed.

Lemma reach_inv ids tr s : reach td ids tr s → tick (now s) < 2 ^ 64 → inv tr s.
Proof.
  intros Hr. induction Hr as [|tr s es s' _ IH Hs]; intros Hb.
  - split; simpl; try done; try lia.
    + by intros i p [_ <-]%lookup_gset_to_gmap_Some.
    + by intros e ?%elem_of_nil.
    + destruct (pool_hold collected (gset_to_gmap Idle ids)) as [|x l] eqn:Hp; [done|]. exfalso.
      assert (x ∈ pool_hold (collected (T:=T)) (gset_to_gmap Idle ids)) as Hx by (rewrite Hp; left).
      apply pool_hold_inv in Hx as (i&p&[_ <-]%lookup_gset_to_gmap_Some&Hx). by apply elem_of_nil in Hx.
  - apply wheel_step_inv with s; [|done|done]. apply IH.
    eapply N.le_lt_trans; [apply tick_mono|exact Hb]. by destruct Hs.
Qed.
End invariant.

(** ** The operations of a lone thread *)
Section alone.
Context {T : Type}.
Implicit Types (w : HashedTimeWheel T).

Lemma take_slots_spec n i w acc :
  (take_slots n i w acc).2 =
    acc ++ concat ((λ k, default [] (timers_map w !! (i + N.of_nat k))) <$> seq 0 n) ∧
  (take_slots n i w acc).1 =
    set_timers (filter (λ x, ¬ (i ≤ x.1 < i + N.of_nat n)) (timers_map w)) w.
Proof.
  revert i w acc. induction n as [|n IH]; intros i w acc; cbn [take_slots].
  - split; [by rewrite app_nil_r|]. simpl.
    rewrite map_filter_id by (intros; simpl; lia). by destruct w.
  - destruct (remove i w) as [r w'] eqn:Hr. unfold remove in Hr. simplify_eq.
    destruct (IH (i + 1) (set_timers (delete i (timers_map w)) w)
                (acc ++ default [] (timers_map w !! i))) as [H1 H2].
    rewrite H1, H2. split.
    + rewrite <-app_assoc, <-cons_seq, <-fmap_S_seq. simpl. rewrite N.add_0_r. do 3 f_equal.
      rewrite <-list_fmap_compose. apply list_fmap_ext. intros _ k _. simpl.
      rewrite lookup_delete_ne by lia. do 2 f_equal. lia.
    + unfold set_timers. simpl. f_equal. apply map_eq. intros k. apply option_eq. intros x.
      rewrite !map_lookup_filter_Some, lookup_delete_Some. simpl. intuition lia.
Qed.

Lemma exec_n_add n m w nw p :
  exec_n (n + m) w nw p = let '(w, p) := exec_n n w nw p in exec_n m w nw p.
Proof.
  revert w p. induction n as [|n IH]; intros w p; [done|]. simpl.
  destruct (exec w nw p) as [w' p']. apply IH.
Qed.

Lemma exec_n_returned n w nw r : exec_n n w nw (Returned r) = (w, Returned r).
Proof. by induction n. Qed.

Lemma take_slots_exec n i tk w nw acc :
  i + N.of_nat n = tk →
  exec_n (n + 1) w nw (TickRemove i tk acc) =
    ((take_slots n i w acc).1, Returned (RTick (Some (take_slots n i w acc).2))).
Proof.
  revert i w acc. induction n as [|n IH]; intros i w acc Hi; cbn [Nat.add exec_n take_slots exec next_tick_exec].
  - rewrite decide_False by lia. done.
  - rewrite decide_True by lia. destruct (remove i w) as [[ts|] w'] eqn:Hr; simpl.
    + by rewrite IH by lia.
    + rewrite app_nil_r. by rewrite IH by lia.
Qed.
End alone.

(** The next access of a lone thread. *)
Local Ltac access :=
  cbn [exec_n exec new_timer_exec next_tick_exec]; unfold closure1, closure2; simpl ticks.

(** A timer handed out was pushed, and its deadline is past. *)
Lemma fired_was_due {T} (td : N) (ids : gset nat) (tr : list (event T)) (s : sys T)
    (t tk : N) (ts : list T) (x : T) :
  as_micros td ≠ 0 → reach td ids tr s → tick td (now s) < 2 ^ 64 →
  EFire t tk ts ∈ tr → x ∈ ts →
  ∃ due, EPush due tk x ∈ tr ∧ (tick td due < 2 ^ 64 → due < t).
Proof.
  intros Htd Hr Hb Hf Hx. destruct (reach_inv td Htd ids tr s Hr Hb) as [_ _ _ Hev Ht _ _].
  assert ((tk, x) ∈ pushed tr) as Hp.
  { rewrite Ht, elem_of_app. left. unfold fired. apply elem_of_concat.
    exists (pair tk <$> ts). split; [|by apply list_elem_of_fmap_2].
    by apply (list_elem_of_fmap_2
      (λ e : event T, match e with EFire _ tk ts => pair tk <$> ts | _ => [] end) _ _ Hf). }
  unfold pushed in Hp. apply elem_of_concat in Hp as (l&He&Hl).
  apply list_elem_of_fmap in He as (e&->&He). destruct e as [due tk' t'| | | |]; try by apply elem_of_nil in Hl.
  apply list_elem_of_singleton in Hl. simplify_eq. exists due. split; [done|]. intros Hdue.
  pose proof (Hev _ He) as Htk. pose proof (Hev _ Hf) as [_ Hlt]. simpl in Htk.
  unfold as_u64 in Htk. rewrite N.mod_small in Htk by done.
  destruct (N.lt_ge_cases due t) as [|Hge]; [done|]. apply (tick_mono td) in Hge. lia.
Qed.

(** ** Properties *)

(** C7. Accounting of the timers under any interleaving: at any time the timers that ever entered
    the wheel are, each exactly once, those that [next_tick] took out of it, those in a slot
    dropped by a failing [new_timer], and those still in the wheel; the timers taken out are,
    each exactly once, in the vectors that calls of [next_tick] have returned and in those that the
    running calls are about to return; [timers] counts every accepted timer for ever (it is never
    decremented); and no thread has hit the assertion of [next_tick] or a division by zero. *)
Theorem timers_conserved {T} (td : N) (ids : gset nat) (tr : list (event T)) (s : sys T) :
  as_micros td ≠ 0 → reach td ids tr s → tick td (now s) < 2 ^ 64 →
  pushed tr ≡ₚ fired tr ++ dropped tr ++ held (wheel s) ∧
  (fired tr).*2 ≡ₚ returned tr ++ pool_hold collected (pool s) ∧
  timers (wheel s) = N.of_nat (length (accepted tr)) ∧
  (∀ i, pool s !! i ≠ Some Panicked).
Proof.
  intros Htd Hr Hb. destruct (reach_inv td Htd ids tr s Hr Hb) as [_ _ Hpool _ Ht Hf Hc].
  split_and!; [done|done|done|]. intros i Hi. by apply Hpool in Hi.
Qed.

(** C8. No timer fires early: whenever [next_tick] hands out a timer, at time [t],
    the timer was put in the wheel by a [new_timer] whose creation time plus duration is
    strictly before [t]. *)
Theorem timer_never_early {T} (td : N) (ids : gset nat) (tr : list (event T)) (s : sys T)
    (t tk : N) (ts : list T) (x : T) :
  as_micros td ≠ 0 → reach td ids tr s → tick td (now s) < 2 ^ 64 →
  EFire t tk ts ∈ tr → x ∈ ts →
  ∃ due, EPush due tk x ∈ tr ∧ (tick td due < 2 ^ 64 → due < t).
Proof. exact (fired_was_due td ids tr s t tk ts x). Qed.

(** [new_timer] without interference: it fails exactly when the tick of its
    deadline is already past, and otherwise appends the timer to the slot of that
    tick, which it returns. *)
Theorem new_timer_alone {T} (w : HashedTimeWheel T) (nw d : N) (t : T) :
  tick_duration w ≠ 0 →
  let tk := tick_of w (nw + d) in
  exec_n 8 w nw (NewStart t d) =
    ((new_timer_seq w nw t d).1, Returned (RNew (new_timer_seq w nw t d).2)) ∧
  (tk < ticks w → new_timer_seq w nw t d = (w, None)) ∧
  (ticks w ≤ tk →
     (new_timer_seq w nw t d).2 = Some tk ∧
     timers_map (new_timer_seq w nw t d).1 =
       <[tk := default [] (timers_map w !! tk) ++ [t]]> (timers_map w)).
Proof.
  intros Htd tk. unfold new_timer_seq. fold tk. split_and!.
  - access. rewrite decide_False by done. fold tk. access. case_decide as Hlt; [done|].
    access. rewrite decide_True by done. access. rewrite decide_False by done.
    access. rewrite decide_False by done. access. by rewrite decide_True by done.
  - intros ?. by rewrite decide_True by done.
  - intros ?. rewrite decide_False by lia. done.
Qed.

(** [next_tick] without interference: when the tick has not advanced it
    returns [None] and changes nothing; otherwise it returns all timers of the ticks
    passed, in the order of their ticks and of their creation, removes exactly
    these slots and moves to the current tick. *)
Theorem next_tick_alone {T} (w : HashedTimeWheel T) (nw : N) :
  tick_duration w ≠ 0 → ticks w ≤ tick_of w nw →
  let tk := tick_of w nw in
  let n := N.to_nat (tk - ticks w) in
  exec_n (n + 4) w nw TickLoad =
    ((next_tick_seq w nw).1, Returned (RTick (next_tick_seq w nw).2)) ∧
  (tk = ticks w → next_tick_seq w nw = (w, None)) ∧
  (ticks w < tk →
     (next_tick_seq w nw).2 =
       Some (concat ((λ k, default [] (timers_map w !! (ticks w + N.of_nat k))) <$> seq 0 n)) ∧
     ticks (next_tick_seq w nw).1 = tk ∧
     ∀ k, timers_map (next_tick_seq w nw).1 !! k =
            if decide (ticks w ≤ k < tk) then None else timers_map w !! k).
Proof.
  intros Htd Hle tk n. unfold next_tick_seq. fold tk. fold n.
  destruct (take_slots_spec n (ticks w) (set_ticks tk w) []) as [H2 H1].
  pose proof (take_slots_exec n (ticks w) tk (set_ticks tk w) nw [] ltac:(lia)) as Hex.
  destruct (take_slots n (ticks w) (set_ticks tk w) []) as [w' ts]. simpl in H1, H2, Hex.
  split_and!.
  - replace (n + 4)%nat with (3 + (n + 1))%nat by lia. cbn [Nat.add]. access.
    rewrite decide_False, decide_True by done. fold tk.
    case_decide as Heq; [by access; rewrite exec_n_returned|].
    access. by rewrite decide_True by done.
  - intros ->. by rewrite decide_True by done.
  - intros ?. rewrite decide_False by lia. split_and!; simpl; [by rewrite H2|by rewrite H1|].
    intros k. rewrite H1. simpl. case_decide as Hk.
    + apply map_lookup_filter_None. right. simpl. intros x _. lia.
    + apply option_eq. intros x. rewrite map_lookup_filter_Some. simpl. intuition lia.
Qed.

Section runs.
Context {T : Type}.

Lemma step_stutter (s : sys T) : step s [] s.
Proof. pose proof (step_clock s (now s) ltac:(lia)) as H. by destruct s. Qed.

Lemma apply_move_step (s : sys T) m : step s (apply_move s m).2 (apply_move s m).1.
Proof.
  destruct m as [n|i t d|i|i|i]; simpl; try (
    destruct (pool s !! i) as [[]|] eqn:Hi; simpl; try apply step_stutter; by econstructor).
  - constructor. lia.
  - destruct (pool s !! i) as [p|] eqn:Hi; [|apply step_stutter].
    destruct (exec (wheel s) (now s) p) as [w p'] eqn:He. by eapply step_exec.
Qed.

Lemma run_reach td ids tr (s : sys T) ms :
  reach td ids tr s → reach td ids (tr ++ (run s ms).2) (run s ms).1.
Proof.
  revert tr s. induction ms as [|m ms IH]; intros tr s Hr; simpl.
  - by rewrite app_nil_r.
  - pose proof (apply_move_step s m) as Hm. destruct (apply_move s m) as [s' es]. simpl in Hm.
    pose proof (IH _ _ (reach_step _ _ _ _ _ _ Hr Hm)) as Hrun.
    destruct (run s' ms) as [s'' es']. simpl in *. by rewrite app_assoc.
Qed.
End runs.

(** Thread 1 is about to push into slot 0; thread 2 completes [new_timer] for slot 0;
    thread 3 advances the tick; thread 1 pushes and cleans up slot 0; thread 3
    collects. *)
Definition race {T} (a b : T) : list (move T) :=
  [MNew 1 a 0; MExec 1; MExec 1; MExec 1; MNew 2 b 0] ++ replicate 8 (MExec 2) ++
  [MClock 1000; MTick 3; MExec 3; MExec 3; MExec 3] ++ replicate 3 (MExec 1) ++
  [MExec 3; MExec 3].

(** A code bug: an accepted timer can be lost.  A thread whose [new_timer] comes
    too late removes the whole slot of its tick, with the timers that other
    threads were told are set ([race]): [new_timer] returned [Some 0] to thread 2,
    the tick has passed, the wheel is empty and no timer was handed out. *)
Theorem accepted_timer_lost {T} (a b : T) :
  ∃ tr s, reach 1000 {[1%nat; 2%nat; 3%nat]} tr s ∧
    pool s !! 2%nat = Some (Returned (RNew (Some 0))) ∧
    pool s !! 1%nat = Some (Returned (RNew None)) ∧
    pool s !! 3%nat = Some (Returned (RTick (Some []))) ∧
    pushed tr = [(0, b); (0, a)] ∧ dropped tr = [(0, b); (0, a)] ∧ fired tr = [] ∧
    held (wheel s) = [] ∧ ticks (wheel s) = 1.
Proof.
  set (s0 := init (T:=T) 1000 {[1%nat; 2%nat; 3%nat]}).
  exists ([] ++ (run s0 (race a b)).2), (run s0 (race a b)).1.
  split; [apply run_reach, reach_init|]. vm_compute. by split_and!.
Qed.

(** ** Witnesses *)

(** One thread sets a timer of 2000ns and a second one, 1000ns later, collects. *)
Definition demo : sys nat * list (event nat) :=
  run (init 1000 {[1%nat; 2%nat]})
    ([MNew 1 7%nat 2000] ++ replicate 8 (MExec 1) ++ [MClock 3000; MTick 2] ++
     replicate 7 (MExec 2) ++ [MRet 2]).

Lemma demo_reach : reach 1000 {[1%nat; 2%nat]} demo.2 demo.1.
Proof. unfold demo. rewrite <-(app_nil_l (run _ _).2). apply run_reach, reach_init. Qed.

Lemma timers_conserved_witness :
  fired demo.2 = [(2, 7%nat)] ∧ returned demo.2 = [7%nat] ∧
  pushed demo.2 ≡ₚ fired demo.2 ++ dropped demo.2 ++ held (wheel demo.1) ∧
  (fired demo.2).*2 ≡ₚ returned demo.2 ++ pool_hold collected (pool demo.1) ∧
  timers (wheel demo.1) = N.of_nat (length (accepted demo.2)) ∧
  (∀ i, pool demo.1 !! i ≠ Some Panicked).
Proof.
  split; [by vm_compute|]. split; [by vm_compute|].
  apply (timers_conserved 1000 {[1%nat; 2%nat]}); [done|exact demo_reach|by vm_compute].
Defined.

Lemma timer_never_early_witness :
  ∃ due, EPush due 2 7%nat ∈ demo.2 ∧ (tick 1000 due < 2 ^ 64 → due < 3000).
Proof.
  apply (timer_never_early 1000 {[1%nat; 2%nat]} demo.2 demo.1 3000 2 [7%nat] 7%nat).
  - done.
  - exact demo_reach.
  - by vm_compute.
  - apply list_elem_of_In. vm_compute. tauto.
  - by left.
Defined.

Definition demo_wheel : HashedTimeWheel nat :=
  {| timers_map := {[0 := [1%nat]; 2 := [2%nat; 3%nat]; 5 := [4%nat]]}; ticks := 0;
     tick_duration := 1; timer_count := 4 |}.

Lemma new_timer_alone_witness :
  (new_timer_seq demo_wheel 1000 9%nat 1000).2 = Some 2.
Proof.
  destruct (new_timer_alone demo_wheel 1000 1000 9%nat) as (_&_&H); [done|].
  apply H. by vm_compute.
Defined.

Lemma next_tick_alone_witness :
  (next_tick_seq demo_wheel 3000).2 = Some [1%nat; 2%nat; 3%nat].
Proof.
  destruct (next_tick_alone demo_wheel 3000) as (_&_&H); [done|by vm_compute|].
  destruct H as [H _]; [by vm_compute|]. rewrite H. by vm_compute.
Defined.
