(* ===== verification/Batching.v ===== *)
(** * crates/future/src/batching.rs: the future batcher

    Any number of threads push futures, wake futures and close the batcher, one
    thread polls it.  One access to shared state is one step.  The wake-up queue is the
    atomic queue of [Queue.queue_linearizable]; the pointer stored in [WakerHost]
    is any number the allocator chooses, so that addresses may be reused.  A
    batched future is a state with a poll function; that it calls its waker is the
    step [step_wake], at any time. *)

From S2P Require Import Prelude Queue.

Section batching.
Context {F R : Type} (fpoll : F → F * option R).

Record FutureBatcher := {
  idgen : nat;
  pending_futures : gmap nat F;
  wakeup_futures : list nat;
  raw_waker : option nat;
  await_counter : nat;
  closed : bool;
}.

Definition FutureBatcher_new : FutureBatcher :=
  {| idgen := 0; pending_futures := ∅; wakeup_futures := []; raw_waker := None;
     await_counter := 0; closed := false |}.

Definition set_idgen n b :=
  {| idgen := n; pending_futures := pending_futures b; wakeup_futures := wakeup_futures b;
     raw_waker := raw_waker b; await_counter := await_counter b; closed := closed b |}.
Definition set_pending m b :=
  {| idgen := idgen b; pending_futures := m; wakeup_futures := wakeup_futures b;
     raw_waker := raw_waker b; await_counter := await_counter b; closed := closed b |}.
Definition set_wakeups l b :=
  {| idgen := idgen b; pending_futures := pending_futures b; wakeup_futures := l;
     raw_waker := raw_waker b; await_counter := await_counter b; closed := closed b |}.
Definition set_waker w b :=
  {| idgen := idgen b; pending_futures := pending_futures b; wakeup_futures := wakeup_futures b;
     raw_waker := w; await_counter := await_counter b; closed := closed b |}.
Definition set_counter n b :=
  {| idgen := idgen b; pending_futures := pending_futures b; wakeup_futures := wakeup_futures b;
     raw_waker := raw_waker b; await_counter := n; closed := closed b |}.
Definition set_closed c b :=
  {| idgen := idgen b; pending_futures := pending_futures b; wakeup_futures := wakeup_futures b;
     raw_waker := raw_waker b; await_counter := await_counter b; closed := c |}.

(** ** The atomic queue *)
Definition queue_push (id : nat) (b : FutureBatcher) : FutureBatcher :=
  set_wakeups (wakeup_futures b ++ [id]) b.
Definition queue_pop (b : FutureBatcher) : option nat * FutureBatcher :=
  match wakeup_futures b with
  | [] => (None, b)
  | id :: l => (Some id, set_wakeups l b)
  end.

(** They are steps of the queue's specification. *)
Lemma queue_push_spec id b :
  aspec (wakeup_futures b) (OPush id) RPush (wakeup_futures (queue_push id b)).
Proof. constructor. Qed.
Lemma queue_pop_spec b :
  aspec (wakeup_futures b) OPop (RPop (queue_pop b).1) (wakeup_futures (queue_pop b).2).
Proof. unfold queue_pop. destruct (wakeup_futures b) eqn:E; simpl; rewrite ?E; constructor. Qed.

(** ** The threads that push, wake and close *)
Inductive tpc :=
| TIdle
| TPushInsert (id : nat) (fut : F)
| TPushQueue (id : nat)
| TWakeQueue (id : nat)
| TWakeLoad
| TWakeCas (ptr : nat).

(** [push]: the [fetch_add] that starts it, and the two inserts. *)
Definition push_start (b : FutureBatcher) (fut : F) : FutureBatcher * tpc :=
  (set_idgen (idgen b + 1) b, TPushInsert (idgen b) fut).
Definition push_insert (b : FutureBatcher) (id : nat) (fut : F) : FutureBatcher * tpc :=
  (set_pending (<[id := fut]> (pending_futures b)) b, TPushQueue id).
Definition push_queue (b : FutureBatcher) (id : nat) : FutureBatcher * tpc :=
  (queue_push id b, TWakeLoad).

(** [batch_future_waker_wake] and [_wake_by_ref]: push the id, then
    [WakerHost::wake]. *)
Definition waker_wake (b : FutureBatcher) (id : nat) : FutureBatcher * tpc :=
  (queue_push id b, TWakeLoad).

(** [close]. *)
Definition close (b : FutureBatcher) : FutureBatcher * tpc :=
  if closed b then (b, TIdle) else (set_closed true b, TWakeLoad).

(** [WakerHost::wake] by [remove_waker]: the load, and the compare-exchange after
    which the task is woken. *)
Definition wake_load (b : FutureBatcher) : FutureBatcher * tpc :=
  (b, match raw_waker b with None => TIdle | Some ptr => TWakeCas ptr end).
Definition wake_cas (b : FutureBatcher) (ptr : nat) : FutureBatcher * tpc * bool :=
  if decide (raw_waker b = Some ptr) then (set_waker None b, TIdle, true)
  else (b, TWakeLoad, false).

(** One access; the flag tells whether the polling task was woken. *)
Definition thread_exec (b : FutureBatcher) (p : tpc) : FutureBatcher * tpc * bool :=
  match p with
  | TIdle => (b, TIdle, false)
  | TPushInsert id fut => (push_insert b id fut, false)
  | TPushQueue id => (push_queue b id, false)
  | TWakeQueue id => (waker_wake b id, false)
  | TWakeLoad => (wake_load b, false)
  | TWakeCas ptr => wake_cas b ptr
  end.

(** ** [Wait::poll] *)
Inductive ppc :=
| PStart
| PClosed1
| PAddWaker
| PPop
| PClosed2 (id : nat)
| PRemove (id : nat)
| PFut (id : nat) (fut : F)
| PInsert (id : nat) (fut : F)
| PUnwakeLoad (r : R)
| PUnwakeCas (r : R) (ptr : nat)
| PDecReady (r : R)
| PDec
| PClosed3
| PDone (p : Poll (option R))
| PPanicked.

(** [add_waker]: the swap; the old waker is dropped. *)
Definition add_waker (ptr : nat) (b : FutureBatcher) : FutureBatcher :=
  set_waker (Some ptr) b.

(** One access of [poll]; [ptr] is the address of a waker boxed in this step. *)
Definition poll_exec (b : FutureBatcher) (ptr : nat) (p : ppc) : FutureBatcher * ppc :=
  match p with
  | PStart =>
      (set_counter (await_counter b + 1) b,
       if decide (await_counter b = 0) then PClosed1 else PPanicked)
  | PClosed1 => (b, if closed b then PDone (Ready None) else PAddWaker)
  | PAddWaker => (add_waker ptr b, PPop)
  | PPop =>
      let '(r, b) := queue_pop b in
      (b, match r with Some id => PClosed2 id | None => PDec end)
  | PClosed2 id => (b, if closed b then PDone (Ready None) else PRemove id)
  | PRemove id =>
      match pending_futures b !! id with
      | Some fut => (set_pending (delete id (pending_futures b)) b, PFut id fut)
      | None => (b, PPop)
      end
  | PFut id fut =>
      match fpoll fut with
      | (fut, None) => (b, PInsert id fut)
      | (_, Some r) => (b, PUnwakeLoad r)
      end
  | PInsert id fut => (set_pending (<[id := fut]> (pending_futures b)) b, PPop)
  | PUnwakeLoad r =>
      (b, match raw_waker b with None => PDecReady r | Some ptr => PUnwakeCas r ptr end)
  | PUnwakeCas r ptr =>
      if decide (raw_waker b = Some ptr) then (set_waker None b, PDecReady r)
      else (b, PUnwakeLoad r)
  | PDecReady r =>
      (set_counter (await_counter b - 1) b,
       if decide (await_counter b = 1) then PDone (Ready (Some r)) else PPanicked)
  | PDec =>
      (set_counter (await_counter b - 1) b,
       if decide (await_counter b = 1) then PClosed3 else PPanicked)
  | PClosed3 => (b, PDone (if closed b then Ready None else Pending))
  | PDone _ | PPanicked => (b, p)
  end.

(** ** All together

    Beside the shared state: whether the polling task has been woken since its
    last poll began ([notified]), the futures woken since they were last polled
    ([woken]) and those that have completed ([finished]). *)
Record sys := {
  batch : FutureBatcher;
  pool : gmap nat tpc;
  poller : ppc;
  notified : bool;
  woken : gset nat;
  finished : list nat;
}.

Definition goto (s : sys) (i : nat) (bp : FutureBatcher * tpc) (n : bool) (wk : gset nat) : sys :=
  {| batch := bp.1; pool := <[i := bp.2]> (pool s); poller := poller s;
     notified := notified s || n; woken := wk; finished := finished s |}.

Definition poll_to (s : sys) (bp : FutureBatcher * ppc) : sys :=
  {| batch := bp.1; pool := pool s; poller := bp.2; notified := notified s;
     woken := match poller s with PFut id _ => woken s ∖ {[id]} | _ => woken s end;
     finished := match poller s, bp.2 with
                 | PFut id _, PUnwakeLoad _ => id :: finished s
                 | _, _ => finished s
                 end |}.

Inductive step : sys → sys → Prop :=
| step_push s i fut :
    pool s !! i = Some TIdle →
    step s (goto s i (push_start (batch s) fut) false ({[idgen (batch s)]} ∪ woken s))
| step_wake s i id :
    pool s !! i = Some TIdle → id < idgen (batch s) →
    step s (goto s i (batch s, TWakeQueue id) false ({[id]} ∪ woken s))
| step_close s i :
    pool s !! i = Some TIdle →
    step s (goto s i (close (batch s)) false (woken s))
| step_thread s i p :
    pool s !! i = Some p →
    step s (goto s i (thread_exec (batch s) p).1 (thread_exec (batch s) p).2 (woken s))
| step_poll_start s p :
    poller s = PDone p →
    step s {| batch := batch s; pool := pool s; poller := PStart; notified := false;
              woken := woken s; finished := finished s |}
| step_poll s ptr :
    step s (poll_to s (poll_exec (batch s) ptr (poller s))).

Definition init (ids : gset nat) : sys :=
  {| batch := FutureBatcher_new; pool := gset_to_gmap TIdle ids;
     poller := PDone (Ready None); notified := false; woken := ∅; finished := [] |}.

Definition reachable (ids : gset nat) (s : sys) : Prop := rtc step (init ids) s.

(** ** Where a future is *)

(** Thread [i] is still inserting future [id]. *)
Definition inserting (s : sys) (id : nat) : Prop :=
  ∃ i fut, pool s !! i = Some (TPushInsert id fut).
(** The poller has taken future [id] out of the pending map. *)
Definition in_hand (p : ppc) : option nat :=
  match p with PFut id _ | PInsert id _ => Some id | _ => None end.
(** A thread that will push [id] to the queue. *)
Definition will_queue (id : nat) (p : tpc) : Prop :=
  match p with
  | TPushInsert id' _ | TPushQueue id' | TWakeQueue id' => id = id' | _ => False
  end.
(** A thread that will wake the polling task. *)
Definition waking (p : tpc) : Prop :=
  match p with TWakeLoad | TWakeCas _ => True | _ => False end.
(** The poller will look at [id] before it leaves the loop. *)
Definition looking_at (p : ppc) (id : nat) : Prop :=
  match p with PClosed2 id' | PRemove id' | PFut id' _ => id = id' | _ => False end.

(** The polls that have stored their waker and not taken it back. *)
Definition armed (p : ppc) : bool :=
  match p with
  | PPop | PClosed2 _ | PRemove _ | PFut _ _ | PInsert _ _ | PDec | PClosed3
  | PDone Pending => true
  | _ => false
  end.
(** The polls that have seen the queue empty. *)
Definition drained (p : ppc) : bool :=
  match p with PDec | PClosed3 | PDone Pending => true | _ => false end.
(** The polls that are counted. *)
Definition counted (p : ppc) : nat :=
  match p with PStart | PClosed3 | PDone _ | PPanicked => 0 | _ => 1 end.
End batching.
Arguments FutureBatcher : clear implicits.
Arguments sys : clear implicits.
Arguments tpc : clear implicits.
Arguments ppc : clear implicits.

(** ** The invariant *)
Section invariant.
Context {F R : Type} (fpoll : F → F * option R).
Implicit Types (s : sys F R).

Definition inserting_of (p : tpc F) : list nat :=
  match p with TPushInsert id _ => [id] | _ => [] end.

(** Every future is in one place: finished, in the poller's hand, pending or being
    inserted. *)
Definition places s : list nat :=
  finished s ++ option_list (in_hand (poller s)) ++ keys (pending_futures (batch s)) ++
  pool_hold inserting_of (pool s).

Record inv s : Prop := {
  inv_counter : closed (batch s) = false →
    await_counter (batch s) = counted (poller s) ∧ poller s ≠ PPanicked;
  inv_armed : armed (poller s) = true → is_Some (raw_waker (batch s)) ∨ notified s = true;
  inv_drained : drained (poller s) = true → wakeup_futures (batch s) ≠ [] →
    notified s = true ∨ pool_any waking (pool s);
  inv_closed : poller s = PDone Pending → closed (batch s) = true →
    notified s = true ∨ pool_any waking (pool s);
  inv_woken id : id ∈ woken s → closed (batch s) = false →
    id ∈ finished s ∨ id ∈ wakeup_futures (batch s) ∨ pool_any (will_queue id) (pool s) ∨
    looking_at (poller s) id;
  inv_woken_lt id : id ∈ woken s → id < idgen (batch s);
  inv_places : places s ≡ₚ seq 0 (idgen (batch s));
}.

Lemma batch_inv_init ids : inv (init ids).
Proof.
  assert (∀ i p, pool (init (F:=F) (R:=R) ids) !! i = Some p → p = TIdle) as Hidle.
  { by intros i p [_ <-]%lookup_gset_to_gmap_Some. }
  split; simpl; try done.
  unfold places. simpl. unfold keys. rewrite map_to_list_empty. simpl.
  destruct (pool_hold inserting_of _) as [|x l] eqn:E; [done|].
  destruct (pool_hold_inv inserting_of (gset_to_gmap TIdle ids) x) as (i&p&Hp&Hx).
  { rewrite E. by left. }
  apply Hidle in Hp as ->. by apply elem_of_nil in Hx.
Qed.

(** *** Steps of the threads *)

(** What a thread's access from [p] to [p'] changes in the shared state. *)
Record thread_ok s (p p' : tpc F) (b : FutureBatcher F) (n : bool) (wk : gset nat) : Prop := {
  to_counter : await_counter b = await_counter (batch s);
  to_closed : closed (batch s) = true → closed b = true;
  to_waker : raw_waker b = raw_waker (batch s) ∨ n = true;
  to_queue : wakeup_futures b = wakeup_futures (batch s) ∨
             ∃ id, wakeup_futures b = wakeup_futures (batch s) ++ [id] ∧ waking p';
  to_waking : waking p → waking p' ∨ n = true ∨ raw_waker (batch s) = None;
  to_close : closed b = true → closed (batch s) = true ∨ waking p';
  to_woken id : id ∈ wk → id ∈ woken s ∨ will_queue id p';
  to_will id : will_queue id p → will_queue id p' ∨ id ∈ wakeup_futures b;
  to_lt id : id ∈ wk → id < idgen b;
  to_places :
    keys (pending_futures b) ++ inserting_of p' ++ seq 0 (idgen (batch s)) ≡ₚ
    keys (pending_futures (batch s)) ++ inserting_of p ++ seq 0 (idgen b);
}.

Lemma waking_kept s i p p' n (b : FutureBatcher F) wk :
  inv s → pool s !! i = Some p → thread_ok s p p' b n wk → armed (poller s) = true →
  notified s = true ∨ pool_any waking (pool s) →
  notified s || n = true ∨ pool_any waking (<[i := p']> (pool s)).
Proof.
  intros Hinv Hi Hok Ha [->|Hw]; [by left|].
  destruct n; [left; apply orb_true_r|]. rewrite orb_false_r.
  destruct (notified s) eqn:Hn; [by left|right]. apply pool_any_update; [done|].
  intros q Hq Hwq. simplify_eq. destruct (to_waking _ _ _ _ _ _ Hok Hwq) as [?|[?|Hr]]; [done..|].
  destruct (inv_armed _ Hinv Ha) as [Hs|]; [|congruence]. rewrite Hr in Hs. by destruct Hs.
Qed.

Lemma drained_armed (p : ppc F R) : drained p = true → armed p = true.
Proof. by destruct p as [| | | | | | | | | | | | |[]|]. Qed.

Lemma goto_inv s i p p' b n wk :
  inv s → pool s !! i = Some p → thread_ok s p p' b n wk → inv (goto s i (b, p') n wk).
Proof.
  intros Hinv Hi Hok.
  pose proof (waking_kept s i p p' n b wk Hinv Hi Hok) as Hkept. destruct Hok. split; simpl.
  - intros Hc. rewrite to_counter0. apply (inv_counter _ Hinv).
    destruct (closed (batch s)); [|done]. by rewrite to_closed0 in Hc.
  - intros Ha. destruct to_waker0 as [Hw|Hn]; [|right; rewrite Hn; apply orb_true_r].
    rewrite Hw. destruct (inv_armed _ Hinv Ha) as [?|Hn]; [by left|right; by rewrite Hn].
  - intros Hd Hne. destruct to_queue0 as [Hq|(id&_&Hw)].
    + apply Hkept; [by apply drained_armed|]. apply (inv_drained _ Hinv); [done|]. by rewrite <-Hq.
    + right. by apply pool_any_here.
  - intros Hp Hc. destruct (to_close0 Hc) as [Hc'|Hw].
    + apply Hkept; [by rewrite Hp|]. by apply (inv_closed _ Hinv).
    + right. by apply pool_any_here.
  - intros id Hid Hc. destruct (to_woken0 id Hid) as [Hw|Hw];
      [|right; right; left; by apply pool_any_here].
    assert (wakeup_futures (batch s) ⊆ wakeup_futures b) as Hsub.
    { destruct to_queue0 as [Hq|(id'&Hq&_)]; rewrite Hq; clear; set_solver. }
    assert (closed (batch s) = false) as Hc'.
    { destruct (closed (batch s)); [by rewrite to_closed0 in Hc|done]. }
    destruct (inv_woken _ Hinv id Hw Hc') as [?|[?|[(k&q&Hk&Hq)|?]]]; [by auto..| |].
    + destruct (decide (k = i)) as [->|Hne].
      * simplify_eq. destruct (to_will0 id Hq); [|by auto].
        right; right; left. by apply pool_any_here.
      * right; right; left. exists k, q. by rewrite lookup_insert_ne.
    + by auto.
  - done.
  - pose proof (inv_places _ Hinv) as Hpl. unfold places in *. simpl.
    pose proof (pool_hold_update inserting_of (pool s) i p p' Hi) as Hh.
    perm_lia.
Qed.


Lemma places_NoDup s : inv s → NoDup (places s).
Proof. intros Hinv. rewrite (inv_places _ Hinv). apply NoDup_seq. Qed.

(** A future that is being inserted, or that the poller has, is not pending. *)
Lemma inserting_fresh s i id fut :
  inv s → pool s !! i = Some (TPushInsert id fut) → pending_futures (batch s) !! id = None.
Proof.
  intros Hinv Hi. apply eq_None_not_Some. intros Hs%elem_of_keys.
  pose proof (places_NoDup s Hinv) as Hnd. unfold places in Hnd.
  apply NoDup_app in Hnd as (_&_&Hnd). apply NoDup_app in Hnd as (_&_&Hnd).
  apply NoDup_app in Hnd as (_&Hnd&_). apply (Hnd id Hs).
  eapply pool_hold_In; [done|]. by left.
Qed.

Lemma in_hand_fresh s id :
  inv s → in_hand (poller s) = Some id → pending_futures (batch s) !! id = None.
Proof.
  intros Hinv Hi. apply eq_None_not_Some. intros Hs%elem_of_keys.
  pose proof (places_NoDup s Hinv) as Hnd. unfold places in Hnd. rewrite Hi in Hnd.
  apply NoDup_app in Hnd as (_&_&Hnd). apply NoDup_app in Hnd as (_&Hnd&_).
  apply (Hnd id); [by left|]. apply elem_of_app. by left.
Qed.

Local Ltac thread_step := split; simpl; try done; try (by auto); try lia; 
  try (by intros ? ->; right; apply elem_of_app; right; left);
  try (by intros ? [->%elem_of_singleton|?]%elem_of_union; [right|left]).

Lemma push_inv s i fut :
  inv s → pool s !! i = Some TIdle →
  inv (goto s i (push_start (batch s) fut) false ({[idgen (batch s)]} ∪ woken s)).
Proof.
  intros Hinv Hi. apply goto_inv with TIdle; [done..|]. thread_step.
  - intros id [Hid|Hid]%elem_of_union.
    + apply elem_of_singleton in Hid. lia.
    + pose proof (inv_woken_lt _ Hinv id Hid). lia.
  - rewrite Nat.add_1_r, seq_S. simpl. perm_lia.
Qed.

Lemma wake_inv s i id :
  inv s → pool s !! i = Some TIdle → id < idgen (batch s) →
  inv (goto s i (batch s, TWakeQueue id) false ({[id]} ∪ woken s)).
Proof.
  intros Hinv Hi Hid. apply goto_inv with TIdle; [done..|]. thread_step.
  - intros x [Hx|Hx]%elem_of_union; [apply elem_of_singleton in Hx; by subst|by apply (inv_woken_lt _ Hinv)].
Qed.

Lemma close_inv s i :
  inv s → pool s !! i = Some TIdle → inv (goto s i (close (batch s)) false (woken s)).
Proof.
  intros Hinv Hi. pose proof (inv_woken_lt _ Hinv). unfold close.
  destruct (closed (batch s)) eqn:Hc; apply goto_inv with TIdle; try done; thread_step.
Qed.

Lemma thread_inv s i p :
  inv s → pool s !! i = Some p →
  inv (goto s i (thread_exec (batch s) p).1 (thread_exec (batch s) p).2 (woken s)).
Proof.
  intros Hinv Hi. pose proof (inv_woken_lt _ Hinv) as Hlt.
  destruct p as [|id fut|id|id| |ptr]; simpl.
  - apply (goto_inv s i TIdle); [done..|thread_step].
  - apply (goto_inv s i (TPushInsert id fut)); [done..|thread_step].
    rewrite keys_insert by (by eapply inserting_fresh). perm_lia.
  - apply (goto_inv s i (TPushQueue id)); [done..|thread_step; right; by exists id].
  - apply (goto_inv s i (TWakeQueue id)); [done..|thread_step; right; by exists id].
  - unfold wake_load. destruct (raw_waker (batch s)) eqn:Hw;
      apply (goto_inv s i TWakeLoad); try done; thread_step.
  - unfold wake_cas. case_decide as Hw; simpl;
      apply (goto_inv s i (TWakeCas ptr)); try done; thread_step.
Qed.

(** *** Steps of the poller *)

(** What an access of the poller, to [p'], changes in the shared state. *)
Record poll_ok s (b : FutureBatcher F) (p' : ppc F R) : Prop := {
  po_counter : await_counter (batch s) = counted (poller s) → poller s ≠ PPanicked →
    closed (batch s) = false → await_counter b = counted p' ∧ p' ≠ PPanicked;
  po_closed : closed b = closed (batch s);
  po_idgen : idgen b = idgen (batch s);
  po_armed : armed p' = true →
    is_Some (raw_waker b) ∨ (armed (poller s) = true ∧ raw_waker b = raw_waker (batch s));
  po_drained : drained p' = true → wakeup_futures b ≠ [] →
    drained (poller s) = true ∧ wakeup_futures b = wakeup_futures (batch s);
  po_pending : p' = PDone Pending → closed b = true → poller s = PDone Pending;
  po_woken id : closed (batch s) = false → id ∈ woken (poll_to s (b, p')) →
    id ∈ wakeup_futures (batch s) ∨ looking_at (poller s) id →
    id ∈ finished (poll_to s (b, p')) ∨ id ∈ wakeup_futures b ∨
    pool_any (will_queue id) (pool s) ∨ looking_at p' id;
  po_places : places (poll_to s (b, p')) ≡ₚ places s;
}.

Lemma poll_to_woken s bp id : id ∈ woken (poll_to s bp) → id ∈ woken s.
Proof. simpl. destruct (poller s); try done. by intros [? _]%elem_of_difference. Qed.

Lemma poll_to_finished s bp id : id ∈ finished s → id ∈ finished (poll_to s bp).
Proof. simpl. destruct (poller s), bp.2; try done. by right. Qed.

Lemma poll_to_inv s b p' : inv s → poll_ok s b p' → inv (poll_to s (b, p')).
Proof.
  intros Hinv []. split.
  - simpl. intros Hc. rewrite po_closed0 in Hc. destruct (inv_counter _ Hinv Hc). by apply po_counter0.
  - simpl. intros Ha. destruct (po_armed0 Ha) as [?|[Ha' Hr]]; [by left|].
    rewrite Hr. by apply (inv_armed _ Hinv).
  - simpl. intros Hd Hne. destruct (po_drained0 Hd Hne) as [Hd' Hw].
    apply (inv_drained _ Hinv Hd'). by rewrite <-Hw.
  - simpl. intros Hp Hc. apply (inv_closed _ Hinv); [by apply po_pending0|congruence].
  - intros id Hid Hc. simpl in Hc. rewrite po_closed0 in Hc.
    destruct (inv_woken _ Hinv id (poll_to_woken _ _ _ Hid) Hc) as [?|[?|[?|?]]].
    + left. by apply poll_to_finished.
    + apply po_woken0; auto.
    + auto.
    + apply po_woken0; auto.
  - intros id Hid. simpl. rewrite po_idgen0. by eapply (inv_woken_lt _ Hinv), poll_to_woken.
  - rewrite po_places0. simpl. rewrite po_idgen0. apply (inv_places _ Hinv).
Qed.

(** A future that is not pending when the poller looks for it is finished or still being
    inserted. *)
Lemma not_pending s id :
  inv s → id ∈ woken s → pending_futures (batch s) !! id = None → in_hand (poller s) = None →
  id ∈ finished s ∨ pool_any (will_queue id) (pool s).
Proof.
  intros Hinv Hid Hn Hh. assert (id ∈ places s) as Hp.
  { rewrite (inv_places _ Hinv), elem_of_seq. pose proof (inv_woken_lt _ Hinv id Hid). lia. }
  unfold places in Hp. rewrite Hh in Hp. simpl in Hp.
  rewrite !elem_of_app, elem_of_keys, Hn in Hp. destruct Hp as [?|[[? ?]|Hp]]; [by left|done|right].
  apply pool_hold_inv in Hp as (i&p&Hi&Hp). exists i, p. split; [done|].
  destruct p; simpl in *; try (by apply elem_of_nil in Hp). by apply list_elem_of_singleton in Hp.
Qed.

Local Ltac poll_step Hp := apply poll_to_inv; [done|]; split; unfold places; simpl; rewrite ?Hp;
  simpl; try done; try lia; try (by left); try (by auto); try (by intros; split; [lia|done]);
  try (by intros ? ? ? [?|?]; auto 6); try congruence.

Lemma poll_inv s ptr : inv s → inv (poll_to s (poll_exec fpoll (batch s) ptr (poller s))).
Proof.
  intros Hinv. destruct (poller s) as [| | | |id|id|id fut|id fut|r|r q|r| | |r|] eqn:Hp; simpl.
  - case_decide; poll_step Hp.
  - destruct (closed (batch s)) eqn:Hc; poll_step Hp.
  - poll_step Hp.
  - unfold queue_pop. destruct (wakeup_futures (batch s)) as [|id l] eqn:Hw; poll_step Hp.
    all: rewrite ?Hw; try done.
    intros x _ _ [Hx|?]; [|done]. apply elem_of_cons in Hx as [->|?]; auto.
  - destruct (closed (batch s)) eqn:Hc; poll_step Hp.
  - destruct (pending_futures (batch s) !! id) as [fut|] eqn:Hid; poll_step Hp.
    + pose proof (keys_delete _ _ _ Hid). perm_lia.
    + intros x Hc Hx [?| ->]; [by auto|].
      destruct (not_pending s id Hinv Hx Hid); rewrite ?Hp; auto.
  - destruct (fpoll fut) as [fut' [r|]] eqn:Hf; poll_step Hp.
    all: try (intros x _ [_ Hne]%elem_of_difference [?| ->]; [by auto|set_solver]).
    perm_lia.
  - poll_step Hp. pose proof (in_hand_fresh s id Hinv) as Hf. rewrite Hp in Hf.
    rewrite keys_insert by auto. perm_lia.
  - destruct (raw_waker (batch s)); poll_step Hp.
  - case_decide; poll_step Hp.
  - case_decide; poll_step Hp.
  - case_decide; poll_step Hp.
  - destruct (closed (batch s)) eqn:Hc; poll_step Hp.
  - poll_step Hp.
  - poll_step Hp.
Qed.

Lemma start_inv s p :
  inv s → poller s = PDone p →
  inv {| batch := batch s; pool := pool s; poller := PStart; notified := false;
         woken := woken s; finished := finished s |}.
Proof.
  intros Hinv Hp. destruct Hinv as [Hc _ _ _ Hw Hl Hpl]. rewrite Hp in *. split; simpl; try done.
  - intros Hcl. by destruct (Hc Hcl).
  - unfold places in *. simpl. by rewrite Hp in Hpl.
Qed.

Lemma batch_step_inv s s' : inv s → step fpoll s s' → inv s'.
Proof.
  intros Hinv Hs. destruct Hs.
  - by apply push_inv.
  - by apply wake_inv.
  - by apply close_inv.
  - by apply thread_inv.
  - by eapply start_inv.
  - by apply poll_inv.
Qed.

Lemma batch_reachable_inv ids s : reachable fpoll ids s → inv s.
Proof. intros Hr. eapply rtc_invariant; [apply batch_inv_init|apply batch_step_inv|done]. Qed.
End invariant.

(** ** Scheduled runs *)
Section runs.
Context {F R : Type} (fpoll : F → F * option R).

Inductive move := MPush (i : nat) (fut : F) | MWake (i id : nat) | MClose (i : nat)
  | MThread (i : nat) | MStart | MPoll (ptr : nat).

Definition idle (s : sys F R) (i : nat) : bool :=
  match pool s !! i with Some TIdle => true | _ => false end.

Definition apply_move (s : sys F R) (m : move) : sys F R :=
  match m with
  | MPush i fut =>
      if idle s i
      then goto s i (push_start (batch s) fut) false ({[idgen (batch s)]} ∪ woken s) else s
  | MWake i id =>
      if idle s i && bool_decide (id < idgen (batch s))
      then goto s i (batch s, TWakeQueue id) false ({[id]} ∪ woken s) else s
  | MClose i => if idle s i then goto s i (close (batch s)) false (woken s) else s
  | MThread i =>
      match pool s !! i with
      | Some p => goto s i (thread_exec (batch s) p).1 (thread_exec (batch s) p).2 (woken s)
      | None => s
      end
  | MStart =>
      match poller s with
      | PDone _ => {| batch := batch s; pool := pool s; poller := PStart; notified := false;
                      woken := woken s; finished := finished s |}
      | _ => s
      end
  | MPoll ptr => poll_to s (poll_exec fpoll (batch s) ptr (poller s))
  end.

Definition run (s : sys F R) (ms : list move) : sys F R := foldl apply_move s ms.

Lemma apply_move_rtc s m : rtc (step fpoll) s (apply_move s m).
Proof.
  assert (∀ i, idle s i = true → pool s !! i = Some TIdle) as Hidle.
  { intros i. unfold idle. by destruct (pool s !! i) as [[]|]. }
  destruct m as [i fut|i id|i|i| |ptr]; simpl.
  - destruct (idle s i) eqn:Hi; [|done]. by apply rtc_once, step_push, Hidle.
  - destruct (idle s i) eqn:Hi; [|done]. simpl. case_bool_decide; [|done].
    apply rtc_once, step_wake; auto.
  - destruct (idle s i) eqn:Hi; [|done]. by apply rtc_once, step_close, Hidle.
  - destruct (pool s !! i) eqn:Hi; [|done]. by apply rtc_once, step_thread.
  - destruct (poller s) eqn:Hp; try done. by eapply rtc_once, step_poll_start.
  - apply rtc_once, step_poll.
Qed.

Lemma batch_run_reachable ids ms : reachable fpoll ids (run (init ids) ms).
Proof.
  unfold reachable, run. generalize (init (F:=F) (R:=R) ids). induction ms as [|m ms IH]; intros s.
  - done.
  - simpl. etrans; [apply apply_move_rtc|apply IH].
Qed.
End runs.
Arguments move : clear implicits.

(** ** Properties *)

(** C33. No wake-up is lost.  When [poll] has answered [Pending] and the batcher is
    open, every future that was pushed or woken since it was last polled has completed, or
    the polling task has been notified, or some thread is still inside the [push] or
    [wake] that will notify it.  When the batcher was closed meanwhile, the polling task
    has been notified or the closing thread is about to. *)
Theorem batch_no_lost_wakeup {F R} (fpoll : F → F * option R) (ids : gset nat) (s : sys F R) :
  reachable fpoll ids s → poller s = PDone Pending →
  (∀ id, id ∈ woken s → closed (batch s) = false →
     id ∈ finished s ∨ notified s = true ∨
     pool_any (λ p, will_queue id p ∨ waking p) (pool s)) ∧
  (closed (batch s) = true → notified s = true ∨ pool_any waking (pool s)).
Proof.
  intros Hr%batch_reachable_inv Hp. split; [|by apply (inv_closed _ Hr)].
  intros id Hid Hc. destruct (inv_woken _ Hr id Hid Hc) as [?|[Hq|[(i&p&Hi&?)|Hl]]].
  - by left.
  - destruct (inv_drained _ Hr) as [?|(i&p&Hi&?)]; [by rewrite Hp|by intros E; rewrite E in Hq; apply elem_of_nil in Hq|by auto|].
    right; right. exists i, p. auto.
  - right; right. exists i, p. auto.
  - rewrite Hp in Hl. done.
Qed.

(** No future is lost and none completes twice: the ids given out are, each exactly
    once, the completed futures, the one in the poller's hand, the pending ones and
    those being inserted; and as long as the batcher is open the assertions on the
    number of pollers hold. *)
Theorem batch_futures_conserved {F R} (fpoll : F → F * option R) (ids : gset nat)
    (s : sys F R) :
  reachable fpoll ids s →
  finished s ++ option_list (in_hand (poller s)) ++ keys (pending_futures (batch s)) ++
    pool_hold inserting_of (pool s) ≡ₚ seq 0 (idgen (batch s)) ∧
  (closed (batch s) = false → poller s ≠ PPanicked).
Proof.
  intros Hr%batch_reachable_inv. split; [apply (inv_places _ Hr)|].
  intros Hc. by destruct (inv_counter _ Hr Hc).
Qed.

(** A code bug: a closed batcher answers [Ready(None)] without taking back its
    count, so that the next poll of a closed batcher panics. *)
Theorem closed_wait_panics {F R} (fpoll : F → F * option R) (b : FutureBatcher F) (ptr : nat) :
  closed b = true → await_counter b = 0 →
  let b' := set_counter 1 b in
  poll_exec fpoll b ptr PStart = (b', PClosed1) ∧
  poll_exec fpoll b' ptr PClosed1 = (b', PDone (Ready None)) ∧
  (poll_exec fpoll b' ptr PStart).2 = PPanicked.
Proof. intros Hc Ha. simpl. rewrite Ha, Hc. by rewrite decide_True by done. Qed.

(** ** Witnesses *)

(** A future that needs [n] more polls. *)
Definition countdown (n : nat) : nat * option unit :=
  match n with 0 => (0, Some ()) | S n => (n, None) end.

(** Thread 1 pushes a future, it is polled once, and thread 2 wakes it. *)
Definition demo : list (move nat) :=
  [MPush 1 5; MThread 1; MThread 1; MStart] ++ replicate 11 (MPoll 64) ++
  [MWake 2 0; MThread 2].

Lemma batch_no_lost_wakeup_witness :
  let s := run countdown (init {[1; 2]}) demo in
  0 ∈ finished s ∨ notified s = true ∨
  pool_any (λ p, will_queue 0 p ∨ waking p) (pool s).
Proof.
  apply (batch_no_lost_wakeup countdown {[1; 2]}).
  - apply batch_run_reachable.
  - by vm_compute.
  - apply (bool_decide_unpack _). by vm_compute.
  - by vm_compute.
Defined.

Lemma batch_futures_conserved_witness :
  let s := run countdown (init {[1; 2]}) demo in
  keys (pending_futures (batch s)) = [0] ∧ (closed (batch s) = false → poller s ≠ PPanicked).
Proof.
  split; [by vm_compute|].
  apply (batch_futures_conserved countdown {[1; 2]}), batch_run_reachable.
Defined.

Lemma closed_wait_panics_witness :
  let b := set_closed true (FutureBatcher_new (F:=nat)) in
  (poll_exec countdown (set_counter 1 b) 0 PStart).2 = PPanicked.
Proof.
  by destruct (closed_wait_panics countdown (set_closed true FutureBatcher_new) 0) as (_&_&?).
Defined.
