(* ===== verification/Spin.v ===== *)
(** * crates/sync/src/spin.rs: the spinning mutex

    [flag] is the lock, [guard] the address of the guard that holds it (0: none).
    Any number of threads; one access to the atomics is one step.  The address a
    guard is given is whatever the stack provides, but not null. *)

From S2P Require Import Prelude.

Record SpinMutex := { flag : bool; guard : nat }.
Definition SpinMutex_new : SpinMutex := {| flag := false; guard := 0 |}.

(** Where a thread is; [ptr] is the address recorded in its guard. *)
Inductive spc :=
| SIdle
| SLockCas
| SLockable
| STryCas
| SSetGuard (ptr : nat)
| SHeld (ptr : nat)
| SDropGuard (ptr : nat)
| SDropFlag
| SNotLocked
| SPanicked.

(** [compare_exchange_weak(false, true)] of [lock]; [fails] is a spurious failure. *)
Definition lock_cas (m : SpinMutex) (fails : bool) (ptr : nat) : SpinMutex * spc :=
  if flag m || fails then (m, SLockable)
  else ({| flag := true; guard := guard m |}, SSetGuard ptr).

(** [while self.flag.load() {}]. *)
Definition lockable (m : SpinMutex) : SpinMutex * spc :=
  (m, if flag m then SLockable else SLockCas).

(** [compare_exchange(false, true)] of [try_lock]. *)
Definition try_lock_cas (m : SpinMutex) (ptr : nat) : SpinMutex * spc :=
  if flag m then (m, SNotLocked) else ({| flag := true; guard := guard m |}, SSetGuard ptr).

(** [self.guard.compare_exchange(0, ptr).expect(..)]. *)
Definition set_guard (m : SpinMutex) (ptr : nat) : SpinMutex * spc :=
  if decide (guard m = 0) then ({| flag := flag m; guard := ptr |}, SHeld ptr) else (m, SPanicked).

(** [drop]: [compare_exchange(self.ptr, 0).expect(..)], then [flag.store(false)]. *)
Definition drop_guard (m : SpinMutex) (ptr : nat) : SpinMutex * spc :=
  if decide (guard m = ptr) then ({| flag := flag m; guard := 0 |}, SDropFlag) else (m, SPanicked).
Definition drop_flag (m : SpinMutex) : SpinMutex * spc :=
  ({| flag := false; guard := guard m |}, SIdle).

Definition exec (m : SpinMutex) (fails : bool) (ptr : nat) (p : spc) : SpinMutex * spc :=
  match p with
  | SLockCas => lock_cas m fails ptr
  | SLockable => lockable m
  | STryCas => try_lock_cas m ptr
  | SSetGuard ptr => set_guard m ptr
  | SDropGuard ptr => drop_guard m ptr
  | SDropFlag => drop_flag m
  | SIdle | SHeld _ | SNotLocked | SPanicked => (m, p)
  end.

Record sys := { mutex : SpinMutex; pool : gmap nat spc }.

(** The calls: [lock], [try_lock], and dropping the guard. *)
Definition call (p p' : spc) : Prop :=
  match p, p' with
  | SIdle, SLockCas | SIdle, STryCas | SNotLocked, SIdle => True
  | SHeld ptr, SDropGuard ptr' => ptr = ptr'
  | _, _ => False
  end.

Inductive step : sys → sys → Prop :=
| step_call s i p p' :
    pool s !! i = Some p → call p p' →
    step s {| mutex := mutex s; pool := <[i := p']> (pool s) |}
| step_exec s i p fails ptr :
    pool s !! i = Some p → ptr ≠ 0 →
    step s {| mutex := (exec (mutex s) fails ptr p).1;
              pool := <[i := (exec (mutex s) fails ptr p).2]> (pool s) |}.

Definition init (ids : gset nat) : sys :=
  {| mutex := SpinMutex_new; pool := gset_to_gmap SIdle ids |}.

(** The thread has taken [flag] and not given it back. *)
Definition owns (p : spc) : bool :=
  match p with SSetGuard _ | SHeld _ | SDropGuard _ | SDropFlag => true | _ => false end.

(** What [guard] holds while a thread at [p] owns the flag. *)
Definition guard_of (p : spc) : nat :=
  match p with SHeld ptr | SDropGuard ptr => ptr | _ => 0 end.

(** ** Abstract specification: a lock with its owner *)
Inductive astep : option nat → option nat → Prop :=
| astep_stutter o : astep o o
| astep_acquire i : astep None (Some i)
| astep_release i : astep (Some i) None.

(** The owner is the thread, if any, that owns the flag. *)
Record inv (s : sys) (owner : option nat) : Prop := {
  inv_flag : flag (mutex s) = bool_decide (is_Some owner);
  inv_free : owner = None → guard (mutex s) = 0;
  inv_pool i p : pool s !! i = Some p →
    (owns p = true → owner = Some i) ∧ p ≠ SPanicked ∧
    (owner = Some i → owns p = true ∧ guard (mutex s) = guard_of p) ∧
    (∀ ptr, p = SSetGuard ptr → ptr ≠ 0);
}.

Lemma spin_inv_init ids : inv (init ids) None.
Proof.
  split; simpl; [done|done|]. intros i p [_ <-]%lookup_gset_to_gmap_Some. by split_and!.
Qed.

(** A move of thread [i] that leaves the mutex and the ownership alone. *)
Lemma inv_quiet s o i p p' :
  inv s o → pool s !! i = Some p → owns p' = owns p → guard_of p' = guard_of p →
  p' ≠ SPanicked → (∀ ptr, p' = SSetGuard ptr → p = p') →
  inv {| mutex := mutex s; pool := <[i := p']> (pool s) |} o.
Proof.
  intros [Hf Hn Hp] Hi Ho Hg Hpan Hs. split; simpl; [done|done|].
  intros j q [[<- <-]|[_ Hj]]%lookup_insert_Some; [|by apply Hp].
  destruct (Hp i p Hi) as (H1&H2&H3&H4). rewrite Ho, Hg. split_and!; [done..|].
  intros ptr Heq. apply H4. rewrite (Hs ptr Heq). done.
Qed.

(** A move of thread [i] that takes or releases the flag, or moves the guard. *)
Lemma inv_move s o o' i p p' m :
  inv s o → pool s !! i = Some p → (o = None ∨ o = Some i) → (o' = None ∨ o' = Some i) →
  flag m = bool_decide (is_Some o') → (o' = None → guard m = 0) →
  (owns p' = true ↔ o' = Some i) → p' ≠ SPanicked →
  (o' = Some i → guard m = guard_of p') → (∀ ptr, p' = SSetGuard ptr → ptr ≠ 0) →
  inv {| mutex := m; pool := <[i := p']> (pool s) |} o'.
Proof.
  intros [Hf Hn Hp] Hi Ho Ho' Hfl Hg Hw Hpan Hgu Hs. split; simpl; [done|done|].
  intros j q [[<- <-]|[Hne Hj]]%lookup_insert_Some; [by split_and!; tauto|].
  destruct (Hp j q Hj) as (H1&H2&H3&H4). split_and!; [|done| |done].
  - intros Hq%H1. destruct Ho; congruence.
  - intros Hq. destruct Ho'; congruence.
Qed.

Lemma spin_exec_inv s o i p fails ptr :
  inv s o → pool s !! i = Some p → ptr ≠ 0 →
  ∃ o', inv {| mutex := (exec (mutex s) fails ptr p).1;
               pool := <[i := (exec (mutex s) fails ptr p).2]> (pool s) |} o' ∧ astep o o'.
Proof.
  intros Hinv Hi Hptr. pose proof Hinv as [Hf Hn Hp]. destruct (Hp i p Hi) as (Ho&Hpan&Hown&Hset).
  assert (∀ p', owns p' = owns p → guard_of p' = guard_of p → p' ≠ SPanicked →
    (∀ ptr, p' = SSetGuard ptr → p = p') →
    ∃ o', inv {| mutex := mutex s; pool := <[i := p']> (pool s) |} o' ∧ astep o o') as Hquiet.
  { intros. exists o. split; [by eapply inv_quiet|constructor]. }
  assert (owns p = false → flag (mutex s) = false → o = None) as Hfree.
  { intros Hw Hfl. rewrite Hf in Hfl. apply bool_decide_eq_false in Hfl.
    destruct o; [by destruct Hfl|done]. }
  destruct p; simpl in *; try (by apply Hquiet); try done.
  - unfold lock_cas. destruct (flag (mutex s)) eqn:Hfl; simpl; [by apply Hquiet|].
    destruct fails; simpl; [by apply Hquiet|]. assert (o = None) as -> by auto.
    exists (Some i). split; [|constructor]. eapply inv_move; eauto; try done.
    by intros ? [= <-].
  - unfold lockable. destruct (flag (mutex s)); by apply Hquiet.
  - unfold try_lock_cas. destruct (flag (mutex s)) eqn:Hfl; simpl; [by apply Hquiet|].
    assert (o = None) as -> by auto.
    exists (Some i). split; [|constructor]. eapply inv_move; eauto; try done.
    by intros ? [= <-].
  - specialize (Ho eq_refl) as ->. destruct (Hown eq_refl) as [_ Hg]. unfold set_guard.
    rewrite decide_True by done. exists (Some i). split; [|constructor].
    by eapply inv_move; eauto.
  - specialize (Ho eq_refl) as ->. destruct (Hown eq_refl) as [_ Hg]. unfold drop_guard.
    rewrite decide_True by done. exists (Some i). split; [|constructor].
    by eapply inv_move; eauto.
  - specialize (Ho eq_refl) as ->. destruct (Hown eq_refl) as [_ Hg]. unfold drop_flag.
    exists None. split; [|constructor]. by eapply inv_move; eauto.
Qed.

Lemma spin_call_inv s o i p p' :
  inv s o → pool s !! i = Some p → call p p' →
  inv {| mutex := mutex s; pool := <[i := p']> (pool s) |} o.
Proof.
  intros Hinv Hi Hc. eapply inv_quiet; [done..| | | |]; destruct p, p'; simpl in *; by subst.
Qed.

Lemma spin_step_inv s s' o : inv s o → step s s' → ∃ o', inv s' o' ∧ astep o o'.
Proof.
  intros Hinv Hs. destruct Hs as [s i p p' Hi Hc|s i p fails ptr Hi Hptr].
  - exists o. split; [by eapply spin_call_inv|constructor].
  - by apply spin_exec_inv.
Qed.

Lemma spin_reachable_inv ids s : rtc step (init ids) s → ∃ o, rtc astep None o ∧ inv s o.
Proof.
  intros Hr. pattern s. eapply rtc_invariant; [| |exact Hr].
  - exists None. split; [done|apply spin_inv_init].
  - intros x y (o&Ho&Hx) Hs. destruct (spin_step_inv _ _ _ Hx Hs) as (o'&?&?).
    exists o'. split; [by eapply rtc_r|done].
Qed.

(** ** Properties *)

(** Mutual exclusion: in every reachable state the mutex refines a lock with at most
    one owner: the flag is set exactly when some thread owns it, no two threads hold a
    guard (or are between taking and releasing the flag), and no [expect] fails. *)
Theorem spin_mutual_exclusion (ids : gset nat) (s : sys) :
  rtc step (init ids) s →
  (∀ i j p q, pool s !! i = Some p → pool s !! j = Some q →
     owns p = true → owns q = true → i = j) ∧
  (∀ i, pool s !! i ≠ Some SPanicked) ∧
  (flag (mutex s) = false → ∀ i p, pool s !! i = Some p → owns p = false) ∧
  (∃ owner, rtc astep None owner ∧ flag (mutex s) = bool_decide (is_Some owner) ∧
     ∀ i p, pool s !! i = Some p → (owns p = true ↔ owner = Some i)).
Proof.
  intros (o&Ha&[Hf Hn Hp])%spin_reachable_inv. split_and!.
  - intros i j p q Hi Hj Ho Hq. destruct (Hp i p Hi) as [H1 _], (Hp j q Hj) as [H2 _].
    specialize (H1 Ho). specialize (H2 Hq). congruence.
  - intros i Hi. by destruct (Hp i _ Hi) as (_&?&_).
  - intros Hfl i p Hi. destruct (owns p) eqn:Ho; [|done]. destruct (Hp i p Hi) as [H1 _].
    specialize (H1 Ho) as ->. by rewrite Hf in Hfl.
  - exists o. split_and!; [done|done|]. intros i p Hi. destruct (Hp i p Hi) as (?&_&H&_).
    split; [done|]. intros Heq. by apply H.
Qed.

(** [lock] and [try_lock] get a free mutex and only a free one: [try_lock] fails
    exactly when the flag is taken, and then changes nothing; a thread inside [lock]
    alone, with the mutex free, holds the guard after at most three accesses. *)
Theorem spin_lock_takes_a_free_mutex (m : SpinMutex) (ptr : nat) :
  (flag m = true → exec m false ptr STryCas = (m, SNotLocked) ∧
                   exec m false ptr SLockCas = (m, SLockable) ∧
                   exec m false ptr SLockable = (m, SLockable)) ∧
  (flag m = false → guard m = 0 →
     let m' := {| flag := true; guard := ptr |} in
     let try_ := exec m false ptr STryCas in
     let spin := exec m false ptr SLockable in
     let lock := exec spin.1 false ptr spin.2 in
     exec try_.1 false ptr try_.2 = (m', SHeld ptr) ∧
     exec lock.1 false ptr lock.2 = (m', SHeld ptr)).
Proof.
  destruct m as [f g]. simpl. split.
  - intros ->. done.
  - intros -> ->. unfold lockable, lock_cas, try_lock_cas, set_guard. done.
Qed.

(** ** Witnesses *)
Lemma demo_steps :
  rtc step (init {[1; 2]})
    {| mutex := {| flag := true; guard := 64 |};
       pool := <[2 := STryCas]> (<[1 := SHeld 64]> (gset_to_gmap SIdle {[1; 2]})) |}.
Proof.
  eapply rtc_l; [by eapply (step_call _ 1 SIdle SLockCas)|].
  eapply rtc_l; [by eapply (step_exec _ 1 SLockCas false 64)|].
  eapply rtc_l; [by eapply (step_exec _ 1 (SSetGuard 64) false 64)|].
  eapply rtc_l; [by eapply (step_call _ 2 SIdle STryCas)|]. simpl.
  rewrite !insert_insert_eq. done.
Qed.

Lemma spin_mutual_exclusion_witness : ∃ owner, rtc astep None owner ∧ true = bool_decide (is_Some owner).
Proof.
  destruct (spin_mutual_exclusion _ _ demo_steps) as (_&_&_&owner&H1&H2&_). by exists owner.
Defined.

Lemma spin_lock_takes_a_free_mutex_witness :
  exec (exec SpinMutex_new false 64 STryCas).1 false 64
       (exec SpinMutex_new false 64 STryCas).2 = ({| flag := true; guard := 64 |}, SHeld 64).
Proof. by apply (spin_lock_takes_a_free_mutex SpinMutex_new 64). Defined.
