(* ===== verification/AsyncLock.v ===== *)
(** * crates/sync/src/maker.rs: futures-aware locks from spinning locks

    [AsyncLockableMaker] has an inner lock and a locked table of wakers.  Both
    locks are atomic here, as [Spin.spin_mutual_exclusion] shows of [SpinMutex]:
    trying is one step, releasing is one step, a blocked [lock] makes no step.
    A task polls its lock future, holds the guard, drops it. *)

From S2P Require Import Prelude.

(** ** [DefaultAsyncLockableMediator]: the table of wakers, by task *)
Record Mediator := { key_next : nat; wakers : gmap nat nat }.
Definition Mediator_default : Mediator := {| key_next := 0; wakers := ∅ |}.

Definition wait_lockable (m : Mediator) (task : nat) : nat * Mediator :=
  (key_next m,
   {| key_next := key_next m + 1; wakers := <[key_next m := task]> (wakers m) |}).

Definition cancel (m : Mediator) (key : nat) : bool * Mediator :=
  (bool_decide (is_Some (wakers m !! key)),
   {| key_next := key_next m; wakers := delete key (wakers m) |}).

(** The task woken, if any; which key comes first is the hash map's choice. *)
Definition notify_one (m : Mediator) : option nat * Mediator :=
  match map_to_list (wakers m) with
  | [] => (None, m)
  | (key, task) :: _ =>
      (Some task, {| key_next := key_next m; wakers := delete key (wakers m) |})
  end.

Definition notify_all (m : Mediator) : gset nat * Mediator :=
  (map_img (wakers m), {| key_next := key_next m; wakers := ∅ |}).

(** ** The lock *)
Record AsyncLockableMaker := {
  inner_locked : bool;
  wakers_locked : bool;
  mediator : Mediator;
}.

Definition AsyncLockableMaker_new : AsyncLockableMaker :=
  {| inner_locked := false; wakers_locked := false; mediator := Mediator_default |}.

Definition set_inner (b : bool) (l : AsyncLockableMaker) : AsyncLockableMaker :=
  {| inner_locked := b; wakers_locked := wakers_locked l; mediator := mediator l |}.
Definition set_wakers_lock (b : bool) (l : AsyncLockableMaker) : AsyncLockableMaker :=
  {| inner_locked := inner_locked l; wakers_locked := b; mediator := mediator l |}.
Definition set_mediator (m : Mediator) (l : AsyncLockableMaker) : AsyncLockableMaker :=
  {| inner_locked := inner_locked l; wakers_locked := wakers_locked l; mediator := m |}.

(** Where a task is: [APending] is a future between two polls (or before the first),
    [ATry1] to [AUnlockWakers] are its [poll], [AUnlock] to [AUnlockNotify] the [drop]
    of the guard. *)
Inductive apc :=
| AIdle
| APending (wait_key : option nat)
| ATry1
| ALockWakers
| AWait
| ATry2 (wait_key : nat)
| ACancel (wait_key : nat)
| AUnlockWakers (ready : bool) (wait_key : nat)
| AHeld
| AUnlock
| ALockNotify
| ANotify
| AUnlockNotify.

(** One access of task [i]; the set is the tasks that it wakes. *)
Definition exec (l : AsyncLockableMaker) (i : nat) (p : apc) :
    AsyncLockableMaker * apc * gset nat :=
  match p with
  | ATry1 =>
      if inner_locked l then (l, ALockWakers, ∅) else (set_inner true l, AHeld, ∅)
  | ALockWakers =>
      if wakers_locked l then (l, ALockWakers, ∅) else (set_wakers_lock true l, AWait, ∅)
  | AWait =>
      let '(key, m) := wait_lockable (mediator l) i in (set_mediator m l, ATry2 key, ∅)
  | ATry2 key =>
      if inner_locked l then (l, AUnlockWakers false key, ∅)
      else (set_inner true l, ACancel key, ∅)
  | ACancel key =>
      (set_mediator (cancel (mediator l) key).2 l, AUnlockWakers true key, ∅)
  | AUnlockWakers ready key =>
      (set_wakers_lock false l, if ready then AHeld else APending (Some key), ∅)
  | AUnlock => (set_inner false l, ALockNotify, ∅)
  | ALockNotify =>
      if wakers_locked l then (l, ALockNotify, ∅) else (set_wakers_lock true l, ANotify, ∅)
  | ANotify =>
      let '(ts, m) := notify_all (mediator l) in (set_mediator m l, AUnlockNotify, ts)
  | AUnlockNotify => (set_wakers_lock false l, AIdle, ∅)
  | AIdle | APending _ | AHeld => (l, p, ∅)
  end.

(** The calls of the user: [lock()], polling the future, dropping it, dropping the
    guard. *)
Definition call (p p' : apc) : bool :=
  match p, p' with
  | AIdle, APending None => true
  | APending _, ATry1 => true
  | APending _, AIdle => true
  | AHeld, AUnlock => true
  | _, _ => false
  end.

(** [woken]: the tasks woken since they last began to poll. *)
Record sys := { locker : AsyncLockableMaker; pool : gmap nat apc; woken : gset nat }.

Inductive step : sys → sys → Prop :=
| step_call s i p p' :
    pool s !! i = Some p → call p p' →
    step s {| locker := locker s; pool := <[i := p']> (pool s);
              woken := match p' with ATry1 => woken s ∖ {[i]} | _ => woken s end |}
| step_exec s i p :
    pool s !! i = Some p →
    step s {| locker := (exec (locker s) i p).1.1; pool := <[i := (exec (locker s) i p).1.2]> (pool s);
              woken := woken s ∪ (exec (locker s) i p).2 |}.

Definition init (ids : gset nat) : sys :=
  {| locker := AsyncLockableMaker_new; pool := gset_to_gmap AIdle ids; woken := ∅ |}.

(** ** The invariant *)

(** The task has the inner lock; it has the lock of the wakers. *)
Definition owns (p : apc) : bool :=
  match p with ACancel _ | AUnlockWakers true _ | AHeld | AUnlock => true | _ => false end.
Definition owns_wakers (p : apc) : bool :=
  match p with
  | AWait | ATry2 _ | ACancel _ | AUnlockWakers _ _ | ANotify | AUnlockNotify => true
  | _ => false
  end.

(** The key of a task that waits or is about to. *)
Definition key_of (p : apc) : option nat :=
  match p with
  | ATry2 key | ACancel key | AUnlockWakers _ key => Some key
  | APending key => key
  | _ => None
  end.

(** The task has failed to lock and waits to be woken. *)
Definition waiting (p : apc) : bool :=
  match p with AUnlockWakers false _ | APending (Some _) => true | _ => false end.

(** The task has released the lock and not yet notified the others. *)
Definition notifying (p : apc) : Prop :=
  match p with ALockNotify | ANotify => True | _ => False end.

(** The tasks that need their waker: those that wait, and those about to. *)
Definition registers (p : apc) : bool :=
  match p with ATry2 _ => true | _ => waiting p end.

Definition exclusive (owns : apc → bool) (locked : bool) (m : gmap nat apc) : Prop :=
  ∃ o : option nat, locked = bool_decide (is_Some o) ∧
    ∀ i p, m !! i = Some p → (owns p = true ↔ o = Some i).

Record inv (s : sys) : Prop := {
  inv_inner : exclusive owns (inner_locked (locker s)) (pool s);
  inv_wakers : exclusive owns_wakers (wakers_locked (locker s)) (pool s);
  inv_lt i p k : pool s !! i = Some p → key_of p = Some k → k < key_next (mediator (locker s));
  inv_keys i j p q k : pool s !! i = Some p → pool s !! j = Some q →
    key_of p = Some k → key_of q = Some k → i = j;
  inv_registered i p k : pool s !! i = Some p → registers p = true → key_of p = Some k →
    wakers (mediator (locker s)) !! k = Some i ∨ i ∈ woken s;
  inv_live i p : pool s !! i = Some p → waiting p = true →
    i ∈ woken s ∨ inner_locked (locker s) = true ∨ pool_any notifying (pool s);
}.

Section exclusive.
Context (own : apc → bool).

(** A move that does not change who owns the lock. *)
Lemma exclusive_same b m i p p' :
  exclusive own b m → m !! i = Some p → own p' = own p → exclusive own b (<[i := p']> m).
Proof.
  intros (o&Hb&Ho) Hi Hp. exists o. split; [done|].
  intros j q [[<- <-]|[_ Hj]]%lookup_insert_Some; [rewrite Hp|]; by apply Ho.
Qed.

(** A move that takes a free lock, and one that releases it. *)
Lemma exclusive_take m i p p' :
  exclusive own false m → m !! i = Some p → own p' = true → exclusive own true (<[i := p']> m).
Proof.
  intros (o&Hb&Ho) Hi Hp. assert (o = None) as ->.
  { destruct o; [by rewrite bool_decide_true in Hb|done]. }
  exists (Some i). split; [done|].
  intros j q [[<- <-]|[Hne Hj]]%lookup_insert_Some; [by rewrite Hp|].
  rewrite (Ho j q Hj). split; congruence.
Qed.

Lemma exclusive_release b m i p p' :
  exclusive own b m → m !! i = Some p → own p = true → own p' = false →
  exclusive own false (<[i := p']> m).
Proof.
  intros (o&Hb&Ho) Hi Hp Hp'. apply (Ho i p Hi) in Hp as ->. exists None. split; [done|].
  intros j q [[<- <-]|[Hne Hj]]%lookup_insert_Some; [by rewrite Hp'|].
  rewrite (Ho j q Hj). split; congruence.
Qed.

Lemma exclusive_locked b m i p :
  exclusive own b m → m !! i = Some p → own p = true → b = true.
Proof. intros (o&->&Ho) Hi Hp. apply (Ho i p Hi) in Hp as ->. done. Qed.

Lemma exclusive_unique b m i j p q :
  exclusive own b m → m !! i = Some p → m !! j = Some q → own p = true → own q = true → i = j.
Proof.
  intros (o&_&Ho) Hi Hj Hp Hq. apply (Ho i p Hi) in Hp. apply (Ho j q Hj) in Hq. congruence.
Qed.
End exclusive.

Lemma async_inv_init ids : inv (init ids).
Proof.
  assert (∀ i p, pool (init ids) !! i = Some p → p = AIdle) as Hidle.
  { by intros i p [_ <-]%lookup_gset_to_gmap_Some. }
  split; simpl.
  - exists None. split; [done|]. by intros i p ->%Hidle.
  - exists None. split; [done|]. by intros i p ->%Hidle.
  - by intros i p k ->%Hidle.
  - by intros i j p q k ->%Hidle.
  - by intros i p k ->%Hidle.
  - by intros i p ->%Hidle.
Qed.

(** What a move of task [i] from [p] to [p'] must guarantee. *)
Record move_ok (s : sys) (i : nat) (p p' : apc) (l : AsyncLockableMaker) (wk : gset nat) : Prop := {
  mo_inner : exclusive owns (inner_locked l) (<[i := p']> (pool s));
  mo_wakers : exclusive owns_wakers (wakers_locked l) (<[i := p']> (pool s));
  mo_next : key_next (mediator (locker s)) ≤ key_next (mediator l);
  mo_key k : key_of p' = Some k →
    key_of p = Some k ∨ key_next (mediator (locker s)) = k ∧ k < key_next (mediator l);
  mo_others j q k : i ≠ j → pool s !! j = Some q → key_of q = Some k →
    wakers (mediator (locker s)) !! k = Some j → wakers (mediator l) !! k = Some j ∨ j ∈ wk;
  mo_woken j : i ≠ j → j ∈ woken s → j ∈ wk;
  mo_registered k : registers p' = true → key_of p' = Some k →
    wakers (mediator l) !! k = Some i ∨ i ∈ wk;
  mo_live : waiting p' = true →
    i ∈ wk ∨ inner_locked l = true ∨ pool_any notifying (<[i := p']> (pool s));
  mo_release : inner_locked (locker s) = true → inner_locked l = true ∨ notifying p';
  mo_notified : notifying p → notifying p' ∨
    ∀ j q, i ≠ j → pool s !! j = Some q → waiting q = true → j ∈ wk;
}.

Lemma move_inv s i p p' l wk :
  inv s → pool s !! i = Some p → move_ok s i p p' l wk →
  inv {| locker := l; pool := <[i := p']> (pool s); woken := wk |}.
Proof.
  intros [_ _ Hlt Hkeys Hreg Hlive] Hi []. split; simpl; [done|done|..].
  - intros j q k [[<- <-]|[_ Hj]]%lookup_insert_Some Hk.
    + destruct (mo_key0 k Hk) as [Hk'|[_ ?]]; [|done]. specialize (Hlt _ _ _ Hi Hk'). lia.
    + specialize (Hlt _ _ _ Hj Hk). lia.
  - assert (∀ j q k, i ≠ j → pool s !! j = Some q → key_of p' = Some k → key_of q = Some k → False)
      as Hfresh.
    { intros j q k Hne Hj Hk Hq. destruct (mo_key0 k Hk) as [Hk'|[<- _]].
      - by specialize (Hkeys _ _ _ _ _ Hi Hj Hk' Hq).
      - specialize (Hlt _ _ _ Hj Hq). lia. }
    intros j j' q q' k [[<- <-]|[Hne Hj]]%lookup_insert_Some
      [[<- <-]|[Hne' Hj']]%lookup_insert_Some Hk Hk'; [done|..|by eapply Hkeys].
    + by destruct (Hfresh j' q' k).
    + by destruct (Hfresh j q k).
  - intros j q k [[<- <-]|[Hne Hj]]%lookup_insert_Some Hr Hk; [by apply mo_registered0|].
    destruct (Hreg j q k Hj Hr Hk); eauto.
  - intros j q [[<- <-]|[Hne Hj]]%lookup_insert_Some Hw; [by apply mo_live0|].
    destruct (Hlive j q Hj Hw) as [?|[Hb|(n&r&Hn&Hr)]]; [by auto| |].
    + destruct (mo_release0 Hb); [by auto|]. right; right. by apply pool_any_here.
    + destruct (decide (i = n)) as [<-|Hin].
      * simplify_eq. destruct (mo_notified0 Hr) as [?|Hall]; [|left; by eapply Hall].
        right; right. by apply pool_any_here.
      * right; right. exists n, r. by rewrite lookup_insert_ne.
Qed.

Local Ltac move_step Hinner Hwakers :=
  split; simpl;
  repeat match goal with
  | E : inner_locked (locker _) = _ |- _ => progress rewrite ?E
  | E : wakers_locked (locker _) = _ |- _ => progress rewrite ?E
  end;
  try done; try lia; try (by eauto);
  try (by eapply exclusive_same; [exact Hinner| |]);
  try (by eapply exclusive_same; [exact Hwakers| |]);
  try (intros; by apply elem_of_union_l).

Lemma async_exec_inv s i p :
  inv s → pool s !! i = Some p →
  inv {| locker := (exec (locker s) i p).1.1; pool := <[i := (exec (locker s) i p).1.2]> (pool s);
         woken := woken s ∪ (exec (locker s) i p).2 |}.
Proof.
  intros Hinv Hi. pose proof (inv_inner _ Hinv) as HI. pose proof (inv_wakers _ Hinv) as HW.
  pose proof (inv_registered _ Hinv i p) as Hreg. pose proof (inv_live _ Hinv i p Hi) as Hlive.
  pose proof (inv_lt _ Hinv) as Hlt.
  apply move_inv with p; [done..|].
  destruct p as [|wk| | | |key|key|ready key| | | | |]; simpl in *.
  - move_step HI HW.
  - move_step HI HW; [intros k H1 ->; destruct (Hreg k) as [?|?]; [done..|by left|right]; by apply elem_of_union_l|].
    intros Hw. destruct (Hlive Hw) as [?|[?|?]]; [left; by apply elem_of_union_l|by auto|].
    right; right. by rewrite insert_id.
  - destruct (inner_locked (locker s)) eqn:Hin; move_step HI HW.
    by eapply exclusive_take.
  - destruct (wakers_locked (locker s)) eqn:Hwl; move_step HI HW.
    by eapply exclusive_take.
  - move_step HI HW.
    + intros k [= <-]. right. split; [done|lia].
    + intros j q k Hne Hj Hk Hw. left. rewrite lookup_insert_ne; [done|].
      specialize (Hlt _ _ _ Hj Hk). lia.
    + intros k _ [= <-]. left. by rewrite lookup_insert_eq.
  - destruct (inner_locked (locker s)) eqn:Hin; move_step HI HW.
    + intros k _ [= <-]. destruct (Hreg key) as [?|?]; [done..|by left|right]. by apply elem_of_union_l.
    + by eapply exclusive_take.
  - move_step HI HW. intros j q k Hne Hj Hk Hw. left. rewrite lookup_delete_ne; [done|].
    intros ->. by pose proof (inv_keys _ Hinv i j _ _ k Hi Hj eq_refl Hk).
  - destruct ready; move_step HI HW; try (by eapply exclusive_release).
    + intros k _ [= <-]. destruct (Hreg key) as [?|?]; [done..|by left|right]. by apply elem_of_union_l.
    + intros _. destruct (Hlive eq_refl) as [?|[?|?]]; [left; by apply elem_of_union_l|by auto|].
      right; right. apply pool_any_update; [done|]. intros r ? ?. by simplify_eq.
  - move_step HI HW.
  - move_step HI HW; by eapply exclusive_release.
  - destruct (wakers_locked (locker s)) eqn:Hwl; move_step HI HW.
    by eapply exclusive_take.
  - assert (∀ j q k, pool s !! j = Some q → registers q = true → key_of q = Some k →
      j ∈ woken s ∪ map_img (wakers (mediator (locker s)))) as Hall.
    { intros j q k Hj Hr Hk. apply elem_of_union.
      destruct (inv_registered _ Hinv j q k Hj Hr Hk); [right|by left].
      by eapply elem_of_map_img_2. }
    move_step HI HW.
    + intros j q k _ _ _ Hw. right. apply elem_of_union_r. by eapply elem_of_map_img_2.
    + intros _. right. intros j q _ Hj Hq. destruct q as [|[k|]| | | | | |[] k| | | | |]; try done.
      * by apply (Hall j (APending (Some k)) k).
      * by apply (Hall j (AUnlockWakers false k) k).
  - move_step HI HW. by eapply exclusive_release.
Qed.

Lemma async_call_inv s i p p' :
  inv s → pool s !! i = Some p → call p p' →
  inv {| locker := locker s; pool := <[i := p']> (pool s);
         woken := match p' with ATry1 => woken s ∖ {[i]} | _ => woken s end |}.
Proof.
  intros Hinv Hi Hc. pose proof (inv_inner _ Hinv) as HI. pose proof (inv_wakers _ Hinv) as HW.
  apply move_inv with p; [done..|].
  destruct p, p' as [|[]| | | | | | | | | | |]; simpl in Hc; try done; move_step HI HW.
  all: intros j Hne Hj; apply elem_of_difference; split; [done|]. by intros ?%elem_of_singleton.
Qed.

Lemma async_reachable_inv ids s : rtc step (init ids) s → inv s.
Proof.
  intros Hr. eapply rtc_invariant; [apply async_inv_init| |exact Hr].
  intros x y Hx Hs. destruct Hs; [by eapply async_call_inv|by apply async_exec_inv].
Qed.

(** ** Properties *)

(** Mutual exclusion of the futures-aware lock: in every reachable state at most
    one task holds a guard, the inner lock is free only when none does, and at most
    one task is in the table of wakers. *)
Theorem async_mutual_exclusion (ids : gset nat) (s : sys) :
  rtc step (init ids) s →
  (∀ i j p q, pool s !! i = Some p → pool s !! j = Some q → owns p = true → owns q = true → i = j) ∧
  (∀ i j p q, pool s !! i = Some p → pool s !! j = Some q →
     owns_wakers p = true → owns_wakers q = true → i = j) ∧
  (∀ i p, pool s !! i = Some p → owns p = true → inner_locked (locker s) = true).
Proof.
  intros Hinv%async_reachable_inv. split_and!.
  - intros. by eapply (exclusive_unique owns); [apply (inv_inner _ Hinv)|..].
  - intros. by eapply (exclusive_unique owns_wakers); [apply (inv_wakers _ Hinv)|..].
  - intros. by eapply (exclusive_locked owns); [apply (inv_inner _ Hinv)|..].
Qed.

(** No wake-up is lost: a task whose lock future is pending has been woken, or
    the lock is taken, or the task that released it is about to wake everybody; and
    its waker is in the table until then. *)
Theorem async_no_lost_wakeup (ids : gset nat) (s : sys) (i key : nat) :
  rtc step (init ids) s → pool s !! i = Some (APending (Some key)) →
  (i ∈ woken s ∨ inner_locked (locker s) = true ∨ pool_any notifying (pool s)) ∧
  (i ∈ woken s ∨ wakers (mediator (locker s)) !! key = Some i).
Proof.
  intros Hinv%async_reachable_inv Hi. split; [by apply (inv_live _ Hinv i _ Hi)|].
  destruct (inv_registered _ Hinv i _ key Hi); auto.
Qed.

(** ** Witnesses *)

Inductive move := MCall (i : nat) (p : apc) | MExec (i : nat).

Definition apply_move (s : sys) (m : move) : sys :=
  match m with
  | MCall i p' =>
      match pool s !! i with
      | Some p =>
          if call p p' then
            {| locker := locker s; pool := <[i := p']> (pool s);
               woken := match p' with ATry1 => woken s ∖ {[i]} | _ => woken s end |}
          else s
      | None => s
      end
  | MExec i =>
      match pool s !! i with
      | Some p => {| locker := (exec (locker s) i p).1.1;
                     pool := <[i := (exec (locker s) i p).1.2]> (pool s);
                     woken := woken s ∪ (exec (locker s) i p).2 |}
      | None => s
      end
  end.

Lemma async_run_reachable ms s : rtc step s (foldl apply_move s ms).
Proof.
  revert s. induction ms as [|m ms IH]; intros s; simpl; [done|]. etrans; [|apply IH].
  destruct m as [i p'|i]; simpl; destruct (pool s !! i) as [p|] eqn:Hi; try done.
  - destruct (call p p') eqn:Hc; [|done]. apply rtc_once. apply step_call with p; [done|by rewrite Hc].
  - by apply rtc_once, step_exec.
Qed.

(** Task 1 holds the lock; task 2 has polled and waits. *)
Definition demo : list move :=
  [MCall 1 (APending None); MCall 1 ATry1; MExec 1; MCall 2 (APending None); MCall 2 ATry1;
   MExec 2; MExec 2; MExec 2; MExec 2; MExec 2].

Lemma async_mutual_exclusion_witness :
  let s := foldl apply_move (init {[1; 2]}) demo in
  pool s !! 1 = Some AHeld ∧
  ∀ p, pool s !! 2 = Some p → owns p = true → 1 = 2.
Proof.
  split; [by vm_compute|]. intros p H2 Hp.
  destruct (async_mutual_exclusion {[1; 2]} _ (async_run_reachable demo _)) as [Hx _].
  apply (Hx 1 2 AHeld p); [by vm_compute|exact H2|done|exact Hp].
Defined.

Lemma async_no_lost_wakeup_witness :
  let s := foldl apply_move (init {[1; 2]}) demo in
  2 ∈ woken s ∨ wakers (mediator (locker s)) !! 0 = Some 2.
Proof.
  apply (async_no_lost_wakeup {[1; 2]} _ 2 0 (async_run_reachable demo _)). by vm_compute.
Defined.
