(* ===== verification/EventMap.v ===== *)
(** * crates/future/src/event_map.rs: waiting for events

    The map holds, for an event, the waker of the last task that waits for it and a
    shared cell through which the notifier says why it woke the task.  [World] is the
    map, the cells, and the log of the effects on others (tasks woken, guards
    unlocked), in order. *)

From S2P Require Import Prelude.

Inductive EventMapError := ECancel | EDestroy.

Module Reason.
Inductive t := None | On | Cancel | Destroy.

(** [From<Reason> for u8]. *)
Definition into_u8 (value : t) : nat :=
  match value with None => 0 | On => 1 | Cancel => 2 | Destroy => 3 end.
End Reason.

Section event_map.
Context {E : Type} `{Countable E}.

(** [WakerWithReason]: the task to wake and its reason cell. *)
Record WakerWithReason := { waker : nat; reason : nat }.

Inductive effect := Woke (task : nat) | Registered (event : E) (task : nat) | Unlocked (guard : nat).

Record World := {
  wakers : gmap E WakerWithReason;
  cells : gmap nat nat;
  next_cell : nat;
  log : list effect;
}.

Definition EventMap_default : World :=
  {| wakers := ∅; cells := ∅; next_cell := 0; log := [] |}.

(** [WakerWithReason::wake] and [wake_by_ref]: store the reason, then wake. *)
Definition wake (w : WakerWithReason) (r : Reason.t) (s : World) : World :=
  {| wakers := wakers s; cells := <[reason w := Reason.into_u8 r]> (cells s);
     next_cell := next_cell s; log := log s ++ [Woke (waker w)] |}.

Definition set_wakers (m : gmap E WakerWithReason) (s : World) : World :=
  {| wakers := m; cells := cells s; next_cell := next_cell s; log := log s |}.

Definition wait_cancel (s : World) (event : E) : World := set_wakers (delete event (wakers s)) s.

Definition notify_one (s : World) (event : E) (r : Reason.t) : bool * World :=
  match wakers s !! event with
  | Some w => (true, wake w r (set_wakers (delete event (wakers s)) s))
  | None => (false, s)
  end.

Definition notify_all (s : World) (events : list E) (r : Reason.t) : World :=
  foldl (λ s e, (notify_one s e r).2) s events.

Definition notify_any (s : World) (r : Reason.t) : World :=
  notify_all s (map_to_list (wakers s)).*1 r.

(** [Drop for EventMap]. *)
Definition drop (s : World) : World :=
  foldl (λ s x, wake x.2 Reason.Destroy s) s (map_to_list (wakers s)).

(** The future [Wait]; [guard] is the lock guard it has not given back yet. *)
Record Wait := { event : E; guard : option nat; wait_reason : nat }.

Definition wait (s : World) (e : E) (guard : nat) : Wait * World :=
  ({| event := e; guard := Some guard; wait_reason := next_cell s |},
   {| wakers := wakers s; cells := <[next_cell s := Reason.into_u8 Reason.None]> (cells s);
      next_cell := next_cell s + 1; log := log s |}).

(** [Wait::poll] by [task]. *)
Definition poll (s : World) (f : Wait) (task : nat) :
    World * Wait * Poll (EventMapError + ()) :=
  let '(s, f) :=
    match guard f with
    | Some g =>
        ({| wakers := <[event f := {| waker := task; reason := wait_reason f |}]> (wakers s);
            cells := cells s; next_cell := next_cell s;
            log := log s ++ [Registered (event f) task; Unlocked g] |},
         {| event := event f; guard := None; wait_reason := wait_reason f |})
    | None => (s, f)
    end in
  let r := default 0 (cells s !! wait_reason f) in
  (s, f,
   if decide (r = Reason.into_u8 Reason.None) then Pending
   else if decide (r = Reason.into_u8 Reason.Cancel) then Ready (inl ECancel)
   else if decide (r = Reason.into_u8 Reason.Destroy) then Ready (inl EDestroy)
   else Ready (inr ())).

(** What [poll] answers a task that was notified with reason [r]. *)
Definition answer (r : Reason.t) : Poll (EventMapError + ()) :=
  match r with
  | Reason.None => Pending
  | Reason.On => Ready (inr ())
  | Reason.Cancel => Ready (inl ECancel)
  | Reason.Destroy => Ready (inl EDestroy)
  end.

(** ** Other users of the map, between two polls of a task *)
Inductive op :=
| ONotify (e : E) (r : Reason.t)
| OCancel (e : E)
| OWait (e : E) (guard task : nat).

Definition op_event (o : op) : E :=
  match o with ONotify e _ | OCancel e | OWait e _ _ => e end.

Definition apply (s : World) (o : op) : World :=
  match o with
  | ONotify e r => (notify_one s e r).2
  | OCancel e => wait_cancel s e
  | OWait e g task => let '(f, s) := wait s e g in (poll s f task).1.1
  end.

(** Every registered waker has a cell of its own, below [next_cell]. *)
Definition wf (s : World) : Prop :=
  (∀ e w, wakers s !! e = Some w → reason w < next_cell s) ∧
  (∀ e e' w w', wakers s !! e = Some w → wakers s !! e' = Some w' →
     reason w = reason w' → e = e').

Lemma wf_default : wf EventMap_default.
Proof. by split. Qed.

Lemma wf_set_wakers_delete s e : wf s → wf (set_wakers (delete e (wakers s)) s).
Proof.
  intros [Hlt Hinj]. split; simpl.
  - intros e' w [_ ?]%lookup_delete_Some. eauto.
  - intros e1 e2 w w' [_ ?]%lookup_delete_Some [_ ?]%lookup_delete_Some. eauto.
Qed.

Lemma wf_notify_one s e r : wf s → wf (notify_one s e r).2.
Proof.
  intros Hwf. unfold notify_one. destruct (wakers s !! e) as [w|]; [|done]. simpl.
  exact (wf_set_wakers_delete s e Hwf).
Qed.

(** A wait, and its first poll. *)
Definition wait_poll (s : World) (e : E) (g task : nat) : World * Wait * Poll (EventMapError + ()) :=
  let '(f, s) := wait s e g in poll s f task.

Lemma wait_poll_eq s e g task :
  wait_poll s e g task =
    ({| wakers := <[e := {| waker := task; reason := next_cell s |}]> (wakers s);
        cells := <[next_cell s := 0]> (cells s); next_cell := next_cell s + 1;
        log := log s ++ [Registered e task; Unlocked g] |},
     {| event := e; guard := None; wait_reason := next_cell s |}, Pending).
Proof. unfold wait_poll, wait, poll. simpl. by rewrite lookup_insert_eq. Qed.

Lemma apply_wait s e g task : apply s (OWait e g task) = (wait_poll s e g task).1.1.
Proof. done. Qed.

Lemma wf_wait_poll s e g task : wf s → wf (wait_poll s e g task).1.1.
Proof.
  intros [Hlt Hinj]. rewrite wait_poll_eq. split; simpl.
  - intros e' w [[<- <-]|[_ Hw]]%lookup_insert_Some; simpl; [lia|].
    apply Hlt in Hw. lia.
  - intros e1 e2 w w' [[<- <-]|[_ H1]]%lookup_insert_Some [[<- <-]|[_ H2]]%lookup_insert_Some;
      simpl; try done.
    + intros Heq. apply Hlt in H2. lia.
    + intros Heq. apply Hlt in H1. lia.
    + by eapply Hinj.
Qed.

Lemma wf_apply s o : wf s → wf (apply s o).
Proof.
  intros Hwf. destruct o as [e r|e|e g task]; simpl;
    [by apply wf_notify_one|by apply wf_set_wakers_delete|].
  apply (wf_wait_poll s e g task Hwf).
Qed.

(** A task waits for [e] in cell [c] and has not been notified. *)
Definition waits (s : World) (e : E) (task c : nat) : Prop :=
  wf s ∧ wakers s !! e = Some {| waker := task; reason := c |} ∧ cells s !! c = Some 0.

Lemma waits_apply s o e task c : waits s e task c → op_event o ≠ e → waits (apply s o) e task c.
Proof.
  intros (Hwf&Hw&Hc) Hne. split; [by apply wf_apply|].
  destruct Hwf as [Hlt Hinj]. destruct o as [e' r|e'|e' g task'].
  3: rewrite apply_wait, wait_poll_eq. all: simpl in *.
  - unfold notify_one. destruct (wakers s !! e') as [w|] eqn:Hw'; simpl; [|done].
    rewrite lookup_delete_ne by done. split; [done|].
    rewrite lookup_insert_ne; [done|]. intros Heq. by specialize (Hinj _ _ _ _ Hw' Hw Heq).
  - by rewrite lookup_delete_ne.
  - rewrite !lookup_insert_ne; [done| |done]. apply Hlt in Hw. simpl in Hw. lia.
Qed.

Lemma waits_ops s os e task c :
  waits s e task c → Forall (λ o, op_event o ≠ e) os → waits (foldl apply s os) e task c.
Proof.
  intros Hw Hos. revert s Hw. induction Hos as [|o os Ho _ IH]; intros s Hw; simpl; [done|].
  by apply IH, waits_apply.
Qed.

Lemma wf_ops s os : wf s → wf (foldl apply s os).
Proof. revert s. induction os as [|o os IH]; intros s Hwf; simpl; [done|]. by apply IH, wf_apply. Qed.

Lemma waits_notify s e task c r :
  waits s e task c →
  notify_one s e r =
    (true, {| wakers := delete e (wakers s); cells := <[c := Reason.into_u8 r]> (cells s);
              next_cell := next_cell s; log := log s ++ [Woke task] |}).
Proof. intros (_&Hw&_). unfold notify_one, wake. by rewrite Hw. Qed.

Lemma poll_answer s f task r :
  guard f = None → cells s !! wait_reason f = Some (Reason.into_u8 r) →
  poll s f task = (s, f, answer r).
Proof. intros Hg Hc. unfold poll. rewrite Hg, Hc. by destruct r. Qed.

Lemma foldr_delete_out {A} (m : gmap E A) e l :
  foldr delete (delete e m) l = delete e (foldr delete m l).
Proof. induction l as [|e' l IH]; simpl; [done|]. by rewrite IH, delete_delete. Qed.

Lemma notify_all_spec l s r :
  NoDup l.*1 → (∀ e w, (e, w) ∈ l → wakers s !! e = Some w) →
  wakers (notify_all s l.*1 r) = foldr delete (wakers s) l.*1 ∧
  log (notify_all s l.*1 r) = log s ++ ((λ x, Woke (waker x.2)) <$> l) ∧
  (∀ c, (∃ e w, (e, w) ∈ l ∧ reason w = c) →
        cells (notify_all s l.*1 r) !! c = Some (Reason.into_u8 r)) ∧
  (∀ c, cells s !! c = Some (Reason.into_u8 r) →
        cells (notify_all s l.*1 r) !! c = Some (Reason.into_u8 r)).
Proof.
  revert s. induction l as [|[e w] l IH]; intros s Hnd Hl; csimpl.
  { rewrite app_nil_r. split_and!; try done. by intros c (e&w&?%elem_of_nil&_). }
  apply NoDup_cons in Hnd as [Hne Hnd]. csimpl in Hne.
  assert (wakers s !! e = Some w) as Hw by (apply Hl; by left).
  assert ((notify_one s e r).2 = wake w r (set_wakers (delete e (wakers s)) s)) as Heq
    by (unfold notify_one; by rewrite Hw).
  unfold notify_all in *. csimpl. rewrite Heq.
  destruct (IH (wake w r (set_wakers (delete e (wakers s)) s))) as (H1&H2&H3&H4); [done| |].
  { intros e' w' Hin. simpl. rewrite lookup_delete_ne; [apply Hl; by right|].
    intros <-. apply Hne. by apply (list_elem_of_fmap_2 fst _ (e, w')). }
  rewrite H1, H2. simpl. split_and!.
  - apply foldr_delete_out.
  - by rewrite <-app_assoc.
  - intros c (e'&w'&[Hin|Hin]%elem_of_cons&<-); [simplify_eq|apply H3; eauto].
    apply H4. simpl. by rewrite lookup_insert_eq.
  - intros c Hc. apply H4. simpl. destruct (decide (reason w = c)) as [<-|];
      [by rewrite lookup_insert_eq|by rewrite lookup_insert_ne].
Qed.
Lemma drop_spec l (s : World) :
  log (foldl (λ s (x : E * WakerWithReason), wake x.2 Reason.Destroy s) s l) =
    log s ++ ((λ x, Woke (waker x.2)) <$> l) ∧
  (∀ c, (∃ e w, (e, w) ∈ l ∧ reason w = c) ∨ cells s !! c = Some 3 →
        cells (foldl (λ s (x : E * WakerWithReason), wake x.2 Reason.Destroy s) s l) !! c = Some 3).
Proof.
  revert s. induction l as [|[e w] l IH]; intros s; csimpl.
  { rewrite app_nil_r. split; [done|]. by intros c [(e&w&?%elem_of_nil&_)|?]. }
  destruct (IH (wake w Reason.Destroy s)) as [H1 H2]. rewrite H1. split; [simpl; by rewrite <-app_assoc|].
  intros c Hc. apply H2. simpl. destruct (decide (reason w = c)) as [<-|Hne];
    [right; by rewrite lookup_insert_eq|]. rewrite lookup_insert_ne by done.
  destruct Hc as [(e'&w'&[Hin|Hin]%elem_of_cons&Hr)|?]; [by simplify_eq|left; eauto|by right].
Qed.

Lemma notify_one_wakers (s : World) e r : wakers (notify_one s e r).2 = delete e (wakers s).
Proof.
  unfold notify_one. destruct (wakers s !! e) as [w|] eqn:Hw; simpl; [done|].
  by rewrite delete_id.
Qed.

Lemma notify_one_log (s : World) e r :
  log (notify_one s e r).2 = log s ++ ((λ w, Woke (waker w)) <$> option_list (wakers s !! e)).
Proof. unfold notify_one. destruct (wakers s !! e) as [w|]; simpl; [done|by rewrite app_nil_r]. Qed.

Lemma notify_any_spec (s : World) r :
  let s' := notify_any s r in
  wakers s' = ∅ ∧
  log s' = log s ++ ((λ x, Woke (waker x.2)) <$> map_to_list (wakers s)) ∧
  (∀ e w, wakers s !! e = Some w → cells s' !! reason w = Some (Reason.into_u8 r)) ∧
  (∀ e w, wakers s !! e = Some w →
     Woke (waker w) ∈ log s' ∧ cells s' !! reason w = Some (Reason.into_u8 r)).
Proof.
  destruct (notify_all_spec (map_to_list (wakers s)) s r) as (H1&H2&H3&_).
  { apply NoDup_fst_map_to_list. }
  { by intros e' w ?%elem_of_map_to_list. }
  unfold notify_any.
  assert (∀ e w, wakers s !! e = Some w →
    cells (notify_all s (map_to_list (wakers s)).*1 r) !! reason w = Some (Reason.into_u8 r)) as Hc.
  { intros e w Hw. apply H3. exists e, w. by rewrite elem_of_map_to_list. }
  split_and!; [|done|done|].
  - rewrite H1. apply map_eq. intros k. rewrite lookup_empty.
    destruct (foldr delete _ _ !! k) as [w|] eqn:Hk; [|done].
    apply lookup_foldr_delete_Some in Hk as [Hk Hw]. exfalso. apply Hk.
    apply elem_of_map_to_list in Hw. by apply (list_elem_of_fmap_2 fst _ (k, w)).
  - intros e w Hw. split; [|eauto]. rewrite H2. apply elem_of_app. right.
    apply (list_elem_of_fmap_2 (λ x : E * WakerWithReason, Woke (waker x.2)) _ (e, w)).
    by apply elem_of_map_to_list.
Qed.
End event_map.
Arguments World : clear implicits.
Arguments World E {_ _}.
Arguments effect : clear implicits.

(** ** Properties *)

(** Waiting for an event, end to end.  The first poll of a [Wait] registers the task
    before it unlocks the guard, and is pending.  Whatever other users then do
    with other events, a later notification of the event finds the task: it
    returns [true], wakes exactly that task, removes it, and the next poll answers
    with the reason; without a notification the next poll is still pending. *)
Theorem wait_is_answered {E} `{Countable E} (s : World E) (e : E) (guard task : nat)
    (os : list op) (r : Reason.t) :
  wf s → Forall (λ o, op_event o ≠ e) os →
  ∃ s1 f, wait_poll s e guard task = (s1, f, Pending) ∧
    log s1 = log s ++ [Registered e task; Unlocked guard] ∧
    let s2 := foldl apply s1 os in
    poll s2 f task = (s2, f, Pending) ∧
    ∃ s3, notify_one s2 e r = (true, s3) ∧ log s3 = log s2 ++ [Woke task] ∧
      wakers s3 !! e = None ∧ poll s3 f task = (s3, f, answer r).
Proof.
  intros Hwf Hos. eexists _, _. split; [apply wait_poll_eq|]. split; [done|].
  assert (waits (wait_poll s e guard task).1.1 e task (next_cell s)) as Hw.
  { split; [by apply wf_wait_poll|]. rewrite wait_poll_eq. simpl. by rewrite !lookup_insert_eq. }
  rewrite wait_poll_eq in Hw. simpl in Hw. apply (waits_ops _ os) in Hw; [|done].
  intros s2. fold s2 in Hw. split.
  - rewrite (poll_answer _ _ _ Reason.None); [done|done|]. apply Hw.
  - eexists. split; [by eapply waits_notify|]. split; [done|]. simpl.
    split; [by rewrite lookup_delete_eq|].
    apply poll_answer; simpl; [done|by rewrite lookup_insert_eq].
Qed.

(** An event has one waiter: a second [Wait] on the same event takes the place
    of the first, whose task is then woken by no notification of the event and stays
    pending, while the second is answered. *)
Theorem second_waiter_replaces_first {E} `{Countable E} (s : World E) (e : E)
    (g1 g2 task1 task2 : nat) (r : Reason.t) :
  wf s →
  let '(s1, f1, _) := wait_poll s e g1 task1 in
  let '(s2, f2, _) := wait_poll s1 e g2 task2 in
  ∃ s3, notify_one s2 e r = (true, s3) ∧
    log s3 = log s2 ++ [Woke task2] ∧
    poll s3 f2 task2 = (s3, f2, answer r) ∧
    poll s3 f1 task1 = (s3, f1, Pending) ∧
    notify_one s3 e r = (false, s3).
Proof.
  intros Hwf. rewrite wait_poll_eq, wait_poll_eq. simpl.
  unfold notify_one at 1. simpl. rewrite lookup_insert_eq. eexists. split; [done|].
  unfold wake. simpl. split; [done|]. split_and!.
  - apply poll_answer; simpl; [done|by rewrite lookup_insert_eq].
  - apply (poll_answer _ _ _ Reason.None); simpl; [done|].
    rewrite lookup_insert_ne by lia. rewrite lookup_insert_ne by lia. by rewrite lookup_insert_eq.
  - unfold notify_one. simpl. by rewrite lookup_delete_eq.
Qed.

(** [notify_any] wakes every registered task once, with the given reason in its
    cell, and leaves the map empty; [notify_one] of an event without waiter returns
    [false] and changes nothing.  Dropping the map wakes them all with [Destroy]. *)
Theorem notify_any_wakes_all {E} `{Countable E} (s : World E) (r : Reason.t) (e : E) :
  let s' := notify_any s r in
  wakers s' = ∅ ∧
  log s' = log s ++ ((λ x, Woke (waker x.2)) <$> map_to_list (wakers s)) ∧
  (∀ w, wakers s !! e = Some w → cells s' !! reason w = Some (Reason.into_u8 r)) ∧
  (wakers s !! e = None → notify_one s e r = (false, s)) ∧
  log (drop s) = log s ++ ((λ x, Woke (waker x.2)) <$> map_to_list (wakers s)) ∧
  (∀ w, wakers s !! e = Some w → cells (drop s) !! reason w = Some 3).
Proof.
  destruct (notify_any_spec s r) as (H1&H2&H3&_). split_and!; [done|done|by apply H3| | |].
  - intros Hn. unfold notify_one. by rewrite Hn.
  - apply drop_spec.
  - intros w Hw. unfold drop. apply drop_spec. left. exists e, w. by rewrite elem_of_map_to_list.
Qed.

(** ** Witnesses *)
Definition demo_ops : list (op (E:=nat)) := [ONotify 2 Reason.On; OWait 3 6 16; OCancel 3].

Lemma wait_is_answered_witness :
  ∃ s1 f, wait_poll (EventMap_default (E:=nat)) 1 5 15 = (s1, f, Pending) ∧
    poll (foldl apply s1 demo_ops) f 15 = (foldl apply s1 demo_ops, f, Pending).
Proof.
  destruct (wait_is_answered (EventMap_default (E:=nat)) 1 5 15 demo_ops Reason.On)
    as (s1&f&H1&_&H2&_).
  - apply wf_default.
  - repeat constructor; done.
  - by exists s1, f.
Defined.

Lemma second_waiter_replaces_first_witness :
  let '(s1, f1, _) := wait_poll (EventMap_default (E:=nat)) 1 5 15 in
  let '(s2, f2, _) := wait_poll s1 1 6 16 in
  ∃ s3, notify_one s2 1 Reason.Cancel = (true, s3) ∧ poll s3 f1 15 = (s3, f1, Pending).
Proof.
  pose proof (second_waiter_replaces_first (EventMap_default (E:=nat)) 1 5 6 15 16 Reason.Cancel
    wf_default) as H.
  destruct H as (s3&H1&_&_&H2&_). by exists s3.
Defined.

Lemma notify_any_wakes_all_witness :
  let s := (wait_poll (EventMap_default (E:=nat)) 1 5 15).1.1 in
  wakers (notify_any s Reason.On) = ∅ ∧ cells (notify_any s Reason.On) !! 0 = Some 1.
Proof.
  destruct (notify_any_wakes_all (wait_poll (EventMap_default (E:=nat)) 1 5 15).1.1 Reason.On 1)
    as (H1&_&H2&_).
  split; [exact H1|]. by apply (H2 {| waker := 15; reason := 0 |}).
Defined.
