(* ===== verification/IoDriver.v ===== *)
(** * crates/io/src/driver.rs, driver_ext.rs, file.rs: the driver interface

    A driver has a state [St]; a call returns the new state and the result.  A
    caller's read buffer is its length; the bytes written to it are returned beside
    the result.  [RawDriverExt] is what an implementation provides, one operation per
    file type; [RawDriver] is what the sockets call; [RawDriverExtProxy] turns the
    first into the second by dispatching on the file type.  The vtable of [Driver] only
    erases the type of the implementation. *)

From S2P Require Import Prelude.

(** ** Handles (file.rs) *)
Inductive Description :=
| File | TcpListener | TcpStream | UdpSocket | Timeout | Poller | External (id : nat).

#[export] Instance Description_eq_dec : EqDecision Description.
Proof. solve_decision. Defined.

(** Tokens and pointers are numbers. *)
Record Handle := {
  token : nat;
  desc : Description;
  user_defined_desc : option nat;
  data : nat;
}.

(** [Handle::new]; [next] is the counter of [Token::next], advanced even when a token
    is given, because [unwrap_or] evaluates its argument. *)
Definition Handle_new (next : nat) (desc : Description) (user_defined_desc : option nat)
    (token : option nat) (data : nat) : nat * Handle :=
  (next + 1,
   {| token := default next token; desc := desc; user_defined_desc := user_defined_desc;
      data := data |}).

Definition expect (h : Handle) (d : Description) : res ErrorKind () :=
  if decide (desc h = d) then Ok () else Err InvalidInput.

(** ** [Interest] (interest.rs): a bit mask *)
Record Interest := { writable : bool; readable : bool }.

#[export] Instance Interest_eq_dec : EqDecision Interest.
Proof. solve_decision. Defined.

Definition Writable : Interest := {| writable := true; readable := false |}.
Definition Readable : Interest := {| writable := false; readable := true |}.
Definition Interest_all : Interest := {| writable := true; readable := true |}.
Definition Interest_contains (i j : Interest) : bool :=
  implb (writable j) (writable i) && implb (readable j) (readable i).
Definition Interest_or (i j : Interest) : Interest :=
  {| writable := writable i || writable j; readable := readable i || readable j |}.
Definition Interest_xor (i j : Interest) : Interest :=
  {| writable := xorb (writable i) (writable j); readable := xorb (readable i) (readable j) |}.

(** ** Flags, commands and responses (driver.rs); [A] is [SocketAddr] *)
Section driver.
Context {A : Type}.

Inductive OpenFlags :=
| FlagsNone
| OpenFile (path : list byte) (mode : nat)
| Bind (laddrs : list A)
| Connect (raddrs : list A)
| FlagsDuration (duration : N)
| UserDefined (buf : list byte).

Definition try_into_open_file (f : OpenFlags) : res ErrorKind (list byte * nat) :=
  match f with OpenFile path mode => Ok (path, mode) | _ => Err InvalidInput end.
Definition try_into_bind (f : OpenFlags) : res ErrorKind (list A) :=
  match f with Bind laddrs => Ok laddrs | _ => Err InvalidInput end.
Definition try_into_connect (f : OpenFlags) : res ErrorKind (list A) :=
  match f with Connect raddrs => Ok raddrs | _ => Err InvalidInput end.
Definition try_into_duration (f : OpenFlags) : res ErrorKind N :=
  match f with FlagsDuration duration => Ok duration | _ => Err InvalidInput end.
Definition try_into_user_defined (f : OpenFlags) : res ErrorKind (list byte) :=
  match f with UserDefined buf => Ok buf | _ => Err InvalidInput end.

(** [waker]: the task that wants to be woken; [len]: the caller's read buffer. *)
Inductive Cmd :=
| CmdRead (waker : nat) (len : nat)
| CmdWrite (waker : nat) (buf : list byte)
| CmdSendTo (waker : nat) (buf : list byte) (raddr : A)
| CmdRecvFrom (waker : nat) (len : nat)
| CmdRegister (source : Handle) (interests : Interest)
| CmdReRegister (source : Handle) (interests : Interest)
| CmdAccept (waker : nat)
| CmdPollOnce (duration : option N)
| CmdTryClone
| CmdTimeout (waker : nat)
| CmdLocalAddr
| CmdRemoteAddr
| CmdShutdown (how : nat)
| CmdBroadCast
| CmdSetBroadCast (on : bool).

Inductive CmdResp :=
| RespNone
| RespRecvFrom (len : nat) (raddr : A)
| RespIncoming (handle : Handle) (raddr : A)
| RespDataLen (len : nat)
| RespTimeout (status : bool)
| RespCloned (handle : Handle)
| RespSockAddr (addr : A)
| RespBroadCast (status : bool).

Definition try_into_incoming (r : CmdResp) : res ErrorKind (Handle * A) :=
  match r with RespIncoming handle raddr => Ok (handle, raddr) | _ => Err InvalidInput end.
Definition try_into_recv_from (r : CmdResp) : res ErrorKind (nat * A) :=
  match r with RespRecvFrom len raddr => Ok (len, raddr) | _ => Err InvalidInput end.
Definition try_into_sockaddr (r : CmdResp) : res ErrorKind A :=
  match r with RespSockAddr addr => Ok addr | _ => Err InvalidInput end.
Definition try_into_datalen (r : CmdResp) : res ErrorKind nat :=
  match r with RespDataLen len => Ok len | _ => Err InvalidInput end.
Definition try_into_timeout (r : CmdResp) : res ErrorKind bool :=
  match r with RespTimeout status => Ok status | _ => Err InvalidInput end.
Definition try_into_broadcast (r : CmdResp) : res ErrorKind bool :=
  match r with RespBroadCast status => Ok status | _ => Err InvalidInput end.
Definition try_into_none (r : CmdResp) : res ErrorKind () :=
  match r with RespNone => Ok () | _ => Err InvalidInput end.
End driver.
Arguments OpenFlags : clear implicits.
Arguments Cmd : clear implicits.
Arguments CmdResp : clear implicits.

(** [RawDriver]: what the sockets call.  [fd_cntl] also returns the bytes written to
    the caller's buffer. *)
Class RawDriver (A St : Type) := {
  fd_open : St → Description → OpenFlags A → St * res ErrorKind Handle;
  fd_cntl : St → Handle → Cmd A → St * list byte * res ErrorKind (CmdResp A);
  fd_close : St → Handle → St * res ErrorKind ();
}.

(** [RawDriverExt]: what an implementation provides.  A read returns the bytes it put
    in the buffer. *)
Class RawDriverExt (A St : Type) := {
  fd_user_define_open : St → nat → list byte → St * res ErrorKind Handle;
  fd_user_define_close : St → nat → Handle → St * res ErrorKind ();
  fd_user_define_clone : St → Handle → St * res ErrorKind Handle;
  file_open : St → list byte → nat → St * res ErrorKind Handle;
  file_write : St → nat → Handle → list byte → St * res ErrorKind nat;
  file_read : St → nat → Handle → nat → St * res ErrorKind (list byte);
  file_close : St → Handle → St * res ErrorKind ();
  timeout_open : St → N → St * res ErrorKind Handle;
  timeout : St → nat → Handle → St * res ErrorKind bool;
  timeout_close : St → Handle → St * res ErrorKind ();
  tcp_listener_bind : St → list A → St * res ErrorKind Handle;
  tcp_listener_accept : St → nat → Handle → St * res ErrorKind (Handle * A);
  tcp_listener_close : St → Handle → St * res ErrorKind ();
  tcp_stream_connect : St → list A → St * res ErrorKind Handle;
  tcp_stream_write : St → nat → Handle → list byte → St * res ErrorKind nat;
  tcp_stream_read : St → nat → Handle → nat → St * res ErrorKind (list byte);
  tcp_stream_close : St → Handle → St * res ErrorKind ();
  udp_socket_bind : St → list A → St * res ErrorKind Handle;
  udp_socket_sendto : St → nat → Handle → list byte → A → St * res ErrorKind nat;
  udp_socket_recv_from : St → nat → Handle → nat → St * res ErrorKind (list byte * A);
  udp_socket_close : St → Handle → St * res ErrorKind ();
  udp_socket_set_broadcast : St → Handle → bool → St * res ErrorKind ();
  udp_socket_get_broadcast : St → Handle → St * res ErrorKind bool;
  poller_open : St → option N → St * res ErrorKind Handle;
  poller_clone : St → Handle → St * res ErrorKind Handle;
  poller_register : St → Handle → Handle → Interest → St * res ErrorKind ();
  poller_reregister : St → Handle → Handle → Interest → St * res ErrorKind ();
  poller_deregister : St → Handle → Handle → St * res ErrorKind ();
  poller_poll_once : St → Handle → option N → St * res ErrorKind ();
  poller_close : St → Handle → St * res ErrorKind ();
  tcp_listener_local_addr : St → Handle → St * res ErrorKind A;
  tcp_stream_local_addr : St → Handle → St * res ErrorKind A;
  tcp_stream_remote_addr : St → Handle → St * res ErrorKind A;
  tcp_stream_shutdown : St → Handle → nat → St * res ErrorKind ();
  udp_local_addr : St → Handle → St * res ErrorKind A;
}.

(** ** [RawDriverExtProxy] *)
Section proxy.
Context {A St : Type} `{!RawDriverExt A St}.

(** [f()?] before a call of the driver. *)
Definition guard_call {B C} (s : St) (r : res ErrorKind B) (k : B → St * res ErrorKind C) :
    St * res ErrorKind C :=
  match r with Ok b => k b | Err e => (s, Err e) | Panic => (s, Panic) end.

(** [call.map(f)], for a call that writes to no buffer, and for one that does. *)
Definition resp {B} (f : B → CmdResp A) (r : St * res ErrorKind B) :
    St * list byte * res ErrorKind (CmdResp A) :=
  (r.1, [], f <$> r.2).
Definition resp_buf {B} (buf : B → list byte) (f : B → CmdResp A) (r : St * res ErrorKind B) :
    St * list byte * res ErrorKind (CmdResp A) :=
  (r.1, match r.2 with Ok b => buf b | _ => [] end, f <$> r.2).

Definition invalid (s : St) : St * list byte * res ErrorKind (CmdResp A) :=
  (s, [], Err InvalidInput).

(** [handle.expect(d)?], then the call. *)
Definition expecting (s : St) (h : Handle) (d : Description)
    (k : St * list byte * res ErrorKind (CmdResp A)) : St * list byte * res ErrorKind (CmdResp A) :=
  match expect h d with Ok _ => k | Err e => (s, [], Err e) | Panic => (s, [], Panic) end.

Definition proxy_open (s : St) (d : Description) (flags : OpenFlags A) : St * res ErrorKind Handle :=
  match d with
  | File => guard_call s (try_into_open_file flags) (λ '(path, mode), file_open s path mode)
  | TcpListener => guard_call s (try_into_bind flags) (λ laddrs, tcp_listener_bind s laddrs)
  | TcpStream => guard_call s (try_into_connect flags) (λ laddrs, tcp_stream_connect s laddrs)
  | UdpSocket => guard_call s (try_into_bind flags) (λ laddrs, udp_socket_bind s laddrs)
  | Timeout => guard_call s (try_into_duration flags) (λ duration, timeout_open s duration)
  | Poller =>
      poller_open s (match flags with FlagsDuration duration => Some duration | _ => None end)
  | External id =>
      guard_call s (try_into_user_defined flags) (λ buf, fd_user_define_open s id buf)
  end.

Definition proxy_cntl (s : St) (h : Handle) (cmd : Cmd A) :
    St * list byte * res ErrorKind (CmdResp A) :=
  match cmd with
  | CmdRead waker len =>
      match desc h with
      | File => resp_buf id (λ d, RespDataLen (length d)) (file_read s waker h len)
      | TcpStream => resp_buf id (λ d, RespDataLen (length d)) (tcp_stream_read s waker h len)
      | _ => invalid s
      end
  | CmdWrite waker buf =>
      match desc h with
      | File => resp RespDataLen (file_write s waker h buf)
      | TcpStream => resp RespDataLen (tcp_stream_write s waker h buf)
      | _ => invalid s
      end
  | CmdSendTo waker buf raddr =>
      expecting s h UdpSocket (resp RespDataLen (udp_socket_sendto s waker h buf raddr))
  | CmdRecvFrom waker len =>
      expecting s h UdpSocket
        (resp_buf fst (λ x, RespRecvFrom (length x.1) x.2) (udp_socket_recv_from s waker h len))
  | CmdRegister source interests =>
      expecting s h Poller (resp (λ _, RespNone) (poller_register s h source interests))
  | CmdReRegister source interests =>
      expecting s h Poller (resp (λ _, RespNone) (poller_reregister s h source interests))
  | CmdAccept waker =>
      expecting s h TcpListener
        (resp (λ x, RespIncoming x.1 x.2) (tcp_listener_accept s waker h))
  | CmdPollOnce duration =>
      expecting s h Poller (resp (λ _, RespNone) (poller_poll_once s h duration))
  | CmdTryClone =>
      match desc h with
      | Poller => resp RespCloned (poller_clone s h)
      | _ => resp RespCloned (fd_user_define_clone s h)
      end
  | CmdTimeout waker => expecting s h Timeout (resp RespTimeout (timeout s waker h))
  | CmdLocalAddr =>
      match desc h with
      | TcpListener => resp RespSockAddr (tcp_listener_local_addr s h)
      | TcpStream => resp RespSockAddr (tcp_stream_local_addr s h)
      | UdpSocket => resp RespSockAddr (udp_local_addr s h)
      | _ => invalid s
      end
  | CmdRemoteAddr =>
      match desc h with
      | TcpStream => resp RespSockAddr (tcp_stream_remote_addr s h)
      | _ => invalid s
      end
  | CmdShutdown how =>
      match desc h with
      | TcpStream => resp (λ _, RespNone) (tcp_stream_shutdown s h how)
      | _ => invalid s
      end
  | CmdBroadCast =>
      match desc h with
      | UdpSocket => resp (λ _, RespNone) (udp_socket_get_broadcast s h)
      | _ => invalid s
      end
  | CmdSetBroadCast on =>
      match desc h with
      | UdpSocket => resp (λ _, RespNone) (udp_socket_set_broadcast s h on)
      | _ => invalid s
      end
  end.

Definition proxy_close (s : St) (h : Handle) : St * res ErrorKind () :=
  match desc h with
  | File => file_close s h
  | TcpListener => tcp_listener_close s h
  | TcpStream => tcp_stream_close s h
  | UdpSocket => udp_socket_close s h
  | Timeout => timeout_close s h
  | Poller => poller_close s h
  | External id => fd_user_define_close s id h
  end.
End proxy.

(** [impl RawDriver for RawDriverExtProxy<T>]. *)
#[export] Instance RawDriverExtProxy {A St} `{!RawDriverExt A St} : RawDriver A St := {
  fd_open := proxy_open;
  fd_cntl := proxy_cntl;
  fd_close := proxy_close;
}.

(** ** What the proxy promises *)

(** The flags that suit a file type, and the commands. *)
Definition accepts_open {A} (d : Description) (flags : OpenFlags A) : bool :=
  match d, flags with
  | File, OpenFile _ _ | TcpListener, Bind _ | TcpStream, Connect _ | UdpSocket, Bind _
  | Timeout, FlagsDuration _ | Poller, _ | External _, UserDefined _ => true
  | _, _ => false
  end.

Definition accepts_cmd {A} (cmd : Cmd A) (d : Description) : bool :=
  match cmd, d with
  | (CmdRead _ _ | CmdWrite _ _), (File | TcpStream)
  | (CmdSendTo _ _ _ | CmdRecvFrom _ _ | CmdBroadCast | CmdSetBroadCast _), UdpSocket
  | (CmdRegister _ _ | CmdReRegister _ _ | CmdPollOnce _), Poller
  | CmdAccept _, TcpListener
  | CmdTryClone, _
  | CmdTimeout _, Timeout
  | CmdLocalAddr, (TcpListener | TcpStream | UdpSocket)
  | (CmdRemoteAddr | CmdShutdown _), TcpStream => true
  | _, _ => false
  end.

(** The response to a command, given the bytes written to the caller's buffer.  The
    answer to [CmdBroadCast] is [RespNone]. *)
Definition answers {A} (cmd : Cmd A) (buf : list byte) (r : CmdResp A) : Prop :=
  match cmd, r with
  | CmdRead _ _, RespDataLen n => n = length buf
  | CmdRecvFrom _ _, RespRecvFrom n _ => n = length buf
  | (CmdWrite _ _ | CmdSendTo _ _ _), RespDataLen _ => buf = []
  | CmdAccept _, RespIncoming _ _ => buf = []
  | CmdTryClone, RespCloned _ => buf = []
  | CmdTimeout _, RespTimeout _ => buf = []
  | (CmdLocalAddr | CmdRemoteAddr), RespSockAddr _ => buf = []
  | (CmdRegister _ _ | CmdReRegister _ _ | CmdPollOnce _ | CmdShutdown _ | CmdBroadCast
     | CmdSetBroadCast _), RespNone => buf = []
  | _, _ => False
  end.

Section proxy_lemmas.
Context {A St : Type} `{!RawDriverExt A St}.
Implicit Types (s : St) (h : Handle) (cmd : Cmd A).

Lemma resp_ok {B} (f : B → CmdResp A) (call : St * res ErrorKind B) s' buf r :
  resp f call = (s', buf, Ok r) → buf = [] ∧ ∃ b, r = f b.
Proof. unfold resp. destruct call as [s [b|e|]]; simpl; intros [= <- <- <-]. eauto. Qed.

Lemma resp_buf_ok {B} (g : B → list byte) (f : B → CmdResp A) (call : St * res ErrorKind B) s' buf r :
  resp_buf g f call = (s', buf, Ok r) → ∃ b, buf = g b ∧ r = f b.
Proof. unfold resp_buf. destruct call as [s [b|e|]]; simpl; intros [= <- <- <-]. eauto. Qed.

Lemma expecting_eq s h d (k : St * list byte * res ErrorKind (CmdResp A)) :
  expecting s h d k = if decide (desc h = d) then k else invalid s.
Proof. unfold expecting, expect. by case_decide. Qed.

(** The results of a call that is not a mismatch. *)
Lemma cntl_answers s h cmd s' buf r : proxy_cntl s h cmd = (s', buf, Ok r) → answers cmd buf r.
Proof.
  intros Hc. destruct cmd; simpl in Hc; rewrite ?expecting_eq in Hc;
    try (case_decide; [|done]); try destruct (desc h); try done.
  all: first [apply resp_ok in Hc as [-> [? ->]]; done
             |apply resp_buf_ok in Hc as (?&->&->); done].
Qed.

Lemma cntl_rejects s h cmd : accepts_cmd cmd (desc h) = false → proxy_cntl s h cmd = invalid s.
Proof.
  destruct cmd; simpl; rewrite ?expecting_eq; destruct (desc h); simpl; try done;
    by rewrite decide_False.
Qed.

Lemma open_rejects s d flags :
  accepts_open d flags = false → proxy_open (A:=A) s d flags = (s, Err InvalidInput).
Proof. by destruct d, flags. Qed.
End proxy_lemmas.

(** ** Properties *)

(** Whatever the implementation, a file type and flags or a command that do not
    fit are rejected with [InvalidInput] without calling the implementation: its
    state is unchanged and no byte is written to the caller's buffer. *)
Theorem proxy_rejects_mismatch {A St} `{!RawDriverExt A St} (s : St) (h : Handle)
    (d : Description) (flags : OpenFlags A) (cmd : Cmd A) :
  (accepts_open d flags = false → fd_open s d flags = (s, Err InvalidInput)) ∧
  (accepts_cmd cmd (desc h) = false → fd_cntl s h cmd = (s, [], Err InvalidInput)).
Proof. split; [apply open_rejects|apply cntl_rejects]. Qed.

(** C29. Whatever the implementation, a successful [fd_cntl] was a command that fits the
    handle, and its response has the form its caller converts it to ([try_into_*]
    succeeds), with the length of the bytes written, with one exception: the answer
    to [BroadCast] is [None]. *)
Theorem proxy_responses_typed {A St} `{!RawDriverExt A St} (s s' : St) (h : Handle)
    (cmd : Cmd A) (buf : list byte) (r : CmdResp A) :
  fd_cntl s h cmd = (s', buf, Ok r) → accepts_cmd cmd (desc h) = true ∧ answers cmd buf r.
Proof.
  intros Hc. split; [|exact (cntl_answers _ _ _ _ _ _ Hc)].
  destruct (accepts_cmd cmd (desc h)) eqn:Ha; [done|].
  apply (cntl_rejects s) in Ha. simpl in Hc. rewrite Ha in Hc. done.
Qed.

(** ** Witnesses: an implementation that counts its calls *)
Definition a_handle (d : Description) : Handle :=
  {| token := 1; desc := d; user_defined_desc := None; data := 0 |}.

#[export] Instance CountingDriver : RawDriverExt nat nat := {
  fd_user_define_open s _ _ := (S s, Ok (a_handle (External 0)));
  fd_user_define_close s _ _ := (S s, Ok ());
  fd_user_define_clone s h := (S s, Ok h);
  file_open s _ _ := (S s, Ok (a_handle File));
  file_write s _ _ buf := (S s, Ok (length buf));
  file_read s _ _ n := (S s, Ok (replicate n x00));
  file_close s _ := (S s, Ok ());
  timeout_open s _ := (S s, Ok (a_handle Timeout));
  timeout s _ _ := (S s, Ok true);
  timeout_close s _ := (S s, Ok ());
  tcp_listener_bind s _ := (S s, Ok (a_handle TcpListener));
  tcp_listener_accept s _ _ := (S s, Ok (a_handle TcpStream, 80));
  tcp_listener_close s _ := (S s, Ok ());
  tcp_stream_connect s _ := (S s, Ok (a_handle TcpStream));
  tcp_stream_write s _ _ buf := (S s, Ok (length buf));
  tcp_stream_read s _ _ n := (S s, Ok (replicate n x00));
  tcp_stream_close s _ := (S s, Ok ());
  udp_socket_bind s _ := (S s, Ok (a_handle UdpSocket));
  udp_socket_sendto s _ _ buf raddr :=
    (S s, if decide (raddr = 0) then Err ConnectionRefused else Ok (length buf));
  udp_socket_recv_from s _ _ n := (S s, Ok (replicate n x00, 80));
  udp_socket_close s _ := (S s, Ok ());
  udp_socket_set_broadcast s _ _ := (S s, Ok ());
  udp_socket_get_broadcast s _ := (S s, Ok true);
  poller_open s _ := (S s, Ok (a_handle Poller));
  poller_clone s h := (S s, Ok h);
  poller_register s _ _ _ := (S s, Ok ());
  poller_reregister s _ _ _ := (S s, Ok ());
  poller_deregister s _ _ := (S s, Ok ());
  poller_poll_once s _ _ := (S s, Ok ());
  poller_close s _ := (S s, Ok ());
  tcp_listener_local_addr s _ := (S s, Ok 80);
  tcp_stream_local_addr s _ := (S s, Ok 80);
  tcp_stream_remote_addr s _ := (S s, Ok 80);
  tcp_stream_shutdown s _ _ := (S s, Ok ());
  udp_local_addr s _ := (S s, Ok 80);
}.

Lemma proxy_rejects_mismatch_witness :
  fd_open 5 TcpStream (Bind [80]) = (5, Err InvalidInput) ∧
  fd_cntl 5 (a_handle UdpSocket) (CmdAccept 1) = (5, [], Err InvalidInput).
Proof.
  destruct (proxy_rejects_mismatch (A:=nat) (St:=nat) 5 (a_handle UdpSocket) TcpStream (Bind [80]) (CmdAccept 1))
    as [H1 H2].
  split; [by apply H1|by apply H2].
Defined.

Lemma proxy_responses_typed_witness :
  answers (A:=nat) (CmdRead 1 3) (replicate 3 x00) (RespDataLen 3).
Proof.
  destruct (proxy_responses_typed (A:=nat) (St:=nat) 5 6 (a_handle File) (CmdRead 1 3)
    (replicate 3 x00) (RespDataLen 3)) as [_ H]; [by vm_compute|exact H].
Defined.
