(* ===== verification/DriverTable.v ===== *)
(** * crates/io/src/driver.rs: [Driver], an implementation behind a table of functions

    A [Driver] is a pointer to a box that starts with a table of five function pointers,
    and every function casts the pointer back to the header of the implementation's type.
    A function pointer is here the type it was instantiated at; a cast to another
    type, or the use of a freed box, is undefined behaviour in the source and [Panic]
    here. *)

From S2P Require Import Prelude IoDriver.

Section table.
(** The types that implement [RawDriver] with [Clone], their values with the state that
    they share, and their methods. *)
Context {A St T Obj : Type} `{EqDecision T}.
Context (type_of : Obj → T).
Context (raw_open : Obj → St → Description → OpenFlags A → St * res ErrorKind Handle).
Context (raw_cntl : Obj → St → Handle → Cmd A → St * list byte * res ErrorKind (CmdResp A)).
Context (raw_close : Obj → St → Handle → St * res ErrorKind ()).
Context (raw_clone : Obj → Obj) (raw_drop : Obj → St → St).

Record DriverVTable := {
  fn_open : T;
  fn_cntl : T;
  fn_close : T;
  fn_clone : T;
  fn_drop : T;
}.

(** [DriverVTable::new::<R>]. *)
Definition DriverVTable_new (t : T) : DriverVTable :=
  {| fn_open := t; fn_cntl := t; fn_close := t; fn_clone := t; fn_drop := t |}.

Record DriverHeader := { vtable : DriverVTable; header_data : Obj }.

Record Memory := { boxes : gmap nat DriverHeader; next_box : nat; shared : St }.
Definition set_shared (s : St) (m : Memory) : Memory :=
  {| boxes := boxes m; next_box := next_box m; shared := s |}.

#[local] Abbreviation M := (sm Memory ErrorKind).

(** [Box::into_raw(Box::new(header))]. *)
Definition box_new (h : DriverHeader) : M nat := λ m,
  ({| boxes := <[next_box m := h]> (boxes m); next_box := S (next_box m); shared := shared m |},
   Ok (next_box m)).

(** [self.ptr.as_ref()], and [ptr.cast::<DriverHeader<R>>()] in a function of [R]. *)
Definition deref (ptr : nat) : M DriverHeader := λ m, (m, unwrap (boxes m !! ptr)).
Definition cast (t : T) (ptr : nat) : M DriverHeader :=
  h ← deref ptr;
  if decide (type_of (header_data h) = t) then mret h else panic.

(** A method of the implementation. *)
Definition method {B} (f : St → St * res ErrorKind B) : M B := λ m,
  let '(s, r) := f (shared m) in (set_shared s m, r).

(** The five functions, instantiated at [t]. *)
Definition vt_open (t : T) (ptr : nat) (d : Description) (flags : OpenFlags A) : M Handle :=
  h ← cast t ptr; method (λ s, raw_open (header_data h) s d flags).
Definition vt_cntl (t : T) (ptr : nat) (handle : Handle) (cmd : Cmd A) :
    M (list byte * res ErrorKind (CmdResp A)) :=
  h ← cast t ptr;
  method (λ s, let '(s, buf, r) := raw_cntl (header_data h) s handle cmd in (s, Ok (buf, r))).
Definition vt_close (t : T) (ptr : nat) (handle : Handle) : M () :=
  h ← cast t ptr; method (λ s, raw_close (header_data h) s handle).
Definition vt_clone (t : T) (ptr : nat) : M nat :=
  h ← cast t ptr; box_new {| vtable := vtable h; header_data := raw_clone (header_data h) |}.
Definition vt_drop (t : T) (ptr : nat) : M () :=
  h ← cast t ptr;
  modify (λ m, {| boxes := delete ptr (boxes m); next_box := next_box m;
                  shared := raw_drop (header_data h) (shared m) |}).

(** [Driver]. *)
Definition Driver_new (raw : Obj) : M nat :=
  box_new {| vtable := DriverVTable_new (type_of raw); header_data := raw |}.
Definition Driver_fd_open (ptr : nat) (d : Description) (flags : OpenFlags A) : M Handle :=
  h ← deref ptr; vt_open (fn_open (vtable h)) ptr d flags.
Definition Driver_fd_cntl (ptr : nat) (handle : Handle) (cmd : Cmd A) :
    M (list byte * res ErrorKind (CmdResp A)) :=
  h ← deref ptr; vt_cntl (fn_cntl (vtable h)) ptr handle cmd.
Definition Driver_fd_close (ptr : nat) (handle : Handle) : M () :=
  h ← deref ptr; vt_close (fn_close (vtable h)) ptr handle.
Definition Driver_clone (ptr : nat) : M nat := h ← deref ptr; vt_clone (fn_clone (vtable h)) ptr.
Definition Driver_drop (ptr : nat) : M () := h ← deref ptr; vt_drop (fn_drop (vtable h)) ptr.

(** ** The same without the table: each driver is its implementation *)
Record Direct := { drivers : gmap nat Obj; next_driver : nat; direct_shared : St }.

Inductive op :=
| New (raw : Obj)
| Open (ptr : nat) (d : Description) (flags : OpenFlags A)
| Cntl (ptr : nat) (handle : Handle) (cmd : Cmd A)
| Close (ptr : nat) (handle : Handle)
| Clone (ptr : nat)
| DropDriver (ptr : nat).

Inductive answer :=
| ADriver (r : res ErrorKind nat)
| AHandle (r : res ErrorKind Handle)
| AResp (r : res ErrorKind (list byte * res ErrorKind (CmdResp A)))
| AUnit (r : res ErrorKind ()).

Definition exec (o : op) (m : Memory) : Memory * answer :=
  match o with
  | New raw => let '(m, r) := Driver_new raw m in (m, ADriver r)
  | Open ptr d flags => let '(m, r) := Driver_fd_open ptr d flags m in (m, AHandle r)
  | Cntl ptr handle cmd => let '(m, r) := Driver_fd_cntl ptr handle cmd m in (m, AResp r)
  | Close ptr handle => let '(m, r) := Driver_fd_close ptr handle m in (m, AUnit r)
  | Clone ptr => let '(m, r) := Driver_clone ptr m in (m, ADriver r)
  | DropDriver ptr => let '(m, r) := Driver_drop ptr m in (m, AUnit r)
  end.

Definition add_driver (raw : Obj) (d : Direct) : Direct :=
  {| drivers := <[next_driver d := raw]> (drivers d); next_driver := S (next_driver d);
     direct_shared := direct_shared d |}.
Definition set_direct (s : St) (d : Direct) : Direct :=
  {| drivers := drivers d; next_driver := next_driver d; direct_shared := s |}.

(** [None]: the driver is not alive, which the borrow checker excludes. *)
Definition direct (o : op) (d : Direct) : option (Direct * answer) :=
  match o with
  | New raw => Some (add_driver raw d, ADriver (Ok (next_driver d)))
  | Open ptr desc flags =>
      raw ← drivers d !! ptr;
      let '(s, r) := raw_open raw (direct_shared d) desc flags in Some (set_direct s d, AHandle r)
  | Cntl ptr handle cmd =>
      raw ← drivers d !! ptr;
      let '(s, buf, r) := raw_cntl raw (direct_shared d) handle cmd in
      Some (set_direct s d, AResp (Ok (buf, r)))
  | Close ptr handle =>
      raw ← drivers d !! ptr;
      let '(s, r) := raw_close raw (direct_shared d) handle in Some (set_direct s d, AUnit r)
  | Clone ptr =>
      raw ← drivers d !! ptr; Some (add_driver (raw_clone raw) d, ADriver (Ok (next_driver d)))
  | DropDriver ptr =>
      raw ← drivers d !! ptr;
      Some ({| drivers := delete ptr (drivers d); next_driver := next_driver d;
               direct_shared := raw_drop raw (direct_shared d) |}, AUnit (Ok ()))
  end.

Fixpoint exec_all (ops : list op) (m : Memory) : Memory * list answer :=
  match ops with
  | [] => (m, [])
  | o :: ops => let '(m, a) := exec o m in let '(m, l) := exec_all ops m in (m, a :: l)
  end.
Fixpoint direct_all (ops : list op) (d : Direct) : option (Direct * list answer) :=
  match ops with
  | [] => Some (d, [])
  | o :: ops =>
      '(d, a) ← direct o d; '(d, l) ← direct_all ops d; Some (d, a :: l)
  end.

(** ** The simulation *)

(** The box of a driver. *)
Definition header_of (raw : Obj) : DriverHeader :=
  {| vtable := DriverVTable_new (type_of raw); header_data := raw |}.

Record simulates (m : Memory) (d : Direct) : Prop := {
  sim_boxes : boxes m = header_of <$> drivers d;
  sim_next : next_box m = next_driver d;
  sim_shared : shared m = direct_shared d;
}.

(** A clone has the type of the original. *)
Context (clone_type : ∀ raw, type_of (raw_clone raw) = type_of raw).

Lemma deref_known m d ptr raw :
  simulates m d → drivers d !! ptr = Some raw → deref ptr m = (m, Ok (header_of raw)).
Proof. intros [Hb _ _] Hp. unfold deref. by rewrite Hb, lookup_fmap, Hp. Qed.

Lemma cast_known m d ptr raw :
  simulates m d → drivers d !! ptr = Some raw → cast (type_of raw) ptr m = (m, Ok (header_of raw)).
Proof.
  intros Hs Hp. unfold cast. rewrite (bind_known _ _ _ _ _ (deref_known _ _ _ _ Hs Hp)). simpl.
  by rewrite decide_True.
Qed.

Lemma sim_shared_set m d s : simulates m d → simulates (set_shared s m) (set_direct s d).
Proof. intros [Hb Hn Hs]. by split. Qed.

Lemma sim_add m d raw h :
  simulates m d → h = header_of raw → simulates (box_new h m).1 (add_driver raw d).
Proof. intros [Hb Hn Hs] ->. split; simpl; [by rewrite Hb, Hn, fmap_insert|by rewrite Hn|done]. Qed.

Lemma exec_simulates o m d d' a :
  simulates m d → direct o d = Some (d', a) → (exec o m).2 = a ∧ simulates (exec o m).1 d'.
Proof.
  intros Hs Hd. pose proof Hs as [Hb Hn Hsh]. destruct o as [raw|ptr desc flags|ptr h cmd|ptr h|ptr|ptr]; simpl in Hd.
  { injection Hd as <- <-. simpl. split; [by rewrite Hn|by apply sim_add]. }
  all: destruct (drivers d !! ptr) as [raw|] eqn:Hp; [|done]; simpl in Hd;
    pose proof (deref_known m d ptr raw Hs Hp) as Hdr; pose proof (cast_known m d ptr raw Hs Hp) as Hca.
  - unfold exec, Driver_fd_open. rewrite (bind_known _ _ _ _ _ Hdr). unfold vt_open. simpl.
    rewrite (bind_known _ _ _ _ _ Hca). unfold method. rewrite Hsh. simpl.
    destruct (raw_open raw _ desc flags) as [s r]. injection Hd as <- <-. split; [done|by apply sim_shared_set].
  - unfold exec, Driver_fd_cntl. rewrite (bind_known _ _ _ _ _ Hdr). unfold vt_cntl. simpl.
    rewrite (bind_known _ _ _ _ _ Hca). unfold method. rewrite Hsh. simpl.
    destruct (raw_cntl raw _ h cmd) as [[s buf] r]. injection Hd as <- <-. split; [done|by apply sim_shared_set].
  - unfold exec, Driver_fd_close. rewrite (bind_known _ _ _ _ _ Hdr). unfold vt_close. simpl.
    rewrite (bind_known _ _ _ _ _ Hca). unfold method. rewrite Hsh. simpl.
    destruct (raw_close raw _ h) as [s r]. injection Hd as <- <-. split; [done|by apply sim_shared_set].
  - unfold exec, Driver_clone. rewrite (bind_known _ _ _ _ _ Hdr). unfold vt_clone. simpl.
    rewrite (bind_known _ _ _ _ _ Hca). injection Hd as <- <-. simpl. split; [by rewrite Hn|].
    apply (sim_add m d (raw_clone raw)); [done|]. unfold header_of. by rewrite clone_type.
  - unfold exec, Driver_drop. rewrite (bind_known _ _ _ _ _ Hdr). unfold vt_drop. simpl.
    rewrite (bind_known _ _ _ _ _ Hca). injection Hd as <- <-. simpl. split; [done|].
    split; simpl; [by rewrite Hb, fmap_delete|done|by rewrite Hsh].
Qed.

Lemma exec_all_simulates ops m d d' l :
  simulates m d → direct_all ops d = Some (d', l) →
  (exec_all ops m).2 = l ∧ simulates (exec_all ops m).1 d'.
Proof.
  revert m d l. induction ops as [|o ops IH]; intros m d l Hs Hd; simpl in *; [by injection Hd as <- <-|].
  destruct (direct o d) as [[d1 a]|] eqn:Ho; [|done]. simpl in Hd.
  destruct (direct_all ops d1) as [[d2 l2]|] eqn:Hl; [|done]. simpl in Hd. injection Hd as <- <-.
  destruct (exec_simulates o m d d1 a Hs Ho) as [Ha Hs1]. destruct (exec o m) as [m1 a1]. simpl in *. subst.
  destruct (IH m1 d1 l2 Hs1 Hl) as [Hl2 Hs2]. destruct (exec_all ops m1) as [m2 l3]. simpl in *. by subst.
Qed.
End table.
Arguments Memory : clear implicits.
Arguments Direct : clear implicits.
Arguments op : clear implicits.

(** ** Property *)

(** A [Driver] is its implementation, whatever the types behind the tables.  In a program
    that uses a driver only while it is alive (as the borrow checker ensures), with
    implementations of any number of types, every call through the table
    answers what the implementation answers; no function ever casts to another type or
    touches a freed box; and the boxes in memory are exactly those of the drivers alive,
    so dropping every driver frees everything. *)
Theorem driver_is_its_implementation {A St T Obj} `{EqDecision T} (type_of : Obj → T)
    (raw_open : Obj → St → Description → OpenFlags A → St * res ErrorKind Handle)
    (raw_cntl : Obj → St → Handle → Cmd A → St * list byte * res ErrorKind (CmdResp A))
    (raw_close : Obj → St → Handle → St * res ErrorKind ())
    (raw_clone : Obj → Obj) (raw_drop : Obj → St → St) (s : St)
    (ops : list (op A Obj)) (d' : Direct St Obj) (l : list (answer (A:=A))) :
  (∀ raw, type_of (raw_clone raw) = type_of raw) →
  direct_all raw_open raw_cntl raw_close raw_clone raw_drop ops
    {| drivers := ∅; next_driver := 0; direct_shared := s |} = Some (d', l) →
  let r := exec_all type_of raw_open raw_cntl raw_close raw_clone raw_drop ops
    {| boxes := ∅; next_box := 0; shared := s |} in
  r.2 = l ∧ shared r.1 = direct_shared d' ∧
  (∀ ptr, is_Some (boxes r.1 !! ptr) ↔ is_Some (drivers d' !! ptr)) ∧
  (drivers d' = ∅ → boxes r.1 = ∅).
Proof.
  intros Hc Hd r.
  destruct (exec_all_simulates type_of raw_open raw_cntl raw_close raw_clone raw_drop Hc ops
    {| boxes := ∅; next_box := 0; shared := s |} {| drivers := ∅; next_driver := 0; direct_shared := s |} d' l)
    as [Hl [Hb _ Hs]]; [by split|done|]. fold r in Hl, Hb, Hs. split_and!; [done|done| |].
  - intros ptr. rewrite Hb, lookup_fmap. apply fmap_is_Some.
  - intros He. by rewrite Hb, He, fmap_empty.
Qed.

(** Witness: implementations of two types, a boolean and a number, over the driver that counts
    its calls. *)
Definition demo_program : list (op nat (bool + nat)) :=
  [New (inl true); New (inr 3); Clone 1; DropDriver 1; Close 2 (a_handle UdpSocket);
   Open 0 Timeout FlagsNone; DropDriver 0; DropDriver 2].

Definition is_number (x : bool + nat) : bool := match x with inl _ => false | inr _ => true end.

Lemma driver_is_its_implementation_witness :
  boxes (exec_all is_number (λ _ s d f, fd_open s d f) (λ _ s h c, fd_cntl s h c) (λ _ s h, fd_close s h)
    id (λ _ s, s) demo_program {| boxes := ∅; next_box := 0; shared := 5 |}).1 = ∅.
Proof.
  destruct (driver_is_its_implementation (A:=nat) is_number (λ _ s d f, fd_open s d f)
    (λ _ s h c, fd_cntl s h c) (λ _ s h, fd_close s h) id (λ _ s, s) 5 demo_program
    {| drivers := ∅; next_driver := 3; direct_shared := 6 |}
    [ADriver (Ok 0); ADriver (Ok 1); ADriver (Ok 2); AUnit (Ok ()); AUnit (Ok ());
     AHandle (Err InvalidInput); AUnit (Ok ()); AUnit (Ok ())]) as (_&_&_&H).
  - done.
  - vm_compute. reflexivity.
  - by apply H.
Defined.
