(* ===== verification/Sockets.v ===== *)
(** * crates/net/tcp, crates/net/udp/src/udp.rs, crates/io sleep, timeout, would_block

    The sockets and the sleep future, against the interface [RawDriver].  A future is
    a state and a poll function; [poller] is the handle of the io context.  A method
    that drops a value into [unwrap] may panic. *)

From S2P Require Import Prelude IoDriver.

(** ** would_block.rs *)

(** [poll_would_block], and one poll of a [WouldBlock] future. *)
Definition poll_would_block {R} (r : res ErrorKind R) : Poll (res ErrorKind R) :=
  match r with Err WouldBlock => Pending | r => Ready r end.

Section sockets.
Context {A St : Type} `{!RawDriver A St}.

(** [fd_cntl(..)?.try_into_..()], with what was written to the buffer. *)
Definition cntl_into {R} (s : St) (h : Handle) (cmd : Cmd A)
    (into : CmdResp A → res ErrorKind R) : St * list byte * res ErrorKind R :=
  let '(s, buf, r) := fd_cntl s h cmd in (s, buf, r ≫= into).

(** The future [would_block(|cx| fd_cntl(..)?.try_into_..())], polled once. *)
Definition poll_cntl {R} (s : St) (h : Handle) (cmd : Cmd A)
    (into : CmdResp A → res ErrorKind R) : St * list byte * Poll (res ErrorKind R) :=
  let '(s, buf, r) := cntl_into s h cmd into in (s, buf, poll_would_block r).

(** The registration with the poller that every constructor makes; on failure the
    descriptor is closed and the result of the close ignored. *)
Definition register_or_close (s : St) (poller fd : Handle) (interests : Interest) :
    St * res ErrorKind Handle :=
  match fd_cntl s poller (CmdRegister fd interests) with
  | (s, _, Err e) =>
      match fd_close s fd with
      | (s, Panic) => (s, Panic)
      | (s, _) => (s, Err e)
      end
  | (s, _, Panic) => (s, Panic)
  | (s, _, Ok _) => (s, Ok fd)
  end.

(** [Drop]: [self.driver.fd_close(self.fd).unwrap()]. *)
Definition socket_drop (s : St) (fd : Handle) : St * res ErrorKind () :=
  match fd_close s fd with
  | (s, Ok _) => (s, Ok ())
  | (s, _) => (s, Panic)
  end.

(** *** tcp/src/stream.rs; a stream is its descriptor *)
Definition TcpStream_new_with (s : St) (fd poller : Handle) : St * res ErrorKind Handle :=
  register_or_close s poller fd (Interest_or Readable Writable).

(** [raddrs] is the result of [to_socket_addrs]. *)
Definition TcpStream_connect (s : St) (poller : Handle) (raddrs : res ErrorKind (list A)) :
    St * res ErrorKind Handle :=
  guard_call s raddrs (λ raddrs,
    let '(s, r) := fd_open s TcpStream (Connect raddrs) in
    guard_call s r (λ fd, TcpStream_new_with s fd poller)).

Definition TcpStream_local_addr (s : St) (fd : Handle) : St * list byte * res ErrorKind A :=
  cntl_into s fd CmdLocalAddr try_into_sockaddr.
Definition TcpStream_shutdown (s : St) (fd : Handle) (how : nat) : St * list byte * res ErrorKind () :=
  cntl_into s fd (CmdShutdown how) (λ _, Ok ()).
Definition TcpStream_remote_addr (s : St) (fd : Handle) : St * list byte * res ErrorKind A :=
  cntl_into s fd CmdRemoteAddr try_into_sockaddr.

Definition TcpStream_poll_write (s : St) (fd : Handle) (waker : nat) (buf : list byte) :
    St * list byte * Poll (res ErrorKind nat) :=
  poll_cntl s fd (CmdWrite waker buf) try_into_datalen.
Definition TcpStream_poll_flush (s : St) (fd : Handle) : St * Poll (res ErrorKind ()) :=
  (s, Ready (Ok ())).
(** [Shutdown::Both] is 2. *)
Definition TcpStream_poll_close (s : St) (fd : Handle) : St * Poll (res ErrorKind ()) :=
  let '(s, _, r) := TcpStream_shutdown s fd 2 in (s, Ready r).
Definition TcpStream_poll_read (s : St) (fd : Handle) (waker len : nat) :
    St * list byte * Poll (res ErrorKind nat) :=
  poll_cntl s fd (CmdRead waker len) try_into_datalen.

(** *** tcp/src/listener.rs *)
Definition TcpListener_bind (s : St) (poller : Handle) (laddrs : res ErrorKind (list A)) :
    St * res ErrorKind Handle :=
  guard_call s laddrs (λ laddrs,
    let '(s, r) := fd_open s TcpListener (Bind laddrs) in
    guard_call s r (λ fd, register_or_close s poller fd Readable)).

(** One poll of [accept]. *)
Definition TcpListener_accept (s : St) (fd poller : Handle) (waker : nat) :
    St * Poll (res ErrorKind (Handle * A)) :=
  let '(s, _, r) := fd_cntl s fd (CmdAccept waker) in
  match poll_would_block r with
  | Pending => (s, Pending)
  | Ready r =>
      match r ≫= try_into_incoming with
      | Ok (handle, raddr) =>
          let '(s, r) := TcpStream_new_with s handle poller in
          (s, Ready ((λ stream, (stream, raddr)) <$> r))
      | Err e => (s, Ready (Err e))
      | Panic => (s, Ready Panic)
      end
  end.

Definition TcpListener_local_addr (s : St) (fd : Handle) : St * list byte * res ErrorKind A :=
  cntl_into s fd CmdLocalAddr try_into_sockaddr.

(** *** udp/src/udp.rs *)
Definition UdpSocket_bind (s : St) (poller : Handle) (laddrs : res ErrorKind (list A)) :
    St * res ErrorKind Handle :=
  guard_call s laddrs (λ laddrs,
    let '(s, r) := fd_open s UdpSocket (Bind laddrs) in
    guard_call s r (λ fd, register_or_close s poller fd (Interest_or Readable Writable))).

Definition UdpSocket_local_addr (s : St) (fd : Handle) : St * list byte * res ErrorKind A :=
  cntl_into s fd CmdLocalAddr try_into_sockaddr.

(** One attempt of [send_to]. *)
Definition send_attempt (s : St) (fd : Handle) (waker : nat) (buf : list byte) (raddr : A) :
    St * Poll (res ErrorKind nat) :=
  let '(s, _, r) := poll_cntl s fd (CmdSendTo waker buf raddr) try_into_datalen in (s, r).

(** One poll of [send_to]: the addresses still to try (the first one may be
    waiting) and the last error; the answer, or the same to poll again. *)
Fixpoint UdpSocket_send_to (s : St) (fd : Handle) (waker : nat) (buf : list byte)
    (raddrs : list A) (last_error : option ErrorKind) :
    St * (list A * option ErrorKind) * Poll (res ErrorKind nat) :=
  match raddrs with
  | [] =>
      (s, ([], last_error), Ready (match last_error with Some e => Err e | None => Panic end))
  | raddr :: rest =>
      match send_attempt s fd waker buf raddr with
      | (s, Pending) => (s, (raddr :: rest, last_error), Pending)
      | (s, Ready (Ok n)) => (s, (rest, last_error), Ready (Ok n))
      | (s, Ready (Err e)) => UdpSocket_send_to s fd waker buf rest (Some e)
      | (s, Ready Panic) => (s, (rest, last_error), Ready Panic)
      end
  end.

Definition UdpSocket_recv_from (s : St) (fd : Handle) (waker len : nat) :
    St * list byte * Poll (res ErrorKind (nat * A)) :=
  poll_cntl s fd (CmdRecvFrom waker len) try_into_recv_from.

Definition UdpSocket_broadcast (s : St) (fd : Handle) : St * list byte * Poll (res ErrorKind bool) :=
  poll_cntl s fd CmdBroadCast try_into_broadcast.
Definition UdpSocket_set_broadcast (s : St) (fd : Handle) (on : bool) :
    St * list byte * Poll (res ErrorKind ()) :=
  poll_cntl s fd (CmdSetBroadCast on) try_into_none.

(** *** sleep.rs *)
Record Sleep := { sleep_fd : option Handle; expired : N; sleep_poller : Handle }.
Definition Sleep_new_with (poller : Handle) (expired : N) : res ErrorKind Sleep :=
  Ok {| sleep_fd := None; expired := expired; sleep_poller := poller |}.
Definition Sleep_set_fd (self : Sleep) (fd : Handle) : Sleep :=
  {| sleep_fd := Some fd; expired := expired self; sleep_poller := sleep_poller self |}.

(** The part of [poll] after the descriptor is created. *)
Definition Sleep_check (s : St) (self : Sleep) (fd : Handle) (waker : nat) :
    St * Sleep * Poll (res ErrorKind ()) :=
  match cntl_into s fd (CmdTimeout waker) try_into_timeout with
  | (s, _, Ok true) => (s, self, Ready (Ok ()))
  | (s, _, Ok false) => (s, self, Pending)
  | (s, _, Err e) => (s, self, Ready (Err e))
  | (s, _, Panic) => (s, self, Ready Panic)
  end.

Definition Sleep_poll (s : St) (self : Sleep) (waker : nat) : St * Sleep * Poll (res ErrorKind ()) :=
  match sleep_fd self with
  | Some fd => Sleep_check s self fd waker
  | None =>
      match fd_open s Timeout (FlagsDuration (expired self)) with
      | (s, Err e) => (s, self, Ready (Err e))
      | (s, Panic) => (s, self, Ready Panic)
      | (s, Ok fd) =>
          let self := Sleep_set_fd self fd in
          match fd_cntl s (sleep_poller self) (CmdRegister fd Readable) with
          | (s, _, Err e) => (s, self, Ready (Err e))
          | (s, _, Panic) => (s, self, Ready Panic)
          | (s, _, Ok _) => Sleep_check s self fd waker
          end
      end
  end.

(** [Drop for Sleep]. *)
Definition Sleep_drop (s : St) (self : Sleep) : St * res ErrorKind () :=
  match sleep_fd self with Some fd => socket_drop s fd | None => (s, Ok ()) end.

(** *** timeout.rs *)

(** The sleep that [timeout] waits for beside its future: none without a duration or
    with a zero one. *)
Definition timeout_start (poller : Handle) (expired : option N) : option Sleep :=
  match expired with
  | Some expired =>
      if decide (expired = 0%N) then None
      else Some {| sleep_fd := None; expired := expired; sleep_poller := poller |}
  | None => None
  end.

(** The sleep inside [select!]: its result is ignored. *)
Definition timeout_sleep {R} (s : St) (sl : Sleep) (waker : nat) :
    St * Sleep * Poll (res ErrorKind R) :=
  match Sleep_poll s sl waker with
  | (s, sl, Ready Panic) => (s, sl, Ready Panic)
  | (s, sl, Ready _) => (s, sl, Ready (Err TimedOut))
  | (s, sl, Pending) => (s, sl, Pending)
  end.

(** One poll of [timeout]: [select!] polls both futures, in an order it draws
    ([fut_first]). *)
Definition timeout_poll {F R} (fpoll : St → F → St * F * Poll (res ErrorKind R))
    (fut_first : bool) (s : St) (fut : F) (sl : option Sleep) (waker : nat) :
    St * F * option Sleep * Poll (res ErrorKind R) :=
  match sl with
  | None => let '(s, fut, r) := fpoll s fut in (s, fut, None, r)
  | Some sl =>
      if fut_first then
        match fpoll s fut with
        | (s, fut, Ready r) => (s, fut, Some sl, Ready r)
        | (s, fut, Pending) =>
            let '(s, sl, r) := timeout_sleep s sl waker in (s, fut, Some sl, r)
        end
      else
        match timeout_sleep s sl waker with
        | (s, sl, Ready r) => (s, fut, Some sl, Ready r)
        | (s, sl, Pending) => let '(s, fut, r) := fpoll s fut in (s, fut, Some sl, r)
        end
  end.
End sockets.

(** ** What a driver promises about descriptors

    [opened] is the set of the tokens of the open descriptors. *)
Class RawDriverLaws (A St : Type) `{!RawDriver A St} (opened : St → gset nat) : Prop := {
  law_open (s : St) d f s' r : fd_open s d f = (s', r) →
    match r with
    | Ok h => opened s' = {[token h]} ∪ opened s ∧ token h ∉ opened s
    | _ => opened s' = opened s
    end;
  law_cntl (s : St) h cmd s' buf r : fd_cntl s h cmd = (s', buf, r) →
    match cmd, r with
    | CmdAccept _, Ok (RespIncoming h' _) | CmdTryClone, Ok (RespCloned h') =>
        opened s' = {[token h']} ∪ opened s ∧ token h' ∉ opened s
    | _, _ => opened s' = opened s
    end;
  law_close (s : St) h : token h ∈ opened s →
    ∃ s', fd_close s h = (s', Ok ()) ∧ opened s' = opened s ∖ {[token h]};
}.

Section descriptors.
Context {A St : Type} `{!RawDriver A St} (opened : St → gset nat).
Context `{!RawDriverLaws A St opened}.

(** A descriptor that was just opened, given to [register_or_close]. *)
Lemma register_or_close_opened s0 s poller fd i s' r :
  opened s = {[token fd]} ∪ opened s0 → token fd ∉ opened s0 →
  register_or_close s poller fd i = (s', r) →
  match r with
  | Ok h => h = fd ∧ opened s' = {[token fd]} ∪ opened s0
  | Err _ => opened s' = opened s0
  | Panic => True
  end.
Proof.
  intros Ho Hf. unfold register_or_close.
  destruct (fd_cntl s poller (CmdRegister fd i)) as [[s1 buf] r1] eqn:Hc.
  apply law_cntl in Hc. simpl in Hc. destruct r1 as [x|e|].
  - intros [= <- <-]. split; [done|]. rewrite <-Ho. by destruct x.
  - destruct (law_close s1 fd) as (s2&->&H2); [rewrite Hc, Ho; set_solver|].
    intros [= <- <-]. rewrite H2, Hc, Ho. set_solver.
  - by intros [= <- <-].
Qed.

(** A constructor: resolve the addresses, open, register. *)
Lemma constructor_opened s poller d f i (raddrs : res ErrorKind (list A)) s' r :
  guard_call s raddrs (λ raddrs,
    let '(s, r) := fd_open s d (f raddrs) in
    guard_call s r (λ fd, register_or_close s poller fd i)) = (s', r) →
  match r with
  | Ok fd => opened s' = {[token fd]} ∪ opened s ∧ token fd ∉ opened s
  | Err _ => opened s' = opened s
  | Panic => True
  end.
Proof.
  destruct raddrs as [l|e|]; simpl; [|by intros [= <- <-]..].
  destruct (fd_open s d (f l)) as [s1 [fd|e|]] eqn:Ho; apply law_open in Ho; simpl;
    [|by intros [= <- <-]..].
  destruct Ho as [Ho Hf]. intros Hr. pose proof (register_or_close_opened _ _ _ _ _ _ _ Ho Hf Hr) as H.
  destruct r; [|done..]. by destruct H as [-> ->].
Qed.

Lemma sleep_check_opened s self fd waker s' self' r :
  Sleep_check s self fd waker = (s', self', r) → self' = self ∧ opened s' = opened s.
Proof.
  unfold Sleep_check, cntl_into. destruct (fd_cntl s fd (CmdTimeout waker)) as [[s1 buf] r1] eqn:Hc.
  apply law_cntl in Hc. simpl in Hc. destruct (r1 ≫= _) as [[]| |]; by intros [= <- <- <-].
Qed.

(** The descriptors open on behalf of a sleep. *)
Definition sleep_opened (self : Sleep) : gset nat :=
  match sleep_fd self with Some fd => {[token fd]} | None => ∅ end.

Lemma sleep_poll_opened s0 s self waker s' self' r :
  opened s = sleep_opened self ∪ opened s0 → sleep_opened self ## opened s0 →
  Sleep_poll s self waker = (s', self', r) →
  opened s' = sleep_opened self' ∪ opened s0 ∧ sleep_opened self' ## opened s0.
Proof.
  intros Hs Hd. unfold Sleep_poll. destruct (sleep_fd self) as [fd|] eqn:Hfd.
  { intros [-> ->]%sleep_check_opened. done. }
  assert (sleep_opened self = ∅) as He by (unfold sleep_opened; by rewrite Hfd).
  rewrite He, (left_id_L ∅ (∪)) in Hs.
  destruct (fd_open s Timeout _) as [s1 [fd|e|]] eqn:Ho; apply law_open in Ho; rewrite Hs in Ho;
    [|intros [= <- <- <-]; rewrite He, Ho; set_solver..].
  destruct Ho as [Ho Hf].
  assert (sleep_opened (Sleep_set_fd self fd) = {[token fd]}) as Hset by done.
  change (sleep_poller (Sleep_set_fd self fd)) with (sleep_poller self).
  destruct (fd_cntl s1 (sleep_poller self) (CmdRegister fd Readable)) as [[s2 buf] r2] eqn:Hc.
  apply law_cntl in Hc. simpl in Hc. rewrite Ho in Hc.
  destruct r2 as [x|e|].
  - intros [-> H2]%sleep_check_opened. rewrite Hset, H2. split; [by destruct x|set_solver].
  - intros [= <- <- <-]. rewrite Hset. set_solver.
  - intros [= <- <- <-]. rewrite Hset. set_solver.
Qed.

(** Any number of polls. *)
Fixpoint sleep_polls (n : nat) (s : St) (self : Sleep) (waker : nat) : St * Sleep :=
  match n with
  | 0 => (s, self)
  | S n => let '(s, self, _) := Sleep_poll s self waker in sleep_polls n s self waker
  end.

Lemma sleep_polls_opened n s0 s self waker :
  opened s = sleep_opened self ∪ opened s0 → sleep_opened self ## opened s0 →
  let '(s', self') := sleep_polls n s self waker in
  opened s' = sleep_opened self' ∪ opened s0 ∧ sleep_opened self' ## opened s0.
Proof.
  revert s self. induction n as [|n IH]; intros s self Hs Hd; simpl; [done|].
  destruct (Sleep_poll s self waker) as [[s1 self1] r] eqn:Hp.
  destruct (sleep_poll_opened _ _ _ _ _ _ _ Hs Hd Hp). by apply IH.
Qed.
End descriptors.

(** ** Trying addresses in turn *)
Section send_to.
Context {A St : Type} `{!RawDriver A St} (fd : Handle) (waker : nat) (buf : list byte).

(** Every address of the list is refused, the last one with [e]. *)
Inductive all_fail : St → list A → option ErrorKind → St → option ErrorKind → Prop :=
| all_fail_nil s last : all_fail s [] last s last
| all_fail_cons s s' s'' raddr rest last e last' :
    send_attempt s fd waker buf raddr = (s', Ready (Err e)) →
    all_fail s' rest (Some e) s'' last' →
    all_fail s (raddr :: rest) last s'' last'.

(** What one poll of [send_to] over [raddrs] answers. *)
Definition send_to_spec (s : St) (raddrs : list A) (last : option ErrorKind)
    (s' : St) (left : list A) (last' : option ErrorKind) (r : Poll (res ErrorKind nat)) : Prop :=
  ∃ pre s1, all_fail s pre last s1 last' ∧
    ((raddrs = pre ∧ left = [] ∧ s' = s1 ∧
      r = Ready (match last' with Some e => Err e | None => Panic end)) ∨
     (∃ raddr rest, raddrs = pre ++ raddr :: rest ∧ send_attempt s1 fd waker buf raddr = (s', r) ∧
        match r with
        | Pending => left = raddr :: rest
        | Ready (Err _) => False
        | Ready _ => left = rest
        end)).

Lemma send_to_refines s raddrs last s' left last' r :
  UdpSocket_send_to s fd waker buf raddrs last = (s', (left, last'), r) →
  send_to_spec s raddrs last s' left last' r.
Proof.
  revert s last. induction raddrs as [|raddr rest IH]; intros s last; simpl.
  { intros [= <- <- <- <-]. exists [], s. split; [constructor|by left]. }
  destruct (send_attempt s fd waker buf raddr) as [s1 [|[n|e|]]] eqn:Ha.
  - intros [= <- <- <- <-]. exists [], s. split; [constructor|right]. by exists raddr, rest.
  - intros [= <- <- <- <-]. exists [], s. split; [constructor|right]. by exists raddr, rest.
  - intros (pre&s2&Hf&Hr)%IH. exists (raddr :: pre), s2. split; [by econstructor|].
    destruct Hr as [(->&->&->&->)|(ra&re&->&Hr)]; [by left|right]. by exists ra, re.
  - intros [= <- <- <- <-]. exists [], s. split; [constructor|right]. by exists raddr, rest.
Qed.

Lemma all_fail_some s l last s' last' :
  all_fail s l last s' last' → l ≠ [] ∨ is_Some last → is_Some last'.
Proof.
  intros Hf. induction Hf as [s last|s s' s'' raddr rest last e last' _ _ IH].
  - by intros [?|?].
  - intros _. apply IH. right. eauto.
Qed.
End send_to.

(** ** Properties *)

(** Sockets and sleeps own their descriptors.  With a driver that keeps its word
    about them, a constructor ([TcpStream::connect], [TcpListener::bind],
    [UdpSocket::bind]) that succeeds has opened exactly the descriptor of the socket, and
    one that fails leaves none open, also when the registration with the poller fails; a
    [Sleep], polled any number of times whatever the answers and then dropped,
    leaves none open and its drop does not panic. *)
Theorem sockets_own_their_descriptors {A St} `{!RawDriver A St} (opened : St → gset nat)
    `{!RawDriverLaws A St opened} (s : St) (poller : Handle) (addrs : res ErrorKind (list A))
    (expired : N) (waker n : nat) :
  let owned (x : St * res ErrorKind Handle) :=
    match x.2 with
    | Ok fd => opened x.1 = {[token fd]} ∪ opened s ∧ token fd ∉ opened s
    | Err _ => opened x.1 = opened s
    | Panic => True
    end in
  owned (TcpStream_connect s poller addrs) ∧ owned (TcpListener_bind s poller addrs) ∧
  owned (UdpSocket_bind s poller addrs) ∧
  (∀ sl, Sleep_new_with poller expired = Ok sl →
     let '(s1, sl1) := sleep_polls n s sl waker in
     ∃ s2, Sleep_drop s1 sl1 = (s2, Ok ()) ∧ opened s2 = opened s).
Proof.
  intros owned. split_and!.
  - unfold owned, TcpStream_connect, TcpStream_new_with.
    destruct (guard_call s addrs _) as [s' r] eqn:Hg. by apply (constructor_opened opened) in Hg.
  - unfold owned, TcpListener_bind.
    destruct (guard_call s addrs _) as [s' r] eqn:Hg. by apply (constructor_opened opened) in Hg.
  - unfold owned, UdpSocket_bind.
    destruct (guard_call s addrs _) as [s' r] eqn:Hg. by apply (constructor_opened opened) in Hg.
  - intros sl [= <-].
    pose proof (sleep_polls_opened opened n s s
      {| sleep_fd := None; expired := expired; sleep_poller := poller |} waker) as Hp.
    destruct (sleep_polls n s _ waker) as [s1 sl1].
    destruct Hp as [Hs Hd]; [unfold sleep_opened; simpl; by rewrite (left_id_L ∅ (∪))|
      apply disjoint_empty_l|].
    unfold Sleep_drop, sleep_opened in *. destruct (sleep_fd sl1) as [fd|].
    + unfold socket_drop. destruct (law_close (opened:=opened) s1 fd) as (s2&->&H2); [set_solver|].
      exists s2. split; [done|]. rewrite H2, Hs. set_solver.
    + exists s1. split; [done|]. by rewrite Hs, (left_id_L ∅ (∪)).
Qed.

(** [send_to] tries the resolved addresses in order: it answers with the first
    attempt that is not refused, is pending exactly while an attempt would block
    (and then resumes with the same address), answers the last error when all
    are refused, and panics exactly when no address was resolved. *)
Theorem send_to_tries_each_address {A St} `{!RawDriver A St} (s s' : St) (fd : Handle)
    (waker : nat) (buf : list byte) (raddrs left : list A) (last' : option ErrorKind)
    (r : Poll (res ErrorKind nat)) :
  UdpSocket_send_to s fd waker buf raddrs None = (s', (left, last'), r) →
  send_to_spec fd waker buf s raddrs None s' left last' r ∧
  (raddrs = [] → r = Ready Panic) ∧
  (raddrs ≠ [] → (∀ s ra, (send_attempt s fd waker buf ra).2 ≠ Ready Panic) → r ≠ Ready Panic).
Proof.
  intros Hs. pose proof (send_to_refines fd waker buf _ _ _ _ _ _ _ Hs) as Hspec.
  split; [done|]. split.
  - intros ->. by injection Hs.
  - intros Hne Hnp ->. destruct Hspec as (pre&s1&Hf&[(->&_&_&Hr)|(ra&re&_&Ha&_)]).
    + destruct (all_fail_some _ _ _ _ _ _ _ _ Hf) as [e He]; [by left|]. by rewrite He in Hr.
    + apply (Hnp s1 ra). by rewrite Ha.
Qed.

(** A code bug: [UdpSocket::broadcast] never answers, whatever the implementation of the
    driver: the option read from the socket is dropped by [fd_cntl], which
    responds [None], and the conversion fails with [InvalidInput]. *)
Theorem broadcast_never_answers {A St} `{!RawDriverExt A St} (s : St) (fd : Handle) (b : bool) :
  (UdpSocket_broadcast s fd).2 ≠ Ready (Ok b) ∧
  (desc fd = UdpSocket → (udp_socket_get_broadcast s fd).2 = Ok b →
   (UdpSocket_broadcast s fd).2 = Ready (Err InvalidInput)).
Proof.
  unfold UdpSocket_broadcast, poll_cntl, cntl_into. simpl. split.
  - destruct (desc fd); simpl; try done. unfold resp.
    by destruct (udp_socket_get_broadcast s fd) as [s' [|[]|]].
  - intros -> Hb. unfold resp. simpl. by rewrite Hb.
Qed.

(** ** Witnesses *)

(** A driver whose state is its open descriptors: one more than the largest is next;
    registering with poller 0 fails. *)
Definition MockDriver := (gset nat * nat)%type.

#[export] Instance MockDriver_RawDriver : RawDriver nat MockDriver := {
  fd_open s d _ :=
    (({[s.2]} ∪ s.1, s.2 + 1),
     Ok {| token := s.2; desc := d; user_defined_desc := None; data := 0 |});
  fd_cntl s h cmd :=
    match cmd with
    | CmdRegister _ _ => (s, [], if decide (token h = 0) then Err Other else Ok RespNone)
    | CmdTimeout _ => (s, [], Ok (RespTimeout false))
    | _ => (s, [], Err InvalidInput)
    end;
  fd_close s h := ((s.1 ∖ {[token h]}, s.2), Ok ());
}.

(** The open descriptors that are below the next one. *)
Definition mock_opened (s : MockDriver) : gset nat := filter (λ x, x < s.2) s.1.

Lemma mock_laws : RawDriverLaws nat MockDriver mock_opened.
Proof.
  unfold mock_opened. split; simpl.
  - intros [o n] d f s' r [= <- <-]. simpl. split; [|rewrite elem_of_filter; lia].
    apply set_eq. intros x.
    rewrite elem_of_union, !elem_of_filter, elem_of_union, elem_of_singleton.
    destruct (decide (x = n)); intuition lia.
  - intros [o n] h [] s' buf' r [= <- <- <-]; try done; by case_decide.
  - intros [o n] h Hh. eexists. split; [done|]. apply set_eq. intros x. simpl.
    rewrite elem_of_filter, !elem_of_difference, elem_of_filter. tauto.
Qed.

Definition poller_handle (n : nat) : Handle :=
  {| token := n; desc := Poller; user_defined_desc := None; data := 0 |}.

Lemma sockets_own_their_descriptors_witness :
  let s : MockDriver := ({[1]}, 2) in
  mock_opened (TcpStream_connect s (poller_handle 1) (Ok [80])).1 = {[2]} ∪ mock_opened s ∧
  mock_opened (TcpListener_bind s (poller_handle 0) (Ok [80])).1 = mock_opened s.
Proof.
  pose proof (@sockets_own_their_descriptors nat MockDriver _ mock_opened mock_laws ({[1]}, 2))
    as H.
  destruct (H (poller_handle 1) (Ok [80]) 0%N 0 0) as (H1&_&_&_).
  destruct (H (poller_handle 0) (Ok [80]) 0%N 0 0) as (_&H2&_&_).
  split; [exact (proj1 H1)|exact H2].
Defined.

Lemma send_to_tries_each_address_witness :
  let '(_, (_, _), r) :=
    UdpSocket_send_to (A:=nat) 5 (a_handle UdpSocket) 1 [x00; x00] [0; 80; 81] None in
  r = Ready (Ok 2) ∧ r ≠ Ready Panic.
Proof.
  destruct (send_to_tries_each_address (A:=nat) (St:=nat) 5 7 (a_handle UdpSocket) 1 [x00; x00]
    [0; 80; 81] [81] (Some ConnectionRefused) (Ready (Ok 2))) as (_&_&H); [by vm_compute|].
  vm_compute. split; [done|]. apply H; [done|].
  intros s ra. unfold send_attempt, poll_cntl, cntl_into. simpl. case_decide; done.
Defined.

Lemma broadcast_never_answers_witness :
  (UdpSocket_broadcast (A:=nat) 5 (a_handle UdpSocket)).2 = Ready (Err InvalidInput).
Proof. by apply (broadcast_never_answers (A:=nat) 5 (a_handle UdpSocket) true). Defined.
