(* ===== verification/UdpGroup.v ===== *)
(** * crates/net/udp/src/group.rs: a group of UDP sockets

    [UdpGroup] reads from all its sockets through one batch of futures, and writes
    through another.  The futures share the buffer of the caller through an atomic
    pointer to a box: a poll takes the pointer, gives it back when the socket is not ready, and
    frees the box when it is.  A batch is the list of its pending futures; one poll of
    its [wait] polls some of them, in the order in which they were woken
    ([Batching.v]).  The boxes that exist are part of the state, and a second free
    panics. *)

From S2P Require Import Prelude IoDriver Sockets.

#[export] Instance Description_countable : Countable Description.
Proof.
  refine (inj_countable'
    (λ d, match d with
          | File => (0, 0) | TcpListener => (1, 0) | TcpStream => (2, 0) | UdpSocket => (3, 0)
          | Timeout => (4, 0) | Poller => (5, 0) | External n => (6, n) end)
    (λ x, match x with
          | (0, _) => File | (1, _) => TcpListener | (2, _) => TcpStream | (3, _) => UdpSocket
          | (4, _) => Timeout | (5, _) => Poller | (_, n) => External n end) _).
  by intros [].
Defined.
#[export] Instance Handle_eq_dec : EqDecision Handle.
Proof. solve_decision. Defined.
#[export] Instance Handle_countable : Countable Handle.
Proof.
  refine (inj_countable' (λ h, (token h, desc h, user_defined_desc h, data h))
    (λ x, {| token := x.1.1.1; desc := x.1.1.2; user_defined_desc := x.1.2; data := x.2 |}) _).
  by intros [].
Defined.

(** ** An [Arc<AtomicPtr<P>>] and the boxes it may point to *)
Record cell (P : Type) := { ptr : option nat; boxes : gmap nat P; next_box : nat }.
Arguments ptr {P}. Arguments boxes {P}. Arguments next_box {P}.

Definition cell_default {P} : cell P := {| ptr := None; boxes := ∅; next_box := 0 |}.
(** [Box::into_raw(Box::new(p))]. *)
Definition into_raw {P} (p : P) (c : cell P) : cell P * nat :=
  ({| ptr := ptr c; boxes := <[next_box c := p]> (boxes c); next_box := S (next_box c) |}, next_box c).
(** [drop(Box::from_raw(i))]; [None] is a pointer that is not a box. *)
Definition from_raw {P} (i : nat) (c : cell P) : option (cell P) :=
  match boxes c !! i with
  | Some _ => Some {| ptr := ptr c; boxes := delete i (boxes c); next_box := next_box c |}
  | None => None
  end.
Definition store {P} (i : option nat) (c : cell P) : cell P :=
  {| ptr := i; boxes := boxes c; next_box := next_box c |}.

(** A future of a batch owns the handle that it polls and the address of the socket. *)
Record PathInfo (A : Type) := { path_from : A; path_to : A }.
Arguments path_from {A}. Arguments path_to {A}.

Section group.
Context {A St : Type} `{!EqDecision A, !Countable A, !RawDriver A St}.

(** A read buffer is its length. *)
Record UdpGroup := {
  driver : St;
  fds : gmap A Handle;
  laddrs : gmap Handle A;
  batching_reader : list (Handle * A);
  batching_writer : list (Handle * A);
  batching_read_buf : cell nat;
  batching_write_buf : cell (list byte * A);
}.

(** The result of a ready future: what was read, or the number of bytes written. *)
Definition BatchRead : Type := Handle * res ErrorKind (nat * list byte * PathInfo A).
Definition BatchWrite : Type := Handle * res ErrorKind (nat * PathInfo A).

Definition set_driver (s : St) (g : UdpGroup) : UdpGroup :=
  {| driver := s; fds := fds g; laddrs := laddrs g; batching_reader := batching_reader g;
     batching_writer := batching_writer g; batching_read_buf := batching_read_buf g;
     batching_write_buf := batching_write_buf g |}.
Definition set_reader (l : list (Handle * A)) (g : UdpGroup) : UdpGroup :=
  {| driver := driver g; fds := fds g; laddrs := laddrs g; batching_reader := l;
     batching_writer := batching_writer g; batching_read_buf := batching_read_buf g;
     batching_write_buf := batching_write_buf g |}.
Definition set_writer (l : list (Handle * A)) (g : UdpGroup) : UdpGroup :=
  {| driver := driver g; fds := fds g; laddrs := laddrs g; batching_reader := batching_reader g;
     batching_writer := l; batching_read_buf := batching_read_buf g;
     batching_write_buf := batching_write_buf g |}.
Definition set_read_buf (c : cell nat) (g : UdpGroup) : UdpGroup :=
  {| driver := driver g; fds := fds g; laddrs := laddrs g; batching_reader := batching_reader g;
     batching_writer := batching_writer g; batching_read_buf := c;
     batching_write_buf := batching_write_buf g |}.
Definition set_write_buf (c : cell (list byte * A)) (g : UdpGroup) : UdpGroup :=
  {| driver := driver g; fds := fds g; laddrs := laddrs g; batching_reader := batching_reader g;
     batching_writer := batching_writer g; batching_read_buf := batching_read_buf g;
     batching_write_buf := c |}.

#[local] Notation M := (sm UdpGroup ErrorKind).

Definition laddr_to_handle (laddr : A) (g : UdpGroup) : option Handle := fds g !! laddr.
Definition handle_to_laddr (handle : Handle) (g : UdpGroup) : option A := laddrs g !! handle.

(** The call of the driver inside a poll. *)
Definition group_cntl (h : Handle) (cmd : Cmd A) : M (list byte * res ErrorKind (CmdResp A)) := λ g,
  let '(s, buf, r) := fd_cntl (driver g) h cmd in (set_driver s g, Ok (buf, r)).

(** *** The two kinds of futures *)
Definition push_batch_read (handle : Handle) : M () :=
  laddr ← gets (handle_to_laddr handle);
  match laddr with
  | Some laddr => modify (λ g, set_reader (batching_reader g ++ [(handle, laddr)]) g)
  | None => panic
  end.
Definition push_batch_write (handle : Handle) : M () :=
  laddr ← gets (handle_to_laddr handle);
  match laddr with
  | Some laddr => modify (λ g, set_writer (batching_writer g ++ [(handle, laddr)]) g)
  | None => panic
  end.

(** One poll of the future of [push_batch_read]. *)
Definition poll_batch_read (waker : nat) (fut : Handle * A) : M (Poll BatchRead) :=
  let '(handle, laddr) := fut in
  c ← gets batching_read_buf;
  match ptr c with
  | None => panic
  | Some buf =>
      modify (set_read_buf (store None c));;
      match boxes c !! buf with
      | None => panic
      | Some len =>
          r ← group_cntl handle (CmdRecvFrom waker len);
          match r with
          | (_, Err WouldBlock) => modify (set_read_buf c);; mret Pending
          | (_, Err e) =>
              c ← lift (unwrap (from_raw buf (store None c)));
              modify (set_read_buf c);; mret (Ready (handle, Err e))
          | (bytes, Ok resp) =>
              c ← lift (unwrap (from_raw buf (store None c)));
              modify (set_read_buf c);;
              match try_into_recv_from resp with
              | Ok (read_size, raddr) =>
                  mret (Ready (handle, Ok (read_size, bytes, {| path_from := raddr; path_to := laddr |})))
              | _ => panic
              end
          | (_, Panic) => panic
          end
      end
  end.

Definition poll_batch_write (waker : nat) (fut : Handle * A) : M (Poll BatchWrite) :=
  let '(handle, laddr) := fut in
  c ← gets batching_write_buf;
  match ptr c with
  | None => panic
  | Some buf =>
      modify (set_write_buf (store None c));;
      match boxes c !! buf with
      | None => panic
      | Some (bytes, raddr) =>
          r ← group_cntl handle (CmdSendTo waker bytes raddr);
          match r with
          | (_, Err WouldBlock) => modify (set_write_buf c);; mret Pending
          | (_, Err e) =>
              c ← lift (unwrap (from_raw buf (store None c)));
              modify (set_write_buf c);; mret (Ready (handle, Err e))
          | (_, Ok resp) =>
              c ← lift (unwrap (from_raw buf (store None c)));
              modify (set_write_buf c);;
              match try_into_datalen resp with
              | Ok size =>
                  mret (Ready (handle, Ok (size, {| path_from := laddr; path_to := raddr |})))
              | _ => panic
              end
          | (_, Panic) => panic
          end
      end
  end.

(** *** One poll of [wait] on a batch: [order] are the futures that were woken; one that is
    not pending any more is skipped. *)
Fixpoint poll_batch {R} (batch : UdpGroup → list (Handle * A))
    (set_batch : list (Handle * A) → UdpGroup → UdpGroup) (poll_one : Handle * A → M (Poll R))
    (order : list (Handle * A)) : M (Poll R) :=
  match order with
  | [] => mret Pending
  | fut :: order =>
      l ← gets batch;
      if decide (fut ∈ l) then
        r ← poll_one fut;
        match r with
        | Pending => poll_batch batch set_batch poll_one order
        | Ready r => modify (λ g, set_batch (remove_one fut (batch g)) g);; mret (Ready r)
        end
      else poll_batch batch set_batch poll_one order
  end.

(** The caller's buffer goes into the cell; the box that it replaces is freed. *)
Definition swap_buf {P} (p : P) (c : cell P) : res ErrorKind (cell P) :=
  let '(c, i) := into_raw p c in
  match ptr c with
  | Some old => unwrap (from_raw old (store (Some i) c))
  | None => Ok (store (Some i) c)
  end.

(** [recv_from]: up to the [await], and one poll of it. *)
Definition recv_start (len : nat) : M () :=
  c ← gets batching_read_buf; c ← lift (swap_buf len c); modify (set_read_buf c).
Definition recv_poll (waker : nat) (order : list (Handle * A)) :
    M (Poll (res ErrorKind (nat * list byte * PathInfo A))) :=
  r ← poll_batch batching_reader set_reader (poll_batch_read waker) order;
  match r with
  | Pending => mret Pending
  | Ready (handle, result) => push_batch_read handle;; mret (Ready result)
  end.

Definition send_start (buf : list byte) (raddr : A) : M () :=
  c ← gets batching_write_buf; c ← lift (swap_buf (buf, raddr) c); modify (set_write_buf c).
Definition send_poll (waker : nat) (order : list (Handle * A)) :
    M (Poll (res ErrorKind (nat * PathInfo A))) :=
  r ← poll_batch batching_writer set_writer (poll_batch_write waker) order;
  match r with
  | Pending => mret Pending
  | Ready (handle, result) => push_batch_write handle;; mret (Ready result)
  end.

(** One poll of [send_to_on_path]. *)
Definition send_to_on_path (waker : nat) (buf : list byte) (path : PathInfo A) :
    M (Poll (res ErrorKind nat)) :=
  fd ← gets (laddr_to_handle (path_from path));
  match fd with
  | None => mret (Ready (Err NotFound))
  | Some fd =>
      r ← group_cntl fd (CmdSendTo waker buf (path_to path));
      mret (poll_would_block (r.2 ≫= try_into_datalen))
  end.

Definition local_addrs (g : UdpGroup) : list A := (map_to_list (laddrs g)).*2.

(** *** [bind]: the loop over the addresses, and the first futures *)
Fixpoint bind_loop (poller : Handle) (addrs : list A) (fds : gmap A Handle) (laddrs : gmap Handle A)
    (s : St) : St * res ErrorKind (gmap A Handle * gmap Handle A) :=
  match addrs with
  | [] => (s, Ok (fds, laddrs))
  | addr :: addrs =>
      let '(s, r) := fd_open s UdpSocket (Bind [addr]) in
      guard_call s r (λ fd,
        let '(s, r) := register_or_close s poller fd (Interest_or Readable Writable) in
        guard_call s r (λ _,
          let '(s, _, r) := cntl_into s fd CmdLocalAddr try_into_sockaddr in
          guard_call s r (λ laddr,
            bind_loop poller addrs (<[laddr := fd]> fds) (<[fd := laddr]> laddrs) s)))
  end.

Fixpoint init_push_batch_ops (fds : list Handle) : M () :=
  match fds with
  | [] => mret ()
  | fd :: fds => push_batch_read fd;; push_batch_write fd;; init_push_batch_ops fds
  end.

Definition UdpGroup_new (s : St) (fds : gmap A Handle) (laddrs : gmap Handle A) : UdpGroup :=
  {| driver := s; fds := fds; laddrs := laddrs; batching_reader := []; batching_writer := [];
     batching_read_buf := cell_default; batching_write_buf := cell_default |}.

Definition UdpGroup_bind (s : St) (poller : Handle) (addrs : res ErrorKind (list A)) :
    St * res ErrorKind UdpGroup :=
  guard_call s addrs (λ addrs,
    let '(s, r) := bind_loop poller addrs ∅ ∅ s in
    guard_call s r (λ '(fds, laddrs),
      match init_push_batch_ops (map_to_list fds).*2 (UdpGroup_new s fds laddrs) with
      | (g, Ok _) => (driver g, Ok g)
      | (g, Err e) => (driver g, Err e)
      | (g, Panic) => (driver g, Panic)
      end)).

(** [Drop]. *)
Fixpoint close_all (fds : list Handle) (s : St) : St * res ErrorKind () :=
  match fds with
  | [] => (s, Ok ())
  | fd :: fds => let '(s, r) := socket_drop s fd in guard_call s r (λ _, close_all fds s)
  end.
Definition UdpGroup_drop (g : UdpGroup) : St * res ErrorKind () :=
  close_all (map_to_list (fds g)).*2 (driver g).
End group.
Arguments UdpGroup A St {_ _}.

(** ** What the group keeps true *)

(** What a driver promises about the two commands of a UDP socket. *)
Class UdpDriverLaws (A St : Type) `{!RawDriver A St} : Prop := {
  law_recv (s : St) h w len :
    match (fd_cntl s h (CmdRecvFrom w len)).2 with
    | Ok r => ∃ n a, r = RespRecvFrom n a | Err _ => True | Panic => False
    end;
  law_send (s : St) h w buf ra :
    match (fd_cntl s h (CmdSendTo w buf ra)).2 with
    | Ok r => ∃ n, r = RespDataLen n | Err _ => True | Panic => False
    end;
}.

(** The boxes are the one that the cell points to; while a call is active there is one. *)
Definition cell_ok {P} (active : bool) (c : cell P) : Prop :=
  match ptr c with
  | Some i => i < next_box c ∧ ∃ p, boxes c = {[i := p]}
  | None => active = false ∧ boxes c = ∅
  end.

Section cells.
Context {P : Type}.
Implicit Types c : cell P.

Lemma cell_ok_default : cell_ok (P:=P) false cell_default.
Proof. done. Qed.

Lemma cell_ok_weaken b c : cell_ok b c → cell_ok false c.
Proof. unfold cell_ok. by destruct (ptr c); [|intros [_ ?]]. Qed.

Lemma swap_buf_ok b c (p : P) : cell_ok b c →
  ∃ c', swap_buf p c = Ok c' ∧ cell_ok true c'.
Proof.
  unfold swap_buf, into_raw, from_raw, cell_ok. simpl. destruct (ptr c) as [i|].
  - intros (Hi&q&->). rewrite lookup_insert_ne, lookup_singleton_eq by lia. simpl.
    eexists. split; [done|]. simpl. split; [lia|]. exists p.
    rewrite delete_insert_ne by lia. by rewrite delete_singleton_eq.
  - intros [_ ->]. eexists. split; [done|]. simpl. split; [lia|]. by exists p.
Qed.

Lemma cell_ok_size b c : cell_ok b c → size (boxes c) ≤ 1.
Proof.
  unfold cell_ok. destruct (ptr c); [|intros [_ ->]; by rewrite map_size_empty; lia].
  intros (_&p&->). by rewrite map_size_singleton.
Qed.

(** The poll takes the pointer; the box is still there, to be freed once. *)
Lemma taken_box c : cell_ok true c →
  ∃ i p, ptr c = Some i ∧ boxes c !! i = Some p ∧
    from_raw i (store None c) = Some {| ptr := None; boxes := ∅; next_box := next_box c |}.
Proof.
  unfold cell_ok, from_raw. simpl. destruct (ptr c) as [i|]; [|by intros [? _]].
  intros (Hi&p&->). exists i, p. rewrite lookup_singleton_eq. by rewrite delete_singleton_eq.
Qed.
End cells.

Section group_facts.
Context {A St : Type} `{!EqDecision A, !Countable A, !RawDriver A St, !UdpDriverLaws A St}.
Implicit Types (g : UdpGroup A St) (fut : Handle * A).


Lemma poll_batch_cons {R} (batch : UdpGroup A St → list (Handle * A)) set_batch
    (poll_one : Handle * A → sm (UdpGroup A St) ErrorKind (Poll R)) fut order g :
  poll_batch batch set_batch poll_one (fut :: order) g =
    if decide (fut ∈ batch g) then
      match poll_one fut g with
      | (g, Ok Pending) => poll_batch batch set_batch poll_one order g
      | (g, Ok (Ready r)) => (set_batch (remove_one fut (batch g)) g, Ok (Ready r))
      | (g, Err e) => (g, Err e)
      | (g, Panic) => (g, Panic)
      end
    else poll_batch batch set_batch poll_one order g.
Proof.
  simpl. unfold mbind, sm_bind, gets. simpl. case_decide; [|done].
  by destruct (poll_one fut g) as [g' [[]| |]].
Qed.

Lemma poll_batch_spec {R} (batch : UdpGroup A St → list (Handle * A)) set_batch
    (poll_one : Handle * A → sm (UdpGroup A St) ErrorKind (Poll R)) g
    (Q : Handle * A → R → UdpGroup A St → Prop) order s :
  (∀ s, batch (set_driver s g) = batch g) →
  (∀ fut s, (∃ s', poll_one fut (set_driver s g) = (set_driver s' g, Ok Pending)) ∨
     ∃ r g', poll_one fut (set_driver s g) = (g', Ok (Ready r)) ∧ Q fut r g') →
  (∃ s', poll_batch batch set_batch poll_one order (set_driver s g) = (set_driver s' g, Ok Pending)) ∨
  ∃ fut r g', fut ∈ batch g ∧ Q fut r g' ∧
    poll_batch batch set_batch poll_one order (set_driver s g) =
      (set_batch (remove_one fut (batch g')) g', Ok (Ready r)).
Proof.
  intros Hb Hone. revert s. induction order as [|fut order IH]; intros s; [left; by exists s|].
  rewrite poll_batch_cons, Hb.
  case_decide as Hin; [|exact (IH s)].
  destruct (Hone fut s) as [[s' ->]|(r&g'&->&HQ)].
  - exact (IH s').
  - right. exists fut, r, g'. by split_and!.
Qed.

(** A ready future has freed the box, and answers for its own socket. *)
Definition read_done g fut (r : BatchRead) g' : Prop :=
  ∃ s c, g' = set_driver s (set_read_buf c g) ∧ cell_ok false c ∧ boxes c = ∅ ∧
    r.1 = fut.1 ∧ ∀ n bytes path, r.2 = Ok (n, bytes, path) → path_to path = fut.2.
Definition write_done g fut (r : BatchWrite) g' : Prop :=
  ∃ s c, g' = set_driver s (set_write_buf c g) ∧ cell_ok false c ∧ boxes c = ∅ ∧
    r.1 = fut.1 ∧ ∀ n path, r.2 = Ok (n, path) → path_from path = fut.2.

Lemma poll_batch_read_spec w g fut s :
  cell_ok true (batching_read_buf g) →
  (∃ s', poll_batch_read w fut (set_driver s g) = (set_driver s' g, Ok Pending)) ∨
  ∃ r g', poll_batch_read w fut (set_driver s g) = (g', Ok (Ready r)) ∧ read_done g fut r g'.
Proof.
  intros (i&len&Hp&Hb&Hf)%taken_box. destruct fut as [h a].
  unfold poll_batch_read, group_cntl, mbind, sm_bind, gets, modify, lift, mret, sm_ret. simpl.
  rewrite Hp. cbn. rewrite Hb. cbn. pose proof (law_recv s h w len) as Hl.
  destruct (fd_cntl s h (CmdRecvFrom w len)) as [[s' bytes] [r|e|]]; simpl in *; [| |done].
  - rewrite Hf. simpl. destruct Hl as (n&ra&->). simpl. right. do 2 eexists. split; [done|].
    do 2 eexists. split; [done|]. split_and!; [done..|]. by intros ? ? ? [= <- <- <-].
  - destruct e; try (rewrite Hf; simpl; right; do 2 eexists; split; [done|];
      do 2 eexists; split; [done|]; by split_and!). left. by exists s'.
Qed.

Lemma poll_batch_write_spec w g fut s :
  cell_ok true (batching_write_buf g) →
  (∃ s', poll_batch_write w fut (set_driver s g) = (set_driver s' g, Ok Pending)) ∨
  ∃ r g', poll_batch_write w fut (set_driver s g) = (g', Ok (Ready r)) ∧ write_done g fut r g'.
Proof.
  intros (i&[buf ra]&Hp&Hb&Hf)%taken_box. destruct fut as [h a].
  unfold poll_batch_write, group_cntl, mbind, sm_bind, gets, modify, lift, mret, sm_ret. simpl.
  rewrite Hp. cbn. rewrite Hb. cbn. pose proof (law_send s h w buf ra) as Hl.
  destruct (fd_cntl s h (CmdSendTo w buf ra)) as [[s' bytes] [r|e|]]; simpl in *; [| |done].
  - rewrite Hf. simpl. destruct Hl as (n&->). simpl. right. do 2 eexists. split; [done|].
    do 2 eexists. split; [done|]. split_and!; [done..|]. by intros ? ? [= <- <-].
  - destruct e; try (rewrite Hf; simpl; right; do 2 eexists; split; [done|];
      do 2 eexists; split; [done|]; by split_and!). left. by exists s'.
Qed.

(** The futures that the batches must hold: one per socket. *)
Definition futures g : list (Handle * A) := prod_swap <$> map_to_list (fds g).

Record group_inv (receiving sending : bool) g : Prop := {
  gi_reader : batching_reader g ≡ₚ futures g;
  gi_writer : batching_writer g ≡ₚ futures g;
  gi_read_buf : cell_ok receiving (batching_read_buf g);
  gi_write_buf : cell_ok sending (batching_write_buf g);
  gi_addrs a h : fds g !! a = Some h → laddrs g !! h = Some a;
}.

Lemma elem_of_futures g h a : (h, a) ∈ futures g ↔ fds g !! a = Some h.
Proof.
  unfold futures. rewrite list_elem_of_fmap. split.
  - intros ([a' h']&[= -> ->]&Hm). by apply elem_of_map_to_list.
  - intros Hm. exists (a, h). split; [done|]. by apply elem_of_map_to_list.
Qed.

Lemma reinsert_perm (x : Handle * A) l k : l ≡ₚ k → x ∈ k → remove_one x l ++ [x] ≡ₚ k.
Proof.
  intros Hp Hx. rewrite <-Hp in Hx |- *. rewrite (remove_one_perm x l) at 2 by done.
  by rewrite Permutation_app_comm.
Qed.

(** What [recv_from] answers, and what it leaves. *)
Lemma recv_poll_spec sending g w order :
  group_inv true sending g →
  (∃ s', recv_poll w order g = (set_driver s' g, Ok Pending)) ∨
  ∃ g' result, recv_poll w order g = (g', Ok (Ready result)) ∧ group_inv false sending g' ∧
    fds g' = fds g ∧ boxes (batching_read_buf g') = ∅ ∧
    ∀ n bytes path, result = Ok (n, bytes, path) → is_Some (fds g !! path_to path).
Proof.
  intros [Hr Hw Hrb Hwb Ha].
  destruct (poll_batch_spec batching_reader set_reader (poll_batch_read w) g (read_done g)
    order (driver g)) as [[s' He]|(fut&r&g'&Hin&Hd&He)]; [done|by intros; apply poll_batch_read_spec|..];
    replace (set_driver (driver g) g) with g in He by (by destruct g);
    unfold recv_poll, mbind, sm_bind; rewrite He; [left; by exists s'|right].
  destruct Hd as (s&c&->&Hc&Hbx&Hh&Hto), fut as [h a], r as [h' result]. simpl in *. subst h'.
  rewrite Hr, elem_of_futures in Hin. unfold push_batch_read, handle_to_laddr, mbind, sm_bind, gets.
  simpl. rewrite (Ha _ _ Hin). simpl. do 2 eexists. split; [done|].
  split_and!; [|done..|].
  - split; simpl; try done. apply reinsert_perm; [done|by apply elem_of_futures].
  - intros n bytes path ->. rewrite (Hto _ _ _ eq_refl). eauto.
Qed.

Lemma send_poll_spec receiving g w order :
  group_inv receiving true g →
  (∃ s', send_poll w order g = (set_driver s' g, Ok Pending)) ∨
  ∃ g' result, send_poll w order g = (g', Ok (Ready result)) ∧ group_inv receiving false g' ∧
    fds g' = fds g ∧ boxes (batching_write_buf g') = ∅ ∧
    ∀ n path, result = Ok (n, path) → is_Some (fds g !! path_from path).
Proof.
  intros [Hr Hw Hrb Hwb Ha].
  destruct (poll_batch_spec batching_writer set_writer (poll_batch_write w) g (write_done g)
    order (driver g)) as [[s' He]|(fut&r&g'&Hin&Hd&He)]; [done|by intros; apply poll_batch_write_spec|..];
    replace (set_driver (driver g) g) with g in He by (by destruct g);
    unfold send_poll, mbind, sm_bind; rewrite He; [left; by exists s'|right].
  destruct Hd as (s&c&->&Hc&Hbx&Hh&Hto), fut as [h a], r as [h' result]. simpl in *. subst h'.
  rewrite Hw, elem_of_futures in Hin. unfold push_batch_write, handle_to_laddr, mbind, sm_bind, gets.
  simpl. rewrite (Ha _ _ Hin). simpl. do 2 eexists. split; [done|].
  split_and!; [|done..|].
  - split; simpl; try done. apply reinsert_perm; [done|by apply elem_of_futures].
  - intros n path ->. rewrite (Hto _ _ eq_refl). eauto.
Qed.

Lemma recv_start_spec receiving sending g len :
  group_inv receiving sending g →
  ∃ c, recv_start len g = (set_read_buf c g, Ok ()) ∧ group_inv true sending (set_read_buf c g).
Proof.
  intros [Hr Hw Hrb Hwb Ha]. destruct (swap_buf_ok _ _ len Hrb) as (c&Hs&Hc).
  exists c. unfold recv_start, lift, mbind, sm_bind, gets. simpl. rewrite Hs. done.
Qed.

Lemma send_start_spec receiving sending g buf raddr :
  group_inv receiving sending g →
  ∃ c, send_start buf raddr g = (set_write_buf c g, Ok ()) ∧ group_inv receiving true (set_write_buf c g).
Proof.
  intros [Hr Hw Hrb Hwb Ha]. destruct (swap_buf_ok _ _ (buf, raddr) Hwb) as (c&Hs&Hc).
  exists c. unfold send_start, lift, mbind, sm_bind, gets. simpl. rewrite Hs. done.
Qed.

Lemma send_to_on_path_spec w buf path g :
  ∃ s r, send_to_on_path w buf path g = (set_driver s g, Ok r) ∧
    (fds g !! path_from path = None → r = Ready (Err NotFound)).
Proof.
  unfold send_to_on_path, laddr_to_handle, group_cntl, mbind, sm_bind, gets. cbn.
  destruct (fds g !! path_from path) as [fd|]; cbn.
  - destruct (fd_cntl _ _ _) as [[s buf'] r]. by do 2 eexists.
  - exists (driver g). eexists. split; [by destruct g|done].
Qed.

(** The calls on a group, one at a time of each kind: a call that is started again, or dropped,
    ends the earlier one.  The flags say which calls are active. *)
Definition pending {R} (r : res ErrorKind (Poll R)) : bool :=
  match r with Ok Pending => true | _ => false end.

Inductive group_step : bool * bool → UdpGroup A St → bool * bool → UdpGroup A St → Prop :=
| gs_recv_start r w g len : group_step (r, w) g (true, w) (recv_start len g).1
| gs_recv_poll w g wk order :
    group_step (true, w) g (pending (recv_poll wk order g).2, w) (recv_poll wk order g).1
| gs_send_start r w g buf raddr : group_step (r, w) g (r, true) (send_start buf raddr g).1
| gs_send_poll r g wk order :
    group_step (r, true) g (r, pending (send_poll wk order g).2) (send_poll wk order g).1
| gs_on_path r w g wk buf path : group_step (r, w) g (r, w) (send_to_on_path wk buf path g).1
| gs_drop_recv r w g : group_step (r, w) g (false, w) g
| gs_drop_send r w g : group_step (r, w) g (r, false) g.

Inductive group_run g0 : bool * bool → UdpGroup A St → Prop :=
| grun_refl : group_run g0 (false, false) g0
| grun_step rw g rw' g' : group_run g0 rw g → group_step rw g rw' g' → group_run g0 rw' g'.

Lemma group_step_inv rw g rw' g' :
  group_step rw g rw' g' → group_inv rw.1 rw.2 g → group_inv rw'.1 rw'.2 g' ∧ fds g' = fds g.
Proof.
  intros Hs Hinv.
  destruct Hs as [r w g len|w g wk order|r w g buf ra|r g wk order|r w g wk buf path|r w g|r w g];
    simpl in *.
  - destruct (recv_start_spec _ _ _ len Hinv) as (c&->&?). done.
  - destruct (recv_poll_spec _ _ wk order Hinv) as [[s ->]|(g'&res&->&?&?&_)]; [|done].
    simpl. destruct Hinv. done.
  - destruct (send_start_spec _ _ _ buf ra Hinv) as (c&->&?). done.
  - destruct (send_poll_spec _ _ wk order Hinv) as [[s ->]|(g'&res&->&?&?&_)]; [|done].
    simpl. destruct Hinv. done.
  - destruct (send_to_on_path_spec wk buf path g) as (s&res&->&_). destruct Hinv. done.
  - destruct Hinv. split; [|done]. split; try done. by eapply cell_ok_weaken.
  - destruct Hinv. split; [|done]. split; try done. by eapply cell_ok_weaken.
Qed.
End group_facts.

Section bind_facts.
Context {A St : Type} `{!EqDecision A, !Countable A, !RawDriver A St}.
Context (opened : St → gset nat) `{!RawDriverLaws A St opened}.

Definition tokens (hs : list Handle) : gset nat := list_to_set (token <$> hs).

(** The loop of [bind], begun at [s0], has opened [hs]. *)
Record bound (s0 : St) (hs : list Handle) (f : gmap A Handle) (l : gmap Handle A) (s : St) : Prop := {
  bd_opened : opened s = tokens hs ∪ opened s0;
  bd_nodup : NoDup (token <$> hs);
  bd_new h : h ∈ hs → token h ∉ opened s0;
  bd_addrs a h : f !! a = Some h → l !! h = Some a;
  bd_handles h : is_Some (l !! h) → h ∈ hs;
}.

Lemma elem_of_tokens x hs : x ∈ tokens hs ↔ ∃ h, h ∈ hs ∧ x = token h.
Proof. unfold tokens. rewrite elem_of_list_to_set, list_elem_of_fmap. naive_solver. Qed.

Lemma bound_start s : bound s [] ∅ ∅ s.
Proof.
  split; [unfold tokens; set_solver|apply NoDup_nil_2|set_solver|..].
  - by intros a h ?%lookup_empty_Some.
  - by intros h [? ?%lookup_empty_Some].
Qed.

Lemma bind_loop_app p as1 as2 f l s :
  bind_loop p (as1 ++ as2) f l s =
    (let '(s, r) := bind_loop p as1 f l s in guard_call s r (λ '(f, l), bind_loop p as2 f l s)).
Proof.
  revert f l s. induction as1 as [|a as1 IH]; intros f l s; [done|]. simpl.
  destruct (fd_open _ _ _) as [s1 [fd|e|]]; [|done..]. simpl.
  destruct (register_or_close _ _ _ _) as [s2 [fd'|e|]]; [|done..]. simpl.
  destruct (cntl_into _ _ _ _) as [[s3 buf] [la|e|]]; [|done..]. simpl. apply IH.
Qed.

Lemma bind_loop_spec p addrs f l s s0 hs s' f' l' :
  bound s0 hs f l s → bind_loop p addrs f l s = (s', Ok (f', l')) →
  ∃ hs', bound s0 hs' f' l' s' ∧ length hs' = length hs + length addrs.
Proof.
  revert f l s hs. induction addrs as [|a addrs IH]; intros f l s hs Hbd; simpl.
  { intros [= <- <- <-]. exists hs. split; [done|lia]. }
  destruct (fd_open _ _ _) as [s1 [fd|e|]] eqn:Ho; [|done..]. apply law_open in Ho as [Ho Hfd]. simpl.
  destruct (register_or_close _ _ _ _) as [s2 [fd'|e|]] eqn:Hreg; [|done..]. simpl.
  destruct (register_or_close_opened opened _ _ _ _ _ _ _ Ho Hfd Hreg) as [-> Hs2].
  destruct (cntl_into _ _ _ _) as [[s3 buf] [la|e|]] eqn:Hc; [|done..]. simpl. intros Hb.
  assert (opened s3 = opened s2) as Hs3.
  { unfold cntl_into in Hc. destruct (fd_cntl s2 fd CmdLocalAddr) as [[s3' buf'] r'] eqn:Hc'.
    apply law_cntl in Hc'. simplify_eq/=. by destruct r'. }
  destruct Hbd as [Hop Hnd Hnew Hadr Hh].
  assert (fd ∉ hs) as Hfresh
    by (intros Hin; apply Hfd; rewrite Hop, elem_of_union, elem_of_tokens; left; eauto).
  destruct (IH (<[la:=fd]> f) (<[fd:=la]> l) s3 (fd :: hs)) as (hs'&Hbd'&Hlen); [|done|].
  - split.
    + rewrite Hs3, Hs2, Hop. unfold tokens. simpl. set_solver.
    + simpl. apply NoDup_cons. split; [|done]. intros (h&Hth&Hin)%list_elem_of_fmap.
      apply Hfd. rewrite Hop, elem_of_union, elem_of_tokens. left. eauto.
    + intros h [->|Hin]%elem_of_cons; [|auto]. set_solver.
    + intros a' h [[<- <-]|[Hne Hf]]%lookup_insert_Some; [by rewrite lookup_insert_eq|].
      rewrite lookup_insert_ne; [auto|]. intros ->. apply Hfresh, Hh. eauto.
    + intros h [->|[_ ?]]%lookup_insert_is_Some; apply elem_of_cons; eauto.
  - exists hs'. simpl in Hlen. split; [done|lia].
Qed.

(** The sockets of the group, by address. *)
Lemma fds_handles s0 hs (f : gmap A Handle) l s :
  bound s0 hs f l s →
  NoDup (map_to_list f).*2 ∧ ∀ h, h ∈ (map_to_list f).*2 → h ∈ hs.
Proof.
  intros [_ _ _ Ha Hh]. split.
  - apply NoDup_fmap_2_strong; [|apply NoDup_map_to_list].
    intros [a h] [a' h'] H1%elem_of_map_to_list H2%elem_of_map_to_list Heq. simpl in Heq. subst h'.
    apply Ha in H1, H2. congruence.
  - intros h ([a h']&->&Hm%elem_of_map_to_list)%list_elem_of_fmap. apply Hh. simpl. eauto.
Qed.

Lemma close_all_spec hs s :
  NoDup (token <$> hs) → tokens hs ⊆ opened s →
  ∃ s', close_all hs s = (s', Ok ()) ∧ opened s' = opened s ∖ tokens hs.
Proof.
  revert s. induction hs as [|h hs IH]; intros s Hnd Hin; simpl.
  { exists s. split; [done|]. unfold tokens. set_solver. }
  simpl in Hnd. apply NoDup_cons in Hnd as [Hh Hnd].
  unfold socket_drop. destruct (law_close (opened:=opened) s h) as (s1&->&H1).
  { apply Hin, elem_of_tokens. exists h. split; [set_solver|done]. }
  simpl. destruct (IH s1) as (s2&->&H2); [done| |].
  - intros x Hx. rewrite H1. apply elem_of_difference. split.
    + apply Hin. revert Hx. rewrite !elem_of_tokens. intros (h'&?&->). exists h'. set_solver.
    + intros ->%elem_of_singleton. apply Hh. apply elem_of_tokens in Hx as (h'&?&Heq).
      rewrite Heq. by apply list_elem_of_fmap_2.
  - exists s2. split; [done|]. rewrite H2, H1. unfold tokens. simpl. set_solver.
Qed.

Lemma init_push_spec (l : list (A * Handle)) (g : UdpGroup A St) :
  (∀ a h, (a, h) ∈ l → laddrs g !! h = Some a) →
  init_push_batch_ops l.*2 g =
    (set_writer (batching_writer g ++ (prod_swap <$> l))
       (set_reader (batching_reader g ++ (prod_swap <$> l)) g), Ok ()).
Proof.
  revert g. induction l as [|[a h] l IH]; intros g Hl; simpl.
  { rewrite !app_nil_r. by destruct g. }
  unfold push_batch_read, push_batch_write, handle_to_laddr, mbind, sm_bind, gets. simpl.
  rewrite (Hl a h) by set_solver. simpl. rewrite (Hl a h) by set_solver. simpl.
  rewrite IH by (intros; simpl; apply Hl; set_solver). simpl. by rewrite <-!app_assoc.
Qed.

Lemma UdpGroup_bind_spec s p addrs :
  match UdpGroup_bind s p (Ok addrs) with
  | (s', Ok g) => group_inv false false g ∧ driver g = s' ∧
      ∃ hs, bound s hs (fds g) (laddrs g) s' ∧ length hs = length addrs
  | (s', r) => ∃ r', bind_loop p addrs ∅ ∅ s = (s', r') ∧ is_Some (match r' with Ok _ => None | _ => Some () end)
  end.
Proof.
  unfold UdpGroup_bind. simpl.
  destruct (bind_loop p addrs ∅ ∅ s) as [s' [[f l]|e|]] eqn:Hb; simpl; [|by eauto..].
  destruct (bind_loop_spec _ _ _ _ _ _ [] _ _ _ (bound_start s) Hb) as (hs&Hbd&Hlen).
  rewrite init_push_spec.
  - simpl. split; [|split; [done|by exists hs]]. split; simpl; [..|apply Hbd]; done.
  - intros a h Hm%elem_of_map_to_list. by eapply bd_addrs.
Qed.
End bind_facts.

(** ** Properties *)

(** The sockets of a group.  A [bind] that succeeds opens one socket for each of its
    addresses, and if their local addresses differ, dropping the group closes exactly
    these.  A bug: a [bind] that fails leaves open the sockets of all the addresses that it has
    bound before, and nobody owns them. *)
Theorem group_bind_leaks {A St} `{!EqDecision A, !Countable A, !RawDriver A St}
    (opened : St → gset nat) `{!RawDriverLaws A St opened} (s : St) (poller : Handle)
    (addrs rest : list A) (addr : A) :
  (∀ s' g, UdpGroup_bind s poller (Ok addrs) = (s', Ok g) →
     ∃ hs, length hs = length addrs ∧ NoDup (token <$> hs) ∧
       (∀ h, h ∈ hs → token h ∉ opened s) ∧ opened s' = tokens hs ∪ opened s ∧
       (size (fds g) = length addrs →
        ∃ s'', UdpGroup_drop g = (s'', Ok ()) ∧ opened s'' = opened s)) ∧
  (∀ s1 m s2 e, bind_loop poller addrs ∅ ∅ s = (s1, Ok m) →
     fd_open s1 UdpSocket (Bind [addr]) = (s2, Err e) →
     (UdpGroup_bind s poller (Ok (addrs ++ addr :: rest))) = (s2, Err e) ∧
     ∃ hs, length hs = length addrs ∧ NoDup (token <$> hs) ∧
       (∀ h, h ∈ hs → token h ∉ opened s) ∧ opened s2 = tokens hs ∪ opened s).
Proof.
  split.
  - intros s' g Hb. pose proof (UdpGroup_bind_spec opened s poller addrs) as Hspec.
    rewrite Hb in Hspec. destruct Hspec as (_&Hd&hs&Hbd&Hlen).
    destruct (fds_handles _ _ _ _ _ _ Hbd) as [Hnd Hin]. destruct Hbd as [Hop Htk Hnew _ _].
    exists hs. split_and!; try done. intros Hsz. unfold UdpGroup_drop.
    assert ((map_to_list (fds g)).*2 ≡ₚ hs) as Hperm.
    { apply submseteq_length_Permutation; [by apply NoDup_submseteq|].
      rewrite length_fmap, length_map_to_list. lia. }
    destruct (close_all_spec opened (map_to_list (fds g)).*2 (driver g)) as (s''&Hc&Ho).
    { by rewrite Hperm. }
    { rewrite Hd, Hop. unfold tokens. rewrite Hperm. set_solver. }
    exists s''. split; [done|]. rewrite Ho, Hd, Hop. unfold tokens. rewrite Hperm.
    assert (tokens hs ## opened s) as Hdj
      by (intros x (h&Hh&->)%elem_of_tokens; by apply Hnew).
    unfold tokens in Hdj. set_solver.
  - intros s1 [f l] s2 e Hb Ho.
    destruct (bind_loop_spec opened _ _ _ _ _ _ [] _ _ _ (bound_start opened s) Hb) as (hs&[Hop Htk Hnew _ _]&Hlen).
    split.
    + unfold UdpGroup_bind. simpl. rewrite bind_loop_app, Hb. simpl. by rewrite Ho.
    + apply law_open in Ho. exists hs. by rewrite Ho.
Qed.

(** What a group does with its sockets, whatever is called on it and whatever the
    sockets answer, as long as calls of the same kind do not overlap: no operation panics;
    every socket has exactly one future in each batch, so each is read and written again
    after it was ready; the caller's buffer is in the cell while a call waits, is freed
    exactly once, and is gone when the call returns; and a packet is reported
    with the local address of one of the group's sockets. *)
Theorem group_polls_every_socket {A St} `{!EqDecision A, !Countable A, !RawDriver A St}
    (opened : St → gset nat) `{!RawDriverLaws A St opened, !UdpDriverLaws A St} (s s0 : St)
    (poller : Handle) (addrs : list A) (g0 g : UdpGroup A St) (receiving sending : bool) :
  UdpGroup_bind s poller (Ok addrs) = (s0, Ok g0) →
  group_run g0 (receiving, sending) g →
  fds g = fds g0 ∧ batching_reader g ≡ₚ futures g ∧ batching_writer g ≡ₚ futures g ∧
  size (boxes (batching_read_buf g)) ≤ 1 ∧ size (boxes (batching_write_buf g)) ≤ 1 ∧
  (∀ len, (recv_start len g).2 = Ok ()) ∧ (∀ buf raddr, (send_start buf raddr g).2 = Ok ()) ∧
  (receiving = true → ∀ waker order,
     match recv_poll waker order g with
     | (_, Ok Pending) => True
     | (g', Ok (Ready r)) => boxes (batching_read_buf g') = ∅ ∧
         ∀ n bytes path, r = Ok (n, bytes, path) → is_Some (fds g !! path_to path)
     | _ => False
     end) ∧
  (sending = true → ∀ waker order,
     match send_poll waker order g with
     | (_, Ok Pending) => True
     | (g', Ok (Ready r)) => boxes (batching_write_buf g') = ∅ ∧
         ∀ n path, r = Ok (n, path) → is_Some (fds g !! path_from path)
     | _ => False
     end).
Proof.
  intros Hb Hrun. pose proof (UdpGroup_bind_spec opened s poller addrs) as Hspec.
  rewrite Hb in Hspec. destruct Hspec as (Hinv0&_).
  assert (group_inv receiving sending g ∧ fds g = fds g0) as [Hinv Hfds].
  { remember (receiving, sending) as rw eqn:Hrw.
    assert (group_inv rw.1 rw.2 g ∧ fds g = fds g0) as H; [|by rewrite Hrw in H].
    clear Hrw. induction Hrun as [|rw g rw' g' _ [IH ?] Hs]; [done|].
    destruct (group_step_inv _ _ _ _ Hs IH). split; [done|congruence]. }
  pose proof Hinv as [Hr Hw Hrb Hwb _]. split_and!; try done.
  - by eapply cell_ok_size.
  - by eapply cell_ok_size.
  - intros len. by destruct (recv_start_spec _ _ _ len Hinv) as (c&->&_).
  - intros buf ra. by destruct (send_start_spec _ _ _ buf ra Hinv) as (c&->&_).
  - intros -> w order.
    by destruct (recv_poll_spec _ _ w order Hinv) as [[s' ->]|(g'&r&->&_&_&?&?)].
  - intros -> w order.
    by destruct (send_poll_spec _ _ w order Hinv) as [[s' ->]|(g'&r&->&_&_&?&?)].
Qed.

(** ** Witnesses: a driver that cannot bind address 0; sockets with an even token have
    nothing to read *)
Record UdpMock := { mock_open : gset nat; mock_next : nat }.

#[export] Instance UdpMock_RawDriver : RawDriver nat UdpMock := {
  fd_open s d flags :=
    match flags with
    | Bind [0] => (s, Err Other)
    | _ => ({| mock_open := {[mock_next s]} ∪ mock_open s; mock_next := S (mock_next s) |},
            Ok {| token := mock_next s; desc := d; user_defined_desc := None; data := 0 |})
    end;
  fd_cntl s h cmd :=
    match cmd with
    | CmdRegister _ _ => (s, [], Ok RespNone)
    | CmdLocalAddr => (s, [], Ok (RespSockAddr (8000 + token h)))
    | CmdSendTo _ buf _ => (s, [], Ok (RespDataLen (length buf)))
    | CmdRecvFrom _ len =>
        if Nat.even (token h) then (s, [], Err WouldBlock)
        else (s, replicate len x00, Ok (RespRecvFrom len 80))
    | _ => (s, [], Err InvalidInput)
    end;
  fd_close s h := ({| mock_open := mock_open s ∖ {[token h]}; mock_next := mock_next s |}, Ok ());
}.

Definition udp_opened (s : UdpMock) : gset nat := filter (λ x, x < mock_next s) (mock_open s).

Lemma udp_mock_laws : RawDriverLaws nat UdpMock udp_opened.
Proof.
  unfold udp_opened. split; simpl.
  - intros [o n] d f s' r. simpl. intros H.
    assert (s' = {| mock_open := o; mock_next := n |} ∧ r = Err Other ∨
      s' = {| mock_open := {[n]} ∪ o; mock_next := S n |} ∧
      r = Ok {| token := n; desc := d; user_defined_desc := None; data := 0 |}) as [[-> ->]|[-> ->]]
      by (repeat case_match; simplify_eq; auto); simpl; [done|].
    split; [|rewrite elem_of_filter; lia]. apply set_eq. intros x.
    rewrite elem_of_union, !elem_of_filter, elem_of_union, elem_of_singleton.
    destruct (decide (x = n)); intuition lia.
  - intros [o n] h cmd s' buf r H. destruct cmd; simplify_eq/=; try done.
    by destruct (Nat.even _); simplify_eq/=.
  - intros [o n] h Hh. eexists. split; [done|]. apply set_eq. intros x. simpl.
    rewrite elem_of_filter, !elem_of_difference, elem_of_filter. tauto.
Qed.
#[export] Instance udp_mock_udp_laws : UdpDriverLaws nat UdpMock.
Proof.
  split; simpl; [intros s h w len|intros s h w buf ra; eauto].
  destruct (Nat.even (token h)); simpl; eauto.
Qed.

Definition udp0 : UdpMock := {| mock_open := ∅; mock_next := 2 |}.
Definition udp_poller : Handle := {| token := 1; desc := Poller; user_defined_desc := None; data := 0 |}.
Definition udp_bound : UdpMock * res ErrorKind (UdpGroup nat UdpMock) :=
  UdpGroup_bind udp0 udp_poller (Ok [80; 81]).
Definition udp_group : UdpGroup nat UdpMock :=
  match udp_bound.2 with Ok g => g | _ => UdpGroup_new udp0 ∅ ∅ end.

Lemma group_bind_leaks_witness :
  (UdpGroup_bind udp0 udp_poller (Ok ([80] ++ 0 :: [81]))).2 = Err Other ∧
  (∃ hs, length hs = 1 ∧
     udp_opened (UdpGroup_bind udp0 udp_poller (Ok ([80] ++ 0 :: [81]))).1 = tokens hs ∪ udp_opened udp0) ∧
  udp_opened udp_bound.1 = {[2; 3]} ∧
  ∃ s, UdpGroup_drop udp_group = (s, Ok ()) ∧ udp_opened s = udp_opened udp0.
Proof.
  destruct (group_bind_leaks (A:=nat) udp_opened (RawDriverLaws0 := udp_mock_laws) udp0 udp_poller [80] [81] 0) as [_ H].
  destruct (H (bind_loop udp_poller [80] ∅ ∅ udp0).1
    (match (bind_loop (A:=nat) udp_poller [80] ∅ ∅ udp0).2 with Ok m => m | _ => (∅, ∅) end)
    (bind_loop (A:=nat) udp_poller [80] ∅ ∅ udp0).1 Other) as (He&hs&Hl&_&_&Ho);
    [reflexivity|reflexivity|].
  rewrite He. split; [reflexivity|]. split; [exists hs; split; [exact Hl|exact Ho]|].
  split; [vm_compute; reflexivity|].
  destruct (group_bind_leaks (A:=nat) udp_opened (RawDriverLaws0 := udp_mock_laws) udp0 udp_poller [80; 81] [] 0) as [H' _].
  destruct (H' udp_bound.1 udp_group) as (hs'&_&_&_&_&Hd); [vm_compute; reflexivity|].
  apply Hd. vm_compute. reflexivity.
Defined.

Definition udp_receiving : UdpGroup nat UdpMock := (recv_start 3 udp_group).1.

Lemma group_polls_every_socket_witness :
  batching_reader udp_receiving ≡ₚ futures udp_receiving ∧
  match recv_poll 7 (batching_reader udp_receiving) udp_receiving with
  | (g', Ok (Ready r)) => boxes (batching_read_buf g') = ∅
  | _ => False
  end.
Proof.
  destruct (group_polls_every_socket (A:=nat) udp_opened (RawDriverLaws0 := udp_mock_laws)
    udp0 udp_bound.1 udp_poller [80; 81] udp_group udp_receiving true false) as (_&H1&_&_&_&_&_&H2&_).
  - vm_compute. reflexivity.
  - exact (grun_step udp_group _ _ _ _ (grun_refl _) (gs_recv_start false false udp_group 3)).
  - split; [exact H1|]. specialize (H2 eq_refl 7 (batching_reader udp_receiving)).
    destruct (recv_poll 7 (batching_reader udp_receiving) udp_receiving) as [g' [[|r]|e|]] eqn:Hr;
      [vm_compute in Hr; discriminate|exact (proj1 H2)|exact H2|exact H2].
Defined.
