(* ===== verification/Mio.v ===== *)
(** * crates/io/src/mio: the driver over the crate mio

    [World] is everything the driver shares: the heap of the objects that handles point
    to, the pollers, the operating system with its sockets and its clock (class [MioNet],
    the crate mio and std::net), and the log of the tasks woken.  A pointer that does
    not lead to an object of the handle's type is undefined behaviour in the source;
    here it is [Panic], and handles in use are proved never to meet it.  The time wheel
    is that of [Timewheel.v], without interference. *)

From S2P Require Import Prelude IoDriver Timewheel.

(** ** mio and the operating system; a socket and a [mio::Poll] are numbers *)
Record Event := { ev_token : nat; is_readable : bool; is_writable : bool }.

Class MioNet (A Os : Type) := {
  os_now : Os → Os * N;
  os_listener_bind : Os → list A → Os * res ErrorKind nat;
  os_stream_connect : Os → list A → Os * res ErrorKind nat;
  os_udp_bind : Os → list A → Os * res ErrorKind nat;
  os_set_nonblocking : Os → nat → Os * res ErrorKind ();
  os_accept : Os → nat → Os * res ErrorKind (nat * A);
  os_read : Os → nat → nat → Os * res ErrorKind (list byte);
  os_write : Os → nat → list byte → Os * res ErrorKind nat;
  os_send_to : Os → nat → list byte → A → Os * res ErrorKind nat;
  os_recv_from : Os → nat → nat → Os * res ErrorKind (list byte * A);
  os_local_addr : Os → nat → Os * res ErrorKind A;
  os_peer_addr : Os → nat → Os * res ErrorKind A;
  os_shutdown : Os → nat → nat → Os * res ErrorKind ();
  os_set_broadcast : Os → nat → bool → Os * res ErrorKind ();
  os_broadcast : Os → nat → Os * res ErrorKind bool;
  os_drop : Os → nat → Os;
  mio_poll_new : Os → Os * res ErrorKind nat;
  mio_try_clone : Os → nat → Os * res ErrorKind ();
  mio_register : Os → nat → nat → nat → Interest → Os * res ErrorKind ();
  mio_deregister : Os → nat → nat → Os * res ErrorKind ();
  mio_poll : Os → nat → N → Os * res ErrorKind (list Event);
  (** a bound of the consecutive calls that a signal interrupts *)
  interrupts : Os → nat;
}.

(** ** timer.rs *)
Local Open Scope N_scope.

Record MioTimer := {
  start_instant : option N;
  duration : N;
  timer_tick_duration : option N;
  timewheel_ticks : option N;
}.

Definition MioTimer_new (duration : N) : MioTimer :=
  {| start_instant := None; duration := duration; timer_tick_duration := None;
     timewheel_ticks := None |}.

Definition is_started (t : MioTimer) : bool := bool_decide (is_Some (start_instant t)).

(** [start]; the clock is read at [now], and at [now'] by [new_timer]; the wheel was
    created at [wheel_start]. *)
Definition MioTimer_start (t : MioTimer) (now now' token : N) (tick_duration : N)
    (wheel_start : N) (w : HashedTimeWheel N) : MioTimer * HashedTimeWheel N * bool :=
  let '(w, ticks) := new_timer_seq w (now' - wheel_start) token (duration t) in
  ({| start_instant := Some now; duration := duration t;
      timer_tick_duration := Some tick_duration; timewheel_ticks := ticks |},
   w, bool_decide (is_Some ticks)).

(** [None] is the panic of [expect("Must call start first")]. *)
Definition is_expired (t : MioTimer) (now : N) : option bool :=
  match start_instant t with
  | Some start_instant =>
      let elapsed := now - start_instant in
      if decide (duration t ≤ elapsed) then Some true
      else match timer_tick_duration t with
           | Some tick => Some (bool_decide (duration t - elapsed < tick))
           | None => None
           end
  | None => Some false
  end.

(** ** poller.rs *)
Record MioPoller := {
  mio_id : nat;
  read_wakers : gmap nat nat;
  write_wakers : gmap nat nat;
  hashed_timewheel : HashedTimeWheel N;
  wheel_start : N;
  tick : N;
}.

Definition MioPoller_new (mio_id : nat) (tick_duration now : N) : MioPoller :=
  {| mio_id := mio_id; read_wakers := ∅; write_wakers := ∅; hashed_timewheel := HashedTimeWheel_new tick_duration;
     wheel_start := now; tick := tick_duration |}.

Definition set_read_wakers (m : gmap nat nat) (p : MioPoller) : MioPoller :=
  {| mio_id := mio_id p; read_wakers := m; write_wakers := write_wakers p; hashed_timewheel := hashed_timewheel p;
     wheel_start := wheel_start p; tick := tick p |}.
Definition set_write_wakers (m : gmap nat nat) (p : MioPoller) : MioPoller :=
  {| mio_id := mio_id p; read_wakers := read_wakers p; write_wakers := m; hashed_timewheel := hashed_timewheel p;
     wheel_start := wheel_start p; tick := tick p |}.
Definition set_timewheel (w : HashedTimeWheel N) (p : MioPoller) : MioPoller :=
  {| mio_id := mio_id p; read_wakers := read_wakers p; write_wakers := write_wakers p; hashed_timewheel := w;
     wheel_start := wheel_start p; tick := tick p |}.

Definition add_waker (p : MioPoller) (token : nat) (interests : Interest) (waker : nat) : MioPoller :=
  if Interest_contains interests Readable then
    set_read_wakers (<[token := waker]> (read_wakers p)) p
  else if Interest_contains interests Writable then
    set_write_wakers (<[token := waker]> (write_wakers p)) p
  else p.

Definition remove_waker (p : MioPoller) (token : nat) (interests : Interest) : MioPoller * option nat :=
  if Interest_contains interests Readable then
    (set_read_wakers (delete token (read_wakers p)) p, read_wakers p !! token)
  else if Interest_contains interests Writable then
    (set_write_wakers (delete token (write_wakers p)) p, write_wakers p !! token)
  else (p, None).

(** The interests that [poll_once] derives from an event. *)
Definition event_interests (e : Event) : Interest :=
  let interests := Interest_or Readable Writable in
  if negb (is_readable e) then Interest_xor interests Readable
  else if negb (is_writable e) then Interest_xor interests Writable
  else interests.

(** The wake-ups for one event of [hala_events]; the tasks woken. *)
Definition wake_event (p : MioPoller) (e : nat * Interest) : MioPoller * list nat :=
  let '(token, interests) := e in
  let '(p, w1) :=
    if Interest_contains interests Readable then
      (set_read_wakers (delete token (read_wakers p)) p, option_list (read_wakers p !! token))
    else (p, []) in
  let '(p, w2) :=
    if Interest_contains interests Writable then
      (set_write_wakers (delete token (write_wakers p)) p, option_list (write_wakers p !! token))
    else (p, []) in
  (p, w1 ++ w2).

Fixpoint wake_events (p : MioPoller) (es : list (nat * Interest)) : MioPoller * list nat :=
  match es with
  | [] => (p, [])
  | e :: es =>
      let '(p, w1) := wake_event p e in
      let '(p, w2) := wake_events p es in (p, w1 ++ w2)
  end.

(** [poll_once], after mio has delivered [events]: the timers of the ticks passed at
    [now], and the wake-ups. *)
Definition poll_events (p : MioPoller) (now : N) (events : list Event) : MioPoller * list nat :=
  let hala_events := (λ e, (ev_token e, event_interests e)) <$> events in
  let '(w, timeout_timers) := next_tick_seq (hashed_timewheel p) (now - wheel_start p) in
  let timer_events :=
    (λ token, (N.to_nat token, Readable)) <$> default [] timeout_timers in
  wake_events (set_timewheel w p) (hala_events ++ timer_events).

(** The interests that [register] asks of mio; [None] is the panic of [unwrap]: mio
    has no empty interest. *)
Definition mio_interests (interests : Interest) : option Interest :=
  if Interest_contains interests Writable then
    Some (if Interest_contains interests Readable then Interest_or Readable Writable else Writable)
  else if Interest_contains interests Readable then Some Readable else None.

(** ** The shared state *)
Inductive Object :=
| OSocket (d : Description) (sock : nat) (poller : option nat)
| OTimer (t : MioTimer) (poller : option nat)
| OPoller (p : nat).

Section driver.
Context {A Os : Type} `{!MioNet A Os}.

Record World := {
  os : Os;
  heap : gmap nat Object;
  next_ptr : nat;
  next_token : nat;
  pollers : gmap nat MioPoller;
  next_poller : nat;
  woken : list nat;
}.

Definition set_os (o : Os) (w : World) : World :=
  {| os := o; heap := heap w; next_ptr := next_ptr w; next_token := next_token w;
     pollers := pollers w; next_poller := next_poller w; woken := woken w |}.
Definition set_heap (m : gmap nat Object) (w : World) : World :=
  {| os := os w; heap := m; next_ptr := next_ptr w; next_token := next_token w;
     pollers := pollers w; next_poller := next_poller w; woken := woken w |}.
Definition set_poller (i : nat) (p : MioPoller) (w : World) : World :=
  {| os := os w; heap := heap w; next_ptr := next_ptr w; next_token := next_token w;
     pollers := <[i := p]> (pollers w); next_poller := next_poller w; woken := woken w |}.
Definition wake (ts : list nat) (w : World) : World :=
  {| os := os w; heap := heap w; next_ptr := next_ptr w; next_token := next_token w;
     pollers := pollers w; next_poller := next_poller w; woken := woken w ++ ts |}.

(** A call: the state after it, and [Ok], [Err] or a panic. *)
#[local] Notation M := (sm World ErrorKind).

(** [handle.expect(d)?]. *)
Definition expect_ (h : Handle) (d : Description) : M () := λ w, (w, expect h d).
Definition os_call {B} (f : Os → Os * res ErrorKind B) : M B := λ w,
  let '(o, r) := f (os w) in (set_os o w, r).
Definition wake_all (ts : list nat) : M () := λ w, (wake ts w, Ok ()).
(** [Instant::now()]. *)
Definition instant_now : M N := λ w, let '(o, t) := os_now (os w) in (set_os o w, Ok t).

(** [(desc, value).into()]: a new object and its handle. *)
Definition into_handle (d : Description) (o : Object) : M Handle := λ w,
  let '(next, h) := Handle_new (next_token w) d None None (next_ptr w) in
  ({| os := os w; heap := <[next_ptr w := o]> (heap w); next_ptr := S (next_ptr w);
      next_token := next; pollers := pollers w; next_poller := next_poller w;
      woken := woken w |}, Ok h).

(** [drop_as]: the object is dropped, and its socket. *)
Definition drop_at (ptr : nat) (w : World) : World :=
  let w := match heap w !! ptr with
           | Some (OSocket _ sock _) => set_os (os_drop (os w) sock) w
           | _ => w
           end in
  set_heap (delete ptr (heap w)) w.
Definition drop_as (h : Handle) : M () := λ w, (drop_at (data h) w, Ok ()).

(** [TypedHandle::with] and [with_mut]: when the closure panics, the box is dropped. *)
Definition with_ {B} (h : Handle) (f : M B) : M B := λ w,
  match f w with (w, Panic) => (drop_at (data h) w, Panic) | r => r end.

(** The object behind a handle, read as a given type; [poller()] of a
    [MioWithPoller]. *)
Definition get_socket (d : Description) (h : Handle) : M (nat * option nat) := λ w,
  match heap w !! data h with
  | Some (OSocket d' sock p) => if decide (d = d') then (w, Ok (sock, p)) else (w, Panic)
  | _ => (w, Panic)
  end.
Definition get_timer (h : Handle) : M (MioTimer * option nat) := λ w,
  match heap w !! data h with Some (OTimer t p) => (w, Ok (t, p)) | _ => (w, Panic) end.
Definition get_poller (h : Handle) : M nat := λ w,
  match heap w !! data h with Some (OPoller p) => (w, Ok p) | _ => (w, Panic) end.
Definition poller (p : option nat) : M nat := match p with Some p => mret p | None => panic end.
Definition put (h : Handle) (o : Object) : M () := λ w,
  (set_heap (<[data h := o]> (heap w)) w, Ok ()).

(** An access to a poller, of which the object holds a reference. *)
Definition on_poller {B} (i : nat) (f : MioPoller → MioPoller * B) : M B := λ w,
  match pollers w !! i with
  | Some p => let '(p, b) := f p in (set_poller i p w, Ok b)
  | None => (w, Panic)
  end.
Definition read_poller (i : nat) : M MioPoller := on_poller i (λ p, (p, p)).
Definition add_waker_ (i token : nat) (interests : Interest) (waker : nat) : M () :=
  on_poller i (λ p, (add_waker p token interests waker, ())).

(** ** poller.rs: the operations of a poller *)

(** [assert!(current <= ticks)] and the division by the tick duration. *)
Definition wheel_panics (p : MioPoller) (now : N) : bool :=
  bool_decide (tick_duration (hashed_timewheel p) = 0 ∨
    tick_of (hashed_timewheel p) (now - wheel_start p) < ticks (hashed_timewheel p)).

Definition poll_once (i : nat) (timeout : option N) : M () :=
  p ← read_poller i;
  events ← os_call (λ o, mio_poll o (mio_id p) (default (tick p) timeout));
  now ← instant_now;
  p ← read_poller i;
  assert_ (negb (wheel_panics p now));;
  ts ← on_poller i (λ p, poll_events p now events);
  wake_all ts.

(** [register_poller]. *)
Definition register_poller (i : nat) (p : option nat) : M (option nat) :=
  assert_ (bool_decide (p = None));; mret (Some i).

Definition register_socket (i : nat) (d : Description) (h : Handle) (interests : Interest) : M () :=
  with_ h (
    sp ← get_socket d h;
    p ← register_poller i sp.2;
    put h (OSocket d sp.1 p);;
    mp ← read_poller i;
    os_call (λ o, mio_register o (mio_id mp) sp.1 (token h) interests)).

Definition register_timer (i : nat) (h : Handle) : M () :=
  with_ h (
    tp ← get_timer h;
    assert_ (negb (is_started tp.1));;
    p ← register_poller i tp.2;
    now ← instant_now;
    now' ← instant_now;
    mp ← read_poller i;
    assert_ (bool_decide (tick_duration (hashed_timewheel mp) ≠ 0));;
    let '(t, wheel, _) :=
      MioTimer_start tp.1 now now' (N.of_nat (token h)) (tick mp) (wheel_start mp)
        (hashed_timewheel mp) in
    put h (OTimer t p);;
    on_poller i (λ mp, (set_timewheel wheel mp, ()))).

Definition register (i : nat) (h : Handle) (interests : Interest) : M () :=
  match mio_interests interests with
  | None => panic
  | Some mio_interests =>
      match desc h with
      | File => panic
      | TcpListener => register_socket i TcpListener h mio_interests
      | TcpStream => register_socket i TcpStream h mio_interests
      | UdpSocket => register_socket i UdpSocket h mio_interests
      | Timeout => register_timer i h
      | _ => fail InvalidInput
      end
  end.

Definition deregister_socket (i : nat) (d : Description) (h : Handle) : M () :=
  with_ h (
    sp ← get_socket d h;
    mp ← read_poller i;
    os_call (λ o, mio_deregister o (mio_id mp) sp.1)).

Definition deregister (i : nat) (h : Handle) : M () :=
  match desc h with
  | File => panic
  | TcpListener => deregister_socket i TcpListener h
  | TcpStream => deregister_socket i TcpStream h
  | UdpSocket => deregister_socket i UdpSocket h
  | Timeout => with_ h (get_timer h;; mret ())
  | _ => fail InvalidInput
  end;;
  waker ← on_poller i (λ p, remove_waker p (token h) Interest_all);
  wake_all (option_list waker).

(** ** driver.rs *)

(** The loop of [nonblocking_call]: an interrupted call is repeated. *)
Fixpoint retry {B} (fuel : nat) (f : Os → Os * res ErrorKind B) (o : Os) : Os * res ErrorKind B :=
  match fuel with
  | 0%nat => (o, Panic)
  | S fuel =>
      match f o with
      | (o, Err e) => if decide (e = Interrupted) then retry fuel f o else (o, Err e)
      | r => r
      end
  end.

Definition nonblocking_call {B} (i token : nat) (interests : Interest) (waker : nat)
    (f : Os → Os * res ErrorKind B) : M B :=
  add_waker_ i token interests waker;;
  r ← os_call (λ o, retry (S (interrupts o)) f o);
  on_poller i (λ p, remove_waker p token interests);;
  mret r.

Definition timeout_open_ (duration : N) : M Handle :=
  assert_ (negb (bool_decide (duration = 0)));;
  into_handle Timeout (OTimer (MioTimer_new duration) None).

Definition timeout_ (waker : nat) (h : Handle) : M bool :=
  expect_ h Timeout;;
  with_ h (
    tp ← get_timer h;
    now ← instant_now;
    match is_expired tp.1 now with
    | None => panic
    | Some true => mret true
    | Some false =>
        i ← poller tp.2;
        add_waker_ i (token h) Readable waker;;
        mret false
    end).

Definition timeout_close_ (h : Handle) : M () :=
  expect_ h Timeout;;
  with_ h (tp ← get_timer h; i ← poller tp.2; deregister i h);;
  drop_as h.

(** The three constructors of sockets, and the three [close]. *)
Definition open_socket (d : Description) (open : Os → Os * res ErrorKind nat) : M Handle :=
  sock ← os_call open;
  (λ w, match os_set_nonblocking (os w) sock with
        | (o, Ok _) => (set_os o w, Ok ())
        | (o, Err e) => (set_os (os_drop o sock) w, Err e)
        | (o, Panic) => (set_os (os_drop o sock) w, Panic)
        end : World * res ErrorKind ());;
  into_handle d (OSocket d sock None).

Definition close_socket (d : Description) (h : Handle) : M () :=
  expect_ h d;;
  with_ h (sp ← get_socket d h; i ← poller sp.2; deregister i h);;
  drop_as h.

(** A call of a socket's method that may block: [with], [nonblocking_call]. *)
Definition socket_call {B} (d : Description) (interests : Interest) (waker : nat) (h : Handle)
    (f : nat → Os → Os * res ErrorKind B) : M B :=
  expect_ h d;;
  with_ h (
    sp ← get_socket d h;
    i ← poller sp.2;
    nonblocking_call i (token h) interests waker (f sp.1)).

(** A call of another method of a socket. *)
Definition socket_get {B} (d : Description) (h : Handle) (f : nat → Os → Os * res ErrorKind B) : M B :=
  expect_ h d;;
  with_ h (sp ← get_socket d h; os_call (f sp.1)).

Definition tcp_listener_bind_ (laddrs : list A) : M Handle :=
  open_socket TcpListener (λ o, os_listener_bind o laddrs).

Definition tcp_listener_accept_ (waker : nat) (h : Handle) : M (Handle * A) :=
  expect_ h TcpListener;;
  with_ h (
    sp ← get_socket TcpListener h;
    i ← poller sp.2;
    x ← nonblocking_call i (token h) Readable waker (λ o, os_accept (A:=A) o sp.1);
    stream ← into_handle TcpStream (OSocket TcpStream x.1 None);
    mret (stream, x.2)).

Definition tcp_listener_close_ (h : Handle) : M () := close_socket TcpListener h.

Definition tcp_stream_connect_ (raddrs : list A) : M Handle :=
  open_socket TcpStream (λ o, os_stream_connect o raddrs).
Definition tcp_stream_write_ (waker : nat) (h : Handle) (buf : list byte) : M nat :=
  socket_call TcpStream Writable waker h (λ sock o, os_write o sock buf).
Definition tcp_stream_read_ (waker : nat) (h : Handle) (len : nat) : M (list byte) :=
  socket_call TcpStream Readable waker h (λ sock o, os_read o sock len).
Definition tcp_stream_close_ (h : Handle) : M () := close_socket TcpStream h.

Definition udp_socket_bind_ (laddrs : list A) : M Handle :=
  open_socket UdpSocket (λ o, os_udp_bind o laddrs).
Definition udp_socket_sendto_ (waker : nat) (h : Handle) (buf : list byte) (raddr : A) : M nat :=
  socket_call UdpSocket Writable waker h (λ sock o, os_send_to o sock buf raddr).
Definition udp_socket_recv_from_ (waker : nat) (h : Handle) (len : nat) : M (list byte * A) :=
  socket_call UdpSocket Readable waker h (λ sock o, os_recv_from o sock len).
Definition udp_socket_close_ (h : Handle) : M () := close_socket UdpSocket h.

(** [MioPoller::new], in a handle; [Duration::from_micros(10000)]. *)
Definition poller_open_ (duration : option N) : M Handle :=
  let duration := default 10000000 duration in
  id ← os_call mio_poll_new;
  os_call (λ o, mio_try_clone o id);;
  now ← instant_now;
  i ← (λ w, ({| os := os w; heap := heap w; next_ptr := next_ptr w; next_token := next_token w;
                pollers := <[next_poller w := MioPoller_new id duration now]> (pollers w);
                next_poller := S (next_poller w); woken := woken w |}, Ok (next_poller w))
       : World * res ErrorKind nat);
  into_handle Poller (OPoller i).

Definition poller_clone_ (h : Handle) : M Handle :=
  expect_ h Poller;;
  i ← with_ h (get_poller h);
  into_handle Poller (OPoller i).

Definition poller_register_ (p h : Handle) (interests : Interest) : M () :=
  expect_ p Poller;; with_ p (i ← get_poller p; register i h interests).
Definition poller_deregister_ (p h : Handle) : M () :=
  expect_ p Poller;; with_ p (i ← get_poller p; deregister i h).
Definition poller_poll_once_ (p : Handle) (duration : option N) : M () :=
  expect_ p Poller;; with_ p (i ← get_poller p; poll_once i duration).
Definition poller_close_ (p : Handle) : M () :=
  expect_ p Poller;; drop_as p.
End driver.
Arguments World : clear implicits.

(** [impl RawDriverExt for MioDriver]; [todo!()] is a panic. *)
#[export] Instance MioDriver {A Os} `{!MioNet A Os} : RawDriverExt A (World Os) := {
  fd_user_define_open w _ _ := panic w;
  fd_user_define_close w _ _ := panic w;
  fd_user_define_clone w _ := panic w;
  file_open w _ _ := panic w;
  file_write w _ _ _ := panic w;
  file_read w _ _ _ := panic w;
  file_close w _ := panic w;
  timeout_open w duration := timeout_open_ duration w;
  timeout w waker h := timeout_ waker h w;
  timeout_close w h := timeout_close_ h w;
  tcp_listener_bind w laddrs := tcp_listener_bind_ laddrs w;
  tcp_listener_accept w waker h := tcp_listener_accept_ waker h w;
  tcp_listener_close w h := tcp_listener_close_ h w;
  tcp_stream_connect w raddrs := tcp_stream_connect_ raddrs w;
  tcp_stream_write w waker h buf := tcp_stream_write_ waker h buf w;
  tcp_stream_read w waker h len := tcp_stream_read_ waker h len w;
  tcp_stream_close w h := tcp_stream_close_ h w;
  udp_socket_bind w laddrs := udp_socket_bind_ laddrs w;
  udp_socket_sendto w waker h buf raddr := udp_socket_sendto_ waker h buf raddr w;
  udp_socket_recv_from w waker h len := udp_socket_recv_from_ waker h len w;
  udp_socket_close w h := udp_socket_close_ h w;
  udp_socket_set_broadcast w h on := socket_get UdpSocket h (λ sock o, os_set_broadcast o sock on) w;
  udp_socket_get_broadcast w h := socket_get UdpSocket h (λ sock o, os_broadcast o sock) w;
  poller_open w duration := poller_open_ duration w;
  poller_clone w h := poller_clone_ h w;
  poller_register w p h interests := poller_register_ p h interests w;
  poller_reregister w _ _ _ := panic w;
  poller_deregister w p h := poller_deregister_ p h w;
  poller_poll_once w p duration := poller_poll_once_ p duration w;
  poller_close w p := poller_close_ p w;
  tcp_listener_local_addr w h := socket_get TcpListener h (λ sock o, os_local_addr o sock) w;
  tcp_stream_local_addr w h := socket_get TcpStream h (λ sock o, os_local_addr o sock) w;
  tcp_stream_remote_addr w h := socket_get TcpStream h (λ sock o, os_peer_addr o sock) w;
  tcp_stream_shutdown w h how := socket_get TcpStream h (λ sock o, os_shutdown o sock how) w;
  udp_local_addr w h := socket_get UdpSocket h (λ sock o, os_local_addr o sock) w;
}.

(** ** The wake-ups of [poll_once] *)
Section wakes.
Local Open Scope nat_scope.
Implicit Types (p : MioPoller) (es : list (nat * Interest)).

(** The tokens for which a list of events carries an interest. *)
Definition carries (i : Interest) es (t : nat) : bool :=
  existsb (λ e : nat * Interest, bool_decide (e.1 = t) && Interest_contains e.2 i) es.

Definition without (P : nat → bool) (m : gmap nat nat) : gmap nat nat :=
  filter (λ x, P x.1 = false) m.
Definition tasks (m : gmap nat nat) : list nat := (map_to_list m).*2.

(** The wakers of the tokens in [R] and [W] are removed and woken, once each; the
    others are kept. *)
Definition wakes (R W : nat → bool) p (r : MioPoller * list nat) : Prop :=
  read_wakers r.1 = without R (read_wakers p) ∧
  write_wakers r.1 = without W (write_wakers p) ∧
  tasks (read_wakers p) ++ tasks (write_wakers p) ≡ₚ
    r.2 ++ tasks (read_wakers r.1) ++ tasks (write_wakers r.1).

Lemma without_without (P Q : nat → bool) m : without Q (without P m) = without (λ t, P t || Q t) m.
Proof.
  unfold without. rewrite map_filter_filter. apply map_filter_ext. intros t k _. simpl.
  destruct (P t), (Q t); naive_solver.
Qed.

Lemma without_ext (P Q : nat → bool) m : (∀ t, P t = Q t) → without P m = without Q m.
Proof. intros HPQ. unfold without. apply map_filter_ext. intros t k _. simpl. by rewrite HPQ. Qed.

Lemma without_one t m : without (λ t', bool_decide (t = t')) m = delete t m.
Proof.
  unfold without. apply map_eq. intros t'. apply option_eq. intros k.
  rewrite map_lookup_filter_Some, lookup_delete_Some. simpl. rewrite bool_decide_eq_false. naive_solver.
Qed.

Lemma without_none m : without (λ _, false) m = m.
Proof. unfold without. by apply map_filter_id. Qed.

Lemma tasks_delete t m : tasks m ≡ₚ option_list (m !! t) ++ tasks (delete t m).
Proof.
  unfold tasks. destruct (m !! t) as [k|] eqn:Ht; simpl.
  - by rewrite <-(map_to_list_delete _ _ _ Ht).
  - by rewrite delete_id.
Qed.

Lemma wakes_ext R W R' W' p r :
  (∀ t, R t = R' t) → (∀ t, W t = W' t) → wakes R W p r → wakes R' W' p r.
Proof.
  intros HR HW (H1&H2&H3). split_and!; [rewrite H1; by apply without_ext
    |rewrite H2; by apply without_ext|done].
Qed.

Lemma wakes_app R W R' W' p p' p'' l l' :
  wakes R W p (p', l) → wakes R' W' p' (p'', l') →
  wakes (λ t, R t || R' t) (λ t, W t || W' t) p (p'', l ++ l').
Proof.
  intros (HR&HW&Hl) (HR'&HW'&Hl'). simpl in *. split_and!; simpl.
  - by rewrite HR', HR, without_without.
  - by rewrite HW', HW, without_without.
  - by rewrite Hl, Hl', app_assoc.
Qed.

Lemma wakes_nil p : wakes (λ _, false) (λ _, false) p (p, []).
Proof. split_and!; simpl; by rewrite ?without_none. Qed.

(** One interest of an event. *)
Lemma wakes_read t p :
  wakes (λ t', bool_decide (t = t')) (λ _, false) p
    (set_read_wakers (delete t (read_wakers p)) p, option_list (read_wakers p !! t)).
Proof.
  split_and!; simpl; rewrite ?without_one, ?without_none; [done|done|].
  by rewrite (tasks_delete t (read_wakers p)) at 1; rewrite app_assoc.
Qed.
Lemma wakes_write t p :
  wakes (λ _, false) (λ t', bool_decide (t = t')) p
    (set_write_wakers (delete t (write_wakers p)) p, option_list (write_wakers p !! t)).
Proof.
  split_and!; simpl; rewrite ?without_one, ?without_none; [done|done|].
  rewrite (tasks_delete t (write_wakers p)) at 1. solve_Permutation.
Qed.

Lemma wake_event_wakes p e :
  wakes (carries Readable [e]) (carries Writable [e]) p (wake_event p e).
Proof.
  destruct e as [t i]. unfold wake_event.
  eapply wakes_ext with
    (R := λ t', (if Interest_contains i Readable then bool_decide (t = t') else false) || false)
    (W := λ t', false || (if Interest_contains i Writable then bool_decide (t = t') else false)).
  1,2: intros t'; unfold carries; simpl; rewrite ?orb_false_r;
    destruct (Interest_contains i _); by rewrite ?andb_true_r, ?andb_false_r.
  destruct (Interest_contains i Readable), (Interest_contains i Writable);
    (eapply wakes_app;
       [first [apply (wakes_read t p)|apply (wakes_nil p)]|first [apply wakes_write|apply wakes_nil]]).
Qed.

Lemma wake_events_wakes es p :
  wakes (carries Readable es) (carries Writable es) p (wake_events p es).
Proof.
  revert p. induction es as [|e es IH]; intros p; simpl; [apply wakes_nil|].
  pose proof (wake_event_wakes p e) as He. destruct (wake_event p e) as [p1 w1].
  specialize (IH p1). destruct (wake_events p1 es) as [p2 w2].
  eapply wakes_ext; [| |exact (wakes_app _ _ _ _ _ _ _ _ _ He IH)];
    intros t; unfold carries; simpl; by rewrite orb_false_r.
Qed.

Lemma carries_cons i e es t :
  carries i (e :: es) t = bool_decide (e.1 = t) && Interest_contains e.2 i || carries i es t.
Proof. done. Qed.

Lemma carries_app i es es' t : carries i (es ++ es') t = carries i es t || carries i es' t.
Proof. apply existsb_app. Qed.
End wakes.

(** The tokens that mio reports: readable, and what the driver takes as writable. *)
Definition reported_readable (events : list Event) (t : nat) : bool :=
  existsb (λ e, bool_decide (ev_token e = t) && is_readable e) events.
Definition reported_writable (events : list Event) (t : nat) : bool :=
  existsb (λ e, bool_decide (ev_token e = t) && (is_writable e || negb (is_readable e))) events.
(** The timers handed out by the wheel. *)
Definition fired_timers (p : MioPoller) (now : N) : list N :=
  default [] (next_tick_seq (hashed_timewheel p) (now - wheel_start p)).2.

Lemma carries_events (events : list Event) t :
  let es := (λ e, (ev_token e, event_interests e)) <$> events in
  carries Readable es t = reported_readable events t ∧
  carries Writable es t = reported_writable events t.
Proof.
  induction events as [|[tok r w] events [IH1 IH2]]; [done|]. cbv zeta in *.
  rewrite fmap_cons, !carries_cons, IH1, IH2. unfold event_interests. by destruct r, w.
Qed.

Lemma carries_timers (ts : list N) t :
  let es := (λ token, (N.to_nat token, Readable)) <$> ts in
  carries Readable es t = bool_decide (N.of_nat t ∈ ts) ∧ carries Writable es t = false.
Proof.
  induction ts as [|tok ts [IH1 IH2]]; [done|]. cbv zeta in *.
  rewrite fmap_cons, !carries_cons, IH1, IH2. simpl. rewrite andb_true_r, andb_false_r. split; [|done].
  rewrite <-bool_decide_or. apply bool_decide_ext. rewrite elem_of_cons.
  assert (N.to_nat tok = t ↔ N.of_nat t = tok) as -> by lia. done.
Qed.

(** ** The clock of a timer *)
Lemma is_expired_iff (t : MioTimer) (start now td : N) :
  start_instant t = Some start → timer_tick_duration t = Some td → 0 < td →
  is_expired t now = Some true ↔ start + duration t < N.max start now + td.
Proof.
  intros Hs Ht Htd. unfold is_expired. rewrite Hs, Ht.
  case_decide; [split; [lia|done]|].
  split; [intros [= Hb%bool_decide_eq_true]; lia|intros; f_equal; apply bool_decide_eq_true; lia].
Qed.

(** ** The calls that do not block *)
Section retry.
Context {A Os : Type} `{!MioNet A Os}.

(** What [f] keeps of the operating system's promises: it is interrupted finitely
    often, and does not panic. *)
Record may_block {B} (f : Os → Os * res ErrorKind B) : Prop := {
  mb_interrupts o o' : f o = (o', Err Interrupted) → (interrupts o' < interrupts o)%nat;
  mb_panic o : (f o).2 ≠ Panic;
}.

Lemma retry_spec {B} (f : Os → Os * res ErrorKind B) n o o' r :
  may_block f → (interrupts o < n)%nat → retry n f o = (o', r) →
  (∃ o1, f o1 = (o', r)) ∧ r ≠ Panic ∧ r ≠ Err Interrupted.
Proof.
  intros [Hi Hp]. revert o. induction n as [|n IH]; intros o Hn Hr; [lia|]. simpl in Hr.
  specialize (Hp o). destruct (f o) as [o1 r1] eqn:Hf.
  destruct r1 as [b|e|]; [by simplify_eq; eauto| |done].
  case_decide as He; [|simplify_eq; naive_solver].
  subst. apply (IH o1); [|done]. apply Hi in Hf. lia.
Qed.
End retry.

(** ** Handles in use *)
Section in_use.
Local Open Scope nat_scope.
Context {A Os : Type} `{!MioNet A Os}.
Implicit Types (w : World Os) (h : Handle) (o : Object).

(** An object that is consistent with the pollers, and one that is registered. *)
Definition object_ok w o : Prop :=
  match o with
  | OSocket d _ p => (d = TcpListener ∨ d = TcpStream ∨ d = UdpSocket) ∧
      ∀ i, p = Some i → is_Some (pollers w !! i)
  | OTimer t p =>
      (is_started t = true ↔ is_Some p) ∧ (is_started t = true → is_Some (timer_tick_duration t)) ∧
      ∀ i, p = Some i → is_Some (pollers w !! i)
  | OPoller i => is_Some (pollers w !! i)
  end.

Definition registered (d : Description) o : Prop :=
  match o with
  | OSocket d' _ p => d = d' ∧ is_Some p
  | OTimer _ p => d = Timeout ∧ is_Some p
  | OPoller _ => d = Poller
  end.

Record wf w : Prop := {
  wf_heap ptr o : heap w !! ptr = Some o → object_ok w o ∧ ptr < next_ptr w;
  wf_pollers i p : pollers w !! i = Some p → i < next_poller w;
}.

(** A handle that leads to a registered object of its own type. *)
Definition in_use w h : Prop := ∃ o, heap w !! data h = Some o ∧ registered (desc h) o.

(** What every call keeps: the objects at other addresses, and well-formedness. *)
Record ext w w' : Prop := {
  ext_heap : heap w ⊆ heap w';
  ext_pollers i : is_Some (pollers w !! i) → is_Some (pollers w' !! i);
  ext_wf : wf w → wf w';
}.

#[export] Instance ext_preorder : PreOrder ext.
Proof.
  split; [by split|]. intros w1 w2 w3 [H1 P1 W1] [H2 P2 W2].
  split; [by etrans|auto|auto].
Qed.

Lemma in_use_ext w w' h : ext w w' → in_use w h → in_use w' h.
Proof. intros [Hh _ _] (o&Ho&Hr). exists o. split; [by eapply lookup_weaken|done]. Qed.

(** [m] does not panic on [w], keeps what every call keeps, and ensures [Q]. *)
Definition safe {B} (m : sm (World Os) ErrorKind B) w (Q : B → World Os → Prop) : Prop :=
  ext w (m w).1 ∧ (m w).2 ≠ Panic ∧ ∀ b, (m w).2 = Ok b → Q b (m w).1.

Lemma safe_bind {B C} (m : sm (World Os) ErrorKind B) (f : B → sm (World Os) ErrorKind C) w Q R :
  safe m w R → (∀ b w', ext w w' → R b w' → safe (f b) w' Q) → safe (m ≫= f) w Q.
Proof.
  intros (He&Hp&HR) Hf. unfold safe, mbind, sm_bind in *.
  destruct (m w) as [w1 [b|e|]]; simpl in *; [|done|done].
  destruct (Hf b w1 He (HR b eq_refl)) as (He'&Hp'&HQ). by split; [etrans|].
Qed.

Lemma safe_ret {B} (b : B) w (Q : B → World Os → Prop) : Q b w → safe (mret b) w Q.
Proof. intros. split_and!; [done|done|]. by intros ? [= <-]. Qed.

Lemma safe_mono {B} (m : sm (World Os) ErrorKind B) w (Q R : B → World Os → Prop) :
  safe m w Q → (∀ b w', Q b w' → R b w') → safe m w R.
Proof. intros (?&?&?) ?. split_and!; auto. Qed.

(** Changes to the operating system and to the content of a poller. *)
Lemma wf_same w w' :
  heap w' = heap w → next_ptr w' = next_ptr w → next_poller w' = next_poller w →
  (∀ i, is_Some (pollers w' !! i) ↔ is_Some (pollers w !! i)) → wf w → wf w'.
Proof.
  intros Hh Hn Hp Hi [W1 W2]. split.
  - rewrite Hh, Hn. intros ptr o Ho. destruct (W1 _ _ Ho) as [Hok ?]. split; [|done].
    destruct o; simpl in *; setoid_rewrite Hi; done.
  - rewrite Hp. intros i p Hl. destruct (proj1 (Hi i)) as [p' Hp']; eauto.
Qed.

Lemma ext_os w (st : Os) : ext w (set_os st w).
Proof. split; [done|done|]. by apply wf_same. Qed.

Lemma ext_poller w i p : is_Some (pollers w !! i) → ext w (set_poller i p w).
Proof.
  intros Hi. assert (∀ j, is_Some (pollers (set_poller i p w) !! j) ↔ is_Some (pollers w !! j)).
  { intros j. simpl. destruct (decide (i = j)) as [<-|]; [rewrite lookup_insert_eq|rewrite lookup_insert_ne by done]; naive_solver. }
  split; [done|naive_solver|]. by apply wf_same.
Qed.

Lemma safe_os_call {B} (f : Os → Os * res ErrorKind B) w :
  (∀ st, (f st).2 ≠ Panic) → safe (os_call f) w (λ _ _, True).
Proof.
  intros Hf. unfold safe, os_call. specialize (Hf (os w)).
  destruct (f (os w)) as [o r]. simpl in *. split_and!; [apply ext_os|done|done].
Qed.

Lemma safe_instant w : safe (instant_now (A:=A)) w (λ _ _, True).
Proof.
  unfold safe, instant_now. destruct (os_now (os w)). simpl. split_and!; [apply ext_os|done|done].
Qed.

Lemma safe_on_poller {B} i (f : MioPoller → MioPoller * B) w :
  is_Some (pollers w !! i) → safe (on_poller (Os:=Os) i f) w (λ _ _, True).
Proof.
  intros Hi. unfold safe, on_poller. pose proof Hi as [p Hp]. rewrite Hp.
  destruct (f p) as [p' b]. simpl. split_and!; [by apply ext_poller|done|done].
Qed.

Lemma safe_with {B} h (m : sm (World Os) ErrorKind B) w (Q : B → World Os → Prop) : safe m w Q → safe (with_ h m) w Q.
Proof.
  unfold safe, with_. destruct (m w) as [w' [b|e|]]; simpl; [done|done|]. by intros (_&[]&_).
Qed.

Lemma safe_into_handle d o w (Q : Handle → World Os → Prop) :
  wf w → object_ok w o →
  (∀ h w', heap w' = <[data h := o]> (heap w) → heap w !! data h = None → desc h = d → Q h w') →
  safe (into_handle d o) w Q.
Proof.
  intros [W1 W2] Ho HQ.
  assert (heap w !! next_ptr w = None) as Hfresh.
  { apply eq_None_not_Some. intros [o' Ho']. apply W1 in Ho'. lia. }
  unfold safe, into_handle. simpl. split_and!; [|done|].
  - split; simpl; [by apply insert_subseteq|done|]. intros _. split; simpl; [|done].
    intros ptr o' [[<- <-]|[_ Hl]]%lookup_insert_Some; [by split; [destruct o|lia]|].
    destruct (W1 _ _ Hl) as [Hok ?]. split; [by destruct o'|lia].
  - intros h [= <-]. by apply HQ.
Qed.

(** What is behind a handle in use. *)
Lemma in_use_socket w h d :
  wf w → in_use w h → desc h = d → d = TcpListener ∨ d = TcpStream ∨ d = UdpSocket →
  ∃ sock i, heap w !! data h = Some (OSocket d sock (Some i)) ∧ is_Some (pollers w !! i) ∧
            get_socket d h w = (w, Ok (sock, Some i)).
Proof.
  intros [W1 _] (o&Ho&Hr) Hd Hk. destruct (W1 _ _ Ho) as [Hok _]. unfold get_socket. rewrite Ho.
  destruct o as [d' sock p|t p|i]; simpl in *; [|destruct Hr; intuition congruence|intuition congruence].
  destruct Hr as [Hr [i ->]]. destruct Hok as [_ Hp]. exists sock, i.
  rewrite <-Hd, Hr in *. rewrite decide_True by done. eauto.
Qed.

Lemma in_use_timer w h :
  wf w → in_use w h → desc h = Timeout →
  ∃ t i, heap w !! data h = Some (OTimer t (Some i)) ∧ is_Some (pollers w !! i) ∧
         is_Some (timer_tick_duration t) ∧ get_timer h w = (w, Ok (t, Some i)).
Proof.
  intros [W1 _] (o&Ho&Hr) Hd. destruct (W1 _ _ Ho) as [Hok _]. unfold get_timer. rewrite Ho.
  destruct o as [d' sock p|t p|i]; simpl in *.
  - destruct Hr as [Hr _]. rewrite Hd in Hr. subst. destruct Hok as [Hk _]. intuition congruence.
  - destruct Hr as [_ [i ->]]. destruct Hok as (Hs&Ht&Hp). exists t, i. split_and!; eauto.
    apply Ht, Hs. eauto.
  - congruence.
Qed.

Lemma in_use_poller w h :
  wf w → in_use w h → desc h = Poller →
  ∃ i, heap w !! data h = Some (OPoller i) ∧ is_Some (pollers w !! i) ∧ get_poller h w = (w, Ok i).
Proof.
  intros [W1 _] (o&Ho&Hr) Hd. destruct (W1 _ _ Ho) as [Hok _]. unfold get_poller. rewrite Ho.
  destruct o as [d' sock p|t p|i]; simpl in *; [| |eauto].
  - destruct Hr as [Hr _]. rewrite Hd in Hr. subst. destruct Hok as [Hk _]. intuition congruence.
  - destruct Hr. congruence.
Qed.

Lemma in_use_kind w h :
  wf w → in_use w h → match desc h with File | External _ => False | _ => True end.
Proof.
  intros [W _] (o&Ho&Hr). destruct (W _ _ Ho) as [Hok _].
  destruct o; simpl in *; [destruct Hr as [-> _]; naive_solver|by destruct Hr as [-> _]|by rewrite Hr].
Qed.

(** A read of the state, known by an equation. *)
Lemma safe_eq {B} (m m' : sm (World Os) ErrorKind B) w (Q : B → World Os → Prop) : m w = m' w → safe m' w Q → safe m w Q.
Proof. unfold safe. by intros ->. Qed.

Lemma safe_known {B C} (m : sm (World Os) ErrorKind B) (f : B → sm (World Os) ErrorKind C) b w (Q : C → World Os → Prop) :
  m w = (w, Ok b) → safe (f b) w Q → safe (m ≫= f) w Q.
Proof. intros Hm. apply safe_eq. by apply bind_known. Qed.

Lemma expect_known h d w : desc h = d → expect_ h d w = (w, Ok ()).
Proof. intros Hd. unfold expect_, expect. by rewrite decide_True. Qed.
End in_use.

(** What the program relies on: calls of mio and the system do not panic, and
    interruptions stop. *)
Class MioNetLaws (A Os : Type) `{!MioNet A Os} : Prop := {
  law_accept sock : may_block (λ o, os_accept (A:=A) o sock);
  law_read sock n : may_block (λ o, os_read o sock n);
  law_write sock buf : may_block (λ o, os_write o sock buf);
  law_send_to sock buf (raddr : A) : may_block (λ o, os_send_to o sock buf raddr);
  law_recv_from sock n : may_block (λ o, os_recv_from (A:=A) o sock n);
  law_listener_bind laddrs (o : Os) : (os_listener_bind (A:=A) o laddrs).2 ≠ Panic;
  law_stream_connect raddrs (o : Os) : (os_stream_connect (A:=A) o raddrs).2 ≠ Panic;
  law_udp_bind laddrs (o : Os) : (os_udp_bind (A:=A) o laddrs).2 ≠ Panic;
  law_set_nonblocking sock (o : Os) : (os_set_nonblocking o sock).2 ≠ Panic;
  law_poll_new (o : Os) : (mio_poll_new o).2 ≠ Panic;
  law_try_clone id (o : Os) : (mio_try_clone o id).2 ≠ Panic;
  law_local_addr sock (o : Os) : (os_local_addr (A:=A) o sock).2 ≠ Panic;
  law_peer_addr sock (o : Os) : (os_peer_addr (A:=A) o sock).2 ≠ Panic;
  law_shutdown sock how (o : Os) : (os_shutdown o sock how).2 ≠ Panic;
  law_set_broadcast sock on (o : Os) : (os_set_broadcast o sock on).2 ≠ Panic;
  law_broadcast sock (o : Os) : (os_broadcast o sock).2 ≠ Panic;
  law_register id sock token i (o : Os) : (mio_register o id sock token i).2 ≠ Panic;
  law_deregister id sock (o : Os) : (mio_deregister o id sock).2 ≠ Panic;
}.

(** ** The calls on a handle in use *)
Section calls.
Local Open Scope nat_scope.
Context {A Os : Type} `{!MioNet A Os, !MioNetLaws A Os}.
Implicit Types (w : World Os) (h : Handle).

Definition is_socket (d : Description) : Prop := d = TcpListener ∨ d = TcpStream ∨ d = UdpSocket.

Lemma safe_nonblocking {B} i token interests waker (f : Os → Os * res ErrorKind B) w :
  is_Some (pollers w !! i) → may_block f →
  safe (nonblocking_call i token interests waker f) w (λ _ _, True).
Proof.
  intros Hi Hf. unfold nonblocking_call.
  eapply safe_bind; [apply safe_on_poller, Hi|intros _ w1 H1 _].
  eapply safe_bind; [apply safe_os_call|intros b w2 H2 _].
  { intros st. destruct (retry (S (interrupts st)) f st) as [st' r] eqn:Hr.
    by eapply retry_spec in Hr as (_&?&_); [|done|lia]. }
  eapply safe_bind; [apply safe_on_poller; by apply H2, H1|intros ? w3 _ _]. by apply safe_ret.
Qed.

Lemma safe_socket_call {B} d interests waker h (f : nat → Os → Os * res ErrorKind B) w :
  wf w → in_use w h → desc h = d → is_socket d → (∀ sock, may_block (f sock)) →
  safe (socket_call d interests waker h f) w (λ _ _, True).
Proof.
  intros Hwf Hu Hd Hk Hf. destruct (in_use_socket _ _ _ Hwf Hu Hd Hk) as (sock&i&_&Hi&Hg).
  eapply safe_known; [by apply expect_known|]. apply safe_with.
  eapply safe_known; [exact Hg|]. by apply safe_nonblocking.
Qed.

Lemma safe_socket_get {B} d h (f : nat → Os → Os * res ErrorKind B) w :
  wf w → in_use w h → desc h = d → is_socket d → (∀ sock st, (f sock st).2 ≠ Panic) →
  safe (socket_get d h f) w (λ _ _, True).
Proof.
  intros Hwf Hu Hd Hk Hf. destruct (in_use_socket _ _ _ Hwf Hu Hd Hk) as (sock&i&_&Hi&Hg).
  eapply safe_known; [by apply expect_known|]. apply safe_with.
  eapply safe_known; [exact Hg|]. by apply safe_os_call.
Qed.

Lemma safe_accept waker h w :
  wf w → in_use w h → desc h = TcpListener →
  safe (tcp_listener_accept_ waker h : sm (World Os) ErrorKind (Handle * A)) w (λ _ _, True).
Proof.
  intros Hwf Hu Hd.
  destruct (in_use_socket _ _ _ Hwf Hu Hd (or_introl eq_refl)) as (sock&i&_&Hi&Hg).
  eapply safe_known; [by apply expect_known|]. apply safe_with.
  eapply safe_known; [exact Hg|]. eapply safe_known; [done|].
  eapply safe_bind; [by apply safe_nonblocking, law_accept|intros x w1 H1 _].
  eapply safe_bind; [|intros b w2 _ _; by apply safe_ret].
  apply safe_into_handle with (Q := λ _ _, True); [by apply H1| |done]. simpl. naive_solver.
Qed.

Lemma safe_timeout waker h w :
  wf w → in_use w h → desc h = Timeout → safe (timeout_ waker h) w (λ _ _, True).
Proof.
  intros Hwf Hu Hd. destruct (in_use_timer _ _ Hwf Hu Hd) as (t&i&_&Hi&[td Htd]&Hg).
  eapply safe_known; [by apply expect_known|]. apply safe_with.
  eapply safe_known; [exact Hg|]. simpl.
  eapply safe_bind; [apply safe_instant|intros now w1 H1 _].
  unfold is_expired. rewrite Htd.
  assert (safe (add_waker_ i (token h) Readable waker;; mret false) w1 (λ _ _, True)) as Hadd.
  { eapply safe_bind; [by apply safe_on_poller, H1|intros _ w2 _ _]. by apply safe_ret. }
  destruct (start_instant t); [|exact Hadd].
  case_decide; [by apply safe_ret|]. case_bool_decide; [by apply safe_ret|exact Hadd].
Qed.

Lemma safe_wake_all (ts : list nat) w : safe (wake_all ts) w (λ _ _, True).
Proof. split_and!; simpl; [|done|done]. split; [done|done|]. by apply wf_same. Qed.

(** [deregister] on an object in use. *)
Lemma safe_deregister i h w :
  wf w → in_use w h → desc h ≠ Poller → is_Some (pollers w !! i) →
  safe (deregister i h) w (λ _ _, True).
Proof.
  intros Hwf Hu Hnp Hi.
  assert (∀ d, desc h = d → is_socket d → safe (deregister_socket i d h) w (λ _ _, True)) as Hsock.
  { intros d Hd Hk. destruct (in_use_socket _ _ _ Hwf Hu Hd Hk) as (sock&j&_&_&Hg).
    apply safe_with. eapply safe_known; [exact Hg|].
    eapply safe_bind; [by apply safe_on_poller|intros mp w1 H1 _].
    apply safe_os_call. intros st. apply law_deregister. }
  eapply safe_bind with (R := λ _ _, True).
  - destruct (desc h) eqn:Hd; try (by apply Hsock; unfold is_socket; auto).
    + pose proof (in_use_kind w h Hwf Hu) as Hk. by rewrite Hd in Hk.
    + destruct (in_use_timer _ _ Hwf Hu Hd) as (t&j&_&_&_&Hg).
      apply safe_with. eapply safe_known; [exact Hg|]. by apply safe_ret.
    + by destruct Hnp.
    + pose proof (in_use_kind w h Hwf Hu) as Hk. by rewrite Hd in Hk.
  - intros _ w1 H1 _. eapply safe_bind; [by apply safe_on_poller, H1|intros ? w2 _ _].
    apply safe_wake_all.
Qed.

(** What a call on [h] guarantees to the other handles. *)
Definition keeps_others {B} h w (r : World Os * res ErrorKind B) : Prop :=
  r.2 ≠ Panic ∧ wf r.1 ∧ ∀ h', data h' ≠ data h → in_use w h' → in_use r.1 h'.

Lemma drop_at_spec ptr w :
  wf w → wf (drop_at ptr w) ∧ heap (drop_at ptr w) = delete ptr (heap w).
Proof.
  intros [W1 W2]. assert (heap (drop_at ptr w) = delete ptr (heap w)) as Hh.
  { unfold drop_at. by destruct (heap w !! ptr) as [[]|]. }
  assert (pollers (drop_at ptr w) = pollers w ∧ next_ptr (drop_at ptr w) = next_ptr w ∧
          next_poller (drop_at ptr w) = next_poller w) as (Hp&Hn&Hq).
  { unfold drop_at. by destruct (heap w !! ptr) as [[]|]. }
  split; [|done]. split.
  - rewrite Hh, Hn. intros q o [_ Hl]%lookup_delete_Some. destruct (W1 _ _ Hl). split; [|done].
    by destruct o; simpl in *; rewrite Hp.
  - rewrite Hp, Hq. done.
Qed.

#[local] Opaque drop_at.

(** [close]: the call, then [drop_as]. *)
Lemma drop_after (m : sm (World Os) ErrorKind ()) h w :
  wf w → safe m w (λ _ _, True) →
  let r := (m;; drop_as h) w in
  keeps_others h w r ∧ (r.2 = Ok () → heap r.1 !! data h = None).
Proof.
  intros Hwf (He&Hp&_). unfold keeps_others, mbind, sm_bind, drop_as.
  destruct (m w) as [w1 [[]|e|]]; simpl in *; [|by split_and!; [|apply He| |]; eauto using in_use_ext|done].
  destruct (drop_at_spec (data h) w1 ltac:(by apply He)) as [Hwf' Hh]. split_and!; [done|done| |].
  - intros h' Hne Hu. apply (in_use_ext _ _ _ He) in Hu as (o&Ho&Hr). exists o. split; [|done].
    by rewrite Hh, lookup_delete_ne by done.
  - intros _. by rewrite Hh, lookup_delete_eq.
Qed.

Lemma close_spec h w :
  wf w → in_use w h →
  let r := fd_close w h in
  keeps_others h w r ∧ (r.2 = Ok () → heap r.1 !! data h = None).
Proof.
  intros Hwf Hu. pose proof (in_use_kind w h Hwf Hu) as Hkind. simpl. unfold proxy_close.
  assert (∀ d, desc h = d → is_socket d →
    let r := close_socket d h w in keeps_others h w r ∧ (r.2 = Ok () → heap r.1 !! data h = None)) as Hs.
  { intros d Hd Hk. destruct (in_use_socket _ _ _ Hwf Hu Hd Hk) as (sock&i&_&Hi&Hg).
    unfold close_socket. rewrite (bind_known _ _ () w w) by (by apply expect_known).
    apply drop_after; [done|]. apply safe_with. eapply safe_known; [exact Hg|].
    eapply safe_known; [done|]. apply safe_deregister; [done|done| |done].
    rewrite Hd. intros ->. by destruct Hk as [?|[?|?]]. }
  destruct (desc h) eqn:Hd; try done; try (apply Hs; [done|unfold is_socket; by auto]).
  - destruct (in_use_timer _ _ Hwf Hu Hd) as (t&i&_&Hi&_&Hg). simpl. unfold timeout_close_.
    rewrite (bind_known _ _ () w w) by (by apply expect_known).
    apply drop_after; [done|]. apply safe_with. eapply safe_known; [exact Hg|].
    eapply safe_known; [done|]. apply safe_deregister; [done|done| |done]. by rewrite Hd.
  - simpl. unfold poller_close_.
    rewrite (bind_known _ _ () w w) by (by apply expect_known).
    refine (drop_after (mret ()) h w Hwf _). by apply safe_ret.
Qed.

(** A new object behind its handle, not yet registered. *)
Definition fresh w h : Prop :=
  (∃ sock, heap w !! data h = Some (OSocket (desc h) sock None)) ∨
  (∃ t, desc h = Timeout ∧ heap w !! data h = Some (OTimer t None)).

Lemma put_spec h w o o' :
  wf w → heap w !! data h = Some o' → (∀ d, ¬ registered d o') → object_ok w o →
  registered (desc h) o →
  let w' := set_heap (<[data h := o]> (heap w)) w in
  wf w' ∧ in_use w' h ∧ ∀ h', in_use w h' → in_use w' h'.
Proof.
  intros [W1 W2] Ho' Hn Ho Hr w'. split_and!.
  - split; [|done]. simpl. intros ptr x [[<- <-]|[_ Hx]]%lookup_insert_Some.
    + split; [by destruct o|]. by apply W1 in Ho' as [_ ?].
    + destruct (W1 _ _ Hx). split; [by destruct x|done].
  - exists o. split; [apply lookup_insert_eq|done].
  - intros h' (x&Hx&Hrx). exists x. split; [|done]. simpl. rewrite lookup_insert_ne; [done|].
    intros Heq. rewrite Heq in Ho'. simplify_eq. by eapply Hn.
Qed.

Lemma put_known {B} h o (f : () → sm (World Os) ErrorKind B) w :
  (put h o ≫= f) w = f () (set_heap (<[data h := o]> (heap w)) w).
Proof. done. Qed.

(** The outcome of a registration. *)
Definition registers h w (r : World Os * res ErrorKind ()) : Prop :=
  r.2 ≠ Panic ∧ wf r.1 ∧ in_use r.1 h ∧ ∀ h', in_use w h' → in_use r.1 h'.

Lemma registers_with h h' w (m : sm (World Os) ErrorKind ()) : registers h w (m w) → registers h w (with_ h' m w).
Proof. unfold registers, with_. destruct (m w) as [w' [[]|e|]]; simpl; [done|done|]. by intros [[] _]. Qed.

Lemma registers_after h w w' (m : sm (World Os) ErrorKind ()) :
  wf w' → in_use w' h → (∀ h', in_use w h' → in_use w' h') → safe m w' (λ _ _, True) →
  registers h w (m w').
Proof.
  intros Hwf Hu Ho (He&Hp&_). split_and!; [done|by apply He|by eapply in_use_ext|].
  intros h' Hh'. eapply in_use_ext; [done|auto].
Qed.

Lemma register_socket_spec i d h interests w sock :
  wf w → is_Some (pollers w !! i) → is_socket d → desc h = d →
  heap w !! data h = Some (OSocket d sock None) →
  registers h w (register_socket i d h interests w).
Proof.
  intros Hwf Hi Hk Hd Ho. apply registers_with.
  rewrite (bind_known _ _ (sock, None) w w) by (unfold get_socket; by rewrite Ho, decide_True).
  rewrite (bind_known _ _ (Some i) w w) by done. simpl fst. rewrite put_known.
  destruct (put_spec h w (OSocket d sock (Some i)) _ Hwf Ho) as (Hwf'&Hu&Hother).
  - by intros d' [_ [? ?]].
  - split; [done|]. by intros ? [= ->].
  - split; [done|eauto].
  - apply registers_after; [done|done|done|].
    eapply safe_bind; [by apply safe_on_poller|intros mp w1 _ _].
    apply safe_os_call. intros st. apply law_register.
Qed.

(** A call that succeeds and keeps what every call keeps. *)
Definition runs {B} (m : sm (World Os) ErrorKind B) w : Prop := ∃ b w', m w = (w', Ok b) ∧ ext w w'.

Lemma runs_instant w : runs instant_now w.
Proof.
  unfold runs, instant_now. destruct (os_now (os w)) as [st t]. eexists _, _.
  split; [done|apply ext_os].
Qed.

Lemma runs_read_poller i w :
  is_Some (pollers w !! i) →
  ∃ p w', read_poller i w = (w', Ok p) ∧ ext w w' ∧ pollers w !! i = Some p.
Proof.
  intros [p Hp]. unfold read_poller, on_poller. rewrite Hp. eexists _, _. split; [done|].
  split; [by apply ext_poller|done].
Qed.

Lemma registers_bind {B} h w w1 (m : sm (World Os) ErrorKind B) (f : B → sm (World Os) ErrorKind ()) :
  runs m w1 → (∀ b w', ext w1 w' → registers h w (f b w')) → registers h w ((m ≫= f) w1).
Proof. intros (b&w'&Hm&He) Hf. unfold mbind, sm_bind. rewrite Hm. by apply Hf. Qed.

Lemma registers_mono h w w1 (r : World Os * res ErrorKind ()) :
  ext w w1 → registers h w1 r → registers h w r.
Proof. intros He (?&?&?&Ho). split_and!; [done..|]. intros. by apply Ho, (in_use_ext _ _ _ He). Qed.

Lemma register_timer_spec i h w t :
  wf w → is_Some (pollers w !! i) → desc h = Timeout →
  heap w !! data h = Some (OTimer t None) →
  (∀ p, pollers w !! i = Some p → tick_duration (hashed_timewheel p) ≠ 0%N) →
  registers h w (register_timer i h w).
Proof.
  intros Hwf Hi Hd Ho Htick. apply registers_with.
  assert (is_started t = false) as Hst.
  { destruct Hwf as [W _]. apply W in Ho as [[Hs _] _]. destruct (is_started t); [|done].
    by destruct (proj1 Hs eq_refl). }
  rewrite (bind_known _ _ (t, None) w w) by (unfold get_timer; by rewrite Ho). simpl fst. rewrite Hst.
  rewrite (bind_known _ _ () w w) by done. rewrite (bind_known _ _ (Some i) w w) by done.
  destruct (runs_instant w) as (now&w1&E1&X1). unfold mbind at 1, sm_bind at 1. rewrite E1.
  destruct (runs_instant w1) as (now'&w2&E2&X2). unfold mbind at 1, sm_bind at 1. rewrite E2.
  assert (pollers w2 = pollers w ∧ heap w2 = heap w) as [Hp2 Hh2].
  { unfold instant_now in *. destruct (os_now (os w)), (os_now (os w1)). by simplify_eq. }
  destruct (runs_read_poller i w2) as (mp&w3&E3&X3&Hmp); [by rewrite Hp2|].
  unfold mbind at 1, sm_bind at 1. rewrite E3.
  rewrite (bind_known _ _ () w3 w3).
  2: { unfold assert_. rewrite bool_decide_true; [done|]. apply Htick. by rewrite <-Hp2. }
  assert (ext w w3) as X by (etrans; [exact X1|]; etrans; [exact X2|exact X3]).
  destruct (MioTimer_start _ _ _ _ _ _ _) as [[t' wheel] ok] eqn:Hstart. rewrite put_known.
  assert (is_started t' = true ∧ is_Some (timer_tick_duration t')) as [Ht1 Ht2].
  { unfold MioTimer_start in Hstart. destruct (new_timer_seq _ _ _ _). simplify_eq. simpl.
    split; [done|eauto]. }
  assert (heap w3 !! data h = Some (OTimer t None)) as Ho3 by (eapply lookup_weaken; [exact Ho|apply X]).
  assert (is_Some (pollers w3 !! i)) as Hi3 by by apply X.
  apply (registers_mono _ _ _ _ X).
  destruct (put_spec h w3 (OTimer t' (Some i)) _ ltac:(by apply X) Ho3) as (Hwf'&Hu&Hother).
  - by intros d' [_ [? ?]].
  - split_and!; [by split|done|]. by intros ? [= ->].
  - split; [done|eauto].
  - apply registers_after; [done|done|done|]. by apply safe_on_poller.
Qed.

(** ** Opening *)
Definition opens (d : Description) (Q : World Os → Handle → Prop) w (r : World Os * res ErrorKind Handle) : Prop :=
  r.2 ≠ Panic ∧ wf r.1 ∧ (∀ h', in_use w h' → in_use r.1 h') ∧
  ∀ h, r.2 = Ok h → desc h = d ∧ Q r.1 h.

Lemma safe_opens d Q (m : sm (World Os) ErrorKind Handle) w :
  wf w → safe m w (λ h w', desc h = d ∧ Q w' h) → opens d Q w (m w).
Proof.
  intros Hwf (He&Hp&Hq). split_and!; [done|by apply He|intros ?; by apply in_use_ext|done].
Qed.

Lemma open_socket_spec d (f : Os → Os * res ErrorKind nat) w :
  wf w → is_socket d → (∀ st, (f st).2 ≠ Panic) → opens d fresh w (open_socket (A:=A) d f w).
Proof.
  intros Hwf Hk Hf. apply safe_opens; [done|].
  eapply safe_bind; [by apply safe_os_call|intros sock w1 H1 _].
  eapply safe_bind with (R := λ _ _, True).
  - unfold safe. pose proof (law_set_nonblocking (A:=A) sock (os w1)) as Hs.
    destruct (os_set_nonblocking (os w1) sock) as [st [[]|e|]]; simpl in *;
      split_and!; try done; apply ext_os.
  - intros _ w2 H2 _. apply safe_into_handle; [by apply H2, H1|by split|].
    intros h w3 Hh _ Hd. split; [done|]. left. exists sock. by rewrite Hh, lookup_insert_eq, Hd.
Qed.

Lemma timeout_open_spec duration w :
  wf w → duration ≠ 0%N → opens Timeout fresh w (timeout_open_ duration w).
Proof.
  intros Hwf Hd. apply safe_opens; [done|]. unfold timeout_open_.
  rewrite bool_decide_false by done.
  eapply safe_known; [done|]. apply safe_into_handle; [done| |].
  - split_and!; [|done|done]. unfold is_started. simpl. split; [done|by intros []].
  - intros h w3 Hh _ Hdesc. split; [done|]. right. exists (MioTimer_new duration).
    by rewrite Hh, lookup_insert_eq.
Qed.

Lemma poller_open_spec duration w : wf w → opens Poller in_use w (poller_open_ (A:=A) duration w).
Proof.
  intros Hwf. apply safe_opens; [done|]. unfold poller_open_.
  eapply safe_bind; [apply safe_os_call, law_poll_new|intros id w1 H1 _].
  eapply safe_bind; [apply safe_os_call; intros; apply law_try_clone|intros _ w2 H2 _].
  eapply safe_bind; [apply safe_instant|intros now w3 H3 _].
  eapply safe_bind with (R := λ i w', is_Some (pollers w' !! i)).
  - split_and!; simpl; [|done|].
    2: { intros i [= <-]. rewrite lookup_insert_eq. eauto. }
    split; simpl; [done| |].
    + intros i Hi. rewrite lookup_insert_is_Some'. by right.
    + intros [W1 W2]. split; simpl.
      * intros ptr o Ho. destruct (W1 _ _ Ho) as [Hok ?]. split; [|done].
        destruct o; simpl in *; setoid_rewrite lookup_insert_is_Some'; naive_solver.
      * intros i p [[<- _]|[_ Hl]]%lookup_insert_Some; [lia|]. apply W2 in Hl. lia.
  - intros i w4 H4 Hi. apply safe_into_handle; [by apply H4, H3, H2, H1|done|].
    intros h w5 Hh _ Hd. split; [done|]. exists (OPoller i). by rewrite Hh, lookup_insert_eq.
Qed.
End calls.
(** ** Properties *)

(** The commands that [MioDriver] implements on a handle, other than registering and
    polling: [CmdReRegister] is [todo!()], and so is cloning anything but a poller. *)
Definition io_cmd {A} (cmd : Cmd A) (d : Description) : bool :=
  match cmd with
  | CmdReRegister _ _ | CmdRegister _ _ | CmdPollOnce _ => false
  | CmdTryClone => bool_decide (d = Poller)
  | _ => accepts_cmd cmd d
  end.

Section cmds.
Local Open Scope nat_scope.
Context {A Os : Type} `{!MioNet A Os, !MioNetLaws A Os}.
Implicit Types (w : World Os) (h : Handle).

Lemma safe_poller_clone h w :
  wf w → in_use w h → desc h = Poller → safe (poller_clone_ h) w (λ _ _, True).
Proof.
  intros Hwf Hu Hd. destruct (in_use_poller _ _ Hwf Hu Hd) as (i&_&Hi&Hg).
  eapply safe_known; [by apply expect_known|].
  eapply safe_known; [unfold with_; by rewrite Hg|].
  by apply safe_into_handle.
Qed.

(** What a command leaves, through the proxy. *)
Definition cmd_ok w (r : World Os * list byte * res ErrorKind (CmdResp A)) : Prop :=
  r.2 ≠ Panic ∧ wf r.1.1 ∧ ∀ h', in_use w h' → in_use r.1.1 h'.

Lemma cmd_resp {B} (f : B → CmdResp A) (m : sm (World Os) ErrorKind B) w :
  wf w → safe m w (λ _ _, True) → cmd_ok w (resp f (m w)).
Proof.
  intros Hwf (He&Hp&_). unfold cmd_ok, resp. simpl.
  split_and!; [by destruct (m w).2|by apply He|intros ?; by apply in_use_ext].
Qed.
Lemma cmd_resp_buf {B} g (f : B → CmdResp A) (m : sm (World Os) ErrorKind B) w :
  wf w → safe m w (λ _ _, True) → cmd_ok w (resp_buf g f (m w)).
Proof. by apply cmd_resp. Qed.

Lemma cntl_spec w h (cmd : Cmd A) :
  wf w → in_use w h → io_cmd cmd (desc h) = true → cmd_ok w (fd_cntl w h cmd).
Proof.
  intros Hwf Hu Hc. pose proof (in_use_kind w h Hwf Hu) as Hk. simpl.
  destruct cmd; simpl in *; destruct (desc h) eqn:Hd; simpl in *; try done;
    rewrite ?expecting_eq, ?Hd; simpl;
    first [apply (cmd_resp_buf _ _ _ w Hwf)|apply (cmd_resp _ _ w Hwf)];
    first [apply safe_accept|apply safe_timeout|apply safe_poller_clone
          |apply safe_socket_call|apply safe_socket_get];
    try done; unfold is_socket; auto; intros; simpl;
    first [apply law_read|apply law_write|apply law_send_to|apply law_recv_from
          |apply law_local_addr|apply law_peer_addr|apply law_shutdown|apply law_set_broadcast
          |apply law_broadcast].
Qed.
End cmds.

(** C11. The life of a handle of the mio driver, on any operating system that keeps
    its promises ([MioNetLaws]).  In a well-formed state: opening gives a handle to a fresh object (a
    poller: one in use); registering a fresh handle with a poller in use makes it in use, even
    when mio refuses; every implemented command on a handle in use, and [fd_close],
    return; so pointers are never followed to an object of another type or to
    freed memory, [poller()] is never [None], and all handles in use stay so, except
    the one closed. *)
Theorem handle_lifecycle {A Os} `{!MioNet A Os, !MioNetLaws A Os} (w : World Os) :
  wf w →
  (∀ d (flags : OpenFlags A), d = TcpListener ∨ d = TcpStream ∨ d = UdpSocket ∨ d = Timeout →
     accepts_open d flags = true → flags ≠ FlagsDuration 0 → opens d fresh w (fd_open w d flags)) ∧
  (∀ flags : OpenFlags A, opens Poller in_use w (fd_open w Poller flags)) ∧
  (∀ p h i, in_use w p → desc p = Poller → fresh w h → mio_interests i ≠ None →
     (∀ j mp, pollers w !! j = Some mp → tick_duration (hashed_timewheel mp) ≠ 0%N) →
     registers h w (poller_register (A:=A) w p h i)) ∧
  (∀ h (cmd : Cmd A), in_use w h → io_cmd cmd (desc h) = true → cmd_ok w (fd_cntl w h cmd)) ∧
  (∀ h, in_use w h → keeps_others h w (fd_close w h) ∧
     ((fd_close w h).2 = Ok () → heap (fd_close w h).1 !! data h = None)).
Proof.
  intros Hwf. split_and!.
  - intros d flags Hd Ha Hz. destruct Hd as [->|[->|[->| ->]]], flags; try done; simpl.
    + apply open_socket_spec; [done|by left|]. intros. apply law_listener_bind.
    + apply open_socket_spec; [done|by right; left|]. intros. apply law_stream_connect.
    + apply open_socket_spec; [done|by right; right|]. intros. apply law_udp_bind.
    + apply timeout_open_spec; [done|congruence].
  - intros flags. by apply poller_open_spec.
  - intros p h i Hp Hd Hf Hi Ht. simpl. destruct (in_use_poller _ _ Hwf Hp Hd) as (j&_&Hj&Hg).
    unfold poller_register_. rewrite (bind_known _ _ () w w) by (by apply expect_known).
    apply registers_with. rewrite (bind_known _ _ j w w) by done. unfold register.
    destruct (mio_interests i) as [mi|]; [|done].
    destruct Hf as [[sock Ho]|(t&Hdt&Ho)].
    + destruct Hwf as [W1 W2]. destruct (W1 _ _ Ho) as [[Hk _] _].
      assert (∀ d, desc h = d → registers h w (register_socket j d h mi w)) as Hreg.
      { intros d Hdd. apply register_socket_spec with sock; subst; done. }
      destruct (desc h) eqn:Hdd; try naive_solver.
    + rewrite Hdt. apply register_timer_spec with t; eauto.
  - intros. by apply cntl_spec.
  - intros. by apply close_spec.
Qed.
(** C21. [poll_once] wakes who must be woken: when it succeeds, the read wakers of the
    tokens reported readable or of an expired timer, and the write wakers of the tokens
    reported writable, are removed and their tasks woken, each exactly once; all other
    wakers stay.  An event that is neither readable nor writable wakes the writer. *)
Theorem poll_once_wakes {A Os} `{!MioNet A Os} (w w' : World Os) (i : nat) (timeout : option N) :
  poll_once i timeout w = (w', Ok ()) →
  ∃ p st events p' ts,
    pollers w !! i = Some p ∧
    mio_poll (os w) (mio_id p) (default (tick p) timeout) = (st, Ok events) ∧
    pollers w' !! i = Some p' ∧ woken w' = woken w ++ ts ∧
    wakes (λ t, reported_readable events t || bool_decide (N.of_nat t ∈ fired_timers p (os_now st).2))
          (reported_writable events) p (p', ts).
Proof.
  unfold poll_once, read_poller, on_poller, mbind, sm_bind. intros Hpoll.
  destruct (pollers w !! i) as [p|] eqn:Hp; [|done].
  unfold os_call in Hpoll. simpl in Hpoll.
  destruct (mio_poll (os w) (mio_id p) (default (tick p) timeout)) as [st [events|e|]] eqn:He; try done.
  unfold instant_now in Hpoll. simpl in Hpoll. destruct (os_now st) as [st' now] eqn:Hn.
  simpl in Hpoll. rewrite lookup_insert_eq in Hpoll. simpl in Hpoll.
  unfold assert_ in Hpoll. destruct (wheel_panics p now); [done|]. simpl in Hpoll.
  rewrite lookup_insert_eq in Hpoll. destruct (poll_events p now events) as [p' ts] eqn:Hpe.
  unfold wake_all in Hpoll. simplify_eq/=. exists p, st, events, p', ts. split_and!; try done.
  - by rewrite lookup_insert_eq.
  - rewrite <-Hpe. unfold poll_events, fired_timers. rewrite Hn. simpl.
    destruct (next_tick_seq (hashed_timewheel p) (now - wheel_start p)) as [wh fired]. simpl.
    pose proof (wake_events_wakes
      (((λ e, (ev_token e, event_interests e)) <$> events) ++
       ((λ token, (N.to_nat token, Readable)) <$> default [] fired)) (set_timewheel wh p)) as Hw.
    eapply wakes_ext; [| |exact Hw]; intros t; rewrite carries_app;
      destruct (carries_events events t) as [Hr1 Hw1], (carries_timers (default [] fired) t) as [Hr2 Hw2];
      [by rewrite Hr1, Hr2|by rewrite Hw1, Hw2, orb_false_r].
Qed.

(** [nonblocking_call] with one interest on an existing poller returns the answer
    of its last attempt, never [Interrupted]; the task's waker was registered before
    the attempts, replaces any other, wakes nobody, and is gone after a success: it
    stays registered after [WouldBlock] and also after any other error. *)
Theorem nonblocking_call_waker {A Os B} `{!MioNet A Os} (w w' : World Os) (i token waker : nat)
    (interests : Interest) (f : Os → Os * res ErrorKind B) (p : MioPoller) (r : res ErrorKind B) :
  (interests = Readable ∨ interests = Writable) →
  pollers w !! i = Some p → may_block f →
  nonblocking_call i token interests waker f w = (w', r) →
  ∃ p' st st', pollers w' !! i = Some p' ∧ woken w' = woken w ∧
    f st = (st', r) ∧ os w' = st' ∧ r ≠ Panic ∧ r ≠ Err Interrupted ∧
    let update := match r with Ok _ => delete token | _ => <[token := waker]> end in
    read_wakers p' =
      (if decide (interests = Readable) then update (read_wakers p) else read_wakers p) ∧
    write_wakers p' =
      (if decide (interests = Readable) then write_wakers p else update (write_wakers p)).
Proof.
  intros Hint Hp Hf. unfold nonblocking_call, add_waker_, on_poller, mbind, sm_bind. rewrite Hp.
  unfold os_call. cbn [os set_poller]. intros Hcall.
  destruct (retry (S (interrupts (os w))) f (os w)) as [st' r'] eqn:Hr.
  pose proof Hr as ((st&Hst)&Hnp&Hni)%retry_spec; [|done|lia].
  destruct r' as [b|e|]; simpl in Hcall; [|simplify_eq|done].
  - rewrite lookup_insert_eq in Hcall. destruct (remove_waker _ _ _) as [p' o] eqn:Hrem.
    unfold mret, sm_ret in Hcall. unfold remove_waker, add_waker in Hrem. simplify_eq/=. exists p', st, st'. simpl. rewrite lookup_insert_eq. split_and!; try done;
      destruct Hint as [-> | ->]; simpl in *; simplify_eq/=; by rewrite ?delete_insert_eq.
  - exists (add_waker p token interests waker), st, st'. simpl.
    rewrite lookup_insert_eq. split_and!; try done; destruct Hint as [-> | ->]; done.
Qed.

(** A timer that fires has expired, and expires less than one tick early.
    [is_expired] at [now] holds exactly when the deadline is less than one tick after
    [now]; and at the time [at_] when some interleaving of the time wheel hands out the
    timer's token, if every timer created under this token has a deadline no earlier
    than this timer's, [is_expired] holds: a task woken by its timer does not
    go back to sleep. *)
Theorem fired_timer_is_expired (td start at_ tk token : N) (ids : gset nat)
    (tr : list (Timewheel.event N)) (s : sys N) (ts : list N) (t : MioTimer) :
  as_micros td ≠ 0 → start_instant t = Some start → timer_tick_duration t = Some td →
  (∀ now, is_expired t now = Some true ↔ start + duration t < N.max start now + td) ∧
  (reach td ids tr s → Timewheel.tick td (Timewheel.now s) < 2 ^ 64 →
   EFire at_ tk ts ∈ tr → token ∈ ts →
   (∀ due k, EPush due k token ∈ tr → start + duration t ≤ due ∧ Timewheel.tick td due < 2 ^ 64) →
   is_expired t at_ = Some true).
Proof.
  intros Htd Hs Ht. assert (0 < td) as Hpos by (destruct td; [done|lia]).
  split; [intros; by apply is_expired_iff|].
  intros Hr Hb Hfire Htok Hdue. rewrite (is_expired_iff _ start _ td) by done.
  destruct (fired_was_due td ids tr s at_ tk ts token Htd Hr Hb Hfire Htok) as (due&Hpush&Hlt).
  destruct (Hdue _ _ Hpush) as [H1 H2]. specialize (Hlt H2). lia.
Qed.
(** What [deregister] does to the poller once the source is removed. *)
Section deregister.
Context {A Os : Type} `{!MioNet A Os}.
Implicit Types (w : World Os).

Lemma deregister_socket_pollers i d h w w' r :
  deregister_socket i d h w = (w', Ok r) → pollers w' = pollers w ∧ woken w' = woken w.
Proof.
  unfold deregister_socket, with_, mbind, sm_bind, get_socket, read_poller, on_poller, os_call.
  intros Hd. destruct (heap w !! data h) as [[d' sock p|t p|j]|]; try done.
  destruct (decide (d = d')) as [Hdd|]; [|done]. destruct (pollers w !! i) as [p'|] eqn:Hp; [|done].
  simpl in Hd. destruct (mio_deregister (os w) (mio_id p') sock) as [st [b|err|]]; simplify_eq/=.
  by rewrite insert_id.
Qed.

Lemma deregister_pollers i h w w' :
  deregister i h w = (w', Ok ()) → is_socket (desc h) →
  ∃ p, pollers w !! i = Some p ∧
    pollers w' = <[i := set_read_wakers (delete (token h) (read_wakers p)) p]> (pollers w) ∧
    woken w' = woken w ++ option_list (read_wakers p !! token h).
Proof.
  intros Hd Hk. unfold deregister in Hd.
  assert (∃ d, (deregister_socket i d h;;
    waker ← on_poller i (λ p, remove_waker p (token h) Interest_all);
    wake_all (option_list waker)) w = (w', Ok ())) as [d Hd'].
  { destruct Hk as [E|[E|E]]; rewrite E in Hd; eauto. }
  clear Hd. unfold mbind, sm_bind in Hd'.
  destruct (deregister_socket i d h w) as [w1 [[]|err|]] eqn:Hs; try done.
  apply deregister_socket_pollers in Hs as [Hp Hw]. unfold on_poller in Hd'. rewrite Hp in Hd'.
  destruct (pollers w !! i) as [p|]; [|done]. exists p.
  unfold remove_waker, wake_all in Hd'. simplify_eq/=. by rewrite Hp, Hw.
Qed.
End deregister.

(** A code bug: closing a socket wakes only its reader.  When [fd_close] of a
    registered socket succeeds, the task waiting to read (or accept) is woken and removed,
    but a task waiting to write is not woken and its waker stays in the poller,
    because [remove_waker] with both interests only looks at the readers. *)
Theorem close_strands_the_writer {A Os} `{!MioNet A Os} (w w' : World Os) (h : Handle)
    (sock i : nat) (p : MioPoller) :
  is_socket (desc h) → heap w !! data h = Some (OSocket (desc h) sock (Some i)) →
  pollers w !! i = Some p → fd_close w h = (w', Ok ()) →
  woken w' = woken w ++ option_list (read_wakers p !! token h) ∧
  ∃ p', pollers w' !! i = Some p' ∧ read_wakers p' = delete (token h) (read_wakers p) ∧
        write_wakers p' = write_wakers p.
Proof.
  intros Hk Ho Hp Hc.
  assert (close_socket (desc h) h w = (w', Ok ())) as Hc'.
  { simpl in Hc. unfold proxy_close in Hc. destruct Hk as [E|[E|E]]; by rewrite E in *. }
  unfold close_socket in Hc'. rewrite (bind_known _ _ () w w) in Hc' by (by apply expect_known).
  unfold with_ in Hc'. unfold mbind at 1, sm_bind at 1 in Hc'.
  rewrite (bind_known _ _ (sock, Some i) w w) in Hc' by (unfold get_socket; by rewrite Ho, decide_True).
  rewrite (bind_known _ _ i w w) in Hc' by done.
  destruct (deregister i h w) as [w1 [[]|err|]] eqn:Hd; try done.
  apply deregister_pollers in Hd as (p0&Hp0&Hp1&Hw1); [|done]. simplify_eq.
  unfold drop_as in Hc'. injection Hc' as <-.
  assert (pollers (drop_at (data h) w1) = pollers w1 ∧ woken (drop_at (data h) w1) = woken w1) as [-> ->].
  { unfold drop_at. by destruct (heap w1 !! data h) as [[]|]. }
  split; [done|]. rewrite Hp1, lookup_insert_eq. eauto.
Qed.

(** ** Witnesses: a system of one socket on which every signal interrupts one call *)
#[export] Instance DemoOs : MioNet nat nat := {
  os_now o := (o, 5000);
  os_listener_bind o _ := (o, Ok 3%nat);
  os_stream_connect o _ := (o, Ok 4%nat);
  os_udp_bind o _ := (o, Ok 5%nat);
  os_set_nonblocking o _ := (o, Ok ());
  os_accept o _ := match o with S o => (o, Err Interrupted) | _ => (o, Ok (6%nat, 80%nat)) end;
  os_read o _ _ := match o with S o => (o, Err Interrupted) | _ => (o, Err WouldBlock) end;
  os_write o _ buf := match o with S o => (o, Err Interrupted) | _ => (o, Ok (length buf)) end;
  os_send_to o _ buf _ := match o with S o => (o, Err Interrupted) | _ => (o, Ok (length buf)) end;
  os_recv_from o _ _ := match o with S o => (o, Err Interrupted) | _ => (o, Err WouldBlock) end;
  os_local_addr o _ := (o, Ok 80%nat);
  os_peer_addr o _ := (o, Ok 81%nat);
  os_shutdown o _ _ := (o, Ok ());
  os_set_broadcast o _ _ := (o, Ok ());
  os_broadcast o _ := (o, Ok true);
  os_drop o _ := o;
  mio_poll_new o := (o, Ok 0%nat);
  mio_try_clone o _ := (o, Ok ());
  mio_register o _ _ _ _ := (o, Ok ());
  mio_deregister o _ _ := (o, Ok ());
  mio_poll o _ _ := (o, Ok [{| ev_token := 1; is_readable := false; is_writable := false |}]);
  interrupts o := o;
}.

#[export] Instance DemoOs_laws : MioNetLaws nat nat.
Proof.
  split; try (intros; split; [intros [|] ?; simpl; intros; simplify_eq; lia|by intros []]); done.
Qed.

Definition demo_poller : MioPoller :=
  {| mio_id := 0%nat; read_wakers := {[1%nat := 11%nat]}; write_wakers := {[1%nat := 12%nat]};
     hashed_timewheel := HashedTimeWheel_new 1000; wheel_start := 0; Mio.tick := 1000 |}.

(** A poller at 0, and a stream of token 1 at 1, with a reader and a writer waiting. *)
Definition demo_world : World nat :=
  {| os := 2%nat; heap := {[0%nat := OPoller 0; 1%nat := OSocket TcpStream 4 (Some 0%nat)]};
     next_ptr := 2%nat; next_token := 2%nat; pollers := {[0%nat := demo_poller]};
     next_poller := 1%nat; woken := [] |}.
Definition demo_stream : Handle :=
  {| token := 1%nat; desc := TcpStream; user_defined_desc := None; data := 1%nat |}.

Lemma demo_wf : wf demo_world.
Proof.
  split; simpl.
  - intros ptr o [[<- <-]|[_ [<- <-]%lookup_singleton_Some]]%lookup_insert_Some; simpl.
    + split; [eauto|lia].
    + split; [|lia]. split; [auto|]. intros i [= <-]. eauto.
  - intros i p [<- _]%lookup_singleton_Some. lia.
Qed.

Lemma handle_lifecycle_witness :
  ∃ buf, fd_cntl demo_world demo_stream (CmdWrite (A:=nat) 13 [x00; x01]) =
    ((fd_cntl demo_world demo_stream (CmdWrite (A:=nat) 13 [x00; x01])).1.1, buf,
      Ok (RespDataLen 2)) ∧
  wf (fd_cntl demo_world demo_stream (CmdWrite (A:=nat) 13 [x00; x01])).1.1.
Proof.
  exists []. split; [by vm_compute|].
  destruct (handle_lifecycle (A:=nat) demo_world demo_wf) as (_&_&_&H&_).
  apply H; [|done]. exists (OSocket TcpStream 4 (Some 0%nat)). split; [done|]. split; [done|eauto].
Defined.

Lemma poll_once_wakes_witness :
  ∃ p' ts, pollers (poll_once (A:=nat) 0 None demo_world).1 !! 0%nat = Some p' ∧
    wakes (λ t, false || false) (λ t, bool_decide (1%nat = t) && true || false) demo_poller (p', ts).
Proof.
  destruct (poll_once_wakes (A:=nat) demo_world (poll_once (A:=nat) 0 None demo_world).1 0 None)
    as (p&st&events&p'&ts&Hp&He&Hp'&_&Hw); [by vm_compute|].
  exists p', ts. split; [done|]. injection Hp as <-. injection He as <- <-.
  eapply wakes_ext; [| |exact Hw]; intros t; unfold reported_readable, reported_writable; simpl;
    by rewrite ?andb_false_r.
Defined.

Lemma nonblocking_call_waker_witness :
  (nonblocking_call (A:=nat) 0 1 Readable 13 (λ o, os_read o 4 8) demo_world).2 = Err WouldBlock ∧
  ∃ p', pollers (nonblocking_call (A:=nat) 0 1 Readable 13 (λ o, os_read o 4 8) demo_world).1 !! 0%nat = Some p' ∧
    read_wakers p' = {[1%nat := 13%nat]}.
Proof.
  split; [by vm_compute|].
  destruct (nonblocking_call_waker (A:=nat) demo_world
    (nonblocking_call (A:=nat) 0 1 Readable 13 (λ o, os_read o 4 8) demo_world).1 0 1 13 Readable
    (λ o, os_read o 4 8) demo_poller (Err WouldBlock)) as (p'&_&_&Hp'&_&_&_&_&_&Hr&_).
  - by left.
  - done.
  - apply (law_read (A:=nat)).
  - by vm_compute.
  - exists p'. split; [done|]. rewrite Hr. by vm_compute.
Defined.

Definition demo_timer : MioTimer :=
  {| start_instant := Some 0; duration := 2000; timer_tick_duration := Some 1000;
     timewheel_ticks := Some 2 |}.

Definition wheel_run : sys N * list (Timewheel.event N) :=
  run (init 1000 {[1%nat; 2%nat]})
    ([MNew 1 7 2000] ++ replicate 8 (MExec 1) ++ [MClock 3000; MTick 2] ++ replicate 6 (MExec 2)).

Lemma fired_timer_is_expired_witness : is_expired demo_timer 3000 = Some true.
Proof.
  destruct (fired_timer_is_expired 1000 0 3000 2 7 {[1%nat; 2%nat]} wheel_run.2 wheel_run.1 [7]
    demo_timer) as [_ H]; [done..|]. apply H.
  - unfold wheel_run. rewrite <-(app_nil_l (run _ _).2). apply run_reach, reach_init.
  - by vm_compute.
  - apply list_elem_of_In. vm_compute. tauto.
  - by left.
  - intros due k Hin%list_elem_of_In. vm_compute in Hin.
    repeat (destruct Hin as [Hin|Hin]; [simplify_eq; try (split; by vm_compute)|]). done.
Defined.

Lemma close_strands_the_writer_witness :
  woken (fd_close (A:=nat) demo_world demo_stream).1 = [11%nat] ∧
  ∃ p', pollers (fd_close (A:=nat) demo_world demo_stream).1 !! 0%nat = Some p' ∧
        write_wakers p' = {[1%nat := 12%nat]}.
Proof.
  destruct (close_strands_the_writer (A:=nat) demo_world (fd_close (A:=nat) demo_world demo_stream).1
    demo_stream 4 0 demo_poller) as (H1&p'&H2&_&H3).
  - by right; left.
  - done.
  - done.
  - by vm_compute.
  - split; [by rewrite H1|]. exists p'. by rewrite H3.
Defined.
