(* ===== verification/Calls.v ===== *)
(** * The calls of the driver interface, in any number

    The sockets of [Sockets.v] run on the driver of [Mio.v] beside other calls.  A
    relation between states that the primitive steps respect ([Stable]) is respected by
    every call of the driver on other handles ([rel_calls]), whatever the calls and
    their order. *)

From S2P Require Import Prelude IoDriver Timewheel Sockets Mio.

(** ** What the operating system does to its own state

    [later o o']: [o'] can come after [o]; [tells o n]: a clock read in [o] gives [n];
    [delivers es]: the events [es] can be the answer of a poll. *)
Class OsOrder (A Os : Type) `{!MioNet A Os} (later : relation Os) (tells : Os → N → Prop)
    (delivers : list Event → Prop) : Prop := {
  order_preorder :: PreOrder later;
  order_now o : later o (os_now o).1 ∧ tells (os_now o).1 (os_now o).2;
  order_listener_bind (l : list A) o : later o (os_listener_bind o l).1;
  order_stream_connect (l : list A) o : later o (os_stream_connect o l).1;
  order_udp_bind (l : list A) o : later o (os_udp_bind o l).1;
  order_set_nonblocking s o : later o (os_set_nonblocking o s).1;
  order_accept s o : later o (os_accept (A:=A) o s).1;
  order_read s n o : later o (os_read o s n).1;
  order_write s b o : later o (os_write o s b).1;
  order_send_to s b (a : A) o : later o (os_send_to o s b a).1;
  order_recv_from s n o : later o (os_recv_from (A:=A) o s n).1;
  order_local_addr s o : later o (os_local_addr (A:=A) o s).1;
  order_peer_addr s o : later o (os_peer_addr (A:=A) o s).1;
  order_shutdown s n o : later o (os_shutdown o s n).1;
  order_set_broadcast s b o : later o (os_set_broadcast o s b).1;
  order_broadcast s o : later o (os_broadcast o s).1;
  order_drop s o : later o (os_drop o s);
  order_poll_new o : later o (mio_poll_new o).1;
  order_try_clone n o : later o (mio_try_clone o n).1;
  order_register n s t i o : later o (mio_register o n s t i).1;
  order_deregister n s o : later o (mio_deregister o n s).1;
  order_poll n d o : later o (mio_poll o n d).1;
  order_events n d o o' es : mio_poll o n d = (o', Ok es) → delivers es;
}.

(** No order at all: what holds without a clock. *)
#[export] Instance any_order {A Os} `{!MioNet A Os} : OsOrder A Os (λ _ _, True) (λ _ _, True) (λ _, True).
Proof. by repeat split. Qed.

(** ** A relation that the calls on other handles respect *)
Section closure.
Context {A Os : Type} `{!MioNet A Os} (later : relation Os) (tells : Os → N → Prop)
  (delivers : list Event → Prop).
Context `{!OsOrder A Os later tells delivers} (other : Handle → Prop) (R : relation (World Os)).
Implicit Types (w : World Os) (h : Handle).

(** The poller that [MioPoller::new] adds. *)
Definition add_poller (p : MioPoller) w : World Os :=
  {| os := os w; heap := heap w; next_ptr := next_ptr w; next_token := next_token w;
     pollers := <[next_poller w := p]> (pollers w); next_poller := S (next_poller w);
     woken := woken w |}.

(** The primitive steps. *)
Class Stable : Prop := {
  stable_preorder :: PreOrder R;
  stable_os w o : later (os w) o → R w (set_os o w);
  stable_put h o w : other h → R w (set_heap (<[data h := o]> (heap w)) w);
  stable_delete h w : other h → R w (set_heap (delete (data h) (heap w)) w);
  stable_into d o w : R w (into_handle d o w).1;
  stable_add_poller id d now w : tells (os w) now → R w (add_poller (MioPoller_new id d now) w);
  stable_add_waker i h int k p w : other h → pollers w !! i = Some p →
    R w (set_poller i (add_waker p (token h) int k) w);
  stable_remove_waker i h int p w : other h → pollers w !! i = Some p →
    R w (set_poller i (remove_waker p (token h) int).1 w);
  stable_new_timer i now h d p w : other h → pollers w !! i = Some p →
    R w (set_poller i
      (set_timewheel (new_timer_seq (hashed_timewheel p) now (N.of_nat (token h)) d).1 p) w);
  stable_poll i now events p w : pollers w !! i = Some p → tells (os w) now → delivers events →
    wheel_panics p now = false →
    R w (wake (poll_events p now events).2 (set_poller i (poll_events p now events).1 w));
  stable_wake ts w : R w (wake ts w);
}.
Context `{!Stable}.

#[local] Abbreviation M := (sm (World Os) ErrorKind).

Lemma later_retry {B} n (f : Os → Os * res ErrorKind B) o :
  (∀ o, later o (f o).1) → later o (retry n f o).1.
Proof.
  intros Hf. revert o. induction n as [|n IH]; intros o; simpl; [done|].
  pose proof (Hf o) as Ho. destruct (f o) as [o1 [b|e|]]; simpl in *; [done| |done].
  case_decide; [|done]. etrans; [exact Ho|apply IH].
Qed.

Lemma rel_os_call {B} (f : Os → Os * res ErrorKind B) :
  (∀ o, later o (f o).1) → sm_rel R (os_call f : M B).
Proof.
  intros Hf w. unfold os_call. specialize (Hf (os w)). destruct (f (os w)). by apply stable_os.
Qed.

Lemma rel_now : sm_rel R (instant_now : M N).
Proof.
  intros w. unfold instant_now. destruct (order_now (A:=A) (later:=later) (tells:=tells) (delivers:=delivers) (os w)) as [Hl _].
  destruct (os_now (os w)). by apply stable_os.
Qed.

Lemma read_poller_same i w : (read_poller i w).1 = w.
Proof.
  unfold read_poller, on_poller. destruct (pollers w !! i) as [p|] eqn:Hp; [|done]. simpl.
  destruct w as [w1 w2 w3 w4 w5 w6 w7]. unfold set_poller. simpl in *. f_equal. by apply insert_id.
Qed.

Lemma read_poller_bind {B} i (f : MioPoller → M B) w :
  (read_poller i ≫= f) w = match pollers w !! i with Some p => f p w | None => (w, Panic) end.
Proof.
  pose proof (read_poller_same i w) as Hs. unfold mbind, sm_bind. unfold read_poller, on_poller in *.
  destruct (pollers w !! i) as [p|]; [|done]. simpl in *. by rewrite Hs.
Qed.

(** [poll_once], step by step. *)
Lemma poll_once_eq i timeout w :
  poll_once i timeout w =
    match pollers w !! i with
    | Some p =>
        match mio_poll (os w) (mio_id p) (default (tick p) timeout) with
        | (o, Ok events) =>
            let '(o, now) := os_now o in
            if wheel_panics p now then (set_os o w, Panic)
            else (wake (poll_events p now events).2
                    (set_poller i (poll_events p now events).1 (set_os o w)), Ok ())
        | (o, Err e) => (set_os o w, Err e)
        | (o, Panic) => (set_os o w, Panic)
        end
    | None => (w, Panic)
    end.
Proof.
  unfold poll_once. rewrite read_poller_bind. destruct (pollers w !! i) as [p|] eqn:Hp; [|done].
  unfold mbind at 1, sm_bind at 1, os_call.
  destruct (mio_poll (os w) (mio_id p) (default (tick p) timeout)) as [o [events|e|]]; [|done..].
  unfold mbind at 1, sm_bind at 1, instant_now. cbn [os set_os]. destruct (os_now o) as [o' now].
  rewrite read_poller_bind. cbn [pollers set_os]. rewrite Hp. unfold assert_.
  destruct (wheel_panics p now); [done|].
  unfold mret, sm_ret, mbind, sm_bind, on_poller. cbn [negb pollers set_os]. rewrite Hp.
  by destruct (poll_events p now events).
Qed.

Lemma rel_read_poller i : sm_rel R (read_poller i : M MioPoller).
Proof. apply sm_rel_pure; [apply _|]. apply read_poller_same. Qed.

Lemma rel_drop_at h : other h → sm_rel R (drop_as h : M ()).
Proof.
  intros Ho w. simpl. unfold drop_at. etrans; [|by apply stable_delete].
  destruct (heap w !! data h) as [[d s p| |]|]; try done. apply stable_os. apply order_drop.
Qed.

Lemma rel_with {B} h (m : M B) : other h → sm_rel R m → sm_rel R (with_ h m).
Proof.
  intros Ho Hm w. unfold with_. specialize (Hm w).
  destruct (m w) as [w1 [b|e|]]; simpl in *; [done|done|].
  etrans; [exact Hm|]. by apply (rel_drop_at h).
Qed.

Lemma rel_put h o : other h → sm_rel R (put h o : M ()).
Proof. intros Ho w. by apply stable_put. Qed.

Lemma rel_add_waker i h int k : other h → sm_rel R (add_waker_ i (token h) int k : M ()).
Proof.
  intros Ho w. unfold add_waker_, on_poller. destruct (pollers w !! i) as [p|] eqn:Hp; [|done].
  by apply stable_add_waker.
Qed.

Lemma rel_remove_waker i h int :
  other h → sm_rel R (on_poller i (λ p, remove_waker p (token h) int) : M (option nat)).
Proof.
  intros Ho w. unfold on_poller. destruct (pollers w !! i) as [p|] eqn:Hp; [|done].
  pose proof (stable_remove_waker i h int p w Ho Hp). by destruct (remove_waker p (token h) int).
Qed.

Lemma rel_wake_all ts : sm_rel R (wake_all ts : M ()).
Proof. intros w. apply stable_wake. Qed.

Lemma rel_into d o : sm_rel R (into_handle d o : M Handle).
Proof. intros w. apply stable_into. Qed.
(** The steps of a call, one by one. *)
Lemma rel_expect h d : sm_rel R (expect_ h d : M ()).
Proof. apply sm_rel_pure; [apply _|done]. Qed.
Lemma rel_get_socket d h : sm_rel R (get_socket d h : M (nat * option nat)).
Proof.
  apply sm_rel_pure; [apply _|]. intros w. unfold get_socket.
  destruct (heap w !! data h) as [[]|]; try done. by case_decide.
Qed.
Lemma rel_get_timer h : sm_rel R (get_timer h : M (MioTimer * option nat)).
Proof.
  apply sm_rel_pure; [apply _|]. intros w. unfold get_timer. by destruct (heap w !! data h) as [[]|].
Qed.
Lemma rel_get_poller h : sm_rel R (get_poller h : M nat).
Proof.
  apply sm_rel_pure; [apply _|]. intros w. unfold get_poller. by destruct (heap w !! data h) as [[]|].
Qed.
Lemma rel_poller p : sm_rel R (poller p : M nat).
Proof. apply sm_rel_pure; [apply _|]. by destruct p. Qed.
Lemma rel_assert b : sm_rel R (assert_ b : M ()).
Proof. apply sm_rel_pure; [apply _|]. by destruct b. Qed.
Lemma rel_panic {B} : sm_rel R (panic : M B).
Proof. apply sm_rel_pure; [apply _|done]. Qed.
Lemma rel_mret {B} (b : B) : sm_rel R (mret b : M B).
Proof. apply sm_rel_ret, _. Qed.
Lemma rel_fail {B} (e : ErrorKind) : sm_rel R (fail e : M B).
Proof. apply sm_rel_fail, _. Qed.

Create HintDb rel.
#[local] Hint Resolve rel_expect rel_get_socket rel_get_timer rel_get_poller rel_poller rel_assert
  rel_panic rel_mret rel_fail rel_now rel_read_poller rel_drop_at rel_put rel_add_waker
  rel_remove_waker rel_wake_all rel_into : rel.
(** The operations of the system, from the laws of [OsOrder]. *)
#[local] Hint Extern 2 (sm_rel R (os_call _)) =>
  apply rel_os_call; intros; first [apply order_listener_bind|apply order_stream_connect
    |apply order_udp_bind|apply order_local_addr|apply order_peer_addr|apply order_shutdown
    |apply order_set_broadcast|apply order_broadcast|apply order_poll_new|apply order_try_clone
    |apply order_register|apply order_deregister|apply order_poll] : rel.

(** A sequence of steps that all respect the relation. *)
Ltac rel_steps :=
  repeat match goal with
  | |- ∀ _, _ => intro
  | _ => solve [eauto with rel]
  | |- sm_rel R (mbind _ _) => apply sm_rel_bind; [apply _| |]
  | |- sm_rel R (with_ _ _) => apply rel_with; [solve [eauto with rel]|]
  | |- sm_rel R (let '(_, _) := ?x in _) => destruct x
  end.

Lemma rel_nonblocking {B} i h int k (f : Os → Os * res ErrorKind B) :
  other h → (∀ o, later o (f o).1) → sm_rel R (nonblocking_call i (token h) int k f : M B).
Proof.
  intros Ho Hf. unfold nonblocking_call. rel_steps. apply rel_os_call. intros. by apply later_retry.
Qed.

Lemma rel_socket_call {B} d int k h (f : nat → Os → Os * res ErrorKind B) :
  other h → (∀ s o, later o (f s o).1) → sm_rel R (socket_call d int k h f : M B).
Proof. intros Ho Hf. unfold socket_call. rel_steps. by apply rel_nonblocking. Qed.

Lemma rel_socket_get {B} d h (f : nat → Os → Os * res ErrorKind B) :
  other h → (∀ s o, later o (f s o).1) → sm_rel R (socket_get d h f : M B).
Proof. intros Ho Hf. unfold socket_get. rel_steps. by apply rel_os_call. Qed.

Lemma rel_open_socket d (f : Os → Os * res ErrorKind nat) :
  (∀ o, later o (f o).1) → sm_rel R (open_socket (A:=A) d f : M Handle).
Proof.
  intros Hf. unfold open_socket. rel_steps; [by apply rel_os_call|].
  intros w. pose proof (order_set_nonblocking (later:=later) (A:=A) a (os w)) as Hs.
  destruct (os_set_nonblocking (os w) a) as [o [u|e|]]; simpl in *; apply stable_os; [done|..];
    (etrans; [exact Hs|apply (order_drop (A:=A))]).
Qed.

Lemma rel_deregister i h : other h → sm_rel R (deregister i h : M ()).
Proof.
  intros Ho. unfold deregister, deregister_socket. apply sm_rel_bind; [apply _| |rel_steps].
  destruct (desc h); rel_steps.
Qed.

Lemma rel_close_socket d h : other h → sm_rel R (close_socket d h : M ()).
Proof. intros Ho. unfold close_socket. rel_steps. by apply rel_deregister. Qed.
Lemma rel_timeout_close h : other h → sm_rel R (timeout_close_ h : M ()).
Proof. intros Ho. unfold timeout_close_. rel_steps. by apply rel_deregister. Qed.

Lemma rel_timeout k h : other h → sm_rel R (timeout_ k h : M bool).
Proof. intros Ho. unfold timeout_. rel_steps. destruct (is_expired _ _) as [[]|]; rel_steps. Qed.

Lemma rel_poller_open duration : sm_rel R (poller_open_ (A:=A) duration : M Handle).
Proof.
  unfold poller_open_. do 2 (apply sm_rel_bind; [apply _|rel_steps|intros ?]).
  intros w. unfold mbind at 1, sm_bind at 1, instant_now.
  destruct (order_now (A:=A) (later:=later) (tells:=tells) (delivers:=delivers) (os w)) as [Hl Ht].
  destruct (os_now (os w)) as [o now]. simpl in Hl, Ht |- *.
  etrans; [by apply stable_os|]. etrans; [by apply stable_add_poller|].
  match goal with |- R ?s _ => apply (stable_into Poller (OPoller (next_poller w)) s) end.
Qed.
Lemma rel_accept k h : other h → sm_rel R (tcp_listener_accept_ k h : M (Handle * A)).
Proof.
  intros Ho. unfold tcp_listener_accept_. rel_steps.
  apply rel_nonblocking; [done|]. intros. by apply (order_accept (A:=A)).
Qed.

Lemma rel_register_socket i d h int : other h → sm_rel R (register_socket i d h int : M ()).
Proof. intros Ho. unfold register_socket, register_poller. rel_steps. Qed.

(** The end of [register_timer]: the wheel is the one that was just read. *)
Lemma rel_start_timer i h (t : MioTimer) p now now' :
  other h →
  sm_rel R (mp ← read_poller i;
    assert_ (bool_decide (tick_duration (hashed_timewheel mp) ≠ 0%N));;
    let '(t, wheel, _) :=
      MioTimer_start t now now' (N.of_nat (token h)) (tick mp) (wheel_start mp)
        (hashed_timewheel mp) in
    put h (OTimer t p);;
    on_poller i (λ mp, (set_timewheel wheel mp, ())) : M ()).
Proof.
  intros Ho w. rewrite read_poller_bind. destruct (pollers w !! i) as [mp|] eqn:Hp; [|done].
  unfold assert_. case_bool_decide; [|done]. rewrite (bind_known _ _ () w w) by done.
  destruct (MioTimer_start _ _ _ _ _ _ _) as [[t' wheel] b] eqn:Ht.
  rewrite (bind_known _ _ () w (set_heap (<[data h := OTimer t' p]> (heap w)) w)) by done.
  etrans; [by apply (stable_put h)|]. unfold on_poller. cbn [pollers set_heap]. rewrite Hp. simpl.
  unfold MioTimer_start in Ht.
  pose proof (stable_new_timer i (now' - wheel_start mp)%N h (duration t) mp
    (set_heap (<[data h := OTimer t' p]> (heap w)) w) Ho Hp) as Hn.
  by destruct (new_timer_seq _ _ _ _); simplify_eq/=.
Qed.

Lemma rel_register_timer i h : other h → sm_rel R (register_timer i h : M ()).
Proof.
  intros Ho. unfold register_timer, register_poller.
  pose proof (λ t p now now', rel_start_timer i h t p now now' Ho). rel_steps.
Qed.

Lemma rel_register i h int : other h → sm_rel R (register i h int : M ()).
Proof.
  intros Ho. unfold register. destruct (mio_interests int); [|rel_steps].
  destruct (desc h); solve [rel_steps|by apply rel_register_socket|by apply rel_register_timer].
Qed.

Lemma rel_poll_once i timeout : sm_rel R (poll_once i timeout : M ()).
Proof.
  intros w. rewrite poll_once_eq. destruct (pollers w !! i) as [p|] eqn:Hp; [|reflexivity].
  pose proof (order_poll (A:=A) (later:=later) (mio_id p) (default (tick p) timeout) (os w)) as Ho.
  pose proof (order_events (A:=A) (delivers:=delivers) (mio_id p) (default (tick p) timeout) (os w)) as He.
  destruct (mio_poll _ _ _) as [o [events|e|]]; [|by apply stable_os..]. specialize (He o events eq_refl).
  destruct (order_now (A:=A) (later:=later) (tells:=tells) (delivers:=delivers) o) as [Hl Ht].
  destruct (os_now o) as [o' now]. cbn [fst snd] in *.
  assert (R w (set_os o' w)) as Hos by (apply stable_os; by etrans).
  destruct (wheel_panics p now) eqn:Hw; [done|]. etrans; [exact Hos|]. by apply stable_poll.
Qed.

(** *** The calls of the driver *)
Inductive call :=
| COpen (d : Description) (flags : OpenFlags A)
| CCntl (h : Handle) (cmd : Cmd A)
| CClose (h : Handle).

Definition run_call (c : call) w : World Os :=
  match c with
  | COpen d flags => (fd_open w d flags).1
  | CCntl h cmd => (fd_cntl w h cmd).1.1
  | CClose h => (fd_close w h).1
  end.
Definition run_calls (cs : list call) w : World Os := foldl (λ w c, run_call c w) w cs.

(** The handles that a call is given. *)
Definition other_call (c : call) : Prop :=
  match c with
  | COpen _ _ => True
  | CCntl h (CmdRegister src _) => other h ∧ other src
  | CCntl h _ | CClose h => other h
  end.

Lemma rel_resp {B} (f : B → CmdResp A) (m : M B) w : sm_rel R m → R w (resp f (m w)).1.1.
Proof. intros Hm. apply Hm. Qed.
Lemma rel_resp_buf {B} g (f : B → CmdResp A) (m : M B) w : sm_rel R m → R w (resp_buf g f (m w)).1.1.
Proof. intros Hm. apply Hm. Qed.
Lemma rel_timeout_open duration : sm_rel R (timeout_open_ duration : M Handle).
Proof. unfold timeout_open_. rel_steps. Qed.

Lemma rel_open d flags w : R w (run_call (COpen d flags) w).
Proof.
  pose proof (λ f, rel_open_socket TcpListener f) as L. pose proof (λ f, rel_open_socket TcpStream f) as T.
  pose proof (λ f, rel_open_socket UdpSocket f) as U.
  simpl. destruct d, flags; simpl; try reflexivity.
  all: first [apply L; intros; apply order_listener_bind
    |apply T; intros; apply order_stream_connect|apply U; intros; apply order_udp_bind
    |apply rel_poller_open|apply rel_timeout_open].
Qed.

Lemma rel_poller_close h : other h → sm_rel R (poller_close_ h : M ()).
Proof. intros Ho. unfold poller_close_. rel_steps. Qed.

Lemma rel_close h w : other h → R w (run_call (CClose h) w).
Proof.
  intros Ho. simpl. unfold proxy_close. destruct (desc h); simpl; try reflexivity.
  all: first [by apply rel_close_socket|by apply rel_timeout_close|by apply rel_poller_close].
Qed.

Lemma rel_invalid w : R w (@invalid A (World Os) w).1.1.
Proof. reflexivity. Qed.

Lemma rel_expecting h d (r : World Os * list byte * res ErrorKind (CmdResp A)) w :
  R w r.1.1 → R w (expecting w h d r).1.1.
Proof. rewrite expecting_eq. by case_decide. Qed.

Lemma rel_poller_clone h : other h → sm_rel R (poller_clone_ h : M Handle).
Proof. intros Ho. unfold poller_clone_. rel_steps. Qed.
Lemma rel_poller_register p h int :
  other p → other h → sm_rel R (poller_register_ p h int : M ()).
Proof. intros Hp Ho. unfold poller_register_. rel_steps. by apply rel_register. Qed.
Lemma rel_poller_poll_once p timeout : other p → sm_rel R (poller_poll_once_ p timeout : M ()).
Proof. intros Hp. unfold poller_poll_once_. rel_steps. apply rel_poll_once. Qed.

Lemma rel_cntl h cmd w : other_call (CCntl h cmd) → R w (run_call (CCntl h cmd) w).
Proof.
  intros Ho. simpl. destruct cmd; simpl in *; try apply rel_expecting; try destruct (desc h).
  all: try apply rel_invalid; try (first [apply rel_resp_buf|apply rel_resp]).
  all: first [by apply rel_panic|by apply rel_accept|by apply rel_timeout|by apply rel_poller_clone
    |by apply rel_poller_poll_once|by apply rel_poller_register; destruct Ho
    |apply rel_socket_call; [done|]; intros|apply rel_socket_get; [done|]; intros].
  all: first [apply order_read|apply order_write|apply order_send_to|apply (order_recv_from (A:=A))
    |apply order_local_addr|apply order_peer_addr|apply order_shutdown|apply order_set_broadcast
    |apply order_broadcast].
Qed.

(** A poll of a sleep, when every handle may be used. *)
Lemma rel_sleep_poll sl k w : (∀ h, other h) → R w (Sleep_poll w sl k).1.1.
Proof.
  intros Hall.
  assert (∀ s sl fd, R s (Sleep_check s sl fd k).1.1) as Hcheck.
  { intros s sl' fd. unfold Sleep_check, cntl_into.
    pose proof (rel_cntl fd (CmdTimeout k) s (Hall fd)) as Hc. unfold run_call in Hc.
    destruct (fd_cntl s fd (CmdTimeout k)) as [[s1 buf] r]. by destruct (r ≫= _) as [[]| |]. }
  unfold Sleep_poll. destruct (sleep_fd sl) as [fd|]; [apply Hcheck|].
  pose proof (rel_open Timeout (FlagsDuration (expired sl)) w) as Ho. unfold run_call in Ho.
  destruct (fd_open w Timeout (FlagsDuration (expired sl))) as [s1 [fd|e|]]; [|exact Ho..]. cbn [sleep_poller Sleep_set_fd].
  etrans; [exact Ho|].
  pose proof (rel_cntl (sleep_poller sl) (CmdRegister fd Readable) s1 (conj (Hall _) (Hall _))) as Hr.
  unfold run_call in Hr. destruct (fd_cntl s1 (sleep_poller sl) (CmdRegister fd Readable)) as [[s2 buf] [x|e|]]; [|exact Hr..]. etrans; [exact Hr|apply Hcheck].
Qed.

(** What the calls on other handles do, in any number and in any order. *)
Lemma rel_calls cs w : Forall other_call cs → R w (run_calls cs w).
Proof.
  intros Hcs. revert w. induction Hcs as [|c cs Hc _ IH]; intros w; simpl; [reflexivity|].
  etrans; [|apply IH]. destruct c; [apply rel_open|by apply rel_cntl|by apply rel_close].
Qed.
End closure.
Arguments call : clear implicits.
