(* ===== verification/Wakeups.v ===== *)
(** * The wake-ups of the sockets over the mio driver

    What a task waits for after a poll of a socket's future; three relations that the
    other calls respect: pollers and objects are numbered in order, a task waits until
    it is woken, time goes on; and the poll that ends the wait. *)

From S2P Require Import Prelude IoDriver Timewheel Sockets Mio Calls.

(** ** A task that waits *)

(** What the task waits for: readiness, or a timer in a slot of the time wheel. *)
Inductive wait_kind := WRead | WWrite | WTimer (slot : N).

Section waiting.
Implicit Types (p : MioPoller) (t k : nat).

Definition armed (tk : N) t p : Prop :=
  (ticks (hashed_timewheel p) ≤ tk)%N ∧
  N.of_nat t ∈ default [] (timers_map (hashed_timewheel p) !! tk).

(** Task [k] is registered in the poller for token [t]. *)
Definition waiting (wk : wait_kind) t k p : Prop :=
  match wk with
  | WRead => read_wakers p !! t = Some k
  | WWrite => write_wakers p !! t = Some k
  | WTimer tk => read_wakers p !! t = Some k ∧ armed tk t p
  end.

(** What [poll_once] reports that ends the wait. *)
Definition reports (wk : wait_kind) t p (now : N) (events : list Event) : Prop :=
  match wk with
  | WRead => reported_readable events t = true
  | WWrite => reported_writable events t = true
  | WTimer tk =>
      reported_readable events t = true ∨
      (tk < tick_of (hashed_timewheel p) (now - wheel_start p))%N
  end.

(** One event, and all of them: the waker of a token reported is woken, the others
    stay. *)
Lemma wake_event_reader p e t k :
  read_wakers p !! t = Some k →
  if bool_decide (e.1 = t) && Interest_contains e.2 Readable
  then k ∈ (wake_event p e).2
  else read_wakers (wake_event p e).1 !! t = Some k.
Proof.
  intros Hk. destruct e as [t' i]. unfold wake_event. simpl.
  destruct (Interest_contains i Readable), (Interest_contains i Writable); simpl;
    case_bool_decide as Ht; simpl; subst; rewrite ?Hk, ?lookup_delete_ne by done; set_solver.
Qed.
Lemma wake_event_writer p e t k :
  write_wakers p !! t = Some k →
  if bool_decide (e.1 = t) && Interest_contains e.2 Writable
  then k ∈ (wake_event p e).2
  else write_wakers (wake_event p e).1 !! t = Some k.
Proof.
  intros Hk. destruct e as [t' i]. unfold wake_event. simpl.
  destruct (Interest_contains i Readable), (Interest_contains i Writable); simpl;
    case_bool_decide as Ht; simpl; subst; rewrite ?Hk, ?lookup_delete_ne by done; set_solver.
Qed.

Lemma wake_events_reader es p t k :
  read_wakers p !! t = Some k →
  if carries Readable es t then k ∈ (wake_events p es).2
  else read_wakers (wake_events p es).1 !! t = Some k.
Proof.
  revert p. induction es as [|e es IH]; intros p Hk; [done|]. rewrite carries_cons. simpl.
  apply (wake_event_reader _ e) in Hk. destruct (wake_event p e) as [p1 w1]. simpl in Hk.
  specialize (IH p1). destruct (wake_events p1 es) as [p2 w2]. simpl in *.
  destruct (bool_decide (e.1 = t) && Interest_contains e.2 Readable); simpl; [set_solver|].
  specialize (IH Hk). destruct (carries Readable es t); [set_solver|done].
Qed.
Lemma wake_events_writer es p t k :
  write_wakers p !! t = Some k →
  if carries Writable es t then k ∈ (wake_events p es).2
  else write_wakers (wake_events p es).1 !! t = Some k.
Proof.
  revert p. induction es as [|e es IH]; intros p Hk; [done|]. rewrite carries_cons. simpl.
  apply (wake_event_writer _ e) in Hk. destruct (wake_event p e) as [p1 w1]. simpl in Hk.
  specialize (IH p1). destruct (wake_events p1 es) as [p2 w2]. simpl in *.
  destruct (bool_decide (e.1 = t) && Interest_contains e.2 Writable); simpl; [set_solver|].
  specialize (IH Hk). destruct (carries Writable es t); [set_solver|done].
Qed.

(** The rest of the poller. *)
Lemma wake_events_static es p :
  hashed_timewheel (wake_events p es).1 = hashed_timewheel p ∧
  wheel_start (wake_events p es).1 = wheel_start p ∧ tick (wake_events p es).1 = tick p ∧
  mio_id (wake_events p es).1 = mio_id p.
Proof.
  revert p. induction es as [|[t i] es IH]; intros p; [done|]. simpl.
  destruct (Interest_contains i Readable), (Interest_contains i Writable);
    match goal with |- context [wake_events ?q es] => specialize (IH q); destruct (wake_events q es) end;
    done.
Qed.

(** The wheel after its tick: the slots of the ticks passed are taken out. *)
Lemma next_tick_slots (w : HashedTimeWheel N) now :
  (ticks w ≤ tick_of w now)%N →
  ticks (next_tick_seq w now).1 = tick_of w now ∧
  tick_duration (next_tick_seq w now).1 = tick_duration w ∧
  ∀ tk x, (ticks w ≤ tk)%N → x ∈ default [] (timers_map w !! tk) →
    if decide (tk < tick_of w now)%N then x ∈ default [] (next_tick_seq w now).2
    else x ∈ default [] (timers_map (next_tick_seq w now).1 !! tk).
Proof.
  intros Hle. unfold next_tick_seq. case_decide as Heq.
  { split_and!; [done|done|]. intros tk x Htk Hx. rewrite decide_False by lia. done. }
  destruct (take_slots_spec (N.to_nat (tick_of w now - ticks w)) (ticks w)
    (set_ticks (tick_of w now) w) []) as [H2 H1].
  destruct (take_slots _ _ _ _) as [w' ts]. simpl in *. subst. simpl. split_and!; [done|done|].
  intros tk x Htk Hx. case_decide as Hlt.
  - apply elem_of_concat. eexists. split; [|exact Hx]. apply list_elem_of_fmap.
    exists (N.to_nat (tk - ticks w)). split; [do 2 f_equal; lia|]. apply elem_of_seq. lia.
  - destruct (timers_map w !! tk) as [l|] eqn:Hl; [|by apply elem_of_nil in Hx].
    erewrite (map_lookup_filter_Some_2 _ (timers_map w) tk l); [done|done|]. simpl. lia.
Qed.

(** A poll ends the wait or keeps it. *)
Lemma poll_events_waiting wk t k p now events :
  wheel_panics p now = false → waiting wk t k p →
  (reports wk t p now events → k ∈ (poll_events p now events).2) ∧
  (k ∈ (poll_events p now events).2 ∨ waiting wk t k (poll_events p now events).1).
Proof.
  intros Hw Hk. apply bool_decide_eq_false in Hw. unfold poll_events.
  destruct (next_tick_slots (hashed_timewheel p) (now - wheel_start p)) as (Ht&_&Hs); [lia|].
  destruct (next_tick_seq (hashed_timewheel p) (now - wheel_start p)) as [wh fired] eqn:Hn.
  cbn [fst snd] in *. set (es := _ ++ _).
  assert (∀ i, carries i es t =
    carries i ((λ e, (ev_token e, event_interests e)) <$> events) t ||
    carries i ((λ token, (N.to_nat token, Readable)) <$> default [] fired) t) as Hc
    by (intros; apply carries_app).
  destruct (carries_events events t) as [Hr1 Hw1], (carries_timers (default [] fired) t) as [Hr2 Hw2].
  destruct (wake_events_static es (set_timewheel wh p)) as (Hst&_&_&_).
  destruct wk as [| |tk]; simpl in *.
  - pose proof (wake_events_reader es (set_timewheel wh p) t k Hk) as Hr.
    rewrite Hc, Hr1 in Hr. split; [intros Hrep; by rewrite Hrep in Hr|]. case_match; auto.
  - pose proof (wake_events_writer es (set_timewheel wh p) t k Hk) as Hr.
    rewrite Hc, Hw1, Hw2 in Hr. split; [intros Hrep; by rewrite Hrep in Hr|]. case_match; auto.
  - destruct Hk as [Hk [Ha1 Ha2]].
    pose proof (wake_events_reader es (set_timewheel wh p) t k Hk) as Hr.
    rewrite Hc, Hr1, Hr2 in Hr. specialize (Hs _ _ Ha1 Ha2). unfold armed. rewrite Hst. split.
    + intros [Hrep|Hrep]; [by rewrite Hrep in Hr|]. rewrite decide_True in Hs by done.
      rewrite (bool_decide_eq_true_2 _ Hs), orb_true_r in Hr. done.
    + destruct (reported_readable events t || _) eqn:He; [by left|]. right. split; [done|].
      apply orb_false_iff in He as [_ He%bool_decide_eq_false].
      case_decide; [done|]. simpl. split; [lia|done].
Qed.
End waiting.

(** *** Three relations that the calls respect *)
Section relations.
Context {A Os : Type} `{!MioNet A Os}.
Implicit Types (w : World Os) (h : Handle).

(** Pollers and objects are numbered in order: any call, on any handle. *)
Definition bounded w : Prop := ∀ i p, pollers w !! i = Some p → i < next_poller w.
Definition keeps_bounded w w' : Prop :=
  (bounded w → bounded w') ∧ next_ptr w ≤ next_ptr w'.

Lemma bounded_poller i p p' w :
  pollers w !! i = Some p → keeps_bounded w (set_poller i p' w).
Proof.
  intros Hp. split; [|done]. intros Hb j q. simpl.
  intros [[<- _]|[_ Hq]]%lookup_insert_Some; eauto.
Qed.

#[export] Instance keeps_bounded_preorder : PreOrder keeps_bounded.
Proof. split; [by split|]. intros w1 w2 w3 [H1 N1] [H2 N2]. split; [auto|lia]. Qed.

#[export] Instance stable_bounded later tells delivers :
  Stable later tells delivers (λ _, True) keeps_bounded.
Proof.
  split; try (intros; exact (conj (λ Hb, Hb) (le_n _))); try (intros; by eapply bounded_poller).
  - apply _.
  - intros d o w. split; [done|]. simpl. lia.
  - intros id d now w _. split; [|done]. intros Hb i p. simpl. intros [[<- _]|[_ Hp]]%lookup_insert_Some; [lia|].
    apply Hb in Hp. lia.
Qed.

(** A task that waits, at poller [i], for token [t]. *)
Definition waits (wk : wait_kind) (i t k : nat) w : Prop :=
  i < next_poller w ∧ ∃ p, pollers w !! i = Some p ∧ waiting wk t k p.

(** It waits until it is woken, while the calls are not given its handle. *)
Definition keeps_waiting wk i t k w w' : Prop :=
  ∃ ts, woken w' = woken w ++ ts ∧ (waits wk i t k w → k ∈ ts ∨ waits wk i t k w').

Lemma keeps_waiting_quiet wk i t k w w' :
  woken w' = woken w → (waits wk i t k w → waits wk i t k w') → keeps_waiting wk i t k w w'.
Proof. intros Hw Hk. exists []. rewrite app_nil_r. auto. Qed.

#[export] Instance keeps_waiting_preorder wk i t k : PreOrder (keeps_waiting wk i t k).
Proof.
  split; [intros w; by apply keeps_waiting_quiet|].
  intros w1 w2 w3 (ts1&E1&K1) (ts2&E2&K2). exists (ts1 ++ ts2). rewrite E2, E1, app_assoc.
  split; [done|]. intros [?|[?|?]%K2]%K1; [left; set_solver|left; set_solver|by right].
Qed.

Lemma keeps_waiting_poller wk i t k j p p' w :
  pollers w !! j = Some p → (waiting wk t k p → waiting wk t k p') →
  keeps_waiting wk i t k w (set_poller j p' w).
Proof.
  intros Hp Hk. apply keeps_waiting_quiet; [done|]. intros (Hi&q&Hq&Hwait). split; [done|].
  simpl. destruct (decide (j = i)) as [->|]; [|rewrite lookup_insert_ne by done; eauto].
  rewrite lookup_insert_eq. simplify_eq. eauto.
Qed.

(** The handle of another token and of another object. *)
Definition apart (t ptr : nat) h : Prop := token h ≠ t ∧ data h ≠ ptr.

#[export] Instance stable_waiting later tells delivers wk i t k ptr :
  Stable later tells delivers (apart t ptr) (keeps_waiting wk i t k).
Proof.
  split; try apply _; try (intros; by apply keeps_waiting_quiet).
  - intros id d now w _. apply keeps_waiting_quiet; [done|]. intros (Hi&p&Hp&Hk). simpl.
    split; [simpl; lia|]. simpl. rewrite lookup_insert_ne by lia. eauto.
  - intros j h int k' p w [Ht _] Hp. eapply keeps_waiting_poller; [done|]. unfold add_waker.
    destruct (Interest_contains int Readable), (Interest_contains int Writable), wk; simpl;
      rewrite ?lookup_insert_ne by done; done.
  - intros j h int p w [Ht _] Hp. eapply keeps_waiting_poller; [done|]. unfold remove_waker.
    destruct (Interest_contains int Readable), (Interest_contains int Writable), wk; simpl;
      rewrite ?lookup_delete_ne by done; done.
  - intros j now h d p w _ Hp. eapply keeps_waiting_poller; [done|]. unfold new_timer_seq.
    case_decide; [by destruct wk|]. destruct wk as [| |tk]; simpl; try done.
    intros (Hk&Ha&Hx). split; [done|]. split; [done|]. simpl.
    destruct (decide (tk = tick_of (hashed_timewheel p) (now + d))) as [->|].
    + rewrite lookup_insert_eq. simpl. apply elem_of_app. by left.
    + by rewrite lookup_insert_ne.
  - intros j now events p w Hp _ _ Hw. eexists. split; [done|]. intros (Hi&q&Hq&Hk). unfold waits. simpl.
    destruct (decide (j = i)) as [->|]; [|rewrite lookup_insert_ne by done; by right; eauto].
    rewrite lookup_insert_eq. simplify_eq.
    destruct (poll_events_waiting wk t k p now events Hw Hk) as [_ [?|?]]; eauto.
  - intros ts w. exists ts. split; [done|]. by right.
Qed.

(** The object of the handle stays. *)
Definition keeps_object (ptr : nat) w w' : Prop :=
  ptr < next_ptr w → ptr < next_ptr w' ∧ heap w' !! ptr = heap w !! ptr.

#[export] Instance keeps_object_preorder ptr : PreOrder (keeps_object ptr).
Proof.
  split; [by intros w Hp|]. intros w1 w2 w3 H1 H2 Hp. destruct (H1 Hp) as [Hp2 <-]. auto.
Qed.

#[export] Instance stable_object later tells delivers t ptr :
  Stable later tells delivers (apart t ptr) (keeps_object ptr).
Proof.
  split; try (intros; exact (λ Hp, conj Hp eq_refl)).
  - apply _.
  - intros h o w [_ Hne] Hp. simpl. by rewrite lookup_insert_ne.
  - intros h w [_ Hne] Hp. simpl. by rewrite lookup_delete_ne.
  - intros d o w Hp. simpl. rewrite lookup_insert_ne by lia. split; [lia|done].
Qed.
End relations.

(** *** Time

    [clock o] is the system's monotonic clock in [o]. *)
Definition not_before {Os} (clock : Os → N) : relation Os := λ o o', (clock o ≤ clock o')%N.
Definition reads {Os} (clock : Os → N) (o : Os) (n : N) : Prop := clock o = n.

(** The tick of an instant of a poller, as a number without a width. *)
Definition elapsed_ticks (p : MioPoller) (now : N) : N :=
  as_micros (now - wheel_start p) `div` tick_duration (hashed_timewheel p).

Lemma elapsed_ticks_mono p now now' : (now ≤ now')%N → (elapsed_ticks p now ≤ elapsed_ticks p now')%N.
Proof.
  intros Hle. unfold elapsed_ticks, as_micros. apply N.Div0.div_le_mono, N.Div0.div_le_mono. lia.
Qed.

Lemma as_u64_le x : (as_u64 x ≤ x)%N.
Proof. unfold as_u64. apply N.Div0.mod_le. Qed.

Section time.
Context {A Os : Type} `{!MioNet A Os} (clock : Os → N).
Implicit Types (w : World Os) (h : Handle).

(** The wheel of every poller was made in the past, is at a tick that has passed, and its
    ticks are those of the poller. *)
Definition wheel_ok (now : N) (p : MioPoller) : Prop :=
  (wheel_start p ≤ now)%N ∧ (ticks (hashed_timewheel p) ≤ elapsed_ticks p now)%N ∧
  tick_duration (hashed_timewheel p) = as_micros (tick p).
Definition on_time w : Prop := ∀ i p, pollers w !! i = Some p → wheel_ok (clock (os w)) p.

(** What of a poller never changes. *)
Definition same_poller (p p' : MioPoller) : Prop :=
  mio_id p' = mio_id p ∧ tick p' = tick p ∧ wheel_start p' = wheel_start p ∧
  tick_duration (hashed_timewheel p') = tick_duration (hashed_timewheel p).

Record keeps_time w w' : Prop := {
  kt_clock : (clock (os w) ≤ clock (os w'))%N;
  kt_wheels : on_time w → on_time w';
  kt_pollers i p : i < next_poller w → pollers w !! i = Some p →
    i < next_poller w' ∧ ∃ p', pollers w' !! i = Some p' ∧ same_poller p p';
}.

Lemma wheel_ok_mono now now' p : (now ≤ now')%N → wheel_ok now p → wheel_ok now' p.
Proof.
  intros Hle (H1&H2&H3). split_and!; [lia| |done]. etrans; [exact H2|by apply elapsed_ticks_mono].
Qed.

#[export] Instance keeps_time_preorder : PreOrder keeps_time.
Proof.
  split.
  - intros w. split; [done|done|]. intros i p Hi Hp. split; [done|]. by exists p.
  - intros w1 w2 w3 [C1 W1 P1] [C2 W2 P2]. split; [lia|auto|]. intros i p Hi Hp.
    destruct (P1 _ _ Hi Hp) as (Hi'&p'&Hp'&S1&S2&S3&S4).
    destruct (P2 _ _ Hi' Hp') as (?&p''&?&T1&T2&T3&T4). split; [done|]. exists p''.
    split; [done|]. unfold same_poller. by rewrite T1, T2, T3, T4.
Qed.

(** A step that leaves the pollers alone. *)
Lemma keeps_time_quiet w w' :
  (clock (os w) ≤ clock (os w'))%N → pollers w' = pollers w → next_poller w' = next_poller w →
  keeps_time w w'.
Proof.
  intros Hc Hp Hn. split; [done| |].
  - intros Ht i p. rewrite Hp. intros Hi. by eapply wheel_ok_mono, Ht.
  - rewrite Hp, Hn. intros i p Hi Hq. split; [done|]. by exists p.
Qed.

Lemma keeps_time_poller i p p' w :
  pollers w !! i = Some p → same_poller p p' →
  (wheel_ok (clock (os w)) p → wheel_ok (clock (os w)) p') → keeps_time w (set_poller i p' w).
Proof.
  intros Hp Hs Hk. split; [done| |].
  - intros Ht j q. simpl. intros [[<- <-]|[_ Hq]]%lookup_insert_Some; eauto.
  - intros j q Hj Hq. split; [done|]. simpl. destruct (decide (i = j)) as [<-|].
    + rewrite lookup_insert_eq. simplify_eq. eauto.
    + rewrite lookup_insert_ne by done. exists q. by split.
Qed.

Lemma poll_events_static p now events :
  wheel_panics p now = false →
  same_poller p (poll_events p now events).1 ∧
  ticks (hashed_timewheel (poll_events p now events).1) =
    tick_of (hashed_timewheel p) (now - wheel_start p).
Proof.
  intros Hw%bool_decide_eq_false. unfold poll_events, same_poller.
  destruct (next_tick_slots (hashed_timewheel p) (now - wheel_start p)) as (Ht&Hd&_); [lia|].
  destruct (next_tick_seq _ _) as [wh fired]. simpl in *.
  match goal with |- context [wake_events ?q ?es] => destruct (wake_events_static es q) as (->&->&->&->) end.
  done.
Qed.

#[export] Instance stable_time delivers :
  Stable (not_before clock) (reads clock) delivers (λ _, True) keeps_time.
Proof.
  split; try apply _; try (intros; by apply keeps_time_quiet).
  - intros id d now w Hn. split; [done| |].
    + intros Ht i p. simpl. intros [[<- <-]|[_ Hp]]%lookup_insert_Some; [|eauto].
      unfold reads in Hn. split_and!; simpl; [lia|lia|done].
    + intros i p Hi Hp. simpl. split; [lia|]. rewrite lookup_insert_ne by lia. by exists p.
  - intros i h int k p w _ Hp. apply keeps_time_poller with p; [done|..];
      unfold add_waker; destruct (Interest_contains int Readable), (Interest_contains int Writable);
      first [by split_and!|by intros (?&?&?); split_and!].
  - intros i h int p w _ Hp. apply keeps_time_poller with p; [done|..];
      unfold remove_waker; destruct (Interest_contains int Readable), (Interest_contains int Writable);
      first [by split_and!|by intros (?&?&?); split_and!].
  - intros i now h d p w _ Hp. apply keeps_time_poller with p; [done|..];
      unfold new_timer_seq; case_decide; first [by split_and!|by intros (?&?&?); split_and!].
  - intros i now events p w Hp Hn _ Hw.
    trans (set_poller i (poll_events p now events).1 w); [|by apply keeps_time_quiet].
    destruct (poll_events_static p now events Hw) as [Hs Ht].
    apply keeps_time_poller with p; [done|done|]. intros (H1&_&H2). destruct Hs as (S1&S2&S3&S4).
    unfold wheel_ok, elapsed_ticks. rewrite Ht, S2, S3, S4. split_and!; [done| |done].
    unfold reads in Hn. subst. apply as_u64_le.
Qed.
End time.

(** ** A socket call that would block *)
Section blocked.
Context {A Os : Type} `{!MioNet A Os}.
Implicit Types (w : World Os) (h : Handle).

(** A poll of a socket's future by task [k] that answers [Pending], and what the task
    then waits for. *)
Inductive blocked (fd : Handle) (k : nat) : wait_kind → World Os → World Os → Prop :=
| blocked_read w w' n buf :
    TcpStream_poll_read w fd k n = (w', buf, Pending) → blocked fd k WRead w w'
| blocked_write w w' data buf :
    TcpStream_poll_write w fd k data = (w', buf, Pending) → blocked fd k WWrite w w'
| blocked_accept w w' poller :
    TcpListener_accept w fd poller k = (w', Pending) → blocked fd k WRead w w'
| blocked_recv_from w w' n buf :
    UdpSocket_recv_from w fd k n = (w', buf, Pending) → blocked fd k WRead w w'
| blocked_send_to w w' data raddrs last left :
    UdpSocket_send_to w fd k data raddrs last = (w', left, Pending) → blocked fd k WWrite w w'.

Definition kind_of (int : Interest) : wait_kind :=
  if decide (int = Readable) then WRead else WWrite.

(** The state of a socket call that ended in [WouldBlock]: its waker is registered with
    the poller of the socket. *)
Definition suspended (wk : wait_kind) (fd : Handle) (k : nat) w : Prop :=
  ∃ sock i p, heap w !! data fd = Some (OSocket (desc fd) sock (Some i)) ∧
    pollers w !! i = Some p ∧ waiting wk (token fd) k p.

Lemma nonblocking_suspends {B} i t int k (f : Os → Os * res ErrorKind B) e w w' :
  int = Readable ∨ int = Writable →
  nonblocking_call i t int k f w = (w', Err e) →
  heap w' = heap w ∧ ∃ p, pollers w' !! i = Some p ∧ waiting (kind_of int) t k p.
Proof.
  intros Hint. unfold nonblocking_call, add_waker_, on_poller, mbind, sm_bind.
  destruct (pollers w !! i) as [p|] eqn:Hp; [|done]. unfold os_call. cbn [os set_poller].
  destruct (retry _ f (os w)) as [o [b|e'|]]; simpl; [|intros [= <- <-]|done].
  - rewrite lookup_insert_eq. by destruct (remove_waker _ _ _).
  - split; [done|]. simpl. rewrite lookup_insert_eq. eexists. split; [done|].
    destruct Hint as [-> | ->]; apply lookup_insert_eq.
Qed.

Lemma with_err {B} h (m : sm (World Os) ErrorKind B) w w' e :
  with_ h m w = (w', Err e) → m w = (w', Err e).
Proof. unfold with_. destruct (m w) as [? [| |]]; by intros [=]; subst. Qed.

(** The beginning of a socket call: the descriptor, the object and its poller. *)
Lemma on_socket_err {B} d h (m : nat → nat → sm (World Os) ErrorKind B) w w' :
  (expect_ h d;; with_ h (sp ← get_socket d h; i ← poller sp.2; m sp.1 i)) w = (w', Err WouldBlock) →
  ∃ sock i, desc h = d ∧ heap w !! data h = Some (OSocket d sock (Some i)) ∧
    m sock i w = (w', Err WouldBlock).
Proof.
  unfold mbind at 1, sm_bind at 1, expect_, expect. case_decide as Hd; [|done].
  intros Hm%with_err. unfold mbind, sm_bind, get_socket in Hm.
  destruct (heap w !! data h) as [[d' sock p| |]|]; try done.
  case_decide; [|done]. subst. destruct p as [i|]; [|done]. simpl in Hm. eauto.
Qed.

Lemma socket_call_suspends {B} d int k h (f : nat → Os → Os * res ErrorKind B) w w' :
  int = Readable ∨ int = Writable →
  socket_call d int k h f w = (w', Err WouldBlock) → suspended (kind_of int) h k w'.
Proof.
  intros Hint Hc. unfold socket_call in Hc.
  apply (on_socket_err d h (λ sock i, nonblocking_call i (token h) int k (f sock)))
    in Hc as (sock&i&<-&Ho&Hc).
  apply nonblocking_suspends in Hc as (Hh&p&Hp&Hw); [|done].
  exists sock, i, p. by rewrite Hh.
Qed.

Lemma accept_suspends k h w w' :
  tcp_listener_accept_ k h w = (w', Err WouldBlock : res ErrorKind (Handle * A)) →
  suspended WRead h k w'.
Proof.
  intros Hc. unfold tcp_listener_accept_ in Hc.
  apply (on_socket_err TcpListener h (λ sock i,
    x ← nonblocking_call i (token h) Readable k (λ o, os_accept (A:=A) o sock);
    stream ← into_handle TcpStream (OSocket TcpStream x.1 None);
    mret (stream, x.2))) in Hc as (sock&i&Hd&Ho&Hc).
  unfold mbind at 1, sm_bind at 1 in Hc.
  destruct (nonblocking_call _ _ _ _ _ w) as [w1 [x|e|]] eqn:Hn; [done| |done]. simplify_eq.
  apply nonblocking_suspends in Hn as (Hh&p&Hp&Hw); [|by left].
  exists sock, i, p. by rewrite Hh, Hd.
Qed.
Lemma pending_iff {R} (r : res ErrorKind R) : poll_would_block r = Pending ↔ r = Err WouldBlock.
Proof. split; [by destruct r as [|[]|]|by intros ->]. Qed.

Lemma poll_cntl_pending {R} w w' h (cmd : Cmd A) (into : CmdResp A → res ErrorKind R) buf :
  (∀ r, into r ≠ Err WouldBlock) → poll_cntl w h cmd into = (w', buf, Pending) →
  fd_cntl w h cmd = (w', buf, Err WouldBlock).
Proof.
  intros Hi. unfold poll_cntl, cntl_into. destruct (fd_cntl w h cmd) as [[w1 b1] r].
  intros [= <- <- [Hr|(x&->&Hr)]%pending_iff%res_bind_err]; [by rewrite Hr|by apply Hi in Hr].
Qed.

Lemma resp_err {B} (f : B → CmdResp A) (call : World Os * res ErrorKind B) w' buf e :
  resp f call = (w', buf, Err e) → call = (w', Err e).
Proof. unfold resp. by destruct call as [? [| |]]; intros [=]; subst. Qed.
Lemma resp_buf_err {B} g (f : B → CmdResp A) (call : World Os * res ErrorKind B) w' buf e :
  resp_buf g f call = (w', buf, Err e) → call = (w', Err e).
Proof. unfold resp_buf. by destruct call as [? [| |]]; intros [=]; subst. Qed.

(** The command of a socket call, and the wait that its [WouldBlock] leaves. *)
Definition blocking (cmd : Cmd A) (wk : wait_kind) (k : nat) : Prop :=
  match cmd with
  | CmdRead k' _ | CmdRecvFrom k' _ | CmdAccept k' => k' = k ∧ wk = WRead
  | CmdWrite k' _ | CmdSendTo k' _ _ => k' = k ∧ wk = WWrite
  | _ => False
  end.

Lemma cntl_suspends w w' h (cmd : Cmd A) wk k buf :
  blocking cmd wk k → fd_cntl w h cmd = (w', buf, Err WouldBlock) → suspended wk h k w'.
Proof.
  simpl. intros Hb Hc. destruct cmd; simpl in *; try done; destruct Hb as [-> ->];
    rewrite ?expecting_eq in Hc; try (case_decide; [|done]); try destruct (desc h); try done.
  all: first [apply resp_buf_err in Hc|apply resp_err in Hc]; try done.
  all: first [apply (socket_call_suspends _ Readable) in Hc; [done|by left]
    |apply (socket_call_suspends _ Writable) in Hc; [done|by right]|by apply accept_suspends in Hc].
Qed.

Lemma cntl_bounded w h (cmd : Cmd A) w' buf r : fd_cntl w h cmd = (w', buf, r) → keeps_bounded w w'.
Proof.
  intros Hc.
  pose proof (rel_cntl (A:=A) (λ _ _, True) (λ _ _, True) (λ _, True) (λ _, True) keeps_bounded h cmd w) as Hr.
  simpl in Hr, Hc. rewrite Hc in Hr. apply Hr. by destruct cmd.
Qed.

(** The call of the driver that answered [WouldBlock]. *)
Lemma blocked_cntl fd k wk w w' :
  blocked fd k wk w w' →
  ∃ w1 (cmd : Cmd A) buf, keeps_bounded w w1 ∧ blocking cmd wk k ∧
    fd_cntl w1 fd cmd = (w', buf, Err WouldBlock).
Proof.
  destruct 1 as [w w' n buf Hp|w w' bytes buf Hp|w w' poller Hp|w w' n buf Hp|w w' bytes raddrs last left Hp].
  - apply poll_cntl_pending in Hp; [|by intros []]. exists w, (CmdRead k n), buf. by split.
  - apply poll_cntl_pending in Hp; [|by intros []]. exists w, (CmdWrite k bytes), buf. by split.
  - unfold TcpListener_accept in Hp. destruct (fd_cntl w fd (CmdAccept k)) as [[w1 buf] r] eqn:Hc.
    destruct (poll_would_block r) as [|r'] eqn:Hr.
    + injection Hp as <-. apply pending_iff in Hr as ->. exists w, (CmdAccept k), buf. by split.
    + destruct (r' ≫= try_into_incoming) as [[? ?]| |]; try done. by destruct (TcpStream_new_with _ _ _).
  - apply poll_cntl_pending in Hp; [|by intros []]. exists w, (CmdRecvFrom k n), buf. by split.
  - destruct left as [left last'].
    apply send_to_refines in Hp as (pre&w1&Hf&[(_&_&_&?)|(ra&re&_&Ha&_)]); [done|].
    assert (keeps_bounded w w1) as Hb.
    { clear Ha. induction Hf as [|s s1 s2 ra' rest l e l' Ha _ IH]; [done|].
      unfold send_attempt, poll_cntl, cntl_into in Ha. destruct (fd_cntl s fd _) as [[s3 b] r] eqn:Hc.
      simplify_eq. etrans; [by eapply cntl_bounded|exact IH]. }
    unfold send_attempt in Ha. destruct (poll_cntl _ _ _ _) as [[w2 buf] r] eqn:Hp. simplify_eq.
    apply poll_cntl_pending in Hp; [|by intros []]. exists w1, (CmdSendTo k bytes ra), buf.
    split; [exact Hb|by split].
Qed.

Lemma blocked_spec fd k wk w w' :
  blocked fd k wk w w' → suspended wk fd k w' ∧ keeps_bounded w w'.
Proof.
  intros (w1&cmd&buf&Hb&Hk&Hc)%blocked_cntl. split; [by eapply cntl_suspends|].
  etrans; [exact Hb|by eapply cntl_bounded].
Qed.
End blocked.

(** ** The poll that ends a wait *)
Section woken.
Context {A Os : Type} `{!MioNet A Os}.
Implicit Types (w : World Os) (h : Handle).

Lemma calls_waiting cs wk i t k ptr w :
  Forall (other_call (A:=A) (apart t ptr)) cs → waits wk i t k w →
  ∃ ts, woken (run_calls cs w) = woken w ++ ts ∧ (k ∈ ts ∨ waits wk i t k (run_calls cs w)).
Proof.
  intros Hcs Hw.
  destruct (rel_calls (λ _ _, True) (λ _ _, True) (λ _, True) (apart t ptr) (keeps_waiting wk i t k) cs w Hcs)
    as (ts&Hts&Hk). eauto.
Qed.

Lemma calls_object cs t ptr w :
  Forall (other_call (A:=A) (apart t ptr)) cs → ptr < next_ptr w →
  heap (run_calls cs w) !! ptr = heap w !! ptr.
Proof.
  intros Hcs Hp.
  by apply (rel_calls (λ _ _, True) (λ _ _, True) (λ _, True) (apart t ptr) (keeps_object ptr) cs w Hcs).
Qed.

(** What the next poll does for a task that waits: it wakes it when mio or the wheel
    reports what it waits for, and it keeps it otherwise. *)
Definition poll_wakes (wk : wait_kind) (i t k : nat) w : Prop :=
  ∀ timeout w' p o events,
    pollers w !! i = Some p →
    mio_poll (os w) (mio_id p) (default (tick p) timeout) = (o, Ok events) →
    poll_once i timeout w = (w', Ok ()) →
    ∃ ts, woken w' = woken w ++ ts ∧
      (reports wk t p (os_now o).2 events → k ∈ ts) ∧ (k ∈ ts ∨ waits wk i t k w').

Lemma waits_poll wk i t k w : waits wk i t k w → poll_wakes wk i t k w.
Proof.
  intros (Hi&p&Hp&Hk) timeout w' q o events Hq Ho. rewrite Hp in Hq. injection Hq as <-.
  rewrite poll_once_eq, Hp, Ho.
  destruct (os_now o) as [o' now]. destruct (wheel_panics p now) eqn:Hw; [done|]. intros [= <-].
  destruct (poll_events_waiting wk t k p now events Hw Hk) as [H1 H2].
  eexists. split; [done|]. split; [exact H1|]. destruct H2 as [?|H2]; [by left|right].
  split; [done|]. simpl. rewrite lookup_insert_eq. eauto.
Qed.
End woken.

(** A blocked task after other calls. *)
Lemma blocked_later {A Os} `{!MioNet A Os} (w0 w1 : World Os) (fd : Handle) (k : nat)
    (wk : wait_kind) (cs : list (call A)) :
  wf w0 → in_use w0 fd → blocked fd k wk w0 w1 →
  Forall (other_call (apart (token fd) (data fd))) cs →
  let w2 := run_calls cs w1 in
  ∃ sock i ts,
    heap w2 !! data fd = Some (OSocket (desc fd) sock (Some i)) ∧ woken w2 = woken w1 ++ ts ∧
    (k ∈ ts ∨ waits wk i (token fd) k w2 ∧ poll_wakes wk i (token fd) k w2).
Proof.
  intros [W1 W2] (o&Ho&_) Hb Hcs w2. apply blocked_spec in Hb as [(sock&i&p&Hs&Hp&Hk) [Hbd Hn]].
  assert (waits wk i (token fd) k w1) as Hw by (split; [by eapply Hbd|by exists p]).
  destruct (calls_waiting cs _ _ _ _ _ _ Hcs Hw) as (ts&Hts&Hkt). exists sock, i, ts.
  split_and!; [|done|].
  - rewrite <-Hs. eapply calls_object; [done|]. apply W1 in Ho. lia.
  - destruct Hkt as [|Hkt]; [by left|right]. split; [done|by apply waits_poll].
Qed.

(** C16. From the socket to the poller and back: no wake-up of a blocked task is lost.  When
    a task polls a read, a write, an [accept], a [recv_from] or a [send_to] of a socket
    and the answer is [Pending], then, whatever other calls follow (on other
    handles, polls included), the task has been woken meanwhile or is still
    registered with the socket's poller, and the socket is still there; and as long as it
    is registered, a poll for which mio reports the socket (readable or
    writable, as the task waits) wakes the task, and any other poll keeps it. *)
Theorem blocked_task_is_woken {A Os} `{!MioNet A Os} (w0 w1 : World Os) (fd : Handle) (k : nat)
    (wk : wait_kind) (cs : list (call A)) :
  wf w0 → in_use w0 fd → blocked fd k wk w0 w1 →
  Forall (other_call (apart (token fd) (data fd))) cs →
  let w2 := run_calls cs w1 in
  ∃ sock i ts,
    heap w2 !! data fd = Some (OSocket (desc fd) sock (Some i)) ∧ woken w2 = woken w1 ++ ts ∧
    (k ∈ ts ∨ waits wk i (token fd) k w2 ∧ poll_wakes wk i (token fd) k w2).
Proof. exact (blocked_later w0 w1 fd k wk cs). Qed.

(** ** Witnesses: a system whose state is its clock, on which a poll lasts as long as it
    may and reports the socket of token 1 as readable; the [mio::Poll] 1 takes no socket, and
    a signal interrupts all its polls *)
#[export] Instance ClockOs : MioNet nat N := {
  os_now o := (o, o);
  os_listener_bind o _ := (o, Ok 3);
  os_stream_connect o _ := (o, Ok 4);
  os_udp_bind o _ := (o, Ok 5);
  os_set_nonblocking o _ := (o, Ok ());
  os_accept o _ := (o, Err WouldBlock);
  os_read o _ _ := (o, Err WouldBlock);
  os_write o _ buf := (o, Ok (length buf));
  os_send_to o _ buf _ := (o, Ok (length buf));
  os_recv_from o _ _ := (o, Err WouldBlock);
  os_local_addr o _ := (o, Ok 80);
  os_peer_addr o _ := (o, Ok 81);
  os_shutdown o _ _ := (o, Ok ());
  os_set_broadcast o _ _ := (o, Ok ());
  os_broadcast o _ := (o, Ok true);
  os_drop o _ := o;
  mio_poll_new o := (o, Ok 0);
  mio_try_clone o _ := (o, Ok ());
  mio_register o id _ _ _ := (o, if decide (id = 1) then Err Other else Ok ());
  mio_deregister o id _ := (o, if decide (id = 1) then Err NotFound else Ok ());
  mio_poll o id d :=
    if decide (id = 1) then (o, Err Interrupted)
    else ((o + d)%N, Ok [{| ev_token := 1; is_readable := true; is_writable := false |}]);
  interrupts _ := 0;
}.

(** Only the socket of token 1 is reported. *)
Definition reports_one (es : list Event) : Prop := ∀ t, reported_readable es t = bool_decide (1 = t).

#[export] Instance ClockOs_order : OsOrder nat N (not_before id) (reads id) reports_one.
Proof.
  split; try (intros; unfold not_before; simpl; done).
  - split; [intros o; unfold not_before; lia|intros o1 o2 o3; unfold not_before; lia].
  - intros. unfold not_before. simpl. case_decide; simpl; lia.
  - intros n d o o' es. simpl. case_decide; [done|]. intros [= _ <-] t. unfold reported_readable. simpl. by rewrite andb_true_r, orb_false_r.
Qed.

(** A poller at 0 with ticks of a millisecond, and a stream of token 1 at 1. *)
Definition clock_world : World N :=
  {| os := 5000000%N; heap := {[0 := OPoller 0; 1 := OSocket TcpStream 4 (Some 0)]};
     next_ptr := 2; next_token := 2; pollers := {[0 := MioPoller_new 0 1000000 0]};
     next_poller := 1; woken := [] |}.
Definition clock_poller : Handle :=
  {| token := 0; desc := Poller; user_defined_desc := None; data := 0 |}.

Lemma clock_wf : wf clock_world.
Proof.
  split; simpl.
  - intros ptr o [[<- <-]|[_ [<- <-]%lookup_singleton_Some]]%lookup_insert_Some; simpl.
    + split; [eauto|lia].
    + split; [|lia]. split; [auto|]. intros i [= <-]. eauto.
  - intros i p [<- _]%lookup_singleton_Some. lia.
Qed.

(** Task 7 reads the stream, a timeout is opened, and the poller is polled. *)
Definition blocked_world : World N := (TcpStream_poll_read (A:=nat) clock_world demo_stream 7 8).1.1.
Definition other_calls : list (call nat) := [COpen Timeout (FlagsDuration 5)].

Lemma blocked_task_is_woken_witness :
  (TcpStream_poll_read (A:=nat) clock_world demo_stream 7 8).2 = Pending ∧
  ∃ ts, woken (poll_once (A:=nat) 0 None (run_calls other_calls blocked_world)).1 =
    woken (run_calls other_calls blocked_world) ++ ts ∧ 7 ∈ ts.
Proof.
  split; [by vm_compute|].
  destruct (blocked_task_is_woken (A:=nat) clock_world blocked_world demo_stream 7 WRead other_calls)
    as (sock&i&ts&Ho&Hts&Hk).
  - apply clock_wf.
  - exists (OSocket TcpStream 4 (Some 0)). split; [done|]. split; [done|eauto].
  - apply (blocked_read _ _ _ _ 8 []). vm_compute. reflexivity.
  - by repeat constructor.
  - assert (i = 0) as -> by (vm_compute in Ho; by injection Ho).
    destruct Hk as [Hk|[(_&p&Hp&_) Hw]].
    + vm_compute in Hts. destruct ts; [by apply elem_of_nil in Hk|done].
    + destruct (Hw None (poll_once (A:=nat) 0 None (run_calls other_calls blocked_world)).1 p
        (6000000)%N [{| ev_token := 1; is_readable := true; is_writable := false |}])
        as (ts'&Hts'&Hrep&_).
      * exact Hp.
      * vm_compute in Hp. injection Hp as <-. vm_compute. reflexivity.
      * by vm_compute.
      * exists ts'. split; [exact Hts'|]. apply Hrep. by vm_compute.
Defined.
