(* ===== verification/Registration.v ===== *)
(** * The constructors of the sockets over the mio driver

    [register_or_close] of [Sockets.v], which every constructor of a socket runs, on the
    driver of [Mio.v], in all cases of the answers of mio. *)

From S2P Require Import Prelude IoDriver Timewheel Sockets Mio Calls Wakeups.

Section registration.
Context {A Os : Type} `{!MioNet A Os}.
Implicit Types (w : World Os) (h P fd : Handle).

(** The state in which a descriptor has been given to poller [i]. *)
Definition with_registered (fd : Handle) (sock i : nat) (o : Os) w : World Os :=
  set_os o (set_heap (<[data fd := OSocket (desc fd) sock (Some i)]> (heap w)) w).

Lemma register_socket_eq w fd sock i p int :
  heap w !! data fd = Some (OSocket (desc fd) sock None) → pollers w !! i = Some p →
  register_socket i (desc fd) fd int w =
    match mio_register (os w) (mio_id p) sock (token fd) int with
    | (o, Ok _) => (with_registered fd sock i o w, Ok ())
    | (o, Err e) => (with_registered fd sock i o w, Err e)
    | (o, Panic) => (drop_at (data fd) (with_registered fd sock i o w), Panic)
    end.
Proof.
  intros Ho Hp. unfold register_socket, with_.
  rewrite (bind_known _ _ (sock, None) w w) by (unfold get_socket; by rewrite Ho, decide_True).
  rewrite (bind_known _ _ (Some i) w w) by done. rewrite put_known. rewrite read_poller_bind.
  cbn [pollers set_heap]. rewrite Hp. unfold os_call. cbn [os set_heap fst].
  by destruct (mio_register _ _ _ _ _) as [o [[]|e|]].
Qed.

Lemma deregister_socket_eq w fd sock q i p :
  heap w !! data fd = Some (OSocket (desc fd) sock q) → pollers w !! i = Some p →
  deregister_socket i (desc fd) fd w =
    match mio_deregister (os w) (mio_id p) sock with
    | (o, Ok _) => (set_os o w, Ok ())
    | (o, Err e) => (set_os o w, Err e)
    | (o, Panic) => (drop_at (data fd) (set_os o w), Panic)
    end.
Proof.
  intros Ho Hp. unfold deregister_socket, with_.
  rewrite (bind_known _ _ (sock, q) w w) by (unfold get_socket; by rewrite Ho, decide_True).
  rewrite read_poller_bind, Hp. unfold os_call. simpl.
  by destruct (mio_deregister _ _ _) as [o [[]|e|]].
Qed.

(** [fd_close] of a socket registered with poller [i]. *)
Lemma close_registered_eq w fd sock i p :
  is_socket (desc fd) → heap w !! data fd = Some (OSocket (desc fd) sock (Some i)) →
  pollers w !! i = Some p →
  fd_close w fd =
    match mio_deregister (os w) (mio_id p) sock with
    | (o, Ok _) =>
        (drop_at (data fd) (wake (option_list (read_wakers p !! token fd))
           (set_poller i (set_read_wakers (delete (token fd) (read_wakers p)) p) (set_os o w))), Ok ())
    | (o, Err e) => (set_os o w, Err e)
    | (o, Panic) => (drop_at (data fd) (drop_at (data fd) (set_os o w)), Panic)
    end.
Proof.
  intros Hk Ho Hp.
  assert (fd_close w fd = close_socket (desc fd) fd w) as ->
    by (simpl; unfold proxy_close; by destruct Hk as [-> |[-> | ->]]).
  unfold close_socket. rewrite (bind_known _ _ () w w) by (by apply expect_known).
  assert (deregister i fd w = (deregister_socket i (desc fd) fd;;
    waker ← on_poller i (λ p, remove_waker p (token fd) Interest_all);
    wake_all (option_list waker)) w) as Hdr
    by (unfold deregister; by destruct Hk as [-> |[-> | ->]]).
  unfold with_. unfold mbind at 1, sm_bind at 1.
  rewrite (bind_known _ _ (sock, Some i) w w) by (unfold get_socket; by rewrite Ho, decide_True).
  rewrite (bind_known _ _ i w w) by done. rewrite Hdr.
  unfold mbind at 1, sm_bind at 1. rewrite (deregister_socket_eq w fd sock (Some i) i p Ho Hp).
  destruct (mio_deregister (os w) (mio_id p) sock) as [o [[]|e|]]; [|done..].
  unfold mbind, sm_bind, on_poller. cbn [pollers set_os]. by rewrite Hp.
Qed.

Lemma close_registered w fd sock i p :
  is_socket (desc fd) → heap w !! data fd = Some (OSocket (desc fd) sock (Some i)) →
  pollers w !! i = Some p →
  match mio_deregister (os w) (mio_id p) sock with
  | (o, Ok _) => ∃ w', fd_close w fd = (w', Ok ()) ∧ heap w' !! data fd = None ∧ os w' = os_drop o sock
  | (o, Err e) => fd_close w fd = (set_os o w, Err e)
  | (o, Panic) => (fd_close w fd).2 = Panic
  end.
Proof.
  intros Hk Ho Hp. rewrite (close_registered_eq w fd sock i p Hk Ho Hp).
  destruct (mio_deregister (os w) (mio_id p) sock) as [o [[]|e|]]; [|done..].
  eexists. split; [done|]. unfold drop_at. simpl. rewrite Ho. simpl. by rewrite lookup_delete_eq.
Qed.

(** The command that registers a new socket. *)
Lemma cntl_register_eq w P fd sock i p int mi :
  desc P = Poller → heap w !! data P = Some (OPoller i) → pollers w !! i = Some p →
  is_socket (desc fd) → heap w !! data fd = Some (OSocket (desc fd) sock None) →
  mio_interests int = Some mi →
  fd_cntl w P (CmdRegister (A:=A) fd int) =
    match mio_register (os w) (mio_id p) sock (token fd) mi with
    | (o, Ok _) => (with_registered fd sock i o w, [], Ok RespNone)
    | (o, Err e) => (with_registered fd sock i o w, [], Err e)
    | (o, Panic) =>
        (drop_at (data P) (drop_at (data fd) (with_registered fd sock i o w)), [], Panic)
    end.
Proof.
  intros HP HPo Hp Hk Ho Hi. simpl. rewrite expecting_eq, decide_True by done. unfold poller_register_.
  rewrite (bind_known _ _ () w w) by (by apply expect_known). unfold with_ at 1.
  rewrite (bind_known _ _ i w w) by (unfold get_poller; by rewrite HPo).
  assert (register i fd int w = register_socket i (desc fd) fd mi w) as ->
    by (unfold register; rewrite Hi; by destruct Hk as [-> |[-> | ->]]).
  rewrite (register_socket_eq w fd sock i p mi Ho Hp). by destruct (mio_register _ _ _ _ _) as [o [[]|e|]].
Qed.
End registration.

(** ** Property *)

(** A code bug: a socket whose registration fails is leaked.  A constructor gives a new socket
    to the poller; when mio accepts it, the socket is returned, registered.  When mio
    refuses it the constructor closes it, and fails with the error of mio; but the
    close first asks mio to forget the socket, and when mio refuses that too (it never
    accepted it), the object stays in memory and its system socket is never closed, and the
    error of the close is ignored. *)
Theorem failed_registration_leaks {A Os} `{!MioNet A Os} (w : World Os) (P fd : Handle)
    (sock i : nat) (p : MioPoller) (int mi : Interest) :
  desc P = Poller → heap w !! data P = Some (OPoller i) → pollers w !! i = Some p →
  is_socket (desc fd) → heap w !! data fd = Some (OSocket (desc fd) sock None) →
  mio_interests int = Some mi →
  match mio_register (os w) (mio_id p) sock (token fd) mi with
  | (o, Ok _) => register_or_close (A:=A) w P fd int = (with_registered fd sock i o w, Ok fd)
  | (o, Err e) =>
      match mio_deregister o (mio_id p) sock with
      | (o', Ok _) => ∃ w', register_or_close (A:=A) w P fd int = (w', Err e) ∧
          heap w' !! data fd = None ∧ os w' = os_drop o' sock
      | (o', Err _) => ∃ w', register_or_close (A:=A) w P fd int = (w', Err e) ∧
          heap w' !! data fd = Some (OSocket (desc fd) sock (Some i)) ∧ os w' = o'
      | (o', Panic) => (register_or_close (A:=A) w P fd int).2 = Panic
      end
  | (o, Panic) => (register_or_close (A:=A) w P fd int).2 = Panic
  end.
Proof.
  intros HP HPo Hp Hk Ho Hi. unfold register_or_close.
  rewrite (cntl_register_eq w P fd sock i p int mi HP HPo Hp Hk Ho Hi).
  destruct (mio_register (os w) (mio_id p) sock (token fd) mi) as [o [[]|e|]]; [done| |done].
  pose proof (close_registered (A:=A) (with_registered fd sock i o w) fd sock i p Hk) as Hc.
  simpl in Hc. rewrite lookup_insert_eq in Hc. specialize (Hc eq_refl Hp).
  change (fd_close (A:=A) (with_registered fd sock i o w) fd)
    with (proxy_close (with_registered fd sock i o w) fd).
  destruct (mio_deregister o (mio_id p) sock) as [o' [[]|e'|]].
  - destruct Hc as (w'&->&Hh&Hos). eauto.
  - rewrite Hc. eexists. split; [done|]. simpl. by rewrite lookup_insert_eq.
  - destruct (proxy_close _ _) as [w' r]. simpl in Hc. by subst.
Qed.

(** Witness: a poller that refuses the stream, on the system of [Wakeups.v]. *)
Definition refusing_world : World N :=
  {| os := 0%N; heap := {[0 := OPoller 0; 1 := OSocket TcpStream 4 None]}; next_ptr := 2; next_token := 2;
     pollers := {[0 := MioPoller_new 1 1000000 0]}; next_poller := 1; woken := [] |}.

Lemma failed_registration_leaks_witness :
  ∃ w', register_or_close (A:=nat) refusing_world clock_poller demo_stream (Interest_or Readable Writable) =
    (w', Err Other) ∧ heap w' !! 1 = Some (OSocket TcpStream 4 (Some 0)).
Proof.
  pose proof (failed_registration_leaks (A:=nat) refusing_world clock_poller demo_stream 4 0
    (MioPoller_new 1 1000000 0) (Interest_or Readable Writable) Interest_all) as H.
  destruct H as (w'&H1&H2&_); [reflexivity|reflexivity|reflexivity|by right; left|reflexivity|reflexivity|].
  by exists w'.
Defined.
