(* ===== verification/Sleeping.v ===== *)
(** * The sleep over the mio driver

    [Sleep] of [Sockets.v] with the timers and the time wheel of [Mio.v], on a system
    with a monotonic clock: when its task is woken and when it answers; and the race
    between [timeout] and the thread that polls. *)

From S2P Require Import Prelude IoDriver Timewheel Sockets Mio Calls Wakeups.

(** ** The sleep *)
Section sleep.
Context {A Os : Type} `{!MioNet A Os}.
Implicit Types (w : World Os) (h : Handle) (t : MioTimer).

(** The calls of a sleep, step by step. *)
Lemma timeout_eq w h t i p k :
  desc h = Timeout → heap w !! data h = Some (OTimer t (Some i)) → pollers w !! i = Some p →
  timeout_ k h w =
    let '(o, now) := os_now (os w) in
    match is_expired t now with
    | Some true => (set_os o w, Ok true)
    | Some false => (set_poller i (add_waker p (token h) Readable k) (set_os o w), Ok false)
    | None => (drop_at (data h) (set_os o w), Panic)
    end.
Proof.
  intros Hd Ho Hp. unfold timeout_. rewrite (bind_known _ _ () w w) by (by apply expect_known).
  unfold with_. rewrite (bind_known _ _ (t, Some i) w w) by (unfold get_timer; by rewrite Ho).
  unfold mbind at 1, sm_bind at 1, instant_now. destruct (os_now (os w)) as [o now]. cbn [fst snd].
  destruct (is_expired t now) as [[]|]; [done| |done].
  unfold add_waker_, on_poller, mbind, sm_bind. simpl. by rewrite Hp.
Qed.

Lemma register_timer_eq w h t i p o1 start o2 now :
  heap w !! data h = Some (OTimer t None) → is_started t = false →
  pollers w !! i = Some p → os_now (os w) = (o1, start) → os_now o1 = (o2, now) →
  register_timer i h w =
    if decide (tick_duration (hashed_timewheel p) = 0%N)
    then (drop_at (data h) (set_os o2 w), Panic)
    else
      let '(t, wheel, _) :=
        MioTimer_start t start now (N.of_nat (token h)) (tick p) (wheel_start p) (hashed_timewheel p) in
      (set_poller i (set_timewheel wheel p)
         (set_heap (<[data h := OTimer t (Some i)]> (heap w)) (set_os o2 w)), Ok ()).
Proof.
  intros Ho Ht Hp H1 H2. unfold register_timer, with_.
  rewrite (bind_known _ _ (t, None) w w) by (unfold get_timer; by rewrite Ho). cbn [fst snd].
  rewrite Ht. rewrite (bind_known _ _ () w w) by done. rewrite (bind_known _ _ (Some i) w w) by done.
  rewrite (bind_known _ _ start w (set_os o1 w)) by (unfold instant_now; by rewrite H1).
  rewrite (bind_known _ _ now (set_os o1 w) (set_os o2 w)) by (unfold instant_now; simpl; by rewrite H2).
  rewrite read_poller_bind. cbn [pollers set_os]. rewrite Hp. unfold assert_.
  case_decide as Htd; case_bool_decide as Hb; try done.
  rewrite (bind_known _ _ () (set_os o2 w) (set_os o2 w)) by done.
  destruct (MioTimer_start _ _ _ _ _ _ _) as [[t' wheel] b]. rewrite put_known.
  unfold on_poller. cbn [pollers set_heap set_os]. by rewrite Hp.
Qed.
Lemma sleep_check_eq w sl h t i p k :
  desc h = Timeout → heap w !! data h = Some (OTimer t (Some i)) → pollers w !! i = Some p →
  Sleep_check w sl h k =
    let '(o, now) := os_now (os w) in
    match is_expired t now with
    | Some true => (set_os o w, sl, Ready (Ok ()))
    | Some false => (set_poller i (add_waker p (token h) Readable k) (set_os o w), sl, Pending)
    | None => (drop_at (data h) (set_os o w), sl, Ready Panic)
    end.
Proof.
  intros Hd Ho Hp. unfold Sleep_check, cntl_into. simpl fd_cntl.
  rewrite expecting_eq, decide_True by done. simpl IoDriver.timeout.
  rewrite (timeout_eq w h t i p k Hd Ho Hp). destruct (os_now (os w)) as [o now].
  by destruct (is_expired t now) as [[]|].
Qed.

(** The timer of a sleep, once started. *)
Definition started (start d td : N) (tks : option N) : MioTimer :=
  {| start_instant := Some start; duration := d; timer_tick_duration := Some td;
     timewheel_ticks := tks |}.

(** The first poll of a sleep that answers [Pending]: the timer is in the wheel of the
    poller of the context, and the task is registered for its token. *)
Definition sleep_started w (P : Handle) (d : N) (k : nat) w' (fd : Handle) (i : nat)
    (start td now : N) : Prop :=
  ∃ p o1 o2 wheel tks,
    desc fd = Timeout ∧ token fd = next_token w ∧ data fd = next_ptr w ∧
    os_now (os w) = (o1, start) ∧ os_now o1 = (o2, now) ∧ os w' = (os_now o2).1 ∧
    heap w !! data P = Some (OPoller i) ∧ pollers w !! i = Some p ∧ tick p = td ∧
    tick_duration (hashed_timewheel p) ≠ 0%N ∧
    new_timer_seq (hashed_timewheel p) (now - wheel_start p) (N.of_nat (token fd)) d = (wheel, tks) ∧
    heap w' !! data fd = Some (OTimer (started start d td tks) (Some i)) ∧
    pollers w' = <[i := add_waker (set_timewheel wheel p) (token fd) Readable k]> (pollers w) ∧
    next_ptr w' = S (next_ptr w) ∧ next_poller w' = next_poller w ∧ woken w' = woken w.

Lemma sleep_first_poll w P d k w' sl :
  Sleep_poll w {| sleep_fd := None; expired := d; sleep_poller := P |} k = (w', sl, Pending) →
  ∃ fd i start td now, sleep_fd sl = Some fd ∧ sleep_poller sl = P ∧
    sleep_started w P d k w' fd i start td now.
Proof.
  unfold Sleep_poll. cbn [sleep_fd expired]. simpl fd_open. unfold timeout_open_.
  case_bool_decide; [done|]. simpl. rewrite expecting_eq. case_decide as HP; [|done].
  set (fd := Build_Handle _ _ _ _). set (wa := Build_World _ _ _ _ _ _ _).
  unfold poller_register_. rewrite (bind_known _ _ () wa wa) by (by apply expect_known).
  unfold with_ at 1, mbind at 1, sm_bind at 1, get_poller.
  destruct (heap wa !! data P) as [[| |i]|] eqn:HPi; try done.
  assert (data P ≠ next_ptr w ∧ heap w !! data P = Some (OPoller i)) as [Hne HPi'].
  { subst wa. simpl in HPi. apply lookup_insert_Some in HPi as [[_ ?]|[? ?]]; [done|by split; [congruence|]]. }
  change (register i fd Readable wa) with (register_timer i fd wa).
  destruct (pollers w !! i) as [p|] eqn:Hp.
  2: { unfold register_timer, with_, mbind, sm_bind, get_timer, instant_now. subst wa fd. simpl.
       rewrite lookup_insert_eq. simpl. destruct (os_now (os w)) as [o1 start]. simpl.
       destruct (os_now o1) as [o2 now]. unfold read_poller, on_poller. simpl. by rewrite Hp. }
  destruct (os_now (os w)) as [o1 start] eqn:H1. destruct (os_now o1) as [o2 now] eqn:H2.
  rewrite (register_timer_eq wa fd (MioTimer_new d) i p o1 start o2 now);
    [|subst wa fd; simpl; by rewrite ?lookup_insert_eq..].
  case_decide as Htd; [done|]. unfold MioTimer_start. cbn [duration MioTimer_new].
  destruct (new_timer_seq _ _ _ _) as [wheel tks] eqn:Hnew. cbn [fst snd resp fmap res_fmap].
  fold (started start d (tick p) tks).
  set (wb := set_poller _ _ _). unfold resp. cbn [fst snd fmap].
  rewrite (sleep_check_eq wb _ fd (started start d (tick p) tks) i (set_timewheel wheel p));
    [|done|subst wb; simpl; by rewrite lookup_insert_eq|subst wb; simpl; by rewrite lookup_insert_eq].
  subst wb. cbn [os set_poller set_heap set_os]. destruct (os_now o2) as [o3 now3] eqn:H3.
  destruct (is_expired _ now3) as [[]|]; [done| |done]. intros [= <- <-].
  exists fd, i, start, (tick p), now. split; [done|]. split; [done|].
  exists p, o1, o2, wheel, tks. rewrite H3. split_and!; try done.
  - simpl. by rewrite lookup_insert_eq.
  - simpl. by rewrite insert_insert_eq.
Qed.
End sleep.

(** ** How long a sleep lasts *)
Section duration.
Context {A Os : Type} `{!MioNet A Os} (clock : Os → N) (delivers : list Event → Prop).
Context `{!OsOrder A Os (not_before clock) (reads clock) delivers}.
Implicit Types (w : World Os) (h : Handle).

(** The tick at which a timer made at [now] for [d] is due, as a number without a
    width. *)
Definition due_tick (p : MioPoller) (now d : N) : N :=
  as_micros (now - wheel_start p + d) `div` tick_duration (hashed_timewheel p).

Lemma clock_read o : (clock o ≤ clock (os_now o).1)%N ∧ clock (os_now o).1 = (os_now o).2.
Proof. apply (order_now (A:=A) (later:=not_before clock) (tells:=reads clock) (delivers:=delivers)). Qed.

(** One tick after it is due, the tick is past. *)
Lemma due_before p now d c :
  tick_duration (hashed_timewheel p) = as_micros (tick p) → tick_duration (hashed_timewheel p) ≠ 0%N →
  (wheel_start p ≤ now)%N → (now + d + tick p ≤ c)%N → (due_tick p now d < elapsed_ticks p c)%N.
Proof.
  intros Htd Hz Hs Hc. unfold due_tick, elapsed_ticks. rewrite Htd in *. unfold as_micros in *.
  set (T := (tick p `div` 1000)%N) in *.
  apply N.lt_le_trans with (((now - wheel_start p + d) `div` 1000 + T) `div` T)%N.
  - replace ((now - wheel_start p + d) `div` 1000 + T)%N
      with ((now - wheel_start p + d) `div` 1000 + 1 * T)%N by lia.
    rewrite N.div_add by done. lia.
  - apply N.Div0.div_le_mono. subst T.
    replace ((now - wheel_start p + d) `div` 1000 + tick p `div` 1000)%N
      with ((now - wheel_start p + d + tick p `div` 1000 * 1000) `div` 1000)%N
      by (rewrite N.div_add by done; lia).
    apply N.Div0.div_le_mono. pose proof (N.Div0.mul_div_le (tick p) 1000). lia.
Qed.

(** Within the 64 bits of a tick. *)
Lemma elapsed_small p now :
  (now < 1000 * 2 ^ 64)%N → (elapsed_ticks p now < 2 ^ 64)%N ∧
  tick_of (hashed_timewheel p) (now - wheel_start p) = elapsed_ticks p now.
Proof.
  intros Hn. assert (elapsed_ticks p now < 2 ^ 64)%N as Hlt.
  { unfold elapsed_ticks, as_micros.
    apply N.le_lt_trans with ((now - wheel_start p) `div` 1000)%N.
    - destruct (decide (tick_duration (hashed_timewheel p) = 0%N)) as [-> |]; [by destruct (_ `div` 1000)%N|].
      apply N.Div0.div_le_upper_bound. generalize ((now - wheel_start p) `div` 1000)%N. intros m.
      rewrite <-(N.mul_1_l m) at 1. apply N.mul_le_mono_r. lia.
    - apply N.Div0.div_lt_upper_bound. lia. }
  split; [done|]. unfold tick_of, as_u64. by apply N.mod_small.
Qed.

(** What a sleep has left in the state. *)
Lemma sleep_waits w P d k w' fd i start td now p :
  bounded w → on_time clock w → sleep_started w P d k w' fd i start td now → pollers w !! i = Some p →
  (due_tick p now d < 2 ^ 64)%N → waits (WTimer (due_tick p now d)) i (token fd) k w'.
Proof.
  intros Hb Ht (q&o1&o2&wheel&tks&_&_&_&H1&H2&_&_&Hp&_&Htd&Hnew&_&Hps&_&Hn&_) Hq Hdue. simplify_eq.
  destruct (clock_read (os w)) as [Hc1 Hc1']. rewrite H1 in Hc1, Hc1'.
  destruct (clock_read o1) as [Hc2 Hc2']. rewrite H2 in Hc2, Hc2'. simpl in *.
  destruct (Ht _ _ Hp) as (Hs&Hticks&_).
  assert (tick_of (hashed_timewheel q) (now - wheel_start q + d) = due_tick q now d) as Htk
    by (unfold tick_of, as_u64; by apply N.mod_small).
  assert (ticks (hashed_timewheel q) ≤ due_tick q now d)%N as Hle.
  { etrans; [exact Hticks|]. unfold elapsed_ticks, due_tick, as_micros.
    apply N.Div0.div_le_mono, N.Div0.div_le_mono. lia. }
  unfold new_timer_seq in Hnew. rewrite Htk, decide_False in Hnew by lia. simplify_eq.
  split; [rewrite Hn; by eapply Hb|]. rewrite Hps, lookup_insert_eq. eexists. split; [done|].
  split; [apply lookup_insert_eq|]. split; [done|]. simpl. rewrite lookup_insert_eq. simpl.
  apply elem_of_app. right. by apply list_elem_of_singleton.
Qed.

(** A poll that mio answers, at a clock within 64 bits: it does not panic. *)
Lemma poll_once_runs w i p timeout o events :
  on_time clock w → pollers w !! i = Some p → tick_duration (hashed_timewheel p) ≠ 0%N →
  mio_poll (os w) (mio_id p) (default (tick p) timeout) = (o, Ok events) →
  (clock (os_now o).1 < 1000 * 2 ^ 64)%N →
  wheel_panics p (os_now o).2 = false ∧ ∃ w', poll_once i timeout w = (w', Ok ()).
Proof.
  intros Ht Hp Htd Hm Hc. destruct (Ht _ _ Hp) as (Hs&Hticks&_).
  pose proof (order_poll (A:=A) (later:=not_before clock) (mio_id p) (default (tick p) timeout) (os w)) as Ho.
  unfold not_before in Ho. rewrite Hm in Ho. simpl in Ho. destruct (clock_read o) as [Hc1 Hc2].
  assert (wheel_panics p (os_now o).2 = false) as Hw.
  { apply bool_decide_eq_false. intros [?|Hlt]; [done|].
    destruct (elapsed_small p (os_now o).2) as [_ Heq]; [lia|]. rewrite Heq in Hlt.
    pose proof (elapsed_ticks_mono p (clock (os w)) (os_now o).2). lia. }
  split; [done|]. rewrite poll_once_eq, Hp, Hm. destruct (os_now o) as [o' now]. simpl in Hw. rewrite Hw. eauto.
Qed.
(** The state in which a sleep waits, after any calls on other handles. *)
Lemma sleep_later w0 w1 P d k fd i start td now cs :
  wf w0 → on_time clock w0 → keeps_time clock w0 w1 →
  sleep_started w0 P d k w1 fd i start td now →
  Forall (other_call (A:=A) (apart (token fd) (data fd))) cs →
  let w2 := run_calls cs w1 in
  ∃ p p0 tks, pollers w0 !! i = Some p0 ∧ pollers w2 !! i = Some p ∧ same_poller p0 p ∧ tick p = td ∧
    tick_duration (hashed_timewheel p) ≠ 0%N ∧ on_time clock w2 ∧ (clock (os w1) ≤ clock (os w2))%N ∧
    heap w2 !! data fd = Some (OTimer (started start d td tks) (Some i)).
Proof.
  intros [_ Wp] Ht0 Ht1 Hst Hcs w2.
  assert (keeps_time clock w1 w2) as Ht2.
  { apply (rel_calls (not_before clock) (reads clock) delivers (λ _, True) (keeps_time clock)). eapply Forall_impl; [exact Hcs|].
    intros [|h []|] _; by try split. }
  destruct Hst as (p0&o1&o2&wheel&tks&_&Htok&Hdata&_&_&_&_&Hp0&Htd&Hz&_&Ho&_&Hnp&_).
  assert (keeps_time clock w0 w2) as [_ Hw Hps] by (etrans; [exact Ht1|exact Ht2]).
  destruct (Hps i p0 (Wp _ _ Hp0) Hp0) as (_&p&Hp&Hs). exists p, p0, tks.
  destruct Hs as (S1&S2&S3&S4). split_and!; try done; [congruence|congruence|by apply Hw|apply Ht2|].
  rewrite <-Ho. eapply calls_object; [done|]. lia.
Qed.
(** A later poll of the sleep. *)
Lemma sleep_answers w sl fd start d td tks i p k :
  sleep_fd sl = Some fd → desc fd = Timeout →
  heap w !! data fd = Some (OTimer (started start d td tks) (Some i)) → pollers w !! i = Some p →
  (0 < td)%N → (start ≤ clock (os w))%N →
  ∃ w', Sleep_poll w sl k =
    (w', sl, if decide (start + d < (os_now (os w)).2 + td)%N then Ready (Ok ()) else Pending).
Proof.
  intros Hfd Hd Ho Hp Htd Hs. unfold Sleep_poll. rewrite Hfd.
  rewrite (sleep_check_eq w sl fd (started start d td tks) i p k Hd Ho Hp).
  destruct (clock_read (os w)) as [C C']. destruct (os_now (os w)) as [o now]. cbn [fst snd] in *.
  pose proof (is_expired_iff (started start d td tks) start now td eq_refl eq_refl Htd) as He.
  rewrite N.max_r in He by lia. cbn [duration started] in He.
  destruct (is_expired (started start d td tks) now) as [[]|] eqn:Hex.
  - rewrite decide_True by (by apply He). eauto.
  - rewrite decide_False by (intros Hlt; by apply He in Hlt). eauto.
  - exfalso. unfold is_expired in Hex. simpl in Hex. by case_decide.
Qed.
End duration.

(** A new [Sleep] of duration [d], polled for the first time by task [k], pends: it is
    now [sl]. *)
Definition falls_asleep {A Os} `{!MioNet A Os} (w0 : World Os) (P : Handle) (d : N) (k : nat)
    (w1 : World Os) (sl : Sleep) : Prop :=
  ∃ new, Sleep_new_with P d = Ok new ∧ Sleep_poll w0 new k = (w1, sl, Pending).

(** C17. A sleep lasts as long as it says.  When the first poll of [Sleep] answers
    [Pending], the timer started at a time [start] during that poll; and whatever other
    calls follow, a poll of the context's poller that mio answers does not
    panic (while the clock is within 64 bits of microseconds), and if it ends at
    least the duration and one tick after the first poll of the sleep, the task has been
    woken; a later poll of the sleep answers [Ready] exactly when the duration, less one
    tick, has passed since [start]. *)
Theorem sleep_lasts {A Os} `{!MioNet A Os} (clock : Os → N)
    (delivers : list Event → Prop) `{!OsOrder A Os (not_before clock) (reads clock) delivers} (w0 w1 : World Os) (P : Handle) (d : N)
    (k : nat) (sl : Sleep) :
  wf w0 → on_time clock w0 →
  falls_asleep w0 P d k w1 sl →
  ∃ fd i start td, sleep_fd sl = Some fd ∧ heap w0 !! data P = Some (OPoller i) ∧
    (clock (os w0) ≤ start ≤ clock (os w1))%N ∧
    ∀ cs, Forall (other_call (A:=A) (apart (token fd) (data fd))) cs →
    let w2 := run_calls cs w1 in
    ∃ p ts, pollers w2 !! i = Some p ∧ tick p = td ∧ woken w2 = woken w1 ++ ts ∧
      (∀ timeout o events,
         mio_poll (os w2) (mio_id p) (default td timeout) = (o, Ok events) →
         (clock (os_now o).1 < 1000 * 2 ^ 64)%N →
         ∃ w3 ts', poll_once i timeout w2 = (w3, Ok ()) ∧ woken w3 = woken w2 ++ ts' ∧
           ((clock (os w1) + d + td ≤ clock (os_now o).1)%N → k ∈ ts ++ ts')) ∧
      (∀ k', ∃ w3, Sleep_poll w2 sl k' =
         (w3, sl, if decide (start + d < (os_now (os w2)).2 + td)%N then Ready (Ok ()) else Pending)).
Proof.
  intros Hwf Ht0 (new&[= <-]&Hpoll).
  pose proof (rel_sleep_poll (not_before clock) (reads clock) delivers (λ _, True) (keeps_time clock)
    {| sleep_fd := None; expired := d; sleep_poller := P |} k w0 (λ _, I)) as Ht1.
  rewrite Hpoll in Ht1. simpl in Ht1.
  apply sleep_first_poll in Hpoll as (fd&i&start&td&now&Hfd&_&Hst).
  pose proof Hst as (p0'&o1&o2&_&_&Hd&_&_&H1&H2&Hos&HP&_).
  destruct (clock_read clock delivers (os w0)) as [C1 C1']. rewrite H1 in C1, C1'.
  destruct (clock_read clock delivers o1) as [C2 C2']. rewrite H2 in C2, C2'.
  destruct (clock_read clock delivers o2) as [C3 _]. rewrite <-Hos in C3. cbn [fst snd] in *.
  exists fd, i, start, td. split; [done|]. split; [done|]. split; [lia|]. intros cs Hcs. set (w2 := run_calls cs w1).
  destruct (sleep_later clock delivers w0 w1 P d k fd i start td now cs Hwf Ht0 Ht1 Hst Hcs)
    as (p&p0&tks&Hp0&Hp&(_&S2&S3&S4)&Htd&Hz&Ht2&Hc12&Ho). fold w2 in Hp, Ht2, Hc12, Ho.
  assert (∃ ts, woken w2 = woken w1 ++ ts) as [ts Hts].
  { destruct (rel_calls (λ _ _, True) (λ _ _, True) (λ _, True) _
      (keeps_waiting WRead i (token fd) k) cs w1 Hcs) as (ts&Hts&_). eauto. }
  assert (0 < td)%N as Hpos.
  { destruct (Ht0 _ _ Hp0) as (_&_&Htick). rewrite S4, Htick, <-S2, Htd in Hz. by destruct td. }
  exists p, ts. split_and!; try done.
  - intros timeout o events Hm Hc. rewrite <-Htd in Hm.
    destruct (poll_once_runs clock delivers w2 i p timeout o events Ht2 Hp Hz Hm Hc) as [Hnp [w3 Hw3]].
    pose proof Hw3 as Hev. rewrite poll_once_eq, Hp, Hm in Hev.
    destruct (clock_read clock delivers o) as [_ Hnow]. destruct (os_now o) as [o' now'] eqn:Hn.
    cbn [fst snd] in *. rewrite Hnp in Hev. injection Hev as Hev.
    exists w3, (poll_events p now' events).2. split; [done|]. split; [by rewrite <-Hev|]. intros Hlate.
    destruct (Ht0 _ _ Hp0) as (Hws&_&Htick). destruct (elapsed_small p now') as [Hs1 Hs2]; [lia|].
    assert (due_tick p0 now d < elapsed_ticks p now')%N as Hdue.
    { unfold due_tick. rewrite <-S3, <-S4. apply due_before; [congruence|done|lia|lia]. }
    destruct (calls_waiting cs _ _ _ _ _ _ Hcs
      (sleep_waits clock delivers w0 P d k w1 fd i start td now p0 (wf_pollers _ Hwf) Ht0 Hst Hp0 ltac:(lia)))
      as (ts2&Hts2&Hk). fold w2 in Hts2, Hk. rewrite Hts in Hts2. apply app_inj_1 in Hts2 as [_ <-]; [|done].
    apply elem_of_app. destruct Hk as [?|Hk]; [by left|right].
    destruct (waits_poll _ _ _ _ _ Hk timeout w3 p o events Hp Hm Hw3) as (ts3&Hts3&Hrep&_).
    rewrite <-Hev in Hts3. apply app_inj_1 in Hts3 as [_ ->]; [|done]. apply Hrep. right.
    rewrite Hn. cbn [snd]. by rewrite Hs2.
  - intros k'. by eapply (sleep_answers clock delivers w2 sl fd start d td tks i p); [..|lia|lia].
Qed.

(** ** [timeout] is not atomic

    Between the test of the clock and the registration of the waker another thread may
    call the driver. *)
Section race.
Context {A Os : Type} `{!MioNet A Os}.
Implicit Types (w : World Os) (h : Handle) (p : MioPoller).

#[local] Abbreviation M := (sm (World Os) ErrorKind).

(** [timeout], up to the test: the poller if the timer has not expired. *)
Definition timeout_check h : M (option nat) :=
  expect_ h Timeout;;
  with_ h (
    tp ← get_timer h;
    now ← instant_now;
    match is_expired tp.1 now with
    | None => panic
    | Some true => mret None
    | Some false => i ← poller tp.2; mret (Some i)
    end).
(** The rest of it. *)
Definition timeout_register (i k : nat) h : M bool :=
  with_ h (add_waker_ i (token h) Readable k;; mret false).

Lemma timeout_split k h w :
  timeout_ k h w = (r ← timeout_check h;
    match r with None => mret true | Some i => timeout_register i k h end) w.
Proof.
  unfold timeout_, timeout_check, timeout_register, with_, mbind, sm_bind, expect_.
  destruct (expect h Timeout); [|done..]. unfold get_timer, instant_now.
  destruct (heap w !! data h) as [[|t q|]|]; try done. cbn [fst snd].
  destruct (os_now (os w)) as [o now]. destruct (is_expired t now) as [[]|]; [done| |done].
  destruct q as [i|]; [|done]. unfold poller, mret, sm_ret.
  by destruct (add_waker_ i (token h) Readable k (set_os o w)) as [w' [[]| |]].
Qed.

(** The slots that hold the timer of token [t]: at most the slot [o], not passed. *)
Definition only (o : option N) (t : nat) p : Prop :=
  ∀ tk, N.of_nat t ∈ default [] (timers_map (hashed_timewheel p) !! tk) →
    o = Some tk ∧ (ticks (hashed_timewheel p) ≤ tk)%N.

(** ... and, once it is in no slot, its task [k] stays registered. *)
Definition holds_only (o : option N) (i t k : nat) w : Prop :=
  i < next_poller w ∧ ∃ p, pollers w !! i = Some p ∧ only o t p ∧
    (o = None → read_wakers p !! t = Some k).
Definition keeps_only o i t k w w' : Prop := holds_only o i t k w → holds_only o i t k w'.

(** mio never reports a token that was not registered with it. *)
Definition never (t : nat) (es : list Event) : Prop := reported_readable es t = false.

Lemma keeps_only_poller o i t k j p p' w :
  pollers w !! j = Some p →
  (only o t p → (o = None → read_wakers p !! t = Some k) →
     only o t p' ∧ (o = None → read_wakers p' !! t = Some k)) →
  keeps_only o i t k w (set_poller j p' w).
Proof.
  intros Hp Hk (Hi&q&Hq&Ho&Hr). split; [done|]. simpl.
  destruct (decide (j = i)) as [->|]; [|rewrite lookup_insert_ne by done; eauto].
  rewrite lookup_insert_eq. rewrite Hp in Hq. injection Hq as <-. eexists. split; [done|]. auto.
Qed.

(** The tick of the wheel takes no timer twice. *)
Lemma next_tick_only o t (w : HashedTimeWheel N) now tk :
  (ticks w ≤ tick_of w now)%N →
  (∀ tk, N.of_nat t ∈ default [] (timers_map w !! tk) → o = Some tk ∧ (ticks w ≤ tk)%N) →
  N.of_nat t ∈ default [] (timers_map (next_tick_seq w now).1 !! tk) →
  o = Some tk ∧ (tick_of w now ≤ tk)%N ∧ N.of_nat t ∈ default [] (timers_map w !! tk).
Proof.
  intros Hle Ho. unfold next_tick_seq. case_decide as Heq.
  { intros Ht. destruct (Ho tk Ht). split_and!; [done|lia|done]. }
  destruct (take_slots_spec (N.to_nat (tick_of w now - ticks w)) (ticks w)
    (set_ticks (tick_of w now) w) []) as [_ H1].
  destruct (take_slots _ _ _ _) as [w' ts]. simpl in *. subst. simpl.
  destruct (filter _ (timers_map w) !! tk) as [l|] eqn:Hl; [|by intros ?%elem_of_nil].
  apply map_lookup_filter_Some in Hl as [Hl Hn]. simpl in Hn |- *. intros Ht.
  destruct (Ho tk) as [? ?]; [by rewrite Hl|]. rewrite Hl. split_and!; [done|lia|done].
Qed.

Lemma next_tick_fired (w : HashedTimeWheel N) now x :
  x ∈ default [] (next_tick_seq w now).2 → ∃ tk, x ∈ default [] (timers_map w !! tk).
Proof.
  unfold next_tick_seq. case_decide; [by intros ?%elem_of_nil|].
  destruct (take_slots_spec (N.to_nat (tick_of w now - ticks w)) (ticks w)
    (set_ticks (tick_of w now) w) []) as [H2 _].
  destruct (take_slots _ _ _ _) as [w' ts]. simpl in *. subst.
  intros (l&Hl&Hx)%elem_of_concat. apply list_elem_of_fmap in Hl as (n&->&_). eauto.
Qed.

#[export] Instance stable_only later tells o i t k ptr :
  Stable later tells (never t) (apart t ptr) (keeps_only o i t k).
Proof.
  split; try (intros; exact (λ H, H)).
  - split; [by intros w H|]. intros w1 w2 w3 H1 H2 H. by apply H2, H1.
  - intros id d now w _ (Hi&p&Hp&Hk). split; [simpl; lia|]. simpl. rewrite lookup_insert_ne by lia. eauto.
  - intros j h int k' p w [Ht _] Hp. eapply keeps_only_poller; [done|]. intros Ho Hr. unfold add_waker.
    destruct (Interest_contains int Readable), (Interest_contains int Writable); simpl;
      rewrite ?lookup_insert_ne by done; done.
  - intros j h int p w [Ht _] Hp. eapply keeps_only_poller; [done|]. intros Ho Hr. unfold remove_waker.
    destruct (Interest_contains int Readable), (Interest_contains int Writable); simpl;
      rewrite ?lookup_delete_ne by done; done.
  - intros j now h d p w [Ht _] Hp. eapply keeps_only_poller; [done|]. intros Ho Hr. split; [|done].
    unfold new_timer_seq. case_decide; [done|]. intros tk. simpl.
    destruct (decide (tk = tick_of (hashed_timewheel p) (now + d))) as [->|].
    + rewrite lookup_insert_eq. simpl.
      intros [Hx|Hx%list_elem_of_singleton]%elem_of_app; [by apply Ho|lia].
    + rewrite lookup_insert_ne by done. apply Ho.
  - intros j now events p w Hp _ Hnever Hw.
    change (keeps_only o i t k w (set_poller j (poll_events p now events).1 w)).
    eapply keeps_only_poller; [done|]. intros Ho Hr. apply bool_decide_eq_false in Hw. unfold poll_events.
    destruct (next_tick_seq (hashed_timewheel p) (now - wheel_start p)) as [wh fired] eqn:Hn.
    set (es := _ ++ _). destruct (wake_events_static es (set_timewheel wh p)) as (Hst&_&_&_).
    split.
    + intros tk. rewrite Hst. simpl. intros Htk.
      destruct (next_tick_only o t (hashed_timewheel p) (now - wheel_start p) tk) as (->&?&_);
        [lia|exact Ho|by rewrite Hn|].
      destruct (next_tick_slots (hashed_timewheel p) (now - wheel_start p)) as (Hticks&_&_); [lia|].
      rewrite Hn in Hticks. simpl in Hticks. by rewrite Hticks.
    + intros ->. pose proof (wake_events_reader es (set_timewheel wh p) t k (Hr eq_refl)) as Hrd.
      subst es. rewrite carries_app in Hrd.
      destruct (carries_events events t) as [Hce _], (carries_timers (default [] fired) t) as [Hct _].
      rewrite Hce, Hct, Hnever in Hrd. simpl in Hrd. case_bool_decide as Hf; [|done]. exfalso.
      assert (N.of_nat t ∈ default [] (next_tick_seq (hashed_timewheel p) (now - wheel_start p)).2)
        as [tk Htk]%next_tick_fired by by rewrite Hn.
      by destruct (Ho tk Htk).
Qed.
(** A timer in slot [tk] stays there until the wheel has passed the slot. *)
Definition in_slot (i t : nat) (tk : N) w : Prop :=
  i < next_poller w ∧ ∃ p, pollers w !! i = Some p ∧
    (armed tk t p ∨ (tk < ticks (hashed_timewheel p))%N).
Definition keeps_slot i t tk w w' : Prop := in_slot i t tk w → in_slot i t tk w'.

Lemma keeps_slot_poller i t tk j p p' w :
  pollers w !! j = Some p →
  (armed tk t p ∨ (tk < ticks (hashed_timewheel p))%N →
   armed tk t p' ∨ (tk < ticks (hashed_timewheel p'))%N) →
  keeps_slot i t tk w (set_poller j p' w).
Proof.
  intros Hp Hk (Hi&q&Hq&Ho). split; [done|]. simpl.
  destruct (decide (j = i)) as [->|]; [|rewrite lookup_insert_ne by done; eauto].
  rewrite lookup_insert_eq. rewrite Hp in Hq. injection Hq as <-. eauto.
Qed.

#[export] Instance stable_slot later tells delivers other i t tk :
  Stable later tells delivers other (keeps_slot i t tk).
Proof.
  split; try (intros; exact (λ H, H)).
  - split; [by intros w H|]. intros w1 w2 w3 H1 H2 H. by apply H2, H1.
  - intros id d now w _ (Hi&p&Hp&Hk). split; [simpl; lia|]. simpl. rewrite lookup_insert_ne by lia. eauto.
  - intros j h int k' p w _ Hp. eapply keeps_slot_poller; [done|]. unfold add_waker.
    by destruct (Interest_contains int Readable), (Interest_contains int Writable).
  - intros j h int p w _ Hp. eapply keeps_slot_poller; [done|]. unfold remove_waker.
    by destruct (Interest_contains int Readable), (Interest_contains int Writable).
  - intros j now h d p w _ Hp. eapply keeps_slot_poller; [done|].
    unfold new_timer_seq. case_decide; [done|]. intros [[Ha Hx]|?]; [left|by right]. split; [done|]. simpl.
    destruct (decide (tk = tick_of (hashed_timewheel p) (now + d))) as [->|].
    + rewrite lookup_insert_eq. simpl. apply elem_of_app. by left.
    + by rewrite lookup_insert_ne.
  - intros j now events p w Hp _ _ Hw.
    change (keeps_slot i t tk w (set_poller j (poll_events p now events).1 w)).
    eapply keeps_slot_poller; [done|]. intros Ho.
    destruct (poll_events_static p now events Hw) as [_ Ht]. apply bool_decide_eq_false in Hw. rewrite Ht.
    destruct Ho as [[Ha Hx]|?]; [|right; lia].
    destruct (decide (tk < tick_of (hashed_timewheel p) (now - wheel_start p))%N); [by right|left].
    destruct (next_tick_slots (hashed_timewheel p) (now - wheel_start p)) as (_&_&Hs); [lia|].
    specialize (Hs tk _ Ha Hx). rewrite decide_False in Hs by done.
    split; [rewrite Ht; lia|]. unfold poll_events.
    destruct (next_tick_seq (hashed_timewheel p) (now - wheel_start p)) as [wh fired].
    match goal with |- context [wake_events ?q ?es] => destruct (wake_events_static es q) as (->&_) end.
    exact Hs.
Qed.
End race.

(** A timer of a sleep, in the slot of its deadline and in no other. *)
Record timer_set {A Os} `{!MioNet A Os} (w : World Os) (fd : Handle) (start d td : N) (i : nat)
    (tk : N) : Prop := {
  ts_desc : desc fd = Timeout;
  ts_object : ∃ tks, heap w !! data fd = Some (OTimer (started start d td tks) (Some i));
  ts_number : i < next_poller w;
  ts_poller : ∃ p now, pollers w !! i = Some p ∧ armed tk (token fd) p ∧ only (Some tk) (token fd) p ∧
    (start ≤ now)%N ∧ tk = due_tick p now d;
  ts_tick : (0 < td)%N;
}.

(** The first poll of a sleep sets its timer. *)
Lemma sleep_sets_timer {A Os} `{!MioNet A Os} (clock : Os → N) (delivers : list Event → Prop)
    `{!OsOrder A Os (not_before clock) (reads clock) delivers} (w w' : World Os) P d k fd i start td now p :
  bounded w → on_time clock w → sleep_started w P d k w' fd i start td now → pollers w !! i = Some p →
  (due_tick p now d < 2 ^ 64)%N → only None (token fd) p →
  timer_set w' fd start d td i (due_tick p now d).
Proof.
  intros Hb Ht Hst Hp Hdue Honly.
  destruct (sleep_waits clock delivers w P d k w' fd i start td now p Hb Ht Hst Hp Hdue)
    as (Hi&p'&Hp'&_&Harm).
  destruct Hst as (q&o1&o2&wheel&tks&Hd&_&_&H1&H2&_&_&Hq&Htick&Hz&Hnew&Ho&Hps&_).
  rewrite Hp in Hq. injection Hq as <-. rewrite Hps, lookup_insert_eq in Hp'. injection Hp' as <-.
  destruct (clock_read clock delivers o1) as [Hc2 Hc2']. rewrite H2 in Hc2, Hc2'.
  destruct (clock_read clock delivers (os w)) as [_ Hc1']. rewrite H1 in Hc1'. cbn [fst snd] in *.
  destruct (Ht _ _ Hp) as (_&_&Htd).
  split; [done|eauto|done| |].
  - eexists _, now. rewrite Hps, lookup_insert_eq. split; [done|]. split; [exact Harm|].
    unfold new_timer_seq in Hnew. case_decide; injection Hnew as <- <-; [by destruct Harm as [_ []%Honly]|].
    split; [|split; [lia|done]]. intros tk. simpl.
    assert (tick_of (hashed_timewheel p) (now - wheel_start p + d) = due_tick p now d) as ->
      by (unfold tick_of, as_u64; by apply N.mod_small).
    destruct (decide (tk = due_tick p now d)) as [->|].
    + intros _. split; [done|apply Harm].
    + rewrite lookup_insert_ne by done. by intros [? _]%Honly.
  - rewrite Htd in Hz. subst. by destruct (tick p).
Qed.

(** The test of the clock, when the timer has not expired. *)
Lemma timeout_check_known {A Os} `{!MioNet A Os} (w w1 : World Os) fd start d td i tk i' :
  timer_set w fd start d td i tk → timeout_check fd w = (w1, Ok (Some i')) →
  i' = i ∧ w1 = set_os (os_now (os w)).1 w ∧ (N.max start (os_now (os w)).2 + td ≤ start + d)%N.
Proof.
  intros [Hd [tks Ho] _ _ Htd] Hc. unfold timeout_check in Hc.
  rewrite (bind_known _ _ () w w) in Hc by (by apply expect_known). unfold with_ in Hc.
  rewrite (bind_known _ _ (started start d td tks, Some i) w w) in Hc by (unfold get_timer; by rewrite Ho).
  cbn [fst snd] in Hc. unfold mbind at 1, sm_bind at 1, instant_now in Hc.
  destruct (os_now (os w)) as [o now] eqn:Hn.
  pose proof (is_expired_iff (started start d td tks) start now td eq_refl eq_refl Htd) as He.
  destruct (is_expired (started start d td tks) now) as [[]|] eqn:Hex; [done| |done].
  injection Hc as <- <-. split; [done|]. split; [done|]. cbn [snd].
  destruct (decide (start + d < N.max start now + td)%N) as [Hlt|]; [|lia]. by apply He in Hlt.
Qed.

(** The race in [timeout].  A task finds that its timer has not expired; before it
    registers its waker, other threads make any calls on other handles, polls included.
    Either the wheel has not passed the timer's slot, and the task waits for it as it
    should; or it has, more than one tick after the clock was tested, and the task is
    stranded: whatever follows on other handles, its waker stays registered
    and no slot of the wheel holds its timer, so that no poll ever wakes it. *)
Theorem timeout_race {A Os} `{!MioNet A Os} (clock : Os → N) (w w1 w2 w3 : World Os) (fd : Handle)
    (start d td : N) (i i' k : nat) (tk : N)
    `{!OsOrder A Os (not_before clock) (reads clock) (never (token fd))} (cs : list (call A)) :
  on_time clock w → timer_set w fd start d td i tk →
  timeout_check fd w = (w1, Ok (Some i')) →
  Forall (other_call (apart (token fd) (data fd))) cs → w2 = run_calls cs w1 →
  timeout_register i' k fd w2 = (w3, Ok false) →
  ∃ p2, pollers w2 !! i = Some p2 ∧
    ((ticks (hashed_timewheel p2) ≤ tk)%N → waits (WTimer tk) i (token fd) k w3) ∧
    ((tk < ticks (hashed_timewheel p2))%N →
       ((os_now (os w)).2 + td < clock (os w2))%N ∧
       ∀ cs', Forall (other_call (apart (token fd) (data fd))) cs' →
         holds_only None i (token fd) k (run_calls cs' w3)).
Proof.
  intros Ht Hts Hc Hcs -> Hreg.
  destruct (timeout_check_known w w1 fd start d td i tk i' Hts Hc) as (->&->&Hexp).
  destruct Hts as [Hd _ Hi (p&now&Hp&Harm&Honly&Hnow&Htk) Htd]. set (w1 := set_os _ w) in *.
  assert (keeps_time clock w (run_calls cs w1)) as [_ Hw2 Hps].
  { trans w1.
    - apply keeps_time_quiet; [|done|done].
      apply (order_now (A:=A) (later:=not_before clock) (tells:=reads clock) (delivers:=never (token fd))).
    - apply (rel_calls (not_before clock) (reads clock) (never (token fd)) (λ _, True) (keeps_time clock)).
      eapply Forall_impl; [exact Hcs|]. intros [|h []|] _; by try split. }
  destruct (Hps i p Hi Hp) as (Hi2&p2&Hp2&_&_&S3&S4). specialize (Hw2 Ht i p2 Hp2). exists p2. split; [done|].
  assert (in_slot i (token fd) tk (run_calls cs w1)) as (_&q&Hq&Hslot).
  { apply (rel_calls (not_before clock) (reads clock) (never (token fd)) _ (keeps_slot i (token fd) tk) cs w1 Hcs).
    split; [done|]. exists p. auto. }
  rewrite Hp2 in Hq. injection Hq as <-.
  assert (holds_only (Some tk) i (token fd) k (run_calls cs w1)) as (_&q&Hq&Honly2&_).
  { apply (rel_calls (not_before clock) (reads clock) (never (token fd)) _
      (keeps_only (Some tk) i (token fd) k) cs w1 Hcs). split; [done|]. by exists p. }
  rewrite Hp2 in Hq. injection Hq as <-.
  unfold timeout_register, with_, mbind, sm_bind, add_waker_, on_poller in Hreg. rewrite Hp2 in Hreg.
  injection Hreg as <-. split.
  - intros Hle. split; [done|]. simpl. rewrite lookup_insert_eq. eexists. split; [done|].
    split; [apply lookup_insert_eq|]. destruct Hslot as [[H1 H2]|]; [by split|lia].
  - intros Hlt. split.
    + apply N.nle_gt. intros Hle. destruct Hw2 as (_&Hticks&_).
      assert (elapsed_ticks p2 (clock (os (run_calls cs w1))) ≤ tk)%N; [|lia].
      rewrite Htk. unfold elapsed_ticks, due_tick, as_micros. rewrite S3, S4.
      apply N.Div0.div_le_mono, N.Div0.div_le_mono. lia.
    + intros cs' Hcs'.
      apply (rel_calls (not_before clock) (reads clock) (never (token fd)) _
        (keeps_only None i (token fd) k) cs' _ Hcs').
      split; [done|]. simpl. rewrite lookup_insert_eq. eexists. split; [done|].
      split; [|intros _; apply lookup_insert_eq]. intros tk' Htk'. simpl in Htk'.
      destruct (Honly2 tk' Htk') as [[= ->] ?]. lia.
Qed.

(** ** Witnesses, on the system of [Wakeups.v] *)
Definition a_sleep : Sleep :=
  {| sleep_fd := None; expired := 5000000; sleep_poller := clock_poller |}.
Definition asleep : World N * Sleep := (Sleep_poll (A:=nat) clock_world a_sleep 9).1.

Lemma clock_on_time : on_time id clock_world.
Proof.
  intros i p. simpl. intros [_ <-]%lookup_singleton_Some. unfold wheel_ok. simpl.
  split_and!; [by vm_compute| |done]. apply N.le_0_l.
Qed.

Lemma sleep_lasts_witness :
  (Sleep_poll (A:=nat) clock_world a_sleep 9).2 = Pending ∧
  ∃ w3 ts, poll_once (A:=nat) 0 (Some 6000000%N) asleep.1 = (w3, Ok ()) ∧ woken w3 = ts ∧ 9 ∈ ts.
Proof.
  split; [by vm_compute|].
  destruct (sleep_lasts (A:=nat) id reports_one clock_world asleep.1 clock_poller 5000000 9 asleep.2)
    as (fd&i&start&td&_&Hi&_&Hcs).
  - apply clock_wf.
  - apply clock_on_time.
  - exists a_sleep. split; vm_compute; reflexivity.
  - assert (i = 0) as -> by (vm_compute in Hi; by injection Hi).
    destruct (Hcs []) as (p&ts&Hp&Htd&Hts&Hpoll&_); [constructor|].
    assert (td = 1000000%N) as -> by (vm_compute in Hp; injection Hp as <-; by vm_compute in Htd).
    destruct (Hpoll (Some 6000000%N) 11000000%N [{| ev_token := 1; is_readable := true; is_writable := false |}])
      as (w3&ts'&Hw3&Hts'&Hk).
    + vm_compute in Hp. injection Hp as <-. vm_compute. reflexivity.
    + by vm_compute.
    + exists w3, (ts ++ ts'). split; [exact Hw3|]. split; [|apply Hk; by vm_compute].
      rewrite Hts'. simpl run_calls. simpl in Hts. rewrite Hts.
      assert (woken asleep.1 = []) as -> by by vm_compute. done.
Defined.

(** The task tests the clock; the poller is polled for six milliseconds; the task
    registers its waker. *)
Definition sleep_handle : Handle :=
  {| token := 2; desc := Timeout; user_defined_desc := None; data := 2 |}.
Definition late_poll : list (call nat) := [CCntl clock_poller (CmdPollOnce (Some 6000000%N))].
Definition after_poll : World N := run_calls late_poll (timeout_check sleep_handle asleep.1).1.
Definition stranded : World N := (timeout_register 0 9 sleep_handle after_poll).1.

#[local] Instance ClockOs_never : OsOrder nat N (not_before id) (reads id) (never 2).
Proof.
  destruct ClockOs_order. split; try done. intros n d o o' es Hp. red. by rewrite (order_events _ _ _ _ _ Hp).
Qed.

Lemma asleep_timer_set : timer_set asleep.1 sleep_handle 5000000 5000000 1000000 0 10.
Proof.
  assert (asleep.2 = Sleep_set_fd a_sleep sleep_handle) as Hsl by (vm_compute; reflexivity).
  destruct (sleep_first_poll (A:=nat) clock_world clock_poller 5000000 9 asleep.1 asleep.2)
    as (fd&i&start&td&now&Hfd&_&Hst); [vm_compute; reflexivity|].
  rewrite Hsl in Hfd. injection Hfd as <-.
  pose proof Hst as (p&o1&o2&_&_&_&_&_&[= <- <-]&[= <- <-]&_&Hi&Hp&Htd&_).
  assert (i = 0) as -> by (vm_compute in Hi; by injection Hi). injection Hp as <-. simpl in Htd. subst td.
  apply (sleep_sets_timer (A:=nat) id reports_one) with (p := MioPoller_new 0 1000000 0) in Hst.
  - exact Hst.
  - exact (wf_pollers _ clock_wf).
  - apply clock_on_time.
  - done.
  - by vm_compute.
  - by intros tk ?%elem_of_nil.
Qed.

Lemma timeout_race_witness :
  holds_only None 0 2 9 (run_calls [COpen (A:=nat) Timeout (FlagsDuration 5)] stranded).
Proof.
  destruct (timeout_race (A:=nat) id asleep.1 (timeout_check sleep_handle asleep.1).1 after_poll stranded
    sleep_handle 5000000 5000000 1000000 0 0 9 10 late_poll) as (p2&Hp2&_&H).
  - pose proof (rel_sleep_poll (A:=nat) (not_before id) (reads id) reports_one (λ _, True) (keeps_time id)
      a_sleep 9 clock_world (λ _, I)) as [_ Hw _]. exact (Hw clock_on_time).
  - apply asleep_timer_set.
  - vm_compute. reflexivity.
  - by repeat constructor.
  - reflexivity.
  - vm_compute. reflexivity.
  - apply H; [|by repeat constructor]. vm_compute in Hp2. injection Hp2 as <-. by vm_compute.
Defined.
