(* ===== verification/IoContext.v ===== *)
(** * crates/io/src/context.rs: the io context over the mio driver

    [MioContext] owns a poller and a thread that polls it until a flag is set.  The
    thread's two steps (it loads the flag, it polls) interleave with the calls of
    the tasks and with the drop of the context, which sets the flag and joins the
    thread. *)

From S2P Require Import Prelude IoDriver Timewheel Sockets Mio Calls Wakeups.

Section context.
Context {A Os : Type} `{!MioNet A Os}.

(** The thread: at the test of the flag, at the poll, returned, or unwound by [unwrap]. *)
Inductive thread := AtFlag | AtPoll | Returned | Unwound.
(** The owner of the context: not dropped, in [join], dropped; [Some false] is the panic of
    [join().unwrap()]. *)
Inductive owner := Holds | Joins | Dropped (ok : bool).

Record MioContext := {
  world : World Os;
  ctx_poller : Handle;
  flag : bool;
  join_handle : thread;
  context_owner : owner;
}.

(** [MioContext::new]: the thread is spawned at its loop. *)
Definition MioContext_new (w : World Os) : World Os * res ErrorKind MioContext :=
  match fd_open w Poller (FlagsNone (A:=A)) with
  | (w, Ok poller) =>
      (w, Ok {| world := w; ctx_poller := poller; flag := false; join_handle := AtFlag;
                context_owner := Holds |})
  | (w, Err e) => (w, Err e)
  | (w, Panic) => (w, Panic)
  end.

Inductive move :=
| Turn
| Call (c : call A)
| Drop
| Join.

(** One step of the thread. *)
Definition thread_step (s : MioContext) : option MioContext :=
  match join_handle s with
  | AtFlag =>
      Some {| world := world s; ctx_poller := ctx_poller s; flag := flag s;
              join_handle := if flag s then Returned else AtPoll;
              context_owner := context_owner s |}
  | AtPoll =>
      let '(w, _, r) := fd_cntl (world s) (ctx_poller s) (CmdPollOnce (A:=A) None) in
      Some {| world := w; ctx_poller := ctx_poller s; flag := flag s;
              join_handle := match r with Ok _ => AtFlag | _ => Unwound end;
              context_owner := context_owner s |}
  | Returned | Unwound => None
  end.

(** A step of the system; [None] if it is not enabled. *)
Definition apply_move (m : move) (s : MioContext) : option MioContext :=
  match m with
  | Turn => thread_step s
  | Call c =>
      Some {| world := run_call c (world s); ctx_poller := ctx_poller s; flag := flag s;
              join_handle := join_handle s; context_owner := context_owner s |}
  | Drop =>
      match context_owner s with
      | Holds =>
          Some {| world := world s; ctx_poller := ctx_poller s; flag := true;
                  join_handle := join_handle s; context_owner := Joins |}
      | _ => None
      end
  | Join =>
      match context_owner s, join_handle s with
      | Joins, Returned =>
          Some {| world := world s; ctx_poller := ctx_poller s; flag := flag s;
                  join_handle := Returned; context_owner := Dropped true |}
      | Joins, Unwound =>
          Some {| world := world s; ctx_poller := ctx_poller s; flag := flag s;
                  join_handle := Unwound; context_owner := Dropped false |}
      | _, _ => None
      end
  end.

Definition run (ms : list move) (s : MioContext) : option MioContext :=
  foldl (λ s m, s ≫= apply_move m) (Some s) ms.

Implicit Types (s : MioContext) (ms : list move).

Lemma run_cons m ms s : run (m :: ms) s = apply_move m s ≫= run ms.
Proof.
  unfold run. simpl. destruct (apply_move m s) as [s'|]; simpl; [done|].
  by induction ms.
Qed.

(** *** The runs as calls of the driver *)

(** The calls that a run makes, the polls of the thread among them. *)
Fixpoint calls_of (ms : list move) (s : MioContext) : list (call A) :=
  match ms with
  | [] => []
  | m :: ms =>
      (match m, join_handle s with
       | Turn, AtPoll => [CCntl (ctx_poller s) (CmdPollOnce None)]
       | Call c, _ => [c]
       | _, _ => []
       end) ++ match apply_move m s with Some s => calls_of ms s | None => [] end
  end.

Lemma apply_move_poller m s s' : apply_move m s = Some s' → ctx_poller s' = ctx_poller s.
Proof.
  destruct m; simpl; unfold thread_step.
  - destruct (join_handle s); try done; [by intros [= <-]|].
    by destruct (fd_cntl (world s) (ctx_poller s) _) as [[w buf] r]; intros [= <-].
  - by intros [= <-].
  - by destruct (context_owner s); intros [=]; subst.
  - by destruct (context_owner s), (join_handle s); intros [=]; subst.
Qed.

Lemma run_calls_of ms s s' :
  run ms s = Some s' → world s' = run_calls (calls_of ms s) (world s).
Proof.
  revert s. induction ms as [|m ms IH]; intros s; [by intros [= <-]|].
  rewrite run_cons. cbn [calls_of]. destruct (apply_move m s) as [s1|] eqn:Hm; [|done].
  intros Hr. simpl in Hr. unfold run_calls. rewrite foldl_app. fold (run_calls (calls_of ms s1)).
  rewrite (IH s1 Hr). f_equal. destruct m; simpl in *.
  - unfold thread_step in Hm. destruct (join_handle s); try done; [by injection Hm as <-|].
    simpl in *. by destruct (expecting (world s) (ctx_poller s) _ _) as [[w buf] r]; injection Hm as <-.
  - by injection Hm as <-.
  - by destruct (context_owner s); simplify_eq.
  - by destruct (context_owner s), (join_handle s); simplify_eq.
Qed.

(** The calls of the tasks in a run. *)
Definition tasks_calls (ms : list move) : list (call A) :=
  omap (λ m, match m with Call c => Some c | _ => None end) ms.

Lemma calls_of_other (other : Handle → Prop) ms s :
  other (ctx_poller s) → Forall (other_call other) (tasks_calls ms) →
  Forall (other_call other) (calls_of ms s).
Proof.
  intros Ho. revert s Ho. induction ms as [|m ms IH]; intros s Ho Hcs; [constructor|]. cbn [calls_of].
  apply Forall_app. split.
  - destruct m; try constructor; [by destruct (join_handle s); repeat constructor|by inversion Hcs|done].
  - destruct (apply_move m s) as [s'|] eqn:Hm; [|constructor]. apply IH.
    + by rewrite (apply_move_poller m s s' Hm).
    + destruct m; try done. by inversion Hcs.
Qed.
End context.

(** ** The end of the thread *)
Section ends.
Context {A Os : Type} `{!MioNet A Os}.
Implicit Types (s : MioContext (Os:=Os)) (ms : list (move (A:=A))).

(** The steps that the thread has left once the flag is set. *)
Definition steps_left (j : thread) : nat :=
  match j with AtPoll => 2 | AtFlag => 1 | Returned | Unwound => 0 end.
#[export] Instance turn_dec (m : move (A:=A)) : Decision (m = Turn).
Proof. destruct m; [left; done|right; done..]. Defined.
Definition turns ms : nat := length (filter (λ m, m = Turn) ms).

Lemma apply_move_flag m s s' : apply_move m s = Some s' → flag s = true → flag s' = true.
Proof.
  destruct m; simpl; unfold thread_step.
  - destruct (join_handle s); try done; [by intros [= <-]|].
    by destruct (fd_cntl (world s) (ctx_poller s) _) as [[w buf] r]; intros [= <-].
  - by intros [= <-].
  - by destruct (context_owner s); intros [=]; subst.
  - by destruct (context_owner s), (join_handle s); intros [=]; subst.
Qed.

(** With the flag set every step of the thread brings it nearer to its end. *)
Lemma thread_step_left s s' :
  flag s = true → thread_step s = Some s' →
  steps_left (join_handle s') < steps_left (join_handle s).
Proof.
  unfold thread_step. intros ->. destruct (join_handle s); [by intros [= <-]; simpl; lia| |done..].
  destruct (fd_cntl _ _ _) as [[w buf] r]. intros [= <-]. simpl. destruct r; simpl; lia.
Qed.

Lemma other_move_thread m s s' :
  m ≠ Turn → apply_move m s = Some s' → join_handle s' = join_handle s.
Proof.
  destruct m; simpl; [done|by intros _ [= <-]|..]; intros _.
  - by destruct (context_owner s); intros [=]; subst.
  - destruct (context_owner s); try done. by destruct (join_handle s); intros [=]; subst.
Qed.

Lemma run_left ms s s' :
  flag s = true → run ms s = Some s' →
  turns ms + steps_left (join_handle s') ≤ steps_left (join_handle s).
Proof.
  revert s. induction ms as [|m ms IH]; intros s Hf; [by intros [= <-]|].
  rewrite run_cons. destruct (apply_move m s) as [s1|] eqn:Hm; [|done]. simpl. intros Hr.
  pose proof (IH s1 (apply_move_flag m s s1 Hm Hf) Hr) as Hle. unfold turns in *.
  rewrite filter_cons. case_decide as Ht.
  - subst. apply (thread_step_left s s1 Hf) in Hm. simpl. lia.
  - by rewrite <-(other_move_thread m s s1 Ht Hm).
Qed.

(** A thread that unwound takes no step, and [join] gives its panic. *)
Lemma run_unwound ms s s' :
  join_handle s = Unwound → (∀ ok, context_owner s = Dropped ok → ok = false) → run ms s = Some s' →
  join_handle s' = Unwound ∧ Turn ∉ ms ∧ (∀ ok, context_owner s' = Dropped ok → ok = false).
Proof.
  revert s. induction ms as [|m ms IH]; intros s Hj Ho.
  { intros [= <-]. split_and!; [done|by intros ?%elem_of_nil|done]. }
  rewrite run_cons. destruct (apply_move m s) as [s1|] eqn:Hm; [|done]. simpl. intros Hr.
  assert (m ≠ Turn) as Hne by (intros ->; simpl in Hm; unfold thread_step in Hm; by rewrite Hj in Hm).
  assert (∀ ok, context_owner s1 = Dropped ok → ok = false) as Ho1.
  { destruct m; simpl in Hm; [done|by injection Hm as <-|..].
    - by destruct (context_owner s); simplify_eq.
    - destruct (context_owner s); [done| |done]. rewrite Hj in Hm. injection Hm as <-. simpl. by intros ok [= <-]. }
  destruct (IH s1) as (H1&H2&H3); [|done|done|].
  { by rewrite (other_move_thread m s s1 Hne Hm). }
  split_and!; [done| |done]. intros [?|?]%elem_of_cons; by subst.
Qed.

(** The thread's poll, when its poller leads to poller [i]. *)
Lemma thread_poll s i :
  join_handle s = AtPoll → desc (ctx_poller s) = Poller →
  heap (world s) !! data (ctx_poller s) = Some (OPoller i) →
  ∃ s', thread_step s = Some s' ∧
    match poll_once i None (world s) with
    | (w, Ok _) => world s' = w ∧ join_handle s' = AtFlag
    | (w, Err _) => world s' = w ∧ join_handle s' = Unwound
    | (w, Panic) => join_handle s' = Unwound
    end.
Proof.
  intros Hj Hd Ho. unfold thread_step. rewrite Hj. simpl fd_cntl.
  rewrite expecting_eq, decide_True by done. simpl. unfold poller_poll_once_.
  rewrite (bind_known _ _ () (world s) (world s)) by (by apply expect_known). unfold with_.
  rewrite (bind_known _ _ i (world s) (world s)) by (unfold get_poller; by rewrite Ho).
  destruct (poll_once i None (world s)) as [w [[]|e|]]; simpl; eexists; split; reflexivity || done.
Qed.
End ends.

(** ** Properties *)

(** C22. The context wakes the tasks that wait for its sockets.  When a task's poll of a
    socket's future answered [Pending] and the system runs on (the tasks call on
    other handles, the thread polls, the context may be dropped), then at any point the
    task has been woken or is still registered; and if the thread is then at its poll
    of the socket's poller, and mio reports the socket, the thread's next step
    wakes the task and goes on. *)
Theorem context_wakes {A Os} `{!MioNet A Os} (w0 : World Os) (fd : Handle) (k : nat)
    (wk : wait_kind) (s s' : MioContext (Os:=Os)) (ms : list (move (A:=A))) :
  wf w0 → in_use w0 fd → blocked fd k wk w0 (world s) → run ms s = Some s' →
  apart (token fd) (data fd) (ctx_poller s) →
  Forall (other_call (apart (token fd) (data fd))) (tasks_calls ms) →
  ∃ sock i ts,
    heap (world s') !! data fd = Some (OSocket (desc fd) sock (Some i)) ∧
    woken (world s') = woken (world s) ++ ts ∧
    (k ∈ ts ∨
     waits wk i (token fd) k (world s') ∧
     ∀ p o events,
       join_handle s' = AtPoll → desc (ctx_poller s') = Poller →
       heap (world s') !! data (ctx_poller s') = Some (OPoller i) →
       pollers (world s') !! i = Some p →
       mio_poll (os (world s')) (mio_id p) (tick p) = (o, Ok events) →
       wheel_panics p (os_now o).2 = false → reports wk (token fd) p (os_now o).2 events →
       ∃ s'' ts', apply_move (A:=A) Turn s' = Some s'' ∧ join_handle s'' = AtFlag ∧
         woken (world s'') = woken (world s') ++ ts' ∧ k ∈ ts').
Proof.
  intros Hwf Hu Hb Hr Hap Hcs.
  destruct (blocked_later w0 (world s) fd k wk (calls_of ms s) Hwf Hu Hb) as (sock&i&ts&Ho&Hts&Hk).
  { by apply calls_of_other. }
  rewrite <-(run_calls_of ms s s' Hr) in *. exists sock, i, ts. split_and!; [done|done|].
  destruct Hk as [?|[Hw Hk]]; [by left|right]. split; [done|].
  intros p o events Hj Hd Hi Hp Hm Hnp Hrep.
  destruct (thread_poll s' i Hj Hd Hi) as (s''&Hs&Hpoll).
  assert (∃ w3, poll_once i None (world s') = (w3, Ok ())) as [w3 Hw3].
  { rewrite poll_once_eq, Hp. cbn [default]. rewrite Hm. destruct (os_now o). simpl in Hnp. rewrite Hnp. eauto. }
  destruct (Hk None w3 p o events Hp Hm Hw3) as (ts'&Hts'&Hin&_). rewrite Hw3 in Hpoll.
  destruct Hpoll as [Hw'' Hj']. exists s'', ts'. rewrite Hw''. split_and!; [exact Hs|done|done|by apply Hin].
Qed.

(** Dropping the context ends its thread.  Once the flag is set, in any run the thread
    takes at most two more steps (one load, one poll); as long as it has not ended it
    can step, and as soon as it has ended [join] returns, with a panic exactly
    when the thread was unwound. *)
Theorem drop_ends_the_thread {A Os} `{!MioNet A Os} (s s' : MioContext (Os:=Os))
    (ms : list (move (A:=A))) :
  context_owner s = Joins → flag s = true → run ms s = Some s' →
  turns ms + steps_left (join_handle s') ≤ 2 ∧
  (0 < steps_left (join_handle s') → ∃ s'', apply_move (A:=A) Turn s' = Some s'') ∧
  (context_owner s' = Joins → steps_left (join_handle s') = 0 →
     ∃ s'', apply_move (A:=A) Join s' = Some s'' ∧
       context_owner s'' = Dropped (match join_handle s' with Unwound => false | _ => true end)).
Proof.
  intros Ho Hf Hr. pose proof (run_left ms s s' Hf Hr) as Hle. split_and!.
  - destruct (join_handle s); simpl in *; lia.
  - intros Hl. simpl. unfold thread_step. destruct (join_handle s'); [eauto| |simpl in Hl; lia..].
    destruct (fd_cntl _ _ _) as [[w buf] r]. eauto.
  - intros Hj Hl. simpl. rewrite Hj. destruct (join_handle s'); simpl in *; eauto; lia.
Qed.

(** A code bug: the first error of a poll ends the thread of the context.  [mio]
    answers a poll with [Interrupted] when a signal arrives, and the thread unwraps the
    answer: from then on, whatever the tasks do, the thread takes no step, so the
    poller is never polled again by the context, and dropping the context panics. *)
Theorem poll_error_ends_the_thread {A Os} `{!MioNet A Os} (s : MioContext (Os:=Os)) (i : nat)
    (p : MioPoller) (o : Os) (e : ErrorKind) :
  join_handle s = AtPoll → context_owner s = Holds → desc (ctx_poller s) = Poller →
  heap (world s) !! data (ctx_poller s) = Some (OPoller i) → pollers (world s) !! i = Some p →
  mio_poll (os (world s)) (mio_id p) (tick p) = (o, Err e) →
  ∃ s1, apply_move (A:=A) Turn s = Some s1 ∧
    ∀ ms s2, run (A:=A) ms s1 = Some s2 →
      join_handle s2 = Unwound ∧ Turn ∉ ms ∧ ∀ ok, context_owner s2 = Dropped ok → ok = false.
Proof.
  intros Hj Ho Hd Hi Hp Hm. destruct (thread_poll s i Hj Hd Hi) as (s1&Hs&Hpoll). exists s1. split; [exact Hs|].
  rewrite poll_once_eq, Hp in Hpoll. cbn [default] in Hpoll. rewrite Hm in Hpoll. destruct Hpoll as [_ Hj1].
  intros ms s2. apply run_unwound; [done|]. intros ok Hok. exfalso.
  unfold thread_step in Hs. rewrite Hj in Hs. destruct (fd_cntl _ _ _) as [[w buf] r].
  injection Hs as <-. simpl in Hok. by rewrite Ho in Hok.
Qed.

(** ** Witnesses, on the system of [Wakeups.v] *)
Definition a_context (w : World N) (j : thread) (f : bool) (c : owner) : MioContext :=
  {| world := w; ctx_poller := clock_poller; flag := f; join_handle := j; context_owner := c |}.

(** Task 7 reads the stream, and the thread reaches its poll while a timeout is opened. *)
Definition moves : list (move (A:=nat)) := [Turn; Call (COpen Timeout (FlagsDuration 5))].

Definition later_context : MioContext :=
  default (a_context blocked_world AtFlag false Holds)
    (run moves (a_context blocked_world AtFlag false Holds)).

Lemma context_wakes_witness :
  run moves (a_context blocked_world AtFlag false Holds) = Some later_context ∧
  ∃ s'' ts', apply_move (A:=nat) Turn later_context = Some s'' ∧
    woken (world s'') = woken (world later_context) ++ ts' ∧ 7 ∈ ts'.
Proof.
  split; [vm_compute; reflexivity|].
  destruct (context_wakes (A:=nat) clock_world demo_stream 7 WRead
    (a_context blocked_world AtFlag false Holds) later_context moves) as (sock&i&ts&Ho&Hts&Hk).
  - apply clock_wf.
  - exists (OSocket TcpStream 4 (Some 0)). split; [done|]. split; [done|eauto].
  - apply (blocked_read _ _ _ _ 8 []). vm_compute. reflexivity.
  - vm_compute. reflexivity.
  - done.
  - by repeat constructor.
  - assert (i = 0) as -> by (vm_compute in Ho; by injection Ho).
    destruct Hk as [Hk|[(_&p&Hp&_) Hw]].
    + vm_compute in Hts. destruct ts; [by apply elem_of_nil in Hk|done].
    + destruct (Hw p 6000000%N [{| ev_token := 1; is_readable := true; is_writable := false |}])
        as (s''&ts'&Hs&_&Hts'&Hin).
      * vm_compute. reflexivity.
      * vm_compute. reflexivity.
      * vm_compute. reflexivity.
      * exact Hp.
      * vm_compute in Hp. injection Hp as <-. vm_compute. reflexivity.
      * vm_compute in Hp. injection Hp as <-. vm_compute. reflexivity.
      * vm_compute. reflexivity.
      * exists s'', ts'. split; [exact Hs|]. split; [exact Hts'|exact Hin].
Defined.

Lemma drop_ends_the_thread_witness :
  ∃ s', run (A:=nat) [Turn; Turn] (a_context clock_world AtPoll true Joins) = Some s' ∧
    turns (A:=nat) [Turn; Turn] + steps_left (join_handle s') ≤ 2.
Proof.
  destruct (run (A:=nat) [Turn; Turn] (a_context clock_world AtPoll true Joins)) as [s'|] eqn:Hr;
    [|by vm_compute in Hr].
  exists s'. split; [done|].
  exact (proj1 (drop_ends_the_thread (A:=nat) (a_context clock_world AtPoll true Joins) s' [Turn; Turn]
    eq_refl eq_refl Hr)).
Defined.

(** A context whose [mio::Poll] is the one that signals interrupt. *)
Definition signal_world : World N :=
  {| os := 0%N; heap := {[0 := OPoller 0]}; next_ptr := 1; next_token := 1;
     pollers := {[0 := MioPoller_new 1 1000000 0]}; next_poller := 1; woken := [] |}.

Lemma poll_error_ends_the_thread_witness :
  ∃ s1, apply_move (A:=nat) Turn (a_context signal_world AtPoll false Holds) = Some s1 ∧
    ∀ s2, run (A:=nat) [Drop; Join] s1 = Some s2 → context_owner s2 = Dropped true → False.
Proof.
  destruct (poll_error_ends_the_thread (A:=nat) (a_context signal_world AtPoll false Holds) 0
    (MioPoller_new 1 1000000 0) 0%N Interrupted) as (s1&Hs&Hms);
    [done|done|done|done|done|by vm_compute|].
  exists s1. split; [exact Hs|]. intros s2 Hr Hd. destruct (Hms _ _ Hr) as (_&_&H).
  by specialize (H true Hd).
Defined.
