(* ===== verification/Globals.v ===== *)
(** * The global registrations: io context, spawner, profiling log; [PollOnce]

    crates/io/src/context.rs, crates/future/src/executor.rs and
    crates/pprof/src/prolog/profiling.rs each keep one [OnceLock]: the first
    registration, or the first use that makes a default, is final.  An access of a
    [OnceLock] is atomic (the standard library runs one initialiser at a time). *)

From S2P Require Import Prelude IoDriver Timewheel Mio Calls Wakeups IoContext.

(** ** [std::sync::OnceLock], in a state [St] *)
Section once.
Context {T St : Type} (lock : St → option T) (set_lock : option T → St → St).

(** [set]: the value is given back if the lock is not empty. *)
Definition once_set (v : T) : sm St T () := λ s,
  match lock s with
  | None => (set_lock (Some v) s, Ok ())
  | Some _ => (s, Err v)
  end.

(** [get_or_init]: an initialiser that fails leaves the lock empty. *)
Definition get_or_init {E} (init : sm St E T) : sm St E T := λ s,
  match lock s with
  | Some v => (s, Ok v)
  | None =>
      match init s with
      | (s, Ok v) => (set_lock (Some v) s, Ok v)
      | (s, Err e) => (s, Err e)
      | (s, Panic) => (s, Panic)
      end
  end.

(** [if REGISTER.set(..).is_err() { panic!(..) }]. *)
Definition set_or_panic {E} (v : T) : sm St E () := λ s,
  match once_set v s with (s, Ok _) => (s, Ok ()) | (s, _) => (s, Panic) end.

(** The laws of the field. *)
Class LockLaws : Prop := {
  lock_get v s : lock (set_lock v s) = v;
}.
Context `{!LockLaws}.

(** What holds a value keeps it. *)
Definition keeps_lock (s s' : St) : Prop := ∀ v, lock s = Some v → lock s' = Some v.

#[export] Instance keeps_lock_preorder : PreOrder keeps_lock.
Proof. split; [by intros s v|]. intros s1 s2 s3 H1 H2 v Hv. by apply H2, H1. Qed.

Lemma set_or_panic_keeps {E} v : sm_rel keeps_lock (set_or_panic v : sm St E ()).
Proof. intros s x Hx. unfold set_or_panic, once_set. by rewrite Hx. Qed.

Lemma get_or_init_keeps {E} (init : sm St E T) : sm_rel keeps_lock (get_or_init init).
Proof. intros s x Hx. unfold get_or_init. by rewrite Hx. Qed.

Lemma set_or_panic_full {E} v x s : lock s = Some x → (set_or_panic v : sm St E ()) s = (s, Panic).
Proof. intros Hx. unfold set_or_panic, once_set. by rewrite Hx. Qed.

Lemma set_or_panic_empty {E} v s :
  lock s = None → ∃ s', (set_or_panic v : sm St E ()) s = (s', Ok ()) ∧ lock s' = Some v.
Proof.
  intros Hx. unfold set_or_panic, once_set. rewrite Hx. eexists. split; [done|]. by rewrite lock_get.
Qed.

Lemma get_or_init_full {E} (init : sm St E T) x s : lock s = Some x → get_or_init init s = (s, Ok x).
Proof. intros Hx. unfold get_or_init. by rewrite Hx. Qed.

Lemma get_or_init_ok {E} (init : sm St E T) s s' v : get_or_init init s = (s', Ok v) → lock s' = Some v.
Proof.
  unfold get_or_init. destruct (lock s) as [x|] eqn:Hx; [by intros [= <- <-]|].
  destruct (init s) as [s1 [y|e|]]; intros [= <- <-]. by rewrite lock_get.
Qed.
End once.

(** ** context.rs: the global io context *)
Section io.
Context {A Os C : Type} `{!MioNet A Os}.

(** [IoContext]: what the program registered, or the default one. *)
Inductive IoContext := Registered (c : C) | Default (c : MioContext (Os:=Os)).

Record io_globals := { IO_REGISTER : option IoContext; io_world : World Os }.
Definition set_io (v : option IoContext) (g : io_globals) : io_globals :=
  {| IO_REGISTER := v; io_world := io_world g |}.

#[export] Instance io_lock : LockLaws IO_REGISTER set_io.
Proof. by split. Qed.

Definition register_io_context (c : C) : sm io_globals ErrorKind () :=
  set_or_panic IO_REGISTER set_io (Registered c).

(** [MioContext::new().unwrap()]. *)
Definition default_context : sm io_globals ErrorKind IoContext := λ g,
  match MioContext_new (A:=A) (io_world g) with
  | (w, Ok c) => ({| IO_REGISTER := IO_REGISTER g; io_world := w |}, Ok (Default c))
  | (w, _) => ({| IO_REGISTER := IO_REGISTER g; io_world := w |}, Panic)
  end.

Definition io_context : sm io_globals ErrorKind IoContext :=
  get_or_init IO_REGISTER set_io default_context.
End io.
Arguments IoContext : clear implicits.
Arguments io_globals : clear implicits.

(** ** executor.rs: the global spawner *)
Section executor.
Context {S Task : Type}.

(** The registered spawner, or the thread pool of the futures crate. *)
Inductive FutureSpawner := Spawner (s : S) | ThreadPool.

(** The tasks given to the spawner, and the answers of its [spawn_boxed_future] and of
    [ThreadPool::builder().create()] to come. *)
Record exec_globals := {
  SPAWNER : option FutureSpawner;
  spawned : list (FutureSpawner * Task);
  accepts : FutureSpawner → Task → bool;
  pool_creates : bool;
}.
Definition set_spawner (v : option FutureSpawner) (g : exec_globals) : exec_globals :=
  {| SPAWNER := v; spawned := spawned g; accepts := accepts g; pool_creates := pool_creates g |}.

#[export] Instance exec_lock : LockLaws SPAWNER set_spawner.
Proof. by split. Qed.

Definition register_spawner (s : S) : sm exec_globals ErrorKind () :=
  set_or_panic SPAWNER set_spawner (Spawner s).

(** A spawner that fails panics. *)
Definition spawn_boxed_future (s : FutureSpawner) (fut : Task) : sm exec_globals ErrorKind () := λ g,
  if accepts g s fut then
    ({| SPAWNER := SPAWNER g; spawned := spawned g ++ [(s, fut)]; accepts := accepts g;
        pool_creates := pool_creates g |}, Ok ())
  else (g, Panic).

Definition future_spawn (fut : Task) : sm exec_globals ErrorKind () :=
  spawner ← get_or_init SPAWNER set_spawner (λ g, (g, if pool_creates g then Ok ThreadPool else Panic));
  spawn_boxed_future spawner fut.

(** [block_on]: [outcome] is what the spawned future sends before its sender is dropped:
    nothing if it is dropped or unwound. *)
Definition block_on {R} (fut : Task) (outcome : exec_globals → option R) : sm exec_globals ErrorKind R :=
  future_spawn fut;;
  r ← gets outcome;
  lift (unwrap r).
End executor.
Arguments FutureSpawner : clear implicits.
Arguments exec_globals : clear implicits.

(** poll.rs: [PollOnce], a future that polls another one once. *)
Definition PollOnce_poll {F R} (poll : F → F * Poll R) (fut : F) : F * Poll (Poll R) :=
  let '(fut, r) := poll fut in (fut, Ready r).

(** ** prolog/profiling.rs: the global profiling log *)
Section prolog.
Context {P Target Args : Type} (filter : P → Target → bool).

Record log_globals := { PROFILING_LOG : option P; profiled : list (P * Target * Args) }.
Definition set_log (v : option P) (g : log_globals) : log_globals :=
  {| PROFILING_LOG := v; profiled := profiled g |}.

#[export] Instance log_lock : LockLaws PROFILING_LOG set_log.
Proof. by split. Qed.

Definition set_prolog (log : P) : sm log_globals ErrorKind () :=
  set_or_panic PROFILING_LOG set_log log.

Definition prolog_filter (target : Target) (g : log_globals) : bool :=
  match PROFILING_LOG g with Some log => filter log target | None => false end.

Definition prolog_write (target : Target) (args : Args) (g : log_globals) : log_globals :=
  match PROFILING_LOG g with
  | Some log =>
      {| PROFILING_LOG := PROFILING_LOG g; profiled := profiled g ++ [(log, target, args)] |}
  | None => g
  end.
End prolog.
Arguments log_globals : clear implicits.

(** ** Histories of the three globals

    Threads register and use them in any order; a panic unwinds its own thread only. *)
Section histories.
Context {A Os C S Task P Target Args : Type} `{!MioNet A Os}.

Inductive io_op := IoRegister (c : C) | IoUse.

(** The contexts handed out. *)
Fixpoint io_run (ops : list io_op) (g : io_globals Os C) : io_globals Os C * list (IoContext Os C) :=
  match ops with
  | [] => (g, [])
  | IoRegister c :: ops => io_run ops (register_io_context c g).1
  | IoUse :: ops =>
      let '(g, r) := io_context (A:=A) g in
      let '(g, xs) := io_run ops g in
      (g, match r with Ok x => x :: xs | _ => xs end)
  end.

Lemma io_run_full ops g x :
  IO_REGISTER g = Some x → IO_REGISTER (io_run ops g).1 = Some x ∧ Forall (eq x) (io_run ops g).2.
Proof.
  revert g. induction ops as [|[c|] ops IH]; intros g Hx; simpl; [done| |].
  - apply IH. unfold register_io_context. by rewrite (set_or_panic_full _ _ _ _ _ Hx).
  - unfold io_context. rewrite (get_or_init_full _ _ _ _ _ Hx). specialize (IH g Hx).
    destruct (io_run ops g). simpl in *. destruct IH. split; [done|by constructor].
Qed.

Lemma io_run_one ops g :
  ∀ x, x ∈ (io_run ops g).2 → IO_REGISTER (io_run ops g).1 = Some x.
Proof.
  revert g. induction ops as [|[c|] ops IH]; intros g x; simpl; [by intros ?%elem_of_nil|by apply IH|].
  destruct (io_context g) as [g1 r] eqn:Hu. destruct (io_run ops g1) as [g2 xs] eqn:Hr. simpl.
  specialize (IH g1). rewrite Hr in IH. simpl in IH. destruct r as [y|e|]; simpl; [|by apply IH..].
  apply (get_or_init_ok _ _) in Hu. pose proof (io_run_full ops g1 y Hu) as [Hy _]. rewrite Hr in Hy.
  intros [-> |?]%elem_of_cons; [done|by apply IH].
Qed.

Inductive exec_op := ExRegister (s : S) | ExSpawn (fut : Task).

Definition exec_op_run (g : exec_globals S Task) (o : exec_op) : exec_globals S Task :=
  match o with
  | ExRegister s => (register_spawner s g).1
  | ExSpawn fut => (future_spawn fut g).1
  end.

(** Every task was given to the one spawner. *)
Definition one_spawner (g : exec_globals S Task) : Prop :=
  Forall (λ x, SPAWNER g = Some x.1) (spawned g).

Lemma one_spawner_step g o : one_spawner g → one_spawner (exec_op_run g o).
Proof.
  unfold one_spawner. intros Hg. destruct o as [s|fut]; simpl.
  - unfold register_spawner, set_or_panic, once_set. destruct (SPAWNER g) as [x|] eqn:Hx; simpl; [by rewrite Hx|].
    by destruct (spawned g) as [|? ?]; [constructor|inversion Hg].
  - unfold future_spawn, get_or_init, mbind, sm_bind.
    destruct (SPAWNER g) as [x|] eqn:Hx.
    + unfold spawn_boxed_future. destruct (accepts g x fut); simpl; rewrite ?Hx; [|done].
      apply Forall_app. split; [done|by constructor].
    + assert (spawned g = []) as He by by destruct (spawned g) as [|? ?]; [|inversion Hg].
      destruct (pool_creates g); simpl; [|by rewrite He].
      unfold spawn_boxed_future. simpl. destruct (accepts g ThreadPool fut); simpl; rewrite He;
        simpl; by repeat constructor.
Qed.

Inductive log_op := LogSet (p : P) | LogWrite (target : Target) (args : Args).

Definition log_op_run (g : log_globals P Target Args) (o : log_op) : log_globals P Target Args :=
  match o with
  | LogSet p => (set_prolog p g).1
  | LogWrite target args => prolog_write target args g
  end.

Definition one_log (g : log_globals P Target Args) : Prop :=
  Forall (λ x, PROFILING_LOG g = Some x.1.1) (profiled g).

Lemma one_log_step g o : one_log g → one_log (log_op_run g o).
Proof.
  unfold one_log. intros Hg. destruct o as [p|target args]; simpl.
  - unfold set_prolog, set_or_panic, once_set. destruct (PROFILING_LOG g) as [x|] eqn:Hx; simpl; [by rewrite Hx|].
    by destruct (profiled g) as [|? ?]; [constructor|inversion Hg].
  - unfold prolog_write. destruct (PROFILING_LOG g) as [x|] eqn:Hx; simpl; [|by rewrite Hx].
    apply Forall_app. split; [done|by constructor].
Qed.
End histories.

(** The global registrations are made once.  In any history of registrations and uses, all
    io contexts handed out are one and the same, the one that stays registered; all
    tasks spawned were given to one spawner; all profiling records went to one
    log.  Once a global is set every registration panics and changes nothing. *)
Theorem registered_once {A Os C S Task P Target Args} `{!MioNet A Os}
    (g : io_globals Os C) (ge : exec_globals S Task) (gl : log_globals P Target Args)
    (ops : list io_op) (eops : list exec_op) (lops : list log_op) :
  spawned ge = [] → profiled gl = [] →
  (∀ x y, x ∈ (io_run (A:=A) ops g).2 → y ∈ (io_run (A:=A) ops g).2 →
     x = y ∧ IO_REGISTER (io_run (A:=A) ops g).1 = Some x) ∧
  (let ge' := foldl exec_op_run ge eops in
   one_spawner ge' ∧ (∀ s, is_Some (SPAWNER ge') → register_spawner s ge' = (ge', Panic))) ∧
  (let gl' := foldl log_op_run gl lops in
   one_log gl' ∧ (∀ p, is_Some (PROFILING_LOG gl') → set_prolog p gl' = (gl', Panic))) ∧
  (∀ g' (c : C), is_Some (IO_REGISTER (Os:=Os) g') → register_io_context c g' = (g', Panic)).
Proof.
  intros He Hl. split_and!.
  - intros x y Hx%io_run_one Hy%io_run_one. split; congruence.
  - intros ge'. split.
    + subst ge'. assert (one_spawner ge) as Hg by (unfold one_spawner; by rewrite He). clear He.
      revert ge Hg. induction eops as [|o eops IH]; intros ge Hg; [done|]. simpl. by apply IH, one_spawner_step.
    + intros s [x Hx]. by apply set_or_panic_full with x.
  - intros gl'. split.
    + subst gl'. assert (one_log gl) as Hg by (unfold one_log; by rewrite Hl). clear Hl.
      revert gl Hg. induction lops as [|o lops IH]; intros gl Hg; [done|]. simpl. by apply IH, one_log_step.
    + intros p [x Hx]. by apply set_or_panic_full with x.
  - intros g' c [x Hx]. by apply set_or_panic_full with x.
Qed.

(** Witness: the context is used before one is registered, on the system of [Wakeups.v]. *)
Definition no_globals : io_globals N nat :=
  {| IO_REGISTER := None;
     io_world := {| os := 0%N; heap := ∅; next_ptr := 0; next_token := 0; pollers := ∅;
                    next_poller := 0; woken := [] |} |}.
Definition no_spawner : exec_globals nat nat :=
  {| SPAWNER := None; spawned := []; accepts := λ _ _, true; pool_creates := true |}.
Definition no_log : log_globals nat nat nat := {| PROFILING_LOG := None; profiled := [] |}.

Lemma registered_once_witness :
  ∃ x, (io_run (A:=nat) [IoUse; IoRegister 3; IoUse] no_globals).2 = [x; x] ∧
    IO_REGISTER (io_run (A:=nat) [IoUse; IoRegister 3; IoUse] no_globals).1 = Some x ∧
    one_spawner (foldl exec_op_run no_spawner [ExSpawn 5; ExRegister 1; ExSpawn 6]).
Proof.
  destruct (registered_once (A:=nat) no_globals no_spawner no_log
    [IoUse; IoRegister 3; IoUse] [ExSpawn 5; ExRegister 1; ExSpawn 6] []) as (Hio&Hex&_&_);
    [reflexivity..|].
  exists (Default {| world := (MioContext_new (A:=nat) (io_world no_globals)).1;
    ctx_poller := {| token := 0; desc := Poller; user_defined_desc := None; data := 0 |};
    flag := false; join_handle := AtFlag; context_owner := Holds |}).
  split; [vm_compute; reflexivity|]. split; [|exact (proj1 Hex)].
  refine (proj2 (Hio _ _ _ _)); apply list_elem_of_In; vm_compute; by left.
Defined.
