(* ===== verification/QuicConfig.v ===== *)
(** * crates/net/quic/src/config.rs: the configuration of a QUIC peer

    [Config] adds two fields to the configuration of quiche (class [QuicheConfig]) and
    hands out the latter for reading and writing. *)

From S2P Require Import Prelude.

Local Open Scope N_scope.

(** [quiche::Config]; [None] is an error of [new]. *)
Class QuicheConfig (K : Type) := {
  quiche_config_new : option K;
  set_max_recv_udp_payload_size : N → K → K;
  set_max_send_udp_payload_size : N → K → K;
}.

(** The two sizes that quiche keeps; it may bound what it is given. *)
Class QuicheConfigLaws (K : Type) `{!QuicheConfig K} (max_recv max_send : K → N)
    (bound_recv bound_send : N → N) : Prop := {
  law_recv v k : max_recv (set_max_recv_udp_payload_size v k) = bound_recv v ∧
    max_send (set_max_recv_udp_payload_size v k) = max_send k;
  law_send_size v k : max_send (set_max_send_udp_payload_size v k) = bound_send v ∧
    max_recv (set_max_send_udp_payload_size v k) = max_recv k;
}.

Section config.
Context {K : Type} `{!QuicheConfig K}.

Record Config := {
  send_ping_interval : N;
  max_datagram_size : N;
  quiche_config : K;
}.

(** [Duration::from_secs(2)], in nanoseconds. *)
Definition Config_new : res ErrorKind Config :=
  let max_datagram_size := 1350 in
  quiche_config ← ok_or quiche_config_new Other;
  let quiche_config := set_max_recv_udp_payload_size max_datagram_size quiche_config in
  let quiche_config := set_max_send_udp_payload_size max_datagram_size quiche_config in
  Ok {| send_ping_interval := 2000000000; quiche_config := quiche_config;
        max_datagram_size := max_datagram_size |}.

(** [Deref] and [DerefMut]. *)
Definition Config_deref_mut (f : K → K) (self : Config) : Config :=
  {| send_ping_interval := send_ping_interval self; max_datagram_size := max_datagram_size self;
     quiche_config := f (quiche_config self) |}.

Definition set_max_datagram_size (v : N) (self : Config) : Config :=
  let self := {| send_ping_interval := send_ping_interval self; max_datagram_size := v;
                 quiche_config := quiche_config self |} in
  let self := Config_deref_mut (set_max_recv_udp_payload_size v) self in
  Config_deref_mut (set_max_send_udp_payload_size v) self.

Context (max_recv max_send : K → N) (bound_recv bound_send : N → N).
Context `{!QuicheConfigLaws K max_recv max_send bound_recv bound_send}.

(** The sizes of quiche are those of the datagram size. *)
Definition sizes_agree (c : Config) : Prop :=
  max_recv (quiche_config c) = bound_recv (max_datagram_size c) ∧
  max_send (quiche_config c) = bound_send (max_datagram_size c).

Lemma config_sizes_agree :
  (∀ c, Config_new = Ok c → sizes_agree c) ∧ ∀ v c, sizes_agree (set_max_datagram_size v c).
Proof.
  assert (∀ v k, max_recv (set_max_send_udp_payload_size v (set_max_recv_udp_payload_size v k)) =
      bound_recv v ∧
    max_send (set_max_send_udp_payload_size v (set_max_recv_udp_payload_size v k)) = bound_send v) as H.
  { intros v k. destruct (law_send_size v (set_max_recv_udp_payload_size v k)) as [-> ->].
    by destruct (law_recv v k) as [-> _]. }
  split.
  - intros c. unfold Config_new. destruct quiche_config_new as [k|]; [|done]. intros [= <-]. apply H.
  - intros v c. apply H.
Qed.
End config.
