(* ===== verification/QuicConn.v ===== *)
(** * crates/net/quic/src/state/conn.rs, errors.rs: the state of a QUIC connection

    [Quiche] is the connection of the crate quiche.  A method of [QuicConnState] locks
    the state, runs without suspending up to a [return], a [continue], or a wait
    for an event, and gives the lock back; [step] says how such a segment ends.  The
    mediator is the event map of [EventMap.v]; a segment that ends in [WaitFor]
    registers the task before the lock is released ([suspend]). *)

From S2P Require Import Prelude EventMap Timewheel.

Local Open Scope N_scope.

Notation ConnectionId := (list byte).

(** ** errors.rs; of [quiche::Error], the variants that the code tells apart *)
Inductive QErr := Done | StreamStopped (code : N) | InvalidStreamState (id : N) | StreamLimit
  | OtherQErr (code : nat).

#[export] Instance QErr_eq_dec : EqDecision QErr.
Proof. solve_decision. Defined.

Inductive HalaIoError :=
| StdIoError (e : ErrorKind)
| SendError
| QuicheError (e : QErr)
| EventMapErr (e : EventMapError)
| Unspecified.

(** [From<HalaIoError> for std::io::Error]. *)
Definition into_io_error (value : HalaIoError) : ErrorKind :=
  match value with
  | SendError => BrokenPipe
  | StdIoError io_error => io_error
  | QuicheError (StreamStopped _ | InvalidStreamState _) => BrokenPipe
  | QuicheError StreamLimit => Other
  | QuicheError _ => Other
  | Unspecified => Other
  | EventMapErr ECancel => UnexpectedEof
  | EventMapErr EDestroy => UnexpectedEof
  end.

(** ** quiche *)
Record SendInfo (A : Type) := { send_from : A; send_to : A; send_at : N }.
Record RecvInfo (A : Type) := { recv_from : A; recv_to : A }.
Arguments send_from {A}. Arguments send_to {A}. Arguments send_at {A}.
Arguments recv_from {A}. Arguments recv_to {A}.

Class Quiche (A C : Type) := {
  qc_is_server : C → bool;
  source_id : C → ConnectionId;
  destination_id : C → ConnectionId;
  qc_is_closed : C → bool;
  qc_is_draining : C → bool;
  qc_is_timed_out : C → bool;
  qc_is_established : C → bool;
  qc_readable : C → list N;
  stream_readable_next : C → C * option N;
  stream_writable_next : C → C * option N;
  qc_send : C → nat → C * (QErr + (list byte * SendInfo A));
  qc_recv : C → list byte → RecvInfo A → C * (QErr + nat);
  qc_stream_send : C → N → list byte → bool → C * (QErr + nat);
  qc_stream_recv : C → N → nat → C * (QErr + (list byte * bool));
  qc_stream_shutdown : C → N → N → C * (QErr + ());
  qc_close : C → bool → N → list byte → C * (QErr + ());
  qc_stream_finished : C → N → bool;
  send_ack_eliciting : C → C * (QErr + ());
  qc_timeout : C → N → option N;
  qc_timeout_instant : C → option N;
  qc_on_timeout : C → N → C;
  send_quantum : C → nat;
  qc_scids_left : C → nat;
  qc_peer_streams_left_bidi : C → N;
  initial_max_streams_bidi : C → option N;
  (** a bound of the reads that give data, of one stream *)
  unread : C → N → nat;
}.

(** ** The state *)
Inductive QuicConnStateEvent :=
| Readable (scid : ConnectionId)
| Writable (scid : ConnectionId)
| StreamReadable (scid : ConnectionId) (id : N)
| StreamWritable (scid : ConnectionId) (id : N)
| Accept (scid : ConnectionId).

#[export] Instance QuicConnStateEvent_eq_dec : EqDecision QuicConnStateEvent.
Proof. solve_decision. Defined.
#[export] Instance QuicConnStateEvent_countable : Countable QuicConnStateEvent.
Proof.
  refine (inj_countable
    (λ e, match e with
          | Readable c => (0%nat, c, 0) | Writable c => (1%nat, c, 0)
          | StreamReadable c i => (2%nat, c, i) | StreamWritable c i => (3%nat, c, i)
          | Accept c => (4%nat, c, 0) end)
    (λ x, match x with
          | (0%nat, c, _) => Some (Readable c) | (1%nat, c, _) => Some (Writable c)
          | (2%nat, c, i) => Some (StreamReadable c i) | (3%nat, c, i) => Some (StreamWritable c i)
          | (_, c, _) => Some (Accept c) end) _).
  by intros [].
Defined.

Record HalfClosedStream := { stream_id : N; start_instant : N }.

Definition HalfClosedStream_new (now stream_id : N) : HalfClosedStream :=
  {| stream_id := stream_id; start_instant := now |}.

Definition is_timeout (h : HalfClosedStream) (now timeout : N) : bool :=
  bool_decide (timeout ≤ now - start_instant h).

(** How a segment of an asynchronous function ends. *)
Inductive step (R : Type) :=
| Return (r : R)
| Continue
| WaitFor (e : QuicConnStateEvent) (timeout : option N).
Arguments Return {R} r. Arguments Continue {R}. Arguments WaitFor {R} e timeout.

Section conn.
Context {A C : Type} `{!Quiche A C}.

Record RawQuicConnState := {
  quiche_conn : C;
  send_ack_eliciting_instant : N;
  ping_timeout : N;
  register_incoming_stream_ids : gset N;
  register_outgoing_stream_ids : gset N;
  lastest_outgoing_stream_id : N;
  incoming : list N;
  dropping_stream_queue : list N;
  half_closed_streams : gmap N HalfClosedStream;
}.

Record QuicConnState := {
  state : RawQuicConnState;
  mediator : World QuicConnStateEvent;
  scid : ConnectionId;
  dcid : ConnectionId;
  is_server : bool;
}.

(** The loop of [RawQuicConnState::new] over the readable streams. *)
Definition register_initial (first : N) (ids : list N) (s : RawQuicConnState) : RawQuicConnState :=
  {| quiche_conn := quiche_conn s; send_ack_eliciting_instant := send_ack_eliciting_instant s;
     ping_timeout := ping_timeout s;
     register_incoming_stream_ids :=
       foldl (λ m id, if decide (id `mod` 2 ≠ first `mod` 2) then {[id]} ∪ m else m)
         (register_incoming_stream_ids s) ids;
     register_outgoing_stream_ids := register_outgoing_stream_ids s;
     lastest_outgoing_stream_id := lastest_outgoing_stream_id s;
     incoming := incoming s ++ ids; dropping_stream_queue := dropping_stream_queue s;
     half_closed_streams := half_closed_streams s |}.

Definition RawQuicConnState_new (now : N) (c : C) (ping_timeout first : N) : RawQuicConnState :=
  register_initial first (qc_readable c)
    {| quiche_conn := c; send_ack_eliciting_instant := now; ping_timeout := ping_timeout;
       register_incoming_stream_ids := ∅; register_outgoing_stream_ids := ∅;
       lastest_outgoing_stream_id := first; incoming := []; dropping_stream_queue := [];
       half_closed_streams := ∅ |}.

Definition QuicConnState_new (now : N) (c : C) (ping_timeout first : N) : QuicConnState :=
  {| state := RawQuicConnState_new now c ping_timeout first; mediator := EventMap_default;
     scid := source_id c; dcid := destination_id c; is_server := qc_is_server c |}.

(** Updates of single fields. *)
Definition with_state (f : RawQuicConnState → RawQuicConnState) (s : QuicConnState) : QuicConnState :=
  {| state := f (state s); mediator := mediator s; scid := scid s; dcid := dcid s;
     is_server := is_server s |}.
Definition with_mediator (f : World QuicConnStateEvent → World QuicConnStateEvent)
    (s : QuicConnState) : QuicConnState :=
  {| state := state s; mediator := f (mediator s); scid := scid s; dcid := dcid s;
     is_server := is_server s |}.
Definition set_conn (c : C) (s : RawQuicConnState) : RawQuicConnState :=
  {| quiche_conn := c; send_ack_eliciting_instant := send_ack_eliciting_instant s;
     ping_timeout := ping_timeout s;
     register_incoming_stream_ids := register_incoming_stream_ids s;
     register_outgoing_stream_ids := register_outgoing_stream_ids s;
     lastest_outgoing_stream_id := lastest_outgoing_stream_id s; incoming := incoming s;
     dropping_stream_queue := dropping_stream_queue s;
     half_closed_streams := half_closed_streams s |}.
Definition set_ping_instant (now : N) (s : RawQuicConnState) : RawQuicConnState :=
  {| quiche_conn := quiche_conn s; send_ack_eliciting_instant := now;
     ping_timeout := ping_timeout s;
     register_incoming_stream_ids := register_incoming_stream_ids s;
     register_outgoing_stream_ids := register_outgoing_stream_ids s;
     lastest_outgoing_stream_id := lastest_outgoing_stream_id s; incoming := incoming s;
     dropping_stream_queue := dropping_stream_queue s;
     half_closed_streams := half_closed_streams s |}.
Definition set_incoming (ids : gset N) (q : list N) (s : RawQuicConnState) : RawQuicConnState :=
  {| quiche_conn := quiche_conn s; send_ack_eliciting_instant := send_ack_eliciting_instant s;
     ping_timeout := ping_timeout s; register_incoming_stream_ids := ids;
     register_outgoing_stream_ids := register_outgoing_stream_ids s;
     lastest_outgoing_stream_id := lastest_outgoing_stream_id s; incoming := q;
     dropping_stream_queue := dropping_stream_queue s;
     half_closed_streams := half_closed_streams s |}.
Definition set_outgoing (ids : gset N) (lastest : N) (s : RawQuicConnState) : RawQuicConnState :=
  {| quiche_conn := quiche_conn s; send_ack_eliciting_instant := send_ack_eliciting_instant s;
     ping_timeout := ping_timeout s;
     register_incoming_stream_ids := register_incoming_stream_ids s;
     register_outgoing_stream_ids := ids; lastest_outgoing_stream_id := lastest;
     incoming := incoming s; dropping_stream_queue := dropping_stream_queue s;
     half_closed_streams := half_closed_streams s |}.
Definition set_dropping (q : list N) (s : RawQuicConnState) : RawQuicConnState :=
  {| quiche_conn := quiche_conn s; send_ack_eliciting_instant := send_ack_eliciting_instant s;
     ping_timeout := ping_timeout s;
     register_incoming_stream_ids := register_incoming_stream_ids s;
     register_outgoing_stream_ids := register_outgoing_stream_ids s;
     lastest_outgoing_stream_id := lastest_outgoing_stream_id s; incoming := incoming s;
     dropping_stream_queue := q; half_closed_streams := half_closed_streams s |}.
Definition set_half_closed (m : gmap N HalfClosedStream) (s : RawQuicConnState) : RawQuicConnState :=
  {| quiche_conn := quiche_conn s; send_ack_eliciting_instant := send_ack_eliciting_instant s;
     ping_timeout := ping_timeout s;
     register_incoming_stream_ids := register_incoming_stream_ids s;
     register_outgoing_stream_ids := register_outgoing_stream_ids s;
     lastest_outgoing_stream_id := lastest_outgoing_stream_id s; incoming := incoming s;
     dropping_stream_queue := dropping_stream_queue s; half_closed_streams := m |}.

(** ** Segments *)
#[local] Notation M := (sm QuicConnState ErrorKind).

(** A call of quiche: the new connection and the answer. *)
Definition quiche {B} (f : C → C * B) : M B := λ s,
  let '(c, b) := f (quiche_conn (state s)) in (with_state (set_conn c) s, Ok b).
Definition set_state (f : RawQuicConnState → RawQuicConnState) : M () := modify (with_state f).
Definition get_state {B} (f : RawQuicConnState → B) : M B := gets (λ s, f (state s)).
(** [map_err(into_io_error)?]. *)
Definition quiche_ok {B} (r : QErr + B) : M B :=
  match r with inl e => fail (into_io_error (QuicheError e)) | inr b => mret b end.

Definition notify (e : ConnectionId → QuicConnStateEvent) (r : Reason.t) : M () :=
  modify (λ s, with_mediator (λ m, (notify_one m (e (scid s)) r).2) s).
Definition notify_list (es : ConnectionId → list QuicConnStateEvent) (r : Reason.t) : M () :=
  modify (λ s, with_mediator (λ m, notify_all m (es (scid s)) r) s).

Definition conn_dead (c : C) : bool := qc_is_closed c || qc_is_draining c || qc_is_timed_out c.

Definition handle_quic_conn_status : M () :=
  c ← get_state quiche_conn;
  if conn_dead c then
    modify (with_mediator (λ m, notify_any m Reason.Cancel));; fail BrokenPipe
  else mret ().

Definition handle_quic_incoming_stream (id : N) : M () :=
  s ← get_state (λ s, s);
  if decide (lastest_outgoing_stream_id s `mod` 2 ≠ id `mod` 2 ∧
             id ∉ register_incoming_stream_ids s) then
    set_state (λ s, set_incoming ({[id]} ∪ register_incoming_stream_ids s) (incoming s ++ [id]) s);;
    notify Accept Reason.On
  else mret ().

Definition notify_readable : M () :=
  handle_quic_conn_status;; notify Readable Reason.On.

Definition handle_stream_status (id : N) : M () :=
  m ← get_state half_closed_streams;
  if decide (is_Some (m !! id)) then fail BrokenPipe else mret ().

(** Each [while] returns in its first round. *)
Definition handle_stream_events : M () :=
  r ← quiche stream_readable_next;
  match r with
  | Some id =>
      handle_quic_incoming_stream id;; notify (λ c, StreamReadable c id) Reason.On
  | None =>
      w ← quiche stream_writable_next;
      match w with
      | Some id => notify (λ c, StreamWritable c id) Reason.On
      | None => mret ()
      end
  end.

(** Times are in nanoseconds; [Duration::from_millis(10)]. *)
Definition handle_send_timout (now : N) : M (option N) :=
  s ← get_state (λ s, s);
  let elapsed := now - send_ack_eliciting_instant s in
  if decide (ping_timeout s < elapsed) then
    r ← quiche send_ack_eliciting;
    quiche_ok r;;
    set_state (set_ping_instant now);;
    mret None
  else
    let ping_timout := ping_timeout s - elapsed in
    match qc_timeout (quiche_conn s) now with
    | Some timeout =>
        if decide (timeout < ping_timout ∧ 10000000 < timeout) then mret (Some timeout)
        else mret (Some ping_timout)
    | None => mret (Some ping_timout)
    end.

(** The loop of [handle_dropping_streams] over the queue; the streams whose fin is
    pending. *)
Fixpoint drop_streams (now : N) (queue send_fin_pending : list N) : M (list N) :=
  match queue with
  | [] => mret send_fin_pending
  | id :: queue =>
      r ← quiche (λ c, qc_stream_send c id [] true);
      match r with
      | inl Done => drop_streams now queue (send_fin_pending ++ [id])
      | _ =>
          notify_list (λ c, [StreamWritable c id; StreamReadable c id]) Reason.Cancel;;
          set_state (λ s, set_half_closed
            (<[id := HalfClosedStream_new now id]> (half_closed_streams s)) s);;
          drop_streams now queue send_fin_pending
      end
  end.

Definition handle_dropping_streams (now : N) : M () :=
  queue ← get_state dropping_stream_queue;
  set_state (set_dropping []);;
  send_fin_pending ← drop_streams now queue [];
  set_state (λ s, set_dropping (dropping_stream_queue s ++ send_fin_pending) s).

Fixpoint drain_stream (fuel : nat) (id : N) (len : nat) (c : C) : C * bool :=
  match fuel with
  | 0%nat => (c, false)
  | S fuel =>
      match qc_stream_recv c id len with
      | (c, inr (_, fin)) => if fin then (c, true) else drain_stream fuel id len c
      | (c, inl Done) => (c, false)
      | (c, inl _) => (c, true)
      end
  end.

Definition handle_half_closed_stream_resp (id : N) (len : nat) : M bool :=
  quiche (λ c, drain_stream (S (unread c id)) id len c).

(** The loop over the drained map; its order is that of [map_to_list]. *)
Fixpoint handle_half_closed_loop (l : list (N * HalfClosedStream)) (len : nat) : M () :=
  match l with
  | [] => mret ()
  | (id, stream) :: l =>
      closed ← handle_half_closed_stream_resp id len;
      (if negb closed then set_state (λ s, set_half_closed (<[id := stream]> (half_closed_streams s)) s)
       else mret ());;
      handle_half_closed_loop l len
  end.

Definition handle_half_closed_streams : M () :=
  len ← get_state (λ s, send_quantum (quiche_conn s));
  l ← get_state (λ s, map_to_list (half_closed_streams s));
  set_state (set_half_closed ∅);;
  handle_half_closed_loop l len.

(** ** The methods; [now] is the instant of the segment *)

(** [read], from [lock] on. *)
Definition read_segment (now : N) (len : nat) : M (step (list byte * SendInfo A)) :=
  handle_quic_conn_status;;
  handle_dropping_streams now;;
  r ← quiche (λ c, qc_send c len);
  match r with
  | inr x => set_state (set_ping_instant now);; mret (Return x)
  | inl Done =>
      send_timeout ← handle_send_timout now;
      match send_timeout with
      | None => mret Continue
      | Some t => s ← gets scid; mret (WaitFor (Readable s) (Some t))
      end
  | inl e => handle_quic_conn_status;; fail (into_io_error (QuicheError e))
  end.

(** [read], when the wait has timed out. *)
Definition read_timed_out (now : N) : M (step (list byte * SendInfo A)) :=
  s ← get_state (λ s, s);
  if decide (ping_timeout s < now - send_ack_eliciting_instant s) then
    r ← quiche send_ack_eliciting;
    quiche_ok r;;
    set_state (set_ping_instant now);;
    mret Continue
  else
    match qc_timeout_instant (quiche_conn s) with
    | Some timeout_instant =>
        if decide (timeout_instant ≤ now) then
          quiche (λ c, (qc_on_timeout c now, ()));; mret Continue
        else mret Continue
    | None => mret Continue
    end.

(** The end of a wait: [continue], or the error. *)
Definition resume {R} (answer : EventMapError + ()) : M (step R) :=
  match answer with
  | inr _ => mret Continue
  | inl e => fail (into_io_error (StdIoError (into_io_error (EventMapErr e))))
  end.

Definition write (buf : list byte) (recv_info : RecvInfo A) : M nat :=
  handle_quic_conn_status;;
  r ← quiche (λ c, qc_recv c buf recv_info);
  match r with
  | inr write_size =>
      handle_stream_events;; handle_half_closed_streams;; mret write_size
  | inl e => handle_quic_conn_status;; fail (into_io_error (QuicheError e))
  end.

Definition stream_send_segment (id : N) (buf : list byte) (fin : bool) : M (step nat) :=
  handle_quic_conn_status;;
  handle_stream_status id;;
  r ← quiche (λ c, qc_stream_send c id buf fin);
  match r with
  | inr write_size =>
      set_state (λ s,
        if decide (lastest_outgoing_stream_id s `mod` 2 = id `mod` 2) then
          set_outgoing (register_outgoing_stream_ids s ∖ {[id]}) (lastest_outgoing_stream_id s) s
        else s);;
      handle_stream_events;;
      notify_readable;;
      mret (Return write_size)
  | inl Done =>
      handle_stream_events;;
      notify_readable;;
      c ← gets scid; mret (WaitFor (StreamWritable c id) None)
  | inl e => handle_quic_conn_status;; fail (into_io_error (QuicheError e))
  end.

Definition stream_recv_wait {R} (id : N) : M (step R) :=
  notify_readable;;
  c ← gets scid; mret (WaitFor (StreamReadable c id) None).

Definition stream_recv_segment (id : N) (len : nat) : M (step (list byte * bool)) :=
  handle_quic_conn_status;;
  handle_stream_status id;;
  r ← quiche (λ c, qc_stream_recv c id len);
  match r with
  | inr x => handle_stream_events;; notify_readable;; mret (Return x)
  | inl Done => handle_stream_events;; stream_recv_wait id
  | inl (InvalidStreamState _) =>
      ids ← get_state register_outgoing_stream_ids;
      if decide (id ∈ ids) then stream_recv_wait id
      else fail (into_io_error (QuicheError (InvalidStreamState id)))
  | inl e => handle_stream_events;; fail (into_io_error (QuicheError e))
  end.

(** [accept]: [None] is a return value. *)
Definition accept_segment : M (step (option N)) := λ s,
  match handle_quic_conn_status s with
  | (s, Ok _) =>
      match incoming (state s) with
      | id :: q =>
          (with_state (λ r, set_incoming (register_incoming_stream_ids r) q r) s,
           Ok (Return (Some id)))
      | [] => (s, Ok (WaitFor (Accept (scid s)) None))
      end
  | (s, Err _) => (s, Ok (Return None))
  | (s, Panic) => (s, Panic)
  end.

Definition accept_resume (answer : EventMapError + ()) : M (step (option N)) :=
  match answer with inr _ => mret Continue | inl _ => mret (Return None) end.

Definition open_stream : M N :=
  handle_quic_conn_status;;
  id ← get_state lastest_outgoing_stream_id;
  set_state (λ s, set_outgoing ({[id]} ∪ register_outgoing_stream_ids s) (as_u64 (id + 4)) s);;
  mret id.

Definition close_stream (id : N) : M () :=
  handle_quic_conn_status;;
  ids ← get_state register_outgoing_stream_ids;
  if decide (id ∈ ids) then
    set_state (λ s, set_outgoing (register_outgoing_stream_ids s ∖ {[id]}) (lastest_outgoing_stream_id s) s)
  else
    set_state (λ s, set_dropping (dropping_stream_queue s ++ [id]) s);;
    notify_list (λ c, [StreamReadable c id; StreamWritable c id]) Reason.Cancel;;
    notify_readable.

Definition stream_shutdown (id err : N) : M () :=
  r ← quiche (λ c, qc_stream_shutdown c id err);
  notify (λ c, StreamReadable c id) Reason.Cancel;;
  quiche_ok r.

Definition close (app : bool) (err : N) (reason : list byte) : M () :=
  r ← quiche (λ c, qc_close c app err reason);
  match r with
  | inr _ => mret ()
  | inl Done => mret ()
  | inl e => fail (into_io_error (QuicheError e))
  end.

Definition stream_finished (id : N) : M bool := get_state (λ s, qc_stream_finished (quiche_conn s) id).
Definition is_closed : M bool :=
  get_state (λ s, qc_is_closed (quiche_conn s) || qc_is_draining (quiche_conn s)).
Definition is_established : M bool := get_state (λ s, qc_is_established (quiche_conn s)).
Definition scids_left : M nat := get_state (λ s, qc_scids_left (quiche_conn s)).

(** [None] of [peer_transport_params] panics. *)
Definition peer_streams_left_bidi : M N :=
  s ← get_state (λ s, s);
  let left := qc_peer_streams_left_bidi (quiche_conn s) in
  let outgoing_cached := N.of_nat (size (register_outgoing_stream_ids s)) in
  match initial_max_streams_bidi (quiche_conn s) with
  | None => panic
  | Some initial =>
      if decide (outgoing_cached < left) then
        if decide (initial = left) then mret (left - outgoing_cached - 1)
        else mret (left - outgoing_cached)
      else mret 0
  end.

(** ** Tasks *)

(** The task [task] runs a segment, holding lock [guard]; a wait registers the task and
    unlocks. *)
Definition run_segment {R} (guard task : nat) (m : M (step R)) : M (step R) := λ s,
  match m s with
  | (s, Ok (WaitFor e t)) =>
      (with_mediator (λ w, (wait_poll w e guard task).1.1) s, Ok (WaitFor e t))
  | r => r
  end.

(** The loop of [read] as long as it does not wait. *)
Fixpoint read_loop (fuel : nat) (now : N) (len : nat) : M (step (list byte * SendInfo A)) :=
  match fuel with
  | 0%nat => mret Continue
  | S fuel =>
      r ← read_segment now len;
      match r with Continue => read_loop fuel now len | r => mret r end
  end.
End conn.
Arguments RawQuicConnState : clear implicits.
Arguments QuicConnState : clear implicits.

(** ** The streams handed to the application *)
Section streams.
Context {A C : Type} `{!Quiche A C}.
Implicit Types (s : QuicConnState C).

(** The methods that neither open nor accept a stream only append unregistered ids of the
    peer's parity to the incoming queue, and register them. *)
Record queued (s s' : QuicConnState C) (ids : list N) : Prop := {
  qd_incoming : incoming (state s') = incoming (state s) ++ ids;
  qd_registered : register_incoming_stream_ids (state s') =
                    list_to_set ids ∪ register_incoming_stream_ids (state s);
  qd_fresh id : id ∈ ids → id ∉ register_incoming_stream_ids (state s) ∧
                  id `mod` 2 ≠ lastest_outgoing_stream_id (state s) `mod` 2;
  qd_nodup : NoDup ids;
  qd_lastest : lastest_outgoing_stream_id (state s') = lastest_outgoing_stream_id (state s);
}.
Definition queues s s' : Prop := ∃ ids, queued s s' ids.

#[export] Instance queues_preorder : PreOrder queues.
Proof.
  split.
  - intros s. exists []. split; try done; [by rewrite app_nil_r|set_solver|by intros ? ?%elem_of_nil|constructor].
  - intros s1 s2 s3 [l [I1 R1 F1 N1 L1]] [k [I2 R2 F2 N2 L2]]. exists (l ++ k). split.
    + by rewrite I2, I1, app_assoc.
    + rewrite R2, R1, list_to_set_app_L. set_solver.
    + intros id [Hin|Hin]%elem_of_app; [by apply F1|].
      apply F2 in Hin as [H1 H2]. rewrite R1, L1 in *. set_solver.
    + apply NoDup_app. split_and!; [done| |done]. intros id Hl Hk.
      apply F2 in Hk as [Hk _]. rewrite R1 in Hk. set_solver.
    + congruence.
Qed.

(** What leaves the fields alone. *)
Lemma queues_same s s' :
  incoming (state s') = incoming (state s) →
  register_incoming_stream_ids (state s') = register_incoming_stream_ids (state s) →
  lastest_outgoing_stream_id (state s') = lastest_outgoing_stream_id (state s) → queues s s'.
Proof.
  intros Hi Hr Hl. exists []. split; [by rewrite app_nil_r|set_solver|by intros ? ?%elem_of_nil|constructor|done].
Qed.

Definition stable {B} (m : sm (QuicConnState C) ErrorKind B) : Prop := sm_rel queues m.

Lemma stable_quiche {B} (f : C → C * B) : stable (quiche f).
Proof. intros s. unfold quiche. destruct (f _). by apply queues_same. Qed.
Lemma stable_modify (f : QuicConnState C → QuicConnState C) :
  (∀ s, incoming (state (f s)) = incoming (state s) ∧
        register_incoming_stream_ids (state (f s)) = register_incoming_stream_ids (state s) ∧
        lastest_outgoing_stream_id (state (f s)) = lastest_outgoing_stream_id (state s)) →
  stable (modify f).
Proof. intros Hf s. destruct (Hf s) as (?&?&?). by apply queues_same. Qed.
Lemma stable_gets {B} (f : QuicConnState C → B) : stable (gets f).
Proof. by apply sm_rel_pure; [apply _|]. Qed.
Lemma stable_ret {B} (b : B) : stable (mret b).
Proof. apply sm_rel_ret, _. Qed.
Lemma stable_fail {B} (e : ErrorKind) : stable (fail (A:=B) e).
Proof. apply sm_rel_fail, _. Qed.
Lemma stable_bind {B D} (m : sm (QuicConnState C) ErrorKind B) (f : B → sm _ ErrorKind D) :
  stable m → (∀ b, stable (f b)) → stable (m ≫= f).
Proof. apply sm_rel_bind, _. Qed.
End streams.

Create HintDb conn.
#[export] Hint Resolve stable_quiche stable_gets stable_ret stable_fail : conn.

(** Decomposes a method into its steps. *)
Ltac stable_tac :=
  repeat first
    [ done
    | progress (auto with conn nocore)
    | apply stable_bind; [|intros ?]
    | apply stable_modify; [done]
    | progress unfold notify, notify_list, set_state, get_state, quiche_ok
    | case_match
    | apply stable_modify; intros ?; split_and!; simpl; by repeat case_match ].

Section methods.
Context {A C : Type} `{!Quiche A C}.
Implicit Types (s : QuicConnState C).

Lemma stable_status : stable (C:=C) handle_quic_conn_status.
Proof. unfold handle_quic_conn_status. stable_tac. Qed.
Lemma stable_notify_readable : stable (C:=C) notify_readable.
Proof. unfold notify_readable. pose proof stable_status. stable_tac. Qed.
Lemma stable_stream_status id : stable (C:=C) (handle_stream_status id).
Proof. unfold handle_stream_status. stable_tac. Qed.

Lemma stable_incoming id : stable (C:=C) (handle_quic_incoming_stream id).
Proof.
  intros s. unfold handle_quic_incoming_stream, get_state, set_state, notify, mbind, sm_bind. simpl.
  case_decide as Hd; [|done]. destruct Hd as [Hp Hr]. simpl. exists [id]. split; simpl; try done.
  - set_solver.
  - intros ? ->%list_elem_of_singleton. done.
  - apply NoDup_singleton.
Qed.
End methods.
#[export] Hint Resolve stable_status stable_notify_readable stable_stream_status stable_incoming : conn.

Section more_methods.
Context {A C : Type} `{!Quiche A C}.

Lemma stable_events : stable (C:=C) handle_stream_events.
Proof. unfold handle_stream_events. stable_tac. Qed.
Lemma stable_send_timout now : stable (C:=C) (handle_send_timout now).
Proof. unfold handle_send_timout. stable_tac. Qed.
Lemma stable_drop_streams now q p : stable (C:=C) (drop_streams now q p).
Proof. revert p. induction q as [|id q IH]; intros p; simpl; stable_tac. Qed.
Lemma stable_half_closed_loop l len : stable (C:=C) (handle_half_closed_loop l len).
Proof.
  induction l as [|[id h] l IH]; simpl; [stable_tac|]. unfold handle_half_closed_stream_resp. stable_tac.
Qed.
End more_methods.
#[export] Hint Resolve stable_events stable_send_timout stable_drop_streams stable_half_closed_loop : conn.

(** ** A connection and the streams it hands out *)
Section run.
Context {A C : Type} `{!Quiche A C}.
Implicit Types (s : QuicConnState C).

Lemma stable_dropping now : stable (C:=C) (handle_dropping_streams now).
Proof. unfold handle_dropping_streams. stable_tac. Qed.
Lemma stable_half_closed : stable (C:=C) handle_half_closed_streams.
Proof. unfold handle_half_closed_streams. stable_tac. Qed.
Hint Resolve stable_dropping stable_half_closed : conn.

Lemma stable_read now len : stable (C:=C) (read_segment now len).
Proof. unfold read_segment. stable_tac. Qed.
Lemma stable_read_timed_out now : stable (C:=C) (read_timed_out now).
Proof. unfold read_timed_out. stable_tac. Qed.
Lemma stable_write buf info : stable (C:=C) (write buf info).
Proof. unfold write. stable_tac. Qed.
Lemma stable_send id buf fin : stable (C:=C) (stream_send_segment id buf fin).
Proof. unfold stream_send_segment. stable_tac. Qed.
Lemma stable_recv id len : stable (C:=C) (stream_recv_segment id len).
Proof. unfold stream_recv_segment, stream_recv_wait. stable_tac. Qed.
Lemma stable_close_stream id : stable (C:=C) (close_stream id).
Proof. unfold close_stream. stable_tac. Qed.
Lemma stable_shutdown id err : stable (C:=C) (stream_shutdown id err).
Proof. unfold stream_shutdown. stable_tac. Qed.
Lemma stable_close app err reason : stable (C:=C) (close app err reason).
Proof. unfold close. stable_tac. Qed.

(** The segments of the tasks that share a connection, in any order; what they hand
    out: incoming ([true]) and outgoing streams.  [cs_mediator]: a task registers, is
    polled, or cancels its wait. *)
Inductive conn_step : QuicConnState C → list (bool * N) → QuicConnState C → Prop :=
| cs_read s now len : conn_step s [] (read_segment now len s).1
| cs_timed_out s now : conn_step s [] (read_timed_out now s).1
| cs_write s buf info : conn_step s [] (write buf info s).1
| cs_send s id buf fin : conn_step s [] (stream_send_segment id buf fin s).1
| cs_recv s id len : conn_step s [] (stream_recv_segment id len s).1
| cs_close_stream s id : conn_step s [] (close_stream id s).1
| cs_shutdown s id err : conn_step s [] (stream_shutdown id err s).1
| cs_close s app err reason : conn_step s [] (close app err reason s).1
| cs_accept s :
    conn_step s (match (accept_segment s).2 with Ok (Return (Some id)) => [(true, id)] | _ => [] end)
      (accept_segment s).1
| cs_open s :
    conn_step s (match (open_stream s).2 with Ok id => [(false, id)] | _ => [] end) (open_stream s).1
| cs_mediator s f : conn_step s [] (with_mediator f s).

Inductive conn_run (s0 : QuicConnState C) : list (bool * N) → QuicConnState C → Prop :=
| run_refl : conn_run s0 [] s0
| run_step tr s es s' : conn_run s0 tr s → conn_step s es s' → conn_run s0 (tr ++ es) s'.

Definition accepted (tr : list (bool * N)) : list N := (filter (λ x, x.1 = true) tr).*2.
Definition opened (tr : list (bool * N)) : list N := (filter (λ x, x.1 = false) tr).*2.

Lemma streams_accepted_app tr es : accepted (tr ++ es) = accepted tr ++ accepted es.
Proof. unfold accepted. by rewrite filter_app, fmap_app. Qed.
Lemma opened_app tr es : opened (tr ++ es) = opened tr ++ opened es.
Proof. unfold opened. by rewrite filter_app, fmap_app. Qed.

(** The k-th outgoing stream. *)
Definition outgoing_id (first : N) (k : nat) : N := as_u64 (first + 4 * N.of_nat k).

Lemma outgoing_id_S first k : as_u64 (outgoing_id first k + 4) = outgoing_id first (S k).
Proof. unfold outgoing_id, as_u64. rewrite N.Div0.add_mod_idemp_l. f_equal. lia. Qed.

Lemma as_u64_mod2 n : as_u64 n `mod` 2 = n `mod` 2.
Proof.
  unfold as_u64. replace (2 ^ 64) with (2 * 2 ^ 63) by done.
  rewrite N.Div0.mod_mul_r. rewrite N.mul_comm, N.Div0.mod_add. apply N.Div0.mod_mod.
Qed.

Lemma outgoing_id_mod2 first k : outgoing_id first k `mod` 2 = first `mod` 2.
Proof.
  unfold outgoing_id. rewrite as_u64_mod2.
  replace (4 * N.of_nat k) with (N.of_nat k * 2 * 2) by lia. apply N.Div0.mod_add.
Qed.

Record streams_inv (first : N) (initial : list N) (tr : list (bool * N)) s : Prop := {
  si_nodup : NoDup (accepted tr ++ incoming (state s));
  si_ids id : id ∈ accepted tr ++ incoming (state s) ↔
              id ∈ initial ∨ id ∈ register_incoming_stream_ids (state s);
  si_parity id : id ∈ register_incoming_stream_ids (state s) → id `mod` 2 ≠ first `mod` 2;
  si_initial id : id ∈ initial → id `mod` 2 ≠ first `mod` 2 →
                  id ∈ register_incoming_stream_ids (state s);
  si_opened : opened tr = outgoing_id first <$> seq 0 (length (opened tr));
  si_lastest : lastest_outgoing_stream_id (state s) = outgoing_id first (length (opened tr));
}.

Lemma streams_inv_queues first initial tr s s' :
  streams_inv first initial tr s → queues s s' → streams_inv first initial tr s'.
Proof.
  intros [Hn Hi Hp H0 Ho Hl] [ids [I R F N L]].
  assert (∀ id, id ∈ ids → id ∉ register_incoming_stream_ids (state s) ∧ id `mod` 2 ≠ first `mod` 2) as HF.
  { intros id [H1 H2]%F. by rewrite Hl, outgoing_id_mod2 in H2. }
  split; [| | | |done|by rewrite L].
  - rewrite I, app_assoc. apply NoDup_app. split_and!; [done| |done].
    intros id Hin Hnew. apply HF in Hnew as [Hr Hpar]. apply Hi in Hin as [Hin|Hin]; [|done].
    by apply Hr, H0.
  - intros id. rewrite I, R, app_assoc, elem_of_app, Hi. set_solver.
  - intros id. rewrite R. intros [Hin%elem_of_list_to_set|Hin]%elem_of_union; [by apply HF|auto].
  - intros id Hin Hpar. rewrite R. apply elem_of_union_r. auto.
Qed.

Lemma conn_step_inv first initial tr s es s' :
  streams_inv first initial tr s → conn_step s es s' → streams_inv first initial (tr ++ es) s'.
Proof.
  intros Hinv Hs. destruct Hs; rewrite ?app_nil_r;
    try (eapply streams_inv_queues; [done|]);
    first [apply stable_read|apply stable_read_timed_out|apply stable_write|apply stable_send
          |apply stable_recv|apply stable_close_stream|apply stable_shutdown|apply stable_close
          |by apply queues_same|idtac].
  - unfold accept_segment. pose proof (stable_status (C:=C) s) as Hq.
    destruct (handle_quic_conn_status s) as [s1 [[]|e|]]; simpl in *.
    + apply (streams_inv_queues _ _ _ _ _ Hinv) in Hq. destruct (incoming (state s1)) as [|id q] eqn:Hin.
      * by rewrite app_nil_r.
      * destruct Hq as [Hn Hi Hp H0 Ho Hl]. rewrite Hin in *.
        split; simpl; rewrite ?streams_accepted_app, ?opened_app, ?app_nil_r; simpl; try done;
          by rewrite <-app_assoc.
    + rewrite app_nil_r. by eapply streams_inv_queues.
    + rewrite app_nil_r. by eapply streams_inv_queues.
  - unfold open_stream. pose proof (stable_status (C:=C) s) as Hq.
    unfold mbind, sm_bind.
    destruct (handle_quic_conn_status s) as [s1 [[]|e|]]; simpl in *.
    + apply (streams_inv_queues _ _ _ _ _ Hinv) in Hq as [Hn Hi Hp H0 Ho Hl].
      split; simpl; rewrite ?streams_accepted_app, ?app_nil_r; simpl; try done.
      * rewrite opened_app, length_app. simpl. rewrite Nat.add_1_r, seq_S, fmap_app, <-Ho. simpl.
        by rewrite Hl.
      * rewrite opened_app, length_app, Hl, outgoing_id_S. simpl. by rewrite Nat.add_1_r.
    + rewrite app_nil_r. by eapply streams_inv_queues.
    + rewrite app_nil_r. by eapply streams_inv_queues.
Qed.
End run.

(** ** The other components of a method's effect *)
Section effects.
Context {A C : Type} `{!Quiche A C}.
Implicit Types (s : QuicConnState C).

Lemma streams_inv_new now (c : C) ping first :
  NoDup (qc_readable c) → first < 2 ^ 64 →
  streams_inv first (qc_readable c) [] (QuicConnState_new now c ping first).
Proof.
  intros Hn Hfirst.
  assert (∀ (ids : list N) (m : gset N) id,
    id ∈ foldl (λ m id, if decide (id `mod` 2 ≠ first `mod` 2) then {[id]} ∪ m else m) m ids ↔
    id ∈ m ∨ (id ∈ ids ∧ id `mod` 2 ≠ first `mod` 2)) as Hfold.
  { induction ids as [|i ids IH]; intros m id; simpl; [set_solver|].
    rewrite IH, elem_of_cons. case_decide; set_solver. }
  split; simpl; unfold RawQuicConnState_new, register_initial; simpl; try done.
  - intros id. rewrite Hfold. set_solver.
  - intros id. rewrite Hfold. set_solver.
  - intros id Hin Hp. rewrite Hfold. by right.
  - unfold outgoing_id. simpl. rewrite N.add_0_r. symmetry. by apply N.mod_small.
Qed.

(** The state of a connection on which nothing works any more. *)
Definition cancelled s : QuicConnState C :=
  with_mediator (λ m, notify_any m Reason.Cancel) s.

Lemma status_dead s :
  conn_dead (quiche_conn (state s)) = true →
  handle_quic_conn_status s = (cancelled s, Err BrokenPipe).
Proof.
  intros Hd. unfold handle_quic_conn_status, get_state, mbind, sm_bind. simpl. by rewrite Hd.
Qed.

Lemma status_alive s :
  conn_dead (quiche_conn (state s)) = false → handle_quic_conn_status s = (s, Ok ()).
Proof.
  intros Hd. unfold handle_quic_conn_status, get_state, mbind, sm_bind. simpl. by rewrite Hd.
Qed.

(** The fins of a queue of dropping streams: the connection after them, the streams
    whose fin was sent or failed, and those to retry. *)
Fixpoint send_fins (c : C) (queue : list N) : C * list N * list N :=
  match queue with
  | [] => (c, [], [])
  | id :: queue =>
      let '(c, r) := qc_stream_send c id [] true in
      let '(c, closed, pending) := send_fins c queue in
      if decide (r = inl Done) then (c, closed, id :: pending) else (c, id :: closed, pending)
  end.

Definition cancel_stream s (id : N) (m : World QuicConnStateEvent) : World QuicConnStateEvent :=
  notify_all m [StreamWritable (scid s) id; StreamReadable (scid s) id] Reason.Cancel.

Lemma drop_streams_spec now queue pending s :
  let '(c, closed, retry) := send_fins (quiche_conn (state s)) queue in
  drop_streams now queue pending s =
    (with_mediator (λ m, foldl (λ m id, cancel_stream s id m) m closed)
       (with_state (λ r, set_half_closed
          (foldl (λ m id, <[id := HalfClosedStream_new now id]> m) (half_closed_streams r) closed)
          (set_conn c r)) s),
     Ok (pending ++ retry)).
Proof.
  revert pending s. induction queue as [|id queue IH]; intros pending s; simpl.
  - rewrite app_nil_r. by destruct s as [[] ? ? ? ?].
  - unfold mbind, sm_bind, quiche. simpl.
    destruct (qc_stream_send (quiche_conn (state s)) id [] true) as [c r].
    destruct (decide (r = inl Done)) as [->|Hne].
    + specialize (IH (pending ++ [id]) (with_state (set_conn c) s)). simpl in IH.
      destruct (send_fins c queue) as [[c' closed] retry]. rewrite IH.
      f_equal. by rewrite <-app_assoc.
    + set (s1 := with_state (λ r0, set_half_closed
        (<[id := HalfClosedStream_new now id]> (half_closed_streams r0)) r0)
        (with_mediator (cancel_stream s id) (with_state (set_conn c) s))).
      specialize (IH pending s1). simpl in IH.
      destruct (send_fins c queue) as [[c' closed] retry].
      destruct r as [[]|]; first [done|exact IH].
Qed.

(** The fields that only [read] and [new] write. *)
Definition same_ping s s' : Prop :=
  send_ack_eliciting_instant (state s') = send_ack_eliciting_instant (state s) ∧
  ping_timeout (state s') = ping_timeout (state s) ∧ scid s' = scid s.

Lemma dropping_same_ping now s : same_ping s (handle_dropping_streams now s).1.
Proof.
  unfold handle_dropping_streams, get_state, set_state, mbind, sm_bind. simpl.
  pose proof (drop_streams_spec now (dropping_stream_queue (state s)) []
    (with_state (set_dropping []) s)) as Hd.
  destruct (send_fins _ _) as [[c closed] retry]. by rewrite Hd.
Qed.

(** How a segment of [read] ends: by a ping that was due, or by a wait. *)
Lemma read_segment_ends now len s :
  match read_segment now len s with
  | (s', Ok Continue) =>
      send_ack_eliciting_instant (state s') = now ∧
      0 < now - send_ack_eliciting_instant (state s)
  | (s', Ok (WaitFor e t)) =>
      e = Readable (scid s') ∧
      ∃ d, t = Some d ∧ d ≤ ping_timeout (state s') - (now - send_ack_eliciting_instant (state s')) ∧
        (d = 0 ↔ now - send_ack_eliciting_instant (state s') = ping_timeout (state s'))
  | _ => True
  end.
Proof.
  unfold read_segment. destruct (conn_dead (quiche_conn (state s))) eqn:Hd.
  { by rewrite (bind_err _ _ _ _ _ (status_dead s Hd)). }
  rewrite (bind_known _ _ _ _ _ (status_alive s Hd)).
  pose proof (dropping_same_ping now s) as Hp. unfold mbind at 1, sm_bind at 1.
  destruct (handle_dropping_streams now s) as [s1 [[]|e|]]; [|done|done]. simpl in Hp.
  destruct Hp as (Hi&Hpt&Hsc). unfold quiche, mbind, sm_bind.
  destruct (qc_send (quiche_conn (state s1)) len) as [c [e|x]]; simpl; [|done].
  destruct (decide (e = Done)) as [->|Hne].
  - unfold handle_send_timout, get_state, mbind, sm_bind, quiche, quiche_ok, set_state. simpl.
    destruct (decide (_ < _)) as [Hlt|Hge]; simpl.
    + destruct (send_ack_eliciting c) as [c' [e|[]]]; simpl; [done|]. split; [done|]. lia.
    + destruct (qc_timeout c now) as [t|].
      * case_decide; simpl; (split; [done|]); eexists; (split; [done|]); lia.
      * simpl. split; [done|]. eexists. split; [done|]. lia.
  - pose proof (status_alive (with_state (set_conn c) s1)) as Ha.
    pose proof (status_dead (with_state (set_conn c) s1)) as Hdd.
    destruct (conn_dead c) eqn:Hc.
    + by destruct e; try done; rewrite Hdd.
    + by destruct e; try done; rewrite Ha.
Qed.

Lemma send_fins_perm c queue : queue ≡ₚ (send_fins c queue).1.2 ++ (send_fins c queue).2.
Proof.
  revert c. induction queue as [|id queue IH]; intros c; simpl; [done|].
  destruct (qc_stream_send c id [] true) as [c' r]. specialize (IH c').
  destruct (send_fins c' queue) as [[c'' closed] retry]. simpl in *.
  case_decide; simpl; rewrite IH at 1; [apply Permutation_middle|done].
Qed.

Lemma half_closed_after now (closed : list N) (m : gmap N HalfClosedStream) i :
  is_Some (foldl (λ m id, <[id := HalfClosedStream_new now id]> m) m closed !! i) ↔
  i ∈ closed ∨ is_Some (m !! i).
Proof.
  revert m. induction closed as [|id closed IH]; intros m; simpl; [set_solver|].
  rewrite IH, lookup_insert_is_Some', elem_of_cons. naive_solver.
Qed.

Lemma stream_status_closed id s :
  is_Some (half_closed_streams (state s) !! id) → handle_stream_status id s = (s, Err BrokenPipe).
Proof.
  intros Hh. unfold handle_stream_status, get_state, mbind, sm_bind. simpl.
  by rewrite decide_True.
Qed.

Lemma half_closed_mediator s : mediator (handle_half_closed_streams s).1 = mediator s.
Proof.
  unfold handle_half_closed_streams, get_state, set_state, mbind, sm_bind. simpl.
  assert (∀ l len s1, mediator (handle_half_closed_loop l len s1).1 = mediator s1) as Hl; [|by rewrite Hl].
  induction l as [|[id h] l IH]; intros len s1; [done|]. simpl.
  unfold handle_half_closed_stream_resp, quiche, mbind, sm_bind. 
  destruct (drain_stream (S (unread (quiche_conn (state s1)) id)) id len (quiche_conn (state s1))) as [c []]; simpl; by rewrite IH.
Qed.

(** A successful [write], up to the stream events. *)
Lemma write_events buf info s s' n :
  write buf info s = (s', Ok n) →
  let s1 := with_state (set_conn (qc_recv (quiche_conn (state s)) buf info).1) s in
  mediator s' = mediator (handle_stream_events s1).1.
Proof.
  intros Hw s1. unfold write in Hw. destruct (conn_dead (quiche_conn (state s))) eqn:Hd.
  { by rewrite (bind_err _ _ _ _ _ (status_dead s Hd)) in Hw. }
  rewrite (bind_known _ _ _ _ _ (status_alive s Hd)) in Hw. unfold quiche, fail, mbind, sm_bind, mret, sm_ret in Hw.
  subst s1. destruct (qc_recv (quiche_conn (state s)) buf info) as [c [e|k]]; simpl in *.
  { destruct (handle_quic_conn_status (with_state (set_conn c) s)) as [? [[]|?|]]; done. }
  destruct (handle_stream_events (with_state (set_conn c) s)) as [s2 [[]|?|]]; [|done|done].
  pose proof (half_closed_mediator s2) as Hm. simpl.
  destruct (handle_half_closed_streams s2) as [s3 [[]|?|]]; simplify_eq/=. done.
Qed.

(** A stream that quiche reports in a [write] is registered, when it has the peer's parity. *)
Lemma write_registers buf info s s' n id :
  write buf info s = (s', Ok n) →
  (stream_readable_next (qc_recv (quiche_conn (state s)) buf info).1).2 = Some id →
  lastest_outgoing_stream_id (state s) `mod` 2 ≠ id `mod` 2 →
  id ∈ register_incoming_stream_ids (state s').
Proof.
  intros Hw Hnext Hpar. unfold write in Hw. destruct (conn_dead (quiche_conn (state s))) eqn:Hd.
  { by rewrite (bind_err _ _ _ _ _ (status_dead s Hd)) in Hw. }
  rewrite (bind_known _ _ _ _ _ (status_alive s Hd)) in Hw. unfold quiche, fail, mbind, sm_bind, mret, sm_ret in Hw.
  destruct (qc_recv (quiche_conn (state s)) buf info) as [c [e|k]]; simpl in *.
  { destruct (handle_quic_conn_status (with_state (set_conn c) s)) as [? [[]|?|]]; done. }
  assert (id ∈ register_incoming_stream_ids (state (handle_stream_events (with_state (set_conn c) s)).1)) as Hin.
  { unfold handle_stream_events, quiche, mbind, sm_bind. simpl.
    destruct (stream_readable_next c) as [c1 o]. simpl in *. subst o. simpl.
    unfold handle_quic_incoming_stream, get_state, set_state, mbind, sm_bind. simpl.
    case_decide as Hdec; simpl; [set_solver|]. destruct (decide (id ∈ register_incoming_stream_ids (state s))); [done|].
    by destruct Hdec. }
  destruct (handle_stream_events (with_state (set_conn c) s)) as [s2 [[]|?|]]; [|done|done]. simpl in Hin.
  destruct (stable_half_closed s2) as [ids [_ Hreg _ _ _]].
  destruct (handle_half_closed_streams s2) as [s3 [[]|?|]]; simplify_eq/=. rewrite Hreg. set_solver.
Qed.

Lemma write_queues first initial tr buf info s s' n id :
  streams_inv first initial tr s → write buf info s = (s', Ok n) →
  (stream_readable_next (qc_recv (quiche_conn (state s)) buf info).1).2 = Some id →
  id `mod` 2 ≠ first `mod` 2 → id ∈ accepted tr ++ incoming (state s').
Proof.
  intros Hinv Hw Hnext Hpar. pose proof (stable_write buf info s) as Hq. rewrite Hw in Hq.
  apply (streams_inv_queues _ _ _ _ _ Hinv) in Hq. apply (si_ids _ _ _ _ Hq). right.
  eapply write_registers; [exact Hw|exact Hnext|].
  rewrite (si_lastest _ _ _ _ Hinv), outgoing_id_mod2. done.
Qed.

(** The notification of one event. *)
Definition notifies (m m' : World QuicConnStateEvent) (e e' : QuicConnStateEvent) : Prop :=
  (∀ w, wakers m !! e = Some w →
     Woke (waker w) ∈ log m' ∧ wakers m' !! e = None ∧
     cells m' !! reason w = Some (Reason.into_u8 Reason.On)) ∧
  (∀ e0, e0 ≠ e → e0 ≠ e' → wakers m' !! e0 = wakers m !! e0).

Lemma notifies_one m m1 e e' :
  wakers m1 !! e = wakers m !! e → (∀ e0, e0 ≠ e' → wakers m1 !! e0 = wakers m !! e0) →
  notifies m (notify_one m1 e Reason.On).2 e e'.
Proof.
  intros He Ho. split.
  - intros w Hw. rewrite <-He in Hw. unfold notify_one. rewrite Hw. simpl.
    rewrite lookup_delete_eq, lookup_insert_eq. split_and!; [set_solver|done|done].
  - intros e0 H1 H2. rewrite notify_one_wakers, lookup_delete_ne by done. auto.
Qed.

(** What [stream_recv] waits for. *)
Lemma stream_recv_wait_event id len s :
  match stream_recv_segment (A:=A) id len s with
  | (s', Ok (WaitFor e t)) => e = StreamReadable (scid s') id ∧ t = None
  | _ => True
  end.
Proof.
  unfold stream_recv_segment, stream_recv_wait, quiche, get_state, fail, mbind, sm_bind, mret, sm_ret.
  repeat (case_match; simplify_eq/=; try done).
Qed.

(** The notifications of [write]. *)
Lemma write_notifies (buf : list byte) (info : RecvInfo A) s s' n :
  write buf info s = (s', Ok n) →
  match stream_readable_next (qc_recv (quiche_conn (state s)) buf info).1 with
  | (_, Some id) =>
      notifies (mediator s) (mediator s') (StreamReadable (scid s) id) (Accept (scid s))
  | (c, None) =>
      match stream_writable_next c with
      | (_, Some id) =>
          notifies (mediator s) (mediator s') (StreamWritable (scid s) id)
            (StreamWritable (scid s) id)
      | (_, None) => mediator s' = mediator s
      end
  end.
Proof.
  intros Hw. rewrite (write_events _ _ _ _ _ Hw). clear Hw. set (c := (qc_recv _ buf info).1).
  unfold handle_stream_events, quiche, mbind, sm_bind. simpl.
  destruct (stream_readable_next c) as [c1 [id|]]; simpl.
  - unfold handle_quic_incoming_stream, get_state, set_state, mbind, sm_bind. simpl.
    case_decide; simpl; apply notifies_one; try done; rewrite ?notify_one_wakers;
      intros; by rewrite lookup_delete_ne.
  - destruct (stream_writable_next c1) as [c2 [id|]]; simpl; [|done]. by apply notifies_one.
Qed.
End effects.

(** ** Properties *)

(** C12. Streams are handed out once.  Whatever the tasks of a connection do, in any order: no
    stream is accepted twice or again while it is queued; what is accepted or queued was
    readable at the start or has the peer's parity; what was readable at the start, and every stream of the
    peer's parity that quiche reports in a [write], is accepted or queued.  [open_stream] gives out
    first, first + 4, ... (as u64), all different as long as they have not wrapped around.  A
    stream is accepted and opened only when its id has the connection's own parity and
    was readable at the start, which [RawQuicConnState::new] queues whatever its parity. *)
Theorem streams_handed_out_once {A C} `{!Quiche A C} (now ping first : N) (c : C)
    (tr : list (bool * N)) (s : QuicConnState C) :
  NoDup (qc_readable c) → first < 2 ^ 64 →
  conn_run (QuicConnState_new now c ping first) tr s →
  NoDup (accepted tr ++ incoming (state s)) ∧
  (∀ id, id ∈ accepted tr ++ incoming (state s) → id ∈ qc_readable c ∨ id `mod` 2 ≠ first `mod` 2) ∧
  (∀ id, id ∈ qc_readable c → id ∈ accepted tr ++ incoming (state s)) ∧
  (∀ buf info s' n id, write buf info s = (s', Ok n) →
     (stream_readable_next (qc_recv (quiche_conn (state s)) buf info).1).2 = Some id →
     id `mod` 2 ≠ first `mod` 2 → id ∈ accepted tr ++ incoming (state s')) ∧
  opened tr = outgoing_id first <$> seq 0 (length (opened tr)) ∧
  (first + 4 * N.of_nat (length (opened tr)) < 2 ^ 64 → NoDup (opened tr)) ∧
  (∀ id, id ∈ accepted tr → id ∈ opened tr → id ∈ qc_readable c ∧ id `mod` 2 = first `mod` 2).
Proof.
  intros Hn Hfirst Hr.
  assert (streams_inv first (qc_readable c) tr s) as Hinv.
  { induction Hr as [|tr s es s' _ IH Hs]; [by apply streams_inv_new|by eapply conn_step_inv]. }
  pose proof Hinv as [H1 H2 H3 _ H4 _].
  assert (∀ id, id ∈ accepted tr ++ incoming (state s) → id ∈ qc_readable c ∨ id `mod` 2 ≠ first `mod` 2) as H5
    by (intros id [Hin|Hin]%H2; auto).
  split_and!; [done|done| | |done| |].
  - intros id Hin. apply H2. by left.
  - intros buf info s' n id Hw Hnext Hpar. eapply write_queues; [exact Hinv|exact Hw|exact Hnext|exact Hpar].
  - intros Hb. rewrite H4. apply NoDup_fmap_2_strong; [|apply NoDup_seq].
    intros x y Hx%elem_of_seq Hy%elem_of_seq. unfold outgoing_id, as_u64.
    rewrite !N.mod_small by lia. lia.
  - intros id Ha Ho. rewrite H4 in Ho. apply list_elem_of_fmap in Ho as (k&->&_).
    destruct (H5 (outgoing_id first k)) as [Hin|Hp]; [by apply elem_of_app; left| |by rewrite outgoing_id_mod2 in Hp].
    split; [done|apply outgoing_id_mod2].
Qed.

(** On a connection that quiche reports closed, draining or timed out, every method
    that uses it fails with [BrokenPipe] ([accept] returns [None]) without calling quiche
    again, and wakes every waiting task of the connection with [Cancel], which its
    method turns into [UnexpectedEof] ([None] for [accept]). *)
Theorem dead_connection_cancels {A C} `{!Quiche A C} (s : QuicConnState C) :
  conn_dead (quiche_conn (state s)) = true →
  let m' := notify_any (mediator s) Reason.Cancel in
  let s' := with_mediator (λ _, m') s in
  (∀ now len, read_segment now len s = (s', Err BrokenPipe)) ∧
  (∀ buf info, write buf info s = (s', Err BrokenPipe)) ∧
  (∀ id buf fin, stream_send_segment id buf fin s = (s', Err BrokenPipe)) ∧
  (∀ id len, stream_recv_segment id len s = (s', Err BrokenPipe)) ∧
  accept_segment s = (s', Ok (Return None)) ∧
  open_stream s = (s', Err BrokenPipe) ∧
  (∀ id, close_stream id s = (s', Err BrokenPipe)) ∧
  wakers m' = ∅ ∧
  (∀ e w, wakers (mediator s) !! e = Some w →
     Woke (waker w) ∈ log m' ∧ cells m' !! reason w = Some (Reason.into_u8 Reason.Cancel)) ∧
  resume (R:=nat) (inl ECancel) s' = (s', Err UnexpectedEof) ∧
  accept_resume (inl ECancel) s' = (s', Ok (Return None)).
Proof.
  intros Hd m' s'. pose proof (status_dead s Hd) as Hst. change (cancelled s) with s' in Hst.
  destruct (notify_any_spec (mediator s) Reason.Cancel) as (Hw&_&_&Hc).
  split_and!; try done; intros;
    try (unfold read_segment, write, stream_send_segment, stream_recv_segment, open_stream,
           close_stream, accept_segment; first [by apply bind_err|by rewrite Hst]).
Qed.

(** [read] never spins: at any instant the loop ends within two rounds (a ping is sent at
    most once); and when it waits, it waits for [Readable] with a timeout of at most
    the time left until the next ping; the timeout is 0, which [timeout] takes for no
    timeout, exactly when the ping is due at this instant. *)
Theorem read_never_spins {A C} `{!Quiche A C} (now : N) (len : nat) (s : QuicConnState C) :
  let '(s', r) := read_loop 2 now len s in
  r ≠ Ok Continue ∧
  ∀ e t, r = Ok (WaitFor e t) → e = Readable (scid s') ∧
    ∃ d, t = Some d ∧ d ≤ ping_timeout (state s') - (now - send_ack_eliciting_instant (state s')) ∧
      (d = 0 ↔ now - send_ack_eliciting_instant (state s') = ping_timeout (state s')).
Proof.
  destruct (read_loop 2 now len s) as [s' r] eqn:Hl. simpl in Hl.
  pose proof (read_segment_ends now len s) as H1.
  unfold mbind, sm_bind, mret, sm_ret in Hl. destruct (read_segment now len s) as [s1 [[x| |e t]|e|]];
    simplify_eq/=; try (split; [done|by intros ? ? [=]]); [|split; [done|by intros ? ? [= <- <-]]].
  pose proof (read_segment_ends now len s1) as H2.
  destruct (read_segment now len s1) as [s2 [[x| |e t]|e|]];
    simplify_eq/=; try (split; [done|by intros ? ? [=]]); [|split; [done|by intros ? ? [= <- <-]]].
  lia.
Qed.

(** Closing a stream.  On a live connection, [close_stream] of a stream that has sent
    data queues it and cancels its reader and its writer.  The next [read] then sends the fin of
    every queued stream once, in order: those that quiche defers ([Done]) stay queued in
    order, all others are half closed and their tasks cancelled; no stream is lost.
    From then on, [stream_send] and [stream_recv] on a half-closed stream fail with
    [BrokenPipe] and change nothing. *)
Theorem close_stream_sends_fin {A C} `{!Quiche A C} (now id : N) (s : QuicConnState C) :
  conn_dead (quiche_conn (state s)) = false →
  (id ∉ register_outgoing_stream_ids (state s) →
     ∃ m, close_stream id s =
       (with_mediator (λ _, m) (with_state (λ r, set_dropping (dropping_stream_queue r ++ [id]) r) s), Ok ()) ∧
     (∀ e w, e = StreamReadable (scid s) id ∨ e = StreamWritable (scid s) id →
        wakers (mediator s) !! e = Some w → wakers m !! e = None ∧ Woke (waker w) ∈ log m)) ∧
  (let '(c, closed, retry) := send_fins (quiche_conn (state s)) (dropping_stream_queue (state s)) in
   let '(s', r) := handle_dropping_streams now s in
   r = Ok () ∧ quiche_conn (state s') = c ∧ dropping_stream_queue (state s') = retry ∧
   dropping_stream_queue (state s) ≡ₚ closed ++ retry ∧
   mediator s' = foldl (λ m id, cancel_stream s id m) (mediator s) closed ∧
   ∀ i, is_Some (half_closed_streams (state s') !! i) ↔
        i ∈ closed ∨ is_Some (half_closed_streams (state s) !! i)) ∧
  (is_Some (half_closed_streams (state s) !! id) →
     (∀ buf fin, stream_send_segment id buf fin s = (s, Err BrokenPipe)) ∧
     (∀ len, stream_recv_segment id len s = (s, Err BrokenPipe))).
Proof.
  intros Hd. split_and!.
  - intros Hid. unfold close_stream, notify_readable, get_state, set_state, notify_list, notify.
    rewrite (bind_known _ _ _ _ _ (status_alive s Hd)). unfold mbind, sm_bind. simpl.
    rewrite decide_False by done. simpl. rewrite status_alive by done. simpl. eexists. split; [done|].
    intros e w He Hw. simpl. rewrite !notify_one_log, !notify_one_wakers, !elem_of_app.
    rewrite (lookup_delete_ne _ (StreamReadable (scid s) id) (StreamWritable (scid s) id)) by done.
    destruct He as [-> | ->]; rewrite Hw; simpl;
      (split; [|set_solver]); rewrite !lookup_delete_None; auto.
  - unfold handle_dropping_streams, get_state, set_state, mbind, sm_bind. simpl.
    pose proof (drop_streams_spec now (dropping_stream_queue (state s)) []
      (with_state (set_dropping []) s)) as Hdrop.
    pose proof (send_fins_perm (quiche_conn (state s)) (dropping_stream_queue (state s))) as Hperm.
    simpl in Hdrop. destruct (send_fins _ _) as [[c closed] retry]. rewrite Hdrop. simpl.
    split_and!; try done. intros i. apply half_closed_after.
  - intros Hh. split; intros.
    + unfold stream_send_segment. rewrite (bind_known _ _ _ _ _ (status_alive s Hd)).
      apply bind_err. by apply stream_status_closed.
    + unfold stream_recv_segment. rewrite (bind_known _ _ _ _ _ (status_alive s Hd)).
      apply bind_err. by apply stream_status_closed.
Qed.

(** What an incoming packet wakes.  When [write] succeeds on a packet after which
    quiche reports a readable stream, the task that waits to read this stream is woken with
    [On], and besides it only a task in [accept]; without a readable stream, the task
    that waits to write the next writable stream; every other waiting task stays asleep,
    even if the same packet made more streams readable or writable: each of the
    two loops returns in its first round. *)
Theorem write_wakes_one_stream {A C} `{!Quiche A C} (buf : list byte) (info : RecvInfo A)
    (s s' : QuicConnState C) (n : nat) :
  write buf info s = (s', Ok n) →
  match stream_readable_next (qc_recv (quiche_conn (state s)) buf info).1 with
  | (_, Some id) =>
      notifies (mediator s) (mediator s') (StreamReadable (scid s) id) (Accept (scid s))
  | (c, None) =>
      match stream_writable_next c with
      | (_, Some id) =>
          notifies (mediator s) (mediator s') (StreamWritable (scid s) id)
            (StreamWritable (scid s) id)
      | (_, None) => mediator s' = mediator s
      end
  end.
Proof. apply write_notifies. Qed.

(** The reads of a half-closed stream, without fuel. *)
Inductive drains {A C} `{!Quiche A C} (id : N) (len : nat) : C → C → bool → Prop :=
| drains_more c c1 c2 d b :
    qc_stream_recv c id len = (c1, inr (d, false)) → drains id len c1 c2 b → drains id len c c2 b
| drains_fin c c1 d : qc_stream_recv c id len = (c1, inr (d, true)) → drains id len c c1 true
| drains_done c c1 : qc_stream_recv c id len = (c1, inl Done) → drains id len c c1 false
| drains_err c c1 e : qc_stream_recv c id len = (c1, inl e) → e ≠ Done → drains id len c c1 true.

(** Draining a half-closed stream ends: when quiche runs out of data ([unread] bounds
    the reads that return data), the loop stops exactly at the first fin or error
    (the stream is forgotten) or at [Done] (it stays half closed), and its outcome is unique. *)
Theorem half_closed_drain_ends {A C} `{!Quiche A C} (id : N) (len : nat) (c : C) :
  (∀ c c1 d, qc_stream_recv c id len = (c1, inr (d, false)) → (unread c1 id < unread c id)%nat) →
  drains id len c (drain_stream (S (unread c id)) id len c).1
    (drain_stream (S (unread c id)) id len c).2 ∧
  ∀ c' b, drains id len c c' b → drain_stream (S (unread c id)) id len c = (c', b).
Proof.
  intros Hlaw.
  assert (∀ n c, (unread c id < n)%nat →
    drains id len c (drain_stream n id len c).1 (drain_stream n id len c).2) as Hdr.
  { induction n as [|n IH]; intros c0 Hn; [lia|]. simpl.
    destruct (qc_stream_recv c0 id len) as [c1 [e|[d []]]] eqn:Hr.
    - destruct (decide (e = Done)) as [->|Hne]; [by apply drains_done|].
      destruct e; try done; simpl; by eapply drains_err.
    - by eapply drains_fin.
    - eapply drains_more; [done|]. apply IH. apply Hlaw in Hr. lia. }
  assert (∀ c c1 b1, drains id len c c1 b1 → ∀ c2 b2, drains id len c c2 b2 → (c1, b1) = (c2, b2)) as Hdet.
  { intros c0 c1 b1 H1. induction H1 as [? ? ? ? ? E1 ? IH|? ? ? E1|? ? E1|? ? ? E1 ?];
      intros c2' b2 H2; inv H2 as [? ? ? ? ? E2|? ? ? E2|? ? E2|? ? ? E2 ?];
      rewrite E1 in E2; simplify_eq; try done; eauto. }
  split; [apply Hdr; lia|]. intros c' b Hd. specialize (Hdr (S (unread c id)) c ltac:(lia)).
  destruct (drain_stream (S (unread c id)) id len c) as [c2 b2]. by eapply Hdet.
Qed.

(** C31. No wake-up is lost between [stream_recv] and [write]: when [stream_recv] of [task]
    waits, it waits for its stream, and the task is registered before the lock of the state is
    released; a later packet for which quiche reports the stream wakes the task, whose
    wait then answers [Ok], and [stream_recv] tries again. *)
Theorem stream_recv_is_woken {A C} `{!Quiche A C} (guard task len n : nat) (id : N)
    (buf : list byte) (info : RecvInfo A) (s s1 s2 : QuicConnState C) (e : QuicConnStateEvent)
    (t : option N) :
  run_segment guard task (stream_recv_segment id len) s = (s1, Ok (WaitFor e t)) →
  write buf info s1 = (s2, Ok n) →
  (stream_readable_next (qc_recv (quiche_conn (state s1)) buf info).1).2 = Some id →
  e = StreamReadable (scid s1) id ∧ t = None ∧
  ∃ s0 f, stream_recv_segment id len s = (s0, Ok (WaitFor e t)) ∧
    wait_poll (mediator s0) e guard task = (mediator s1, f, Pending) ∧
    log (mediator s1) = log (mediator s0) ++ [Registered e task; Unlocked guard] ∧
    Woke task ∈ log (mediator s2) ∧
    poll (mediator s2) f task = (mediator s2, f, Ready (inr ())) ∧
    resume (R:=nat) (inr ()) s2 = (s2, Ok Continue).
Proof.
  intros Hrun Hwr Hnext. unfold run_segment in Hrun.
  pose proof (stream_recv_wait_event id len s) as Hev.
  destruct (stream_recv_segment id len s) as [s0 [[r| |e0 t0]|err|]] eqn:Hs; simplify_eq.
  destruct Hev as [He ->]. simpl in *. split_and!; [done|done|].
  eexists s0, _. split; [done|]. split; [apply wait_poll_eq|].
  split; [done|].
  pose proof (write_notifies buf info _ s2 n Hwr) as Hn.
  cbn [mediator state scid with_mediator] in Hn. subst e.
  destruct (stream_readable_next _) as [c [id'|]]; [|done]. simpl in Hnext. simplify_eq.
  destruct Hn as [Hn _]. destruct (Hn {| waker := task; reason := next_cell (mediator s0) |})
    as (H1&_&H2); [apply lookup_insert_eq|].
  split; [done|]. split; [|done]. by apply (poll_answer _ _ _ Reason.On).
Qed.

(** ** Witnesses: a connection that takes every byte of a packet for a readable stream *)
Record DemoConn := { dead : bool; readable : list N; unsent : nat }.

Definition set_readable (l : list N) (c : DemoConn) : DemoConn :=
  {| dead := dead c; readable := l; unsent := unsent c |}.

#[export] Instance DemoQuiche : Quiche nat DemoConn := {
  qc_is_server c := true;
  source_id c := [x01];
  destination_id c := [x02];
  qc_is_closed c := dead c;
  qc_is_draining c := false;
  qc_is_timed_out c := false;
  qc_is_established c := true;
  qc_readable c := readable c;
  stream_readable_next c :=
    match readable c with [] => (c, None) | id :: l => (set_readable l c, Some id) end;
  stream_writable_next c := (c, None);
  qc_send c len := (c, inl Done);
  qc_recv c buf _ := (set_readable (readable c ++ (Byte.to_N <$> buf)) c, inr (length buf));
  qc_stream_send c id buf fin := (c, if decide (id = 8) then inl Done else inr (length buf));
  qc_stream_recv c id len :=
    match unsent c with
    | 0%nat => (c, inl Done)
    | S n => ({| dead := dead c; readable := readable c; unsent := n |}, inr ([x00], false))
    end;
  qc_stream_shutdown c _ _ := (c, inr ());
  qc_close c _ _ _ := ({| dead := true; readable := readable c; unsent := unsent c |}, inr ());
  qc_stream_finished c _ := false;
  send_ack_eliciting c := (c, inr ());
  qc_timeout c _ := None;
  qc_timeout_instant c := None;
  qc_on_timeout c _ := c;
  send_quantum c := 1350%nat;
  qc_scids_left c := 0%nat;
  qc_peer_streams_left_bidi c := 9;
  initial_max_streams_bidi c := Some 9;
  unread c _ := unsent c;
}.

Definition demo_conn : DemoConn := {| dead := false; readable := [2]; unsent := 3 |}.
Definition demo_info : RecvInfo nat := {| recv_from := 1%nat; recv_to := 2%nat |}.
Definition demo0 : QuicConnState DemoConn := QuicConnState_new 0 demo_conn 2000 5.
Definition demo1 : QuicConnState DemoConn :=
  (write [x06] demo_info (write [x04] demo_info demo0).1).1.
Definition demo2 : QuicConnState DemoConn := (accept_segment demo1).1.
Definition demo3 : QuicConnState DemoConn := (open_stream demo2).1.
Definition demo4 : QuicConnState DemoConn := (open_stream demo3).1.

Lemma run_open s0 tr (s s' : QuicConnState DemoConn) id :
  conn_run s0 tr s → open_stream s = (s', Ok id) → conn_run s0 (tr ++ [(false, id)]) s'.
Proof.
  intros Hr Ho. eapply run_step; [done|]. pose proof (cs_open s) as Hs. by rewrite Ho in Hs.
Qed.
Lemma run_accept s0 tr (s s' : QuicConnState DemoConn) id :
  conn_run s0 tr s → accept_segment s = (s', Ok (Return (Some id))) →
  conn_run s0 (tr ++ [(true, id)]) s'.
Proof.
  intros Hr Ho. eapply run_step; [done|]. pose proof (cs_accept s) as Hs. by rewrite Ho in Hs.
Qed.
Lemma run_write s0 tr (s : QuicConnState DemoConn) buf info :
  conn_run s0 tr s → conn_run s0 tr (write buf info s).1.
Proof. intros Hr. rewrite <-(app_nil_r tr). eapply run_step; [done|apply cs_write]. Qed.

Lemma demo_run : conn_run demo0 ([] ++ [(true, 2)] ++ [(false, 5)] ++ [(false, 9)]) demo4.
Proof.
  rewrite !app_assoc. apply (run_open _ _ demo3); [|by vm_compute].
  apply (run_open _ _ demo2); [|by vm_compute]. apply (run_accept _ _ demo1); [|by vm_compute].
  do 2 apply run_write. apply run_refl.
Qed.

Lemma streams_handed_out_once_witness :
  incoming (state demo4) = [4] ∧ NoDup ([2] ++ incoming (state demo4)) ∧ NoDup [5; 9] ∧
  6 ∈ [2] ++ incoming (state (write [x06] demo_info demo4).1).
Proof.
  destruct (streams_handed_out_once 0 2000 5 demo_conn ([] ++ [(true, 2)] ++ [(false, 5)] ++ [(false, 9)]) demo4) as (H1&_&_&H3&_&H2&_);
    [apply NoDup_singleton|done|exact demo_run|].
  split; [by vm_compute|]. split; [exact H1|]. split; [apply H2; by vm_compute|].
  apply (H3 [x06] demo_info (write [x06] demo_info demo4).1 1%nat); vm_compute; [reflexivity|reflexivity|discriminate].
Defined.

Lemma dead_connection_cancels_witness :
  let s := (close (A:=nat) false 0 [] demo4).1 in
  (open_stream s).2 = Err BrokenPipe ∧ (accept_segment s).2 = Ok (Return None).
Proof.
  destruct (dead_connection_cancels (close (A:=nat) false 0 [] demo4).1)
    as (_&_&_&_&H1&H2&_); [reflexivity|]. cbv zeta. rewrite H1, H2. split; reflexivity.
Defined.

(** Stream 8 refuses its fin; stream 4 takes it. *)
Definition closing : QuicConnState DemoConn := (close_stream 4 (close_stream 8 demo4).1).1.

Lemma close_stream_sends_fin_witness :
  dropping_stream_queue (state closing) = [8; 4] ∧
  dropping_stream_queue (state (handle_dropping_streams 7 closing).1) = [8] ∧
  (stream_send_segment 4 [x00] false (handle_dropping_streams 7 closing).1).2 = Err BrokenPipe.
Proof.
  split; [by vm_compute|]. split.
  - destruct (close_stream_sends_fin 7 4 closing) as (_&H&_); [done|].
    assert (send_fins (quiche_conn (state closing)) (dropping_stream_queue (state closing)) =
      (quiche_conn (state closing), [4], [8])) as Hs by (vm_compute; reflexivity).
    rewrite Hs in H. destruct (handle_dropping_streams 7 closing) as [s' r].
    destruct H as (_&_&H&_). exact H.
  - destruct (close_stream_sends_fin 7 4 (handle_dropping_streams 7 closing).1) as (_&_&H); [done|].
    destruct H as [H _]; [by vm_compute; eauto|]. by rewrite H.
Defined.

(** Tasks 11 and 12 wait for the streams 4 and 6. *)
Definition waiting : QuicConnState DemoConn :=
  let s := with_state (set_conn {| dead := false; readable := []; unsent := 0 |}) demo4 in
  let s := (run_segment 1 11 (stream_recv_segment 4 10) s).1 in
  (run_segment 2 12 (stream_recv_segment 6 10) s).1.

Lemma write_wakes_one_stream_witness :
  (∃ w, wakers (mediator waiting) !! StreamReadable [x01] 4 = Some w ∧
        Woke (waker w) ∈ log (mediator (write [x04; x06] demo_info waiting).1)) ∧
  wakers (mediator (write [x04; x06] demo_info waiting).1) !! StreamReadable [x01] 6 =
    wakers (mediator waiting) !! StreamReadable [x01] 6.
Proof.
  pose proof (write_wakes_one_stream [x04; x06] demo_info waiting
    (write [x04; x06] demo_info waiting).1 2) as H.
  destruct H as [H1 H2]; [vm_compute; reflexivity|]. split; [|by apply H2].
  eexists. split; [by vm_compute|]. by apply H1.
Defined.

Lemma half_closed_drain_ends_witness :
  drain_stream (S (unread demo_conn 4)) 4 10 demo_conn =
    ({| dead := false; readable := [2]; unsent := 0 |}, false).
Proof.
  apply (half_closed_drain_ends 4 10 demo_conn).
  - intros c c1 d. simpl. destruct (unsent c) eqn:Hu; intros [= <- <-]. simpl. lia.
  - do 3 (eapply drains_more; [done|]). by apply drains_done.
Defined.

Lemma stream_recv_is_woken_witness :
  Woke 12 ∈ log (mediator (write [x06] demo_info waiting).1).
Proof.
  destruct (stream_recv_is_woken 2 12 10 1 6 [x06] demo_info
    (run_segment 1 11 (stream_recv_segment 4 10)
       (with_state (set_conn {| dead := false; readable := []; unsent := 0 |}) demo4)).1
    waiting (write [x06] demo_info waiting).1 (StreamReadable [x01] 6) None)
    as (_&_&s0&f&_&_&_&H&_); [vm_compute; reflexivity..|exact H].
Defined.
