(* ===== verification/QuicListener.v ===== *)
(** * crates/net/quic/src/state/listener.rs, listener.rs: the QUIC server

    [QuicAcceptor] answers first packets and runs handshakes; [QuicListenerState] routes packets
    to the connections, queues the established ones for [accept], and reads outgoing
    packets from all of them through a batch of futures; [recv_event_loop] is the task
    that feeds it datagrams.  The methods of the listener run here without interference from
    one another, up to their waits. *)

From S2P Require Import Prelude EventMap QuicConn.

Local Open Scope N_scope.

(** ** quiche and ring, as used by a server *)
Record Header := {
  is_initial : bool;
  version : N;
  hdr_dcid : ConnectionId;
  hdr_scid : ConnectionId;
  hdr_token : option (list byte);
}.

Class QuicheServer (A C : Type) := {
  header_from_slice : list byte → QErr + Header;
  version_is_supported : N → bool;
  max_conn_id_len : nat;
  quiche_accept : ConnectionId → ConnectionId → A → A → QErr + C;
  quiche_retry : ConnectionId → ConnectionId → ConnectionId → list byte → N → nat → QErr + list byte;
  quiche_negotiate_version : ConnectionId → ConnectionId → nat → QErr + list byte;
  hmac_sign : list byte → list byte → list byte;
  (** the octets of the IP address *)
  ip_octets : A → list byte;
}.

Section acceptor.
Context {A C : Type} `{!Quiche A C, !QuicheServer A C}.

Record QuicAcceptor := {
  send_ping_interval : N;
  conn_id_seed : list byte;
  pre_established_conns : gmap ConnectionId C;
}.

Definition set_pre (m : gmap ConnectionId C) (a : QuicAcceptor) : QuicAcceptor :=
  {| send_ping_interval := send_ping_interval a; conn_id_seed := conn_id_seed a;
     pre_established_conns := m |}.

(** [key] is the random key of [ring::hmac::Key::generate]. *)
Definition QuicAcceptor_new (ping : N) (key : option (list byte)) : res ErrorKind QuicAcceptor :=
  match key with
  | Some key => Ok {| send_ping_interval := ping; conn_id_seed := key; pre_established_conns := ∅ |}
  | None => Err Other
  end.

(** [out] is the content of the buffer up to [read_size]. *)
Inductive QuicAcceptorHandshake :=
| Unhandled (dcid : ConnectionId)
| HIncoming (conn : C) (ping_timeout : N) (write_size : nat) (out : list byte) (send_info : SendInfo A)
| HInternal (write_size : nat) (out : list byte) (send_info : SendInfo A).

#[local] Notation M := (sm QuicAcceptor ErrorKind).

Definition quiche_result {B} (r : QErr + B) : M B :=
  match r with inl e => fail (into_io_error (QuicheError e)) | inr b => mret b end.

(** [SendInfo { from: recv_info.to, to: recv_info.from, at: Instant::now() }]. *)
Definition reply_info (now : N) (r : RecvInfo A) : SendInfo A :=
  {| send_from := recv_to r; send_to := recv_from r; send_at := now |}.

Definition mint_token (dcid : ConnectionId) (src : A) : list byte :=
  bs "quiche" ++ ip_octets src ++ dcid.

Definition validate_token (token : list byte) (src : A) : res ErrorKind ConnectionId :=
  if decide (length token < 6)%nat then Err Interrupted
  else if decide (take 6 token ≠ bs "quiche") then Err Interrupted
  else
    let token := skipn 6 token in
    let addr := ip_octets src in
    if decide ((length token < length addr)%nat ∨ take (length addr) token ≠ addr) then Err Interrupted
    else Ok (skipn (length addr) token).

Definition retry (now : N) (header : Header) (recv_info : RecvInfo A) (buf_len write_size : nat) :
    M QuicAcceptorHandshake :=
  let token := mint_token (hdr_dcid header) (recv_from recv_info) in
  a ← gets id;
  let new_scid := hmac_sign (conn_id_seed a) (hdr_dcid header) in
  assert_ (bool_decide (max_conn_id_len ≤ length new_scid)%nat);;
  let new_scid := take max_conn_id_len new_scid in
  out ← quiche_result (quiche_retry (hdr_scid header) (hdr_dcid header) new_scid token (version header) buf_len);
  mret (HInternal write_size out (reply_info now recv_info)).

Definition negotiation_version (now : N) (header : Header) (recv_info : RecvInfo A)
    (buf_len write_size : nat) : M QuicAcceptorHandshake :=
  out ← quiche_result (quiche_negotiate_version (hdr_scid header) (hdr_dcid header) buf_len);
  mret (HInternal write_size out (reply_info now recv_info)).

(** [conn.recv], [conn.send], and where the connection goes. *)
Definition feed (now : N) (key : ConnectionId) (c : C) (packet : list byte) (buf_len : nat)
    (recv_info : RecvInfo A) : M QuicAcceptorHandshake :=
  let '(c, r) := qc_recv c packet recv_info in
  write_size ← quiche_result r;
  let '(c, r) := qc_send c buf_len in
  x ← match r with
      | inr x => mret x
      | inl Done => mret ([], reply_info now recv_info)
      | inl e => fail (into_io_error (QuicheError e))
      end;
  if qc_is_established c then
    a ← gets id;
    mret (HIncoming c (send_ping_interval a) write_size x.1 x.2)
  else
    modify (λ a, set_pre (<[key := c]> (pre_established_conns a)) a);;
    mret (HInternal write_size x.1 x.2).

(** [packet] is [buf\[..write_size\]]. *)
Definition client_hello (now : N) (header : Header) (packet : list byte) (buf_len : nat)
    (recv_info : RecvInfo A) : M QuicAcceptorHandshake :=
  if negb (version_is_supported (version header)) then
    negotiation_version now header recv_info buf_len (length packet)
  else
    match hdr_token header with
    | None => panic
    | Some [] => retry now header recv_info buf_len (length packet)
    | Some token =>
        odcid ← lift (validate_token token (recv_from recv_info));
        let scid := hdr_dcid header in
        if decide (max_conn_id_len ≠ length scid) then fail Interrupted
        else
          c ← quiche_result (quiche_accept scid odcid (recv_to recv_info) (recv_from recv_info));
          feed now scid c packet buf_len recv_info
    end.

Definition handshake (now : N) (buf : list byte) (write_size : nat) (recv_info : RecvInfo A) :
    M QuicAcceptorHandshake :=
  assert_ (bool_decide (write_size ≤ length buf)%nat);;
  let packet := take write_size buf in
  header ← quiche_result (header_from_slice packet);
  a ← gets id;
  match pre_established_conns a !! hdr_dcid header with
  | Some c =>
      modify (λ a, set_pre (delete (hdr_dcid header) (pre_established_conns a)) a);;
      feed now (hdr_dcid header) c packet (length buf) recv_info
  | None =>
      if is_initial header then client_hello now header packet (length buf) recv_info
      else mret (Unhandled (hdr_dcid header))
  end.
End acceptor.
Arguments QuicAcceptor : clear implicits.
Arguments QuicAcceptorHandshake : clear implicits.

(** ** [QuicListenerState] *)
Section listener.
Context {A C : Type} `{!Quiche A C, !QuicheServer A C}.

(** A connection is shared by its users: [conns], [incoming] and [conns_read] hold pointers
    into [heap]; [conns_read] are the connections with a future in the batch. *)
Record QuicListenerState := {
  closed : bool;
  acceptor : QuicAcceptor C;
  heap : gmap nat (QuicConnState C);
  conns : gmap ConnectionId nat;
  listener_incoming : option (list nat);
  listener_mediator : World ();
  conns_read : list nat;
  conns_read_closed : bool;
  max_datagram_size : nat;
}.

Definition QuicListenerState_new (ping : N) (key : option (list byte)) (mtu : nat) :
    res ErrorKind QuicListenerState :=
  acceptor ← QuicAcceptor_new ping key;
  mret {| closed := false; acceptor := acceptor; heap := ∅; conns := ∅;
          listener_incoming := Some []; listener_mediator := EventMap_default;
          conns_read := []; conns_read_closed := false; max_datagram_size := mtu |}.

Inductive QuicListenerWriteResult :=
| WriteSize (n : nat)
| LInternal (write_size : nat) (out : list byte) (send_info : SendInfo A)
| LIncoming (conn : nat) (write_size : nat) (out : list byte) (send_info : SendInfo A).

#[local] Notation M := (sm QuicListenerState ErrorKind).

Definition set_acceptor (a : QuicAcceptor C) (s : QuicListenerState) : QuicListenerState :=
  {| closed := closed s; acceptor := a; heap := heap s; conns := conns s;
     listener_incoming := listener_incoming s; listener_mediator := listener_mediator s;
     conns_read := conns_read s; conns_read_closed := conns_read_closed s;
     max_datagram_size := max_datagram_size s |}.
Definition set_heap (h : gmap nat (QuicConnState C)) (s : QuicListenerState) : QuicListenerState :=
  {| closed := closed s; acceptor := acceptor s; heap := h; conns := conns s;
     listener_incoming := listener_incoming s; listener_mediator := listener_mediator s;
     conns_read := conns_read s; conns_read_closed := conns_read_closed s;
     max_datagram_size := max_datagram_size s |}.
Definition set_conns (m : gmap ConnectionId nat) (s : QuicListenerState) : QuicListenerState :=
  {| closed := closed s; acceptor := acceptor s; heap := heap s; conns := m;
     listener_incoming := listener_incoming s; listener_mediator := listener_mediator s;
     conns_read := conns_read s; conns_read_closed := conns_read_closed s;
     max_datagram_size := max_datagram_size s |}.
Definition set_listener_incoming (q : option (list nat)) (s : QuicListenerState) : QuicListenerState :=
  {| closed := closed s; acceptor := acceptor s; heap := heap s; conns := conns s;
     listener_incoming := q; listener_mediator := listener_mediator s;
     conns_read := conns_read s; conns_read_closed := conns_read_closed s;
     max_datagram_size := max_datagram_size s |}.
Definition set_listener_mediator (m : World ()) (s : QuicListenerState) : QuicListenerState :=
  {| closed := closed s; acceptor := acceptor s; heap := heap s; conns := conns s;
     listener_incoming := listener_incoming s; listener_mediator := m;
     conns_read := conns_read s; conns_read_closed := conns_read_closed s;
     max_datagram_size := max_datagram_size s |}.
Definition set_conns_read (l : list nat) (s : QuicListenerState) : QuicListenerState :=
  {| closed := closed s; acceptor := acceptor s; heap := heap s; conns := conns s;
     listener_incoming := listener_incoming s; listener_mediator := listener_mediator s;
     conns_read := l; conns_read_closed := conns_read_closed s;
     max_datagram_size := max_datagram_size s |}.
Definition set_closed (b batch : bool) (s : QuicListenerState) : QuicListenerState :=
  {| closed := b; acceptor := acceptor s; heap := heap s; conns := conns s;
     listener_incoming := listener_incoming s; listener_mediator := listener_mediator s;
     conns_read := conns_read s; conns_read_closed := batch;
     max_datagram_size := max_datagram_size s |}.

Definition handle_listener_statuts : M () :=
  c ← gets closed; if (c : bool) then fail BrokenPipe else mret ().

Definition run_acceptor {B} (m : sm (QuicAcceptor C) ErrorKind B) : M B := λ s,
  let '(a, r) := m (acceptor s) in (set_acceptor a s, r).

(** A new connection in the heap. *)
Definition alloc (c : QuicConnState C) : M nat := λ s,
  let p := fresh (dom (heap s)) in (set_heap (<[p := c]> (heap s)) s, Ok p).

(** A method of the connection at [p]; its error is a value. *)
Definition on_conn {B} (p : nat) (m : sm (QuicConnState C) ErrorKind B) : M (res ErrorKind B) := λ s,
  match heap s !! p with
  | Some c => let '(c, r) := m c in (set_heap (<[p := c]> (heap s)) s, Ok r)
  | None => (s, Panic)
  end.

Definition batch_read (p : nat) : M () := modify (λ s, set_conns_read (conns_read s ++ [p]) s).

Definition notify_incoming : M () :=
  modify (λ s, set_listener_mediator (notify_one (listener_mediator s) () Reason.On).2 s).

Definition listener_write (now : N) (buf : list byte) (write_size : nat) (recv_info : RecvInfo A) :
    M QuicListenerWriteResult :=
  handle_listener_statuts;;
  h ← run_acceptor (handshake now buf write_size recv_info);
  match h with
  | Unhandled dcid =>
      m ← gets conns;
      match m !! dcid with
      | Some p =>
          r ← on_conn p (write (take write_size buf) recv_info);
          match r with
          | Ok _ => mret ()
          | Err _ => modify (λ s, set_conns (delete dcid (conns s)) s)
          | Panic => panic
          end;;
          mret (WriteSize write_size)
      | None => mret (WriteSize write_size)
      end
  | HIncoming conn ping_timeout write_size out send_info =>
      p ← alloc (QuicConnState_new now conn ping_timeout 5);
      modify (λ s, set_conns (<[source_id conn := p]> (conns s)) s);;
      q ← gets listener_incoming;
      match q with
      | None => fail BrokenPipe
      | Some q =>
          modify (set_listener_incoming (Some (q ++ [p])));;
          notify_incoming;;
          batch_read p;;
          mret (LIncoming p write_size out send_info)
      end
  | HInternal write_size out send_info => mret (LInternal write_size out send_info)
  end.

Definition listener_close : M () :=
  c ← gets closed;
  if (c : bool) then modify (set_closed true true)
  else
    b ← gets conns_read_closed;
    modify (set_closed true b);;
    modify (set_listener_incoming None);;
    notify_incoming.

(** [accept], up to a [return] or the wait; [None] is a wait for [Incoming]. *)
Definition listener_accept : M (option (option nat)) :=
  q ← gets listener_incoming;
  match q with
  | Some (p :: q) => modify (set_listener_incoming (Some q));; mret (Some (Some p))
  | Some [] => mret None
  | None => mret (Some None)
  end.

(** The wait, by [task] that holds the lock [guard] of the queue. *)
Definition accept_wait (guard task : nat) : M (option (option nat)) := λ s,
  match listener_accept s with
  | (s, Ok None) =>
      (set_listener_mediator (wait_poll (listener_mediator s) () guard task).1.1 s, Ok None)
  | r => r
  end.

(** What the batch gives to the reader: the outcome of the future of [p], or that the
    batch is closed. *)
Inductive delivery :=
| Delivered (p : nat) (outcome : res ErrorKind (list byte * SendInfo A))
| BatchClosed.

(** One round of the loop of [read]; [None] is [continue]. *)
Definition listener_read (d : delivery) : M (option (list byte * SendInfo A)) :=
  match d with
  | BatchClosed => handle_listener_statuts;; mret None
  | Delivered p outcome =>
      modify (λ s, set_conns_read (remove_one p (conns_read s)) s);;
      match outcome with
      | Err _ =>
          handle_listener_statuts;;
          c ← gets (λ s, heap s !! p);
          match c with
          | Some c => modify (λ s, set_conns (delete (scid c) (conns s)) s);; mret None
          | None => panic
          end
      | Ok x => handle_listener_statuts;; batch_read p;; mret (Some x)
      | Panic => panic
      end
  end.

(** [read] on the deliveries that come while it runs; [None] is that it still waits. *)
Fixpoint listener_read_loop (ds : list delivery) : M (option (list byte * SendInfo A)) :=
  match ds with
  | [] => mret None
  | d :: ds =>
      x ← listener_read d;
      match x with Some x => mret (Some x) | None => listener_read_loop ds end
  end.
Definition listener_read_all (ds : list delivery) : M (option (list byte * SendInfo A)) :=
  handle_listener_statuts;; listener_read_loop ds.

(** *** listener.rs: the two tasks and the socket of [QuicListener] *)

(** A datagram in the buffer, with its length and its path. *)
Record datagram := { buffer : list byte; recv_size : nat; path : RecvInfo A }.

(** One round of [run_recv_event_loop]: [recv] and [send] are the answers of [recv_from]
    and [send_to_on_path]; the result is what it sends. *)
Definition recv_round (now : N) (recv : res ErrorKind datagram)
    (send : list byte → SendInfo A → res ErrorKind nat) : M (list (list byte * SendInfo A)) :=
  d ← lift recv;
  write_result ← listener_write now (buffer d) (recv_size d) (path d);
  match write_result with
  | LInternal _ out send_info =>
      if decide (0 < length out)%nat then
        lift (send out send_info);; mret [(out, send_info)]
      else mret []
  | _ => mret []
  end.

(** The loop on the datagrams that come: what it has sent, and its error if it has
    ended. *)
Fixpoint run_recv_event_loop (send : list byte → SendInfo A → res ErrorKind nat)
    (recvs : list (N * res ErrorKind datagram)) (s : QuicListenerState) :
    QuicListenerState * list (list byte * SendInfo A) * option (res ErrorKind ()) :=
  match recvs with
  | [] => (s, [], None)
  | (now, recv) :: recvs =>
      match recv_round now recv send s with
      | (s, Ok sent) =>
          let '(s, sent', e) := run_recv_event_loop send recvs s in (s, sent ++ sent', e)
      | (s, Err e) => (s, [], Some (Err e))
      | (s, Panic) => (s, [], Some Panic)
      end
  end.

(** One round of [run_send_event_loop]. *)
Definition send_round (ds : list delivery) (send : list byte → SendInfo A → res ErrorKind nat) :
    M (option (list byte * SendInfo A)) :=
  x ← listener_read_all ds;
  match x with
  | Some (buf, send_info) => lift (send buf send_info);; mret (Some (buf, send_info))
  | None => mret None
  end.

Record QuicListener := { listener_state : QuicListenerState; laddrs : list A }.

(** [udp] are the local addresses of the socket group that [UdpGroup::bind] gives. *)
Definition QuicListener_bind (udp : res ErrorKind (list A)) (ping : N) (key : option (list byte))
    (mtu : nat) : res ErrorKind QuicListener :=
  laddrs ← udp;
  state ← QuicListenerState_new ping key mtu;
  mret {| listener_state := state; laddrs := laddrs |}.
Definition local_addrs (l : QuicListener) : list A := laddrs l.
End listener.
Arguments QuicListenerState : clear implicits.
Arguments QuicListenerWriteResult : clear implicits.
Arguments delivery : clear implicits.
Arguments datagram : clear implicits.
Arguments QuicListener : clear implicits.

(** ** The acceptor *)
Section acceptor_facts.
Context {A C : Type} `{!Quiche A C, !QuicheServer A C}.
Implicit Types (a : QuicAcceptor C).

(** An Initial for an unknown id. *)
Lemma handshake_hello now buf n info a header :
  (n ≤ length buf)%nat → header_from_slice (take n buf) = inr header → is_initial header = true →
  pre_established_conns a !! hdr_dcid header = None →
  handshake now buf n info a = client_hello now header (take n buf) (length buf) info a.
Proof.
  intros Hn Hh Hin Hpre. unfold handshake, assert_, quiche_result. rewrite bool_decide_eq_true_2 by done.
  rewrite Hh. unfold mbind, sm_bind, gets, mret, sm_ret. simpl. by rewrite Hpre, Hin.
Qed.

Lemma validate_token_mint (token : list byte) (src : A) (odcid : ConnectionId) :
  validate_token token src = Ok odcid ↔ token = mint_token odcid src.
Proof.
  unfold validate_token, mint_token. split.
  - repeat (case_decide; try done). intros [= <-].
    rewrite <-(firstn_skipn 6 token) at 1. f_equal; [done|].
    rewrite <-(firstn_skipn (length (ip_octets src)) (skipn 6 token)) at 1. f_equal.
    apply dec_stable. tauto.
  - intros ->. rewrite !length_app.
    change (length (bs "quiche")) with 6%nat. rewrite decide_False by lia.
    rewrite (take_app_length' _ _ 6), (drop_app_length' _ _ 6) by done.
    rewrite decide_False by (by intros []).
    rewrite take_app_length, drop_app_length, length_app, decide_False; [done|].
    intros [?|[]]; [lia|done].
Qed.

Lemma feed_spec now key (c : C) packet len (info : RecvInfo A) a a' r :
  feed now key c packet len info a = (a', r) →
  (∃ c' n out si, a' = set_pre (<[key := c']> (pre_established_conns a)) a ∧
     qc_is_established c' = false ∧ r = Ok (HInternal n out si)) ∨
  (a' = a ∧ ∃ e, r = Err e) ∨
  (a' = a ∧ ∃ c' n out si, qc_is_established c' = true ∧
     r = Ok (HIncoming c' (send_ping_interval a) n out si)).
Proof.
  unfold feed, quiche_result. destruct (qc_recv c packet info) as [c1 [e|n]]; simpl.
  { intros [= <- <-]. eauto. }
  unfold mbind at 1, sm_bind at 1, mret, sm_ret. simpl.
  destruct (qc_send c1 len) as [c2 [e|[out si]]]; unfold mbind, sm_bind; simpl.
  - destruct e; simpl; try (intros [= <- <-]; eauto; fail).
    destruct (qc_is_established c2) eqn:He; intros [= <- <-]; naive_solver.
  - destruct (qc_is_established c2) eqn:He; intros [= <- <-]; naive_solver.
Qed.

(** What the acceptor may do to its connections when it looks at a packet for [key]. *)
Inductive acceptor_effect (key : ConnectionId) a :
    QuicAcceptor C → res ErrorKind (QuicAcceptorHandshake A C) → Prop :=
| ae_none r :
    pre_established_conns a !! key = None → (∀ c t n out si, r ≠ Ok (HIncoming c t n out si)) → acceptor_effect key a a r
| ae_drop e :
    acceptor_effect key a (set_pre (delete key (pre_established_conns a)) a) (Err e)
| ae_keep c n out si :
    qc_is_established c = false →
    acceptor_effect key a (set_pre (<[key := c]> (pre_established_conns a)) a)
      (Ok (HInternal n out si))
| ae_incoming c n out si :
    qc_is_established c = true →
    acceptor_effect key a (set_pre (delete key (pre_established_conns a)) a)
      (Ok (HIncoming c (send_ping_interval a) n out si)).

Lemma acceptor_effect_spec key a a' r :
  acceptor_effect key a a' r →
  (∀ k c, pre_established_conns a !! k = Some c → qc_is_established c = false) →
  (∀ k c, pre_established_conns a' !! k = Some c → qc_is_established c = false) ∧
  (∀ k, k ≠ key → pre_established_conns a' !! k = pre_established_conns a !! k) ∧
  (∀ c t m out si, r = Ok (HIncoming c t m out si) →
     qc_is_established c = true ∧ pre_established_conns a' !! key = None) ∧
  (∀ e, r = Err e → pre_established_conns a' !! key = None).
Proof.
  intros He Hpre. destruct He as [r Hk Hr|e|c n out si Hc|c n out si Hc]; simpl; split_and!;
    try done; try congruence; intros k.
  - intros c [? ?]%lookup_delete_Some. eauto.
  - intros. by rewrite lookup_delete_ne.
  - intros _. apply lookup_delete_eq.
  - intros c2 [[<- <-]|[? ?]]%lookup_insert_Some; eauto.
  - intros. by rewrite lookup_insert_ne.
  - intros c2 [? ?]%lookup_delete_Some. eauto.
  - intros. by rewrite lookup_delete_ne.
  - intros. simplify_eq. by rewrite lookup_delete_eq.
Qed.

Lemma handshake_known now buf n (info : RecvInfo A) a header c :
  (n ≤ length buf)%nat → header_from_slice (take n buf) = inr header →
  pre_established_conns a !! hdr_dcid header = Some c →
  acceptor_effect (hdr_dcid header) a (handshake now buf n info a).1
    (handshake now buf n info a).2.
Proof.
  intros Hn Hh Hc. unfold handshake, assert_, quiche_result. rewrite bool_decide_eq_true_2 by done.
  rewrite Hh. unfold mbind, sm_bind, mret, sm_ret. simpl. rewrite Hc. simpl.
  destruct (feed _ _ _ _ _ _ _) as [a' r] eqn:Hf.
  apply feed_spec in Hf as [(c'&n'&out&si&->&He&->)|[(->&e&->)|(->&c'&n'&out&si&He&->)]]; simpl.
  - unfold set_pre at 1. simpl. rewrite insert_delete_eq. by apply ae_keep.
  - apply ae_drop.
  - by apply ae_incoming.
Qed.

(** The client of a packet has proved its address, and quiche has made a connection. *)
Definition validated (header : Header) (info : RecvInfo A) (c : C) : Prop :=
  is_initial header = true ∧ version_is_supported (version header) = true ∧
  length (hdr_dcid header) = max_conn_id_len ∧
  ∃ odcid, hdr_token header = Some (mint_token odcid (recv_from info)) ∧
    quiche_accept (hdr_dcid header) odcid (recv_to info) (recv_from info) = inr c.

Lemma client_hello_spec now header packet len (info : RecvInfo A) a a' r :
  is_initial header = true →
  client_hello now header packet len info a = (a', r) →
  (a' = a ∧ ∀ c t n out si, r ≠ Ok (HIncoming c t n out si)) ∨
  (∃ c, validated header info c ∧ feed now (hdr_dcid header) c packet len info a = (a', r)).
Proof.
  intros Hi. unfold client_hello. destruct (version_is_supported _) eqn:Hv; simpl.
  2: { unfold negotiation_version, quiche_result. destruct (quiche_negotiate_version _ _ _);
       unfold mbind, sm_bind; simpl; intros [= <- <-]; left; naive_solver. }
  destruct (hdr_token header) as [[|b token]|] eqn:Ht.
  - unfold retry, quiche_result, mbind, sm_bind, gets. simpl.
    unfold assert_. case_bool_decide; simpl; [|intros [= <- <-]; left; naive_solver].
    destruct (quiche_retry _ _ _ _ _ _); intros [= <- <-]; left; naive_solver.
  - unfold mbind at 1, sm_bind at 1, lift. destruct (validate_token _ _) as [odcid|e|] eqn:Hval;
      [|intros [= <- <-]; left; naive_solver..].
    apply validate_token_mint in Hval. case_decide as Hl; [intros [= <- <-]; left; naive_solver|].
    unfold quiche_result, mbind, sm_bind.
    destruct (quiche_accept _ _ _ _) as [e|c] eqn:Hacc; [intros [= <- <-]; left; naive_solver|].
    simpl. intros Hf. right. exists c. split; [|done].
    split_and!; [done..|]. exists odcid. by rewrite <-Hval.
  - intros [= <- <-]; left; naive_solver.
Qed.

Lemma handshake_new now buf n (info : RecvInfo A) a a' r header :
  (n ≤ length buf)%nat → header_from_slice (take n buf) = inr header →
  pre_established_conns a !! hdr_dcid header = None →
  handshake now buf n info a = (a', r) →
  acceptor_effect (hdr_dcid header) a a' r ∧
  ((a' = a ∧ ∀ c t m out si, r ≠ Ok (HIncoming c t m out si)) ∨ ∃ c, validated header info c).
Proof.
  intros Hn Hh Hc. unfold handshake, assert_, quiche_result. rewrite bool_decide_eq_true_2 by done.
  rewrite Hh. unfold mbind, sm_bind, mret, sm_ret. simpl. rewrite Hc.
  destruct (is_initial header) eqn:Hi;
    [|intros [= <- <-]; split; [by apply ae_none|by left]].
  intros Hr. apply client_hello_spec in Hr as [[-> Hr]|(c&Hv&Hf)]; [|..|done].
  { split; [by apply ae_none|by left]. }
  split; [|eauto].
  apply feed_spec in Hf as [(c'&n'&out&si&->&He&->)|[(->&e&->)|(->&c'&n'&out&si&He&->)]].
  - by apply ae_keep.
  - by apply ae_none.
  - assert (set_pre (delete (hdr_dcid header) (pre_established_conns a)) a = a) as Ha
      by (rewrite delete_id by done; by destruct a).
    rewrite <-Ha at 2. by apply ae_incoming.
Qed.
End acceptor_facts.

(** ** [QuicListenerState] *)
Section listener_facts.
Context {A C : Type} `{!Quiche A C, !QuicheServer A C}.
Implicit Types s : QuicListenerState C.

Inductive label := Made (p : nat) | Accepted (p : nat) | Ended (p : nat).

Definition made (tr : list label) : list nat :=
  omap (λ l, match l with Made p => Some p | _ => None end) tr.
Definition was_accepted (tr : list label) : list nat :=
  omap (λ l, match l with Accepted p => Some p | _ => None end) tr.
Definition ended (tr : list label) : list nat :=
  omap (λ l, match l with Ended p => Some p | _ => None end) tr.

(** What the tasks of the server and the users of its connections do, with
    what it means for the connections: one is made, given to [accept], or read no more. *)
Inductive listener_step : QuicListenerState C → list label → QuicListenerState C → Prop :=
| ls_write s now buf n info :
    listener_step s
      (match (listener_write (A:=A) now buf n info s).2 with Ok (LIncoming p _ _ _) => [Made p] | _ => [] end)
      (listener_write now buf n info s).1
| ls_accept s :
    listener_step s
      (match (listener_accept s).2 with Ok (Some (Some p)) => [Accepted p] | _ => [] end)
      (listener_accept s).1
| ls_read s p (outcome : res ErrorKind (list byte * SendInfo A)) :
    p ∈ conns_read s →
    listener_step s
      (match (listener_read (Delivered p outcome) s).2 with Ok (Some _) => [] | _ => [Ended p] end)
      (listener_read (Delivered p outcome) s).1
| ls_close s : listener_step s [] (listener_close s).1
| ls_conn s p c c' : heap s !! p = Some c → listener_step s [] (set_heap (<[p := c']> (heap s)) s)
| ls_mediator s m : listener_step s [] (set_listener_mediator m s).

Inductive listener_run s0 : list label → QuicListenerState C → Prop :=
| lrun_refl : listener_run s0 [] s0
| lrun_step tr s ls s' :
    listener_run s0 tr s → listener_step s ls s' → listener_run s0 (tr ++ ls) s'.

Record listener_inv (tr : list label) s : Prop := {
  li_nodup : NoDup (made tr);
  li_heap p : p ∈ made tr → is_Some (heap s !! p);
  li_queue q : listener_incoming s = Some q → made tr = was_accepted tr ++ q;
  li_prefix : was_accepted tr `prefix_of` made tr;
  li_open : closed s = false → is_Some (listener_incoming s);
  li_read : conns_read s ++ ended tr ≡ₚ made tr;
  li_conns k p : conns s !! k = Some p → p ∈ made tr;
}.

(** A step that makes, accepts and ends nothing. *)
Lemma listener_inv_same tr s s' :
  listener_inv tr s → (dom (heap s) ⊆ dom (heap s')) →
  (listener_incoming s' = listener_incoming s ∨ listener_incoming s' = None ∧ closed s' = true) →
  (closed s' = false → closed s = false) →
  conns_read s' = conns_read s → (∀ k p, conns s' !! k = Some p → conns s !! k = Some p) →
  listener_inv tr s'.
Proof.
  intros [? Hh Hq ? Ho Hr Hc] Hdom Hi Hcl Hcr Hm. split; try done.
  - intros p Hp. apply elem_of_dom, Hdom, elem_of_dom. eauto.
  - destruct Hi as [-> | [-> _]]; [done|by intros ? [=]].
  - intros H0. destruct Hi as [-> | [_ ?]]; [auto|congruence].
  - by rewrite Hcr.
  - eauto.
Qed.

Lemma app_made tr tr' : made (tr ++ tr') = made tr ++ made tr'.
Proof. apply omap_app. Qed.
Lemma app_was_accepted tr tr' : was_accepted (tr ++ tr') = was_accepted tr ++ was_accepted tr'.
Proof. apply omap_app. Qed.
Lemma app_ended tr tr' : ended (tr ++ tr') = ended tr ++ ended tr'.
Proof. apply omap_app. Qed.

(** [write], in the shape that the invariant needs: it makes a connection, or it changes only the
    state of connections and forgets routes. *)
Lemma listener_write_cases now buf n (info : RecvInfo A) s :
  closed s = true ∧ listener_write now buf n info s = (s, Err BrokenPipe) ∨
  closed s = false ∧
  ((∃ a h m r, listener_write now buf n info s = (set_conns m (set_heap h (set_acceptor a s)), r) ∧
      dom h = dom (heap s) ∧ m ⊆ conns s ∧ ∀ p n out si, r ≠ Ok (LIncoming p n out si)) ∨
   ∃ a c t n' out si, handshake now buf n info (acceptor s) = (a, Ok (HIncoming c t n' out si)) ∧
     listener_write now buf n info s =
       (let p := fresh (dom (heap s)) in
        let s1 := set_conns (<[source_id c := p]> (conns s))
          (set_heap (<[p := QuicConnState_new now c t 5]> (heap s)) (set_acceptor a s)) in
        match listener_incoming s with
        | None => (s1, Err BrokenPipe)
        | Some q =>
            (set_conns_read (conns_read s ++ [p]) (set_listener_mediator
               (notify_one (listener_mediator s) () Reason.On).2
               (set_listener_incoming (Some (q ++ [p])) s1)), Ok (LIncoming p n' out si))
        end)).
Proof.
  unfold listener_write, handle_listener_statuts, mbind, sm_bind, gets. simpl.
  destruct (closed s); [by left|right]. split; [done|]. simpl. unfold run_acceptor.
  destruct (handshake now buf n info (acceptor s)) as [a [[dcid|c t n' out si|n' out si]|e|]]; simpl.
  - left. destruct (conns s !! dcid) as [p|]; [|by eexists a, (heap s), (conns s), _].
    unfold on_conn. simpl. destruct (heap s !! p) as [c|] eqn:Hc;
      [|by eexists a, (heap s), (conns s), _].
    destruct (write _ _ c) as [c' [k|e|]]; simpl.
    + eexists a, (<[p:=c']> (heap s)), (conns s), _. split; [done|].
      by rewrite dom_insert_lookup_L.
    + eexists a, (<[p:=c']> (heap s)), (delete dcid (conns s)), _. split; [done|].
      rewrite dom_insert_lookup_L by done. split_and!; [done|apply delete_subseteq|done].
    + eexists a, (<[p:=c']> (heap s)), (conns s), _. split; [done|].
      by rewrite dom_insert_lookup_L.
  - right. eexists a, c, t, n', out, si. split; [done|].
    by destruct (listener_incoming s).
  - left. by eexists a, (heap s), (conns s), _.
  - left. by eexists a, (heap s), (conns s), _.
  - left. by eexists a, (heap s), (conns s), _.
Qed.

Lemma listener_write_inv tr s now buf n (info : RecvInfo A) :
  listener_inv tr s →
  listener_inv
    (tr ++ match (listener_write now buf n info s).2 with Ok (LIncoming p _ _ _) => [Made p] | _ => [] end)
    (listener_write now buf n info s).1.
Proof.
  intros Hinv. destruct (listener_write_cases now buf n info s) as
    [(_&->)|(Hcl&[(a&h&m&r&->&Hh&Hm&Hr)|(a&c&t&n'&out&si&_&->)])]; simpl.
  - by rewrite app_nil_r.
  - assert (match r with Ok (LIncoming p _ _ _) => [Made p] | _ => [] end = []) as ->
      by (destruct r as [[]| |]; naive_solver).
    rewrite app_nil_r. apply (listener_inv_same _ s); simpl; try done; [by rewrite Hh|eauto|].
    intros k p Hp. by eapply lookup_weaken.
  - destruct Hinv as [Hnd Hh Hq Hp Ho Hr Hc]. destruct (Ho Hcl) as [q Hq']. rewrite Hq'. simpl.
    set (p := fresh (dom (heap s))).
    assert (heap s !! p = None) as Hfresh by (apply not_elem_of_dom, is_fresh).
    assert (p ∉ made tr) as Hnew by (intros [? ?]%Hh; congruence).
    rewrite (Hq q Hq') in *.
    split; simpl; rewrite ?app_made, ?app_was_accepted, ?app_ended; simpl;
      rewrite ?app_nil_r, ?(Hq q Hq').
    + apply NoDup_app; split_and!; [done| |apply NoDup_singleton].
      by intros x Hx ->%list_elem_of_singleton.
    + intros x [Hx| ->%list_elem_of_singleton]%elem_of_app.
      * apply lookup_insert_is_Some'. auto.
      * rewrite lookup_insert_eq. eauto.
    + intros q2 [= <-]. by rewrite app_assoc.
    + by apply prefix_app_r.
    + eauto.
    + rewrite <-Hr. solve_Permutation.
    + intros k x [[<- <-]|[_ Hx]]%lookup_insert_Some; set_solver.
Qed.

Lemma listener_accept_inv tr s :
  listener_inv tr s →
  listener_inv (tr ++ match (listener_accept s).2 with Ok (Some (Some p)) => [Accepted p] | _ => [] end)
    (listener_accept s).1.
Proof.
  intros Hinv. unfold listener_accept, mbind, sm_bind, gets. simpl.
  destruct (listener_incoming s) as [[|p q]|] eqn:Hq'; simpl; rewrite ?app_nil_r; [done| |done].
  destruct Hinv as [Hnd Hh Hq Hp Ho Hr Hc]. specialize (Hq _ Hq').
  split; simpl; rewrite ?app_made, ?app_was_accepted, ?app_ended; simpl; rewrite ?app_nil_r; try done.
  - intros q2 [= <-]. by rewrite Hq, <-app_assoc.
  - rewrite Hq. exists q. by rewrite <-app_assoc.
Qed.

(** [read] takes the delivered future out of the batch, and puts it back exactly when it
    returns the packet. *)
Lemma listener_read_cases p (outcome : res ErrorKind (list byte * SendInfo A)) s :
  ∃ m, m ⊆ conns s ∧
    (((listener_read (Delivered p outcome) s).1 =
        set_conns m (set_conns_read (remove_one p (conns_read s)) s) ∧
      ∀ x, (listener_read (Delivered p outcome) s).2 ≠ Ok (Some x)) ∨
     ∃ x, outcome = Ok x ∧ closed s = false ∧
       listener_read (Delivered p outcome) s =
         (set_conns m (set_conns_read (remove_one p (conns_read s) ++ [p]) s), Ok (Some x))).
Proof.
  unfold listener_read, handle_listener_statuts, batch_read, mbind, sm_bind, modify, gets. simpl.
  destruct outcome as [x|e|]; simpl.
  - destruct (closed s); simpl; eexists (conns s); (split; [done|]); [by left|right; eauto].
  - destruct (closed s); simpl; [eexists (conns s); split; [done|]; by left|].
    destruct (heap s !! p) as [c|]; simpl.
    + exists (delete (scid c) (conns s)). split; [apply delete_subseteq|by left].
    + exists (conns s). split; [done|by left].
  - exists (conns s). split; [done|by left].
Qed.

Lemma listener_read_inv tr s p (outcome : res ErrorKind (list byte * SendInfo A)) :
  listener_inv tr s → p ∈ conns_read s →
  listener_inv
    (tr ++ match (listener_read (Delivered p outcome) s).2 with Ok (Some _) => [] | _ => [Ended p] end)
    (listener_read (Delivered p outcome) s).1.
Proof.
  intros [Hnd Hh Hq Hpre Ho Hr Hc] Hp. apply remove_one_perm in Hp. rewrite Hp in Hr.
  destruct (listener_read_cases p outcome s) as (m&Hm&[[-> Hn]|(x&->&Hcl&->)]).
  - assert (match (listener_read (Delivered p outcome) s).2 with Ok (Some _) => [] | _ => [Ended p] end
      = [Ended p]) as -> by (destruct (listener_read _ s).2 as [[]| |]; naive_solver).
    split; simpl; rewrite ?app_made, ?app_was_accepted, ?app_ended; simpl; rewrite ?app_nil_r; try done.
    + rewrite <-Hr. solve_Permutation.
    + intros k x Hx. apply (Hc k). by eapply lookup_weaken.
  - simpl. rewrite app_nil_r. split; simpl; try done.
    + rewrite <-Hr. solve_Permutation.
    + intros k y Hy. apply (Hc k). by eapply lookup_weaken.
Qed.

Lemma listener_step_inv tr s ls s' :
  listener_inv tr s → listener_step s ls s' → listener_inv (tr ++ ls) s'.
Proof.
  intros Hinv Hs. destruct Hs as [s now buf n info|s|s p o Hp|s|s p c c' Hc|s m].
  - by apply listener_write_inv.
  - by apply listener_accept_inv.
  - by apply listener_read_inv.
  - rewrite app_nil_r. unfold listener_close, mbind, sm_bind, gets. simpl.
    destruct (closed s); (apply (listener_inv_same _ s); simpl; try done; auto).
  - rewrite app_nil_r. apply (listener_inv_same _ s); simpl; try done; [|auto].
    by rewrite dom_insert_lookup by eauto.
  - rewrite app_nil_r. apply (listener_inv_same _ s); simpl; try done. auto.
Qed.

Lemma listener_inv_new ping key mtu s :
  QuicListenerState_new ping key mtu = Ok s → listener_inv [] s.
Proof.
  unfold QuicListenerState_new, QuicAcceptor_new. destruct key as [key|]; [|done]. intros [= <-].
  split; simpl; try done; [apply NoDup_nil_2|set_solver|naive_solver].
Qed.

(** *** The receiving task *)
Lemma run_recv_app (send : list byte → SendInfo A → res ErrorKind nat) rs1 rs2 s s1 sent :
  run_recv_event_loop send rs1 s = (s1, sent, None) →
  run_recv_event_loop send (rs1 ++ rs2) s =
    (let '(s2, sent2, e) := run_recv_event_loop send rs2 s1 in (s2, sent ++ sent2, e)).
Proof.
  revert s sent. induction rs1 as [|[now r] rs1 IH]; intros s sent; simpl.
  { intros [= -> <-]. by destruct (run_recv_event_loop send rs2 s1) as [[]]. }
  destruct (recv_round now r send s) as [s' [out|e|]]; [|done..].
  destruct (run_recv_event_loop send rs1 s') as [[s2 sent2] e] eqn:Hr. intros [= -> <- ->].
  rewrite (IH _ _ Hr). destruct (run_recv_event_loop send rs2 s1) as [[s3 sent3] e3].
  by rewrite app_assoc.
Qed.

Lemma listener_write_garbage now buf n (info : RecvInfo A) s e :
  closed s = false → (n ≤ length buf)%nat → header_from_slice (take n buf) = inl e →
  listener_write now buf n info s = (s, Err (into_io_error (QuicheError e))).
Proof.
  intros Hcl Hn Hh. unfold listener_write, handle_listener_statuts, run_acceptor, handshake,
    assert_, quiche_result, mbind, sm_bind, gets. simpl. rewrite Hcl. simpl.
  rewrite bool_decide_eq_true_2 by done. rewrite Hh. by destruct s.
Qed.
End listener_facts.

(** C28. Whom the server lets in.  A packet without a header is refused and changes nothing.
    Any other packet touches only the half-open connection of its destination id; a
    half-open connection is never an established one, and one that becomes established
    leaves the table when it is given to the listener; if its packet fails, it
    is destroyed.  For an unknown id, a connection is made only for an Initial
    packet of a supported version whose token is the one that [retry] mints for
    the address it comes from, and whose id has the full length. *)
Theorem handshake_admits {A C} `{!Quiche A C, !QuicheServer A C} (now : N) (buf : list byte)
    (n : nat) (info : RecvInfo A) (a a' : QuicAcceptor C)
    (r : res ErrorKind (QuicAcceptorHandshake A C)) :
  (n ≤ length buf)%nat →
  handshake now buf n info a = (a', r) →
  (∀ k c, pre_established_conns a !! k = Some c → qc_is_established c = false) →
  match header_from_slice (take n buf) with
  | inl e => a' = a ∧ r = Err (into_io_error (QuicheError e))
  | inr header =>
      let key := hdr_dcid header in
      (∀ k c, pre_established_conns a' !! k = Some c → qc_is_established c = false) ∧
      (∀ k, k ≠ key → pre_established_conns a' !! k = pre_established_conns a !! k) ∧
      (∀ c t m out si, r = Ok (HIncoming c t m out si) →
         qc_is_established c = true ∧ pre_established_conns a' !! key = None) ∧
      (∀ e, r = Err e → pre_established_conns a' !! key = None) ∧
      (pre_established_conns a !! key = None →
       is_Some (pre_established_conns a' !! key) ∨ (∃ c t m out si, r = Ok (HIncoming c t m out si)) →
       ∃ c, validated header info c)
  end.
Proof.
  intros Hn Hhs Hpre. destruct (header_from_slice (take n buf)) as [e|header] eqn:Hh.
  { revert Hhs. unfold handshake, assert_, quiche_result. rewrite bool_decide_eq_true_2 by done.
    rewrite Hh. by intros [= <- <-]. }
  cbv zeta. destruct (pre_established_conns a !! hdr_dcid header) as [c0|] eqn:Hc0.
  - pose proof (handshake_known now buf n info a header c0 Hn Hh Hc0) as He.
    rewrite Hhs in He. destruct (acceptor_effect_spec _ _ _ _ He Hpre) as (?&?&?&?). done.
  - destruct (handshake_new now buf n info a a' r header Hn Hh Hc0 Hhs) as [He Hv].
    destruct (acceptor_effect_spec _ _ _ _ He Hpre) as (?&?&?&?). split_and!; try done.
    intros _ Hin. destruct Hv as [[-> Hr]|?]; [|done].
    destruct Hin as [[? ?]|(?&?&?&?&?&?)]; [congruence|naive_solver].
Qed.

(** C27. The way in.  A client's first packet, an Initial of a supported version without a token
    and for an unknown id, is answered along the path it came on with the [retry] packet for a
    fresh id of full length and the token minted for its address, and leaves nothing behind.
    When the client comes back, whenever that is and from whichever port of the same address,
    with an Initial that has this token and this id, it is not turned away: the connection
    is accepted for that id and the original one, on the path of the packet, and is given
    the packet. *)
Theorem retry_leads_to_accept {A C} `{!Quiche A C, !QuicheServer A C} (now : N) (buf : list byte)
    (n : nat) (info : RecvInfo A) (a : QuicAcceptor C) (header : Header) :
  (n ≤ length buf)%nat → header_from_slice (take n buf) = inr header →
  is_initial header = true → version_is_supported (version header) = true → hdr_token header = Some [] →
  pre_established_conns a !! hdr_dcid header = None →
  (max_conn_id_len ≤ length (hmac_sign (conn_id_seed a) (hdr_dcid header)))%nat →
  let new_scid := take max_conn_id_len (hmac_sign (conn_id_seed a) (hdr_dcid header)) in
  let token := mint_token (hdr_dcid header) (recv_from info) in
  (∀ out, quiche_retry (hdr_scid header) (hdr_dcid header) new_scid token (version header) (length buf) = inr out →
    handshake now buf n info a = (a, Ok (HInternal n out (reply_info now info)))) ∧
  (∀ now' buf' n' info' a' header' c,
    (n' ≤ length buf')%nat → header_from_slice (take n' buf') = inr header' →
    is_initial header' = true → version_is_supported (version header') = true →
    hdr_token header' = Some token → hdr_dcid header' = new_scid →
    ip_octets (recv_from info') = ip_octets (recv_from info) →
    pre_established_conns a' !! new_scid = None →
    quiche_accept new_scid (hdr_dcid header) (recv_to info') (recv_from info') = inr c →
    handshake now' buf' n' info' a' = feed now' new_scid c (take n' buf') (length buf') info' a').
Proof.
  intros Hn Hh Hin Hv Ht Hpre Hlen new_scid token. split.
  - intros out Hout. rewrite (handshake_hello now buf n info a header) by done.
    unfold client_hello. rewrite Hv, Ht. unfold retry, quiche_result, mbind, sm_bind, gets, assert_. simpl.
    rewrite bool_decide_eq_true_2 by done. fold new_scid token. rewrite length_take_le by done. by rewrite Hout.
  - intros now' buf' n' info' a' header' c Hn' Hh' Hin' Hv' Ht' Hd' Hip Hpre' Hacc.
    rewrite (handshake_hello now' buf' n' info' a' header') by congruence.
    unfold client_hello. rewrite Hv', Ht'.
    assert (∃ b l, token = b :: l) as (b&l&Hbl) by (by do 2 eexists). rewrite Hbl, <-Hbl.
    assert (validate_token token (recv_from info') = Ok (hdr_dcid header)) as Hval.
    { apply validate_token_mint. unfold token, mint_token. by rewrite Hip. }
    unfold mbind, sm_bind, lift. rewrite Hval, Hd'.
    rewrite decide_False by (unfold new_scid; rewrite length_take; lia).
    unfold quiche_result. rewrite Hacc. done.
Qed.

(** C9. The connections of a listener.  Whatever packets, accepts, deliveries of the batch,
    closes and uses of the connections come, in any order: the connections that [write]
    makes are all different; [accept] gives them out once each, in the order in which
    they were made, and until the listener is closed those not yet given out are the
    queue; every connection has exactly one future in the batch that reads it, until its
    read has failed or the listener is closed; and a route leads only to a
    connection that was made. *)
Theorem connections_served_once {A C} `{!Quiche A C, !QuicheServer A C} (ping : N)
    (key : option (list byte)) (mtu : nat) (s0 s : QuicListenerState C) (tr : list label) :
  QuicListenerState_new ping key mtu = Ok s0 →
  listener_run (A:=A) s0 tr s →
  NoDup (made tr) ∧
  was_accepted tr `prefix_of` made tr ∧
  (closed s = false →
     ∃ q, listener_incoming s = Some q ∧ made tr = was_accepted tr ++ q) ∧
  conns_read s ++ ended tr ≡ₚ made tr ∧
  (∀ k p, conns s !! k = Some p → p ∈ made tr ∧ is_Some (heap s !! p)).
Proof.
  intros Hnew Hr. assert (listener_inv tr s) as [Hnd Hh Hq Hp Ho Hrd Hc].
  { induction Hr as [|tr s ls s' _ IH Hs]; [|by eapply listener_step_inv].
    by eapply listener_inv_new. }
  split_and!; try done.
  - intros Hcl. destruct (Ho Hcl) as [q Hq']. eauto.
  - intros k p Hk. eauto.
Qed.

(** Closing a listener.  The first [close] drops the queue and wakes the task in
    [accept], which answers [None] from then on; packets and reads fail with [BrokenPipe];
    but the batch is not closed: a task that waits in [read] for a packet of the
    connections is woken only by a second [close]. *)
Theorem close_leaves_reader {A C} `{!Quiche A C, !QuicheServer A C} (s : QuicListenerState C) :
  closed s = false →
  let s1 := (listener_close s).1 in
  let s2 := (listener_close s1).1 in
  listener_accept s1 = (s1, Ok (Some None)) ∧
  (∀ w, wakers (listener_mediator s) !! () = Some w →
     wakers (listener_mediator s1) !! () = None ∧ Woke (waker w) ∈ log (listener_mediator s1)) ∧
  (∀ now buf n (info : RecvInfo A), listener_write now buf n info s1 = (s1, Err BrokenPipe)) ∧
  (∀ ds : list (delivery A), listener_read_all ds s1 = (s1, Err BrokenPipe)) ∧
  heap s1 = heap s ∧ conns_read s1 = conns_read s ∧
  conns_read_closed s1 = conns_read_closed s ∧ conns_read_closed s2 = true.
Proof.
  intros Hcl. unfold listener_close, mbind, sm_bind, gets. simpl. rewrite Hcl.
  split_and!; try done. intros w Hw. simpl.
  rewrite notify_one_log, notify_one_wakers, Hw. split; [apply lookup_delete_eq|set_solver].
Qed.

(** C38. The receiving task of a server.  While it runs, it sends exactly the answers of the
    acceptor ([retry], version negotiation, handshake packets).  A datagram that is not a QUIC
    packet ends the task, and every later datagram of every client is left unread;
    so does a refused token.  And the packet that quiche writes when a connection becomes
    established is not sent. *)
Theorem recv_loop_stops_on_garbage {A C} `{!Quiche A C, !QuicheServer A C}
    (send : list byte → SendInfo A → res ErrorKind nat) (s s1 : QuicListenerState C)
    (rs1 rs2 : list (N * res ErrorKind (datagram A))) (sent : list (list byte * SendInfo A))
    (now : N) (d : datagram A) (e : QErr) :
  run_recv_event_loop send rs1 s = (s1, sent, None) →
  closed s1 = false → (recv_size d ≤ length (buffer d))%nat →
  (header_from_slice (take (recv_size d) (buffer d)) = inl e →
   run_recv_event_loop send (rs1 ++ (now, Ok d) :: rs2) s =
     (s1, sent, Some (Err (into_io_error (QuicheError e))))) ∧
  (∀ s2 p n out si,
     listener_write now (buffer d) (recv_size d) (path d) s1 = (s2, Ok (LIncoming p n out si)) →
     run_recv_event_loop send (rs1 ++ [(now, Ok d)]) s = (s2, sent, None)) ∧
  (∀ s2 n out si m,
     listener_write now (buffer d) (recv_size d) (path d) s1 = (s2, Ok (LInternal n out si)) →
     send out si = Ok m →
     run_recv_event_loop send (rs1 ++ [(now, Ok d)]) s =
       (s2, sent ++ (if decide (out = []) then [] else [(out, si)]), None)).
Proof.
  intros Hrun Hcl Hlen. rewrite (run_recv_app _ _ ((now, Ok d) :: rs2) _ _ _ Hrun).
  rewrite (run_recv_app _ _ [(now, Ok d)] _ _ _ Hrun). simpl.
  unfold recv_round, lift, mbind, sm_bind. split_and!.
  - intros Hh. simpl. rewrite (listener_write_garbage _ _ _ _ _ e) by done.
    by rewrite app_nil_r.
  - intros s2 p n out si Hw. simpl. rewrite Hw. simpl. by rewrite app_nil_r.
  - intros s2 n out si m Hw Hs. simpl. rewrite Hw. destruct out as [|b out]; simpl; [by rewrite app_nil_r|].
    by rewrite Hs.
Qed.

(** ** Witnesses: a packet is a type, a destination id of one byte, and a token *)
#[export] Instance DemoServer : QuicheServer nat DemoConn := {
  header_from_slice buf :=
    match buf with
    | b :: id :: token =>
        inr {| is_initial := bool_decide (b = x01); version := 1; hdr_dcid := [id]; hdr_scid := [x09];
               hdr_token := Some token |}
    | _ => inl (OtherQErr 1)
    end;
  version_is_supported v := bool_decide (v = 1);
  max_conn_id_len := 1%nat;
  quiche_accept scid odcid to from := inr {| dead := false; readable := []; unsent := 0 |};
  quiche_retry scid dcid new token v len := inr token;
  quiche_negotiate_version scid dcid len := inr [];
  hmac_sign key data := data;
  ip_octets a := [x7f; x01];
}.

Definition demo_acceptor : QuicAcceptor DemoConn :=
  {| send_ping_interval := 2000; conn_id_seed := [x05]; pre_established_conns := ∅ |}.
(** The client at address 1 sends this after a [retry]. *)
Definition demo_hello : list byte := [x01; x07] ++ mint_token [x07] 1%nat.

Lemma handshake_admits_witness :
  (∃ c t m out si, (handshake 0 demo_hello (length demo_hello) demo_info demo_acceptor).2 =
     Ok (HIncoming c t m out si) ∧ qc_is_established c = true) ∧
  (handshake 0 [x01; x07] 2 demo_info demo_acceptor).2 =
    Ok (HInternal 2 (mint_token [x07] 1%nat) (reply_info 0 demo_info)).
Proof.
  split; [|reflexivity].
  pose proof (handshake_admits 0 demo_hello (length demo_hello) demo_info demo_acceptor
    (handshake 0 demo_hello (length demo_hello) demo_info demo_acceptor).1
    (handshake 0 demo_hello (length demo_hello) demo_info demo_acceptor).2) as H.
  destruct H as (_&_&H&_); [reflexivity|apply surjective_pairing|intros k c H; exfalso; exact (lookup_empty_Some k c H)|].
  do 5 eexists. split; [reflexivity|]. eapply H. reflexivity.
Defined.

(** The client at address 1 sends an Initial, and then [demo_hello]. *)
Lemma retry_leads_to_accept_witness :
  handshake 0 [x01; x07] 2 demo_info demo_acceptor =
    (demo_acceptor, Ok (HInternal 2 (mint_token [x07] 1%nat) (reply_info 0 demo_info))) ∧
  handshake 9 demo_hello (length demo_hello) demo_info demo_acceptor =
    feed 9 [x07] {| dead := false; readable := []; unsent := 0 |} demo_hello (length demo_hello) demo_info
      demo_acceptor.
Proof.
  destruct (retry_leads_to_accept 0 [x01; x07] 2 demo_info demo_acceptor
    {| is_initial := true; version := 1; hdr_dcid := [x07]; hdr_scid := [x09]; hdr_token := Some [] |}) as [H1 H2];
    [simpl; lia|reflexivity..|simpl; lia|].
  split; [apply H1; reflexivity|].
  apply (H2 9 demo_hello (length demo_hello) demo_info demo_acceptor
    {| is_initial := true; version := 1; hdr_dcid := [x07]; hdr_scid := [x09];
       hdr_token := Some (mint_token [x07] 1%nat) |}); try reflexivity.
Defined.

Definition demo_listener : QuicListenerState DemoConn :=
  {| closed := false; acceptor := demo_acceptor; heap := ∅; conns := ∅;
     listener_incoming := Some []; listener_mediator := EventMap_default;
     conns_read := []; conns_read_closed := false; max_datagram_size := 1350 |}.
(** Two clients connect, one connection is accepted, and one has a packet to send. *)
Definition listener1 := (listener_write 0 demo_hello (length demo_hello) demo_info demo_listener).1.
Definition listener2 := (listener_write 0 demo_hello (length demo_hello) demo_info listener1).1.
Definition listener3 := (listener_accept listener2).1.
Definition demo_outcome : res ErrorKind (list byte * SendInfo nat) :=
  Ok ([x00], reply_info 0 demo_info).
Definition listener4 := (listener_read (Delivered 1 demo_outcome) listener3).1.

Lemma demo_listener_run :
  listener_run (A:=nat) demo_listener ([] ++ [Made 0] ++ [Made 1] ++ [Accepted 0] ++ []) listener4.
Proof.
  rewrite !app_assoc.
  eapply lrun_step; [eapply lrun_step; [eapply lrun_step; [eapply lrun_step; [apply lrun_refl|]|]|]|].
  - exact (ls_write demo_listener 0 demo_hello (length demo_hello) demo_info).
  - exact (ls_write listener1 0 demo_hello (length demo_hello) demo_info).
  - exact (ls_accept listener2).
  - apply (ls_read listener3 1 demo_outcome). vm_compute. set_solver.
Qed.

Lemma connections_served_once_witness :
  listener_incoming listener4 = Some [1%nat] ∧ [0%nat; 1%nat] ≡ₚ conns_read listener4 ++ [].
Proof.
  destruct (connections_served_once 2000 (Some [x05]) 1350 demo_listener listener4
    ([] ++ [Made 0] ++ [Made 1] ++ [Accepted 0] ++ [])) as (_&_&H1&H2&_);
    [reflexivity|exact demo_listener_run|].
  split; [|symmetry; exact H2].
  destruct H1 as (q&Hq&Hm); [reflexivity|]. rewrite Hq. simpl in Hm. by simplify_eq.
Defined.

Lemma close_leaves_reader_witness :
  conns_read_closed (listener_close listener4).1 = false ∧
  (listener_accept (listener_close listener4).1).2 = Ok (Some None).
Proof.
  destruct (close_leaves_reader (A:=nat) listener4) as (H1&_&_&_&_&_&H2&_); [reflexivity|].
  rewrite H1, H2. split; reflexivity.
Defined.

Lemma recv_loop_stops_on_garbage_witness :
  (run_recv_event_loop (λ buf _, Ok (length buf))
    ([(0, Ok {| buffer := demo_hello; recv_size := length demo_hello; path := demo_info |})] ++
     (1, Ok {| buffer := [x00]; recv_size := 1; path := demo_info |}) ::
     [(2, Ok {| buffer := demo_hello; recv_size := length demo_hello; path := demo_info |})])
    demo_listener).2 = Some (Err Other).
Proof.
  destruct (recv_loop_stops_on_garbage (λ buf _, Ok (length buf)) demo_listener listener1
    [(0, Ok {| buffer := demo_hello; recv_size := length demo_hello; path := demo_info |})]
    [(2, Ok {| buffer := demo_hello; recv_size := length demo_hello; path := demo_info |})]
    [] 1 {| buffer := [x00]; recv_size := 1; path := demo_info |} (OtherQErr 1)) as (H&_);
    [reflexivity|reflexivity|simpl; lia|].
  rewrite H; reflexivity.
Defined.
