(* ===== verification/QuicClient.v ===== *)
(** * crates/net/quic: conn.rs, state/connector.rs, conn_pool.rs: the QUIC client

    [QuicConnectorState] makes the handshake; [connect_with] drives it with the answers
    of the socket, one [round] of its loop at a time, and [connect] tries addresses in turn.
    A [QuicStream] polls a new future of its connection each time.  [RawConnPool] keeps
    up to [max_conns] connections.  A connection is shared by its users: the pool
    holds pointers into a heap of connection states. *)

From S2P Require Import Prelude EventMap QuicConn Sockets.

Local Open Scope N_scope.

Class QuicheClient (A C : Type) := {
  quiche_connect : ConnectionId → A → A → QErr + C;
}.

Section connector.
Context {A C : Type} `{!Quiche A C, !QuicheClient A C}.

Record QuicConnectorState := { connector_conn : C; connector_ping_timeout : N }.

#[local] Notation M := (sm QuicConnectorState ErrorKind).

(** [scid]: the bytes of the random generator. *)
Definition QuicConnectorState_new (ping : N) (scid : option ConnectionId) (laddr raddr : A) :
    res ErrorKind QuicConnectorState :=
  scid ← ok_or scid (into_io_error Unspecified);
  match quiche_connect scid laddr raddr with
  | inr c => Ok {| connector_conn := c; connector_ping_timeout := ping |}
  | inl _ => Err ConnectionRefused
  end.

Definition set_connector (c : C) (s : QuicConnectorState) : QuicConnectorState :=
  {| connector_conn := c; connector_ping_timeout := connector_ping_timeout s |}.

Definition connector_send (len : nat) : M (option (list byte * SendInfo A)) := λ s,
  match qc_send (connector_conn s) len with
  | (c, inr x) => (set_connector c s, Ok (Some x))
  | (c, inl Done) => (set_connector c s, Ok None)
  | (c, inl _) => (set_connector c s, Err ConnectionRefused)
  end.

Definition connector_recv (buf : list byte) (info : RecvInfo A) : M nat := λ s,
  match qc_recv (connector_conn s) buf info with
  | (c, inr n) =>
      (set_connector c s, if qc_is_closed c then Err ConnectionRefused else Ok n)
  | (c, inl _) => (set_connector c s, Err ConnectionRefused)
  end.

Definition connector_is_established (s : QuicConnectorState) : bool :=
  qc_is_established (connector_conn s).
Definition connector_is_closed (s : QuicConnectorState) : bool := qc_is_closed (connector_conn s).
Definition connector_timeout (now : N) (s : QuicConnectorState) : option N :=
  qc_timeout (connector_conn s) now.
Definition connector_on_timeout (now : N) (s : QuicConnectorState) : QuicConnectorState :=
  set_connector (qc_on_timeout (connector_conn s) now) s.

(** [From<QuicConnectorState> for QuicConnState]. *)
Definition into_conn (now : N) (s : QuicConnectorState) : QuicConnState C :=
  QuicConnState_new now (connector_conn s) (connector_ping_timeout s) 4.

(** ** conn.rs: the handshake

    What the socket answers in one round of the loop: to [send_to_on_path], and to
    [recv_from] under [timeout]; and the time when it answers. *)
Record round := {
  round_now : N;
  round_send : list byte → SendInfo A → res ErrorKind nat;
  round_recv : res ErrorKind (list byte * RecvInfo A);
}.

(** Whether the handshake is complete. *)
Definition connect_round (mtu : nat) (e : round) : M bool :=
  out ← connector_send mtu;
  match out with
  | Some (buf, send_info) => lift (round_send e buf send_info);; mret ()
  | None => mret ()
  end;;
  c ← gets connector_is_closed;
  if (c : bool) then fail TimedOut
  else
    match round_recv e with
    | Ok (buf, info) => connector_recv buf info;; gets connector_is_established
    | Err TimedOut => modify (connector_on_timeout (round_now e));; mret false
    | Err err => fail err
    | Panic => panic
    end.

(** The loop on the rounds that the socket has answered; [None]: it still waits. *)
Fixpoint connect_loop (mtu : nat) (es : list round) : M (option (QuicConnState C)) :=
  match es with
  | [] => mret None
  | e :: es =>
      b ← connect_round mtu e;
      if (b : bool) then s ← gets (into_conn (round_now e)); mret (Some s) else connect_loop mtu es
  end.

(** [laddr]: the local address that the random choice gives, if the group has one. *)
Definition connect_with (mtu : nat) (ping : N) (laddr : option A) (scid : option ConnectionId)
    (es : list round) (raddr : A) : option (res ErrorKind (QuicConnState C)) :=
  match
    laddr ← unwrap laddr;
    connector ← QuicConnectorState_new ping scid laddr raddr;
    (connect_loop mtu es connector).2
  with
  | Ok (Some s) => Some (Ok s)
  | Ok None => None
  | Err e => Some (Err e)
  | Panic => Some Panic
  end.

(** The loop of [connect] over the shuffled addresses. *)
Fixpoint connect_each (attempt : A → option (res ErrorKind (QuicConnState C)))
    (raddrs : list A) (lastest_error : option ErrorKind) : option (res ErrorKind (QuicConnState C)) :=
  match raddrs with
  | [] => Some (match lastest_error with Some e => Err e | None => Panic end)
  | raddr :: raddrs =>
      match attempt raddr with
      | Some (Err e) => connect_each attempt raddrs (Some e)
      | r => r
      end
  end.

(** [udp] and [raddrs] are the answers of [UdpGroup::bind] and [to_socket_addrs]. *)
Definition connect (attempt : A → option (res ErrorKind (QuicConnState C)))
    (udp : res ErrorKind ()) (raddrs : res ErrorKind (list A)) :
    option (res ErrorKind (QuicConnState C)) :=
  match (udp;; raddrs) with
  | Ok raddrs => connect_each attempt raddrs None
  | Err e => Some (Err e)
  | Panic => Some Panic
  end.
End connector.
Arguments QuicConnectorState : clear implicits.
Arguments round : clear implicits.

(** ** conn.rs: [QuicStream] and the two tasks of a client *)
Section stream.
Context {A C : Type} `{!Quiche A C}.

#[local] Notation M := (sm (QuicConnState C) ErrorKind).

(** One poll of a new future of the connection, by [task] with the lock [guard]: the future
    is dropped when it waits, and its registration stays. *)
Definition poll_segment {R} (guard task : nat) (m : M (step R)) (s : QuicConnState C) :
    QuicConnState C * Poll (res ErrorKind (option R)) :=
  match run_segment guard task m s with
  | (s, Ok (Return r)) => (s, Ready (Ok (Some r)))
  | (s, Ok Continue) => (s, Ready (Ok None))
  | (s, Ok (WaitFor _ _)) => (s, Pending)
  | (s, Err e) => (s, Ready (Err e))
  | (s, Panic) => (s, Ready Panic)
  end.

(** [AsyncWrite] and [AsyncRead] for [QuicStream]; [stream_send] and [stream_recv] answer
    [Return] or wait. *)
Definition stream_poll_write (guard task : nat) (id : N) (buf : list byte) (s : QuicConnState C) :
    QuicConnState C * Poll (res ErrorKind nat) :=
  match poll_segment guard task (stream_send_segment id buf false) s with
  | (s, Ready (Ok (Some n))) => (s, Ready (Ok n))
  | (s, Ready (Err e)) => (s, Ready (Err e))
  | (s, Ready _) => (s, Ready Panic)
  | (s, Pending) => (s, Pending)
  end.
Definition stream_poll_flush (s : QuicConnState C) :
    QuicConnState C * Poll (res ErrorKind ()) :=
  (s, Ready (Ok ())).
Definition stream_poll_close (id : N) (s : QuicConnState C) :
    QuicConnState C * Poll (res ErrorKind ()) :=
  match close_stream id s with
  | (s, Panic) => (s, Ready Panic)
  | (s, _) => (s, Ready (Ok ()))
  end.
Definition stream_poll_read (guard task : nat) (id : N) (len : nat) (s : QuicConnState C) :
    QuicConnState C * Poll (res ErrorKind (list byte)) :=
  match poll_segment guard task (stream_recv_segment id len) s with
  | (s, Ready (Ok (Some (bytes, _)))) => (s, Ready (Ok bytes))
  | (s, Ready (Err e)) =>
      (s, Ready (if decide (e = BrokenPipe) then Ok [] else Err e))
  | (s, Ready _) => (s, Ready Panic)
  | (s, Pending) => (s, Pending)
  end.

(** The tasks that the last handles spawn: [QuicStreamDrop] and [QuicConnDrop]. *)
Definition QuicStream_drop (id : N) (s : QuicConnState C) : QuicConnState C := (close_stream id s).1.
Definition QuicConn_drop (s : QuicConnState C) : QuicConnState C := (close (A:=A) false 0 [] s).1.

(** One round of [run_client_recv_loop] and of [run_client_send_loop]. *)
Definition client_recv_round (recv : res ErrorKind (list byte * RecvInfo A)) : M () :=
  x ← lift recv; write x.1 x.2;; mret ().
Definition client_send_round (now : N) (len : nat)
    (send : list byte → SendInfo A → res ErrorKind nat) : M (step nat) :=
  r ← read_segment now len;
  match r with
  | Return (buf, info) => n ← lift (send buf info); mret (Return n)
  | Continue => mret Continue
  | WaitFor e t => mret (WaitFor e t)
  end.
End stream.

(** ** conn_pool.rs *)
Section pool.
Context {A C : Type} `{!Quiche A C}.

Record RawConnPool := {
  max_conns : nat;
  pool_conns : gmap ConnectionId nat;
  pool_heap : gmap nat (QuicConnState C);
}.

Definition RawConnPool_new (max_conns : nat) (raddrs : res ErrorKind (list A)) :
    res ErrorKind RawConnPool :=
  raddrs;; mret {| max_conns := max_conns; pool_conns := ∅; pool_heap := ∅ |}.

#[local] Notation M := (sm RawConnPool ErrorKind).

Definition set_pool_conns (m : gmap ConnectionId nat) (s : RawConnPool) : RawConnPool :=
  {| max_conns := max_conns s; pool_conns := m; pool_heap := pool_heap s |}.
Definition set_pool_heap (m : gmap nat (QuicConnState C)) (s : RawConnPool) : RawConnPool :=
  {| max_conns := max_conns s; pool_conns := pool_conns s; pool_heap := m |}.

(** A method of the connection at [p]. *)
Definition pool_on_conn {B} (p : nat) (m : sm (QuicConnState C) ErrorKind B) : M B := λ s,
  match pool_heap s !! p with
  | Some c => let '(c, r) := m c in (set_pool_heap (<[p := c]> (pool_heap s)) s, r)
  | None => (s, Panic)
  end.

(** The loop over the connections: one with streams left, or the closed ones. *)
Fixpoint find_open (conns : list (ConnectionId * nat)) (closed : list ConnectionId) :
    M (nat + list ConnectionId) :=
  match conns with
  | [] => mret (inr closed)
  | (id, p) :: conns =>
      c ← pool_on_conn p is_closed;
      if (c : bool) then find_open conns (closed ++ [id])
      else
        left_bidi ← pool_on_conn p peer_streams_left_bidi;
        if decide (0 < left_bidi) then mret (inl p) else find_open conns closed
  end.

(** [order]: the map in the order of its iterator; [connected]: the answer of
    [QuicConn::connect]. *)
Definition find_avalid_conn (order : list (ConnectionId * nat))
    (connected : res ErrorKind (QuicConnState C)) : M nat :=
  r ← find_open order [];
  match r with
  | inl p => mret p
  | inr closed =>
      modify (λ s, set_pool_conns (foldl (λ m id, delete id m) (pool_conns s) closed) s);;
      s ← gets id;
      if decide (max_conns s ≤ size (pool_conns s))%nat then fail WouldBlock
      else
        c ← lift connected;
        let p := fresh (dom (pool_heap s)) in
        modify (set_pool_heap (<[p := c]> (pool_heap s)));;
        modify (λ s, set_pool_conns (<[scid c := p]> (pool_conns s)) s);;
        mret p
  end.

(** The stream: its connection and its id. *)
Definition pool_open_stream (order : list (ConnectionId * nat))
    (connected : res ErrorKind (QuicConnState C)) : M (nat * N) :=
  p ← find_avalid_conn order connected;
  id ← pool_on_conn p open_stream;
  mret (p, id).
End pool.
Arguments RawConnPool : clear implicits.

(** ** What the handshake and the pool guarantee *)
Section client_facts.
Context {A C : Type} `{!Quiche A C, !QuicheClient A C}.

Lemma connector_recv_open buf (info : RecvInfo A) (s s' : QuicConnectorState C) n :
  connector_recv buf info s = (s', Ok n) → connector_is_closed s' = false.
Proof.
  unfold connector_recv, connector_is_closed. destruct (qc_recv _ _ _) as [c [e|k]]; [done|].
  destruct (qc_is_closed c) eqn:Hc; [done|]. by intros [= <- <-].
Qed.

Lemma connect_round_done mtu (e : round A) (s s' : QuicConnectorState C) b :
  connect_round mtu e s = (s', Ok b) →
  connector_ping_timeout s' = connector_ping_timeout s ∧
  (b = true → connector_is_established s' = true ∧ connector_is_closed s' = false).
Proof.
  unfold connect_round, connector_send, gets, lift, modify, mbind, sm_bind, mret, sm_ret.
  destruct (qc_send _ _) as [c [err|[buf info]]]; [destruct err; try done|]; simpl;
    [|destruct (round_send e buf info); [|done..]; simpl].
  1,2: unfold connector_is_closed at 1; simpl; destruct (qc_is_closed c); [done|]; simpl;
    (destruct (round_recv e) as [[pkt inf]|[]|]; try done;
     [destruct (connector_recv pkt inf (set_connector c s)) as [s2 [n|?|]] eqn:Hr; try done;
      intros [= <- <-]; pose proof (connector_recv_open _ _ _ _ _ Hr); split; [|done];
      revert Hr; unfold connector_recv; destruct (qc_recv _ _ _) as [c2 [?|?]]; simpl;
        repeat case_match; intros; by simplify_eq/=
     |by intros [= <- <-]]).
Qed.

Lemma connect_loop_done mtu es (s s' : QuicConnectorState C) conn :
  connect_loop (A:=A) mtu es s = (s', Ok (Some conn)) →
  ∃ now c, conn = QuicConnState_new now c (connector_ping_timeout s) 4 ∧
    qc_is_established c = true ∧ qc_is_closed c = false.
Proof.
  revert s. induction es as [|e es IH]; intros s; [done|]. simpl.
  unfold gets, mbind, sm_bind, mret, sm_ret.
  destruct (connect_round mtu e s) as [s1 [b|err|]] eqn:Hr; [|done..].
  apply connect_round_done in Hr as [Hp Hb]. destruct b.
  - intros [= <- <-]. destruct (Hb eq_refl). rewrite <-Hp. by exists (round_now e), (connector_conn s1).
  - intros Hl. rewrite <-Hp. by apply IH.
Qed.

Lemma connect_with_done mtu ping laddr scid (es : list (round A)) raddr (s : QuicConnState C) :
  connect_with mtu ping laddr scid es raddr = Some (Ok s) →
  ∃ now c, s = QuicConnState_new now c ping 4 ∧ qc_is_established c = true ∧ qc_is_closed c = false.
Proof.
  unfold connect_with. destruct laddr as [laddr|]; [|done]. simpl. unfold QuicConnectorState_new.
  destruct scid as [scid|]; [|done]. simpl. destruct (quiche_connect _ _ _) as [?|c]; [done|]. simpl.
  destruct (connect_loop mtu es _) as [s' [[conn|]|e|]] eqn:Hl; simpl; [|done..].
  intros [= <-]. by apply connect_loop_done in Hl.
Qed.

(** Which attempt decides the outcome of [connect]. *)
Definition attempts (attempt : A → option (res ErrorKind (QuicConnState C))) (raddrs : list A)
    (last : option ErrorKind) (r : option (res ErrorKind (QuicConnState C))) : Prop :=
  (∃ pre raddr rest, raddrs = pre ++ raddr :: rest ∧
     Forall (λ a, ∃ e, attempt a = Some (Err e)) pre ∧ attempt raddr = r ∧
     (∀ e, r = Some (Err e) → rest = [])) ∨
  raddrs = [] ∧ r = Some (match last with Some e => Err e | None => Panic end).

Lemma connect_each_attempts attempt raddrs last :
  attempts attempt raddrs last (connect_each attempt raddrs last).
Proof.
  revert last. induction raddrs as [|raddr raddrs IH]; intros last; [by right|]. simpl. left.
  destruct (attempt raddr) as [[s|e|]|] eqn:Ha;
    try (exists [], raddr, raddrs; split_and!; [done|constructor|done|by intros ? [=]]; done).
  destruct (IH (Some e)) as [(pre&ra&rest&->&Hpre&Hr&Hrest)|[-> ->]].
  - exists (raddr :: pre), ra, rest. split_and!; [done| |done|done]. constructor; eauto.
  - exists [], raddr, []. by split_and!; [|constructor| |].
Qed.

(** *** The pool *)
Implicit Types s : RawConnPool C.

Definition usable s (p : nat) : Prop :=
  ∃ c n, pool_heap s !! p = Some c ∧ (is_closed (A:=A) c).2 = Ok false ∧
    (peer_streams_left_bidi (A:=A) c).2 = Ok n ∧ 0 < n.

(** Every connection of the pool is in the heap and has the parameters of its peer. *)
Definition pool_wf s : Prop :=
  ∀ k p, pool_conns s !! k = Some p →
    ∃ c, pool_heap s !! p = Some c ∧ is_Some (initial_max_streams_bidi (A:=A) (quiche_conn (state c))).

Lemma pool_is_closed s p c :
  pool_heap s !! p = Some c →
  pool_on_conn p (is_closed (A:=A)) s =
    (s, Ok (qc_is_closed (quiche_conn (state c)) || qc_is_draining (quiche_conn (state c)))).
Proof.
  intros Hc. unfold pool_on_conn. rewrite Hc. simpl. unfold set_pool_heap.
  rewrite insert_id by done. by destruct s.
Qed.

Lemma pool_left s p c :
  pool_heap s !! p = Some c → is_Some (initial_max_streams_bidi (A:=A) (quiche_conn (state c))) →
  ∃ n, (peer_streams_left_bidi (A:=A) c).2 = Ok n ∧
    pool_on_conn p (peer_streams_left_bidi (A:=A)) s = (s, Ok n).
Proof.
  intros Hc [i Hi]. unfold pool_on_conn. rewrite Hc.
  unfold peer_streams_left_bidi, get_state, mbind, sm_bind, gets. simpl. rewrite Hi.
  assert (set_pool_heap (<[p:=c]> (pool_heap s)) s = s) as Hs
    by (unfold set_pool_heap; rewrite insert_id by done; by destruct s).
  repeat case_decide; simpl; rewrite Hs; eauto.
Qed.

Definition closed_at s (p : nat) : Prop :=
  ∃ c, pool_heap s !! p = Some c ∧ (is_closed (A:=A) c).2 = Ok true.

Lemma closed_at_eq s p c :
  pool_heap s !! p = Some c →
  closed_at s p ↔ qc_is_closed (quiche_conn (state c)) || qc_is_draining (quiche_conn (state c)) = true.
Proof.
  intros Hc. unfold closed_at, is_closed, get_state, gets. simpl. split.
  - intros (c'&Hc'&[= H]). by simplify_eq.
  - intros H. exists c. by rewrite H.
Qed.

Lemma usable_open s p : usable s p → ¬ closed_at s p.
Proof. intros (c&n&Hc&Hf&_) (c'&Hc'&Ht). simplify_eq. congruence. Qed.

Lemma find_open_spec s order closed :
  (∀ k p, (k, p) ∈ order → ∃ c, pool_heap s !! p = Some c ∧
     is_Some (initial_max_streams_bidi (A:=A) (quiche_conn (state c)))) →
  (∃ k p, find_open (A:=A) order closed s = (s, Ok (inl p)) ∧ (k, p) ∈ order ∧ usable s p) ∨
  ∃ cl, find_open (A:=A) order closed s = (s, Ok (inr (closed ++ cl))) ∧
    (∀ k p, (k, p) ∈ order → ¬ usable s p) ∧
    (∀ k, k ∈ cl ↔ ∃ p, (k, p) ∈ order ∧ closed_at s p).
Proof.
  revert closed. induction order as [|[k p] order IH]; intros closed Hwf; cbn [find_open].
  { right. exists []. rewrite app_nil_r. split_and!; [done|set_solver|set_solver]. }
  destruct (Hwf k p) as (c&Hc&Hi); [set_solver|].
  unfold mbind, sm_bind. rewrite (pool_is_closed _ _ _ Hc).
  destruct (pool_left _ _ _ Hc Hi) as (n&Hn&Hl).
  assert (∀ k p, (k, p) ∈ order → ∃ c, pool_heap s !! p = Some c ∧
     is_Some (initial_max_streams_bidi (A:=A) (quiche_conn (state c)))) as Hwf'
    by (intros k' p' ?; apply (Hwf k' p'); by apply list_elem_of_further).
  pose proof (closed_at_eq _ _ _ Hc) as Hca.
  destruct (_ || _) eqn:Hcl.
  - destruct (IH (closed ++ [k]) Hwf') as [(k'&p'&He&Hin&Hu)|(cl&He&Hno&Hall)].
    + left. exists k', p'. split_and!; [done|by apply list_elem_of_further|done].
    + right. exists (k :: cl). rewrite <-app_assoc in He. split_and!; [done| |].
      * intros k' p' [[= -> ->]|Hin]%elem_of_cons; [|by eapply Hno].
        intros Hu%usable_open. tauto.
      * intros k'. rewrite elem_of_cons, Hall. setoid_rewrite elem_of_cons. naive_solver.
  - rewrite Hl. case_decide as Hpos.
    + left. exists k, p. split_and!; [done|apply list_elem_of_here|]. exists c, n. split_and!; try done.
      unfold is_closed, get_state, gets. simpl. by rewrite Hcl.
    + destruct (IH closed Hwf') as [(k'&p'&He&Hin&Hu)|(cl&He&Hno&Hall)].
      * left. exists k', p'. split_and!; [done|by apply list_elem_of_further|done].
      * right. exists cl. split_and!; [done| |].
        -- intros k' p' [[= -> ->]|Hin]%elem_of_cons; [|by eapply Hno].
           intros (c'&n'&Hc'&_&Hn'&?). simplify_eq. congruence.
        -- intros k'. rewrite Hall. setoid_rewrite elem_of_cons. naive_solver.
Qed.

End client_facts.

(** [connect] tries the addresses in order until one answers, and reports the
    error of the last one; a connection that it returns has finished its handshake and is
    not closed, and starts with the streams of a client.  A bug: without an
    address to try, it panics instead of failing. *)
Theorem connect_finds_server {A C} `{!Quiche A C, !QuicheClient A C} (mtu : nat) (ping : N)
    (env : A → option A * option ConnectionId * list (round A)) (raddrs : list A) :
  let attempt raddr :=
    connect_with mtu ping (env raddr).1.1 (env raddr).1.2 (env raddr).2 raddr in
  let r := connect attempt (Ok ()) (Ok raddrs) in
  (raddrs = [] → r = Some Panic) ∧
  (raddrs ≠ [] → ∃ pre raddr rest, raddrs = pre ++ raddr :: rest ∧
     Forall (λ a, ∃ e, attempt a = Some (Err e)) pre ∧ attempt raddr = r ∧
     (∀ e, r = Some (Err e) → rest = [])) ∧
  (∀ s : QuicConnState C, r = Some (Ok s) →
     ∃ now c, s = QuicConnState_new now c ping 4 ∧
       qc_is_established c = true ∧ qc_is_closed c = false).
Proof.
  intros attempt r. pose proof (connect_each_attempts attempt raddrs None) as Ha.
  change (connect_each attempt raddrs None) with r in Ha. split_and!.
  - by intros ->.
  - intros Hne. by destruct Ha as [?|[? _]].
  - intros s Hs. destruct Ha as [(pre&raddr&rest&_&_&Hr&_)|[_ Hr]]; [|congruence].
    rewrite Hs in Hr. by apply connect_with_done in Hr.
Qed.

(** C34. The pool.  With at most [max_conns] connections, [find_avalid_conn] keeps at most
    that many and forgets none that is open.  It gives a connection of the pool that is open and
    has streams left; when there is none, it makes a new one if the open ones are fewer than
    [max_conns], and answers [WouldBlock] otherwise. *)
Theorem pool_finds_connection {A C} `{!Quiche A C} (s s' : RawConnPool C)
    (order : list (ConnectionId * nat)) (connected : res ErrorKind (QuicConnState C))
    (r : res ErrorKind nat) :
  pool_wf (A:=A) s → (size (pool_conns s) ≤ max_conns s)%nat →
  order ≡ₚ map_to_list (pool_conns s) →
  (∀ c, connected = Ok c → pool_conns s !! scid c = None) →
  find_avalid_conn (A:=A) order connected s = (s', r) →
  max_conns s' = max_conns s ∧ (size (pool_conns s') ≤ max_conns s')%nat ∧
  (∀ k p, pool_conns s !! k = Some p → ¬ closed_at (A:=A) s p → pool_conns s' !! k = Some p) ∧
  ((∃ k p, r = Ok p ∧ s' = s ∧ pool_conns s !! k = Some p ∧ usable (A:=A) s p) ∨
   (∀ k p, pool_conns s !! k = Some p → ¬ usable (A:=A) s p) ∧
   ∃ m, (∀ k p, m !! k = Some p ↔ pool_conns s !! k = Some p ∧ ¬ closed_at (A:=A) s p) ∧
     ((max_conns s ≤ size m)%nat ∧ r = Err WouldBlock ∧ pool_conns s' = m ∨
      (size m < max_conns s)%nat ∧
      match connected with
      | Ok c => ∃ p, r = Ok p ∧ pool_heap s !! p = None ∧ pool_heap s' !! p = Some c ∧
          pool_conns s' = <[scid c := p]> m
      | Err e => r = Err e ∧ pool_conns s' = m
      | Panic => r = Panic ∧ pool_conns s' = m
      end)).
Proof.
  intros Hwf Hsize Horder Hnew Hfind.
  assert (∀ k p, (k, p) ∈ order ↔ pool_conns s !! k = Some p) as Hin
    by (intros k p; by rewrite Horder, elem_of_map_to_list).
  destruct (find_open_spec (A:=A) s order []) as [(k&p&He&Hkp&Hu)|(cl&He&Hno&Hcl)];
    [intros k p Hkp; by apply (Hwf k p), Hin|..];
    unfold find_avalid_conn, mbind, sm_bind, mret, sm_ret in Hfind; rewrite He in Hfind; simpl in Hfind.
  { simplify_eq. split_and!; [done..|by intros|]. left. exists k, p. split_and!; try done. by apply Hin. }
  set (m := foldl (λ m k, delete k m) (pool_conns s) cl) in *.
  assert (∀ k p, m !! k = Some p ↔ pool_conns s !! k = Some p ∧ ¬ closed_at (A:=A) s p) as Hm.
  { intros k p. unfold m. rewrite delete_all. destruct (decide (k ∈ cl)) as [Hk|Hk]; rewrite Hcl in Hk.
    - destruct Hk as (p'&Hp'%Hin&Hc). split; [done|]. intros [? []]. by simplify_eq.
    - split; [|by intros [? _]]. intros Hp. split; [done|]. intros Hc. apply Hk.
      exists p. by rewrite Hin. }
  assert (m ⊆ pool_conns s) as Hsub by (apply map_subseteq_spec; intros k p; apply Hm).
  pose proof (map_subseteq_size _ _ Hsub).
  case_decide as Hfull; simpl in Hfind; unfold fail, lift, modify in Hfind; simplify_eq/=.
  - split_and!; [done|lia|by intros; apply Hm|right]. split; [by intros k p ?%Hin; eapply Hno|].
    exists m. split; [done|]. by left.
  - destruct connected as [c|e|]; simplify_eq/=.
    + assert (m !! scid c = None) as Hc
        by (apply eq_None_not_Some; intros [p [Hp _]%Hm]; by rewrite (Hnew c eq_refl) in Hp).
      split_and!; [done|rewrite map_size_insert_None by done; lia| |right].
      * intros k p Hk Hop. rewrite lookup_insert_ne; [by apply Hm|].
        intros Heq. by rewrite <-Heq, (Hnew c eq_refl) in Hk.
      * split; [by intros k p ?%Hin; eapply Hno|]. exists m. split; [done|]. right. split; [lia|].
        eexists. split; [done|]. split; [apply not_elem_of_dom, is_fresh|].
        split; [apply lookup_insert_eq|done].
    + split_and!; [done|lia|by intros; apply Hm|right]. split; [by intros k p ?%Hin; eapply Hno|].
      exists m. split; [done|]. right. split; [lia|done].
    + split_and!; [done|lia|by intros; apply Hm|right]. split; [by intros k p ?%Hin; eapply Hno|].
      exists m. split; [done|]. right. split; [lia|done].
Qed.

(** The [AsyncRead] of a stream.  When it is pending, the polling task is registered for its
    stream, although the future that registered it is dropped.  A bug: once the
    connection is lost (closed, draining or timed out), every read answers 0 bytes,
    as it does at the end of a stream, so a truncated stream is not told from a whole one;
    a write fails with [BrokenPipe]. *)
Theorem lost_connection_reads_as_eof {A C} `{!Quiche A C} (guard task : nat) (id : N) (len : nat)
    (buf : list byte) (s : QuicConnState C) :
  (conn_dead (quiche_conn (state s)) = true →
     stream_poll_read (A:=A) guard task id len s = (cancelled s, Ready (Ok [])) ∧
     stream_poll_write (A:=A) guard task id buf s = (cancelled s, Ready (Err BrokenPipe))) ∧
  (conn_dead (quiche_conn (state s)) = false →
   is_Some (half_closed_streams (state s) !! id) →
     stream_poll_read (A:=A) guard task id len s = (s, Ready (Ok []))) ∧
  (∀ s', stream_poll_read (A:=A) guard task id len s = (s', Pending) →
     ∃ w, wakers (mediator s') !! StreamReadable (scid s') id = Some w ∧ waker w = task).
Proof.
  unfold stream_poll_read, stream_poll_write, poll_segment, run_segment. split_and!.
  - intros Hd. unfold stream_recv_segment, stream_send_segment.
    by rewrite !(bind_err _ _ _ _ _ (status_dead s Hd)).
  - intros Hd Hh. unfold stream_recv_segment.
    rewrite (bind_known _ _ _ _ _ (status_alive s Hd)).
    by rewrite (bind_err _ _ _ _ _ (stream_status_closed id s Hh)).
  - intros s'. pose proof (stream_recv_wait_event (A:=A) id len s) as Hev.
    destruct (stream_recv_segment id len s) as [s0 [[[bytes fin]| |e t]|err|]]; try done.
    destruct Hev as [-> _]. intros [= <-]. eexists. simpl. split; [apply lookup_insert_eq|done].
Qed.

(** ** Witnesses: nothing answers at address 0 *)
#[export] Instance DemoClient : QuicheClient nat DemoConn := {
  quiche_connect scid laddr raddr :=
    if decide (raddr = 0%nat) then inl (OtherQErr 1) else inr demo_conn;
}.

Definition demo_env (raddr : nat) : option nat * option ConnectionId * list (round nat) :=
  (Some 1%nat, Some [x07],
   [{| round_now := 3; round_send := λ buf _, Ok (length buf); round_recv := Err TimedOut |};
    {| round_now := 4; round_send := λ buf _, Ok (length buf); round_recv := Ok ([], demo_info) |}]).

Definition demo_attempt (a : nat) : option (res ErrorKind (QuicConnState DemoConn)) :=
  connect_with 1350 2000 (demo_env a).1.1 (demo_env a).1.2 (demo_env a).2 a.

Lemma connect_finds_server_witness :
  (∃ now c, connect demo_attempt (Ok ()) (Ok [0%nat; 5%nat]) =
     Some (Ok (QuicConnState_new now c 2000 4)) ∧ qc_is_closed c = false) ∧
  connect demo_attempt (Ok ()) (Ok []) = Some Panic.
Proof.
  destruct (connect_finds_server 1350 2000 demo_env [0%nat; 5%nat]) as (_&_&H).
  destruct (H (QuicConnState_new 4 demo_conn 2000 4)) as (now&c&Hc&_&Hcl); [reflexivity|].
  split; [|reflexivity].
  exists now, c. split; [|exact Hcl]. rewrite <-Hc. reflexivity.
Defined.

Definition demo_pool (c : QuicConnState DemoConn) : RawConnPool DemoConn :=
  {| max_conns := 1; pool_conns := {[ [x01] := 0%nat ]}; pool_heap := {[ 0%nat := c ]} |}.
Definition dead_conn : QuicConnState DemoConn :=
  QuicConnState_new 0 {| dead := true; readable := []; unsent := 0 |} 2000 4.

Lemma demo_pool_wf c : pool_wf (A:=nat) (demo_pool c).
Proof.
  intros k p Hk. change (({[ [x01] := 0%nat ]} : gmap ConnectionId nat) !! k = Some p) in Hk.
  apply lookup_singleton_Some in Hk as [_ <-]. exists c. split; [reflexivity|by exists 9].
Qed.

Lemma pool_finds_connection_witness :
  (find_avalid_conn (A:=nat) [([x01], 0%nat)] (Err Other) (demo_pool demo0)).2 = Ok 0%nat ∧
  (size (pool_conns (find_avalid_conn (A:=nat) [([x01], 0%nat)] (Err TimedOut)
     (demo_pool dead_conn)).1) ≤ 1)%nat.
Proof.
  split; [reflexivity|].
  destruct (pool_finds_connection (A:=nat) (demo_pool dead_conn)
    (find_avalid_conn (A:=nat) [([x01], 0%nat)] (Err TimedOut) (demo_pool dead_conn)).1
    [([x01], 0%nat)] (Err TimedOut) (Err TimedOut)) as (_&H&_);
    [apply demo_pool_wf|reflexivity|reflexivity|by intros c [=]|reflexivity|exact H].
Defined.

Lemma lost_connection_reads_as_eof_witness :
  (stream_poll_read (A:=nat) 1 11 4 10 dead_conn).2 = Ready (Ok []).
Proof.
  destruct (lost_connection_reads_as_eof (A:=nat) 1 11 4 10 [x00] dead_conn) as (H&_).
  destruct H as [H _]; [reflexivity|]. rewrite H. reflexivity.
Defined.
