(* ===== verification/QuicKeeps.v ===== *)
(** * crates/net/quic/src/state/conn.rs: what the methods of a connection keep

    A property of quiche's connection that every call of quiche keeps ([Keeps]; a received packet
    may have to satisfy [ok]) is kept by every method of [QuicConnState] and by every
    round of the client's tasks.  Two uses: a connection that closes stays so ([Sticky]),
    and a connection sends only from the addresses where it has received. *)

From S2P Require Import Prelude EventMap QuicConn QuicClient.

Class Keeps (A C : Type) `{!Quiche A C} (P : C → Prop) (ok : RecvInfo A → Prop) : Prop := {
  law_readable c : P c → P (stream_readable_next c).1;
  law_writable c : P c → P (stream_writable_next c).1;
  law_send c len : P c → P (qc_send c len).1;
  law_recv c buf info : ok info → P c → P (qc_recv c buf info).1;
  law_stream_send c id buf fin : P c → P (qc_stream_send c id buf fin).1;
  law_stream_recv c id len : P c → P (qc_stream_recv c id len).1;
  law_shutdown c id err : P c → P (qc_stream_shutdown c id err).1;
  law_close_keeps c app err reason : P c → P (qc_close c app err reason).1;
  law_ack c : P c → P (send_ack_eliciting c).1;
  law_on_timeout c now : P c → P (qc_on_timeout c now);
}.

(** A connection that closes: [close] starts it, and no call ends it. *)
Class Sticky (A C : Type) `{!Quiche A C} (closing : C → Prop) : Prop := {
  #[global] sticky_keeps :: Keeps A C closing (λ _, True);
  law_close c app err reason c' r :
    qc_close c app err reason = (c', r) → closing c' ∧ (r = inr () ∨ r = inl Done);
}.

Create HintDb sticky.

Ltac sticky_law :=
  solve [first [apply law_readable|apply law_writable|apply law_send|apply law_recv
    |apply law_stream_send|apply law_stream_recv|apply law_shutdown|apply law_close_keeps|apply law_ack
    |apply law_on_timeout]; done].

Section sticky.
Context {A C : Type} `{!Quiche A C} (P : C → Prop) (ok : RecvInfo A → Prop) `{!Keeps A C P ok}.

Definition sticks_rel (s s' : QuicConnState C) : Prop :=
  P (quiche_conn (state s)) → P (quiche_conn (state s')).
Definition sticks {B} (m : sm (QuicConnState C) ErrorKind B) : Prop := sm_rel sticks_rel m.

#[export] Instance sticks_preorder : PreOrder sticks_rel.
Proof. split; [by intros s Hs|]. intros s1 s2 s3 H1 H2 H. by apply H2, H1. Qed.

Lemma sticks_quiche {B} (f : C → C * B) : (∀ c, P c → P (f c).1) → sticks (quiche f).
Proof. intros Hf s Hs. unfold quiche. specialize (Hf _ Hs). by destruct (f _). Qed.
Lemma sticks_modify (f : QuicConnState C → QuicConnState C) :
  (∀ s, quiche_conn (state (f s)) = quiche_conn (state s)) → sticks (modify f).
Proof. intros Hf s Hs. unfold modify. simpl. by rewrite Hf. Qed.
Lemma sticks_gets {B} (f : QuicConnState C → B) : sticks (gets f).
Proof. by apply sm_rel_pure; [apply _|]. Qed.
Lemma sticks_ret {B} (b : B) : sticks (mret b).
Proof. apply sm_rel_ret, _. Qed.
Lemma sticks_fail {B} (e : ErrorKind) : sticks (fail (A:=B) e).
Proof. apply sm_rel_fail, _. Qed.
Lemma sticks_lift {B} (r : res ErrorKind B) : sticks (lift r).
Proof. by apply sm_rel_pure; [apply _|]. Qed.
Lemma sticks_bind {B D} (m : sm (QuicConnState C) ErrorKind B) (f : B → sm _ ErrorKind D) :
  sticks m → (∀ b, sticks (f b)) → sticks (m ≫= f).
Proof. apply sm_rel_bind, _. Qed.

#[local] Hint Resolve sticks_gets sticks_ret sticks_fail sticks_lift : sticky.

Ltac sticks_tac :=
  repeat first
    [ done
    | progress (eauto 3 with sticky nocore)
    | apply sticks_bind; [|intros ?]
    | apply sticks_quiche; intros ? ?; simpl; sticky_law
    | progress unfold notify, notify_list, set_state, get_state, quiche_ok, resume
    | case_match
    | apply sticks_modify; intros ?; simpl; by repeat case_match ].

Lemma sticks_status : sticks (handle_quic_conn_status (A:=A)).
Proof. unfold handle_quic_conn_status. sticks_tac. Qed.
#[local] Hint Resolve sticks_status : sticky.
Lemma sticks_notify_readable : sticks (notify_readable (A:=A)).
Proof. unfold notify_readable. sticks_tac. Qed.
Lemma sticks_stream_status id : sticks (handle_stream_status (C:=C) id).
Proof. unfold handle_stream_status. sticks_tac. Qed.
Lemma sticks_incoming id : sticks (handle_quic_incoming_stream (C:=C) id).
Proof. unfold handle_quic_incoming_stream. sticks_tac. Qed.
#[local] Hint Resolve sticks_notify_readable sticks_stream_status sticks_incoming : sticky.
Lemma sticks_events : sticks (handle_stream_events (A:=A)).
Proof. unfold handle_stream_events. sticks_tac. Qed.
Lemma sticks_send_timout now : sticks (handle_send_timout (A:=A) now).
Proof. unfold handle_send_timout. sticks_tac. Qed.
Lemma sticks_drop_streams now q p : sticks (drop_streams (A:=A) now q p).
Proof. revert p. induction q as [|id q IH]; intros p; simpl; sticks_tac. Qed.
Lemma drain_sticky fuel id len c : P c → P (drain_stream (A:=A) fuel id len c).1.
Proof.
  revert c. induction fuel as [|fuel IH]; intros c Hc; [done|]. simpl.
  pose proof (law_stream_recv c id len Hc) as H1. destruct (qc_stream_recv c id len) as [c' [[]|[? []]]]; try done.
  by apply IH.
Qed.
Lemma sticks_half_closed_loop l len : sticks (handle_half_closed_loop (A:=A) l len).
Proof.
  induction l as [|[id h] l IH]; simpl; [sticks_tac|]. unfold handle_half_closed_stream_resp.
  apply sticks_bind; [apply sticks_quiche; intros; by apply drain_sticky|].
  intros ?. sticks_tac.
Qed.
#[local] Hint Resolve sticks_events sticks_send_timout sticks_drop_streams sticks_half_closed_loop : sticky.
Lemma sticks_dropping now : sticks (handle_dropping_streams (A:=A) now).
Proof. unfold handle_dropping_streams. sticks_tac. Qed.
Lemma sticks_half_closed : sticks (handle_half_closed_streams (A:=A)).
Proof. unfold handle_half_closed_streams. sticks_tac. Qed.
#[local] Hint Resolve sticks_dropping sticks_half_closed : sticky.
Lemma sticks_read now len : sticks (read_segment (A:=A) now len).
Proof. unfold read_segment. sticks_tac. Qed.
Lemma sticks_read_timed_out now : sticks (read_timed_out (A:=A) now).
Proof. unfold read_timed_out. sticks_tac. Qed.
Lemma sticks_write buf info : ok info → sticks (write (A:=A) buf info).
Proof. intros Hok. unfold write. sticks_tac. Qed.
Lemma sticks_close app err reason : sticks (close (A:=A) app err reason).
Proof. unfold close. sticks_tac. Qed.
Lemma sticks_stream_send id buf fin : sticks (stream_send_segment (A:=A) id buf fin).
Proof. unfold stream_send_segment. sticks_tac. Qed.
Lemma sticks_stream_recv id len : sticks (stream_recv_segment (A:=A) id len).
Proof. unfold stream_recv_segment, stream_recv_wait. sticks_tac. Qed.
Lemma sticks_close_stream id : sticks (close_stream (A:=A) id).
Proof. unfold close_stream. sticks_tac. Qed.
Lemma sticks_shutdown id err : sticks (stream_shutdown (A:=A) id err).
Proof. unfold stream_shutdown. sticks_tac. Qed.
Lemma sticks_open : sticks (open_stream (A:=A)).
Proof. unfold open_stream. sticks_tac. Qed.
Lemma sticks_accept : sticks (accept_segment (A:=A)).
Proof.
  intros s Hs. unfold accept_segment. pose proof (sticks_status s Hs) as H1.
  destruct (handle_quic_conn_status s) as [s1 [|e|]]; try done. simpl in *.
  by destruct (incoming (state s1)).
Qed.
#[local] Hint Resolve sticks_read sticks_write : sticky.

(** The segments of [conn_step]; a packet comes with [ok]. *)
Lemma sticks_step s es s' : (∀ info, ok info) → conn_step (A:=A) s es s' → sticks_rel s s'.
Proof.
  intros Hok Hs. destruct Hs;
    [apply sticks_read|apply sticks_read_timed_out|by apply sticks_write|apply sticks_stream_send
    |apply sticks_stream_recv|apply sticks_close_stream|apply sticks_shutdown
    |apply sticks_close|apply sticks_accept|apply sticks_open|by intros Hc].
Qed.

Lemma sticks_client_recv (x : res ErrorKind (list byte * RecvInfo A)) :
  (∀ info, ok info) → sticks (client_recv_round x).
Proof. intros Hok. unfold client_recv_round. sticks_tac. Qed.
Lemma sticks_client_send guard task now len (send : list byte → SendInfo A → res ErrorKind nat) :
  sticks (run_segment guard task (client_send_round now len send)).
Proof.
  assert (sticks (client_send_round now len send)) as Hm by (unfold client_send_round; sticks_tac).
  intros s Hs. specialize (Hm s Hs). unfold run_segment.
  destruct (client_send_round now len send s) as [s' [[]| |]]; done.
Qed.
Lemma sticks_resume {R} x : sticks (resume (R:=R) x).
Proof. unfold resume. sticks_tac. Qed.
End sticky.

Section closes.
Context {A C : Type} `{!Quiche A C} (closing : C → Prop) `{!Sticky A C closing}.

(** [close] closes, and does not fail. *)
Lemma close_closes app err reason (s : QuicConnState C) :
  closing (quiche_conn (state (close (A:=A) app err reason s).1)) ∧ (close (A:=A) app err reason s).2 = Ok ().
Proof.
  unfold close, quiche, mbind, sm_bind. destruct (qc_close _ _ _ _) as [c r] eqn:Hc.
  apply law_close in Hc as [Hc Hr]. by destruct Hr as [-> | ->].
Qed.
End closes.
