(* ===== verification/QuicHandles.v ===== *)
(** * crates/net/quic: conn.rs, state/conn.rs: who keeps a connection, and who closes it

    A [QuicConnState] is a pointer, with a count, to the connection; a [QuicConn] has one and
    a share of a counter whose end spawns [close]; a [QuicStream] has a [QuicConn] and a share
    of a counter whose end spawns [close_stream]; the two tasks of a client have a [QuicConn]
    each.  [Handles] is the heap of these counts, with the tasks that were spawned; a value
    is cloned and dropped field by field, and the [Drop] of a [QuicConnState] that is alone
    spawns a task which closes the connection and forgets its pointer.  The steps of this file
    are those of one thread: a value is dropped to the end before the next step; [QuicRaces.v] has the
    accesses of a drop apart, and the drops of several threads at once. *)

From S2P Require Import Prelude EventMap QuicConn QuicClient QuicKeeps.

(** ** Values and tasks

    A counter is named by a number, in the order of creation. *)
Inductive value :=
| OState
| OConn (c : nat)
| OStream (c j : nat).

(** The tasks: the loops of a client, and those that the three [Drop]s spawn: of the counter
    [c] of a [QuicConn], of a lone [QuicConnState], of the counter [j] of stream [id]. *)
Inductive job :=
| RecvLoop (c : nat)
| SendLoop (c : nat)
| CloseConn (c : nat)
| CloseLast
| CloseStream (j : nat) (id : N) (c : nat).

#[export] Instance value_eq_dec : EqDecision value.
Proof. solve_decision. Defined.
#[export] Instance job_eq_dec : EqDecision job.
Proof. solve_decision. Defined.

(** The [QuicConn] inside. *)
Definition value_conn (v : value) : option nat :=
  match v with OState => None | OConn c | OStream c _ => Some c end.
Definition job_conn (t : job) : option nat :=
  match t with
  | RecvLoop c | SendLoop c | CloseStream _ _ c => Some c
  | CloseConn _ | CloseLast => None
  end.

Section handles.
Context {A C : Type} `{!Quiche A C}.

(** [strong]: the count of [QuicConnState::state]; [counters]: the counts of the
    [_conn_counter]s that are alive; [streams]: the [_stream_counter]s: stream, counter of
    the connection inside, count.  [forgotten]: the pointers given to [mem::forget].
    [made_conns], [made_streams] and [log] are histories: how many counters of connections
    there were, the streams of the counters of streams, the tasks spawned. *)
Record Handles := {
  conn : option (QuicConnState C);
  strong : nat;
  counters : gmap nat nat;
  streams : gmap nat (N * nat * nat);
  tasks : list job;
  forgotten : nat;
  made_conns : nat;
  made_streams : list N;
  log : list job;
}.

(** [QuicConnState::new]. *)
Definition Handles_new (s : QuicConnState C) : Handles :=
  {| conn := Some s; strong := 1; counters := ∅; streams := ∅; tasks := []; forgotten := 0;
     made_conns := 0; made_streams := []; log := [] |}.

Definition set_conn (s : option (QuicConnState C)) (n : nat) (h : Handles) : Handles :=
  {| conn := s; strong := n; counters := counters h; streams := streams h; tasks := tasks h;
     forgotten := forgotten h; made_conns := made_conns h; made_streams := made_streams h;
     log := log h |}.
Definition set_counters (m : gmap nat nat) (h : Handles) : Handles :=
  {| conn := conn h; strong := strong h; counters := m; streams := streams h; tasks := tasks h;
     forgotten := forgotten h; made_conns := made_conns h; made_streams := made_streams h;
     log := log h |}.
Definition set_streams (m : gmap nat (N * nat * nat)) (h : Handles) : Handles :=
  {| conn := conn h; strong := strong h; counters := counters h; streams := m; tasks := tasks h;
     forgotten := forgotten h; made_conns := made_conns h; made_streams := made_streams h;
     log := log h |}.
Definition set_tasks (l : list job) (h : Handles) : Handles :=
  {| conn := conn h; strong := strong h; counters := counters h; streams := streams h; tasks := l;
     forgotten := forgotten h; made_conns := made_conns h; made_streams := made_streams h;
     log := log h |}.

(** [future_spawn]. *)
Definition spawn (t : job) (h : Handles) : Handles :=
  {| conn := conn h; strong := strong h; counters := counters h; streams := streams h;
     tasks := tasks h ++ [t]; forgotten := forgotten h; made_conns := made_conns h;
     made_streams := made_streams h; log := log h ++ [t] |}.

(** ** Clone and drop *)
Definition state_clone (h : Handles) : Handles := set_conn (conn h) (S (strong h)) h.

(** The [Drop] of [QuicConnState] and the end of the [Arc] in it are two accesses to the count;
    [state_drop] is both, with nothing in between ([run_state] of [QuicRaces.v]). *)
Definition drop_check (h : Handles) : Handles :=
  if decide (strong h = 1) then spawn CloseLast (state_clone h) else h.
Definition release (h : Handles) : Handles :=
  set_conn (if decide (strong h ≤ 1) then None else conn h) (pred (strong h)) h.
Definition state_drop (h : Handles) : Handles := release (drop_check h).

Definition counter_clone (c : nat) (h : Handles) : Handles := set_counters (alter S c (counters h)) h.
(** The last share drops the [QuicConnDrop] inside: its [Drop], and then its field. *)
Definition counter_drop (c : nat) (h : Handles) : Handles :=
  match counters h !! c with
  | Some 1 => state_drop (spawn (CloseConn c) (state_clone (set_counters (delete c (counters h)) h)))
  | Some n => set_counters (<[c := pred n]> (counters h)) h
  | None => h
  end.

(** [QuicConn]: [state], then [_conn_counter]. *)
Definition conn_clone (c : nat) (h : Handles) : Handles := counter_clone c (state_clone h).
Definition conn_drop (c : nat) (h : Handles) : Handles := counter_drop c (state_drop h).

(** [From<QuicConnState> for QuicConn]; the value moves into it. *)
Definition conn_from (h : Handles) : nat * Handles :=
  let h := state_clone h in
  (made_conns h,
   {| conn := conn h; strong := strong h; counters := <[made_conns h := 1]> (counters h);
      streams := streams h; tasks := tasks h; forgotten := forgotten h;
      made_conns := S (made_conns h); made_streams := made_streams h; log := log h |}).

(** [From<(QuicConn, u64)> for QuicStream]; the connection moves into it. *)
Definition stream_from (c : nat) (id : N) (h : Handles) : nat * Handles :=
  let h := conn_clone c h in
  let j := length (made_streams h) in
  (j, {| conn := conn h; strong := strong h; counters := counters h;
         streams := <[j := (id, c, 1)]> (streams h); tasks := tasks h; forgotten := forgotten h;
         made_conns := made_conns h; made_streams := made_streams h ++ [id]; log := log h |}).

Definition stream_counter_clone (j : nat) (h : Handles) : Handles :=
  set_streams (alter (λ x, (x.1, S x.2)) j (streams h)) h.
(** The last share drops the [QuicStreamDrop] inside. *)
Definition stream_counter_drop (j : nat) (h : Handles) : Handles :=
  match streams h !! j with
  | Some (id, c, 1) =>
      conn_drop c (spawn (CloseStream j id c) (conn_clone c (set_streams (delete j (streams h)) h)))
  | Some (id, c, n) => set_streams (<[j := (id, c, pred n)]> (streams h)) h
  | None => h
  end.

(** [QuicStream]: [conn], then [_stream_counter]. *)
Definition stream_clone (c j : nat) (h : Handles) : Handles :=
  stream_counter_clone j (conn_clone c h).
Definition stream_drop (c j : nat) (h : Handles) : Handles :=
  stream_counter_drop j (conn_drop c h).

Definition value_clone (v : value) (h : Handles) : Handles :=
  match v with
  | OState => state_clone h
  | OConn c => conn_clone c h
  | OStream c j => stream_clone c j h
  end.
Definition value_drop (v : value) (h : Handles) : Handles :=
  match v with
  | OState => state_drop h
  | OConn c => conn_drop c h
  | OStream c j => stream_drop c j h
  end.

(** ** The tasks

    What a loop meets in one round: the socket's answers, or the end of its wait. *)
Inductive answer :=
| Recv (x : res ErrorKind (list byte * RecvInfo A))
| Send (guard task : nat) (now : N) (len : nat) (send : list byte → SendInfo A → res ErrorKind nat)
| TimedOutAt (now : N)
| Woken (r : EventMapError + ()).

(** A call of a method; there is none on a connection that is freed. *)
Definition call {B} (m : sm (QuicConnState C) ErrorKind B) (h : Handles) : Handles * res ErrorKind B :=
  match conn h with
  | Some s => let '(s, r) := m s in (set_conn (Some s) (strong h) h, r)
  | None => (h, Panic)
  end.

Definition is_ok {B} (r : res ErrorKind B) : bool := match r with Ok _ => true | _ => false end.

(** One round of a task; [None]: the task goes on; else, whether it ends without panic. *)
Definition task_round (t : job) (a : answer) (h : Handles) : Handles * option bool :=
  match t, a with
  | CloseConn _, _ => let '(h, r) := call (close false 0 []) h in (h, Some true)
  | CloseLast, _ => let '(h, r) := call (close false 0 (bs "raii drop")) h in (h, Some (is_ok r))
  | CloseStream _ id _, _ => let '(h, r) := call (close_stream id) h in (h, Some true)
  | RecvLoop _, Recv x =>
      let '(h, r) := call (client_recv_round x) h in (h, if is_ok r then None else Some true)
  | SendLoop _, Send guard task now len send =>
      let '(h, r) := call (run_segment guard task (client_send_round now len send)) h in (h, if is_ok r then None else Some true)
  | SendLoop _, TimedOutAt now =>
      let '(h, r) := call (read_timed_out now) h in (h, if is_ok r then None else Some true)
  | SendLoop _, Woken x =>
      let '(h, r) := call (resume (R:=nat) x) h in (h, if is_ok r then None else Some true)
  | _, _ => (h, None)
  end.

(** What a task that ends drops. *)
Definition task_end (t : job) (ok : bool) (h : Handles) : Handles :=
  match t with
  | RecvLoop c | SendLoop c | CloseStream _ _ c => conn_drop c h
  | CloseConn _ => state_drop h
  | CloseLast =>
      if ok then
        {| conn := conn h; strong := strong h; counters := counters h; streams := streams h;
           tasks := tasks h; forgotten := S (forgotten h); made_conns := made_conns h;
           made_streams := made_streams h; log := log h |}
      else state_drop h
  end.

(** One round of the task [i]. *)
Definition run_task (i : nat) (a : answer) (h : Handles) : Handles :=
  match tasks h !! i with
  | None => h
  | Some t =>
      match task_round t a h with
      | (h, None) => h
      | (h, Some ok) => task_end t ok (set_tasks (delete i (tasks h)) h)
      end
  end.

(** [QuicConn::open_stream] and a poll of [QuicConn::accept_stream]: [(self.clone(), id).into()]. *)
Definition new_stream (c : nat) (id : N) (h : Handles) : Handles * value :=
  let '(j, h) := stream_from c id (conn_clone c h) in (h, OStream c j).
Definition QuicConn_open_stream (c : nat) (h : Handles) : Handles * res ErrorKind value :=
  match call open_stream h with
  | (h, Ok id) => let '(h, v) := new_stream c id h in (h, Ok v)
  | (h, Err e) => (h, Err e)
  | (h, Panic) => (h, Panic)
  end.
Definition QuicConn_accept_stream (c : nat) (h : Handles) :
    Handles * Poll (res ErrorKind (option value)) :=
  match call accept_segment h with
  | (h, Ok (Return (Some id))) => let '(h, v) := new_stream c id h in (h, Ready (Ok (Some v)))
  | (h, Ok (Return None)) => (h, Ready (Ok None))
  | (h, Ok _) => (h, Pending)
  | (h, Err e) => (h, Ready (Err e))
  | (h, Panic) => (h, Ready Panic)
  end.

(** [run_client_loop], on a [QuicConn] that moves into it. *)
Definition run_client_loop (c : nat) (h : Handles) : Handles :=
  spawn (SendLoop c) (spawn (RecvLoop c) (conn_clone c h)).

(** ** The users of a connection

    [own] are the values that they hold.  One thread: a step is a whole operation. *)
Definition world : Type := Handles * list value.

Inductive use_step : world → world → Prop :=
| use_clone h own v : v ∈ own → use_step (h, own) (value_clone v h, v :: own)
| use_drop h own v : v ∈ own → use_step (h, own) (value_drop v h, remove_one v own)
| use_into h own :
    OState ∈ own →
    use_step (h, own) ((conn_from h).2, OConn (conn_from h).1 :: remove_one OState own)
| use_open h h' own v c st :
    v ∈ own → value_conn v = Some c → QuicConn_open_stream c h = (h', Ok st) →
    use_step (h, own) (h', st :: own)
| use_accept h h' own v c st :
    v ∈ own → value_conn v = Some c → QuicConn_accept_stream c h = (h', Ready (Ok (Some st))) →
    use_step (h, own) (h', st :: own)
| use_method h own v s s' es :
    v ∈ own → conn h = Some s → conn_step s es s' →
    use_step (h, own) (set_conn (Some s') (strong h) h, own)
| use_run h own i a : use_step (h, own) (run_task i a h, own).

(** A server: its listener makes the connection.  A client: [QuicConn::connect] makes a
    [QuicConn], spawns the loops on a clone, and returns it. *)
Definition server_start (s : QuicConnState C) : world := (Handles_new s, [OState]).
Definition client_start (s : QuicConnState C) : world :=
  let '(c, h) := conn_from (Handles_new s) in
  (run_client_loop c (conn_clone c h), [OConn c]).

End handles.
Arguments Handles : clear implicits.
Arguments world : clear implicits.

(** ** Counting the owners *)
Inductive ref := RState | RConn (c : nat) | RStream (j : nat).

#[export] Instance ref_eq_dec : EqDecision ref.
Proof. solve_decision. Defined.

Definition cnt (r : ref) (l : list ref) : nat := count_occ ref_eq_dec l r.
#[global] Arguments cnt : simpl never.

Lemma cnt_app r l k : cnt r (l ++ k) = cnt r l + cnt r k.
Proof. apply count_occ_app. Qed.
Lemma cnt_cons r a l : cnt r (a :: l) = (if decide (a = r) then 1 else 0) + cnt r l.
Proof. unfold cnt. simpl. destruct (ref_eq_dec a r); by case_decide. Qed.
#[export] Instance cnt_perm r : Proper ((≡ₚ) ==> (=)) (cnt r).
Proof. intros l k H. by apply (Permutation_count_occ ref_eq_dec). Qed.
Lemma cnt_nil r : cnt r [] = 0.
Proof. done. Qed.
Lemma cnt_elem r l : r ∈ l → 0 < cnt r l.
Proof. rewrite list_elem_of_In. apply count_occ_In. Qed.
Lemma cnt_pos r l : 0 < cnt r l → r ∈ l.
Proof. rewrite list_elem_of_In. apply count_occ_In. Qed.

(** The shares in a [QuicConn], in a value and in a task. *)
Definition conn_refs (c : nat) : list ref := [RState; RConn c].
Definition value_refs (v : value) : list ref :=
  match v with
  | OState => [RState]
  | OConn c => conn_refs c
  | OStream c j => conn_refs c ++ [RStream j]
  end.
Definition job_refs (t : job) : list ref :=
  match t with
  | RecvLoop c | SendLoop c | CloseStream _ _ c => conn_refs c
  | CloseConn _ | CloseLast => [RState]
  end.

(** Which task a counter spawns at its end. *)
Definition closes_conn (c : nat) (t : job) : bool :=
  match t with CloseConn c' => bool_decide (c' = c) | _ => false end.
Definition closes_stream (j : nat) (id : N) (t : job) : bool :=
  match t with CloseStream j' id' _ => bool_decide (j' = j ∧ id' = id) | _ => false end.
Definition last (t : job) : bool := match t with CloseLast => true | _ => false end.
Definition spawned (P : job → bool) (l : list job) : nat := length (filter (λ t, P t = true) l).

Lemma spawned_app P l k : spawned P (l ++ k) = spawned P l + spawned P k.
Proof. unfold spawned. by rewrite filter_app, length_app. Qed.
Lemma spawned_cons P t l : spawned P (t :: l) = Nat.b2n (P t) + spawned P l.
Proof. unfold spawned. rewrite filter_cons. case_decide as H; destruct (P t); done. Qed.
Lemma spawned_nil P : spawned P [] = 0.
Proof. done. Qed.

Lemma alter_known {V} (f : V → V) (m : gmap nat V) i x : m !! i = Some x → alter f i m = <[i := f x]> m.
Proof.
  intros Hi. apply map_eq. intros k. destruct (decide (i = k)) as [->|].
  - by rewrite lookup_alter_eq, lookup_insert_eq, Hi.
  - by rewrite lookup_alter_ne, lookup_insert_ne.
Qed.

Lemma spawned_in (P : job → bool) t (l : list job) : t ∈ l → P t = true → 0 < spawned P l.
Proof.
  intros [k Hk]%list_elem_of_lookup_1 HP. unfold spawned. rewrite (delete_Permutation _ _ _ Hk).
  rewrite filter_cons, decide_True by done. simpl. lia.
Qed.

(** Who is counted by [closes_conn]. *)
Lemma spawned_closes c (l : list job) : spawned (closes_conn c) l = 1 → CloseConn c ∈ l.
Proof.
  intros Hl. unfold spawned in Hl. destruct (filter _ l) as [|t k] eqn:Hf; [done|].
  assert (t ∈ filter (λ t, closes_conn c t = true) l) as Ht by (rewrite Hf; apply list_elem_of_here).
  apply list_elem_of_filter in Ht as [Hc Ht]. destruct t; simpl in Hc; try done.
  apply bool_decide_eq_true in Hc as <-. done.
Qed.

Section counting.
Context {A C : Type} `{!Quiche A C}.
Implicit Types (h : Handles C) (own : list ref).

(** The shares inside the heap, and those outside. *)
Definition shares h own : list ref :=
  pool_hold (λ _, [RState]) (counters h) ++ pool_hold (λ x, conn_refs x.1.2) (streams h) ++
  concat (job_refs <$> tasks h) ++ replicate (forgotten h) RState ++ own.

(** A count is that of its owners; a counter that has ended has spawned its task once;
    once [CloseLast] is spawned, only such tasks have the connection. *)
Record counted h own : Prop := {
  c_strong : strong h = cnt RState (shares h own);
  c_alive : 0 < strong h ∧ is_Some (conn h);
  c_conn c : default 0 (counters h !! c) = cnt (RConn c) (shares h own);
  c_conn_pos c : counters h !! c ≠ Some 0;
  c_conn_made c : is_Some (counters h !! c) → c < made_conns h;
  c_conn_log c : spawned (closes_conn c) (log h) =
    match counters h !! c with Some _ => 0 | None => if decide (c < made_conns h) then 1 else 0 end;
  c_stream j : default 0 (snd <$> streams h !! j) = cnt (RStream j) (shares h own);
  c_stream_pos j x : streams h !! j = Some x → x.2 ≠ 0 ∧ made_streams h !! j = Some x.1.1;
  c_stream_log j id : spawned (closes_stream j id) (log h) =
    match streams h !! j with
    | Some _ => 0 | None => if decide (made_streams h !! j = Some id) then 1 else 0
    end;
  c_tasks t : t ∈ tasks h → t ∈ log h;
  c_last : 0 < spawned last (log h) → strong h = spawned last (tasks h) + forgotten h;
}.

(** The shares of a heap, for one kind. *)
Lemma cnt_shares r h own :
  cnt r (shares h own) =
    cnt r (pool_hold (λ _, [RState]) (counters h)) +
    cnt r (pool_hold (λ x, conn_refs x.1.2) (streams h)) +
    cnt r (concat (job_refs <$> tasks h)) + cnt r (replicate (forgotten h) RState) + cnt r own.
Proof. unfold shares. rewrite !cnt_app. lia. Qed.

(** The order of the shares outside does not matter. *)
Lemma counted_perm h own own' : own ≡ₚ own' → counted h own → counted h own'.
Proof.
  intros Hp [H1 H2 H3 H4 H5 H6 H7 H8 H9 H10 H11].
  assert (∀ r, cnt r (shares h own) = cnt r (shares h own')) as He
    by (intros r; rewrite !cnt_shares; by rewrite Hp).
  split; try done; [by rewrite H1|intros c; by rewrite H3|intros j; by rewrite H7].
Qed.

(** Whoever has a share of a counter keeps it alive. *)
Lemma counted_conn h own c : counted h own → RConn c ∈ shares h own → ∃ n, counters h !! c = Some (S n).
Proof.
  intros H Hin%cnt_elem. pose proof (c_conn _ _ H c) as Hc. pose proof (c_conn_pos _ _ H c).
  destruct (counters h !! c) as [[|n]|]; simpl in Hc; try done; [by exists n|lia].
Qed.
Lemma counted_stream h own j :
  counted h own → RStream j ∈ shares h own → ∃ id c n, streams h !! j = Some (id, c, S n).
Proof.
  intros H Hin%cnt_elem. pose proof (c_stream _ _ H j) as Hc. pose proof (c_stream_pos _ _ H j) as Hp.
  destruct (streams h !! j) as [[[id c] n]|]; simpl in Hc; [|lia].
  destruct n as [|n]; [by destruct (Hp _ eq_refl)|by exists id, c, n].
Qed.

(** Nobody but those tasks has the connection, once [CloseLast] is spawned. *)
Lemma last_concat (l : list job) : spawned last l ≤ cnt RState (concat (job_refs <$> l)).
Proof.
  induction l as [|t l IH]; [done|].
  rewrite spawned_cons, fmap_cons. cbn [concat]. rewrite cnt_app.
  assert (Nat.b2n (last t) ≤ cnt RState (job_refs t)) by (destruct t; unfold cnt; simpl; lia). lia.
Qed.
Lemma cnt_replicate n : cnt RState (replicate n RState) = n.
Proof. induction n as [|n IH]; [done|]. simpl. rewrite cnt_cons, IH. by case_decide. Qed.

Lemma counted_no_last h own :
  counted h own → 0 < cnt RState (pool_hold (λ _, [RState]) (counters h)) + cnt RState own →
  spawned last (log h) = 0.
Proof.
  intros H Hin. destruct (spawned last (log h)) eqn:Hl; [done|]. exfalso.
  pose proof (c_last _ _ H) as H1. rewrite (c_strong _ _ H), cnt_shares, cnt_replicate in H1.
  pose proof (last_concat (tasks h)). lia.
Qed.

Lemma counted_no_last_conn h own c :
  counted h own → RConn c ∈ shares h own → spawned last (log h) = 0.
Proof.
  intros H Hc. destruct (counted_conn _ _ _ H Hc) as [n Hn]. apply (counted_no_last _ _ H).
  rewrite (pool_hold_delete _ _ _ _ Hn), cnt_app, cnt_cons. case_decide; [lia|done].
Qed.

Lemma cnt_jobs r (l k : list job) :
  cnt r (concat (job_refs <$> l ++ k)) =
    cnt r (concat (job_refs <$> l)) + cnt r (concat (job_refs <$> k)).
Proof. by rewrite fmap_app, concat_app, cnt_app. Qed.

Lemma cnt_job r t : cnt r (concat (job_refs <$> [t])) = cnt r (job_refs t).
Proof. cbn [fmap list_fmap concat]. by rewrite app_nil_r. Qed.

(** *** The primitive operations *)
Lemma counted_set_conn h own s : counted h own → counted (set_conn (Some s) (strong h) h) own.
Proof. intros [H1 H2 H3 H4 H5 H6 H7 H8 H9 H10 H11]. split; try done. split; [apply H2|by eexists]. Qed.

Lemma counted_state_clone h own :
  counted h own → spawned last (log h) = 0 → counted (state_clone h) (RState :: own).
Proof.
  intros [H1 H2 H3 H4 H5 H6 H7 H8 H9 H10 H11] Hl. split; try done; simpl.
  - rewrite H1, !cnt_shares. simpl. rewrite cnt_cons. case_decide; [lia|done].
  - split; [lia|apply H2].
  - intros c. rewrite H3, !cnt_shares. simpl. rewrite cnt_cons. by case_decide.
  - intros j. rewrite H7, !cnt_shares. simpl. rewrite cnt_cons. by case_decide.
  - lia.
Qed.

(** The release of a pointer that is not the only one. *)
Lemma counted_release h own :
  counted h (RState :: own) → 1 < strong h → counted (release h) own.
Proof.
  intros [H1 H2 H3 H4 H5 H6 H7 H8 H9 H10 H11] Hs. split; try done; simpl.
  - rewrite H1, !cnt_shares. simpl. rewrite cnt_cons. case_decide; [lia|done].
  - rewrite decide_False by lia. split; [lia|apply H2].
  - intros c. rewrite H3, !cnt_shares. simpl. rewrite cnt_cons. by case_decide.
  - intros j. rewrite H7, !cnt_shares. simpl. rewrite cnt_cons. by case_decide.
  - intros Hl. exfalso. assert (0 < cnt RState (RState :: own)) by (rewrite cnt_cons; case_decide; [lia|done]).
    rewrite (counted_no_last h (RState :: own)) in Hl; [lia|by split|lia].
Qed.

(** A lone pointer spawns its task. *)
Lemma counted_lone h own :
  counted h (RState :: own) → strong h = 1 → counted (release (spawn CloseLast (state_clone h))) own.
Proof.
  intros H Hs. pose proof H as [H1 H2 H3 H4 H5 H6 H7 H8 H9 H10 H11].
  assert (∀ r, cnt r (concat (job_refs <$> tasks h ++ [CloseLast])) =
    cnt r (concat (job_refs <$> tasks h)) + (if decide (RState = r) then 1 else 0)) as Hc.
  { intros r. rewrite cnt_jobs. simpl. rewrite cnt_cons, cnt_nil. lia. }
  split; try done; simpl.
  - rewrite Hs, cnt_shares. simpl. rewrite Hc. rewrite Hs, cnt_shares, cnt_cons in H1.
    case_decide; [lia|done].
  - rewrite decide_False by lia. split; [lia|apply H2].
  - intros c. rewrite H3, !cnt_shares. simpl. rewrite Hc, cnt_cons. case_decide; [done|lia].
  - intros c. by rewrite spawned_app, H6, spawned_cons, spawned_nil, Nat.add_0_r.
  - intros j. rewrite H7, !cnt_shares. simpl. rewrite Hc, cnt_cons. case_decide; [done|lia].
  - intros j id. by rewrite spawned_app, H9, spawned_cons, spawned_nil, Nat.add_0_r.
  - set_solver.
  - intros _. rewrite Hs, cnt_shares, cnt_cons, cnt_replicate in H1. case_decide; [|done].
    pose proof (last_concat (tasks h)). rewrite spawned_app, spawned_cons, spawned_nil. simpl. lia.
Qed.

Lemma counted_state_drop h own : counted h (RState :: own) → counted (state_drop h) own.
Proof.
  intros H. unfold state_drop, drop_check. case_decide as Hs; [by apply counted_lone|].
  apply counted_release; [done|]. destruct (c_alive _ _ H). lia.
Qed.

Lemma counted_counter_clone h own c :
  counted h own → RConn c ∈ shares h own → counted (counter_clone c h) (RConn c :: own).
Proof.
  intros H Hin. destruct (counted_conn _ _ _ H Hin) as [n Hn].
  pose proof H as [H1 H2 H3 H4 H5 H6 H7 H8 H9 H10 H11].
  unfold counter_clone. rewrite (alter_known _ _ _ _ Hn).
  assert (∀ r, cnt r (pool_hold (λ _, [RState]) (<[c:=S (S n)]> (counters h))) =
    cnt r (pool_hold (λ _, [RState]) (counters h))) as Hp.
  { intros r. pose proof (pool_hold_update (λ _, [RState]) _ _ _ (S (S n)) Hn) as Hu.
    apply (cnt_perm r) in Hu. rewrite !cnt_app in Hu. lia. }
  split; try done; simpl.
  - rewrite H1, !cnt_shares. simpl. by rewrite Hp, cnt_cons.
  - intros c'. rewrite cnt_shares. simpl. rewrite Hp, cnt_cons. specialize (H3 c').
    rewrite cnt_shares in H3. destruct (decide (c = c')) as [->|Hne].
    + rewrite lookup_insert_eq, Hn in *. simpl in *. case_decide; [lia|done].
    + rewrite lookup_insert_ne by done. case_decide; [congruence|lia].
  - intros c'. destruct (decide (c = c')) as [->|]; [by rewrite lookup_insert_eq|by rewrite lookup_insert_ne].
  - intros c' [x Hx]. apply lookup_insert_Some in Hx as [[<- _]|[_ Hx]]; apply H5; by eexists.
  - intros c'. rewrite H6. destruct (decide (c = c')) as [->|];
      [by rewrite lookup_insert_eq, Hn|by rewrite lookup_insert_ne].
  - intros j. rewrite H7, !cnt_shares. simpl. by rewrite Hp, cnt_cons.
Qed.

(** A share of a counter that is not the last one. *)
Lemma counted_counter_less h own c n :
  counted h (RConn c :: own) → counters h !! c = Some (S (S n)) →
  counted (set_counters (<[c := S n]> (counters h)) h) own.
Proof.
  intros H Hn. pose proof H as [H1 H2 H3 H4 H5 H6 H7 H8 H9 H10 H11].
  assert (∀ r, cnt r (pool_hold (λ _, [RState]) (<[c:=S n]> (counters h))) =
    cnt r (pool_hold (λ _, [RState]) (counters h))) as Hp.
  { intros r. pose proof (pool_hold_update (λ _, [RState]) _ _ _ (S n) Hn) as Hu.
    apply (cnt_perm r) in Hu. rewrite !cnt_app in Hu. lia. }
  split; try done; simpl.
  - rewrite H1, !cnt_shares. simpl. by rewrite Hp, cnt_cons.
  - intros c'. rewrite cnt_shares. simpl. rewrite Hp. specialize (H3 c').
    rewrite cnt_shares, cnt_cons in H3. destruct (decide (c = c')) as [->|Hne].
    + rewrite lookup_insert_eq, Hn in *. simpl in *. case_decide; [lia|done].
    + rewrite lookup_insert_ne by done. case_decide; [congruence|lia].
  - intros c'. destruct (decide (c = c')) as [->|]; [by rewrite lookup_insert_eq|by rewrite lookup_insert_ne].
  - intros c' [x Hx]. apply lookup_insert_Some in Hx as [[<- _]|[_ Hx]]; apply H5; by eexists.
  - intros c'. rewrite H6. destruct (decide (c = c')) as [->|];
      [by rewrite lookup_insert_eq, Hn|by rewrite lookup_insert_ne].
  - intros j. rewrite H7, !cnt_shares. simpl. by rewrite Hp, cnt_cons.
Qed.

(** The last share: the pointer of the [QuicConnDrop] and its clone are in hand. *)
Lemma counted_counter_end h own c :
  counted h (RState :: RConn c :: own) → counters h !! c = Some 1 →
  counted (set_counters (delete c (counters h)) (spawn (CloseConn c) h)) (RState :: own).
Proof.
  intros H Hn. pose proof H as [H1 H2 H3 H4 H5 H6 H7 H8 H9 H10 H11].
  assert (∀ r, cnt r (pool_hold (λ _, [RState]) (counters h)) =
    (if decide (RState = r) then 1 else 0) + cnt r (pool_hold (λ _, [RState]) (delete c (counters h)))) as Hp.
  { intros r. rewrite (pool_hold_delete _ _ _ _ Hn), cnt_app, cnt_cons, cnt_nil. lia. }
  assert (spawned last (log h) = 0) as Hl
    by (apply (counted_no_last _ _ H); rewrite cnt_cons; case_decide; [lia|done]).
  split; try done; simpl.
  - rewrite H1, !cnt_shares. simpl. rewrite Hp, cnt_jobs. simpl. rewrite !cnt_cons, cnt_nil.
    repeat case_decide; simplify_eq; lia.
  - intros c'. specialize (H3 c'). rewrite cnt_shares in H3 |- *. simpl. rewrite Hp in H3.
    rewrite cnt_jobs. simpl. rewrite !cnt_cons, cnt_nil in *. destruct (decide (c = c')) as [->|Hne].
    + rewrite lookup_delete_eq, Hn in *. simpl in *. repeat case_decide; simplify_eq; lia.
    + rewrite lookup_delete_ne by done. repeat case_decide; simplify_eq; lia.
  - intros c'. destruct (decide (c = c')) as [->|]; [by rewrite lookup_delete_eq|by rewrite lookup_delete_ne].
  - intros c' [x [_ Hx]%lookup_delete_Some]. apply H5. by eexists.
  - intros c'. rewrite spawned_app, H6, spawned_cons, spawned_nil. simpl.
    destruct (decide (c = c')) as [->|Hne].
    + rewrite lookup_delete_eq, Hn, bool_decide_true, decide_True; [done|apply H5; by eexists|done].
    + rewrite lookup_delete_ne, bool_decide_false by done. simpl. lia.
  - intros j. rewrite H7, !cnt_shares. simpl. rewrite Hp, cnt_jobs. simpl. rewrite !cnt_cons, cnt_nil.
    repeat case_decide; simplify_eq; lia.
  - intros j id. by rewrite spawned_app, H9, spawned_cons, spawned_nil, Nat.add_0_r.
  - set_solver.
  - rewrite spawned_app, Hl, spawned_cons, spawned_nil. simpl. lia.
Qed.

Lemma counted_counter_drop h own c : counted h (RConn c :: own) → counted (counter_drop c h) own.
Proof.
  intros H. unfold counter_drop.
  assert (RConn c ∈ shares h (RConn c :: own)) as Hin by (unfold shares; set_solver).
  destruct (counted_conn _ _ _ H Hin) as [[|n] Hn]; rewrite Hn; [|by apply counted_counter_less].
  apply counted_state_drop. apply (counted_counter_end (state_clone h)); [|done].
  apply counted_state_clone; [done|]. by eapply counted_no_last_conn.
Qed.

(** *** A [QuicConn] *)
Lemma counted_conn_clone h own c :
  counted h own → RConn c ∈ shares h own → counted (conn_clone c h) (conn_refs c ++ own).
Proof.
  intros H Hin. apply (counted_perm _ (RConn c :: RState :: own)); [apply perm_swap|].
  apply counted_counter_clone.
  - apply counted_state_clone; [done|]. by eapply counted_no_last_conn.
  - unfold shares in *. simpl. set_solver.
Qed.

Lemma counted_conn_drop h own c : counted h (conn_refs c ++ own) → counted (conn_drop c h) own.
Proof. intros H. by apply counted_counter_drop, counted_state_drop. Qed.

Lemma counted_conn_from h own :
  counted h (RState :: own) → counted (conn_from h).2 (conn_refs (conn_from h).1 ++ own).
Proof.
  intros H. assert (spawned last (log h) = 0) as Hl
    by (apply (counted_no_last _ _ H); rewrite cnt_cons; case_decide; [lia|done]).
  pose proof H as [H1 H2 H3 H4 H5 H6 H7 H8 H9 H10 H11].
  assert (counters h !! made_conns h = None) as Hn.
  { destruct (counters h !! made_conns h) eqn:Hc; [|done]. exfalso.
    pose proof (H5 (made_conns h) ltac:(by eexists)). lia. }
  assert (∀ r, cnt r (pool_hold (λ _, [RState]) (<[made_conns h := 1]> (counters h))) =
    (if decide (RState = r) then 1 else 0) + cnt r (pool_hold (λ _, [RState]) (counters h))) as Hp.
  { intros r. rewrite pool_hold_insert, cnt_app, cnt_cons, cnt_nil by done. lia. }
  split; try done; simpl.
  - rewrite H1, !cnt_shares. simpl. rewrite Hp, !cnt_cons. repeat case_decide; simplify_eq; lia.
  - split; [lia|apply H2].
  - intros c. specialize (H3 c). rewrite cnt_shares in H3 |- *. simpl. rewrite Hp.
    rewrite !cnt_cons in *. destruct (decide (made_conns h = c)) as [<-|Hne].
    + rewrite lookup_insert_eq, Hn in *. simpl in *. repeat case_decide; simplify_eq; lia.
    + rewrite lookup_insert_ne by done. repeat case_decide; simplify_eq; lia.
  - intros c. destruct (decide (made_conns h = c)) as [<-|];
      [by rewrite lookup_insert_eq|by rewrite lookup_insert_ne].
  - intros c [x Hx]. apply lookup_insert_Some in Hx as [[<- _]|[_ Hx]]; [lia|].
    specialize (H5 c ltac:(by eexists)). lia.
  - intros c. rewrite H6. destruct (decide (made_conns h = c)) as [<-|Hne].
    + rewrite lookup_insert_eq, Hn. by rewrite decide_False by lia.
    + rewrite lookup_insert_ne by done. destruct (counters h !! c); [done|].
      repeat case_decide; lia.
  - intros j. rewrite H7, !cnt_shares. simpl. rewrite Hp, !cnt_cons. repeat case_decide; simplify_eq; lia.
  - lia.
Qed.

(** *** A [QuicStream] *)
Lemma counted_stream_from h own c id :
  counted h (conn_refs c ++ own) →
  counted (stream_from c id h).2 (value_refs (OStream c (stream_from c id h).1) ++ own).
Proof.
  intros H0. assert (RConn c ∈ shares h (conn_refs c ++ own)) as Hin by (unfold shares; set_solver).
  pose proof (counted_conn_clone _ _ _ H0 Hin) as H.
  pose proof H as [H1 H2 H3 H4 H5 H6 H7 H8 H9 H10 H11]. unfold stream_from. set (h1 := conn_clone c h) in *.
  set (j := length (made_streams h1)).
  assert (made_streams h1 !! j = None) as Hj by (by apply lookup_ge_None_2).
  assert (streams h1 !! j = None) as Hn.
  { destruct (streams h1 !! j) as [x|] eqn:Hx; [|done]. apply H8 in Hx as [_ Hx]. congruence. }
  assert (∀ r, cnt r (pool_hold (λ x, conn_refs x.1.2) (<[j := (id, c, 1)]> (streams h1))) =
    cnt r (conn_refs c) + cnt r (pool_hold (λ x, conn_refs x.1.2) (streams h1))) as Hp.
  { intros r. by rewrite pool_hold_insert, cnt_app. }
  assert (∀ r own', cnt r (value_refs (OStream c j) ++ own') =
    cnt r (conn_refs c) + (if decide (RStream j = r) then 1 else 0) + cnt r own') as Hv.
  { intros r own'. simpl. unfold conn_refs. rewrite !cnt_cons, cnt_nil. lia. }
  split; try done; cbn [counters streams tasks forgotten strong conn log made_conns made_streams fst snd].
  - rewrite H1, !cnt_shares. cbn [counters streams tasks forgotten]. rewrite Hp, Hv, !cnt_app.
    case_decide; [done|]. fold h1. lia.
  - intros c'. rewrite H3, !cnt_shares. cbn [counters streams tasks forgotten].
    rewrite Hp, Hv, !cnt_app. case_decide; [done|]. fold h1. lia.
  - intros j'. specialize (H7 j'). rewrite cnt_shares in H7 |- *. cbn [counters streams tasks forgotten].
    rewrite Hp, Hv. rewrite !cnt_app in H7. fold h1.
    destruct (decide (j = j')) as [<-|Hne].
    + rewrite lookup_insert_eq, Hn in *. simpl in *. case_decide; [lia|done].
    + rewrite lookup_insert_ne by done. case_decide; [congruence|lia].
  - intros j' x [[<- <-]|[Hne Hx]]%lookup_insert_Some.
    + split; [done|]. by rewrite lookup_app_r, Nat.sub_diag by done.
    + apply H8 in Hx as [? Hx]. split; [done|]. by apply lookup_app_l_Some.
  - intros j' id'. rewrite H9. destruct (decide (j = j')) as [<-|Hne].
    + rewrite lookup_insert_eq, Hn. by rewrite Hj, decide_False.
    + rewrite lookup_insert_ne by done. destruct (streams h1 !! j'); [done|].
      assert ((made_streams h1 ++ [id]) !! j' = made_streams h1 !! j') as ->; [|done].
      destruct (decide (j' < j)); [by apply lookup_app_l|].
      rewrite !lookup_ge_None_2; [done|unfold j in *; lia|].
      rewrite length_app. unfold j in *. cbn [length]. lia.
Qed.

Lemma counted_stream_set h own own' j id c n n' :
  counted h own → streams h !! j = Some (id, c, n) → n' ≠ 0 →
  (∀ r, cnt r own' + (if decide (RStream j = r) then n else 0) =
        cnt r own + (if decide (RStream j = r) then n' else 0)) →
  counted (set_streams (<[j := (id, c, n')]> (streams h)) h) own'.
Proof.
  intros H Hn Hn' Ho. pose proof H as [H1 H2 H3 H4 H5 H6 H7 H8 H9 H10 H11].
  assert (∀ r, cnt r (pool_hold (λ x, conn_refs x.1.2) (<[j := (id, c, n')]> (streams h))) =
    cnt r (pool_hold (λ x, conn_refs x.1.2) (streams h))) as Hp.
  { intros r. pose proof (pool_hold_update (λ x : N * nat * nat, conn_refs x.1.2) _ _ _ (id, c, n') Hn) as Hu.
    apply (cnt_perm r) in Hu. rewrite !cnt_app in Hu. simpl in Hu. lia. }
  split; try done; simpl.
  - rewrite H1, !cnt_shares. simpl. rewrite Hp. specialize (Ho RState). case_decide; [done|]. lia.
  - intros c'. rewrite H3, !cnt_shares. simpl. rewrite Hp. specialize (Ho (RConn c')). case_decide; [done|]. lia.
  - intros j'. specialize (H7 j'). rewrite cnt_shares in H7 |- *. simpl. rewrite Hp. specialize (Ho (RStream j')).
    destruct (decide (j = j')) as [<-|Hne].
    + rewrite lookup_insert_eq, Hn in *. simpl in *. repeat case_decide; simplify_eq; lia.
    + rewrite lookup_insert_ne by done. repeat case_decide; simplify_eq; lia.
  - intros j' x [[<- <-]|[Hne Hx]]%lookup_insert_Some; [|by apply H8]. split; [done|]. by apply H8 in Hn as [_ ?].
  - intros j' id'. rewrite H9. destruct (decide (j = j')) as [<-|];
      [by rewrite lookup_insert_eq, Hn|by rewrite lookup_insert_ne].
Qed.

(** The last share: the [QuicConn] of the [QuicStreamDrop] and its clone are in hand. *)
Lemma counted_stream_end h own j id c :
  counted h (conn_refs c ++ RStream j :: own) → streams h !! j = Some (id, c, 1) →
  counted (set_streams (delete j (streams h)) (spawn (CloseStream j id c) h)) (conn_refs c ++ own).
Proof.
  intros H Hn. pose proof H as [H1 H2 H3 H4 H5 H6 H7 H8 H9 H10 H11].
  assert (∀ r, cnt r (pool_hold (λ x, conn_refs x.1.2) (streams h)) =
    cnt r (conn_refs c) + cnt r (pool_hold (λ x, conn_refs x.1.2) (delete j (streams h)))) as Hp.
  { intros r. by rewrite (pool_hold_delete _ _ _ _ Hn), cnt_app. }
  assert (spawned last (log h) = 0) as Hl
    by (apply (counted_no_last _ _ H); simpl; rewrite cnt_cons; case_decide; [lia|done]).
  assert (∀ r, cnt r (conn_refs c ++ RStream j :: own) =
    cnt r (conn_refs c) + (if decide (RStream j = r) then 1 else 0) + cnt r own) as Hv.
  { intros r. rewrite cnt_app, cnt_cons. lia. }
  split; try done; cbn [counters streams tasks forgotten strong conn log made_conns made_streams set_streams spawn].
  - rewrite H1, !cnt_shares. cbn [counters streams tasks forgotten set_streams spawn].
    rewrite Hp, Hv, cnt_jobs, cnt_app. cbn [fmap list_fmap concat job_refs]. rewrite app_nil_r.
    case_decide; [done|]. lia.
  - intros c'. rewrite H3, !cnt_shares. cbn [counters streams tasks forgotten set_streams spawn].
    rewrite Hp, Hv, cnt_jobs, cnt_app. cbn [fmap list_fmap concat job_refs]. rewrite app_nil_r.
    case_decide; [done|]. lia.
  - intros c'. by rewrite spawned_app, H6, spawned_cons, spawned_nil, Nat.add_0_r.
  - intros j'. specialize (H7 j'). rewrite cnt_shares in H7 |- *.
    cbn [counters streams tasks forgotten set_streams spawn].
    rewrite cnt_jobs, cnt_app. cbn [fmap list_fmap concat job_refs]. rewrite app_nil_r.
    rewrite Hp, Hv in H7. destruct (decide (j = j')) as [<-|Hne].
    + rewrite lookup_delete_eq. rewrite Hn, decide_True in H7 by done.
      change (default 0 (snd <$> Some (id, c, 1))) with 1 in H7. cbn [fmap option_fmap option_map default]. lia.
    + rewrite lookup_delete_ne by done. rewrite decide_False in H7 by congruence. lia.
  - intros j' x [_ Hx]%lookup_delete_Some. by apply H8.
  - intros j' id'. rewrite spawned_app, H9, spawned_cons, spawned_nil. simpl.
    destruct (H8 _ _ Hn) as [_ Hm]. simpl in Hm. destruct (decide (j = j')) as [<-|Hne].
    + rewrite lookup_delete_eq, Hn, Hm. case_bool_decide; case_decide; naive_solver.
    + rewrite lookup_delete_ne, bool_decide_false by naive_solver. simpl. lia.
  - set_solver.
  - rewrite spawned_app, Hl, spawned_cons, spawned_nil. simpl. lia.
Qed.

Lemma counted_stream_counter_drop h own j :
  counted h (RStream j :: own) → counted (stream_counter_drop j h) own.
Proof.
  intros H. unfold stream_counter_drop.
  assert (RStream j ∈ shares h (RStream j :: own)) as Hin by (unfold shares; set_solver).
  destruct (counted_stream _ _ _ H Hin) as (id&c&[|n]&Hn); rewrite Hn.
  - apply counted_conn_drop. apply (counted_stream_end (conn_clone c h)); [|done].
    apply counted_conn_clone; [done|]. unfold shares. apply elem_of_app. right. apply elem_of_app. left.
    eapply pool_hold_In; [done|]. simpl. set_solver.
  - eapply counted_stream_set; [done|done|done|]. intros r. rewrite cnt_cons. case_decide; lia.
Qed.

Lemma counted_stream_clone h own c j :
  counted h own → RConn c ∈ shares h own → RStream j ∈ shares h own →
  counted (stream_clone c j h) (value_refs (OStream c j) ++ own).
Proof.
  intros H Hc Hj. pose proof (counted_conn_clone _ _ _ H Hc) as H1. unfold stream_clone, stream_counter_clone.
  set (h1 := conn_clone c h) in *.
  destruct (counted_stream _ _ _ H Hj) as (id&c'&n&Hn). change (streams h) with (streams h1) in Hn. rewrite (alter_known _ _ _ _ Hn).
  eapply counted_stream_set; [done|done|done|]. intros r. simpl. unfold conn_refs.
  rewrite !cnt_cons. repeat case_decide; simplify_eq; simpl; lia.
Qed.

Lemma counted_stream_drop h own c j :
  counted h (value_refs (OStream c j) ++ own) → counted (stream_drop c j h) own.
Proof.
  intros H. apply counted_stream_counter_drop, counted_conn_drop. simpl in *. done.
Qed.

(** *** Values and tasks *)
Lemma counted_value_clone h own v l :
  counted h (value_refs v ++ own) → l ≡ₚ value_refs v ++ own → counted (value_clone v h) (value_refs v ++ l).
Proof.
  intros H Hl. apply (counted_perm _ (value_refs v ++ value_refs v ++ own)); [by rewrite Hl|].
  destruct v as [|c|c j]; simpl value_clone.
  - apply counted_state_clone; [done|]. apply (counted_no_last _ _ H). simpl. rewrite cnt_cons.
    case_decide; [lia|done].
  - apply counted_conn_clone; [done|]. unfold shares. set_solver.
  - apply counted_stream_clone; [done|..]; unfold shares; set_solver.
Qed.

Lemma counted_value_drop h own v : counted h (value_refs v ++ own) → counted (value_drop v h) own.
Proof.
  destruct v; [apply counted_state_drop|apply counted_conn_drop|apply counted_stream_drop].
Qed.

(** The spawn of a loop. *)
Lemma counted_spawn h own t c :
  counted h (job_refs t ++ own) → t = RecvLoop c ∨ t = SendLoop c → counted (spawn t h) own.
Proof.
  intros H Ht. assert (spawned last (log h) = 0) as Hl.
  { apply (counted_no_last _ _ H). rewrite cnt_app.
    destruct Ht as [-> | ->]; unfold job_refs, conn_refs; rewrite cnt_cons; (case_decide; [lia|done]). }
  pose proof H as [H1 H2 H3 H4 H5 H6 H7 H8 H9 H10 H11].
  assert (∀ r, cnt r (shares (spawn t h) own) = cnt r (shares h (job_refs t ++ own))) as Hc.
  { intros r. rewrite !cnt_shares. simpl. rewrite cnt_jobs, cnt_app. simpl. rewrite app_nil_r. lia. }
  split; try done; simpl.
  - by rewrite H1, Hc.
  - intros c'. by rewrite Hc.
  - intros c'. rewrite spawned_app, H6, spawned_cons, spawned_nil. destruct Ht as [-> | ->]; simpl; lia.
  - intros j. by rewrite Hc.
  - intros j id. rewrite spawned_app, H9, spawned_cons, spawned_nil. destruct Ht as [-> | ->]; simpl; lia.
  - set_solver.
  - rewrite spawned_app, Hl, spawned_cons, spawned_nil. destruct Ht as [-> | ->]; simpl; lia.
Qed.

Lemma job_delete (l : list job) i t :
  l !! i = Some t →
  (∀ r, cnt r (concat (job_refs <$> l)) = cnt r (job_refs t) + cnt r (concat (job_refs <$> delete i l))) ∧
  ∀ P, spawned P l = Nat.b2n (P t) + spawned P (delete i l).
Proof.
  intros Hi. apply delete_Permutation in Hi. split.
  - intros r. rewrite Hi at 1. rewrite fmap_cons. cbn [concat]. apply cnt_app.
  - intros P. unfold spawned at 1. rewrite Hi at 1. apply spawned_cons.
Qed.

(** A task takes its shares with it. *)
Lemma counted_task h own i t :
  counted h own → tasks h !! i = Some t → t ≠ CloseLast →
  counted (set_tasks (delete i (tasks h)) h) (job_refs t ++ own).
Proof.
  intros H Ht Hne. destruct (job_delete _ _ _ Ht) as [Hc Hs].
  pose proof H as [H1 H2 H3 H4 H5 H6 H7 H8 H9 H10 H11].
  assert (∀ r, cnt r (shares (set_tasks (delete i (tasks h)) h) (job_refs t ++ own)) = cnt r (shares h own)) as He.
  { intros r. rewrite !cnt_shares. simpl. rewrite Hc, cnt_app. lia. }
  split; try done; simpl.
  - by rewrite H1, He.
  - intros c. by rewrite He.
  - intros j. by rewrite He.
  - intros t' Ht'. apply H10. rewrite (delete_Permutation _ _ _ Ht). set_solver.
  - intros Hl. rewrite H11, Hs by done. by destruct t.
Qed.

(** Only the tasks and the forgotten pointers change. *)
Lemma counted_retask h h' own d :
  counted h own → counters h' = counters h → streams h' = streams h →
  made_conns h' = made_conns h → made_streams h' = made_streams h →
  log h' = log h ∨ log h' = log h ++ [CloseLast] →
  (∀ r, cnt r (concat (job_refs <$> tasks h')) + cnt r (replicate (forgotten h') RState) +
        (if decide (RState = r) then d else 0) =
        cnt r (concat (job_refs <$> tasks h)) + cnt r (replicate (forgotten h) RState)) →
  strong h' + d = strong h → 0 < strong h' ∧ is_Some (conn h') →
  (∀ t, t ∈ tasks h' → t ∈ log h') → strong h' = spawned last (tasks h') + forgotten h' →
  counted h' own.
Proof.
  intros [H1 H2 H3 H4 H5 H6 H7 H8 H9 H10 H11] Ec Es Emc Ems El Er Est Hal Ht Hlast.
  assert (∀ r, cnt r (shares h' own) + (if decide (RState = r) then d else 0) = cnt r (shares h own)) as He
    by (intros r; specialize (Er r); rewrite !cnt_shares, Ec, Es; lia).
  assert (∀ P, P CloseLast = false → spawned P (log h') = spawned P (log h)) as Hlog.
  { intros P HP. destruct El as [-> | ->]; [done|]. rewrite spawned_app, spawned_cons, spawned_nil, HP. simpl. lia. }
  split; rewrite ?Ec, ?Es, ?Emc, ?Ems; try done.
  - specialize (He RState). rewrite decide_True in He by done. lia.
  - intros c. specialize (He (RConn c)). rewrite decide_False in He by done. rewrite H3. lia.
  - intros c. by rewrite Hlog.
  - intros j. specialize (He (RStream j)). rewrite decide_False in He by done. rewrite H7. lia.
  - intros j id. by rewrite Hlog.
Qed.

(** The task of a lone pointer: it forgets the pointer, or panics and drops it. *)
Lemma counted_last_task h own i ok :
  counted h own → tasks h !! i = Some CloseLast →
  counted (task_end CloseLast ok (set_tasks (delete i (tasks h)) h)) own.
Proof.
  intros H Ht. destruct (job_delete _ _ _ Ht) as [Hc Hs].
  pose proof (c_alive _ _ H) as [Hpos Hconn].
  assert (CloseLast ∈ log h) as Hin by (apply (c_tasks _ _ H); by eapply list_elem_of_lookup_2).
  assert (strong h = S (spawned last (delete i (tasks h))) + forgotten h) as Hl.
  { rewrite (c_last _ _ H), Hs; [done|]. apply list_elem_of_lookup_1 in Hin as [k Hk].
    destruct (job_delete _ _ _ Hk) as [_ Hlog]. rewrite Hlog. simpl. lia. }
  assert (∀ t, t ∈ delete i (tasks h) → t ∈ log h) as Hsub
    by (intros t' Ht'; apply (c_tasks _ _ H); rewrite (delete_Permutation _ _ _ Ht); set_solver).
  assert (∀ r, cnt r (job_refs CloseLast) = if decide (RState = r) then 1 else 0) as Hj
    by (intros r; unfold job_refs; rewrite cnt_cons, cnt_nil; lia).
  unfold task_end, state_drop, drop_check. destruct ok; [|case_decide as Hone; simpl in Hone].
  - apply counted_retask with h 0; simpl; try done; try lia; [by left|].
    intros r. rewrite Hc, Hj, cnt_cons. case_decide; lia.
  - apply counted_retask with h 0; simpl; try done; try lia; [by right| | |set_solver|].
    + intros r. rewrite cnt_jobs, cnt_job, Hc, !Hj. case_decide; lia.
    + rewrite decide_False by lia. split; [lia|done].
    + rewrite spawned_app, spawned_cons, spawned_nil. simpl. lia.
  - apply counted_retask with h 1; simpl; try done; try lia; [by left| |].
    + intros r. rewrite Hc, Hj. case_decide; lia.
    + rewrite decide_False by lia. split; [lia|done].
Qed.

End counting.

(** ** The steps of the users and of the tasks *)
Section steps.
Context {A C : Type} `{!Quiche A C}.
Implicit Types (h : Handles C) (w : world C).

Definition own_refs (own : list value) : list ref := concat (value_refs <$> own).
Definition counted_world w : Prop := counted w.1 (own_refs w.2).

Lemma own_refs_remove own v : v ∈ own → own_refs own ≡ₚ value_refs v ++ own_refs (remove_one v own).
Proof. intros Hv. unfold own_refs. by rewrite (remove_one_perm v own Hv) at 1. Qed.

(** A method changes the connection, and nothing else. *)
Lemma call_conn {B} (m : sm (QuicConnState C) ErrorKind B) h h' r :
  is_Some (conn h) → call m h = (h', r) →
  ∃ s, conn h = Some s ∧ h' = set_conn (Some (m s).1) (strong h) h ∧ r = (m s).2.
Proof.
  intros [s Hs]. unfold call. rewrite Hs. destruct (m s) as [s' r'] eqn:Hm. intros [= <- <-].
  exists s. by rewrite Hm.
Qed.

Lemma task_round_conn t (a : answer (A:=A)) h h' r :
  is_Some (conn h) → task_round t a h = (h', r) →
  ∃ s s', conn h = Some s ∧ h' = set_conn (Some s') (strong h) h.
Proof.
  intros [s Hs]. assert (h = set_conn (Some s) (strong h) h) as Hh by (destruct h; simpl in *; by subst).
  destruct t, a; unfold task_round, call; rewrite ?Hs; repeat case_match; intros [= <- <-];
    simplify_eq; eauto.
Qed.

Lemma counted_run_task h own i (a : answer (A:=A)) : counted h own → counted (run_task i a h) own.
Proof.
  intros H. unfold run_task. destruct (tasks h !! i) as [t|] eqn:Ht; [|done].
  destruct (task_round t a h) as [h1 r] eqn:Hr.
  destruct (task_round_conn _ _ _ _ _ (proj2 (c_alive _ _ H)) Hr) as (s&s'&_&->).
  pose proof (counted_set_conn _ _ s' H) as H1. destruct r as [ok|]; [|done].
  destruct (decide (t = CloseLast)) as [->|Hne]; [by apply counted_last_task|].
  pose proof (counted_task _ _ _ _ H1 Ht Hne) as H2.
  destruct t; try done; try by apply counted_conn_drop. by apply counted_state_drop.
Qed.

Lemma open_stream_made c h h' st :
  QuicConn_open_stream c h = (h', Ok st) →
  ∃ h1 id, call (open_stream (A:=A)) h = (h1, Ok id) ∧ (h', st) = new_stream c id h1.
Proof.
  unfold QuicConn_open_stream. destruct (call open_stream h) as [h1 [id|e|]]; try done.
  destruct (new_stream c id h1) eqn:Hn. intros [= <- <-]. eauto.
Qed.
Lemma accept_stream_made c h h' st :
  QuicConn_accept_stream c h = (h', Ready (Ok (Some st))) →
  ∃ h1 id, call (accept_segment (A:=A)) h = (h1, Ok (Return (Some id))) ∧ (h', st) = new_stream c id h1.
Proof.
  unfold QuicConn_accept_stream. destruct (call accept_segment h) as [h1 [[[id|]| |]|e|]]; try done.
  destruct (new_stream c id h1) eqn:Hn. intros [= <- <-]. eauto.
Qed.

Lemma new_stream_eq c id h h' st :
  (h', st) = new_stream c id h →
  h' = (stream_from c id (conn_clone c h)).2 ∧ st = OStream c (stream_from c id (conn_clone c h)).1.
Proof. unfold new_stream. destruct (stream_from _ _ _). by intros [= -> ->]. Qed.

Lemma counted_new_stream h h' own v st c id h1 {B} (m : sm (QuicConnState C) ErrorKind B) r :
  counted_world (h, own) → v ∈ own → value_conn v = Some c → call m h = (h1, r) →
  (h', st) = new_stream c id h1 → counted_world (h', st :: own).
Proof.
  intros H Hv Hc Hm [-> ->]%new_stream_eq. destruct (call_conn _ _ _ _ (proj2 (c_alive _ _ H)) Hm) as (s&_&->&_).
  apply counted_stream_from, counted_conn_clone; [by apply counted_set_conn|].
  unfold shares. assert (RConn c ∈ own_refs own); [|set_solver].
  rewrite (own_refs_remove own v Hv). destruct v; simplify_eq/=; set_solver.
Qed.

Lemma counted_step w w' : counted_world w → use_step (A:=A) w w' → counted_world w'.
Proof.
  intros H Hs. destruct Hs.
  - apply (counted_value_clone h (own_refs (remove_one v own))); [|by apply own_refs_remove].
    by eapply counted_perm; [apply own_refs_remove|].
  - apply counted_value_drop. by eapply counted_perm; [apply own_refs_remove|].
  - apply counted_conn_from. by eapply counted_perm; [apply (own_refs_remove own OState)|].
  - destruct (open_stream_made _ _ _ _ ltac:(eassumption)) as (h1&id&?&?). by eapply counted_new_stream.
  - destruct (accept_stream_made _ _ _ _ ltac:(eassumption)) as (h1&id&?&?). by eapply counted_new_stream.
  - by apply counted_set_conn.
  - by apply counted_run_task.
Qed.

Lemma counted_new (s : QuicConnState C) : counted (Handles_new s) [RState].
Proof.
  split; try done; cbn [Handles_new counters streams conn strong tasks log made_conns made_streams].
  - split; [lia|by eexists].
  - intros c [x Hx]. by rewrite lookup_empty in Hx.
  - rewrite spawned_nil. lia.
Qed.

Lemma counted_server (s : QuicConnState C) : counted_world (server_start s).
Proof. apply counted_new. Qed.

Lemma counted_client (s : QuicConnState C) : counted_world (client_start s).
Proof.
  unfold client_start. pose proof (counted_conn_from _ [] (counted_new s)) as H1.
  destruct (conn_from (Handles_new s)) as [c h] eqn:Hcf. simpl in H1.
  assert (∀ h own, counted h (conn_refs c ++ own) →
    counted (conn_clone c h) (conn_refs c ++ conn_refs c ++ own)) as Hcl
    by (intros h' own Hh; apply counted_conn_clone; [done|unfold shares; set_solver]).
  unfold run_client_loop. eapply counted_spawn; [|by right]. eapply counted_spawn; [|by left].
  apply Hcl, Hcl, H1.
Qed.
End steps.

(** ** What a step of the users leaves alone *)
Section frame.
Context {A C : Type} `{!Quiche A C}.
Implicit Types (h : Handles C) (w : world C).

(** No stream counter changes its stream, or the counter of its connection. *)
Definition keeps_streams h h' : Prop :=
  ∀ j x, streams h' !! j = Some x → ∃ n, streams h !! j = Some (x.1, n).
(** New tasks are logged, and are not loops; a connection that is not freed is left alone. *)
Definition grows h h' : Prop :=
  ∃ l, tasks h' = tasks h ++ l ∧ log h' = log h ++ l ∧
    Forall (λ t, ∀ c, t ≠ RecvLoop c ∧ t ≠ SendLoop c) l ∧
    (is_Some (conn h') → conn h' = conn h) ∧ made_conns h ≤ made_conns h'.

#[export] Instance keeps_streams_preorder : PreOrder keeps_streams.
Proof.
  split; [intros h j [y n] Hx; by exists n|]. intros h1 h2 h3 H12 H23 j x Hx.
  apply H23 in Hx as [n Hn]. by apply H12 in Hn.
Qed.
#[export] Instance grows_preorder : PreOrder grows.
Proof.
  split; [intros h; exists []; by rewrite !app_nil_r|].
  intros h1 h2 h3 (l&T1&L1&F1&C1&M1) (k&T2&L2&F2&C2&M2). exists (l ++ k).
  rewrite T2, T1, L2, L1, !app_assoc. split_and!; [done|done|by apply Forall_app| |lia].
  intros Hs. rewrite (C2 Hs). apply C1. by rewrite <-(C2 Hs).
Qed.

Lemma grows_same h h' :
  tasks h' = tasks h → log h' = log h → conn h' = conn h → made_conns h ≤ made_conns h' → grows h h'.
Proof. intros Ht Hl Hc Hm. exists []. by rewrite !app_nil_r. Qed.
Lemma grows_spawn h t : (∀ c, t ≠ RecvLoop c ∧ t ≠ SendLoop c) → grows h (spawn t h).
Proof. intros Ht. exists [t]. split_and!; try done. by constructor. Qed.
Lemma grows_release h : grows h (release h).
Proof.
  exists []. rewrite !app_nil_r. split_and!; try done. simpl. case_decide; [by intros []|done].
Qed.

Lemma grows_state_drop h : grows h (state_drop h).
Proof.
  unfold state_drop, drop_check. case_decide; [|apply grows_release].
  etrans; [|apply grows_release]. etrans; [|by apply grows_spawn]. by apply grows_same.
Qed.
Lemma grows_counter_drop c h : grows h (counter_drop c h).
Proof.
  unfold counter_drop. destruct (counters h !! c) as [[|[|n]]|]; try by apply grows_same.
  etrans; [|apply grows_state_drop]. etrans; [|by apply grows_spawn]. by apply grows_same.
Qed.
Lemma grows_conn_drop c h : grows h (conn_drop c h).
Proof. etrans; [apply grows_state_drop|apply grows_counter_drop]. Qed.
Lemma grows_stream_counter_drop j h : grows h (stream_counter_drop j h).
Proof.
  unfold stream_counter_drop. destruct (streams h !! j) as [[[id c] [|[|n]]]|]; try by apply grows_same.
  etrans; [|apply grows_conn_drop]. etrans; [|by apply grows_spawn]. by apply grows_same.
Qed.
Lemma grows_value_drop v h : grows h (value_drop v h).
Proof.
  destruct v; [apply grows_state_drop|apply grows_conn_drop|].
  etrans; [apply grows_conn_drop|apply grows_stream_counter_drop].
Qed.
Lemma grows_value_clone v h : grows h (value_clone v h).
Proof. by destruct v; apply grows_same. Qed.

(** The counters of streams. *)
Lemma streams_conn_drop c h : streams (conn_drop c h) = streams h.
Proof.
  unfold conn_drop, counter_drop, state_drop, drop_check. repeat (case_match; simpl; try done).
Qed.
Lemma keeps_stream_counter_drop j h : keeps_streams h (stream_counter_drop j h).
Proof.
  unfold stream_counter_drop. destruct (streams h !! j) as [[[id c] n]|] eqn:Hj; [|done].
  assert (∀ m, keeps_streams h (set_streams (<[j := (id, c, m)]> (streams h)) h)) as Hset.
  { intros m j' x. simpl. intros [[<- <-]|[_ Hx]]%lookup_insert_Some; [by exists n|].
    destruct x as [y k]. by exists k. }
  destruct n as [|[|n]]; try apply Hset. intros j' [y k]. rewrite streams_conn_drop. simpl.
  intros [_ Hx]%lookup_delete_Some. by exists k.
Qed.
Lemma keeps_value_drop v h : keeps_streams h (value_drop v h).
Proof.
  assert (∀ c, keeps_streams h (conn_drop c h)) as Hc
    by (intros c j [y n]; rewrite streams_conn_drop; eauto).
  destruct v as [|c|c j]; [|apply Hc|].
  - intros j [y n]. unfold value_drop, state_drop, drop_check. case_decide; simpl; eauto.
  - etrans; [apply Hc|apply keeps_stream_counter_drop].
Qed.
Lemma keeps_value_clone v h : keeps_streams h (value_clone v h).
Proof.
  destruct v as [|c|c j]; [intros j [y n]; simpl; eauto..|]. intros j' [y n]. simpl.
  unfold stream_counter_clone, set_streams. simpl. destruct (decide (j = j')) as [<-|].
  - rewrite lookup_alter_eq. destruct (streams h !! j) as [[y' n']|]; [|done]. simpl. intros [= <- <-]. eauto.
  - rewrite lookup_alter_ne by done. eauto.
Qed.
Lemma keeps_run_task i (a : answer (A:=A)) h : is_Some (conn h) → keeps_streams h (run_task i a h).
Proof.
  intros Hc. unfold run_task. destruct (tasks h !! i) as [t|]; [|done].
  destruct (task_round t a h) as [h1 r] eqn:Hr.
  destruct (task_round_conn _ _ _ _ _ Hc Hr) as (s&s'&_&->).
  assert (∀ v h', streams h' = streams h → keeps_streams h (value_drop v h')) as Hd.
  { intros v h' Hs j x Hx. apply keeps_value_drop in Hx. by rewrite Hs in Hx. }
  assert (keeps_streams h (set_conn (Some s') (strong h) h)) as Hk by (intros j [y n] Hx; by exists n).
  destruct r as [ok|]; [|done]. destruct t as [c|c|c| |j id c]; unfold task_end.
  1,2,5: by apply (Hd (OConn c)).
  1: by apply (Hd OState).
  destruct ok; [done|by apply (Hd OState)].
Qed.

(** The values are what they say. *)
Definition typed w : Prop :=
  ∀ c j, OStream c j ∈ w.2 → ∃ id n, streams w.1 !! j = Some (id, c, n).

Lemma own_stream h own c j : counted_world (h, own) → OStream c j ∈ own → is_Some (streams h !! j).
Proof.
  intros H Hin. destruct (counted_stream _ _ j H) as (id&c'&n&Hn); [|by eexists].
  unfold shares. assert (RStream j ∈ own_refs own); [|set_solver].
  rewrite (own_refs_remove own _ Hin). simpl. set_solver.
Qed.

Lemma typed_keeps h h' own own' :
  counted_world (h', own') → keeps_streams h h' → typed (h, own) →
  (∀ c j, OStream c j ∈ own' → OStream c j ∈ own) → typed (h', own').
Proof.
  intros Hc Hk Ht Ho c j Hin. destruct (own_stream _ _ _ _ Hc Hin) as [[[id c'] n] Hj]. simpl.
  destruct (Hk _ _ Hj) as [m Hm]. destruct (Ht c j (Ho _ _ Hin)) as (id'&n'&Hn'). simpl in *.
  rewrite Hn' in Hm. simplify_eq. eauto.
Qed.

Lemma typed_new_stream h h' own v st c id h1 {B} (m : sm (QuicConnState C) ErrorKind B) r :
  counted_world (h, own) → typed (h, own) → v ∈ own → value_conn v = Some c → call m h = (h1, r) →
  (h', st) = new_stream c id h1 → typed (h', st :: own).
Proof.
  intros H Ht Hv Hc Hm [-> ->]%new_stream_eq. destruct (call_conn _ _ _ _ (proj2 (c_alive _ _ H)) Hm) as (s&_&->&_).
  intros c' j'. simpl. intros [[= -> ->]|Hin]%elem_of_cons.
  - rewrite lookup_insert_eq. eauto.
  - destruct (Ht _ _ Hin) as (id'&n'&Hn'). simpl in Hn'. rewrite lookup_insert_ne; [eauto|].
    intros <-. destruct (c_stream_pos _ _ H _ _ Hn') as [_ Hmade%lookup_lt_Some].
    simpl in Hmade. lia.
Qed.

Lemma typed_step w w' : counted_world w → typed w → use_step (A:=A) w w' → typed w'.
Proof.
  intros H Ht Hs. pose proof (counted_step _ _ H Hs) as H'. destruct Hs.
  - eapply typed_keeps; [done|apply keeps_value_clone|done|]. intros c j [<-|Hin]%elem_of_cons; done.
  - eapply typed_keeps; [done|apply keeps_value_drop|done|]. intros c j Hin.
    rewrite (remove_one_perm v own) by done. set_solver.
  - eapply typed_keeps; [done| |done|].
    + intros j [y n]. simpl. eauto.
    + intros c j [[=]|Hin]%elem_of_cons. rewrite (remove_one_perm OState own) by done. set_solver.
  - destruct (open_stream_made _ _ _ _ ltac:(eassumption)) as (h1&id&?&?). by eapply typed_new_stream.
  - destruct (accept_stream_made _ _ _ _ ltac:(eassumption)) as (h1&id&?&?). by eapply typed_new_stream.
  - eapply typed_keeps; [done| |done|done]. intros j [y n]. simpl. eauto.
  - eapply typed_keeps; [done|apply keeps_run_task, (c_alive _ _ H)|done|done].
Qed.
End frame.

(** ** Who has a connection, and what its end spawns *)
Section ends.
Context {A C : Type} `{!Quiche A C}.
Implicit Types (h : Handles C) (w : world C).

(** Some [QuicConn] of the counter [c] is alive: a user's, or a task's. *)
Definition held_by w (c : nat) : Prop :=
  (∃ v, v ∈ w.2 ∧ value_conn v = Some c) ∨ (∃ t, t ∈ tasks w.1 ∧ job_conn t = Some c).

Definition sound w : Prop := counted_world w ∧ typed w.

Lemma sound_step w w' : sound w → use_step (A:=A) w w' → sound w'.
Proof. intros [H1 H2] Hs. split; [by eapply counted_step|by eapply typed_step]. Qed.

Lemma sound_start (s : QuicConnState C) w : w = server_start s ∨ w = client_start s → sound w.
Proof.
  intros [-> | ->]; (split; [first [apply counted_server|apply counted_client]|]).
  - by intros c j ?%list_elem_of_singleton.
  - by intros c j ?%list_elem_of_singleton.
Qed.

Lemma sound_run (s : QuicConnState C) w0 w :
  w0 = server_start s ∨ w0 = client_start s → rtc (use_step (A:=A)) w0 w → sound w.
Proof. intros Hw. apply rtc_invariant; [by eapply sound_start|apply sound_step]. Qed.

Lemma elem_of_own_refs r (own : list value) : r ∈ own_refs own ↔ ∃ v, v ∈ own ∧ r ∈ value_refs v.
Proof.
  unfold own_refs. rewrite elem_of_concat. split.
  - intros (l&(v&->&Hv)%list_elem_of_fmap&Hr). eauto.
  - intros (v&Hv&Hr). exists (value_refs v). split; [|done]. by apply list_elem_of_fmap_2.
Qed.

(** The shares of a stream's counter are those of its values. *)
Lemma stream_shares h own j : RStream j ∈ shares h (own_refs own) → ∃ c, OStream c j ∈ own.
Proof.
  unfold shares. rewrite !elem_of_app. intros [H|[H|[H|[H|H]]]].
  - apply pool_hold_inv in H as (i&p&_&?%list_elem_of_singleton). done.
  - apply pool_hold_inv in H as (i&p&_&H). unfold conn_refs in H. set_solver.
  - apply elem_of_concat in H as (l&(t&->&_)%list_elem_of_fmap&H). destruct t; simpl in H; unfold conn_refs in H; set_solver.
  - by apply elem_of_replicate in H as [? _].
  - apply elem_of_own_refs in H as (v&Hv&H). destruct v as [|c|c j']; simpl in H; unfold conn_refs in H;
      [set_solver..|]. exists c. assert (j = j') as -> by set_solver. done.
Qed.

Lemma conn_shares h own c : sound (h, own) → RConn c ∈ shares h (own_refs own) ↔ held_by (h, own) c.
Proof.
  intros [H Ht]. unfold held_by. simpl. split.
  - unfold shares at 1. rewrite !elem_of_app. intros [Hc|[Hc|[Hc|[Hc|Hc]]]].
    + by apply pool_hold_inv in Hc as (i&p&_&?%list_elem_of_singleton).
    + apply pool_hold_inv in Hc as (j&[[id c'] n]&Hj&Hc). simpl in Hc. unfold conn_refs in Hc.
      assert (c = c') as <- by set_solver.
      destruct (stream_shares h own j) as [c' Hin].
      * apply cnt_pos. pose proof (c_stream _ _ H j) as Hcs. cbn [fst snd] in Hcs. rewrite <-Hcs, Hj. simpl.
        destruct (c_stream_pos _ _ H _ _ Hj) as [Hn _]. simpl in Hn. lia.
      * left. destruct (Ht _ _ Hin) as (id'&n'&Hj'). simpl in Hj'. simplify_eq. eexists. split; [exact Hin|done].
    + apply elem_of_concat in Hc as (l&(t&->&Hin)%list_elem_of_fmap&Hc). right. exists t. split; [done|].
      destruct t; simpl in Hc; unfold conn_refs in Hc; simpl; set_solver.
    + by apply elem_of_replicate in Hc as [? _].
    + apply elem_of_own_refs in Hc as (v&Hv&Hc). left. exists v. split; [done|].
      destruct v; simpl in Hc; unfold conn_refs in Hc; simpl; set_solver.
  - unfold shares. intros [(v&Hv&Hc)|(t&Hin&Hc)].
    + assert (RConn c ∈ own_refs own); [|set_solver]. apply elem_of_own_refs. exists v. split; [done|].
      destruct v; simplify_eq/=; unfold conn_refs; set_solver.
    + assert (RConn c ∈ concat (job_refs <$> tasks h)); [|set_solver]. apply elem_of_concat.
      exists (job_refs t). split; [by apply list_elem_of_fmap_2|]. destruct t; simplify_eq/=; unfold conn_refs; set_solver.
Qed.

Lemma alive_held h own c : sound (h, own) → is_Some (counters h !! c) ↔ held_by (h, own) c.
Proof.
  intros Hs. rewrite <-conn_shares by done. destruct Hs as [H _]. split.
  - intros [n Hn]. apply cnt_pos. pose proof (c_conn _ _ H c) as Hcs. cbn [fst snd] in Hcs. rewrite <-Hcs, Hn. simpl.
    pose proof (c_conn_pos _ _ H c) as Hp. cbn [fst] in Hp. destruct n; [congruence|lia].
  - intros Hin. destruct (counted_conn _ _ _ H Hin) as [n Hn]. by eexists.
Qed.

Lemma stream_held h own j : counted_world (h, own) → is_Some (streams h !! j) ↔ ∃ c, OStream c j ∈ own.
Proof.
  intros H. split.
  - intros [x Hx]. apply (stream_shares h). apply cnt_pos. pose proof (c_stream _ _ H j) as Hcs. cbn [fst snd] in Hcs. rewrite <-Hcs, Hx. simpl.
    destruct (c_stream_pos _ _ H _ _ Hx). lia.
  - intros [c Hin]. by eapply own_stream.
Qed.
End ends.

(** ** The close of a connection *)
Section closing.
Context {A C : Type} `{!Quiche A C} (closing : C → Prop) `{!Sticky A C closing}.
Implicit Types (h : Handles C) (w : world C).

Definition closed h : Prop := ∃ s, conn h = Some s ∧ closing (quiche_conn (state s)).
Definition no_loops h : Prop := ∀ t c, t ∈ tasks h → t ≠ RecvLoop c ∧ t ≠ SendLoop c.
(** A task that was to close the connection waits, or has closed it. *)
Definition closes h : Prop := ∀ c, CloseConn c ∈ log h → CloseConn c ∈ tasks h ∨ closed h.

(** What a round does to the connection. *)
Lemma task_round_closing t (a : answer (A:=A)) h h' r s :
  conn h = Some s → task_round t a h = (h', r) →
  ∃ s', h' = set_conn (Some s') (strong h) h ∧ sticks_rel closing s s' ∧
    (∀ c, t = CloseConn c → closing (quiche_conn (state s'))) ∧
    ((∀ c, t ≠ RecvLoop c ∧ t ≠ SendLoop c) → r = Some true).
Proof.
  intros Hs Hr. assert (h = set_conn (Some s) (strong h) h) as Hh by (destruct h; simpl in *; by subst).
  assert (sticks_rel closing s s) as Hrefl by done.
  assert (∀ t c s' h', h' = set_conn (Some s') (strong h) h → t = RecvLoop c ∨ t = SendLoop c →
    sticks_rel closing s s' →
    ∃ s0, h' = set_conn (Some s0) (strong h) h ∧ sticks_rel closing s s0 ∧
      (∀ c, t = CloseConn c → closing (quiche_conn (state s0))) ∧
      ((∀ c, t ≠ RecvLoop c ∧ t ≠ SendLoop c) → r = Some true)) as Hloop.
  { intros t' c s' h2 -> Ht Hk. exists s'. split_and!; [done|done|by intros ? ->; destruct Ht|].
    intros Hl. destruct (Hl c). by destruct Ht. }
  destruct t as [c|c|c| |j id c]; cbn [task_round] in Hr; unfold call in Hr; rewrite ?Hs in Hr.
  - destruct a as [x| | |]; try (injection Hr as <- <-; eapply Hloop; [exact Hh|eauto|exact Hrefl]).
    pose proof (sticks_client_recv closing (λ _, True) x (λ _, I) s) as Hk. destruct (client_recv_round x s) as [s' r'].
    injection Hr as <- Hr. eapply Hloop; [done|eauto|exact Hk].
  - destruct a as [|guard task now len send|now|x];
      try (injection Hr as <- <-; eapply Hloop; [exact Hh|eauto|exact Hrefl]).
    + pose proof (sticks_client_send closing (λ _, True) guard task now len send s) as Hk.
      destruct (run_segment _ _ _ s) as [s' r']. injection Hr as <- Hr. eapply Hloop; [done|eauto|exact Hk].
    + pose proof (sticks_read_timed_out closing (λ _, True) now s) as Hk.
      destruct (read_timed_out now s) as [s' r']. injection Hr as <- Hr. eapply Hloop; [done|eauto|exact Hk].
    + pose proof (sticks_resume closing (R:=nat) x s) as Hk.
      destruct (resume x s) as [s' r']. injection Hr as <- Hr. eapply Hloop; [done|eauto|exact Hk].
  - pose proof (close_closes closing false 0 [] s) as [Hc _]. destruct (close false 0 [] s) as [s' r'].
    injection Hr as <- <-. exists s'. by split_and!; [|intros _|intros _ _|].
  - pose proof (close_closes closing false 0 (bs "raii drop") s) as [Hc Hok].
    destruct (close false 0 (bs "raii drop") s) as [s' r']. simpl in Hc, Hok. subst r'.
    injection Hr as <- <-. exists s'. by split_and!; [|intros _|intros ? [=]|].
  - pose proof (sticks_close_stream closing id s) as Hk. destruct (close_stream id s) as [s' r'].
    injection Hr as <- <-. exists s'. by split_and!; [| |intros ? [=]|].
Qed.

Lemma grows_task_end t ok h : grows h (task_end t ok h).
Proof.
  destruct t; simpl; try apply grows_conn_drop; [apply grows_state_drop|].
  destruct ok; [by apply grows_same|apply grows_state_drop].
Qed.

(** One round of a task: it goes on, or leaves the list. *)
Lemma run_task_cases i (a : answer (A:=A)) h s t :
  conn h = Some s → tasks h !! i = Some t →
  ∃ s' h1, sticks_rel closing s s' ∧ (∀ c, t = CloseConn c → closing (quiche_conn (state s'))) ∧
    h1 = set_conn (Some s') (strong h) h ∧
    ((∃ c, t = RecvLoop c ∨ t = SendLoop c) ∧ run_task i a h = h1 ∨
     ∃ ok, (t = CloseLast → ok = true) ∧
       run_task i a h = task_end t ok (set_tasks (delete i (tasks h)) h1)).
Proof.
  intros Hs Ht. unfold run_task. rewrite Ht. destruct (task_round t a h) as [h' r] eqn:Hr.
  destruct (task_round_closing _ _ _ _ _ _ Hs Hr) as (s'&->&Hk&Hc&Hend). exists s', (set_conn (Some s') (strong h) h).
  split_and!; try done.
  assert (r = Some true ∨ ∃ c, t = RecvLoop c ∨ t = SendLoop c) as [-> | Hloop]
    by (destruct t; [right; eauto|right; eauto|left; apply Hend; by split..]).
  - right. by exists true.
  - destruct r as [ok|]; [right; exists ok|left]; split; try done. intros ->. by destruct Hloop as (c&[|]).
Qed.

Lemma closed_grows h h' : grows h h' → is_Some (conn h') → closed h → closed h'.
Proof. intros (l&_&_&_&Hc&_) Hs (s&Hs'&Hcl). exists s. by rewrite Hc. Qed.

Lemma closes_grows h h' : grows h h' → is_Some (conn h') → closes h → closes h'.
Proof.
  intros Hg Hs Hcl c. pose proof (closed_grows _ _ Hg Hs) as Hkeep.
  destruct Hg as (l&Ht&Hl&_&_&_). rewrite Ht, Hl. rewrite !elem_of_app.
  intros [Hin|Hin]; [|auto]. destruct (Hcl _ Hin) as [?|?]; auto.
Qed.

Lemma closes_conn_step h s s' :
  conn h = Some s → sticks_rel closing s s' → closes h → closes (set_conn (Some s') (strong h) h).
Proof.
  intros Hs Hk Hcl c Hin. destruct (Hcl c Hin) as [?|(s0&Hs0&Hc)]; [by left|right].
  exists s'. split; [done|]. simplify_eq. by apply Hk.
Qed.

Lemma closes_run_task h i (a : answer (A:=A)) :
  is_Some (conn h) → is_Some (conn (run_task i a h)) → closes h → closes (run_task i a h).
Proof.
  intros [s Hs] Hs' Hcl. destruct (tasks h !! i) as [t|] eqn:Ht; [|unfold run_task; by rewrite Ht].
  destruct (run_task_cases i a h s t Hs Ht) as (s'&h1&Hk&Hc&->&Hend).
  pose proof (closes_conn_step _ _ _ Hs Hk Hcl) as H1.
  destruct Hend as [[_ ->]|(ok&_&Hr)]; [done|]. rewrite Hr in Hs' |- *.
  eapply closes_grows; [apply grows_task_end|done|]. intros c Hin. simpl in Hin.
  destruct (H1 c Hin) as [Hin'|?]; [|by right]. simpl in Hin'.
  rewrite (delete_Permutation _ _ _ Ht) in Hin'. apply elem_of_cons in Hin' as [<-|?]; [right|by left].
  exists s'. split; [done|]. by eapply Hc.
Qed.

Lemma closes_new_stream h h' own st c id h1 {B} (m : sm (QuicConnState C) ErrorKind B) r :
  sticks closing m → counted_world (h, own) → closes h → call m h = (h1, r) →
  (h', st) = new_stream c id h1 → closes h'.
Proof.
  intros Hk H Hcl Hm [-> _]%new_stream_eq. destruct (call_conn _ _ _ _ (proj2 (c_alive _ _ H)) Hm) as (s&Hs&->&_).
  pose proof (closes_conn_step _ _ _ Hs (Hk s) Hcl) as H1.
  eapply closes_grows; [|simpl; by eexists|exact H1]. by apply grows_same.
Qed.

Lemma closes_step w w' : sound w → closes w.1 → use_step (A:=A) w w' → closes w'.1.
Proof.
  intros Hsd Hcl Hs. pose proof (proj2 (c_alive _ _ (proj1 (sound_step _ _ Hsd Hs)))) as Hal.
  destruct Hsd as [H _]. pose proof (proj2 (c_alive _ _ H)) as Hal0. destruct Hs; simpl in *.
  - by eapply closes_grows; [apply grows_value_clone| |].
  - by eapply closes_grows; [apply grows_value_drop| |].
  - eapply closes_grows; [|done|done]. apply grows_same; simpl; try done. lia.
  - destruct (open_stream_made _ _ _ _ ltac:(eassumption)) as (h1&id&?&?).
    eapply closes_new_stream; [apply (sticks_open closing)|done..].
  - destruct (accept_stream_made _ _ _ _ ltac:(eassumption)) as (h1&id&?&?).
    eapply closes_new_stream; [apply (sticks_accept closing)|done..].
  - eapply closes_conn_step; [done| |done]. by eapply (sticks_step closing (λ _, True)).
  - by apply closes_run_task.
Qed.

Lemma closes_run s w0 w :
  w0 = server_start s ∨ w0 = client_start s → rtc (use_step (A:=A)) w0 w → sound w ∧ closes w.1.
Proof.
  intros Hw. apply (rtc_invariant _ (λ w, sound w ∧ closes w.1)).
  - split; [by eapply sound_start|]. destruct Hw as [-> | ->]; intros c; simpl; set_solver.
  - intros x y [H1 H2] Hs. split; [by eapply sound_step|by eapply closes_step].
Qed.

(** ** The tasks come to an end *)
Definition weight (t : job) : nat :=
  match t with CloseConn _ | CloseStream _ _ _ => 2 | CloseLast => 1 | _ => 0 end.
Definition work h : nat := sum_list_with weight (tasks h) + 3 * size (counters h).

Lemma work_spawn t h : work (spawn t h) = work h + weight t.
Proof. unfold work. simpl. rewrite sum_list_with_app. simpl. lia. Qed.
Lemma work_state_drop h : work (state_drop h) ≤ S (work h).
Proof.
  unfold state_drop, drop_check. case_decide; [|unfold work; simpl; lia].
  pose proof (work_spawn CloseLast (state_clone h)) as Hw. unfold work in *. simpl in *. lia.
Qed.
Lemma work_conn_drop c h : work (conn_drop c h) ≤ S (work h).
Proof.
  pose proof (work_state_drop h) as H1. unfold conn_drop, counter_drop.
  set (h1 := state_drop h) in *. clearbody h1.
  assert (∀ n m, counters h1 !! c = Some m → work (set_counters (<[c := n]> (counters h1)) h1) = work h1) as Hset.
  { intros n m Hm. unfold work. simpl. by rewrite map_size_insert_Some by eauto. }
  destruct (counters h1 !! c) as [[|[|n]]|] eqn:Hc; try (by erewrite Hset); [|done].
  etrans; [apply work_state_drop|]. rewrite work_spawn. simpl.
  assert (work (state_clone (set_counters (delete c (counters h1)) h1)) + 3 = work h1); [|lia].
  unfold work. simpl. pose proof (map_size_delete_Some c (counters h1) ltac:(by eexists)) as Hd.
  assert (size (counters h1) ≠ 0); [|lia]. intros Hz%map_size_empty_iff. by rewrite Hz in Hc.
Qed.

Lemma work_delete h i t : tasks h !! i = Some t → work (set_tasks (delete i (tasks h)) h) + weight t = work h.
Proof.
  intros Ht. unfold work. simpl. rewrite (delete_Permutation _ _ _ Ht) at 2. simpl. lia.
Qed.

Lemma run_task_works h (a : answer (A:=A)) :
  is_Some (conn h) → no_loops h → tasks h ≠ [] →
  no_loops (run_task 0 a h) ∧ work (run_task 0 a h) < work h ∧
  made_conns h ≤ made_conns (run_task 0 a h).
Proof.
  intros [s Hs] Hno Hne. destruct (tasks h !! 0) as [t|] eqn:Ht; [|by destruct (tasks h)].
  assert (t ∈ tasks h) as Hin by (by eapply list_elem_of_lookup_2).
  destruct (run_task_cases 0 a h s t Hs Ht) as (s'&h1&_&_&->&Hend).
  destruct Hend as [[(c&Hc) _]|(ok&Hok&->)]; [by destruct (Hno t c Hin), Hc|].
  set (h2 := set_tasks (delete 0 (tasks h)) (set_conn (Some s') (strong h) h)).
  destruct (grows_task_end t ok h2) as (l&Htk&_&Hl&_&Hm). split_and!; [| |exact Hm].
  - intros t' c. rewrite Htk. simpl. intros [Hin'|Hin']%elem_of_app.
    + apply Hno. rewrite (delete_Permutation _ _ _ Ht). set_solver.
    + rewrite Forall_forall in Hl. by apply Hl.
  - pose proof (work_delete (set_conn (Some s') (strong h) h) 0 t Ht) as Hw. simpl in Hw. fold h2 in Hw.
    change (work (set_conn (Some s') (strong h) h)) with (work h) in Hw. clearbody h2.
    destruct t as [c|c|c| |j id c]; simpl in *; [by destruct (Hno _ c Hin)..| | |].
    + pose proof (work_state_drop h2). lia.
    + rewrite (Hok eq_refl). unfold work in *. simpl in *. lia.
    + pose proof (work_conn_drop c h2). lia.
Qed.

Lemma run_first n h own (a : answer (A:=A)) :
  rtc (use_step (A:=A)) (h, own) (Nat.iter n (run_task 0 a) h, own).
Proof. induction n as [|n IH]; [done|]. eapply rtc_r; [exact IH|constructor]. Qed.

(** Running the first task again and again ends. *)
Lemma drains h own (a : answer (A:=A)) :
  sound (h, own) → no_loops h →
  ∃ n, tasks (Nat.iter n (run_task 0 a) h) = [] ∧
    rtc (use_step (A:=A)) (h, own) (Nat.iter n (run_task 0 a) h, own) ∧
    made_conns h ≤ made_conns (Nat.iter n (run_task 0 a) h).
Proof.
  remember (work h) as k eqn:Hk. revert h Hk. induction (lt_wf k) as [k _ IH]. intros h -> Hs Hno.
  destruct (decide (tasks h = [])) as [|Hne]; [by exists 0|].
  destruct (run_task_works h a) as (Hno'&Hw&Hm); [apply (c_alive _ _ (proj1 Hs))|done|done|].
  assert (use_step (A:=A) (h, own) (run_task 0 a h, own)) as Hstep by constructor.
  destruct (IH _ Hw _ eq_refl (sound_step _ _ Hs Hstep) Hno') as (n&Hn&Hr&Hm'). exists (S n).
  rewrite Nat.iter_succ_r. split_and!; [done|by eapply rtc_l|lia].
Qed.
End closing.

(** ** The pointers that are left

    In these runs the connection is in memory at any point; and when its users hold nothing and its
    tasks are done no counter is left, and the pointers that are counted are those forgotten. *)
Lemma forgotten_pointers {A C} `{!Quiche A C} (s0 : QuicConnState C) (w0 : world C)
    (h : Handles C) (own : list value) :
  w0 = server_start s0 ∨ w0 = client_start s0 → rtc (use_step (A:=A)) w0 (h, own) →
  is_Some (conn h) ∧
  (own = [] → tasks h = [] →
     counters h = ∅ ∧ streams h = ∅ ∧ strong h = forgotten h ∧ 0 < forgotten h).
Proof.
  intros Hw0 Hr. pose proof (sound_run _ _ _ Hw0 Hr) as Hs. pose proof (c_alive _ _ (proj1 Hs)) as [Hpos Hc].
  cbn [fst] in *. split; [done|]. intros -> Ht.
  assert (counters h = ∅) as Hcs.
  { apply map_empty. intros c. apply eq_None_not_Some. rewrite (alive_held h [] c Hs).
    intros [(v&Hv&_)|(t&Hin&_)]; [by apply elem_of_nil in Hv|]. simpl in Hin. rewrite Ht in Hin.
    by apply elem_of_nil in Hin. }
  assert (streams h = ∅) as Hst.
  { apply map_empty. intros j. apply eq_None_not_Some. rewrite (stream_held h [] j (proj1 Hs)).
    by intros [c ?%elem_of_nil]. }
  pose proof (c_strong _ _ (proj1 Hs)) as Hst'. cbn [fst snd] in Hst'.
  rewrite cnt_shares, Hcs, Hst, Ht, cnt_replicate in Hst'.
  assert (strong h = forgotten h) as He by (rewrite Hst'; unfold pool_hold; rewrite !map_to_list_empty; simpl; rewrite cnt_nil; lia).
  split_and!; [done|done|done|]. lia.
Qed.

(** ** Properties *)

(** C14. Connections and streams are closed once, when their last handle goes.  At any point
    of any run, on a server or on a client: as long as some [QuicConn] of a counter is alive, with a
    user, inside a stream or with a task, its end has spawned no [close]; when none is, exactly
    one; and so for [close_stream] and the clones of a [QuicStream]. *)
Theorem handles_close_once {A C} `{!Quiche A C} (s0 : QuicConnState C) (w0 : world C) (h : Handles C)
    (own : list value) :
  w0 = server_start s0 ∨ w0 = client_start s0 → rtc (use_step (A:=A)) w0 (h, own) →
  (∀ c, c < made_conns h →
     (held_by (h, own) c ∧ spawned (closes_conn c) (log h) = 0) ∨
     (¬ held_by (h, own) c ∧ spawned (closes_conn c) (log h) = 1)) ∧
  (∀ j id, made_streams h !! j = Some id →
     ((∃ c, OStream c j ∈ own) ∧ spawned (closes_stream j id) (log h) = 0) ∨
     (¬ (∃ c, OStream c j ∈ own) ∧ spawned (closes_stream j id) (log h) = 1)).
Proof.
  intros Hw0 Hr. pose proof (sound_run _ _ _ Hw0 Hr) as Hs. split.
  - intros c Hc. pose proof (c_conn_log _ _ (proj1 Hs) c) as Hl. cbn [fst] in Hl. rewrite Hl.
    rewrite <-(alive_held h own c Hs). destruct (counters h !! c); [left; by split; [eexists|]|right].
    rewrite decide_True by done. split; [by intros []|done].
  - intros j id Hj. pose proof (c_stream_log _ _ (proj1 Hs) j id) as Hl. cbn [fst] in Hl. rewrite Hl.
    rewrite <-(stream_held h own j (proj1 Hs)). destruct (streams h !! j); [left; by split; [eexists|]|right].
    rewrite decide_True by done. split; [by intros []|done].
Qed.

(** C19. A connection without handles is closed.  At any point of any run, a connection that
    had a [QuicConn] of some counter has one still, or the task that closes it waits, or
    it is closing; and on a server, once the users hold no more [QuicConn]s and streams, the
    tasks, run in their order, end, and the connection is closing. *)
Theorem dropped_connection_is_closed {A C} `{!Quiche A C} (closing : C → Prop) `{!Sticky A C closing}
    (s0 : QuicConnState C) (w0 : world C) (h : Handles C) (own : list value) :
  w0 = server_start s0 ∨ w0 = client_start s0 → rtc (use_step (A:=A)) w0 (h, own) →
  (∀ c, c < made_conns h → held_by (h, own) c ∨ CloseConn c ∈ tasks h ∨ closed closing h) ∧
  (no_loops h → 0 < made_conns h → (∀ v, v ∈ own → value_conn v = None) →
   ∀ a : answer (A:=A), ∃ n, let h' := Nat.iter n (run_task 0 a) h in
     tasks h' = [] ∧ closed closing h').
Proof.
  intros Hw0 Hr.
  assert (∀ h', rtc (use_step (A:=A)) w0 (h', own) →
    ∀ c, c < made_conns h' → held_by (h', own) c ∨ CloseConn c ∈ tasks h' ∨ closed closing h') as Hall.
  { intros h' Hr' c Hc. destruct (closes_run closing _ _ _ Hw0 Hr') as [Hs Hcl].
    destruct (counters h' !! c) eqn:Hn; [left; apply alive_held; [done|by eexists]|right].
    apply Hcl. pose proof (c_conn_log _ _ (proj1 Hs) c) as Hl. cbn [fst] in Hl.
    rewrite Hn, decide_True in Hl by done. by apply spawned_closes. }
  split; [by apply Hall|]. intros Hno Hm Hown a.
  destruct (closes_run closing _ _ _ Hw0 Hr) as [Hs _].
  destruct (drains closing h own a Hs Hno) as (n&Hn&Hr'&Hmade). exists n. split; [done|].
  assert (rtc (use_step (A:=A)) w0 (Nat.iter n (run_task 0 a) h, own)) as Hr2 by (by etrans).
  destruct (Hall _ Hr2 0) as [[(v&Hv&Hc)|(t&Ht&_)]|[Ht|?]]; [lia|..|done].
  - simpl in Hv. by rewrite (Hown v Hv) in Hc.
  - simpl in Ht. rewrite Hn in Ht. by apply elem_of_nil in Ht.
  - rewrite Hn in Ht. by apply elem_of_nil in Ht.
Qed.

(** C35. On a client, dropping every handle does not close the connection.  The tasks of the
    client hold [QuicConn]s themselves, so while one of them runs nothing has spawned a
    [close], whatever the users dropped; the tasks end only when the socket or the
    connection fails. *)
Theorem client_loops_keep_connection {A C} `{!Quiche A C} (s0 : QuicConnState C) (h : Handles C)
    (own : list value) :
  rtc (use_step (A:=A)) (client_start s0) (h, own) →
  RecvLoop 0 ∈ tasks h ∨ SendLoop 0 ∈ tasks h →
  (CloseConn 0 ∉ log h) ∧ (CloseLast ∉ log h) ∧ is_Some (counters h !! 0).
Proof.
  intros Hr Hin. pose proof (sound_run s0 _ _ (or_intror eq_refl) Hr) as Hs.
  assert (held_by (h, own) 0) as Hh by (right; destruct Hin; eexists; split; [done|done|done|done]).
  pose proof (proj2 (alive_held h own 0 Hs) Hh) as Ha. split_and!; [| |done].
  - intros Hlog. apply (spawned_in (closes_conn 0)) in Hlog; [|by vm_compute].
    pose proof (c_conn_log _ _ (proj1 Hs) 0) as Hl. cbn [fst] in Hl. destruct Ha as [n Hn]. rewrite Hn in Hl. lia.
  - intros Hlog. apply (spawned_in last) in Hlog; [|done]. pose proof (proj2 (conn_shares h own 0 Hs) Hh) as Hsh.
    pose proof (counted_no_last_conn _ _ _ (proj1 Hs) Hsh) as Hl. cbn [fst] in Hl. lia.
Qed.

(** ** Witnesses: a server whose user opens a stream, and a client *)
#[export] Instance DemoKeeps : Keeps nat DemoConn (λ c, dead c = true) (λ _, True).
Proof.
  split; try done.
  - intros c Hc. simpl. by destruct (readable c).
  - intros c id len Hc. simpl. by destruct (unsent c).
Qed.
#[export] Instance DemoSticky : Sticky nat DemoConn (λ c, dead c = true).
Proof. split; [apply _|]. intros c app err reason c' r [= <- <-]. split; [done|by left]. Qed.

(** The user makes a [QuicConn] and a stream, and drops both; the listener keeps its pointer. *)
Definition user_conn : Handles DemoConn := (conn_from (state_clone (Handles_new demo0))).2.
Definition user_stream : Handles DemoConn := (QuicConn_open_stream 0 user_conn).1.
Definition user_gone : Handles DemoConn := value_drop (OStream 0 0) (value_drop (OConn 0) user_stream).

Lemma user_opens : QuicConn_open_stream 0 user_conn = (user_stream, Ok (OStream 0 0)).
Proof.
  unfold user_stream. rewrite (surjective_pairing (QuicConn_open_stream 0 user_conn)) at 1. by f_equal.
Qed.

Lemma user_run : rtc (use_step (A:=nat)) (server_start demo0) (user_gone, [OState]).
Proof.
  apply (rtc_l _ _ (state_clone (Handles_new demo0), [OState; OState])).
  { exact (use_clone (Handles_new demo0) [OState] OState (list_elem_of_here _ _)). }
  apply (rtc_l _ _ (user_conn, [OConn 0; OState])).
  { exact (use_into (state_clone (Handles_new demo0)) [OState; OState] (list_elem_of_here _ _)). }
  apply (rtc_l _ _ (user_stream, [OStream 0 0; OConn 0; OState])).
  { exact (use_open user_conn user_stream [OConn 0; OState] (OConn 0) 0 (OStream 0 0)
      (list_elem_of_here _ _) eq_refl user_opens). }
  apply (rtc_l _ _ (value_drop (OConn 0) user_stream, [OStream 0 0; OState])).
  { apply (use_drop user_stream [OStream 0 0; OConn 0; OState] (OConn 0)). by right; left. }
  apply rtc_once. exact (use_drop _ [OStream 0 0; OState] (OStream 0 0) (list_elem_of_here _ _)).
Qed.

Lemma handles_close_once_witness :
  tasks user_gone = [CloseStream 0 5 0] ∧ spawned (closes_stream 0 5) (log user_gone) = 1 ∧
  spawned (closes_conn 0) (log user_gone) = 0.
Proof.
  destruct (handles_close_once (A:=nat) demo0 (server_start demo0) user_gone [OState]) as [Hc Hj];
    [by left|apply user_run|].
  split; [vm_compute; reflexivity|]. split.
  - destruct (Hj 0 5%N) as [[[c Hin] _]|[_ H]]; [vm_compute; reflexivity| |exact H].
    apply list_elem_of_singleton in Hin. discriminate.
  - destruct (Hc 0) as [[_ H]|[Hn _]]; [vm_compute; lia|exact H|]. exfalso. apply Hn. right.
    exists (CloseStream 0 5 0). split; [vm_compute; left|reflexivity].
Defined.

Lemma dropped_connection_is_closed_witness :
  ∃ n, tasks (Nat.iter n (run_task (A:=nat) 0 (TimedOutAt 0)) user_gone) = [] ∧
    closed (λ c, dead c = true) (Nat.iter n (run_task (A:=nat) 0 (TimedOutAt 0)) user_gone).
Proof.
  destruct (dropped_connection_is_closed (A:=nat) (λ c, dead c = true) demo0 (server_start demo0)
    user_gone [OState]) as [_ H]; [by left|apply user_run|].
  apply H.
  - intros t c Hin. assert (tasks user_gone = [CloseStream 0 5 0]) as Ht by (vm_compute; reflexivity).
    rewrite Ht in Hin. apply list_elem_of_singleton in Hin. subst t. split; discriminate.
  - vm_compute. lia.
  - intros v Hin. apply list_elem_of_singleton in Hin. subst v. reflexivity.
Defined.

(** The user of a client drops the only handle: its two tasks run on. *)
Definition client_gone : Handles DemoConn := value_drop (OConn 0) (client_start demo0).1.

Lemma client_loops_keep_connection_witness :
  tasks client_gone = [RecvLoop 0; SendLoop 0] ∧ (CloseConn 0 ∉ log client_gone).
Proof.
  assert (rtc (use_step (A:=nat)) (client_start demo0) (client_gone, [])) as Hr.
  { apply rtc_once. exact (use_drop _ [OConn 0] (OConn 0) (list_elem_of_here _ _)). }
  split; [vm_compute; reflexivity|].
  refine (proj1 (client_loops_keep_connection (A:=nat) demo0 client_gone [] Hr _)).
  left. vm_compute. left.
Defined.
