(* ===== verification/QuicRaces.v ===== *)
(** * crates/net/quic: state/conn.rs, conn.rs: drops of several threads at once

    [QuicHandles.v] drops one value at a time.  Here a drop is the list of its accesses to the counts, and
    the accesses of several drops interleave: the [Drop] of a [QuicConnState] reads the
    count ([Test]), and its [Arc] is released later ([Release]).  Every run of [QuicHandles.v] is a
    run here ([use_is_race]), with each drop run to its end; and a connection can be freed. *)

From S2P Require Import Prelude EventMap QuicConn QuicClient QuicKeeps QuicHandles.

(** ** Drops by their accesses

    [Test]: [strong_count]; [Release]: the end of an [Arc] of [QuicConnState]; [CounterDec] and [StreamDec]: the
    end of a share of a counter; [Spawn]: what the three [Drop]s do when theirs is the last,
    a clone given to a task. *)
Inductive op := Test | Release | CounterDec (c : nat) | StreamDec (j : nat) | Spawn (t : job).

Section races.
Context {A C : Type} `{!Quiche A C}.
Implicit Types (h : Handles C) (own : list value) (os : list op) (pend : list (list op)).

(** What the task [t] has, cloned. *)
Definition job_clone (t : job) (h : Handles C) : Handles C :=
  match t with
  | RecvLoop c | SendLoop c | CloseStream _ _ c => conn_clone c h
  | CloseConn _ | CloseLast => state_clone h
  end.

(** One access, and what it leads to: the last share of a counter drops what is inside. *)
Definition exec_op (o : op) (h : Handles C) : Handles C * list op :=
  match o with
  | Test => (h, if decide (strong h = 1) then [Spawn CloseLast] else [])
  | Release => (release h, [])
  | CounterDec c =>
      match counters h !! c with
      | Some 1 => (set_counters (delete c (counters h)) h, [Spawn (CloseConn c); Test; Release])
      | Some n => (set_counters (<[c := pred n]> (counters h)) h, [])
      | None => (h, [])
      end
  | StreamDec j =>
      match streams h !! j with
      | Some (id, c, 1) =>
          (set_streams (delete j (streams h)) h, [Spawn (CloseStream j id c); Test; Release; CounterDec c])
      | Some (id, c, n) => (set_streams (<[j := (id, c, pred n)]> (streams h)) h, [])
      | None => (h, [])
      end
  | Spawn t => (spawn t (job_clone t h), [])
  end.

(** The drop of a value, field by field, and of what a task that ends has; a task of a lone pointer that
    ends without panic forgets it. *)
Definition conn_ops (c : nat) : list op := [Test; Release; CounterDec c].
Definition value_ops (v : value) : list op :=
  match v with
  | OState => [Test; Release]
  | OConn c => conn_ops c
  | OStream c j => conn_ops c ++ [StreamDec j]
  end.
Definition job_ops (t : job) (ok : bool) : list op :=
  match t with
  | RecvLoop c | SendLoop c | CloseStream _ _ c => conn_ops c
  | CloseConn _ => [Test; Release]
  | CloseLast => if ok then [] else [Test; Release]
  end.
Definition forget (t : job) (ok : bool) (h : Handles C) : Handles C :=
  match t with CloseLast => if ok then task_end CloseLast true h else h | _ => h end.

(** ** The threads together

    [pend] are the drops under way, each with the accesses left. *)
Definition race : Type := Handles C * list value * list (list op).

Inductive race_step : race → race → Prop :=
| race_clone h own pend v :
    v ∈ own → race_step (h, own, pend) (value_clone v h, v :: own, pend)
| race_open h h' own pend v c st :
    v ∈ own → value_conn v = Some c → QuicConn_open_stream c h = (h', Ok st) →
    race_step (h, own, pend) (h', st :: own, pend)
| race_accept h h' own pend v c st :
    v ∈ own → value_conn v = Some c → QuicConn_accept_stream c h = (h', Ready (Ok (Some st))) →
    race_step (h, own, pend) (h', st :: own, pend)
| race_method h own pend v s s' es :
    v ∈ own → conn h = Some s → conn_step s es s' →
    race_step (h, own, pend) (set_conn (Some s') (strong h) h, own, pend)
| race_into h own pend :
    OState ∈ own →
    race_step (h, own, pend) ((conn_from h).2, OConn (conn_from h).1 :: remove_one OState own, pend)
| race_drop h own pend v :
    v ∈ own → race_step (h, own, pend) (h, remove_one v own, value_ops v :: pend)
| race_round h h' own pend i t (a : answer (A:=A)) :
    tasks h !! i = Some t → task_round t a h = (h', None) → race_step (h, own, pend) (h', own, pend)
| race_end h h' own pend i t (a : answer (A:=A)) ok :
    tasks h !! i = Some t → task_round t a h = (h', Some ok) →
    race_step (h, own, pend) (forget t ok (set_tasks (delete i (tasks h')) h'), own, job_ops t ok :: pend)
| race_op h h' own l1 l2 o os more :
    exec_op o h = (h', more) → race_step (h, own, l1 ++ (o :: os) :: l2) (h', own, l1 ++ (more ++ os) :: l2)
| race_done h own l1 l2 : race_step (h, own, l1 ++ [] :: l2) (h, own, l1 ++ l2).

(** *** A drop that runs to its end is the one of [QuicHandles.v] *)
Lemma run_op h h' own pend o os more :
  exec_op o h = (h', more) → race_step (h, own, (o :: os) :: pend) (h', own, (more ++ os) :: pend).
Proof. exact (race_op h h' own [] pend o os more). Qed.
Lemma run_done h own pend : race_step (h, own, [] :: pend) (h, own, pend).
Proof. exact (race_done h own [] pend). Qed.

Lemma run_state h own pend os :
  rtc race_step (h, own, (Test :: Release :: os) :: pend) (state_drop h, own, os :: pend).
Proof.
  unfold state_drop, drop_check. eapply rtc_l; [by apply run_op|]. cbn [exec_op]. case_decide.
  - eapply rtc_l; [by apply run_op|]. apply rtc_once. by apply (run_op _ _ _ _ Release os []).
  - apply rtc_once. by apply (run_op _ _ _ _ Release os []).
Qed.
Lemma run_counter c h own pend os :
  rtc race_step (h, own, (CounterDec c :: os) :: pend) (counter_drop c h, own, os :: pend).
Proof.
  eapply rtc_l; [apply run_op, surjective_pairing|]. unfold counter_drop. cbn [exec_op].
  destruct (counters h !! c) as [[|[|n]]|]; try apply rtc_refl.
  eapply rtc_l; [by apply run_op|]. apply run_state.
Qed.
Lemma run_conn c h own pend os :
  rtc race_step (h, own, (conn_ops c ++ os) :: pend) (conn_drop c h, own, os :: pend).
Proof. etrans; [apply run_state|apply run_counter]. Qed.
Lemma run_value v h own pend : rtc race_step (h, own, value_ops v :: pend) (value_drop v h, own, pend).
Proof.
  destruct v as [|c|c j]; simpl value_ops.
  - etrans; [apply run_state|apply rtc_once, run_done].
  - etrans; [apply (run_conn c h own pend [])|apply rtc_once, run_done].
  - etrans; [apply (run_conn c h own pend [StreamDec j])|]. cbn [value_drop]. unfold stream_drop.
    set (h1 := conn_drop c h). clearbody h1.
    eapply rtc_l; [apply run_op, surjective_pairing|]. unfold stream_counter_drop. cbn [exec_op].
    destruct (streams h1 !! j) as [[[id c'] [|[|n]]]|]; try apply rtc_once, run_done.
    eapply rtc_l; [by apply run_op|]. etrans; [apply (run_conn c' _ own pend [])|apply rtc_once, run_done].
Qed.
Lemma run_job t ok h own pend :
  rtc race_step (forget t ok h, own, job_ops t ok :: pend) (task_end t ok h, own, pend).
Proof.
  destruct t as [c|c|c| |j id c]; try exact (run_value (OConn c) h own pend); [exact (run_value OState h own pend)|].
  destruct ok; [apply rtc_once, run_done|exact (run_value OState h own pend)].
Qed.

Lemma use_is_race h own h' own' pend :
  use_step (A:=A) (h, own) (h', own') → rtc race_step (h, own, pend) (h', own', pend).
Proof.
  intros Hs. inversion Hs; subst.
  - by apply rtc_once, race_clone.
  - eapply rtc_l; [by apply race_drop|apply run_value].
  - by apply rtc_once, race_into.
  - by eapply rtc_once, race_open.
  - by eapply rtc_once, race_accept.
  - by eapply rtc_once, race_method.
  - unfold run_task. destruct (tasks h !! i) as [t|] eqn:Ht; [|done].
    destruct (task_round t a h) as [h1 [ok|]] eqn:Hr.
    + eapply rtc_l; [by eapply race_end|apply run_job].
    + by eapply rtc_once, race_round.
Qed.
Lemma uses_are_race w w' pend :
  rtc (use_step (A:=A)) w w' → rtc race_step (w, pend) (w', pend).
Proof.
  induction 1 as [|w1 w2 w3 Hs _ IH]; [done|]. etrans; [|exact IH].
  destruct w1, w2. by apply use_is_race.
Qed.
End races.

(** ** The counts are those of the owners, whatever the order of the accesses

    The shares that a drop has still to release. *)
Definition op_refs (o : op) : list ref :=
  match o with
  | Test | Spawn _ => []
  | Release => [RState]
  | CounterDec c => [RConn c]
  | StreamDec j => [RStream j]
  end.
Definition ops_refs (os : list op) : list ref := concat (op_refs <$> os).
Definition pend_refs (pend : list (list op)) : list ref := ops_refs (concat pend).

(** A drop reads the count, or clones for its task, before it releases what it reads. *)
Fixpoint grounded (os : list op) : Prop :=
  match os with
  | [] => True
  | Test :: os => RState ∈ ops_refs os ∧ grounded os
  | Spawn t :: os => job_refs t ⊆ ops_refs os ∧ grounded os
  | _ :: os => grounded os
  end.

Section counts.
Context {A C : Type} `{!Quiche A C}.
Implicit Types (h : Handles C) (own : list ref).

Definition count h (r : ref) : nat :=
  match r with
  | RState => strong h
  | RConn c => default 0 (counters h !! c)
  | RStream j => default 0 (snd <$> streams h !! j)
  end.

Record rc h own : Prop := {
  rc_count r : count h r = cnt r (shares h own);
  rc_counter c n : counters h !! c = Some n → n ≠ 0 ∧ c < made_conns h;
  rc_stream j x : streams h !! j = Some x → x.2 ≠ 0 ∧ j < length (made_streams h);
  rc_conn : is_Some (conn h) ↔ 0 < strong h;
}.

(** The equation of the counts after a step, from the one before it. *)
Ltac rc_eq H :=
  let r := fresh "r" in let Hr := fresh "Hr" in
  intros r; pose proof (rc_count _ _ H r) as Hr; rewrite cnt_shares in Hr |- *;
  simpl in Hr |- *; rewrite ?cnt_app, ?cnt_cons, ?cnt_nil, ?cnt_jobs, ?cnt_job in *;
  destruct r; simpl in Hr |- *; rewrite ?cnt_app, ?cnt_cons, ?cnt_nil in *;
  repeat (case_decide; simplify_eq); try lia.

Lemma rc_perm h own own' : own ≡ₚ own' → rc h own → rc h own'.
Proof.
  intros Hp [H1 H2 H3 H4]. split; try done. intros r. by rewrite H1, !cnt_shares, Hp.
Qed.
Lemma rc_set_conn h own s : rc h own → is_Some (conn h) → rc (set_conn (Some s) (strong h) h) own.
Proof. intros [H1 H2 H3 H4] Hc. split; try done. simpl. rewrite <-H4. by split; [|eexists]. Qed.
Lemma rc_alive h own : rc h own → RState ∈ shares h own → 0 < strong h.
Proof. intros H Hin%cnt_elem. pose proof (rc_count _ _ H RState). simpl in *. lia. Qed.
Lemma rc_alive_conn h own c :
  rc h own → RConn c ∈ shares h own → ∃ n, counters h !! c = Some (S n).
Proof.
  intros H Hin%cnt_elem. pose proof (rc_count _ _ H (RConn c)) as Hc. simpl in Hc.
  destruct (counters h !! c) as [[|n]|]; simpl in Hc; [lia|by exists n|lia].
Qed.
Lemma rc_alive_stream h own j :
  rc h own → RStream j ∈ shares h own → ∃ id c n, streams h !! j = Some (id, c, S n).
Proof.
  intros H Hin%cnt_elem. pose proof (rc_count _ _ H (RStream j)) as Hc. simpl in Hc.
  destruct (streams h !! j) as [[[id c] [|n]]|]; simpl in Hc; [lia|by exists id, c, n|lia].
Qed.
(** A counter has a pointer of its own. *)
Lemma rc_conn_alive h own c : rc h own → RConn c ∈ shares h own → 0 < strong h.
Proof.
  intros H Hin. destruct (rc_alive_conn _ _ _ H Hin) as [n Hn]. apply (rc_alive _ _ H).
  unfold shares. apply elem_of_app. left. eapply pool_hold_In; [done|]. by left.
Qed.

Lemma rc_state_clone h own : rc h own → 0 < strong h → rc (state_clone h) (RState :: own).
Proof. intros H Hs. pose proof H as [H1 H2 H3 H4]. split; try done; [rc_eq H|]. simpl. split; [lia|]. intros _. by apply H4. Qed.
Lemma rc_release h own : rc h (RState :: own) → rc (release h) own.
Proof.
  intros H. pose proof H as [H1 H2 H3 H4].
  assert (0 < strong h) as Hs by (apply (rc_alive _ _ H); unfold shares; set_solver).
  split; try done; [rc_eq H|]. simpl. case_decide; [split; [by intros []|lia]|]. split; [lia|].
  intros _. by apply H4.
Qed.
Lemma rc_spawn h own t : rc h (job_refs t ++ own) → rc (spawn t h) own.
Proof.
  intros H. pose proof H as [H1 H2 H3 H4]. split; try done. intros r. pose proof (rc_count _ _ H r) as Hr.
  rewrite cnt_shares in Hr |- *. simpl in *. rewrite cnt_jobs, cnt_job, cnt_app in *. destruct r; simpl in *; lia.
Qed.
Lemma cnt_counter_insert h r c n n' :
  counters h !! c = Some n →
  cnt r (pool_hold (λ _, [RState]) (<[c:=n']> (counters h))) = cnt r (pool_hold (λ _, [RState]) (counters h)).
Proof.
  intros Hn. pose proof (pool_hold_update (λ _, [RState]) _ _ _ n' Hn) as Hu.
  apply (cnt_perm r) in Hu. rewrite !cnt_app in Hu. lia.
Qed.
Lemma cnt_stream_insert h r j x n' :
  streams h !! j = Some x →
  cnt r (pool_hold (λ x, conn_refs x.1.2) (<[j:=(x.1, n')]> (streams h))) =
  cnt r (pool_hold (λ x, conn_refs x.1.2) (streams h)).
Proof.
  intros Hn. pose proof (pool_hold_update (λ x : N * nat * nat, conn_refs x.1.2) _ _ _ (x.1, n') Hn) as Hu.
  apply (cnt_perm r) in Hu. rewrite !cnt_app in Hu. simpl in Hu. lia.
Qed.

(** A counter gets another count. *)
Lemma rc_counter_set h own own' c n n' :
  rc h own → counters h !! c = Some n → n' ≠ 0 →
  (∀ r, cnt r own' + (if decide (RConn c = r) then n else 0) = cnt r own + (if decide (RConn c = r) then n' else 0)) →
  rc (set_counters (<[c := n']> (counters h)) h) own'.
Proof.
  intros H Hn Hn' He. pose proof H as [H1 H2 H3 H4]. split; try done.
  - intros r. specialize (He r). pose proof (rc_count _ _ H r) as Hr. rewrite cnt_shares in Hr |- *. simpl in *.
    rewrite (cnt_counter_insert h r c n n' Hn).
    destruct r as [|c'|j]; simpl in *; repeat case_decide; simplify_eq; try lia.
    + rewrite lookup_insert_eq, Hn in *. simpl in *. lia.
    + rewrite lookup_insert_ne by congruence. lia.
  - intros c' x. simpl. intros [[<- <-]|[_ Hx]]%lookup_insert_Some; [split; [done|by eapply H2]|by eapply H2].
Qed.
Lemma rc_stream_set h own own' j x n' :
  rc h own → streams h !! j = Some x → n' ≠ 0 →
  (∀ r, cnt r own' + (if decide (RStream j = r) then x.2 else 0) = cnt r own + (if decide (RStream j = r) then n' else 0)) →
  rc (set_streams (<[j := (x.1, n')]> (streams h)) h) own'.
Proof.
  intros H Hn Hn' He. pose proof H as [H1 H2 H3 H4]. split; try done.
  - intros r. specialize (He r). pose proof (rc_count _ _ H r) as Hr. rewrite cnt_shares in Hr |- *. simpl in *.
    rewrite (cnt_stream_insert h r j x n' Hn).
    destruct r as [|c'|j']; simpl in *; repeat case_decide; simplify_eq; try lia.
    + rewrite lookup_insert_eq, Hn in *. simpl in *. lia.
    + rewrite lookup_insert_ne by congruence. lia.
  - intros j' y. simpl. intros [[<- <-]|[_ Hx]]%lookup_insert_Some; [split; [done|by eapply H3]|by eapply H3].
Qed.

Lemma rc_counter_clone h own c :
  rc h own → RConn c ∈ shares h own → rc (counter_clone c h) (RConn c :: own).
Proof.
  intros H Hin. destruct (rc_alive_conn _ _ _ H Hin) as [n Hn]. unfold counter_clone.
  rewrite (alter_known _ _ _ _ Hn). eapply rc_counter_set; [done|done|done|].
  intros r. rewrite cnt_cons. case_decide; lia.
Qed.
Lemma rc_conn_clone h own c :
  rc h own → RConn c ∈ shares h own → rc (conn_clone c h) (conn_refs c ++ own).
Proof.
  intros H Hin. apply (rc_perm _ (RConn c :: RState :: own)); [apply perm_swap|].
  apply rc_counter_clone.
  - apply rc_state_clone; [done|]. by eapply rc_conn_alive.
  - unfold shares in *. simpl. set_solver.
Qed.

(** The last share of a counter: what is inside is in hand. *)
Lemma rc_counter_end h own c :
  rc h (RConn c :: own) → counters h !! c = Some 1 →
  rc (set_counters (delete c (counters h)) h) (RState :: own).
Proof.
  intros H Hn. pose proof H as [H1 H2 H3 H4]. split; try done.
  - intros r. pose proof (rc_count _ _ H r) as Hr. rewrite cnt_shares in Hr |- *. simpl in *.
    rewrite (pool_hold_delete _ _ _ _ Hn), cnt_app, !cnt_cons, cnt_nil in Hr. rewrite cnt_cons.
    destruct r as [|c'|j]; simpl in *; repeat case_decide; simplify_eq; try lia.
    + rewrite lookup_delete_eq, Hn in *. simpl in *. lia.
    + rewrite lookup_delete_ne by congruence. lia.
  - intros c' x. simpl. intros [_ Hx]%lookup_delete_Some. by eapply H2.
Qed.
Lemma rc_stream_end h own j id c :
  rc h (RStream j :: own) → streams h !! j = Some (id, c, 1) →
  rc (set_streams (delete j (streams h)) h) (conn_refs c ++ own).
Proof.
  intros H Hn. pose proof H as [H1 H2 H3 H4]. split; try done.
  - intros r. pose proof (rc_count _ _ H r) as Hr. rewrite cnt_shares in Hr |- *. simpl in *.
    rewrite (pool_hold_delete _ _ _ _ Hn), cnt_app in Hr. unfold conn_refs in *. simpl in *.
    rewrite !cnt_cons, ?cnt_nil in *.
    destruct r as [|c'|j']; simpl in *; repeat case_decide; simplify_eq; try lia.
    + rewrite lookup_delete_eq, Hn in *. simpl in *. lia.
    + rewrite lookup_delete_ne by congruence. lia.
  - intros j' x. simpl. intros [_ Hx]%lookup_delete_Some. by eapply H3.
Qed.

(** A clone for a task, by who has what the task gets. *)
Lemma rc_spawn_clone h own t : rc h own → job_refs t ⊆ own → rc (spawn t (job_clone t h)) own.
Proof.
  intros H Hin. apply rc_spawn.
  assert (∀ c, RConn c ∈ own → rc (conn_clone c h) (conn_refs c ++ own)) as Hc
    by (intros c Hc; apply rc_conn_clone; [done|unfold shares; set_solver]).
  assert (RState ∈ own → rc (state_clone h) (RState :: own)) as Hs
    by (intros Hs; apply rc_state_clone; [done|apply (rc_alive _ _ H); unfold shares; set_solver]).
  unfold conn_refs in *. destruct t; simpl in Hin |- *; unfold conn_refs in *; (apply Hc || apply Hs); set_solver.
Qed.

(** *** One access *)
Lemma rc_op o os h own h' more :
  rc h (op_refs o ++ ops_refs os ++ own) → grounded (o :: os) → exec_op o h = (h', more) →
  rc h' (ops_refs (more ++ os) ++ own) ∧ grounded (more ++ os).
Proof.
  intros H Hg He. destruct o as [| |c|j|t]; cbn [exec_op] in He.
  - injection He as <- <-. destruct Hg as [Hs Hg]. split; [by case_decide|]. case_decide; [|done].
    split; [|done]. simpl. set_solver.
  - injection He as <- <-. split; [by apply rc_release|done].
  - assert (RConn c ∈ shares h (op_refs (CounterDec c) ++ ops_refs os ++ own)) as Hin by (unfold shares; set_solver).
    destruct (rc_alive_conn _ _ _ H Hin) as [n Hn]. rewrite Hn in He. destruct n as [|n]; injection He as <- <-.
    + split; [by apply rc_counter_end|]. simpl. unfold conn_refs. split_and!; [set_solver..|done].
    + split; [|done]. eapply rc_counter_set; [done|done|done|]. intros r. simpl. rewrite cnt_cons. case_decide; lia.
  - assert (RStream j ∈ shares h (op_refs (StreamDec j) ++ ops_refs os ++ own)) as Hin by (unfold shares; set_solver).
    destruct (rc_alive_stream _ _ _ H Hin) as (id&c&n&Hn). rewrite Hn in He. destruct n as [|n]; injection He as <- <-.
    + split; [by eapply (rc_stream_end _ _ _ _ c)|]. simpl. unfold conn_refs. split_and!; [set_solver..|done].
    + split; [|done]. apply (rc_stream_set h _ _ j (id, c, S (S n)) (S n) H Hn); [done|].
      intros r. simpl. rewrite cnt_cons. case_decide; lia.
  - injection He as <- <-. destruct Hg as [Ht Hg]. split; [|done]. apply rc_spawn_clone; [done|]. set_solver.
Qed.

(** *** Clones, and the tasks *)
Lemma rc_conn_from h own :
  rc h (RState :: own) → rc (conn_from h).2 (conn_refs (conn_from h).1 ++ own).
Proof.
  intros H. pose proof H as [H1 H2 H3 H4].
  assert (0 < strong h) as Hs by (apply (rc_alive _ _ H); unfold shares; set_solver).
  assert (counters h !! made_conns h = None) as Hn.
  { destruct (counters h !! made_conns h) eqn:Hc; [|done]. apply H2 in Hc as [_ ?]. lia. }
  split; [| |done|].
  - intros r. pose proof (rc_count _ _ H r) as Hr. rewrite cnt_shares in Hr |- *. simpl in *.
    rewrite pool_hold_insert, cnt_app, !cnt_cons, ?cnt_nil by done. rewrite cnt_cons in Hr.
    destruct r as [|c'|j]; simpl in *; repeat case_decide; simplify_eq; try lia.
    + rewrite lookup_insert_eq, Hn in *. simpl in *. lia.
    + rewrite lookup_insert_ne by congruence. lia.
  - intros c' x. simpl. intros [[<- <-]|[_ Hx]]%lookup_insert_Some; [lia|]. apply H2 in Hx. lia.
  - simpl. split; [lia|]. intros _. by apply H4.
Qed.

Lemma rc_stream_from h own c id :
  rc h (conn_refs c ++ own) →
  rc (stream_from c id h).2 (value_refs (OStream c (stream_from c id h).1) ++ own).
Proof.
  intros H0. assert (RConn c ∈ shares h (conn_refs c ++ own)) as Hin by (unfold shares; set_solver).
  pose proof (rc_conn_clone _ _ _ H0 Hin) as H. unfold stream_from. set (h1 := conn_clone c h) in *.
  pose proof H as [H1 H2 H3 H4]. clearbody h1. set (j := length (made_streams h1)).
  assert (streams h1 !! j = None) as Hn.
  { destruct (streams h1 !! j) as [x|] eqn:Hx; [|done]. apply H3 in Hx as [_ ?]. lia. }
  split; [|done| |done]; cbn [fst snd].
  - intros r. pose proof (rc_count _ _ H r) as Hr. rewrite cnt_shares in Hr |- *. simpl in *.
    rewrite pool_hold_insert by done. unfold conn_refs in *. simpl. rewrite !cnt_cons in *. fold j.
    destruct r as [|c'|j']; simpl in *; repeat case_decide; simplify_eq; try lia.
    + rewrite lookup_insert_eq, Hn in *. simpl in *. lia.
    + rewrite lookup_insert_ne by congruence. lia.
  - intros j' x. simpl. intros [[<- <-]|[_ Hx]]%lookup_insert_Some; rewrite length_app; simpl; [split; [done|lia]|].
    apply H3 in Hx. split; [apply Hx|lia].
Qed.

Lemma rc_value_clone h own v l :
  rc h (value_refs v ++ own) → l ≡ₚ value_refs v ++ own → rc (value_clone v h) (value_refs v ++ l).
Proof.
  intros H Hl. apply (rc_perm _ (value_refs v ++ value_refs v ++ own)); [by rewrite Hl|]. clear l Hl.
  assert (∀ c, RConn c ∈ value_refs v → rc (conn_clone c h) (conn_refs c ++ value_refs v ++ own)) as Hc
    by (intros c Hc; apply rc_conn_clone; [done|unfold shares; set_solver]).
  destruct v as [|c|c j]; simpl in Hc |- *; unfold conn_refs in Hc; [|apply Hc; set_solver|].
  - apply rc_state_clone; [done|]. apply (rc_alive _ _ H). unfold shares. set_solver.
  - specialize (Hc c ltac:(set_solver)). unfold stream_clone, stream_counter_clone. set (h1 := conn_clone c h) in *.
    destruct (rc_alive_stream _ _ j Hc) as (id&c'&n&Hn); [unfold shares; set_solver|].
    rewrite (alter_known _ _ _ _ Hn). eapply rc_stream_set; [done|done|done|].
    intros r. simpl. rewrite !cnt_cons. repeat case_decide; simplify_eq; simpl; lia.
Qed.

Lemma rc_task h own i t :
  rc h own → tasks h !! i = Some t → rc (set_tasks (delete i (tasks h)) h) (job_refs t ++ own).
Proof.
  intros H Ht. destruct (job_delete _ _ _ Ht) as [Hc _]. pose proof H as [H1 H2 H3 H4]. split; try done.
  intros r. pose proof (rc_count _ _ H r) as Hr. rewrite cnt_shares in Hr |- *. simpl in *. rewrite Hc in Hr.
  rewrite cnt_app. destruct r; simpl in *; lia.
Qed.
Lemma rc_forget h own : rc h (RState :: own) → rc (forget CloseLast true h) own.
Proof.
  intros H. pose proof H as [H1 H2 H3 H4]. split; try done. intros r.
  pose proof (rc_count _ _ H r) as Hr. rewrite cnt_shares in Hr |- *. simpl in *. rewrite cnt_cons in *.
  destruct r; simpl in *; lia.
Qed.
End counts.

(** ** The runs of several threads *)
Section invariant.
Context {A C : Type} `{!Quiche A C}.
Implicit Types (h : Handles C) (own : list value) (os : list op) (pend : list (list op)) (w : race (C:=C)).

(** Each count is that of the shares: the users', those of the drops under way, and those inside. *)
Definition rc_world w : Prop :=
  rc w.1.1 (own_refs w.1.2 ++ pend_refs w.2) ∧ Forall grounded w.2.

Lemma ops_refs_app os os' : ops_refs (os ++ os') = ops_refs os ++ ops_refs os'.
Proof. unfold ops_refs. by rewrite fmap_app, concat_app. Qed.
Lemma pend_refs_cons os pend : pend_refs (os :: pend) = ops_refs os ++ pend_refs pend.
Proof. unfold pend_refs. cbn [concat]. apply ops_refs_app. Qed.
#[export] Instance pend_refs_perm : Proper ((≡ₚ) ==> (≡ₚ)) pend_refs.
Proof.
  intros l l' H. induction H; rewrite ?pend_refs_cons; [done|by f_equiv| |by etrans].
  by rewrite !app_assoc, (Permutation_app_comm (ops_refs _)).
Qed.
Lemma pend_refs_middle l1 os l2 : pend_refs (l1 ++ os :: l2) ≡ₚ ops_refs os ++ pend_refs (l1 ++ l2).
Proof. by rewrite <-pend_refs_cons, <-Permutation_middle. Qed.
Lemma value_ops_refs v : ops_refs (value_ops v) = value_refs v.
Proof. by destruct v. Qed.
Lemma value_ops_grounded v : grounded (value_ops v).
Proof. destruct v; simpl; unfold conn_refs; split_and?; set_solver. Qed.

Lemma rc_world_new_stream h h' own pend v st c id h1 {B} (m : sm (QuicConnState C) ErrorKind B) r :
  rc_world (h, own, pend) → v ∈ own → value_conn v = Some c → call m h = (h1, r) →
  (h', st) = new_stream c id h1 → rc_world (h', st :: own, pend).
Proof.
  intros [H Hg] Hv Hc Hm [-> ->]%new_stream_eq. split; [|done]. cbn [fst snd] in *.
  assert (RConn c ∈ own_refs own) as Hin.
  { rewrite (own_refs_remove own v Hv). destruct v; simplify_eq/=; unfold conn_refs; set_solver. }
  assert (is_Some (conn h)) as Hs.
  { apply (rc_conn _ _ H), (rc_conn_alive _ _ c H). unfold shares. set_solver. }
  destruct (call_conn _ _ _ _ Hs Hm) as (s&_&->&_).
  apply rc_stream_from, rc_conn_clone; [by apply rc_set_conn|]. unfold shares. set_solver.
Qed.

(** While something has a share, the connection is in memory. *)
Lemma rc_world_conn h own pend :
  rc_world (h, own, pend) → RState ∈ shares h (own_refs own ++ pend_refs pend) → is_Some (conn h).
Proof. intros [H _] Hin. apply (rc_conn _ _ H). by apply (rc_alive _ _ H). Qed.
Lemma task_share h (l : list ref) i t : tasks h !! i = Some t → RState ∈ shares h l.
Proof.
  intros Ht. unfold shares. rewrite !elem_of_app. right; right; left. apply elem_of_concat.
  exists (job_refs t). split; [|destruct t; by left]. apply list_elem_of_fmap_2. by eapply list_elem_of_lookup_2.
Qed.
Lemma own_share h own l v : v ∈ own → RState ∈ shares h (own_refs own ++ l).
Proof.
  intros Hv. assert (RState ∈ own_refs own); [|unfold shares; set_solver].
  apply elem_of_own_refs. exists v. split; [done|]. destruct v; by left.
Qed.

Lemma rc_world_round h own pend i t (a : answer (A:=A)) h' r :
  rc_world (h, own, pend) → tasks h !! i = Some t → task_round t a h = (h', r) →
  rc_world (h', own, pend) ∧ tasks h' = tasks h.
Proof.
  intros H Ht Hr. assert (is_Some (conn h)) as Hs by (eapply rc_world_conn; [done|by eapply task_share]).
  destruct (task_round_conn _ _ _ _ _ Hs Hr) as (s&s'&_&->). destruct H as [H Hg].
  split; [|done]. split; [by apply rc_set_conn|done].
Qed.

Lemma rc_world_end h own pend i t ok :
  rc_world (h, own, pend) → tasks h !! i = Some t →
  rc_world (forget t ok (set_tasks (delete i (tasks h)) h), own, job_ops t ok :: pend).
Proof.
  intros [H Hg] Ht. pose proof (rc_task _ _ _ _ H Ht) as H1. set (h1 := set_tasks _ _) in *. clearbody h1.
  unfold rc_world. cbn [fst snd] in *. rewrite pend_refs_cons.
  assert (grounded (job_ops t ok)) as Hj
    by (destruct t, ok; simpl; unfold conn_refs; split_and?; set_solver).
  split; [|by constructor].
  apply (rc_perm _ (ops_refs (job_ops t ok) ++ own_refs own ++ pend_refs pend));
    [by rewrite !app_assoc, (Permutation_app_comm (own_refs own))|].
  destruct t; try exact H1. destruct ok; [by apply rc_forget|exact H1].
Qed.

Lemma rc_world_op h own l1 o os l2 h' more :
  rc_world (h, own, l1 ++ (o :: os) :: l2) → exec_op o h = (h', more) →
  rc_world (h', own, l1 ++ (more ++ os) :: l2).
Proof.
  intros [H Hg] He. cbn [fst snd] in *. apply Forall_app in Hg as [Hg1 Hg2]. inversion_clear Hg2 as [|?? Ho Hg3].
  destruct (rc_op o os h (own_refs own ++ pend_refs (l1 ++ l2)) h' more) as [H' Ho']; [|done|done|].
  - eapply rc_perm; [|exact H]. rewrite pend_refs_middle. cbn [ops_refs]. 
    change (ops_refs (o :: os)) with (op_refs o ++ ops_refs os). by solve_Permutation.
  - split; cbn [fst snd]; [|by apply Forall_app; split; [|constructor]].
    eapply rc_perm; [|exact H']. rewrite pend_refs_middle. by solve_Permutation.
Qed.

Lemma rc_step w w' : rc_world w → race_step (A:=A) w w' → rc_world w'.
Proof.
  intros H Hs. destruct Hs as [h own pend v Hv|h h' own pend v c st Hv Hc Ho|h h' own pend v c st Hv Hc Ho
    |h own pend v s s' es Hv Hs He|h own pend Hv|h own pend v Hv|h h' own pend i t a Ht Hr
    |h h' own pend i t a ok Ht Hr|h h' own pend l1 l2 o os He|h own l1 l2].
  - destruct H as [H Hg]. split; [|done]. cbn [fst snd] in *.
    change (own_refs (v :: own)) with (value_refs v ++ own_refs own). rewrite <-app_assoc.
    apply (rc_value_clone h (own_refs (remove_one v own) ++ pend_refs pend) v (own_refs own ++ pend_refs pend)).
    + eapply rc_perm; [|exact H]. by rewrite app_assoc, <-own_refs_remove.
    + by rewrite app_assoc, <-own_refs_remove.
  - destruct (open_stream_made _ _ _ _ Ho) as (h1&id&?&?). by eapply rc_world_new_stream.
  - destruct (accept_stream_made _ _ _ _ Ho) as (h1&id&?&?). by eapply rc_world_new_stream.
  - destruct H as [H Hg]. split; [|done]. by apply rc_set_conn.
  - destruct H as [H Hg]. split; [|done]. cbn [fst snd] in *. apply rc_conn_from.
    eapply rc_perm; [|exact H]. by rewrite (own_refs_remove own OState Hv).
  - destruct H as [H Hg]. split; cbn [fst snd] in *; [|constructor; [apply value_ops_grounded|done]].
    rewrite pend_refs_cons, value_ops_refs. eapply rc_perm; [|exact H].
    rewrite (own_refs_remove own v Hv). by solve_Permutation.
  - by eapply rc_world_round.
  - destruct (rc_world_round _ _ _ _ _ _ _ _ H Ht Hr) as [H' Htk]. apply rc_world_end; [done|by rewrite Htk].
  - by eapply rc_world_op.
  - destruct H as [H Hg]. cbn [fst snd] in *. apply Forall_app in Hg as [Hg1 Hg2]. inversion_clear Hg2.
    split; [|by apply Forall_app]. eapply rc_perm; [|exact H]. by rewrite pend_refs_middle.
Qed.

Lemma rc_start (s : QuicConnState C) (w0 : world C) :
  w0 = server_start s ∨ w0 = client_start s → rc_world (w0, []).
Proof.
  assert (rc (Handles_new s) [RState]) as H0.
  { split; try done; [by intros [| |]|]. simpl. split; [lia|by eexists]. }
  intros [-> | ->]; (split; [|constructor]); cbn [fst snd]; rewrite app_nil_r; [exact H0|].
  unfold client_start. pose proof (rc_conn_from _ [] H0) as H1.
  destruct (conn_from (Handles_new s)) as [c h] eqn:Hcf. simpl in H1.
  assert (∀ h (l : list ref), rc h (conn_refs c ++ l) → rc (conn_clone c h) (conn_refs c ++ conn_refs c ++ l)) as Hcl
    by (intros h' l Hh; apply rc_conn_clone; [done|unfold shares; set_solver]).
  unfold run_client_loop. apply (rc_spawn _ _ (SendLoop c)), (rc_spawn _ _ (RecvLoop c)). apply Hcl, Hcl, H1.
Qed.

Lemma rc_run (s : QuicConnState C) (w0 : world C) w :
  w0 = server_start s ∨ w0 = client_start s → rtc (race_step (A:=A)) (w0, []) w → rc_world w.
Proof. intros Hw. apply rtc_invariant; [by eapply rc_start|apply rc_step]. Qed.

(** Nothing is left of a connection that is freed: no pointer, so nothing that could use it. *)
Lemma freed_is_unused h own pend :
  rc_world (h, own, pend) → conn h = None →
  own = [] ∧ tasks h = [] ∧ counters h = ∅ ∧ streams h = ∅ ∧ forgotten h = 0 ∧ Forall (λ os, os = []) pend.
Proof.
  intros [H Hg] Hn. cbn [fst snd] in *. assert (RState ∉ shares h (own_refs own ++ pend_refs pend)) as Hno.
  { intros Hin%(rc_alive _ _ H)%(rc_conn _ _ H). rewrite Hn in Hin. by destruct Hin. }
  assert (counters h = ∅) as Hc.
  { apply map_empty. intros c. destruct (counters h !! c) as [n|] eqn:Hcn; [|done]. destruct Hno.
    unfold shares. apply elem_of_app. left. eapply pool_hold_In; [done|by left]. }
  assert (streams h = ∅) as Hs.
  { apply map_empty. intros j. destruct (streams h !! j) as [x|] eqn:Hj; [|done]. destruct Hno.
    unfold shares. rewrite !elem_of_app. right; left. eapply pool_hold_In; [done|by left]. }
  assert (∀ o, o ∈ concat pend → op_refs o = []) as Hp.
  { intros o Ho. destruct (op_refs o) as [|r l] eqn:Hr; [done|]. exfalso.
    assert (r ∈ shares h (own_refs own ++ pend_refs pend)) as Hin.
    { unfold shares. rewrite !elem_of_app. do 5 right. unfold pend_refs, ops_refs. apply elem_of_concat.
      exists (op_refs o). split; [|rewrite Hr; by left]. by apply list_elem_of_fmap_2. }
    destruct r as [|c|j]; [done| |].
    - destruct (rc_alive_conn _ _ _ H Hin) as [n Hcn]. by rewrite Hc, lookup_empty in Hcn.
    - destruct (rc_alive_stream _ _ _ H Hin) as (id&c&n&Hj). by rewrite Hs, lookup_empty in Hj. }
  split_and!; [| |done|done| |].
  - destruct own as [|v own]; [done|]. destruct Hno. apply (own_share _ _ _ v). by left.
  - destruct (tasks h) as [|t l] eqn:Ht; [done|]. destruct Hno. apply (task_share _ _ 0 t). by rewrite Ht.
  - destruct (forgotten h) eqn:Hf; [done|]. destruct Hno. unfold shares. rewrite Hf, !elem_of_app.
    right; right; right; left. by left.
  - rewrite Forall_forall in Hg |- *. intros os Hos. specialize (Hg os Hos).
    assert (ops_refs os = []) as He.
    { assert (∀ o, o ∈ os → op_refs o = []) as Hall by (intros o Ho; apply Hp, elem_of_concat; eauto).
      clear -Hall. induction os as [|o os IH]; [done|]. unfold ops_refs. rewrite fmap_cons. cbn [concat].
      rewrite (Hall o) by (by left). apply IH. intros o' Ho'. apply Hall. by right. }
    destruct os as [|[| |c|j|t] os]; [done|..]; try discriminate He.
    + destruct Hg as [Hg _]. change (ops_refs os = []) in He. rewrite He in Hg. by apply elem_of_nil in Hg.
    + destruct Hg as [Hg _]. change (ops_refs os = []) in He. rewrite He in Hg.
      assert (RState ∈ job_refs t) as Hin by (destruct t; by left). apply Hg in Hin. by apply elem_of_nil in Hin.
Qed.

(** Two threads drop the last two pointers: both read the count, and then both release. *)
Lemma two_drops_race (s : QuicConnState C) :
  rtc (race_step (A:=A)) (server_start s, []) (release (release (state_clone (Handles_new s))), [], []).
Proof.
  unfold server_start. set (h := state_clone (Handles_new s)).
  eapply rtc_l; [by apply race_clone, list_elem_of_here|]. fold h.
  eapply rtc_l; [by apply race_drop, list_elem_of_here|].
  eapply rtc_l; [by apply race_drop, list_elem_of_here|].
  eapply rtc_l; [exact (race_op h h [] [] [[Test; Release]] Test [Release] [] eq_refl)|].
  eapply rtc_l; [exact (race_op h h [] [[Release]] [] Test [Release] [] eq_refl)|].
  eapply rtc_l; [exact (race_op h _ [] [] [[Release]] Release [] [] eq_refl)|].
  eapply rtc_l; [exact (race_op _ _ [] [[]] [] Release [] [] eq_refl)|].
  eapply rtc_l; [apply run_done|]. apply rtc_once, run_done.
Qed.
End invariant.

(** ** Properties *)

(** C36. A connection is freed by a race of drops, or never.  With the values dropped one after the
    other it stays in memory: when its users hold nothing and its tasks are done no
    counter is left, the pointers counted are those forgotten, and there is at least one; such a run
    is one of the runs where drops interleave.  With drops that
    interleave access by access, a connection that is freed has no owner, no task, no counter, no drop
    under way that has an access left, and no forgotten pointer; and two threads that drop the last two
    pointers of a server's connection may free it, when each reads the count before the other's
    release: no task is ever spawned, so it is not closed. *)
Theorem connection_freed_only_by_a_race {A C} `{!Quiche A C} (s0 : QuicConnState C) (w0 : world C) :
  w0 = server_start s0 ∨ w0 = client_start s0 →
  (∀ h own, rtc (use_step (A:=A)) w0 (h, own) →
     is_Some (conn h) ∧
     (own = [] → tasks h = [] →
        counters h = ∅ ∧ streams h = ∅ ∧ strong h = forgotten h ∧ 0 < forgotten h) ∧
     rtc (race_step (A:=A)) (w0, []) (h, own, [])) ∧
  (∀ h own pend, rtc (race_step (A:=A)) (w0, []) (h, own, pend) → conn h = None →
     own = [] ∧ tasks h = [] ∧ counters h = ∅ ∧ streams h = ∅ ∧ forgotten h = 0 ∧ Forall (λ os, os = []) pend) ∧
  (∃ h, rtc (race_step (A:=A)) (server_start s0, []) (h, [], []) ∧ conn h = None ∧ log h = []).
Proof.
  intros Hw0. split_and!.
  - intros h own Hr. destruct (forgotten_pointers s0 w0 h own Hw0 Hr) as [Hc Hl].
    split_and!; [done|done|by apply uses_are_race].
  - intros h own pend Hr. apply freed_is_unused. by eapply rc_run.
  - exists (release (release (state_clone (Handles_new s0)))). split; [apply two_drops_race|done].
Qed.

(** ** Witness: a server's connection, whose user and listener drop what they have *)
(** The listener drops its pointer too, and the three tasks run. *)
Definition all_gone : Handles DemoConn := value_drop OState user_gone.
Definition all_done : Handles DemoConn := Nat.iter 3 (run_task (A:=nat) 0 (TimedOutAt 0)) all_gone.

Lemma connection_freed_only_by_a_race_witness :
  is_Some (conn all_done) ∧ forgotten all_done = 1 ∧ strong all_done = forgotten all_done.
Proof.
  assert (rtc (use_step (A:=nat)) (server_start demo0) (all_done, [])) as Hr.
  { etrans; [apply user_run|]. apply (rtc_l _ _ (all_gone, [])); [|apply run_first].
    exact (use_drop user_gone [OState] OState (list_elem_of_here _ _)). }
  destruct (connection_freed_only_by_a_race (A:=nat) demo0 (server_start demo0) ltac:(by left)) as [H1 _].
  destruct (H1 all_done [] Hr) as [Hs H].
  split; [exact Hs|]. split; [vm_compute; reflexivity|]. apply H; vm_compute; reflexivity.
Defined.

