(* ===== verification/QuicTasks.v ===== *)
(** * crates/net/quic: the tasks of an endpoint over its sockets

    A server ([QuicServer.v]) and a client ([QuicClientTasks.v]) are each two tasks that share a
    group of UDP sockets ([UdpGroup.v]) and an endpoint, a listener or a connection: one waits for
    datagrams, one for packets to send.  A step is one poll of a task, or a call of the endpoint
    by its users. *)

From S2P Require Import Prelude EventMap IoDriver Sockets UdpGroup QuicConn QuicClient QuicKeeps.

(** The paths, from a local to a remote address, on which a connection may send: those where
    packets for it have come in. *)
Class PathLaws (A C : Type) `{!Quiche A C} (on_path : C → A → A → Prop) : Prop := {
  path_recv c buf info l r :
    on_path (qc_recv c buf info).1 l r → on_path c l r ∨ l = recv_to info ∧ r = recv_from info;
  path_sent c len c' buf info :
    qc_send c len = (c', inr (buf, info)) → on_path c (send_from info) (send_to info);
  path_readable c l r : on_path (stream_readable_next c).1 l r → on_path c l r;
  path_writable c l r : on_path (stream_writable_next c).1 l r → on_path c l r;
  path_send c len l r : on_path (qc_send c len).1 l r → on_path c l r;
  path_stream_send c id buf fin l r : on_path (qc_stream_send c id buf fin).1 l r → on_path c l r;
  path_stream_recv c id len l r : on_path (qc_stream_recv c id len).1 l r → on_path c l r;
  path_shutdown c id err l r : on_path (qc_stream_shutdown c id err).1 l r → on_path c l r;
  path_close c app err reason l r : on_path (qc_close c app err reason).1 l r → on_path c l r;
  path_ack c l r : on_path (send_ack_eliciting c).1 l r → on_path c l r;
  path_on_timeout c now l r : on_path (qc_on_timeout c now) l r → on_path c l r;
}.

Section tasks.
Context {A St L C : Type} `{!EqDecision A, !Countable A, !RawDriver A St, !Quiche A C}.

(** The receiving task waits for a datagram, or for its reply to be sent; the sending task
    waits for the endpoint, or for a packet to be sent. *)
Inductive recv_task :=
| Receiving
| Replying (buf : list byte) (info : SendInfo A)
| RecvEnded (r : res ErrorKind ()).
Inductive send_task :=
| Reading
| Sending (buf : list byte) (info : SendInfo A)
| SendEnded (r : res ErrorKind ()).

(** [heard] and [sent] are histories: the paths, local address first, of the datagrams that
    came, and the packets given to the sockets. *)
Record Tasks := {
  group : UdpGroup A St;
  endpoint : L;
  recv_loop : recv_task;
  send_loop : send_task;
  heard : list (A * A);
  sent : list (list byte * PathInfo A);
}.

Definition set_group (g : UdpGroup A St) (v : Tasks) : Tasks :=
  {| group := g; endpoint := endpoint v; recv_loop := recv_loop v; send_loop := send_loop v;
     heard := heard v; sent := sent v |}.
Definition set_endpoint (l : L) (v : Tasks) : Tasks :=
  {| group := group v; endpoint := l; recv_loop := recv_loop v; send_loop := send_loop v;
     heard := heard v; sent := sent v |}.
Definition set_recv (t : recv_task) (v : Tasks) : Tasks :=
  {| group := group v; endpoint := endpoint v; recv_loop := t; send_loop := send_loop v;
     heard := heard v; sent := sent v |}.
Definition set_send (t : send_task) (v : Tasks) : Tasks :=
  {| group := group v; endpoint := endpoint v; recv_loop := recv_loop v; send_loop := t;
     heard := heard v; sent := sent v |}.
Definition hear (x : A * A) (v : Tasks) : Tasks :=
  {| group := group v; endpoint := endpoint v; recv_loop := recv_loop v; send_loop := send_loop v;
     heard := heard v ++ [x]; sent := sent v |}.
Definition give (x : list byte * PathInfo A) (v : Tasks) : Tasks :=
  {| group := group v; endpoint := endpoint v; recv_loop := recv_loop v; send_loop := send_loop v;
     heard := heard v; sent := sent v ++ [x] |}.

(** How a call of the group or of the listener ends a loop: [?]. *)
Definition ended_by {B} (r : res ErrorKind B) : res ErrorKind () :=
  match r with Ok _ => Ok () | Err e => Err e | Panic => Panic end.

(** [recv_from], up to its wait. *)
Definition begin_recv (mtu : nat) (v : Tasks) : Tasks :=
  match recv_start mtu (group v) with
  | (g, Ok _) => set_recv Receiving (set_group g v)
  | (g, r) => set_recv (RecvEnded (ended_by r)) (set_group g v)
  end.

(** One poll of [send_to_on_path] for a packet; [None] is a wait. *)
Definition poll_send (waker : nat) (buf : list byte) (info : SendInfo A) (v : Tasks) :
    Tasks * option (res ErrorKind nat) :=
  let path := {| path_from := send_from info; path_to := send_to info |} in
  match send_to_on_path waker buf path (group v) with
  | (g, Ok Pending) => (set_group g v, None)
  | (g, Ok (Ready r)) => (give (buf, path) (set_group g v), Some r)
  | (g, Err e) => (set_group g v, Some (Err e))
  | (g, Panic) => (set_group g v, Some Panic)
  end.

(** A method of a connection, by one of its users. *)
Inductive conn_call : QuicConnState C → QuicConnState C → Prop :=
| call_send s id buf fin : conn_call s (stream_send_segment (A:=A) id buf fin s).1
| call_recv s id len : conn_call s (stream_recv_segment (A:=A) id len s).1
| call_close_stream s id : conn_call s (close_stream (A:=A) id s).1
| call_shutdown s id err : conn_call s (stream_shutdown (A:=A) id err s).1
| call_close s app err reason : conn_call s (close (A:=A) app err reason s).1
| call_accept s : conn_call s (accept_segment (A:=A) s).1
| call_open s : conn_call s (open_stream (A:=A) s).1
| call_wait s f : conn_call s (with_mediator f s).

(** The read future of the connection at [p] takes a step; it ends with an outcome. *)
Inductive conn_reads : QuicConnState C → QuicConnState C → option (res ErrorKind (list byte * SendInfo A)) → Prop :=
| reads_ready s now len s' x :
    read_segment now len s = (s', Ok (Return x)) → conn_reads s s' (Some (Ok x))
| reads_on s now len s' r :
    read_segment (A:=A) now len s = (s', Ok r) → (∀ x, r ≠ Return x) → conn_reads s s' None
| reads_timeout s now s' r :
    read_timed_out (A:=A) now s = (s', Ok r) → conn_reads s s' None
| reads_failed s now len s' e :
    read_segment (A:=A) now len s = (s', Err e) → conn_reads s s' (Some (Err e))
| reads_timeout_failed s now s' e :
    read_timed_out (A:=A) now s = (s', Err e) → conn_reads s s' (Some (Err e)).
End tasks.
Arguments Tasks A St L {_ _}.

(** ** The connections keep to the paths that were heard *)
Section paths.
Context {A C : Type} `{!Quiche A C} (on_path : C → A → A → Prop)
  `{!PathLaws A C on_path}.
Implicit Types (S : list (A * A)).

Definition within S (c : C) : Prop := ∀ la ra, on_path c la ra → (la, ra) ∈ S.
Definition info_within S (info : SendInfo A) : Prop := (send_from info, send_to info) ∈ S.
Definition heard_info S (info : RecvInfo A) : Prop := (recv_to info, recv_from info) ∈ S.

#[export] Instance within_keeps S : Keeps A C (within S) (heard_info S).
Proof.
  split; intros; intros la ra Hp;
    [apply path_readable in Hp|apply path_writable in Hp|apply path_send in Hp| |apply path_stream_send in Hp
    |apply path_stream_recv in Hp|apply path_shutdown in Hp|apply path_close in Hp|apply path_ack in Hp
    |apply path_on_timeout in Hp]; auto.
  apply path_recv in Hp as [?|[-> ->]]; auto.
Qed.

Lemma within_sent S c len c' buf info :
  within S c → qc_send c len = (c', inr (buf, info)) → within S c' ∧ info_within S info.
Proof.
  intros Hc Hs. split; [|by eapply Hc, path_sent].
  pose proof (law_send c len Hc) as H. by rewrite Hs in H.
Qed.
End paths.

Section reads.
Context {A C : Type} `{!Quiche A C} (on_path : C → A → A → Prop)
  `{!PathLaws A C on_path}.
Implicit Types (S : list (A * A)) (s : QuicConnState C).

(** A packet that a connection has to send goes along a path of the connection. *)
Lemma read_segment_within S now len s s' buf info :
  within on_path S (quiche_conn (state s)) →
  read_segment (A:=A) now len s = (s', Ok (Return (buf, info))) → info_within S info.
Proof.
  intros Hs. unfold read_segment, mbind, sm_bind.
  pose proof (sticks_status (within on_path S) (A:=A) s Hs) as H1.
  destruct (handle_quic_conn_status s) as [s1 [[]|e|]]; [|done..]. simpl in H1.
  pose proof (sticks_dropping (within on_path S) (heard_info S) now s1 H1) as H2.
  destruct (handle_dropping_streams now s1) as [s2 [[]|e|]]; [|done..]. simpl in H2.
  unfold quiche. destruct (qc_send (quiche_conn (state s2)) len) as [c [e|x]] eqn:Hq.
  - destruct e;
      try (by destruct (handle_quic_conn_status (with_state (set_conn c) s2)) as [? [?|?|]]).
    by destruct (handle_send_timout now (with_state (set_conn c) s2)) as [s3 [[t|]|e|]].
  - simpl. intros [= _ ->]. by eapply within_sent.
Qed.

Lemma conn_reads_within S s s' x :
  within on_path S (quiche_conn (state s)) → conn_reads s s' x →
  within on_path S (quiche_conn (state s')) ∧
  (∀ buf info, x = Some (Ok (buf, info)) → info_within S info).
Proof.
  intros Hs Hr. pose proof (sticks_read (within on_path S) (heard_info S)) as Hread.
  pose proof (sticks_read_timed_out (within on_path S) (heard_info S)) as Htime.
  destruct Hr as [s now len s' x Hr|s now len s' r Hr _|s now s' r Hr|s now len s' e Hr|s now s' e Hr];
    (split; [first [specialize (Hread now len s Hs)|specialize (Htime now s Hs)]; by rewrite Hr in *|]);
    intros buf info [=].
  simplify_eq. by eapply read_segment_within.
Qed.

Lemma conn_call_within S s s' :
  within on_path S (quiche_conn (state s)) → conn_call s s' → within on_path S (quiche_conn (state s')).
Proof.
  intros Hs Hc. destruct Hc; revert Hs;
    [apply (sticks_stream_send _ (heard_info S))|apply (sticks_stream_recv _ (heard_info S))
    |apply sticks_close_stream|apply (sticks_shutdown _ (heard_info S))|apply (sticks_close _ (heard_info S))
    |apply sticks_accept|apply sticks_open|done].
Qed.
End reads.

(** ** What the tasks keep true: [EP S] says that the endpoint keeps to the paths of [S] *)
Section tasks_inv.
Context {A St L : Type} `{!EqDecision A, !Countable A, !RawDriver A St, !UdpDriverLaws A St}.
Context {f : gmap A Handle} {EP : list (A * A) → L → Prop} (EP_mono : ∀ S S' l, S ⊆ S' → EP S l → EP S' l).
Implicit Types v : Tasks A St L.

Definition receiving (t : recv_task (A:=A)) : bool := match t with Receiving => true | _ => false end.

Record tasks_inv v : Prop := {
  si_endpoint : EP (heard v) (endpoint v);
  si_reply buf info : recv_loop v = Replying buf info → info_within (heard v) info;
  si_sending buf info : send_loop v = Sending buf info → info_within (heard v) info;
  si_sent x : x ∈ sent v → (path_from x.2, path_to x.2) ∈ heard v;
  si_local la ra : (la, ra) ∈ heard v → is_Some (f !! la);
  si_group : group_inv (receiving (recv_loop v)) false (group v);
  si_fds : fds (group v) = f;
}.

Lemma begin_recv_inv mtu v :
  tasks_inv v → tasks_inv (begin_recv mtu v) ∧ recv_loop (begin_recv mtu v) = Receiving.
Proof.
  intros [H1 H2 H3 H4 H5 H6 H7]. unfold begin_recv.
  destruct (recv_start_spec _ _ _ mtu H6) as (c&->&Hg). split; [|done]. by split.
Qed.

Lemma set_driver_inv v s : tasks_inv v → tasks_inv (set_group (set_driver s (group v)) v).
Proof. intros [H1 H2 H3 H4 H5 H6 H7]. split; try done. by destruct H6. Qed.

Lemma poll_send_inv w buf info v v' r :
  tasks_inv v → info_within (heard v) info → poll_send w buf info v = (v', r) →
  tasks_inv v' ∧ heard v' = heard v ∧ recv_loop v' = recv_loop v ∧ send_loop v' = send_loop v.
Proof.
  intros Hv Hi. unfold poll_send. set (path := {| path_from := _ |}).
  destruct (send_to_on_path_spec w buf path (group v)) as (s&x&->&_).
  pose proof (set_driver_inv v s Hv) as Hv'. destruct x as [|r']; intros [= <- <-]; [done|].
  split; [|done]. destruct Hv' as [H1 H2 H3 H4 H5 H6 H7]. split; try done.
  simpl. intros y [Hy| ->%list_elem_of_singleton]%elem_of_app; [by apply H4|done].
Qed.

Lemma hear_inv x v : tasks_inv v → is_Some (f !! x.1) → tasks_inv (hear x v).
Proof.
  intros [H1 H2 H3 H4 H5 H6 H7] Hx.
  assert (heard v ⊆ heard (hear x v)) as Hsub by (simpl; set_solver).
  split; try done; simpl.
  - by eapply EP_mono.
  - intros buf info Hr. by eapply Hsub, H2.
  - intros buf info Hr. by eapply Hsub, H3.
  - intros y Hy. by eapply Hsub, H4.
  - intros la ra [Hin|[= <-]%list_elem_of_singleton]%elem_of_app; [by eapply H5|done].
Qed.

Lemma set_recv_inv t v :
  tasks_inv v → (∀ buf info, t = Replying buf info → info_within (heard v) info) →
  receiving t = false → tasks_inv (set_recv t v).
Proof.
  intros [H1 H2 H3 H4 H5 H6 H7] Ht Hr. split; try done. simpl. rewrite Hr.
  destruct H6. split; try done. by eapply cell_ok_weaken.
Qed.
Lemma set_send_inv t v :
  tasks_inv v → (∀ buf info, t = Sending buf info → info_within (heard v) info) → tasks_inv (set_send t v).
Proof. intros [H1 H2 H3 H4 H5 H6 H7] Ht. by split. Qed.
Lemma set_endpoint_inv l v :
  tasks_inv v → EP (heard v) l → tasks_inv (set_endpoint l v).
Proof. intros [H1 H2 H3 H4 H5 H6 H7] Hl. by split. Qed.

(** A poll of [recv_from]: the buffer is back with the task, which has not yet its next wait,
    and the datagram is heard. *)
Lemma recv_poll_inv w order v :
  tasks_inv v → recv_loop v = Receiving →
  (∃ s, recv_poll w order (group v) = (set_driver s (group v), Ok Pending) ∧
    tasks_inv (set_group (set_driver s (group v)) v)) ∨
  ∃ g r, recv_poll w order (group v) = (g, Ok (Ready r)) ∧
    (∀ e, tasks_inv (set_recv (RecvEnded e) (set_group g v))) ∧
    ∀ n bytes path, r = Ok (n, bytes, path) →
      tasks_inv (set_recv (RecvEnded (Ok ())) (hear (path_to path, path_from path) (set_group g v))).
Proof using EP_mono UdpDriverLaws0.
  intros Hv Hloop. pose proof (si_group _ Hv) as Hg. rewrite Hloop in Hg. simpl in Hg.
  destruct (recv_poll_spec _ _ w order Hg) as [[s Hs]|(g&r&Hr&Hg'&Hf&_&Hto)]; [left|right].
  { exists s. split; [done|]. by apply set_driver_inv. }
  exists g, r. split; [done|].
  assert (∀ e, tasks_inv (set_recv (RecvEnded e) (set_group g v))) as Hend.
  { intros e. destruct Hv as [H1 H2 H3 H4 H5 H6 H7]. split; try done. simpl. congruence. }
  split; [exact Hend|]. intros n bytes path ->.
  refine (hear_inv (path_to path, path_from path) _ (Hend (Ok ())) _).
  rewrite <-(si_fds _ Hv). by eapply Hto.
Qed.
End tasks_inv.
Arguments tasks_inv {_ _ _ _ _} f EP v.

(** ** For the witnesses: connections that remember their paths *)
Record PathConn := { paths : list (nat * nat) }.

#[export] Instance PathQuiche : Quiche nat PathConn := {
  qc_is_server c := true;
  source_id c := [x01];
  destination_id c := [x02];
  qc_is_closed c := false;
  qc_is_draining c := false;
  qc_is_timed_out c := false;
  qc_is_established c := true;
  qc_readable c := [];
  stream_readable_next c := (c, None);
  stream_writable_next c := (c, None);
  qc_send c len :=
    match paths c with
    | (la, ra) :: _ => (c, inr ([x05], {| send_from := la; send_to := ra; send_at := 0%N |}))
    | [] => (c, inl Done)
    end;
  qc_recv c buf info := ({| paths := (recv_to info, recv_from info) :: paths c |}, inr (length buf));
  qc_stream_send c id buf fin := (c, inl Done);
  qc_stream_recv c id len := (c, inl Done);
  qc_stream_shutdown c _ _ := (c, inr ());
  qc_close c _ _ _ := (c, inr ());
  qc_stream_finished c _ := false;
  send_ack_eliciting c := (c, inr ());
  qc_timeout c _ := None;
  qc_timeout_instant c := None;
  qc_on_timeout c _ := c;
  send_quantum c := 1350%nat;
  qc_scids_left c := 0%nat;
  qc_peer_streams_left_bidi c := 9%N;
  initial_max_streams_bidi c := Some 9%N;
  unread c _ := 0%nat;
}.
Definition on_path (c : PathConn) (la ra : nat) : Prop := (la, ra) ∈ paths c.
#[export] Instance path_laws : PathLaws nat PathConn on_path.
Proof.
  unfold on_path. split; simpl; try done.
  - intros c buf info l r [[= -> ->]|?]%elem_of_cons; auto.
  - intros [[|[l r] ps]] len c' buf info; simpl; [done|]. intros [= <- <- <-]. by left.
  - by intros [[|[]]].
Qed.
