(* ===== verification/QuicServer.v ===== *)
(** * crates/net/quic/src/listener.rs: the two tasks of a QUIC server over its sockets

    [run_event_loop] spawns a task that feeds the datagrams of the group of UDP sockets
    to the listener ([QuicListener.v]) and sends its replies, and one that sends what the
    connections have to send: the tasks of [QuicTasks.v] with a listener. *)

From S2P Require Import Prelude EventMap IoDriver Sockets UdpGroup QuicConn QuicClient QuicKeeps QuicListener QuicTasks.

(** A connection is accepted on the path of its datagram. *)
Class PathAccept (A C : Type) `{!Quiche A C, !QuicheServer A C} (on_path : C → A → A → Prop) : Prop :=
  path_accept scid odcid laddr raddr c l r :
    quiche_accept scid odcid laddr raddr = inr c → on_path c l r → l = laddr ∧ r = raddr.

Section server.
Context {A St C : Type} `{!EqDecision A, !Countable A, !RawDriver A St, !Quiche A C, !QuicheServer A C}.

Definition QuicServer : Type := Tasks A St (QuicListenerState C).
Implicit Types v : QuicServer.

(** The rest of a round of [run_recv_event_loop], for [n] bytes of [buf] that came on [path]. *)
Definition on_datagram (now : N) (mtu : nat) (buf : list byte) (n : nat) (path : PathInfo A)
    (v : QuicServer) : QuicServer :=
  let info := {| recv_from := path_from path; recv_to := path_to path |} in
  match listener_write now buf n info (endpoint v) with
  | (l, Ok (LInternal _ out send_info)) =>
      let v := set_endpoint l v in
      if decide (0 < length out) then set_recv (Replying out send_info) v else begin_recv mtu v
  | (l, Ok _) => begin_recv mtu (set_endpoint l v)
  | (l, r) => set_recv (RecvEnded (ended_by r)) (set_endpoint l v)
  end.

(** One poll of [run_recv_event_loop]: [order] are the sockets whose futures were woken, and
    [rest] is what the buffer holds behind the datagram. *)
Definition poll_recv_loop (now : N) (mtu waker : nat) (order : list (Handle * A)) (rest : list byte)
    (v : QuicServer) : QuicServer :=
  match recv_loop v with
  | Receiving =>
      match recv_poll waker order (group v) with
      | (g, Ok Pending) => set_group g v
      | (g, Ok (Ready (Ok (n, bytes, path)))) =>
          on_datagram now mtu (bytes ++ rest) n path
            (hear (path_to path, path_from path) (set_group g v))
      | (g, Ok (Ready r)) => set_recv (RecvEnded (ended_by r)) (set_group g v)
      | (g, r) => set_recv (RecvEnded (ended_by r)) (set_group g v)
      end
  | Replying buf info =>
      match poll_send waker buf info v with
      | (v, None) => v
      | (v, Some (Ok _)) => begin_recv mtu v
      | (v, Some r) => set_recv (RecvEnded (ended_by r)) v
      end
  | RecvEnded _ => v
  end.

(** [state.read()], on a delivery of its batch, or at its start. *)
Definition poll_state_read (d : option (delivery A)) (l : QuicListenerState C) :
    QuicListenerState C * res ErrorKind (option (list byte * SendInfo A)) :=
  match d with
  | Some d => listener_read d l
  | None => let '(l, r) := handle_listener_statuts l in (l, (λ _, None) <$> r)
  end.

(** One poll of [run_send_event_loop]. *)
Definition poll_send_loop (waker : nat) (d : option (delivery A)) (v : QuicServer) : QuicServer :=
  match send_loop v with
  | Reading =>
      match poll_state_read d (endpoint v) with
      | (l, Ok (Some (buf, info))) => set_send (Sending buf info) (set_endpoint l v)
      | (l, Ok None) => set_endpoint l v
      | (l, r) => set_send (SendEnded (ended_by r)) (set_endpoint l v)
      end
  | Sending buf info =>
      match poll_send waker buf info v with
      | (v, None) => v
      | (v, Some (Ok _)) => set_send Reading v
      | (v, Some r) => set_send (SendEnded (ended_by r)) v
      end
  | SendEnded _ => v
  end.

Definition set_conn_at (p : nat) (c : QuicConnState C) (v : QuicServer) : QuicServer :=
  set_endpoint (set_heap (<[p := c]> (heap (endpoint v))) (endpoint v)) v.

Inductive server_step : QuicServer → QuicServer → Prop :=
| sv_recv v now mtu waker order rest : server_step v (poll_recv_loop now mtu waker order rest v)
| sv_send v waker : server_step v (poll_send_loop waker None v)
| sv_batch_closed v waker : server_step v (poll_send_loop waker (Some BatchClosed) v)
| sv_deliver v waker p c c' x :
    send_loop v = Reading → heap (endpoint v) !! p = Some c → p ∈ conns_read (endpoint v) →
    conn_reads c c' (Some x) →
    server_step v (poll_send_loop waker (Some (Delivered p x)) (set_conn_at p c' v))
| sv_reads v p c c' :
    send_loop v = Reading → heap (endpoint v) !! p = Some c → p ∈ conns_read (endpoint v) →
    conn_reads c c' None → server_step v (set_conn_at p c' v)
| sv_call v p c c' :
    heap (endpoint v) !! p = Some c → conn_call c c' → server_step v (set_conn_at p c' v)
| sv_accept v : server_step v (set_endpoint (listener_accept (endpoint v)).1 v)
| sv_close v : server_step v (set_endpoint (listener_close (endpoint v)).1 v)
| sv_mediator v m : server_step v (set_endpoint (set_listener_mediator m (endpoint v)) v).

(** [QuicListener::bind]. *)
Definition bind_start (mtu : nat) (g : UdpGroup A St) (l : QuicListenerState C) : QuicServer :=
  begin_recv mtu
    {| group := g; endpoint := l; recv_loop := Receiving; send_loop := Reading; heard := []; sent := [] |}.
End server.
Arguments QuicServer : clear implicits.
Arguments QuicServer A St C {_ _}.

(** ** The connections keep to the paths that were heard *)
Section paths.
Context {A C : Type} `{!Quiche A C, !QuicheServer A C} (on_path : C → A → A → Prop)
  `{!PathLaws A C on_path, !PathAccept A C on_path}.
Implicit Types (S : list (A * A)) (l : QuicListenerState C).
#[local] Abbreviation within := (within on_path).

(** The acceptor. *)
Definition all_within S (m : gmap ConnectionId C) : Prop := ∀ k c, m !! k = Some c → within S c.
Definition outcome_within S (r : res ErrorKind (QuicAcceptorHandshake A C)) : Prop :=
  match r with
  | Ok (HIncoming c _ _ _ info) => within S c ∧ info_within S info
  | Ok (HInternal _ _ info) => info_within S info
  | _ => True
  end.

Lemma all_within_delete S m k : all_within S m → all_within S (delete k m).
Proof. intros Hm k' c [_ Hc]%lookup_delete_Some. eauto. Qed.
Lemma all_within_insert S m k c : all_within S m → within S c → all_within S (<[k := c]> m).
Proof. intros Hm Hc k' c' [[_ <-]|[_ Hc']]%lookup_insert_Some; eauto. Qed.

Lemma feed_within S now key c packet len info (a a' : QuicAcceptor C) r :
  heard_info S info → within S c → all_within S (pre_established_conns a) →
  feed now key c packet len info a = (a', r) →
  all_within S (pre_established_conns a') ∧ outcome_within S r.
Proof.
  intros Hi Hc Ha. unfold feed, quiche_result. pose proof (law_recv c packet info Hi Hc) as H1.
  destruct (qc_recv c packet info) as [c1 [e|n]]; [by intros [= <- <-]|].
  pose proof (law_send c1 len H1) as H2. destruct (qc_send c1 len) as [c2 [e|[out si]]] eqn:Hs;
    unfold mbind, sm_bind, mret, sm_ret; simpl in *.
  - assert (info_within S (reply_info now info)) as Hr by done.
    destruct e; simpl; try (by intros [= <- <-]).
    destruct (qc_is_established c2); intros [= <- <-]; [done|]. split; [by apply all_within_insert|done].
  - destruct (within_sent on_path S _ _ _ _ _ H1 Hs) as [_ Hsi].
    destruct (qc_is_established c2); intros [= <- <-]; [done|]. split; [by apply all_within_insert|done].
Qed.

Lemma handshake_within S now buf n info (a a' : QuicAcceptor C) r :
  heard_info S info → all_within S (pre_established_conns a) →
  handshake now buf n info a = (a', r) →
  all_within S (pre_established_conns a') ∧ outcome_within S r.
Proof.
  intros Hi Ha. assert (info_within S (reply_info now info)) as Hrep by done.
  unfold handshake, assert_, quiche_result. case_bool_decide; [|by intros [= <- <-]].
  destruct (header_from_slice _) as [e|header]; [by intros [= <- <-]|].
  unfold mbind, sm_bind, mret, sm_ret. simpl.
  destruct (pre_established_conns a !! hdr_dcid header) as [c|] eqn:Hc; simpl.
  { apply feed_within; [done|by eapply Ha|]. by apply all_within_delete. }
  destruct (is_initial header) eqn:Hin; [|by intros [= <- <-]].
  unfold client_hello. destruct (version_is_supported _); simpl.
  2: { unfold negotiation_version, quiche_result. destruct (quiche_negotiate_version _ _ _);
       unfold mbind, sm_bind; simpl; by intros [= <- <-]. }
  destruct (hdr_token header) as [[|b token]|]; [| |by intros [= <- <-]].
  - unfold retry, quiche_result, mbind, sm_bind, gets, assert_. simpl.
    case_bool_decide; simpl; [|by intros [= <- <-]].
    destruct (quiche_retry _ _ _ _ _ _); by intros [= <- <-].
  - unfold mbind, sm_bind, lift. destruct (validate_token _ _) as [odcid|e|]; [|by intros [= <- <-]..].
    case_decide; [by intros [= <- <-]|]. unfold quiche_result.
    destruct (quiche_accept _ _ _ _) as [e|c] eqn:Hacc; [by intros [= <- <-]|]. apply feed_within; [done| |done].
    intros la ra Hp. by destruct (path_accept _ _ _ _ _ _ _ Hacc Hp) as [-> ->].
Qed.

(** The listener. *)
Record listener_within S l : Prop := {
  lw_heap p c : heap l !! p = Some c → within S (quiche_conn (state c));
  lw_pre : all_within S (pre_established_conns (acceptor l));
}.

Lemma listener_within_same S l l' :
  heap l' = heap l → acceptor l' = acceptor l → listener_within S l → listener_within S l'.
Proof. intros Hh Ha [H1 H2]. split; [by rewrite Hh|by rewrite Ha]. Qed.

Lemma listener_within_conn S l p c :
  listener_within S l → within S (quiche_conn (state c)) →
  listener_within S (set_heap (<[p := c]> (heap l)) l).
Proof.
  intros [H1 H2] Hc. split; [|done]. intros p' c'. simpl. intros [[_ <-]|[_ Hp]]%lookup_insert_Some; eauto.
Qed.

Lemma listener_within_mono S S' l : S ⊆ S' → listener_within S l → listener_within S' l.
Proof. intros HS [H1 H2]. split; [intros p c Hp la ra Ho|intros k c Hk la ra Ho]; apply HS; [by eapply H1|by eapply H2]. Qed.

Definition written_within S (r : res ErrorKind (QuicListenerWriteResult A)) : Prop :=
  match r with Ok (LInternal _ _ info) | Ok (LIncoming _ _ _ info) => info_within S info | _ => True end.

Lemma listener_write_within S now buf n info l l' r :
  heard_info S info → listener_within S l → listener_write now buf n info l = (l', r) →
  listener_within S l' ∧ written_within S r.
Proof.
  intros Hi Hl. unfold listener_write, handle_listener_statuts, mbind, sm_bind, gets. simpl.
  destruct (closed l); [by intros [= <- <-]|]. simpl. unfold run_acceptor.
  destruct (handshake now buf n info (acceptor l)) as [a h] eqn:Hh.
  destruct (handshake_within S _ _ _ _ _ _ _ Hi (lw_pre _ _ Hl) Hh) as [Ha Ho].
  assert (listener_within S (set_acceptor a l)) as Hl1 by (split; [apply Hl|done]).
  destruct h as [[dcid|c t n' out si|n' out si]|e|]; simpl; try (by intros [= <- <-]).
  - destruct (conns l !! dcid) as [p|]; [|by intros [= <- <-]]. unfold on_conn. simpl.
    destruct (heap l !! p) as [c|] eqn:Hc; [|by intros [= <- <-]].
    pose proof (sticks_write (within S) (heard_info S) (take n buf) info Hi c (lw_heap _ _ Hl _ _ Hc)) as Hw.
    destruct (write (take n buf) info c) as [c' w]. simpl in Hw.
    pose proof (listener_within_conn S _ p c' Hl1 Hw) as Hl2.
    destruct w; intros [= <- <-]; (split; [|done]); try exact Hl2. by eapply listener_within_same; [| |exact Hl2].
  - destruct Ho as [Hc Hsi].
    pose proof (listener_within_conn S _ (fresh (dom (heap l))) (QuicConnState_new now c t 5) Hl1) as Hl2.
    simpl in Hl2. destruct (listener_incoming l) as [q|]; intros [= <- <-]; (split; [|done]).
    + eapply listener_within_same; [| |apply Hl2]; [done|done|]. exact Hc.
    + eapply listener_within_same; [| |apply Hl2]; [done|done|]. exact Hc.
Qed.
End paths.

(** ** The server *)
Section run.
Context {A St C : Type} `{!EqDecision A, !Countable A, !RawDriver A St, !UdpDriverLaws A St,
  !Quiche A C, !QuicheServer A C} (on_path : C → A → A → Prop) `{!PathLaws A C on_path, !PathAccept A C on_path}.
Context (f : gmap A Handle).
Implicit Types v : QuicServer A St C.

#[local] Abbreviation server_inv := (tasks_inv f (listener_within on_path)).

(** The buffer of the receive is back with the loop, which has not yet its next wait. *)
Lemma on_datagram_inv now mtu buf n path v :
  server_inv (set_recv (RecvEnded (Ok ())) v) → (path_to path, path_from path) ∈ heard v →
  server_inv (on_datagram now mtu buf n path v).
Proof.
  intros Hv Hp. unfold on_datagram. destruct (listener_write _ _ _ _ _) as [l r] eqn:Hw.
  destruct (listener_write_within on_path (heard v) _ _ _ {| recv_from := path_from path; recv_to := path_to path |}
    _ _ _ Hp (si_endpoint _ Hv) Hw) as [Hl Hr].
  pose proof (set_endpoint_inv l _ Hv Hl) as Hv'.
  assert (server_inv (begin_recv mtu (set_endpoint l v))) as Hb by exact (proj1 (begin_recv_inv mtu _ Hv')).
  assert (∀ t, (∀ b i, t = Replying b i → info_within (heard v) i) → receiving t = false →
    server_inv (set_recv t (set_endpoint l v))) as Ht by (intros t'; exact (set_recv_inv t' _ Hv')).
  destruct r as [[n'|n' out si|p n' out si]|e|]; try done; try by apply Ht.
  case_decide; [|done]. apply Ht; [|done]. by intros b i [= <- <-].
Qed.

Lemma poll_recv_loop_inv now mtu w order rest v :
  server_inv v → server_inv (poll_recv_loop now mtu w order rest v).
Proof.
  intros Hv. unfold poll_recv_loop. destruct (recv_loop v) as [|buf info|r] eqn:Hloop; [| |done].
  - destruct (recv_poll_inv (listener_within_mono on_path) w order v Hv Hloop)
      as [(s&->&Hs)|(g&r&->&Hend&Hdg)]; [done|].
    destruct r as [[[n bytes] path]|e|]; [|apply Hend..].
    apply on_datagram_inv; [exact (Hdg _ _ _ eq_refl)|]. simpl. set_solver.
  - destruct (poll_send w buf info v) as [v' r] eqn:Hs.
    destruct (poll_send_inv _ _ _ _ _ _ Hv (si_reply _ Hv _ _ Hloop) Hs) as (Hv'&_).
    destruct r as [[n|e|]|]; [by apply begin_recv_inv|by apply set_recv_inv..|done].
Qed.
Lemma poll_state_read_within S d l l' r :
  listener_within on_path S l → (∀ p buf info, d = Some (Delivered p (Ok (buf, info))) → info_within S info) →
  poll_state_read d l = (l', r) →
  listener_within on_path S l' ∧ ∀ buf info, r = Ok (Some (buf, info)) → info_within S info.
Proof.
  intros Hl Hd. unfold poll_state_read, listener_read, handle_listener_statuts, mbind, sm_bind, gets, modify.
  assert (∀ r : res ErrorKind (option (list byte * SendInfo A)), (l, r) = (l', r) → listener_within on_path S l') as H0
    by (by intros ? [= <-]).
  destruct d as [[p [[buf info]|e|]|]|]; simpl; destruct (closed l); simpl.
  all: repeat case_match; intros [= <- <-]; (split; [by eapply listener_within_same; [| |exact Hl]|]).
  all: intros b i [=]; simplify_eq; by eapply Hd.
Qed.

Lemma poll_send_loop_inv w d v :
  server_inv v → (∀ p buf info, d = Some (Delivered p (Ok (buf, info))) → info_within (heard v) info) →
  server_inv (poll_send_loop w d v).
Proof.
  intros Hv Hd. unfold poll_send_loop. destruct (send_loop v) as [|buf info|r] eqn:Hloop; [| |done].
  - destruct (poll_state_read d (endpoint v)) as [l r] eqn:Hr.
    destruct (poll_state_read_within _ _ _ _ _ (si_endpoint _ Hv) Hd Hr) as [Hl Ho].
    pose proof (set_endpoint_inv l _ Hv Hl) as Hv'.
    destruct r as [[[buf info]|]|e|]; [|done|by apply set_send_inv..].
    apply set_send_inv; [done|]. intros b i [= <- <-]. by eapply Ho.
  - destruct (poll_send w buf info v) as [v' r] eqn:Hs.
    destruct (poll_send_inv _ _ _ _ _ _ Hv (si_sending _ Hv _ _ Hloop) Hs) as (Hv'&_).
    destruct r as [[n|e|]|]; [by apply set_send_inv..|done].
Qed.

Lemma set_conn_at_inv p c v :
  server_inv v → within on_path (heard v) (quiche_conn (state c)) → server_inv (set_conn_at p c v).
Proof. intros Hv Hc. apply set_endpoint_inv; [done|]. by apply listener_within_conn; [apply Hv|]. Qed.

Lemma server_step_inv v v' : server_inv v → server_step v v' → server_inv v'.
Proof.
  intros Hv Hst. destruct Hst as [v now mtu w order rest|v w|v w|v w p c c' x _ Hc _ Hr|v p c c' _ Hc _ Hr
    |v p c c' Hc Hcall|v|v|v m].
  - by apply poll_recv_loop_inv.
  - by apply poll_send_loop_inv.
  - by apply poll_send_loop_inv.
  - destruct (conn_reads_within on_path (heard v) _ _ _ (lw_heap _ _ _ (si_endpoint _ Hv) _ _ Hc) Hr) as [Hc' Hx].
    apply poll_send_loop_inv; [by apply set_conn_at_inv|]. intros p' b i [= -> ->]. by eapply Hx.
  - apply set_conn_at_inv; [done|].
    by apply (conn_reads_within on_path _ _ _ _ (lw_heap _ _ _ (si_endpoint _ Hv) _ _ Hc) Hr).
  - apply set_conn_at_inv; [done|].
    by apply (conn_call_within on_path _ _ _ (lw_heap _ _ _ (si_endpoint _ Hv) _ _ Hc) Hcall).
  - apply set_endpoint_inv; [done|]. eapply listener_within_same; [..|apply Hv];
      unfold listener_accept, mbind, sm_bind, gets; destruct (listener_incoming (endpoint v)) as [[|]|]; done.
  - apply set_endpoint_inv; [done|]. eapply listener_within_same; [..|apply Hv];
      unfold listener_close, notify_incoming, mbind, sm_bind, gets, modify; simpl; destruct (closed (endpoint v)); done.
  - apply set_endpoint_inv; [done|]. by eapply listener_within_same; [..|apply Hv].
Qed.
Inductive server_run v0 : QuicServer A St C → Prop :=
| sv_run_refl : server_run v0 v0
| sv_run_step v v' : server_run v0 v → server_step v v' → server_run v0 v'.

Lemma server_run_inv v v' : server_inv v → server_run v v' → server_inv v'.
Proof. intros Hv. induction 1; [done|]. by eapply server_step_inv. Qed.

Lemma bind_start_inv mtu (g : UdpGroup A St) l :
  group_inv false false g → fds g = f → heap l = ∅ → pre_established_conns (acceptor l) = ∅ →
  server_inv (bind_start mtu g l).
Proof.
  intros Hg Hf Hh Hp. unfold bind_start.
  refine (proj1 (begin_recv_inv mtu {| group := g; endpoint := l; recv_loop := RecvEnded (Ok ()); send_loop := Reading;
    heard := []; sent := [] |} _)).
  split; simpl; try done; [|by intros x ?%elem_of_nil|by intros la ra ?%elem_of_nil].
  split; [by rewrite Hh|unfold all_within; by rewrite Hp].
Qed.

(** A round of the task, poll by poll, is [recv_round] on what [send_to_on_path] answers. *)
Lemma on_datagram_round now mtu buf n path v send b wr :
  group_inv b wr (group v) →
  let info := {| recv_from := path_from path; recv_to := path_to path |} in
  let v' := on_datagram now mtu buf n path v in
  recv_round now (Ok {| buffer := buf; recv_size := n; QuicListener.path := info |}) send (endpoint v) =
  (endpoint v',
   match recv_loop v' with
   | Receiving => Ok []
   | Replying out send_info => (λ _, [(out, send_info)]) <$> send out send_info
   | RecvEnded (Ok _) => Ok []
   | RecvEnded (Err e) => Err e
   | RecvEnded Panic => Panic
   end).
Proof.
  intros Hg info. cbv zeta. unfold recv_round, on_datagram, mbind, sm_bind, lift. simpl. fold info.
  destruct (listener_write _ _ _ _ _) as [l r].
  assert (recv_loop (begin_recv mtu (set_endpoint l v)) = Receiving ∧
    endpoint (begin_recv mtu (set_endpoint l v)) = l) as [Hb1 Hb2].
  { unfold begin_recv. change (group (set_endpoint l v)) with (group v).
    by destruct (recv_start_spec _ _ _ mtu Hg) as (c&->&_). }
  destruct r as [[n'|n' out si|p n' out si]|e|]; try (by rewrite Hb1, Hb2); try done.
  simpl. case_decide; [|by rewrite Hb1, Hb2]. simpl. by destruct (send out si).
Qed.
End run.

(** ** Properties *)
Section properties.
Context {A St C : Type} `{!EqDecision A, !Countable A, !RawDriver A St, !UdpDriverLaws A St,
  !Quiche A C, !QuicheServer A C} (opened : St → gset nat)
  `{!RawDriverLaws A St opened} (on_path : C → A → A → Prop) `{!PathLaws A C on_path, !PathAccept A C on_path}.

(** C18. A QUIC server only answers where it was spoken to, from the socket that heard it.  In
    every run of the tasks of [run_event_loop], with the calls of the users of the listener and
    of its connections at any point, every packet that is given to the sockets goes along a path
    on which a datagram has come: the replies of the handshake (retries and version
    negotiations), the packets of the connections, those of the timers and of the handshakes
    that are under way.  Its local address is that of a socket of the group, whose sockets stay
    as [bind] has made them: [send_to_on_path] finds it for every packet the tasks hold, so
    neither task ends for an address that is not found.  While the receiving task waits for a
    datagram, the one buffer is out with a future of the group. *)
Theorem server_answers_heard_paths s s' p addrs (g : UdpGroup A St) ping key mtu (l : QuicListenerState C) v :
  UdpGroup_bind s p (Ok addrs) = (s', Ok g) →
  QuicListenerState_new ping key mtu = Ok l →
  server_run (bind_start mtu g l) v →
  (∀ buf path, (buf, path) ∈ sent v → (path_from path, path_to path) ∈ heard v) ∧
  (∀ la ra, (la, ra) ∈ heard v → is_Some (fds g !! la)) ∧
  (∀ buf info, recv_loop v = Replying buf info ∨ send_loop v = Sending buf info →
    (send_from info, send_to info) ∈ heard v ∧ is_Some (fds (group v) !! send_from info)) ∧
  fds (group v) = fds g ∧ group_inv (receiving (recv_loop v)) false (group v).
Proof.
  intros Hb Hl Hr. pose proof (UdpGroup_bind_spec opened s p addrs) as H. rewrite Hb in H. destruct H as [Hg _].
  assert (heap l = ∅ ∧ pre_established_conns (acceptor l) = ∅) as [Hh Hp].
  { destruct key; [|discriminate Hl]. by injection Hl as <-. }
  pose proof (bind_start_inv on_path (fds g) mtu g l Hg eq_refl Hh Hp) as H0.
  destruct (server_run_inv _ _ _ _ H0 Hr) as [H1 H2 H3 H4 H5 H6 H7].
  split; [intros buf info Hs; exact (H4 _ Hs)|]. split; [done|]. split; [|done].
  intros buf info Hs. assert (info_within (heard v) info) as Hi by (destruct Hs; eauto).
  split; [done|]. rewrite H7. by eapply H5.
Qed.
End properties.

(** ** Witness: every packet is a hello without a token *)
#[export] Instance PathServer : QuicheServer nat PathConn := {
  header_from_slice buf :=
    inr {| is_initial := true; version := 1%N; hdr_dcid := [x07]; hdr_scid := [x09]; hdr_token := Some [] |};
  version_is_supported v := bool_decide (v = 1%N);
  max_conn_id_len := 1%nat;
  quiche_accept scid odcid to from := inr {| paths := [(to, from)] |};
  quiche_retry scid dcid new token v len := inr token;
  quiche_negotiate_version scid dcid len := inr [];
  hmac_sign key data := data;
  ip_octets a := [x7f; x01];
}.
#[export] Instance path_server : PathAccept nat PathConn on_path.
Proof. intros scid odcid la ra c l r [= <-] [= -> ->]%list_elem_of_singleton. done. Qed.

Definition path_listener : QuicListenerState PathConn :=
  match QuicListenerState_new 2000 (Some [x05]) 3 with Ok l => l | _ =>
    {| closed := false; acceptor := {| send_ping_interval := 0; conn_id_seed := []; pre_established_conns := ∅ |};
       heap := ∅; conns := ∅; listener_incoming := None; listener_mediator := EventMap_default;
       conns_read := []; conns_read_closed := false; max_datagram_size := 0 |} end.
Definition server0 : QuicServer nat UdpMock PathConn := bind_start 3 udp_group path_listener.
Definition server1 := poll_recv_loop 0 3 7 (batching_reader (group server0)) [] server0.
Definition server2 := poll_recv_loop 1 3 7 [] [] server1.

(** The socket at 8003 hears 80, and sends the token of a retry. *)
Lemma server_answers_heard_paths_witness :
  heard server2 = [(8003%nat, 80%nat)] ∧
  Forall (λ x, (path_from x.2, path_to x.2) ∈ heard server2) (sent server2) ∧ length (sent server2) = 1%nat ∧
  match recv_loop server1 with
  | Replying _ info => is_Some (fds (group server1) !! send_from info)
  | _ => False
  end.
Proof.
  assert (server_run server0 server1) as Hr1 by exact (sv_run_step _ _ _ (sv_run_refl _) (sv_recv server0 0 3 7 _ [])).
  assert (server_run server0 server2) as Hr2 by exact (sv_run_step _ _ _ Hr1 (sv_recv server1 1 3 7 [] [])).
  split; [vm_compute; reflexivity|]. split; [|split; [vm_compute; reflexivity|]].
  - destruct (server_answers_heard_paths udp_opened (RawDriverLaws0 := udp_mock_laws) on_path udp0 udp_bound.1 udp_poller [80; 81]%nat udp_group
      2000 (Some [x05]) 3 path_listener server2) as (H&_);
      [vm_compute; reflexivity|reflexivity|exact Hr2|].
    apply Forall_forall. intros [buf info] Hx. exact (H _ _ Hx).
  - destruct (server_answers_heard_paths udp_opened (RawDriverLaws0 := udp_mock_laws) on_path udp0 udp_bound.1 udp_poller [80; 81]%nat udp_group
      2000 (Some [x05]) 3 path_listener server1) as (_&_&H&_);
      [vm_compute; reflexivity|reflexivity|exact Hr1|].
    destruct (recv_loop server1) as [|buf info|r] eqn:He;
      [vm_compute in He; discriminate He| |vm_compute in He; discriminate He].
    destruct (H buf info) as [_ Hs]; [left; reflexivity|exact Hs].
Defined.
