(* ===== verification/QuicClientTasks.v ===== *)
(** * crates/net/quic/src/conn.rs: the two tasks of a QUIC client over its sockets

    [run_client_loop] spawns a task that feeds the datagrams of the group of UDP sockets to the
    connection that [connect] has made ([QuicClient.v]), and one that sends what the connection
    has to send: the tasks of [QuicTasks.v] with a connection. *)

From S2P Require Import Prelude EventMap IoDriver Sockets UdpGroup QuicConn QuicClient QuicKeeps QuicTasks.

(** A new connection has the path that it is made for. *)
Class PathConnect (A C : Type) `{!Quiche A C, !QuicheClient A C} (on_path : C → A → A → Prop) : Prop :=
  path_connect scid laddr raddr c l r :
    quiche_connect scid laddr raddr = inr c → on_path c l r → l = laddr ∧ r = raddr.

Section client.
Context {A St C : Type} `{!EqDecision A, !Countable A, !RawDriver A St, !Quiche A C}.

Definition ClientTasks : Type := Tasks A St (QuicConnState C).
Implicit Types v : ClientTasks.

(** A round of [run_client_recv_loop], for [n] bytes of [buf] that came on [path]. *)
Definition on_client_datagram (mtu : nat) (buf : list byte) (n : nat) (path : PathInfo A) (v : ClientTasks) :
    ClientTasks :=
  if decide (n ≤ length buf) then
    match write (take n buf) {| recv_from := path_from path; recv_to := path_to path |} (endpoint v) with
    | (c, Ok _) => begin_recv mtu (set_endpoint c v)
    | (c, r) => set_recv (RecvEnded (ended_by r)) (set_endpoint c v)
    end
  else set_recv (RecvEnded Panic) v.

(** One poll of [run_client_recv_loop]; it has nothing to reply. *)
Definition poll_client_recv (mtu waker : nat) (order : list (Handle * A)) (rest : list byte) (v : ClientTasks) :
    ClientTasks :=
  match recv_loop v with
  | Receiving =>
      match recv_poll waker order (group v) with
      | (g, Ok Pending) => set_group g v
      | (g, Ok (Ready (Ok (n, bytes, path)))) =>
          on_client_datagram mtu (bytes ++ rest) n path (hear (path_to path, path_from path) (set_group g v))
      | (g, Ok (Ready r)) => set_recv (RecvEnded (ended_by r)) (set_group g v)
      | (g, r) => set_recv (RecvEnded (ended_by r)) (set_group g v)
      end
  | _ => v
  end.

(** [run_client_send_loop]: what it does with the outcome of [read], and one poll of its send. *)
Definition client_read (x : res ErrorKind (list byte * SendInfo A)) (v : ClientTasks) : ClientTasks :=
  match x with
  | Ok (buf, info) => set_send (Sending buf info) v
  | r => set_send (SendEnded (ended_by r)) v
  end.
Definition poll_client_send (waker : nat) (v : ClientTasks) : ClientTasks :=
  match send_loop v with
  | Sending buf info =>
      match poll_send waker buf info v with
      | (v, None) => v
      | (v, Some (Ok _)) => set_send Reading v
      | (v, Some r) => set_send (SendEnded (ended_by r)) v
      end
  | _ => v
  end.

(** The polls of the tasks, the steps of the read future, and the calls of the users. *)
Inductive client_step : ClientTasks → ClientTasks → Prop :=
| cl_recv v mtu waker order rest : client_step v (poll_client_recv mtu waker order rest v)
| cl_send v waker : client_step v (poll_client_send waker v)
| cl_reads v c : send_loop v = Reading → conn_reads (A:=A) (endpoint v) c None → client_step v (set_endpoint c v)
| cl_read v c x :
    send_loop v = Reading → conn_reads (endpoint v) c (Some x) → client_step v (client_read x (set_endpoint c v))
| cl_call v c : conn_call (A:=A) (endpoint v) c → client_step v (set_endpoint c v).

Inductive client_run v0 : ClientTasks → Prop :=
| cl_run_refl : client_run v0 v0
| cl_run_step v v' : client_run v0 v → client_step v v' → client_run v0 v'.

(** [run_client_loop], on a connection with the paths [heard]. *)
Definition client_tasks (mtu : nat) (g : UdpGroup A St) (c : QuicConnState C) (heard : list (A * A)) : ClientTasks :=
  begin_recv mtu
    {| group := g; endpoint := c; recv_loop := Receiving; send_loop := Reading; heard := heard; sent := [] |}.
End client.
Arguments ClientTasks A St C {_ _}.

(** ** The handshake *)
Section handshake.
Context {A C : Type} `{!Quiche A C, !QuicheClient A C} (on_path : C → A → A → Prop)
  `{!PathLaws A C on_path, !PathConnect A C on_path}.
Implicit Types (S : list (A * A)) (es : list (round A)).

(** The datagrams that [connect_with] takes. *)
Definition handshake_heard es : list (A * A) :=
  es ≫= λ e, match round_recv e with Ok (_, info) => [(recv_to info, recv_from info)] | _ => [] end.

Definition connector_within S (s : QuicConnectorState C) : Prop := within on_path S (connector_conn s).

Definition stays_within S (s s' : QuicConnectorState C) : Prop := connector_within S s → connector_within S s'.
#[local] Instance stays_within_preorder S : PreOrder (stays_within S).
Proof. split; [intros s H; exact H|]. intros s1 s2 s3 H1 H2 H. exact (H2 (H1 H)). Qed.

Lemma connector_send_within S len : sm_rel (stays_within S) (connector_send (A:=A) (C:=C) len).
Proof.
  intros s Hs. pose proof (law_send (P:=within on_path S) (ok:=heard_info S) _ len Hs) as H.
  unfold connector_send. destruct (qc_send _ len) as [c [[]|x]]; exact H.
Qed.
Lemma connector_recv_within S buf info :
  heard_info S info → sm_rel (stays_within S) (connector_recv (A:=A) (C:=C) buf info).
Proof.
  intros Hi s Hs. pose proof (law_recv (P:=within on_path S) (ok:=heard_info S) _ buf info Hi Hs) as H.
  unfold connector_recv. by destruct (qc_recv _ buf info) as [c [e|n]].
Qed.

Lemma connect_round_within S mtu (e : round A) :
  (∀ buf info, round_recv e = Ok (buf, info) → heard_info S info) →
  sm_rel (stays_within S) (connect_round (C:=C) mtu e).
Proof.
  intros He. unfold connect_round. apply sm_rel_bind; [apply _|apply connector_send_within|]. intros out.
  apply sm_rel_bind; [apply _| |].
  { destruct out as [[buf info]|]; [|apply sm_rel_ret; apply _].
    apply sm_rel_bind; [apply _|apply sm_rel_pure; [apply _|done]|]. intros _. apply sm_rel_ret; apply _. }
  intros _. apply sm_rel_bind; [apply _|apply sm_rel_pure; [apply _|done]|]. intros [].
  { apply sm_rel_fail; apply _. }
  destruct (round_recv e) as [[buf info]|err|] eqn:Hr.
  - apply sm_rel_bind; [apply _|by eapply connector_recv_within, He|]. intros _. apply sm_rel_pure; [apply _|done].
  - destruct err; try (apply sm_rel_fail; apply _). apply sm_rel_bind; [apply _| |intros _; apply sm_rel_ret; apply _].
    intros s Hs. by apply (law_on_timeout (P:=within on_path S) (ok:=heard_info S)).
  - apply sm_rel_pure; [apply _|done].
Qed.

Lemma connect_loop_within S mtu es s s' c :
  handshake_heard es ⊆ S → connector_within S s → connect_loop mtu es s = (s', Ok (Some c)) →
  within on_path S (quiche_conn (state c)).
Proof.
  revert s. induction es as [|e es IH]; intros s Hes Hs; [done|]. cbn [connect_loop].
  unfold handshake_heard in Hes. rewrite bind_cons in Hes.
  pose proof (connect_round_within S mtu e) as Hround. specialize (Hround ltac:(intros buf info He; apply Hes; rewrite He; set_solver) s Hs).
  unfold mbind, sm_bind. destruct (connect_round mtu e s) as [s1 [[]|err|]]; [| |done..].
  - by intros [= _ <-].
  - apply IH; [|done]. set_solver.
Qed.

(** The connection that the handshake makes keeps to its own path and those it heard on. *)
Lemma connect_with_within mtu ping laddr scid es raddr c :
  connect_with mtu ping (Some laddr) scid es raddr = Some (Ok c) →
  within on_path ((laddr, raddr) :: handshake_heard es) (quiche_conn (state c)).
Proof.
  unfold connect_with. cbn. unfold QuicConnectorState_new. destruct scid as [scid|]; cbn; [|done].
  destruct (quiche_connect scid laddr raddr) as [e|c0] eqn:Hc; cbn; [done|].
  destruct (connect_loop mtu es _) as [s' [[c'|]|e|]] eqn:Hl; cbn; try done. intros [= ->].
  eapply connect_loop_within; [| |exact Hl]; [set_solver|].
  intros la ra Hp. destruct (path_connect _ _ _ _ _ _ Hc Hp) as [-> ->]. set_solver.
Qed.
End handshake.

(** ** The client *)
Section run.
Context {A St C : Type} `{!EqDecision A, !Countable A, !RawDriver A St, !UdpDriverLaws A St, !Quiche A C}
  (on_path : C → A → A → Prop) `{!PathLaws A C on_path}.
Context (f : gmap A Handle).
Implicit Types v : ClientTasks A St C.

Definition conn_within (S : list (A * A)) (c : QuicConnState C) : Prop := within on_path S (quiche_conn (state c)).
#[local] Abbreviation client_inv := (tasks_inv f conn_within).

Lemma conn_within_mono S S' c : S ⊆ S' → conn_within S c → conn_within S' c.
Proof. intros HS Hc la ra Hp. by apply HS, Hc. Qed.

Lemma on_client_datagram_inv mtu buf n path v :
  client_inv (set_recv (RecvEnded (Ok ())) v) → (path_to path, path_from path) ∈ heard v →
  client_inv (on_client_datagram mtu buf n path v).
Proof.
  intros Hv Hp. unfold on_client_datagram.
  assert (∀ e, client_inv (set_recv (RecvEnded e) v)) as Hend by (intros e; by refine (set_recv_inv _ _ Hv _ _)).
  case_decide; [|apply Hend]. set (info := {| recv_from := _ |}).
  pose proof (sticks_write (within on_path (heard v)) (heard_info (heard v)) (take n buf) info Hp (endpoint v)
    (si_endpoint _ Hv)) as Hw.
  destruct (write (take n buf) info (endpoint v)) as [c r]. simpl in Hw.
  pose proof (set_endpoint_inv c _ Hv Hw) as Hv'.
  assert (client_inv (begin_recv mtu (set_endpoint c v))) as Hb by exact (proj1 (begin_recv_inv mtu _ Hv')).
  assert (∀ e, client_inv (set_recv (RecvEnded e) (set_endpoint c v))) as He
    by (intros e; by refine (set_recv_inv (RecvEnded e) _ Hv' _ _)).
  by destruct r.
Qed.

Lemma poll_client_recv_inv mtu w order rest v : client_inv v → client_inv (poll_client_recv mtu w order rest v).
Proof.
  intros Hv. unfold poll_client_recv. destruct (recv_loop v) as [|buf info|r] eqn:Hloop; [|done..].
  destruct (recv_poll_inv conn_within_mono w order v Hv Hloop) as [(s&->&Hs)|(g&r&->&Hend&Hdg)]; [done|].
  destruct r as [[[n bytes] path]|e|]; [|apply Hend..].
  apply on_client_datagram_inv; [exact (Hdg _ _ _ eq_refl)|]. simpl. set_solver.
Qed.

Lemma poll_client_send_inv w v : client_inv v → client_inv (poll_client_send w v).
Proof.
  intros Hv. unfold poll_client_send. destruct (send_loop v) as [|buf info|r] eqn:Hloop; [done| |done].
  destruct (poll_send w buf info v) as [v' r] eqn:Hs.
  destruct (poll_send_inv _ _ _ _ _ _ Hv (si_sending _ Hv _ _ Hloop) Hs) as (Hv'&_).
  destruct r as [[n|e|]|]; [by apply set_send_inv..|done].
Qed.

Lemma client_step_inv v v' : client_inv v → client_step v v' → client_inv v'.
Proof.
  intros Hv Hst. destruct Hst as [v mtu w order rest|v w|v c _ Hr|v c x _ Hr|v c Hc].
  - by apply poll_client_recv_inv.
  - by apply poll_client_send_inv.
  - apply set_endpoint_inv; [done|]. by apply (conn_reads_within on_path _ _ _ _ (si_endpoint _ Hv) Hr).
  - destruct (conn_reads_within on_path _ _ _ _ (si_endpoint _ Hv) Hr) as [Hc Hx].
    pose proof (set_endpoint_inv c _ Hv Hc) as Hv'.
    destruct x as [[buf info]|e|]; (apply set_send_inv; [done|]); [|done..].
    intros b i [= <- <-]. by eapply Hx.
  - apply set_endpoint_inv; [done|]. by apply (conn_call_within on_path _ _ _ (si_endpoint _ Hv) Hc).
Qed.

Lemma client_run_inv v v' : client_inv v → client_run v v' → client_inv v'.
Proof. intros Hv. induction 1; [done|]. by eapply client_step_inv. Qed.

Lemma client_tasks_inv mtu (g : UdpGroup A St) c b w S :
  group_inv b w g → fds g = f → conn_within S c → (∀ la ra, (la, ra) ∈ S → is_Some (f !! la)) →
  client_inv (client_tasks mtu g c S).
Proof.
  intros Hg Hf Hc HS. unfold client_tasks.
  refine (proj1 (begin_recv_inv mtu {| group := g; endpoint := c; recv_loop := RecvEnded (Ok ()); send_loop := Reading;
    heard := S; sent := [] |} _)).
  split; simpl; try done; [by intros x ?%elem_of_nil|].
  destruct Hg. split; try done; by eapply cell_ok_weaken.
Qed.
End run.

(** ** Properties *)
Section properties.
Context {A St C : Type} `{!EqDecision A, !Countable A, !RawDriver A St, !UdpDriverLaws A St,
  !Quiche A C, !QuicheClient A C} (opened : St → gset nat) `{!RawDriverLaws A St opened}
  (on_path : C → A → A → Prop) `{!PathLaws A C on_path, !PathConnect A C on_path}.

(** C26. A QUIC client only sends to the server it was connected to, or back to where it was spoken
    to.  Take a connection that [connect_with] has made from a local address of the group to
    [raddr], over any use of the sockets for its handshake, and then any run of the tasks of
    [run_client_loop] with the calls of the users of the connection at any point: every packet
    that is given to the sockets goes from that local address to [raddr], or along a path on
    which a datagram has come, in the handshake or later.  Its local address is that of one of
    the sockets that [bind] has made, so that [send_to_on_path] finds it for the packet that
    the sending task holds. *)
Theorem client_sends_to_its_server s s' p addrs (g0 g : UdpGroup A St) rw mtu ping laddr scid es raddr c v :
  UdpGroup_bind s p (Ok addrs) = (s', Ok g0) → group_run g0 rw g →
  is_Some (fds g0 !! laddr) → (∀ la ra, (la, ra) ∈ handshake_heard es → is_Some (fds g0 !! la)) →
  connect_with mtu ping (Some laddr) scid es raddr = Some (Ok c) →
  client_run (client_tasks mtu g c ((laddr, raddr) :: handshake_heard es)) v →
  (∀ buf path, (buf, path) ∈ sent v → (path_from path, path_to path) ∈ heard v) ∧
  (∀ la ra, (la, ra) ∈ heard v → is_Some (fds g0 !! la)) ∧
  (∀ buf info, send_loop v = Sending buf info →
    (send_from info, send_to info) ∈ heard v ∧ is_Some (fds (group v) !! send_from info)) ∧
  fds (group v) = fds g0.
Proof.
  intros Hb Hrun Hla Hes Hc Hr. pose proof (UdpGroup_bind_spec opened s p addrs) as H. rewrite Hb in H.
  destruct H as [Hg0 _].
  assert (group_inv rw.1 rw.2 g ∧ fds g = fds g0) as [Hg Hf].
  { clear Hr. induction Hrun as [|rw g rw' g' _ [IH1 IH2] Hst]; [done|].
    destruct (group_step_inv _ _ _ _ Hst IH1) as [? ?]. split; [done|congruence]. }
  assert (tasks_inv (fds g0) (conn_within on_path) (client_tasks mtu g c ((laddr, raddr) :: handshake_heard es))) as H0.
  { eapply client_tasks_inv; [exact Hg|exact Hf|by eapply connect_with_within|].
    intros la ra [[= -> _]|Hin]%elem_of_cons; [done|by eapply Hes]. }
  destruct (client_run_inv on_path _ _ _ H0 Hr) as [H1 H2 H3 H4 H5 H6 H7].
  split; [intros buf path Hs; exact (H4 _ Hs)|]. split; [done|]. split; [|done].
  intros buf info Hs. specialize (H3 _ _ Hs). split; [done|]. rewrite H7. by eapply H5.
Qed.
End properties.

(** ** Witness: the handshake takes one datagram; a packet is sent after another has come *)
#[export] Instance PathClient : QuicheClient nat PathConn := {
  quiche_connect scid laddr raddr := inr {| paths := [(laddr, raddr)] |};
}.
#[export] Instance path_client : PathConnect nat PathConn on_path.
Proof. intros scid laddr raddr c l r [= <-] [= -> ->]%list_elem_of_singleton. done. Qed.

Definition path_round : round nat :=
  {| round_now := 1%N; round_send := λ buf _, Ok (length buf);
     round_recv := Ok ([x01], {| recv_from := 90; recv_to := 8003 |}) |}.
Definition path_conn : QuicConnState PathConn :=
  match connect_with 3 2000 (Some 8003) (Some [x07]) [path_round] 80 with
  | Some (Ok c) => c
  | _ => QuicConnState_new 0 {| paths := [] |} 0 0
  end.
Definition client0 : ClientTasks nat UdpMock PathConn :=
  client_tasks 3 udp_group path_conn ((8003, 80) :: handshake_heard [path_round]).
Definition client1 := poll_client_recv 3 7 (batching_reader (group client0)) [] client0.
Definition client1_read := read_segment (A:=nat) 5 3 (endpoint client1).
Definition client2 : ClientTasks nat UdpMock PathConn :=
  match client1_read with
  | (c, Ok (Return x)) => client_read (Ok x) (set_endpoint c client1)
  | _ => client1
  end.
Definition client3 := poll_client_send 8 client2.

Lemma client_sends_to_its_server_witness :
  heard client3 = [(8003, 80); (8003, 90); (8003, 80)] ∧ length (sent client3) = 1 ∧
  Forall (λ x, (path_from x.2, path_to x.2) ∈ heard client3) (sent client3).
Proof.
  split; [vm_compute; reflexivity|]. split; [vm_compute; reflexivity|].
  destruct (client_sends_to_its_server udp_opened (RawDriverLaws0 := udp_mock_laws) on_path udp0 udp_bound.1 udp_poller
    [80; 81] udp_group udp_group (false, false) 3 2000 8003 (Some [x07]) [path_round] 80 path_conn client3) as (H&_).
  - vm_compute. reflexivity.
  - apply grun_refl.
  - vm_compute. eexists. reflexivity.
  - intros la ra [= -> ->]%list_elem_of_singleton. vm_compute. eexists. reflexivity.
  - vm_compute. reflexivity.
  - refine (cl_run_step _ client2 client3 _ (cl_send client2 8)).
    refine (cl_run_step _ client1 client2 (cl_run_step _ client0 client1 (cl_run_refl _) (cl_recv client0 3 7 _ [])) _).
    assert (client2 = client_read (Ok ([x05], {| send_from := 8003; send_to := 80; send_at := 0%N |}))
      (set_endpoint client1_read.1 client1)) as -> by (vm_compute; reflexivity).
    apply cl_read; [vm_compute; reflexivity|].
    apply (reads_ready (endpoint client1) 5 3). vm_compute. reflexivity.
  - apply Forall_forall. intros [buf path] Hx. exact (H _ _ Hx).
Defined.
