(* ===== verification/Leveldb.v ===== *)
(** * crates/leveldb/src/lib.rs: the wrapper of the C library leveldb

    The C library is the class [CLeveldb]: what its functions do to a database, to a set of
    options and to an iterator.  Every object that it allocates is in [objs] until it is
    released; releasing it twice panics.  A Rust value that owns an object is the number of
    the object; [scoped] is its drop at the end of a function. *)

From S2P Require Import Prelude.

(** ** Keys and values: [to_ne_bytes] and [from_ne_bytes]

    [big]: the byte order of the machine. *)
Section numbers.
Local Open Scope Z_scope.

Definition Z_of_byte (b : byte) : Z := Z.of_N (Byte.to_N b).
Definition byte_of_Z (z : Z) : byte := default x00 (Byte.of_N (Z.to_N z)).
Definition in_order (big : bool) (l : list byte) : list byte := if big then rev l else l.

Definition to_ne_bytes (big : bool) (size : nat) (x : Z) : list byte :=
  in_order big (byte_of_Z <$> Z_to_little_endian (Z.of_nat size) 8 x).

Definition from_ne_bytes (big signed : bool) (size : nat) (l : list byte) : Z :=
  let u := little_endian_to_Z 8 (Z_of_byte <$> in_order big l) in
  if signed && (2 ^ (8 * Z.of_nat size - 1) <=? u) then u - 2 ^ (8 * Z.of_nat size) else u.

(** The values of an integer type. *)
Definition in_range (signed : bool) (size : nat) (x : Z) : Prop :=
  if signed then - 2 ^ (8 * Z.of_nat size - 1) ≤ x < 2 ^ (8 * Z.of_nat size - 1)
  else 0 ≤ x < 2 ^ (8 * Z.of_nat size).
End numbers.

(** [num_def!], and the instances for strings and byte vectors; [utf8] is the test of
    [String::from_utf8]. *)
Definition num_to_bytes (big : bool) (size : nat) (x : Z) : res ErrorKind (list byte) :=
  Ok (to_ne_bytes big size x).
Definition num_from_bytes (big signed : bool) (size : nat) (buf : list byte) : res ErrorKind Z :=
  if decide (length buf ≠ size) then Err InvalidInput else Ok (from_ne_bytes big signed size buf).
Definition string_to_bytes (s : list byte) : res ErrorKind (list byte) := Ok s.
Definition string_from_bytes (utf8 : list byte → bool) (buf : list byte) : res ErrorKind (list byte) :=
  if utf8 buf then Ok buf else Err InvalidData.
Definition vec_to_bytes (s : list byte) : res ErrorKind (list byte) := Ok s.
Definition vec_from_bytes (buf : list byte) : res ErrorKind (list byte) := Ok buf.

(** ** The C library *)
Inductive batch_op := BatchPut (key value : list byte) | BatchDelete (key : list byte).

(** An error is its message.  [c_iter_entry]: the entry at the position of the iterator, if it
    is valid. *)
Class CLeveldb (Db Opts It : Type) := {
  c_options_create : Opts;
  c_set_create_if_missing : bool → Opts → Opts;
  c_set_error_if_exists : bool → Opts → Opts;
  c_set_write_buffer_size : nat → Opts → Opts;
  c_set_block_size : nat → Opts → Opts;
  c_set_compression : bool → Opts → Opts;
  c_open : Opts → list byte → list byte + Db;
  c_get : Db → list byte → list byte + option (list byte);
  c_put : Db → bool → list byte → list byte → list byte + Db;
  c_delete : Db → bool → list byte → list byte + Db;
  c_write : Db → bool → list batch_op → list byte + Db;
  c_create_iterator : Db → It;
  c_iter_entry : It → option (list byte * list byte);
  c_iter_seek_to_first : It → It;
  c_iter_seek : list byte → It → It;
  c_iter_next : It → It;
}.

(** Objects of the library.  A snapshot and an iterator are shared by reference counts;
    read options hold no snapshot, because no code sets one. *)
Inductive Obj (Db Opts It : Type) :=
| OOptions (o : Opts)
| OReadOptions
| OWriteOptions (sync : bool)
| OBatch (ops : list batch_op)
| OIter (it : It) (rc : nat)
| OSnapshot (view : Db) (rc : nat)
| OValue (v : list byte)
| OError (msg : list byte).
Arguments OOptions {Db Opts It}. Arguments OReadOptions {Db Opts It}.
Arguments OWriteOptions {Db Opts It}. Arguments OBatch {Db Opts It}. Arguments OIter {Db Opts It}.
Arguments OSnapshot {Db Opts It}. Arguments OValue {Db Opts It}. Arguments OError {Db Opts It}.

Section leveldb.
Context {Db Opts It : Type} `{!CLeveldb Db Opts It} (utf8 : list byte → bool).

Record World := {
  db : Db;
  objs : gmap nat (Obj Db Opts It);
  next_obj : nat;
}.

#[local] Notation M := (sm World ErrorKind).

Definition set_db (d : Db) (w : World) : World := {| db := d; objs := objs w; next_obj := next_obj w |}.
Definition set_objs (m : gmap nat (Obj Db Opts It)) (w : World) : World :=
  {| db := db w; objs := m; next_obj := next_obj w |}.

Definition create (o : Obj Db Opts It) : M nat := λ w,
  ({| db := db w; objs := <[next_obj w := o]> (objs w); next_obj := S (next_obj w) |}, Ok (next_obj w)).
Definition release (p : nat) : M () := λ w,
  match objs w !! p with Some _ => (set_objs (delete p (objs w)) w, Ok ()) | None => (w, Panic) end.
Definition obj (p : nat) : M (Obj Db Opts It) := λ w, (w, unwrap (objs w !! p)).
Definition put_obj (p : nat) (o : Obj Db Opts It) : M () := modify (λ w, set_objs (<[p := o]> (objs w)) w).

(** [drop] of what a function owns, on every way out of it; a panic unwinds. *)
Definition scoped {B} (drop : M ()) (body : M B) : M B := λ w,
  match body w with
  | (w, Ok b) => (drop;; mret b) w
  | (w, Err e) => (drop;; fail e) w
  | (w, Panic) => (w, Panic)
  end.

Definition to_io_error {B} (error : nat) : M B :=
  o ← obj error;
  match o with
  | OError msg => assert_ (utf8 msg);; release error;; fail Other
  | _ => panic
  end.

(** The result of a C function that may set its error. *)
Definition c_result {B} (r : list byte + B) : M B :=
  match r with
  | inl msg => error ← create (OError msg); to_io_error error
  | inr b => mret b
  end.

(** *** OpenOptions *)
Definition OpenOptions_new : M nat := create (OOptions (c_set_create_if_missing true c_options_create)).
Definition set_option (f : Opts → Opts) (p : nat) : M () :=
  o ← obj p; match o with OOptions c => put_obj p (OOptions (f c)) | _ => panic end.
Definition create_if_missing (p : nat) (flag : bool) : M () := set_option (c_set_create_if_missing flag) p.
Definition error_if_exists (p : nat) (flag : bool) : M () := set_option (c_set_error_if_exists flag) p.
Definition write_buffer_size (p : nat) (size : nat) : M () := set_option (c_set_write_buffer_size size) p.
Definition block_size (p : nat) (size : nat) : M () := set_option (c_set_block_size size) p.
Definition compression (p : nat) (flag : bool) : M () := set_option (c_set_compression flag) p.

(** *** Snapshot: an [Arc]; a clone is the same number *)
Definition Snapshot_new : M nat := λ w, create (OSnapshot (db w) 1) w.
Definition Snapshot_clone (p : nat) : M nat :=
  o ← obj p;
  match o with OSnapshot v rc => put_obj p (OSnapshot v (S rc));; mret p | _ => panic end.
Definition Snapshot_drop (p : nat) : M () :=
  o ← obj p;
  match o with
  | OSnapshot v (S (S rc)) => put_obj p (OSnapshot v (S rc))
  | OSnapshot _ _ => release p
  | _ => panic
  end.

(** *** ReadOps and WriteOps *)
Record ReadOps := { read_c_ops : nat; read_snapshot : option nat }.

Definition ReadOps_new : M ReadOps :=
  p ← create OReadOptions; mret {| read_c_ops := p; read_snapshot := None |}.
Definition ReadOps_new_with (snapshot : nat) : M ReadOps :=
  p ← create OReadOptions; sn ← Snapshot_clone snapshot;
  mret {| read_c_ops := p; read_snapshot := Some sn |}.
Definition ReadOps_drop (r : ReadOps) : M () :=
  release (read_c_ops r);;
  match read_snapshot r with Some sn => Snapshot_drop sn | None => mret () end.

(** The default of [leveldb_writeoptions_create] is not synchronous. *)
Definition WriteOps_new : M nat := create (OWriteOptions false).
Definition WriteOps_sync (p : nat) (flag : bool) : M () := put_obj p (OWriteOptions flag).

Definition or_read (ops : option ReadOps) : M ReadOps :=
  match ops with Some r => mret r | None => ReadOps_new end.
Definition or_write (ops : option nat) : M nat :=
  match ops with Some p => mret p | None => WriteOps_new end.
Definition sync_of (p : nat) : M bool :=
  o ← obj p; match o with OWriteOptions b => mret b | _ => panic end.

(** *** WriteBatch *)
Definition WriteBatch_new : M nat := create (OBatch []).
Definition batch_push (batch : nat) (op : batch_op) : M () :=
  o ← obj batch; match o with OBatch ops => put_obj batch (OBatch (ops ++ [op])) | _ => panic end.
(** [key] and [value] are the results of [to_bytes]. *)
Definition WriteBatch_put (batch : nat) (key value : res ErrorKind (list byte)) : M () :=
  key ← lift key; value ← lift value; batch_push batch (BatchPut key value).
Definition WriteBatch_delete (batch : nat) (key : res ErrorKind (list byte)) : M () :=
  key ← lift key; batch_push batch (BatchDelete key).
Definition WriteBatch_commit (batch : nat) (ops : option nat) : M () :=
  scoped (release batch)
    (ops ← or_write ops;
     scoped (release ops)
       (sync ← sync_of ops; o ← obj batch;
        match o with
        | OBatch l => d ← gets db; d ← c_result (c_write d sync l); modify (set_db d)
        | _ => panic
        end)).

(** *** Iterators: [RawIterator] is shared by its [KeyValueIterator] and its items *)
Definition RawIterator_new (ops : option ReadOps) : M nat :=
  ops ← or_read ops;
  scoped (ReadOps_drop ops) (d ← gets db; create (OIter (c_create_iterator d) 1)).
Definition RawIterator_clone (p : nat) : M nat :=
  o ← obj p; match o with OIter it rc => put_obj p (OIter it (S rc));; mret p | _ => panic end.
Definition RawIterator_drop (p : nat) : M () :=
  o ← obj p;
  match o with
  | OIter it (S (S rc)) => put_obj p (OIter it (S rc))
  | OIter _ _ => release p
  | _ => panic
  end.

Definition get_iter (p : nat) : M It :=
  o ← obj p; match o with OIter it _ => mret it | _ => panic end.
Definition move_iter (p : nat) (f : It → It) : M () :=
  o ← obj p; match o with OIter it rc => put_obj p (OIter (f it) rc) | _ => panic end.

(** [Item]: the number of its [RawIterator]; [from_bytes] of the type that is asked for. *)
Definition Item_key {K} (from_bytes : list byte → res ErrorKind K) (item : nat) : M K :=
  it ← get_iter item;
  match c_iter_entry it with Some kv => lift (from_bytes kv.1) | None => panic end.
Definition Item_value {V} (from_bytes : list byte → res ErrorKind V) (item : nat) : M V :=
  it ← get_iter item;
  match c_iter_entry it with Some kv => lift (from_bytes kv.2) | None => panic end.

Record KeyValueIterator := { iter_raw : nat; iter_seek : bool }.

Definition KeyValueIterator_new (ops : option ReadOps) : M KeyValueIterator :=
  p ← RawIterator_new ops; mret {| iter_raw := p; iter_seek := false |}.
Definition KeyValueIterator_seek (i : KeyValueIterator) (k : res ErrorKind (list byte)) :
    M KeyValueIterator :=
  match k with
  | Ok k =>
      move_iter (iter_raw i) (c_iter_seek k);;
      mret {| iter_raw := iter_raw i; iter_seek := true |}
  | Err e => RawIterator_drop (iter_raw i);; fail e
  | Panic => panic
  end.

Definition valid (it : It) : bool := bool_decide (is_Some (c_iter_entry it)).

Definition iter_next (i : KeyValueIterator) : M (KeyValueIterator * option nat) :=
  it ← get_iter (iter_raw i);
  i ←
    (if negb (valid it) then move_iter (iter_raw i) c_iter_seek_to_first;; mret i
     else if iter_seek i then mret {| iter_raw := iter_raw i; iter_seek := false |}
     else move_iter (iter_raw i) c_iter_next;; mret i);
  it ← get_iter (iter_raw i);
  if negb (valid it) then mret (i, None)
  else item ← RawIterator_clone (iter_raw i); mret (i, Some item).

(** *** Database *)

(** [path] is a valid string; [nul_free] is the test of [CString::new]. *)
Definition Database_open (path : list byte) (ops : option nat) : M () :=
  ops ← match ops with Some p => mret p | None => p ← OpenOptions_new; create_if_missing p true;; mret p end;
  scoped (release ops)
    (if bool_decide (x00 ∈ path) then fail InvalidInput
     else
       o ← obj ops;
       match o with
       | OOptions c => d ← c_result (c_open c path); modify (set_db d)
       | _ => panic
       end).

Definition Database_put (key value : res ErrorKind (list byte)) (ops : option nat) : M () :=
  ops ← or_write ops;
  scoped (release ops)
    (key ← lift key; value ← lift value;
     sync ← sync_of ops; d ← gets db;
     d ← c_result (c_put d sync key value); modify (set_db d)).

Definition Database_get {V} (from_bytes : list byte → res ErrorKind V)
    (key : res ErrorKind (list byte)) (ops : option ReadOps) : M V :=
  ops ← or_read ops;
  scoped (ReadOps_drop ops)
    (key ← lift key; d ← gets db;
     r ← c_result (c_get d key);
     match r with
     | Some v => raw ← create (OValue v); scoped (release raw) (lift (from_bytes v))
     | None => lift (from_bytes [])
     end).

Definition Database_delete (key : res ErrorKind (list byte)) (ops : option nat) : M bool :=
  ops ← or_write ops;
  scoped (release ops)
    (key ← lift key;
     read_ops ← ReadOps_new;
     scoped (ReadOps_drop read_ops)
       (d ← gets db;
        r ← c_result (c_get d key);
        match r with
        | Some v =>
            raw ← create (OValue v);
            if decide (0 < length v) then
              release raw;;
              sync ← sync_of ops;
              d ← c_result (c_delete d sync key); modify (set_db d);; mret true
            else mret false
        | None => mret false
        end)).
End leveldb.
Arguments World : clear implicits.

(** ** Numbers *)
Section number_facts.
Local Open Scope Z_scope.

Lemma byte_of_Z_of_byte b : byte_of_Z (Z_of_byte b) = b.
Proof. unfold byte_of_Z, Z_of_byte. by rewrite N2Z.id, Byte.of_to_N. Qed.
Lemma Z_of_byte_bound b : 0 ≤ Z_of_byte b < 2 ^ 8.
Proof. unfold Z_of_byte. pose proof (Byte.to_N_bounded b). lia. Qed.
Lemma Z_of_byte_of_Z z : 0 ≤ z < 2 ^ 8 → Z_of_byte (byte_of_Z z) = z.
Proof.
  intros Hz. unfold byte_of_Z, Z_of_byte. destruct (Byte.of_N (Z.to_N z)) as [b|] eqn:Hb.
  - apply Byte.to_of_N in Hb. simpl. rewrite Hb. lia.
  - apply Byte.of_N_None_iff in Hb. lia.
Qed.
Lemma in_order_involutive big l : in_order big (in_order big l) = l.
Proof. destruct big; [apply rev_involutive|done]. Qed.
Lemma length_in_order big l : length (in_order big l) = length l.
Proof. destruct big; [apply length_rev|done]. Qed.

Lemma from_to_unsigned big size x :
  little_endian_to_Z 8 (Z_of_byte <$> in_order big (to_ne_bytes big size x)) =
    x `mod` 2 ^ (8 * Z.of_nat size).
Proof.
  unfold to_ne_bytes. rewrite in_order_involutive, <-list_fmap_compose.
  rewrite (list_fmap_ext _ id).
  - rewrite list_fmap_id, little_endian_to_Z_to_little_endian by lia. f_equal. f_equal. lia.
  - intros i z Hz. simpl. apply Z_of_byte_of_Z.
    pose proof (Z_to_little_endian_bound (Z.of_nat size) 8 x) as Hb.
    eapply Forall_lookup_1 in Hb; [..|done]; lia.
Qed.

Lemma to_from_unsigned big l :
  to_ne_bytes big (length l) (little_endian_to_Z 8 (Z_of_byte <$> in_order big l)) = l.
Proof.
  unfold to_ne_bytes. rewrite Z_to_little_endian_to_Z.
  - rewrite <-list_fmap_compose, (list_fmap_ext _ id).
    + rewrite list_fmap_id. apply in_order_involutive.
    + intros. apply byte_of_Z_of_byte.
  - by rewrite length_fmap, length_in_order.
  - lia.
  - apply Forall_fmap, Forall_true. intros b. apply Z_of_byte_bound.
Qed.

Lemma length_to_ne_bytes big size x : length (to_ne_bytes big size x) = size.
Proof.
  unfold to_ne_bytes. rewrite length_in_order, length_fmap.
  pose proof (length_Z_to_little_endian (Z.of_nat size) 8 x). lia.
Qed.

(** Bytes are numbers modulo the size of the type. *)
Lemma to_ne_bytes_mod big size x y :
  x `mod` 2 ^ (8 * Z.of_nat size) = y `mod` 2 ^ (8 * Z.of_nat size) →
  to_ne_bytes big size x = to_ne_bytes big size y.
Proof.
  intros Hxy. rewrite <-!(from_to_unsigned big) in Hxy.
  rewrite <-(to_from_unsigned big (to_ne_bytes big size x)), Hxy, !length_to_ne_bytes.
  rewrite <-(length_to_ne_bytes big size y) at 1. apply to_from_unsigned.
Qed.

Lemma from_unsigned_bound big l :
  0 ≤ little_endian_to_Z 8 (Z_of_byte <$> in_order big l) < 2 ^ (8 * Z.of_nat (length l)).
Proof.
  rewrite <-(to_from_unsigned big l) at 1 2. rewrite from_to_unsigned.
  apply Z.mod_pos_bound. lia.
Qed.

Lemma half_size size : size ≠ 0%nat → 2 ^ (8 * Z.of_nat size) = 2 * 2 ^ (8 * Z.of_nat size - 1).
Proof. intros. rewrite <-Z.pow_succ_r by lia. f_equal. lia. Qed.

Lemma from_to_ne_bytes big signed size x :
  size ≠ 0%nat → in_range signed size x →
  from_ne_bytes big signed size (to_ne_bytes big size x) = x.
Proof.
  intros Hs Hr. unfold from_ne_bytes, in_range in *. rewrite from_to_unsigned, (half_size size) by done.
  set (h := 2 ^ (8 * Z.of_nat size - 1)) in *. destruct signed; simpl.
  - destruct (decide (0 ≤ x)).
    + rewrite Z.mod_small by lia. destruct (Z.leb_spec h x); lia.
    + rewrite <-(Z.mod_add x 1), Z.mod_small by lia. destruct (Z.leb_spec h (x + 1 * (2 * h))); lia.
  - rewrite (half_size size) in Hr by done. by apply Z.mod_small.
Qed.

Lemma to_from_ne_bytes big signed l :
  l ≠ [] →
  in_range signed (length l) (from_ne_bytes big signed (length l) l) ∧
  to_ne_bytes big (length l) (from_ne_bytes big signed (length l) l) = l.
Proof.
  intros Hl. assert (length l ≠ 0%nat) as Hs by (by destruct l).
  pose proof (from_unsigned_bound big l) as Hb. unfold from_ne_bytes, in_range.
  split.
  - rewrite (half_size (length l)) in Hb |- * by done.
    set (h := 2 ^ (8 * Z.of_nat (length l) - 1)) in *.
    set (u := little_endian_to_Z 8 _) in *.
    destruct signed; simpl; [|lia]. destruct (Z.leb_spec h u); lia.
  - etrans; [|apply (to_from_unsigned big l)]. apply to_ne_bytes_mod.
    destruct (_ && _); [|done].
    rewrite <-(Z.mod_add _ 1) by lia. f_equal. lia.
Qed.
End number_facts.

(** ** What the library promises: a database is a map, an iterator goes through a list *)
Notation dbmap := (gmap (list byte) (list byte)).

Definition apply_op (m : dbmap) (op : batch_op) : dbmap :=
  match op with BatchPut k v => <[k := v]> m | BatchDelete k => delete k m end.

Class LeveldbLaws (Db Opts It : Type) `{!CLeveldb Db Opts It} (utf8 : list byte → bool)
    (contents : Db → dbmap) (rest all : It → list (list byte * list byte)) : Prop := {
  law_get d k : match c_get d k with inr v => v = contents d !! k | inl e => utf8 e = true end;
  law_put d sync k v :
    match c_put d sync k v with
    | inr d' => contents d' = <[k := v]> (contents d) | inl e => utf8 e = true
    end;
  law_delete d sync k :
    match c_delete d sync k with
    | inr d' => contents d' = delete k (contents d) | inl e => utf8 e = true
    end;
  law_write d sync ops :
    match c_write d sync ops with
    | inr d' => contents d' = foldl apply_op (contents d) ops | inl e => utf8 e = true
    end;
  law_iter_create d : rest (c_create_iterator d) = [] ∧ all (c_create_iterator d) ≡ₚ map_to_list (contents d);
  law_iter_entry it : c_iter_entry it = head (rest it);
  law_iter_first it : rest (c_iter_seek_to_first it) = all it ∧ all (c_iter_seek_to_first it) = all it;
  law_iter_next it : rest it ≠ [] → rest (c_iter_next it) = tail (rest it) ∧ all (c_iter_next it) = all it;
  law_iter_seek it k :
    rest (c_iter_seek k it) `suffix_of` all it ∧ all (c_iter_seek k it) = all it;
}.

Section leveldb_facts.
Context {Db Opts It : Type} `{!CLeveldb Db Opts It} (utf8 : list byte → bool).
Context (contents : Db → dbmap) (rest all : It → list (list byte * list byte)).
Context `{!LeveldbLaws Db Opts It utf8 contents rest all}.
Implicit Types w : World Db Opts It.

(** Objects are numbered in the order of their creation. *)
Definition world_wf w : Prop := ∀ p, next_obj w ≤ p → objs w !! p = None.

(** [k] objects have been created and released. *)
Definition bump (k : nat) w : World Db Opts It :=
  {| db := db w; objs := objs w; next_obj := k + next_obj w |}.

Lemma wf_next w k : world_wf w → objs w !! (k + next_obj w) = None.
Proof. intros Hw. apply Hw. lia. Qed.

Lemma c_result_eq {B} (r : list byte + B) w :
  world_wf w → match r with inl e => utf8 e = true | inr _ => True end →
  c_result utf8 r w = match r with inr b => (w, Ok b) | inl _ => (bump 1 w, Err Other) end.
Proof.
  intros Hw. destruct r as [e|b]; [|done]. intros He.
  unfold c_result, to_io_error, obj, assert_, release, create, fail, mbind, sm_bind, mret, sm_ret. simpl.
  rewrite lookup_insert_eq. simpl. rewrite He. simpl. rewrite lookup_insert_eq. simpl.
  unfold set_objs. simpl. rewrite delete_insert_eq, delete_id by (apply Hw; lia). done.
Qed.

(** *** Write options: given by the caller, or made and dropped by the function *)
Definition own_write w (ops : option nat) : Prop :=
  match ops with Some p => ∃ b, objs w !! p = Some (OWriteOptions b) | None => True end.
Definition after_write w (ops : option nat) : gmap nat (Obj Db Opts It) :=
  match ops with Some p => delete p (objs w) | None => objs w end.

Lemma bump_wf w k : world_wf w → world_wf (bump k w).
Proof. intros Hw p Hp. apply Hw. unfold bump in Hp. simpl in Hp. lia. Qed.
Lemma set_db_wf w d : world_wf w → world_wf (set_db d w).
Proof. by intros Hw p Hp; apply Hw. Qed.
Lemma create_wf w o : world_wf w → world_wf (create o w).1.
Proof.
  intros Hw p Hp. unfold create in *. simpl in *. rewrite lookup_insert_ne by lia. apply Hw. lia.
Qed.

(** What is left of a run of the body with its options. *)
Lemma with_write {B} ops (body : nat → sm (World Db Opts It) ErrorKind B) w (Q : World Db Opts It → res ErrorKind B → Prop) :
  world_wf w → own_write w ops →
  (∀ p sync w1, world_wf w1 → db w1 = db w → objs w1 !! p = Some (OWriteOptions sync) →
     delete p (objs w1) = after_write w ops →
     ∃ w2 r, body p w1 = (w2, r) ∧ objs w2 !! p = Some (OWriteOptions sync) ∧ r ≠ Panic ∧
       Q (set_objs (delete p (objs w2)) w2) r) →
  ∃ w' r, (ops ← or_write ops; scoped (release ops) (body ops)) w = (w', r) ∧ Q w' r.
Proof.
  intros Hw Ho Hb. unfold or_write, WriteOps_new, create, mbind, sm_bind.
  assert (∀ p sync w1, world_wf w1 → db w1 = db w → objs w1 !! p = Some (OWriteOptions sync) →
    delete p (objs w1) = after_write w ops → ∃ w' r, scoped (release p) (body p) w1 = (w', r) ∧ Q w' r) as Hs.
  { intros p sync w1 Hw1 Hd Hp Hdel. destruct (Hb p sync w1 Hw1 Hd Hp Hdel) as (w2&r&He&Hp2&Hr&HQ).
    unfold scoped. rewrite He. exists (set_objs (delete p (objs w2)) w2), r. split; [|done].
    unfold release, mbind, sm_bind, fail, mret, sm_ret. destruct r; by rewrite ?Hp2. }
  destruct ops as [p|]; simpl.
  - destruct Ho as [sync Hp]. by apply (Hs p sync).
  - apply (Hs _ false); simpl; [by apply (create_wf w (OWriteOptions false))|done|by rewrite lookup_insert_eq|].
    rewrite delete_insert_eq. apply delete_id. apply Hw. lia.
Qed.

(** The end of an operation: what it has made is released. *)
Definition done_with w ops w' : Prop := objs w' = after_write w ops ∧ world_wf w'.

Lemma done_release w ops p w2 :
  delete p (objs w2) = after_write w ops → world_wf w2 →
  done_with w ops (set_objs (delete p (objs w2)) w2).
Proof.
  intros Hdel Hw2. split; [done|]. intros q Hq. simpl. apply lookup_delete_None. right. by apply Hw2.
Qed.

(** The message of every error is a string. *)
Definition is_error {X} (r : list byte + X) : Prop :=
  match r with inl e => utf8 e = true | inr _ => True end.
Lemma law_put_err d sync k v : is_error (c_put d sync k v).
Proof. pose proof (law_put d sync k v). unfold is_error. by destruct (c_put d sync k v). Qed.
Lemma law_get_err d k : is_error (c_get d k).
Proof. pose proof (law_get d k). unfold is_error. by destruct (c_get d k). Qed.
Lemma law_delete_err d sync k : is_error (c_delete d sync k).
Proof. pose proof (law_delete d sync k). unfold is_error. by destruct (c_delete d sync k). Qed.
Lemma law_write_err d sync ops : is_error (c_write d sync ops).
Proof. pose proof (law_write d sync ops). unfold is_error. by destruct (c_write d sync ops). Qed.

Lemma Database_put_spec w k v ops :
  world_wf w → own_write w ops →
  ∃ w' r, Database_put utf8 (Ok k) (Ok v) ops w = (w', r) ∧ done_with w ops w' ∧
    (r = Ok () ∧ contents (db w') = <[k := v]> (contents (db w)) ∨ r = Err Other ∧ db w' = db w).
Proof.
  intros Hw Ho. unfold Database_put. apply with_write; [done..|].
  intros p sync w1 Hw1 Hd Hp Hdel. unfold sync_of, obj, gets, lift, modify. unfold mbind, sm_bind.
  simpl. rewrite Hp. simpl. unfold mret, sm_ret.
  rewrite c_result_eq; [|done|apply (law_put_err (db w1) sync k v)].
  pose proof (law_put (db w1) sync k v) as Hl. rewrite Hd in *.
  destruct (c_put (db w) sync k v) as [e|d]; do 2 eexists; (split; [done|]; split; [done|]; split; [done|]).
  - split; [by apply done_release, bump_wf|by right].
  - split; [by apply done_release, set_db_wf|by left].
Qed.

(** *** Read options *)
Definition own_read w (ops : option ReadOps) : Prop :=
  match ops with
  | Some r => is_Some (objs w !! read_c_ops r) ∧
      match read_snapshot r with
      | Some sn => sn ≠ read_c_ops r ∧ ∃ v rc, objs w !! sn = Some (OSnapshot v rc)
      | None => True
      end
  | None => True
  end.
(** Dropping read options gives back their reference to the snapshot. *)
Definition drop_snapshot (sn : option nat) (m : gmap nat (Obj Db Opts It)) : gmap nat (Obj Db Opts It) :=
  match sn with
  | Some sn =>
      match m !! sn with
      | Some (OSnapshot v (S (S rc))) => <[sn := OSnapshot v (S rc)]> m
      | _ => delete sn m
      end
  | None => m
  end.
Definition after_read w (ops : option ReadOps) : gmap nat (Obj Db Opts It) :=
  match ops with
  | Some r => drop_snapshot (read_snapshot r) (delete (read_c_ops r) (objs w))
  | None => objs w
  end.

Lemma ReadOps_drop_spec r w :
  own_read w (Some r) → ReadOps_drop r w = (set_objs (after_read w (Some r)) w, Ok ()).
Proof.
  intros [[o Ho] Hsn]. unfold ReadOps_drop, release, mbind, sm_bind. rewrite Ho.
  destruct (read_snapshot r) as [sn|] eqn:Hr; simpl; rewrite ?Hr; [|done].
  destruct Hsn as (Hne&v&rc&Hv).
  unfold Snapshot_drop, obj, put_obj, release, modify, mbind, sm_bind. simpl.
  rewrite lookup_delete_ne, Hv by done. simpl.
  destruct rc as [|[|rc]]; simpl; rewrite ?lookup_delete_ne, ?Hv by done; done.
Qed.

Lemma after_read_wf w ops : world_wf w → own_read w ops → world_wf (set_objs (after_read w ops) w).
Proof.
  intros Hw Ho p Hp. simpl in *. destruct ops as [r|]; simpl; [|by apply Hw].
  assert (delete (read_c_ops r) (objs w) !! p = None) as Hd
    by (apply lookup_delete_None; right; by apply Hw).
  destruct Ho as [_ Ho]. unfold drop_snapshot. destruct (read_snapshot r) as [sn|]; [|done].
  destruct Ho as (Hne&v&rc&Hv). rewrite lookup_delete_ne, Hv by done.
  assert (sn ≠ p) by (intros ->; rewrite (Hw p Hp) in Hv; done).
  destruct rc as [|[|rc]]; rewrite ?lookup_delete_None, ?lookup_insert_ne by done; auto.
Qed.

Lemma with_read {B} ops (body : sm (World Db Opts It) ErrorKind B) w (Q : res ErrorKind B → Prop) :
  world_wf w → own_read w ops →
  (∀ w1, world_wf w1 → db w1 = db w →
     ∃ k r, body w1 = (bump k w1, r) ∧ r ≠ Panic ∧ Q r) →
  ∃ w' r, (ops ← or_read ops; scoped (ReadOps_drop ops) body) w = (w', r) ∧
    objs w' = after_read w ops ∧ db w' = db w ∧ world_wf w' ∧ Q r.
Proof.
  intros Hw Ho Hb. unfold or_read, ReadOps_new, create, mbind, sm_bind, mret, sm_ret.
  assert (∀ r w1, world_wf w1 → db w1 = db w → own_read w1 (Some r) →
    ∃ w' x, scoped (ReadOps_drop r) body w1 = (w', x) ∧ objs w' = after_read w1 (Some r) ∧
      db w' = db w ∧ world_wf w' ∧ Q x) as Hs.
  { intros r w1 Hw1 Hd Ho1. destruct (Hb w1 Hw1 Hd) as (k&x&He&Hx&HQ). unfold scoped. rewrite He.
    exists (set_objs (after_read w1 (Some r)) (bump k w1)), x.
    split; [|split; [done|split; [done|split; [|done]]]].
    - unfold mbind, sm_bind, fail, mret, sm_ret. rewrite (ReadOps_drop_spec r (bump k w1)) by done.
      by destruct x.
    - by apply (after_read_wf (bump k w1) (Some r)); [apply bump_wf|]. }
  destruct ops as [r|]; simpl; [by apply Hs|].
  destruct (Hs {| read_c_ops := next_obj w; read_snapshot := None |} (create OReadOptions w).1)
    as (w'&x&He&Hob&Hd&Hw'&HQ); [by apply (create_wf w OReadOptions)|done| |].
  - split; [|done]. simpl. rewrite lookup_insert_eq. eauto.
  - exists w', x. split; [done|]. split; [|done]. rewrite Hob. simpl.
    rewrite delete_insert_eq. apply delete_id. apply Hw. lia.
Qed.

(** A value that is read and freed. *)
Lemma value_released {B} v (r : res ErrorKind B) w :
  world_wf w → r ≠ Panic →
  (raw ← create (OValue v); scoped (release raw) (lift r)) w = (bump 1 w, r).
Proof.
  intros Hw Hr. unfold create, scoped, lift, release, mbind, sm_bind, fail, mret, sm_ret. simpl.
  destruct r; [..|done]; rewrite lookup_insert_eq; unfold set_objs, bump; simpl;
    by rewrite delete_insert_eq, delete_id by (apply Hw; lia).
Qed.

Lemma Database_get_spec {V} (from_bytes : list byte → res ErrorKind V) w k ops :
  world_wf w → own_read w ops → (∀ v, from_bytes v ≠ Panic) →
  ∃ w' r, Database_get utf8 from_bytes (Ok k) ops w = (w', r) ∧
    objs w' = after_read w ops ∧ db w' = db w ∧ world_wf w' ∧
    (r = from_bytes (default [] (contents (db w) !! k)) ∨ r = Err Other).
Proof.
  intros Hw Ho Hf. unfold Database_get. apply with_read; [done..|]. intros w1 Hw1 Hd.
  rewrite (bind_known (lift (Ok k)) _ k w1 w1 eq_refl), (bind_known (gets db) _ (db w1) w1 w1 eq_refl).
  pose proof (c_result_eq (c_get (db w1) k) w1 Hw1 (law_get_err _ _)) as He.
  pose proof (law_get (db w1) k) as Hl. rewrite Hd in *.
  destruct (c_get (db w) k) as [e|[v|]].
  - exists 1, (Err Other). rewrite (bind_err _ _ _ _ _ He). split; [done|]. split; [done|by right].
  - exists 1, (from_bytes v). rewrite (bind_known _ _ _ _ _ He), value_released by done.
    split; [done|]. split; [done|]. left. by rewrite <-Hl.
  - exists 0, (from_bytes []). rewrite (bind_known _ _ _ _ _ He).
    split; [by destruct w1|]. split; [done|]. left. by rewrite <-Hl.
Qed.

(** *** [delete] reads with options of its own *)
Lemma read_scope {B} (inner : sm (World Db Opts It) ErrorKind B) w w' r :
  inner (create OReadOptions w).1 = (w', r) → r ≠ Panic →
  is_Some (objs w' !! next_obj w) →
  (read_ops ← ReadOps_new; scoped (ReadOps_drop read_ops) inner) w =
    (set_objs (delete (next_obj w) (objs w')) w', r).
Proof.
  intros Hi Hr [o Ho]. unfold ReadOps_new, scoped, mbind, sm_bind, mret, sm_ret.
  unfold create in *. simpl in *. rewrite Hi. unfold ReadOps_drop, release, fail, mbind, sm_bind.
  simpl. by destruct r; rewrite ?Ho.
Qed.

(** The part of [delete] between the two scopes. *)
Definition delete_inner (p : nat) (k : list byte) : sm (World Db Opts It) ErrorKind bool :=
  d ← gets db;
  r ← c_result utf8 (c_get d k);
  match r with
  | Some v =>
      raw ← create (OValue v);
      if decide (0 < length v) then
        release raw;;
        sync ← sync_of p;
        d ← c_result utf8 (c_delete d sync k); modify (set_db d);; mret true
      else mret false
  | None => mret false
  end.

Lemma delete_inner_spec p k sync w :
  world_wf w → objs w !! p = Some (OWriteOptions sync) →
  ∃ w' r, delete_inner p k w = (w', r) ∧ world_wf w' ∧
    (r = Err Other ∧ db w' = db w ∧ objs w' = objs w ∨
     match contents (db w) !! k with
     | None => r = Ok false ∧ w' = w
     | Some [] => r = Ok false ∧ w' = (create (OValue []) w).1
     | Some _ => r = Ok true ∧ contents (db w') = delete k (contents (db w)) ∧ objs w' = objs w
     end).
Proof.
  intros Hw Hp. unfold delete_inner. rewrite (bind_known (gets db) _ (db w) w w eq_refl).
  pose proof (c_result_eq (c_get (db w) k) w Hw (law_get_err _ _)) as He.
  pose proof (law_get (db w) k) as Hl. destruct (c_get (db w) k) as [e|r].
  { rewrite (bind_err _ _ _ _ _ He). do 2 eexists. split; [done|]. split; [by apply bump_wf|]. by left. }
  rewrite (bind_known _ _ _ _ _ He), <-Hl. destruct r as [[|b v]|].
  - do 2 eexists. split; [done|]. split; [by apply (create_wf w (OValue []))|]. by right.
  - assert ((release (next_obj w)) (create (OValue (b :: v)) w).1 = (bump 1 w, Ok ())) as Hrel.
    { unfold release, create, set_objs, bump. simpl. rewrite lookup_insert_eq.
      by rewrite delete_insert_eq, delete_id by (apply Hw; lia). }
    rewrite (bind_known (create (OValue (b :: v))) _ (next_obj w) w (create (OValue (b :: v)) w).1 eq_refl).
    rewrite decide_True by (simpl; lia). rewrite (bind_known _ _ _ _ _ Hrel).
    assert (sync_of p (bump 1 w) = (bump 1 w, Ok sync)) as Hs
      by (unfold sync_of, obj, mbind, sm_bind; simpl; by rewrite Hp).
    rewrite (bind_known _ _ _ _ _ Hs).
    pose proof (c_result_eq (c_delete (db w) sync k) (bump 1 w) (bump_wf w 1 Hw) (law_delete_err _ _ _)) as Hd.
    pose proof (law_delete (db w) sync k) as Hld. destruct (c_delete (db w) sync k) as [e|d].
    + rewrite (bind_err _ _ _ _ _ Hd). do 2 eexists. split; [done|].
      split; [by do 2 apply bump_wf|]. by left.
    + rewrite (bind_known _ _ _ _ _ Hd). do 2 eexists. split; [done|].
      split; [by apply set_db_wf, bump_wf|]. by right.
  - do 2 eexists. split; [done|]. split; [done|]. by right.
Qed.

Lemma Database_delete_spec w k ops :
  world_wf w → own_write w ops →
  ∃ w' r, Database_delete utf8 (Ok k) ops w = (w', r) ∧
    (r = Err Other ∧ db w' = db w ∧ done_with w ops w' ∨
     match contents (db w) !! k with
     | None => r = Ok false ∧ db w' = db w ∧ done_with w ops w'
     | Some [] => r = Ok false ∧ db w' = db w ∧
         ∃ p, objs w' = <[p := OValue []]> (after_write w ops) ∧ after_write w ops !! p = None
     | Some _ => r = Ok true ∧ contents (db w') = delete k (contents (db w)) ∧ done_with w ops w'
     end).
Proof.
  intros Hw Ho. unfold Database_delete. apply with_write; [done..|].
  intros p sync w1 Hw1 Hd Hp Hdel. rewrite (bind_known (lift (Ok k)) _ k w1 w1 eq_refl).
  set (n := next_obj w1). set (w2 := (create OReadOptions w1).1 : World Db Opts It).
  assert (p ≠ n) as Hpn by (intros ->; rewrite (Hw1 n) in Hp; done).
  assert (delete n (objs w2) = objs w1) as Hn.
  { unfold w2, create. simpl. rewrite delete_insert_eq. apply delete_id. by apply Hw1. }
  assert (objs w2 !! p = Some (OWriteOptions sync)) as Hp2
    by (unfold w2, create; simpl; by rewrite lookup_insert_ne).
  assert (objs w2 !! n = Some OReadOptions) as Hn2
    by (unfold w2, create; simpl; by rewrite lookup_insert_eq).
  destruct (delete_inner_spec p k sync w2) as (w3&r&He&Hw3&Hcases);
    [by apply (create_wf w1 OReadOptions)|done|].
  change (db w2) with (db w1) in Hcases. rewrite Hd in Hcases.
  exists (set_objs (delete n (objs w3)) w3), r.
  assert (r ≠ Panic ∧ (objs w3 = objs w2 ∨ w3 = (create (OValue []) w2).1)) as [Hr Hw3o].
  { destruct Hcases as [(->&_&?)|Hc]; [by auto|].
    destruct (contents (db w) !! k) as [[|b v]|]; destruct Hc as [-> Hc]; try (split; [done|]).
    - by right. - destruct Hc; by left. - left. by rewrite Hc. }
  assert (∀ q, q < next_obj w2 → objs w3 !! q = objs w2 !! q) as Hlt.
  { intros q Hq. destruct Hw3o as [->| ->]; [done|]. unfold create. cbn [fst objs]. apply lookup_insert_ne. lia. }
  assert (p < n) as Hltp by (apply Nat.nle_gt; intros Hle; by rewrite (Hw1 p Hle) in Hp).
  assert (next_obj w2 = S n) as Hnext by done.
  rewrite <-(Hlt p) in Hp2 by lia. rewrite <-(Hlt n) in Hn2 by lia.
  split; [apply read_scope; [done|done|by exists OReadOptions]|].
  split; [simpl; by rewrite lookup_delete_ne|]. split; [done|].
  assert (objs w3 = objs w2 →
    done_with w ops (set_objs (delete p (delete n (objs w3))) w3)) as Hclean.
  { intros Hob. rewrite Hob, Hn, Hdel. split; [done|]. intros q Hq. simpl in *.
    rewrite <-Hdel. apply lookup_delete_None. right. rewrite <-Hn. apply lookup_delete_None. right.
    rewrite <-Hob. by apply Hw3. }
  cbn [set_objs objs db next_obj].
  destruct Hcases as [(->&Hdb&Hob)|Hc]; [left; split; [done|]; split; [by etrans|by apply Hclean]|].
  right. destruct (contents (db w) !! k) as [[|b v]|].
  - destruct Hc as [-> ->]. split; [done|]. split; [done|]. exists (next_obj w2).
    unfold create. simpl. split.
    + rewrite (delete_insert_ne (objs w2) n), Hn, delete_insert_ne by lia. by rewrite Hdel.
    + rewrite <-Hdel. apply lookup_delete_None. right. apply Hw1. lia.
  - destruct Hc as (->&Hc&Hob). split; [done|]. split; [done|by apply Hclean].
  - destruct Hc as [-> ->]. split; [done|]. split; [done|by apply Hclean].
Qed.

(** *** Iterators *)

(** What [n] calls of [next] give: the entry of each item when it is given. *)
Fixpoint collect (n : nat) (i : KeyValueIterator) w : list (option (list byte * list byte)) :=
  match n with
  | 0 => []
  | S n =>
      match iter_next i w with
      | (w, Ok (i, item)) =>
          (p ← item; match objs w !! p with Some (OIter it _) => c_iter_entry it | _ => None end)
            :: collect n i w
      | _ => []
      end
  end.

Lemma valid_rest it : valid it = bool_decide (rest it ≠ []).
Proof.
  unfold valid. rewrite law_iter_entry. apply bool_decide_ext.
  destruct (rest it); simpl; split; try done.
Qed.

(** The position after [next], and whether [seek] was called since. *)
Definition next_pos (seek : bool) (it : It) : It * bool :=
  if negb (valid it) then (c_iter_seek_to_first it, seek)
  else if seek then (it, false) else (c_iter_next it, seek).

Lemma iter_next_spec i w it rc :
  objs w !! iter_raw i = Some (OIter it rc) →
  let '(it', s') := next_pos (iter_seek i) it in
  ∃ w' rc', iter_next i w =
      (w', Ok ({| iter_raw := iter_raw i; iter_seek := s' |},
               if valid it' then Some (iter_raw i) else None)) ∧
    objs w' !! iter_raw i = Some (OIter it' rc').
Proof.
  intros Hp. destruct (next_pos (iter_seek i) it) as [it' s'] eqn:Hn.
  unfold iter_next, get_iter, move_iter, RawIterator_clone, obj, put_obj, modify, mbind, sm_bind, mret, sm_ret.
  simpl. rewrite Hp. simpl. unfold next_pos in Hn. destruct i as [raw seek]. simpl in *.
  destruct (valid it) eqn:Hv; simpl in *; [destruct seek|]; simplify_eq;
    do 3 (simpl; rewrite ?lookup_insert_eq, ?Hp); simpl;
    (match goal with |- context [valid ?x] => destruct (valid x) eqn:? end;
     simpl; rewrite ?lookup_insert_eq, ?Hp; simpl;
     do 2 eexists; (split; [done|]); simpl; rewrite ?lookup_insert_eq; done).
Qed.

Lemma collect_S n i w it rc :
  objs w !! iter_raw i = Some (OIter it rc) →
  let '(it', s') := next_pos (iter_seek i) it in
  ∃ w' rc', collect (S n) i w = c_iter_entry it' :: collect n {| iter_raw := iter_raw i; iter_seek := s' |} w' ∧
    objs w' !! iter_raw i = Some (OIter it' rc').
Proof.
  intros Hp. pose proof (iter_next_spec i w it rc Hp) as Hn.
  destruct (next_pos (iter_seek i) it) as [it' s']. destruct Hn as (w'&rc'&He&Hp').
  exists w', rc'. split; [|done]. cbn [collect]. rewrite He. f_equal.
  unfold valid. case_bool_decide as Hv; simpl; [by rewrite Hp'|].
  symmetry. by apply eq_None_not_Some.
Qed.

Lemma next_pos_first seek it : rest it = [] → next_pos seek it = (c_iter_seek_to_first it, seek).
Proof. intros Hr. unfold next_pos. rewrite valid_rest, Hr. by rewrite bool_decide_eq_false_2 by auto. Qed.
Lemma next_pos_next seek it : rest it ≠ [] →
  next_pos seek it = (if seek then it else c_iter_next it, false).
Proof.
  intros Hr. unfold next_pos. rewrite valid_rest, bool_decide_eq_true_2 by done. by destruct seek.
Qed.

(** The rest of the entries, and the end, from a delivered entry on. *)
Definition plain (raw : nat) : KeyValueIterator := {| iter_raw := raw; iter_seek := false |}.

Lemma collect_rest raw r : ∀ it w rc m,
  objs w !! raw = Some (OIter it rc) → rest it ≠ [] → tail (rest it) = r →
  ∃ w' it' rc', collect (S (length r) + m) (plain raw) w =
      (Some <$> r) ++ None :: collect m (plain raw) w' ∧
    objs w' !! raw = Some (OIter it' rc') ∧ rest it' = [] ∧ all it' = all it.
Proof.
  induction r as [|e r IH]; intros it w rc m Hp Hne Ht;
    destruct (law_iter_next it Hne) as [Hr Ha]; rewrite Ht in Hr.
  - pose proof (collect_S m (plain raw) w it rc Hp) as Hc. simpl in Hc.
    rewrite next_pos_next in Hc by done. destruct Hc as (w'&rc'&Hc&Hp').
    exists w', (c_iter_next it), rc'. split; [|done]. rewrite law_iter_entry, Hr in Hc. exact Hc.
  - pose proof (collect_S (S (length r) + m) (plain raw) w it rc Hp) as Hc. simpl in Hc.
    rewrite next_pos_next in Hc by done. destruct Hc as (w'&rc'&Hc&Hp').
    destruct (IH (c_iter_next it) w' rc' m Hp') as (w2&it2&rc2&Hc2&Hp2&Hr2&Ha2);
      [by rewrite Hr|by rewrite Hr|].
    exists w2, it2, rc2. split; [|by rewrite Ha2]. rewrite law_iter_entry, Hr in Hc.
    etrans; [exact Hc|]. exact (f_equal (cons (Some e)) Hc2).
Qed.

(** All entries, and the end, from the end on. *)
Lemma collect_all raw it w rc m :
  objs w !! raw = Some (OIter it rc) → rest it = [] →
  ∃ w' it' rc', collect (S (length (all it)) + m) (plain raw) w =
      (Some <$> all it) ++ None :: collect m (plain raw) w' ∧
    objs w' !! raw = Some (OIter it' rc') ∧ rest it' = [] ∧ all it' = all it.
Proof.
  intros Hp Hr. destruct (law_iter_first it) as [Hf Ha].
  pose proof (collect_S (length (all it) + m) (plain raw) w it rc Hp) as Hc. simpl in Hc.
  rewrite next_pos_first in Hc by done. destruct Hc as (w'&rc'&Hc&Hp').
  rewrite law_iter_entry, Hf in Hc. destruct (all it) as [|e l] eqn:Hall.
  - exists w', (c_iter_seek_to_first it), rc'. split_and!; [exact Hc|done..].
  - destruct (collect_rest raw l (c_iter_seek_to_first it) w' rc' m Hp') as (w2&it2&rc2&Hc2&Hp2&Hr2&Ha2);
      [by rewrite Hf|by rewrite Hf|].
    exists w2, it2, rc2. split; [|split_and!; [done|done|by rewrite Ha2]].
    etrans; [exact Hc|]. exact (f_equal (cons (Some e)) Hc2).
Qed.

Lemma collect_rounds raw k : ∀ it w rc,
  objs w !! raw = Some (OIter it rc) → rest it = [] →
  collect (k * S (length (all it))) (plain raw) w =
    concat (replicate k ((Some <$> all it) ++ [None])).
Proof.
  induction k as [|k IH]; intros it w rc Hp Hr; [done|].
  destruct (collect_all raw it w rc (k * S (length (all it))) Hp Hr) as (w'&it'&rc'&Hc&Hp'&Hr'&Ha').
  rewrite Nat.mul_succ_l, Nat.add_comm, Hc. simpl. rewrite <-Ha', (IH it' w' rc') by done.
  by rewrite <-app_assoc.
Qed.

(** After [seek]: the entries from the key on; past the last key, the first entry twice. *)
Definition sought (raw : nat) : KeyValueIterator := {| iter_raw := raw; iter_seek := true |}.

Lemma collect_sought raw it w rc :
  objs w !! raw = Some (OIter it rc) → rest it ≠ [] →
  collect (S (length (rest it))) (sought raw) w = (Some <$> rest it) ++ [None].
Proof.
  intros Hp Hr. pose proof (collect_S (length (rest it)) (sought raw) w it rc Hp) as Hc.
  cbn [sought iter_raw iter_seek] in Hc. rewrite next_pos_next in Hc by done.
  destruct Hc as (w'&rc'&Hc&Hp'). etrans; [exact Hc|]. rewrite law_iter_entry.
  destruct (rest it) as [|e l] eqn:Hl; [done|].
  destruct (collect_rest raw l it w' rc' 0 Hp') as (w2&it2&rc2&Hc2&_); [by rewrite Hl|by rewrite Hl|].
  rewrite Nat.add_0_r in Hc2. exact (f_equal (cons (Some e)) Hc2).
Qed.

Lemma collect_past_end raw it w rc e l :
  objs w !! raw = Some (OIter it rc) → rest it = [] → all it = e :: l →
  collect (S (S (length (all it)))) (sought raw) w = Some e :: (Some <$> all it) ++ [None].
Proof.
  intros Hp Hr Hall. destruct (law_iter_first it) as [Hf Ha].
  pose proof (collect_S (S (length (all it))) (sought raw) w it rc Hp) as Hc.
  cbn [sought iter_raw iter_seek] in Hc. rewrite next_pos_first in Hc by done.
  destruct Hc as (w'&rc'&Hc&Hp'). etrans; [exact Hc|]. rewrite law_iter_entry, Hf, Hall.
  apply (f_equal (cons (Some e))). rewrite <-Hall, <-Hf.
  apply (collect_sought raw _ w' rc' Hp'). by rewrite Hf, Hall.
Qed.

(** *** Batches *)
Lemma WriteBatch_commit_spec w batch l ops :
  world_wf w → own_write w ops → objs w !! batch = Some (OBatch l) →
  ∃ w' r, WriteBatch_commit utf8 batch ops w = (w', r) ∧
    objs w' = delete batch (after_write w ops) ∧
    (r = Ok () ∧ contents (db w') = foldl apply_op (contents (db w)) l ∨ r = Err Other ∧ db w' = db w).
Proof.
  intros Hw Ho Hbatch. unfold WriteBatch_commit.
  assert (after_write w ops !! batch = Some (OBatch l)) as Haft.
  { destruct ops as [p|]; [|done]. destruct Ho as [b Hp]. simpl. rewrite lookup_delete_ne; congruence. }
  assert (∃ w' r, (ops ← or_write ops; scoped (release ops)
       (sync ← sync_of ops; o ← obj batch;
        match o with
        | OBatch l => d ← gets db; d ← c_result utf8 (c_write d sync l); modify (set_db d)
        | _ => panic
        end)) w = (w', r) ∧ r ≠ Panic ∧ objs w' = after_write w ops ∧
    (r = Ok () ∧ contents (db w') = foldl apply_op (contents (db w)) l ∨ r = Err Other ∧ db w' = db w))
    as (w'&r&He&Hr&Hob&Hres).
  { apply with_write; [done..|]. intros p sync w1 Hw1 Hd Hp Hdel.
    assert (objs w1 !! batch = Some (OBatch l)) as Hb1.
    { rewrite <-Hdel in Haft. by apply lookup_delete_Some in Haft as [_ ?]. }
    assert (sync_of p w1 = (w1, Ok sync)) as Hs
      by (unfold sync_of, obj, mbind, sm_bind; simpl; by rewrite Hp).
    assert (obj batch w1 = (w1, Ok (OBatch l))) as Hob by (unfold obj; by rewrite Hb1).
    rewrite (bind_known _ _ _ _ _ Hs), (bind_known _ _ _ _ _ Hob),
      (bind_known (gets db) _ (db w1) w1 w1 eq_refl).
    pose proof (c_result_eq (c_write (db w1) sync l) w1 Hw1 (law_write_err _ _ _)) as Hc.
    pose proof (law_write (db w1) sync l) as Hl. destruct (c_write (db w1) sync l) as [e|d].
    - rewrite (bind_err _ _ _ _ _ Hc). do 2 eexists. split; [done|]. split; [done|]. split; [done|].
      split; [done|]. split; [done|]. by right.
    - rewrite (bind_known _ _ _ _ _ Hc). do 2 eexists. split; [done|]. split; [done|]. split; [done|].
      split; [done|]. split; [done|]. left. split; [done|]. by rewrite <-Hd. }
  unfold scoped at 1. rewrite He. exists (set_objs (delete batch (objs w')) w'), r.
  split; [|split; [simpl; by rewrite Hob|done]].
  unfold release, mbind, sm_bind, fail, mret, sm_ret.
  destruct r; [..|done]; by rewrite Hob, Haft.
Qed.

(** *** A new iterator, and its [seek] *)
Lemma KeyValueIterator_new_spec w :
  world_wf w → ∃ w' raw,
    KeyValueIterator_new None w = (w', Ok (plain raw)) ∧ db w' = db w ∧
    objs w' = <[raw := OIter (c_create_iterator (db w)) 1]> (objs w) ∧ objs w !! raw = None.
Proof.
  intros Hw. unfold KeyValueIterator_new, RawIterator_new, or_read, ReadOps_new, scoped, create,
    ReadOps_drop, release, gets, mbind, sm_bind, mret, sm_ret. simpl.
  rewrite lookup_insert_ne, lookup_insert_eq by lia. simpl. do 2 eexists. split; [done|].
  simpl. split; [done|]. split; [|apply Hw; lia].
  rewrite delete_insert_ne, delete_insert_eq by lia. f_equal. apply delete_id, Hw. lia.
Qed.

Lemma KeyValueIterator_seek_spec w raw it rc k :
  objs w !! raw = Some (OIter it rc) →
  ∃ w', KeyValueIterator_seek (plain raw) (Ok k) w = (w', Ok (sought raw)) ∧
    objs w' !! raw = Some (OIter (c_iter_seek k it) rc).
Proof.
  intros Hp. unfold KeyValueIterator_seek, move_iter, obj, put_obj, modify, mbind, sm_bind. simpl.
  rewrite Hp. simpl. eexists. split; [done|]. simpl. by rewrite lookup_insert_eq.
Qed.
End leveldb_facts.

(** ** Properties *)

(** C32. Integers as keys and values.  For every integer type, signed or not, and either byte
    order: reading back a value that was stored gives the value; any byte string of the size
    of the type is a value of the type and is stored back unchanged; and a byte string
    of another length is [InvalidInput]. *)
Theorem num_bytes_roundtrip (big signed : bool) (size : nat) (x : Z) (buf : list byte) :
  size ≠ 0 →
  (in_range signed size x →
   num_to_bytes big size x ≫= num_from_bytes big signed size = Ok x) ∧
  (length buf = size →
   ∃ y, num_from_bytes big signed size buf = Ok y ∧ in_range signed size y ∧
     num_to_bytes big size y = Ok buf) ∧
  (length buf ≠ size → num_from_bytes big signed size buf = Err InvalidInput).
Proof.
  intros Hs. unfold num_to_bytes, num_from_bytes. split_and!.
  - intros Hr. simpl. rewrite length_to_ne_bytes, decide_False by auto.
    by rewrite from_to_ne_bytes.
  - intros <-. rewrite decide_False by auto.
    destruct (to_from_ne_bytes big signed buf) as [H1 H2]; [by destruct buf|].
    eexists. split; [done|]. split; [done|]. by rewrite H2.
  - intros Hl. by rewrite decide_True.
Qed.

(** C6. A database is a map, and the wrapper releases what it allocates.  With a library that
    keeps its word, [put], [get], [delete] and a committed batch do to the contents what they
    say, or fail with [Other] and change nothing, and on every way out the objects they
    made are released once and the caller's options too, with two bugs:
    [get] gives a missing key as an empty value, and [delete] of a key with an empty
    value answers [false], deletes nothing, and never frees the value that it read. *)
Theorem database_is_a_map {Db Opts It} `{!CLeveldb Db Opts It} (utf8 : list byte → bool)
    (contents : Db → dbmap) (rest all : It → list (list byte * list byte))
    `{!LeveldbLaws Db Opts It utf8 contents rest all}
    {V} (from_bytes : list byte → res ErrorKind V) (w : World Db Opts It) (k v : list byte)
    (ops : option nat) (rops : option ReadOps) (batch : nat) (l : list batch_op) :
  world_wf w → own_write w ops → own_read w rops → (∀ b, from_bytes b ≠ Panic) →
  (∃ w' r, Database_put utf8 (Ok k) (Ok v) ops w = (w', r) ∧ done_with w ops w' ∧
     (r = Ok () ∧ contents (db w') = <[k := v]> (contents (db w)) ∨ r = Err Other ∧ db w' = db w)) ∧
  (∃ w' r, Database_get utf8 from_bytes (Ok k) rops w = (w', r) ∧
     objs w' = after_read w rops ∧ db w' = db w ∧
     (r = from_bytes (default [] (contents (db w) !! k)) ∨ r = Err Other)) ∧
  (∃ w' r, Database_delete utf8 (Ok k) ops w = (w', r) ∧
     (r = Err Other ∧ db w' = db w ∧ done_with w ops w' ∨
      match contents (db w) !! k with
      | None => r = Ok false ∧ db w' = db w ∧ done_with w ops w'
      | Some [] => r = Ok false ∧ db w' = db w ∧
          ∃ p, objs w' = <[p := OValue []]> (after_write w ops) ∧ after_write w ops !! p = None
      | Some _ => r = Ok true ∧ contents (db w') = delete k (contents (db w)) ∧ done_with w ops w'
      end)) ∧
  (objs w !! batch = Some (OBatch l) →
   ∃ w' r, WriteBatch_commit utf8 batch ops w = (w', r) ∧
     objs w' = delete batch (after_write w ops) ∧
     (r = Ok () ∧ contents (db w') = foldl apply_op (contents (db w)) l ∨
      r = Err Other ∧ db w' = db w)).
Proof.
  intros Hw Ho Hr Hf. split_and!.
  - by eapply Database_put_spec.
  - destruct (Database_get_spec utf8 contents rest all from_bytes w k rops) as (w'&r&?&?&?&_&?);
      [done..|]. by exists w', r.
  - by eapply Database_delete_spec.
  - by eapply WriteBatch_commit_spec.
Qed.

(** Iterators.  A new iterator gives every entry of the database once, then [None]; a
    call after [None] starts over, and so on for ever.  After a [seek] it gives the entries
    from there on, then [None].  A bug: after a [seek] past the last key it does not end, but
    starts over, and gives the first entry twice. *)
Theorem iterator_starts_over {Db Opts It} `{!CLeveldb Db Opts It} (utf8 : list byte → bool)
    (contents : Db → dbmap) (rest all : It → list (list byte * list byte))
    `{!LeveldbLaws Db Opts It utf8 contents rest all} (w : World Db Opts It) (k : list byte) :
  world_wf w →
  ∃ w1 raw l, KeyValueIterator_new None w = (w1, Ok (plain raw)) ∧
    l ≡ₚ map_to_list (contents (db w)) ∧
    (∀ n, collect (n * S (length l)) (plain raw) w1 = concat (replicate n ((Some <$> l) ++ [None]))) ∧
    let r := rest (c_iter_seek k (c_create_iterator (db w))) in
    ∃ w2, KeyValueIterator_seek (plain raw) (Ok k) w1 = (w2, Ok (sought raw)) ∧
      r `suffix_of` l ∧
      (r ≠ [] → collect (S (length r)) (sought raw) w2 = (Some <$> r) ++ [None]) ∧
      (r = [] → ∀ e l', l = e :: l' →
       collect (S (S (length l))) (sought raw) w2 = Some e :: (Some <$> l) ++ [None]).
Proof.
  intros Hw. destruct (KeyValueIterator_new_spec w Hw) as (w1&raw&Hnew&Hdb&Hob&Hraw).
  set (it := c_create_iterator (db w)) in *.
  assert (objs w1 !! raw = Some (OIter it 1)) as Hp by (rewrite Hob; apply lookup_insert_eq).
  destruct (law_iter_create (db w)) as [Hr Hall]. destruct (law_iter_seek it k) as [Hsuf Hsall].
  exists w1, raw, (all it). split; [done|]. split; [done|].
  split; [intros n; by eapply (collect_rounds utf8 contents rest all)|].
  destruct (KeyValueIterator_seek_spec w1 raw it 1 k Hp) as (w2&Hseek&Hp2).
  exists w2. split; [done|]. split; [done|]. split.
  - intros Hne. by eapply (collect_sought utf8 contents rest all).
  - intros He e l' Hl. rewrite <-Hsall in Hl |- *. by eapply (collect_past_end utf8 contents rest all).
Qed.

(** A bug: a snapshot is not used.  [ReadOps::new_with] keeps the snapshot alive, but never
    gives it to the library: a [get] with these options reads what was written after the
    snapshot was taken. *)
Theorem snapshot_reads_later_writes {Db Opts It} `{!CLeveldb Db Opts It} (utf8 : list byte → bool)
    (contents : Db → dbmap) (rest all : It → list (list byte * list byte))
    `{!LeveldbLaws Db Opts It utf8 contents rest all}
    {V} (from_bytes : list byte → res ErrorKind V) (w w1 w2 w3 : World Db Opts It) (k v : list byte)
    (sn : nat) (ops : ReadOps) :
  world_wf w → (∀ b, from_bytes b ≠ Panic) →
  Snapshot_new w = (w1, Ok sn) →
  ReadOps_new_with sn w1 = (w2, Ok ops) →
  Database_put utf8 (Ok k) (Ok v) None w2 = (w3, Ok ()) →
  objs w3 !! sn = Some (OSnapshot (db w) 2) ∧
  ∃ w4 r, Database_get utf8 from_bytes (Ok k) (Some ops) w3 = (w4, r) ∧
    (r = from_bytes v ∨ r = Err Other) ∧ objs w4 = <[sn := OSnapshot (db w) 1]> (objs w).
Proof.
  intros Hw Hf Hsn Hops Hput. unfold Snapshot_new, create in Hsn. injection Hsn as <- <-.
  unfold ReadOps_new_with, create, Snapshot_clone, obj, put_obj, modify, mbind, sm_bind, mret, sm_ret in Hops.
  simpl in Hops. rewrite lookup_insert_ne, lookup_insert_eq in Hops by lia. simpl in Hops.
  injection Hops as <- <-.
  set (n := next_obj w) in *. set (m := <[n:=OSnapshot (db w) 2]> _) in Hput.
  set (w2 := set_objs m _) in Hput.
  assert (world_wf w2) as Hw2.
  { intros q Hq. unfold w2, m in *. simpl in *. rewrite !lookup_insert_ne by (unfold n; lia).
    apply Hw. lia. }
  destruct (Database_put_spec utf8 contents rest all w2 k v None Hw2 I) as (w3'&r'&Hput'&[Hob3 Hw3]&Hres).
  rewrite Hput in Hput'. injection Hput' as <- <-. destruct Hres as [[_ Hc]|[? _]]; [|done].
  simpl in Hob3. assert (objs w3 !! n = Some (OSnapshot (db w) 2)) as Hsn3
    by (rewrite Hob3; apply lookup_insert_eq).
  split; [done|].
  destruct (Database_get_spec utf8 contents rest all from_bytes w3 k
    (Some {| read_c_ops := S n; read_snapshot := Some n |})) as (w4&r&Hget&Hob4&_&_&Hr).
  - done.
  - split; simpl.
    + rewrite Hob3. unfold m. rewrite lookup_insert_ne, lookup_insert_eq by lia. eauto.
    + split; [lia|]. eauto.
  - done.
  - exists w4, r. split; [done|]. split.
    + by rewrite Hc, lookup_insert_eq in Hr.
    + rewrite Hob4. simpl. rewrite lookup_delete_ne, Hsn3 by lia. rewrite Hob3. unfold m.
      rewrite delete_insert_ne, insert_insert_eq by lia.
      rewrite delete_insert_eq, delete_insert_ne, (delete_id (objs w)) by (lia || (apply Hw; unfold n; lia)).
      by rewrite insert_insert_eq.
Qed.

(** ** Witnesses: a library that never fails *)
#[export] Instance DemoLeveldb : CLeveldb dbmap () (list (list byte * list byte) * list (list byte * list byte)) := {
  c_options_create := ();
  c_set_create_if_missing _ o := o;
  c_set_error_if_exists _ o := o;
  c_set_write_buffer_size _ o := o;
  c_set_block_size _ o := o;
  c_set_compression _ o := o;
  c_open _ _ := inr ∅;
  c_get d k := inr (d !! k);
  c_put d _ k v := inr (<[k := v]> d);
  c_delete d _ k := inr (delete k d);
  c_write d _ ops := inr (foldl apply_op d ops);
  c_create_iterator d := ([], map_to_list d);
  c_iter_entry it := head it.1;
  c_iter_seek_to_first it := (it.2, it.2);
  c_iter_seek k it := (if decide (k = []) then it.2 else [], it.2);
  c_iter_next it := (tail it.1, it.2);
}.

#[export] Instance demo_leveldb_laws : LeveldbLaws _ _ _ (λ _, true) id fst snd.
Proof.
  split; try done. intros it k. simpl. case_decide; (split; [|done]); [done|apply suffix_nil].
Qed.

Definition demo_db : dbmap := <[ [x01] := [x0a] ]> {[ [x02] := [] ]}.
Definition demo_leveldb : World dbmap () (list (list byte * list byte) * list (list byte * list byte)) :=
  {| db := demo_db; objs := {[ 0 := OBatch [BatchPut [x03] [x0c]; BatchDelete [x01]] ]}; next_obj := 1 |}.

Lemma demo_leveldb_wf : world_wf demo_leveldb.
Proof. intros p Hp. unfold demo_leveldb in *. simpl in *. apply lookup_singleton_ne. lia. Qed.

Lemma num_bytes_roundtrip_witness :
  num_to_bytes false 2 (-2) ≫= num_from_bytes false true 2 = Ok (-2)%Z ∧
  num_from_bytes false true 2 [xfe; xff] = Ok (-2)%Z.
Proof.
  split; [|reflexivity]. apply (num_bytes_roundtrip false true 2 (-2) []); [done|].
  split; vm_compute; [discriminate|reflexivity].
Defined.

(** Key 2 has an empty value, and key 9 none. *)
Lemma database_is_a_map_witness :
  (∃ w' p, Database_delete (λ _, true) (Ok [x02]) None demo_leveldb = (w', Ok false) ∧
     db w' = demo_db ∧ objs w' = <[p := OValue []]> (objs demo_leveldb)) ∧
  (∃ w', Database_get (λ _, true) vec_from_bytes (Ok [x09]) None demo_leveldb = (w', Ok [])) ∧
  (∃ w', WriteBatch_commit (λ _, true) 0 None demo_leveldb = (w', Ok ()) ∧ objs w' = ∅).
Proof.
  destruct (database_is_a_map (λ _, true) id fst snd vec_from_bytes demo_leveldb [x02] [] None None 0
    [BatchPut [x03] [x0c]; BatchDelete [x01]]) as (_&_&Hd&Hc); [exact demo_leveldb_wf|exact I|exact I|by intros b|].
  destruct (database_is_a_map (λ _, true) id fst snd vec_from_bytes demo_leveldb [x09] [] None None 0
    [BatchPut [x03] [x0c]; BatchDelete [x01]]) as (_&Hg&_&_); [exact demo_leveldb_wf|exact I|exact I|by intros b|].
  split; [|split].
  - destruct Hd as (w'&r&He&[(->&_)|(->&Hdb&p&Ho&_)]); [apply (f_equal snd) in He; vm_compute in He; discriminate|].
    exists w', p. split; [exact He|]. split; [exact Hdb|exact Ho].
  - destruct Hg as (w'&r&He&_&_&[->| ->]); [|apply (f_equal snd) in He; vm_compute in He; discriminate].
    exists w'. exact He.
  - destruct Hc as (w'&r&He&Ho&[[-> _]|[-> _]]); [reflexivity| |apply (f_equal snd) in He; vm_compute in He; discriminate].
    exists w'. split; [exact He|]. rewrite Ho. reflexivity.
Defined.

Lemma iterator_starts_over_witness :
  ∃ w1 raw w2, KeyValueIterator_new None demo_leveldb = (w1, Ok (plain raw)) ∧
    KeyValueIterator_seek (plain raw) (Ok [x07]) w1 = (w2, Ok (sought raw)) ∧
    ∃ e1 e2, collect 4 (sought raw) w2 = [Some e1; Some e1; Some e2; None].
Proof.
  destruct (iterator_starts_over (λ _, true) id fst snd demo_leveldb [x07])
    as (w1&raw&l&Hnew&Hl&_&w2&Hseek&_&_&Hr); [exact demo_leveldb_wf|].
  exists w1, raw, w2. split; [exact Hnew|]. split; [exact Hseek|].
  assert (length l = 2) as Hlen by (rewrite Hl; reflexivity).
  destruct l as [|e1 [|e2 [|]]]; try discriminate. exists e1, e2.
  exact (Hr eq_refl e1 [e2] eq_refl).
Defined.

Lemma snapshot_reads_later_writes_witness :
  ∃ w4 r, Database_get (λ _, true) vec_from_bytes (Ok [x01])
    (Some {| read_c_ops := 2; read_snapshot := Some 1 |})
    (Database_put (λ _, true) (Ok [x01]) (Ok [x0b]) None
       (ReadOps_new_with 1 (Snapshot_new demo_leveldb).1).1).1 = (w4, r) ∧ r = Ok [x0b].
Proof.
  destruct (snapshot_reads_later_writes (λ _, true) id fst snd vec_from_bytes demo_leveldb
    (Snapshot_new demo_leveldb).1 (ReadOps_new_with 1 (Snapshot_new demo_leveldb).1).1
    (Database_put (λ _, true) (Ok [x01]) (Ok [x0b]) None
       (ReadOps_new_with 1 (Snapshot_new demo_leveldb).1).1).1
    [x01] [x0b] 1 {| read_c_ops := 2; read_snapshot := Some 1 |}) as (_&w4&r&He&[->| ->]&_);
    [exact demo_leveldb_wf|by intros b|reflexivity|reflexivity|reflexivity| |].
  - exists w4. eexists. split; [exact He|reflexivity].
  - exfalso. apply (f_equal snd) in He. vm_compute in He. discriminate.
Defined.
