(* ===== verification/PprofReport.v ===== *)
(** * crates/pprof/src/profiler/report.rs: reports in the format of gperftools

    A report collects samples, each a list of frames, and [build] makes a profile of
    tables that refer to each other by number.  The heap and the CPU report have the
    same tables and differ in the label and the value of a sample.  The generated protocol
    types are records of the fields that the code sets. *)

From S2P Require Import Prelude.

Notation string := (list byte).

(** frames.rs *)
Record Symbol := {
  sym_name : string;
  sym_address : N;
  sym_file_name : string;
  sym_line_no : N;
  sym_col_no : N;
}.

(** ** The messages of gperf.proto, with the fields that are used *)
Record ValueType := { vt_type : nat; vt_unit : nat }.
Record Function_ := {
  fn_id : nat; fn_name : nat; fn_system_name : nat; fn_filename : nat; fn_start_line : N;
}.
Record Line := { line_function_id : nat; line_line : N }.
Record Location := { loc_id : nat; loc_line : list Line; loc_address : N }.
Record Label := { label_key : nat; label_str : nat }.
Record Sample := { location_id : list nat; label : list Label; value : list Z }.
Record Profile := {
  sample_type : list ValueType;
  sample : list Sample;
  string_table_ : list string;
  function : list Function_;
  location : list Location;
}.

(** [x as i64]. *)
Definition as_i64 (x : N) : Z :=
  let u := wrap 64 (Z.of_N x) in if (u <? 2 ^ 63)%Z then u else (u - 2 ^ 64)%Z.

(** [format!("0x{:02x}", x)]. *)
Definition hex_digit (d : N) : byte :=
  default x00 (Byte.of_N (if (d <? 10)%N then 48 + d else 87 + d)).
Fixpoint hex_digits (fuel : nat) (x : N) : string :=
  match fuel with
  | 0 => []
  | S fuel => (if (x <? 16)%N then [] else hex_digits fuel (x / 16)) ++ [hex_digit (x mod 16)]
  end.
Definition hex (x : N) : string :=
  let d := hex_digits (S (N.to_nat (N.log2 x))) x in
  bs "0x" ++ (if decide (length d < 2) then bs "0" else []) ++ d.

(** ** The tables *)
Record StringTable := { str_index : gmap string nat; table : list string }.
Definition StringTable_new : StringTable := {| str_index := ∅; table := [ [] ] |}.
Definition StringTable_insert (value : string) (t : StringTable) : StringTable * nat :=
  match str_index t !! value with
  | Some offset => (t, offset)
  | None =>
      let offset := length (table t) in
      ({| str_index := <[value := offset]> (str_index t); table := table t ++ [value] |}, offset)
  end.

Record FnTable := { fn_index : gmap N nat; funcs : list Function_ }.
Definition FnTable_new : FnTable := {| fn_index := ∅; funcs := [] |}.
Definition FnTable_get (symbol : Symbol) (t : FnTable) : option nat := fn_index t !! sym_address symbol.

(** [GperfHeapProfilerReport] and [GperfCpuProfilerReport]. *)
Record Report := {
  string_table : StringTable;
  func_table : FnTable;
  loc_table : list Location;
  samples : list Sample;
}.
Definition Report_new : Report :=
  {| string_table := StringTable_new; func_table := FnTable_new; loc_table := []; samples := [] |}.

Definition set_strings (t : StringTable) (r : Report) : Report :=
  {| string_table := t; func_table := func_table r; loc_table := loc_table r; samples := samples r |}.
Definition set_funcs (t : FnTable) (r : Report) : Report :=
  {| string_table := string_table r; func_table := t; loc_table := loc_table r; samples := samples r |}.
Definition set_locs (l : list Location) (r : Report) : Report :=
  {| string_table := string_table r; func_table := func_table r; loc_table := l; samples := samples r |}.
Definition set_samples (l : list Sample) (r : Report) : Report :=
  {| string_table := string_table r; func_table := func_table r; loc_table := loc_table r; samples := l |}.

#[local] Notation M := (sm Report ErrorKind).

Definition insert_string (s : string) : M nat := λ r,
  let '(t, i) := StringTable_insert s (string_table r) in (set_strings t r, Ok i).

Definition FnTable_push (symbol : Symbol) : M nat :=
  func_id ← gets (λ r, S (length (funcs (func_table r))));
  system_name ← insert_string (sym_name symbol);
  filename ← insert_string (sym_file_name symbol);
  modify (λ r, set_funcs
    {| fn_index := fn_index (func_table r);
       funcs := funcs (func_table r) ++
         [{| fn_id := func_id; fn_name := 0; fn_system_name := system_name; fn_filename := filename;
             fn_start_line := sym_line_no symbol |}] |} r);;
  old ← gets (λ r, fn_index (func_table r) !! sym_address symbol);
  modify (λ r, set_funcs
    {| fn_index := <[sym_address symbol := func_id]> (fn_index (func_table r));
       funcs := funcs (func_table r) |} r);;
  assert_ (bool_decide (old = None));;
  mret func_id.

(** The loop over the frames. *)
Fixpoint report_frames (frames : list Symbol) (locs : list nat) : M (list nat) :=
  match frames with
  | [] => mret locs
  | symbol :: frames =>
      known ← gets (λ r, FnTable_get symbol (func_table r));
      match known with
      | Some 0 => report_frames frames locs
      | Some func_id => report_frames frames (locs ++ [func_id])
      | None =>
          func_id ← FnTable_push symbol;
          n ← gets (λ r, length (loc_table r));
          assert_ (bool_decide (n + 1 = func_id));;
          modify (λ r, set_locs (loc_table r ++
            [{| loc_id := func_id;
                loc_line := [{| line_function_id := func_id; line_line := sym_line_no symbol |}];
                loc_address := sym_address symbol |}]) r);;
          report_frames frames (locs ++ [func_id])
      end
  end.

(** The sample: a label of two strings, and a value. *)
Definition report_sample (key text : string) (v : Z) (frames : list Symbol) : M bool :=
  locs ← report_frames frames [];
  k ← insert_string key;
  t ← insert_string text;
  modify (λ r, set_samples (samples r ++
    [{| location_id := locs; label := [{| label_key := k; label_str := t |}]; value := [v] |}]) r);;
  mret true.

Definition report_block_info (block block_size : N) (frames : list Symbol) : M bool :=
  report_sample (bs "block") (hex block) (as_i64 block_size) frames.
Definition report_cpu_sample (cpu_time : N) (frames : list Symbol) : M bool :=
  report_sample (bs "cpu_times") (hex cpu_time) (as_i64 cpu_time) frames.

(** [build]: the tables are drained, their indexes are not. *)
Definition build (type unit : string) : M Profile :=
  t ← insert_string type;
  u ← insert_string unit;
  r ← gets id;
  modify (λ r,
    {| string_table := {| str_index := str_index (string_table r); table := [] |};
       func_table := {| fn_index := fn_index (func_table r); funcs := [] |};
       loc_table := []; samples := [] |});;
  mret {| sample_type := [{| vt_type := t; vt_unit := u |}]; sample := samples r;
          string_table_ := table (string_table r); function := funcs (func_table r);
          location := loc_table r |}.
Definition heap_build : M Profile := build (bs "space") (bs "bytes").
Definition cpu_build : M Profile := build (bs "cpu") (bs "nanoseconds").

(** ** Reading a profile: every reference is a number of another table *)
Definition by_id {X} (id_of : X → nat) (l : list X) (id : nat) : option X :=
  snd <$> list_find (λ x, id_of x = id) l.

(** A frame: its name, file, line and address. *)
Definition frame_of (p : Profile) (id : nat) : option (string * string * N * N) :=
  loc ← by_id loc_id (location p) id;
  line ← head (loc_line loc);
  f ← by_id fn_id (function p) (line_function_id line);
  name ← string_table_ p !! fn_system_name f;
  file ← string_table_ p !! fn_filename f;
  Some (name, file, line_line line, loc_address loc).

Definition label_of (p : Profile) (l : Label) : option (string * string) :=
  key ← string_table_ p !! label_key l; text ← string_table_ p !! label_str l; Some (key, text).

Definition read_sample (p : Profile) (s : Sample) :
    option (list (string * string * N * N) * list (string * string) * list Z) :=
  frames ← mapM (frame_of p) (location_id s);
  labels ← mapM (label_of p) (label s);
  Some (frames, labels, value s).

Definition frame_data (s : Symbol) : string * string * N * N :=
  (sym_name s, sym_file_name s, sym_line_no s, sym_address s).

Lemma by_id_spec {X} (id_of : X → nat) l i x :
  (∀ j y, l !! j = Some y → id_of y = S j) → l !! i = Some x → by_id id_of l (S i) = Some x.
Proof.
  intros Hid Hi. unfold by_id.
  assert (list_find (λ x, id_of x = S i) l = Some (i, x)) as ->; [|done].
  apply list_find_Some. split_and!; [done|by apply Hid|].
  intros j y Hj Hlt Heq. rewrite (Hid j y Hj) in Heq. lia.
Qed.

(** ** What the tables keep true *)
Definition strings_ok (t : StringTable) : Prop :=
  ∀ s i, str_index t !! s = Some i → table t !! i = Some s.

Lemma insert_string_spec s r :
  strings_ok (string_table r) →
  ∃ t i, insert_string s r = (set_strings t r, Ok i) ∧ strings_ok t ∧ table t !! i = Some s ∧
    table (string_table r) `prefix_of` table t.
Proof.
  intros Hok. unfold insert_string, StringTable_insert.
  destruct (str_index (string_table r) !! s) as [i|] eqn:Hi.
  - do 2 eexists. split; [done|]. split_and!; [done|by apply Hok|done].
  - do 2 eexists. split; [done|]. split_and!; simpl.
    + intros s' i'. simpl. intros [[<- <-]|[_ Hs']]%lookup_insert_Some; simpl.
      * by apply list_lookup_middle.
      * apply lookup_app_l_Some. by apply Hok.
    + by apply list_lookup_middle.
    + by apply prefix_app_r.
Qed.

(** [syms] are the symbols of the functions, in the order of their numbers. *)
Record report_inv (syms : list Symbol) (r : Report) : Prop := {
  ri_strings : strings_ok (string_table r);
  ri_funcs : length (funcs (func_table r)) = length syms;
  ri_locs : length (loc_table r) = length syms;
  ri_syms i s : syms !! i = Some s →
    loc_table r !! i = Some {| loc_id := S i;
      loc_line := [{| line_function_id := S i; line_line := sym_line_no s |}];
      loc_address := sym_address s |} ∧
    ∃ f, funcs (func_table r) !! i = Some f ∧ fn_id f = S i ∧
      table (string_table r) !! fn_system_name f = Some (sym_name s) ∧
      table (string_table r) !! fn_filename f = Some (sym_file_name s);
  ri_index a id : fn_index (func_table r) !! a = Some id ↔
    ∃ i s, id = S i ∧ syms !! i = Some s ∧ sym_address s = a;
}.

(** More strings. *)
Lemma report_inv_strings syms r t :
  report_inv syms r → strings_ok t → table (string_table r) `prefix_of` table t →
  report_inv syms (set_strings t r).
Proof.
  intros [Hs Hf Hl Hsy Hi] Ht Hpre. split; simpl; try done.
  intros i s His. destruct (Hsy i s His) as (H1&f&H2&H3&H4&H5). split; [done|].
  exists f. split_and!; [done|done|by eapply prefix_lookup_Some|by eapply prefix_lookup_Some].
Qed.

Lemma report_inv_samples syms r l : report_inv syms r → report_inv syms (set_samples l r).
Proof. by intros []. Qed.

(** A frame refers to the first symbol with its address. *)
Definition refers (syms : list Symbol) (id : nat) (s : Symbol) : Prop :=
  ∃ i s', id = S i ∧ syms !! i = Some s' ∧ sym_address s' = sym_address s.

Lemma refers_app syms syms' id s : refers syms id s → refers (syms ++ syms') id s.
Proof. intros (i&s'&->&Hi&Ha). exists i, s'. split_and!; [done|by apply lookup_app_l_Some|done]. Qed.

Definition location_of (id : nat) (s : Symbol) : Location :=
  {| loc_id := id; loc_line := [{| line_function_id := id; line_line := sym_line_no s |}];
     loc_address := sym_address s |}.

(** What is kept of the tables: they only grow. *)
Record grows (r r' : Report) : Prop := {
  gr_strings : table (string_table r) `prefix_of` table (string_table r');
  gr_samples : samples r' = samples r;
}.
#[export] Instance grows_preorder : PreOrder grows.
Proof. split; [done|]. intros r1 r2 r3 [H1 H2] [H3 H4]. split; [by etrans|by rewrite H4]. Qed.

Lemma push_spec syms r s :
  report_inv syms r → fn_index (func_table r) !! sym_address s = None →
  ∃ r1, FnTable_push s r = (r1, Ok (S (length syms))) ∧ loc_table r1 = loc_table r ∧ grows r r1 ∧
    report_inv (syms ++ [s]) (set_locs (loc_table r ++ [location_of (S (length syms)) s]) r1).
Proof.
  intros [Hs Hf Hl Hsy Hi] Hnew. unfold FnTable_push.
  rewrite (bind_known (gets _) _ (S (length (funcs (func_table r)))) r r eq_refl).
  destruct (insert_string_spec (sym_name s) r Hs) as (t1&n1&E1&Hs1&Hn1&Hp1).
  rewrite (bind_known _ _ _ _ _ E1).
  destruct (insert_string_spec (sym_file_name s) (set_strings t1 r) Hs1) as (t2&n2&E2&Hs2&Hn2&Hp2).
  rewrite (bind_known _ _ _ _ _ E2). simpl in Hp2.
  assert (table (string_table r) `prefix_of` table t2) as Hp12 by (by etrans).
  unfold modify, gets, assert_, mbind, sm_bind, mret, sm_ret. simpl. rewrite Hnew. simpl.
  rewrite Hf. eexists. split; [done|]. split; [done|]. split; [by split|].
  split; simpl.
  - done.
  - by rewrite !length_app, Hf.
  - by rewrite !length_app, Hl.
  - intros i s' [His|[Hlen Hone]]%lookup_app_Some.
    + destruct (Hsy i s' His) as (H1&f&H2&H3&H4&H5). split; [by apply lookup_app_l_Some|].
      exists f. split; [by apply lookup_app_l_Some|].
      split_and!; [done|by eapply prefix_lookup_Some|by eapply prefix_lookup_Some].
    + apply list_lookup_singleton_Some in Hone as [Hz ->]. assert (i = length syms) as -> by lia.
      split; [by rewrite lookup_app_r, Hl, Nat.sub_diag by lia|].
      eexists. split; [rewrite lookup_app_r, Hf, Nat.sub_diag by lia; done|]. simpl.
      split_and!; [done|by eapply prefix_lookup_Some|done].
  - intros a id. rewrite lookup_insert_Some, Hi. split.
    + intros [[<- <-]|[Hne (i&s'&->&His&Ha)]].
      * exists (length syms), s. split_and!; [done|by apply list_lookup_middle|done].
      * exists i, s'. split_and!; [done|by apply lookup_app_l_Some|done].
    + intros (i&s'&->&[His|[Hlen Hone]]%lookup_app_Some&Ha).
      * right. split; [|by exists i, s']. intros <-.
        assert (fn_index (func_table r) !! sym_address s = Some (S i)) as H
          by (apply Hi; by exists i, s'). congruence.
      * apply list_lookup_singleton_Some in Hone as [Hz ->]. left. split; [done|lia].
Qed.

(** The loop never panics; the tables grow by the new addresses. *)
Lemma report_frames_spec frames : ∀ syms r locs done_frames,
  report_inv syms r → Forall2 (refers syms) locs done_frames →
  ∃ r' locs' syms', report_frames frames locs r = (r', Ok locs') ∧
    report_inv (syms ++ syms') r' ∧ grows r r' ∧ syms' ⊆ frames ∧
    Forall2 (refers (syms ++ syms')) locs' (done_frames ++ frames).
Proof.
  induction frames as [|s frames IH]; intros syms r locs df Hinv Hlocs; cbn [report_frames].
  { exists r, locs, []. rewrite !app_nil_r. split_and!; try done. }
  rewrite (bind_known (gets _) _ (FnTable_get s (func_table r)) r r eq_refl). unfold FnTable_get.
  destruct (fn_index (func_table r) !! sym_address s) as [id|] eqn:Hid.
  - pose proof (proj1 (ri_index _ _ Hinv _ _) Hid) as (i&s'&->&His&Ha).
    destruct (IH syms r (locs ++ [S i]) (df ++ [s]) Hinv) as (r'&locs'&syms'&He&Hinv'&Hg&Hsub&Hl').
    { apply Forall2_app; [done|]. constructor; [|constructor]. by exists i, s'. }
    exists r', locs', syms'. rewrite <-app_assoc in Hl'. split_and!; try done. set_solver.
  - destruct (push_spec syms r s Hinv Hid) as (r1&He1&Hl1&Hg1&Hinv1).
    rewrite (bind_known _ _ _ _ _ He1).
    rewrite (bind_known (gets _) _ (length (loc_table r1)) r1 r1 eq_refl).
    unfold assert_. rewrite Hl1, (ri_locs _ _ Hinv), bool_decide_eq_true_2 by lia.
    rewrite (bind_known _ _ () r1 r1 eq_refl).
    rewrite (bind_known (modify _) _ () r1 _ eq_refl). rewrite Hl1.
    destruct (IH (syms ++ [s]) _ (locs ++ [S (length syms)]) (df ++ [s]) Hinv1)
      as (r'&locs'&syms'&He&Hinv'&Hg&Hsub&Hl').
    { apply Forall2_app.
      - eapply Forall2_impl; [done|]. intros. by apply refers_app.
      - constructor; [|constructor]. exists (length syms), s. split_and!; [done|by apply list_lookup_middle|done]. }
    rewrite <-!app_assoc in Hinv', Hl'. exists r', locs', (s :: syms'). split_and!; try done.
    + etrans; [done|]. etrans; [|done]. by split.
    + set_solver.
    + by rewrite <-app_assoc in Hl'.
Qed.

(** ** Many reports, of the heap or of the CPU *)
Inductive Kind := Heap | Cpu.
(** A report: the block and its size, or twice the time. *)
Definition entry : Type := N * N * list Symbol.
Definition key_of (k : Kind) : string := match k with Heap => bs "block" | Cpu => bs "cpu_times" end.
Definition report_entry (k : Kind) (e : entry) : M bool :=
  match k with
  | Heap => report_block_info e.1.1 e.1.2 e.2
  | Cpu => report_cpu_sample e.1.2 e.2
  end.
Definition text_of (k : Kind) (e : entry) : string :=
  hex (match k with Heap => e.1.1 | Cpu => e.1.2 end).
Definition build_of (k : Kind) : M Profile := match k with Heap => heap_build | Cpu => cpu_build end.
Definition unit_of (k : Kind) : string * string :=
  match k with Heap => (bs "space", bs "bytes") | Cpu => (bs "cpu", bs "nanoseconds") end.

Fixpoint report_all (k : Kind) (l : list entry) : M () :=
  match l with
  | [] => mret ()
  | e :: l => report_entry k e;; report_all k l
  end.

(** What a reader of the profile should see. *)
Definition expected (k : Kind) (e : entry) :
    list (string * string * N * N) * list (string * string) * list Z :=
  (frame_data <$> e.2, [(key_of k, text_of k e)], [as_i64 e.1.2]).

(** The frames with one address are one symbol. *)
Definition same_symbols (l : list entry) : Prop :=
  ∀ e1 e2 s1 s2, e1 ∈ l → e2 ∈ l → s1 ∈ e1.2 → s2 ∈ e2.2 → sym_address s1 = sym_address s2 →
    frame_data s1 = frame_data s2.

(** A sample as the tables have it. *)
Definition sample_ok (k : Kind) (syms : list Symbol) (strings : list string) (smp : Sample) (e : entry) : Prop :=
  Forall2 (refers syms) (location_id smp) e.2 ∧ value smp = [as_i64 e.1.2] ∧
  ∃ l, label smp = [l] ∧ strings !! label_key l = Some (key_of k) ∧ strings !! label_str l = Some (text_of k e).

Lemma sample_ok_grows k syms syms' strings strings' smp e :
  strings `prefix_of` strings' → sample_ok k syms strings smp e → sample_ok k (syms ++ syms') strings' smp e.
Proof.
  intros Hpre (Hl&Hv&l&Hlab&Hk&Ht). split_and!; [|done|].
  - eapply Forall2_impl; [done|]. intros. by apply refers_app.
  - exists l. split_and!; [done|by eapply prefix_lookup_Some|by eapply prefix_lookup_Some].
Qed.

(** The state after some reports. *)
Record reports_inv (k : Kind) (l : list entry) (syms : list Symbol) (r : Report) : Prop := {
  rs_inv : report_inv syms r;
  rs_samples : Forall2 (sample_ok k syms (table (string_table r))) (samples r) l;
  rs_sub : syms ⊆ l ≫= snd;
  rs_first : table (string_table r) !! 0 = Some [];
}.

Lemma reports_inv_new k : reports_inv k [] [] Report_new.
Proof.
  split; [|constructor|done|done]. split; [|done|done|..].
  - intros s i. simpl. by rewrite lookup_empty.
  - intros i s. by rewrite lookup_nil.
  - intros a id. simpl. rewrite lookup_empty. split; [done|]. intros (i&s&_&Hi&_). by rewrite lookup_nil in Hi.
Qed.

Lemma report_entry_unfold k e :
  report_entry k e = report_sample (key_of k) (text_of k e) (as_i64 e.1.2) e.2.
Proof. by destruct k. Qed.

Lemma report_entry_spec k l syms r e :
  reports_inv k l syms r →
  ∃ r' syms', report_entry k e r = (r', Ok true) ∧ reports_inv k (l ++ [e]) (syms ++ syms') r'.
Proof.
  intros [Hinv Hsmp Hsub H0]. rewrite report_entry_unfold. unfold report_sample.
  destruct (report_frames_spec e.2 syms r [] [] Hinv) as (r1&locs&syms'&He&Hinv1&[Hg1 Hg2]&Hsub1&Hlocs);
    [constructor|].
  rewrite (bind_known _ _ _ _ _ He).
  destruct (insert_string_spec (key_of k) r1) as (t1&n1&E1&Hs1&Hn1&Hp1); [apply Hinv1|].
  rewrite (bind_known _ _ _ _ _ E1).
  destruct (insert_string_spec (text_of k e) (set_strings t1 r1) Hs1) as (t2&n2&E2&Hs2&Hn2&Hp2).
  rewrite (bind_known _ _ _ _ _ E2). simpl in Hp2. do 2 eexists. split; [done|].
  assert (table (string_table r) `prefix_of` table t2) as Hpre by (etrans; [done|]; by etrans).
  split; simpl.
  - apply report_inv_samples. apply report_inv_strings; [by apply report_inv_strings| |]; done.
  - rewrite Hg2. apply Forall2_app.
    + eapply Forall2_impl; [done|]. intros. by eapply sample_ok_grows.
    + constructor; [|constructor]. split_and!; [done|done|]. eexists. split; [done|]. simpl.
      split; [by eapply prefix_lookup_Some|done].
  - rewrite bind_app. simpl. rewrite app_nil_r. set_solver.
  - by eapply prefix_lookup_Some.
Qed.

Lemma report_all_spec k l : ∀ l0 syms r,
  reports_inv k l0 syms r →
  ∃ r' syms', report_all k l r = (r', Ok ()) ∧ reports_inv k (l0 ++ l) (syms ++ syms') r'.
Proof.
  induction l as [|e l IH]; intros l0 syms r Hr; cbn [report_all].
  { exists r, []. rewrite !app_nil_r. by split. }
  destruct (report_entry_spec k l0 syms r e Hr) as (r1&syms1&He&Hr1).
  rewrite (bind_known _ _ _ _ _ He).
  destruct (IH _ _ _ Hr1) as (r'&syms'&He'&Hr'). exists r', (syms1 ++ syms').
  rewrite <-!app_assoc in Hr'. by split.
Qed.

(** [build] in one step. *)
Lemma build_spec k r :
  strings_ok (string_table r) →
  ∃ t i j, build_of k r =
      ({| string_table := {| str_index := str_index t; table := [] |};
          func_table := {| fn_index := fn_index (func_table r); funcs := [] |}; loc_table := []; samples := [] |},
       Ok {| sample_type := [{| vt_type := i; vt_unit := j |}]; sample := samples r; string_table_ := table t;
             function := funcs (func_table r); location := loc_table r |}) ∧
    strings_ok t ∧ table (string_table r) `prefix_of` table t ∧
    table t !! i = Some (unit_of k).1 ∧ table t !! j = Some (unit_of k).2.
Proof.
  intros Hok. assert (build_of k = build (unit_of k).1 (unit_of k).2) as -> by (by destruct k). unfold build.
  destruct (insert_string_spec (unit_of k).1 r Hok) as (t1&n1&E1&Hs1&Hn1&Hp1).
  rewrite (bind_known _ _ _ _ _ E1).
  destruct (insert_string_spec (unit_of k).2 (set_strings t1 r) Hs1) as (t2&n2&E2&Hs2&Hn2&Hp2).
  rewrite (bind_known _ _ _ _ _ E2). simpl in Hp2. exists t2, n1, n2. split; [done|].
  split_and!; [done|by etrans|by eapply prefix_lookup_Some|done].
Qed.

Lemma inv_addresses syms r : report_inv syms r → NoDup (sym_address <$> syms).
Proof.
  intros Hinv. apply NoDup_alt. intros i j a Hi Hj.
  apply list_lookup_fmap_Some in Hi as (s1&Ha1&Hi). apply list_lookup_fmap_Some in Hj as (s2&Ha2&Hj).
  assert (fn_index (func_table r) !! a = Some (S i)) as H1
    by (apply (ri_index _ _ Hinv); exists i, s1; by split_and!).
  assert (fn_index (func_table r) !! a = Some (S j)) as H2
    by (apply (ri_index _ _ Hinv); exists j, s2; by split_and!).
  congruence.
Qed.

Lemma inv_locations syms r : report_inv syms r → loc_address <$> loc_table r = sym_address <$> syms.
Proof.
  intros Hinv. apply list_eq. intros i. rewrite !list_lookup_fmap.
  destruct (syms !! i) as [s|] eqn:Hi; simpl.
  - by rewrite (proj1 (ri_syms _ _ Hinv i s Hi)).
  - rewrite lookup_ge_None_2; [done|]. rewrite (ri_locs _ _ Hinv). by apply lookup_ge_None.
Qed.

Lemma Forall2_elem_r {A B} (P : A → B → Prop) l k :
  Forall2 P l k → Forall2 (λ x y, P x y ∧ y ∈ k) l k.
Proof.
  intros H. apply Forall2_same_length_lookup. apply Forall2_same_length_lookup in H as [Hlen H].
  split; [done|]. intros i x y Hx Hy. split; [by eapply H|by eapply list_elem_of_lookup_2].
Qed.

Lemma insert_string_ok s r : ∃ t i, insert_string s r = (set_strings t r, Ok i).
Proof. unfold insert_string. destruct (StringTable_insert s (string_table r)) as [t i]. by exists t, i. Qed.

Lemma build_ok k r :
  ∃ t i j st, build_of k r =
    ({| string_table := st; func_table := {| fn_index := fn_index (func_table r); funcs := [] |};
        loc_table := []; samples := [] |},
     Ok {| sample_type := [{| vt_type := i; vt_unit := j |}]; sample := samples r; string_table_ := t;
           function := funcs (func_table r); location := loc_table r |}).
Proof.
  assert (build_of k = build (unit_of k).1 (unit_of k).2) as -> by (by destruct k). unfold build.
  destruct (insert_string_ok (unit_of k).1 r) as (t1&n1&E1). rewrite (bind_known _ _ _ _ _ E1).
  destruct (insert_string_ok (unit_of k).2 (set_strings t1 r)) as (t2&n2&E2).
  rewrite (bind_known _ _ _ _ _ E2). by do 4 eexists.
Qed.

(** The report of one frame that has a number: the location table is not looked at. *)
Lemma known_frame k s x y id r :
  fn_index (func_table r) !! sym_address s = Some (S id) →
  ∃ t smp, report_entry k (x, y, [s]) r = (set_samples (samples r ++ [smp]) (set_strings t r), Ok true) ∧
    location_id smp = [S id].
Proof.
  intros Hid. rewrite report_entry_unfold. unfold report_sample. cbn [report_frames snd]. unfold FnTable_get.
  rewrite (bind_known _ _ [S id] r r) by (unfold gets, mbind, sm_bind; simpl; by rewrite Hid).
  destruct (insert_string_ok (key_of k) r) as (t1&n1&E1). rewrite (bind_known _ _ _ _ _ E1).
  destruct (insert_string_ok (text_of k (x, y, [s])) (set_strings t1 r)) as (t2&n2&E2).
  rewrite (bind_known _ _ _ _ _ E2). do 2 eexists. by split.
Qed.

Lemma unlocated_sample p smp id : location p = [] → location_id smp = [id] → read_sample p smp = None.
Proof. intros Hl Hs. unfold read_sample. rewrite Hs. simpl. unfold frame_of. by rewrite Hl. Qed.

(** The tables of a profile that was built from a good report. *)
Definition profile_of (r : Report) (t : StringTable) (p : Profile) : Prop :=
  string_table_ p = table t ∧ function p = funcs (func_table r) ∧ location p = loc_table r.

Lemma frame_of_spec syms r t p id s :
  report_inv syms r → table (string_table r) `prefix_of` table t → profile_of r t p →
  refers syms id s → ∃ s', s' ∈ syms ∧ sym_address s' = sym_address s ∧ frame_of p id = Some (frame_data s').
Proof.
  intros Hinv Hpre (Hs&Hf&Hl) (i&s'&->&Hi&Ha). exists s'. split; [by eapply list_elem_of_lookup_2|].
  split; [done|]. unfold frame_of. rewrite Hs, Hf, Hl.
  destruct (ri_syms _ _ Hinv i s' Hi) as (H1&f&H2&H3&H4&H5).
  assert (∀ j y, loc_table r !! j = Some y → loc_id y = S j) as Hlids.
  { intros j y Hj. assert (is_Some (syms !! j)) as [z Hz].
    { apply lookup_lt_is_Some. rewrite <-(ri_locs _ _ Hinv). by eapply lookup_lt_Some. }
    destruct (ri_syms _ _ Hinv j z Hz) as [H _]. by simplify_eq. }
  assert (∀ j y, funcs (func_table r) !! j = Some y → fn_id y = S j) as Hfids.
  { intros j y Hj. assert (is_Some (syms !! j)) as [z Hz].
    { apply lookup_lt_is_Some. rewrite <-(ri_funcs _ _ Hinv). by eapply lookup_lt_Some. }
    destruct (ri_syms _ _ Hinv j z Hz) as (_&f'&H&?&_). by simplify_eq. }
  rewrite (by_id_spec _ _ _ _ Hlids H1). cbn. rewrite (by_id_spec _ _ _ _ Hfids H2). cbn.
  rewrite (prefix_lookup_Some _ _ _ _ H4 Hpre). cbn. by rewrite (prefix_lookup_Some _ _ _ _ H5 Hpre).
Qed.

(** A sample of the report reads as what was reported. *)
Lemma read_sample_spec k l syms r t p smp e :
  reports_inv k l syms r → same_symbols l → e ∈ l →
  table (string_table r) `prefix_of` table t → profile_of r t p →
  sample_ok k syms (table (string_table r)) smp e → read_sample p smp = Some (expected k e).
Proof.
  intros Hr Hsame He Hpre Hp (Hlocs&Hv&lab&Hlab&Hk&Ht). unfold read_sample.
  assert (mapM (frame_of p) (location_id smp) = Some (frame_data <$> e.2)) as ->.
  { apply mapM_Some. apply Forall2_fmap_r. eapply Forall2_impl; [exact (Forall2_elem_r _ _ _ Hlocs)|]. simpl.
    intros id s [Href Hs].
    destruct (frame_of_spec _ _ _ _ _ _ (rs_inv _ _ _ _ Hr) Hpre Hp Href) as (s'&Hs'&Ha&->). f_equal.
    apply (rs_sub _ _ _ _ Hr), list_elem_of_bind in Hs' as (e'&Hs'&He').
    by apply (Hsame e' e). }
  rewrite Hlab, Hv. destruct Hp as (Hst&_&_). cbn. unfold label_of. rewrite Hst.
  rewrite (prefix_lookup_Some _ _ _ _ Hk Hpre). cbn. by rewrite (prefix_lookup_Some _ _ _ _ Ht Hpre).
Qed.

(** The profile that [build] makes of some reports. *)
Definition session (k : Kind) (l : list entry) : M Profile := report_all k l;; build_of k.

(** What is built from a good state. *)
Lemma build_decodes k l syms r :
  reports_inv k l syms r → same_symbols l →
  ∃ r' p, build_of k r = (r', Ok p) ∧
    mapM (read_sample p) (sample p) = Some (expected k <$> l) ∧
    NoDup (loc_address <$> location p) ∧
    string_table_ p !! 0 = Some [] ∧
    (∃ vt, sample_type p = [vt] ∧ string_table_ p !! vt_type vt = Some (unit_of k).1 ∧
      string_table_ p !! vt_unit vt = Some (unit_of k).2).
Proof.
  intros Hr Hsame.
  destruct (build_spec k r (ri_strings _ _ (rs_inv _ _ _ _ Hr))) as (t&i&j&Hb&Hok&Hpre&Hi&Hj).
  do 2 eexists. split; [exact Hb|]. simpl. split_and!.
  - apply mapM_Some, Forall2_fmap_r. eapply Forall2_impl;
      [exact (Forall2_elem_r _ _ _ (rs_samples _ _ _ _ Hr))|].
    intros smp e [Hsmp Hin]. by eapply read_sample_spec.
  - rewrite (inv_locations _ _ (rs_inv _ _ _ _ Hr)). apply (inv_addresses _ _ (rs_inv _ _ _ _ Hr)).
  - eapply prefix_lookup_Some; [exact (rs_first _ _ _ _ Hr)|done].
  - eexists. split; [done|]. by split.
Qed.

(** From here on, the properties. *)

(** A profile says what was reported: for every sequence of reports (frames with the same
    address being the same symbol) the assertions of [push] and of the loop hold, [build]
    returns a profile, and following the numbers of its samples through the tables of locations,
    functions and strings gives back, in order, the frames, label and value of every report.
    An address has one location, string 0 is empty and the value type is named as the format
    has it. *)
Theorem profile_decodes k l :
  same_symbols l →
  ∃ r p, session k l Report_new = (r, Ok p) ∧
    mapM (read_sample p) (sample p) = Some (expected k <$> l) ∧
    NoDup (loc_address <$> location p) ∧
    string_table_ p !! 0 = Some [] ∧
    (∃ vt, sample_type p = [vt] ∧ string_table_ p !! vt_type vt = Some (unit_of k).1 ∧
      string_table_ p !! vt_unit vt = Some (unit_of k).2).
Proof.
  intros Hsame. unfold session.
  destruct (report_all_spec k l [] [] Report_new (reports_inv_new k)) as (r&syms&He&Hr).
  simpl in Hr. rewrite (bind_known _ _ _ _ _ He).
  by apply (build_decodes k l syms).
Qed.

(** [build] works once: it drains the tables of functions and locations, but their index
    keeps the addresses.  A frame that was known before the first [build] is reported again
    with a number that is in no table of the second profile, which therefore cannot be read. *)
Theorem second_build_is_broken k l e s x y :
  e ∈ l → s ∈ e.2 →
  ∃ r p, (session k l;; session k [(x, y, [s])]) Report_new = (r, Ok p) ∧
    sample p ≠ [] ∧ location p = [] ∧ mapM (read_sample p) (sample p) = None.
Proof.
  intros Hel Hse. unfold session at 1.
  destruct (report_all_spec k l [] [] Report_new (reports_inv_new k)) as (r&syms&He&Hr).
  destruct (build_spec k r (ri_strings _ _ (rs_inv _ _ _ _ Hr))) as (t&i&j&Hb&Hok&Hpre&Hi&Hj).
  assert ((report_all k l;; build_of k) Report_new = build_of k r) as Hs1 by (by rewrite (bind_known _ _ _ _ _ He)).
  rewrite Hb in Hs1. rewrite (bind_known _ _ _ _ _ Hs1). clear Hs1 Hb He.
  assert (∃ id, fn_index (func_table r) !! sym_address s = Some (S id)) as [id Hid].
  { destruct (list_elem_of_lookup_1 _ _ Hel) as [n Hn].
    destruct (Forall2_lookup_r _ _ _ _ _ (rs_samples _ _ _ _ Hr) Hn) as (smp&_&Hlocs&_).
    destruct (list_elem_of_lookup_1 _ _ Hse) as [m Hm].
    destruct (Forall2_lookup_r _ _ _ _ _ Hlocs Hm) as (id&_&i0&s'&->&Hi0&Ha).
    exists i0. apply (ri_index _ _ (rs_inv _ _ _ _ Hr)). by exists i0, s'. }
  match goal with |- ∃ _ _, mbind _ _ ?r1 = _ ∧ _ => destruct (known_frame k s x y id r1 Hid) as (t'&smp&Hrep&Hlocs) end.
  cbn [report_all].
  match goal with |- ∃ _ _, ((?m;; ?rest);; ?k) ?r1 = _ ∧ _ => rewrite (bind_known _ _ () r1 _
    (eq_trans (bind_known m (λ _, rest) _ r1 _ Hrep) eq_refl)) end.
  match goal with |- ∃ _ _, build_of _ ?r2 = _ ∧ _ => destruct (build_ok k r2) as (t2&i2&j2&st2&Hb2) end.
  do 2 eexists. split; [exact Hb2|]. simpl. split_and!; [done|done|].
  by rewrite (unlocated_sample _ _ (S id)).
Qed.

(** ** Witnesses *)
Module DemoReport.

Definition main_frame : Symbol :=
  {| sym_name := bs "main"; sym_address := 4096; sym_file_name := bs "main.rs"; sym_line_no := 3; sym_col_no := 1 |}.
Definition alloc_frame : Symbol :=
  {| sym_name := bs "alloc"; sym_address := 8192; sym_file_name := bs "alloc.rs"; sym_line_no := 17; sym_col_no := 5 |}.
Definition blocks : list entry := [(2748, 64, [alloc_frame; main_frame]); (3, 18446744073709551615, [main_frame])]%N.

Example hex_of_3 : hex 3 = bs "0x03".
Proof. reflexivity. Qed.

Lemma blocks_same : same_symbols blocks.
Proof.
  assert (∀ e s, e ∈ blocks → s ∈ e.2 → s = main_frame ∨ s = alloc_frame) as H.
  { intros e s [-> |[-> |He]%elem_of_cons]%elem_of_cons Hs; [set_solver|set_solver|set_solver]. }
  intros e1 e2 s1 s2 H1 H2 Hs1 Hs2 Ha.
  destruct (H e1 s1 H1 Hs1) as [-> | ->], (H e2 s2 H2 Hs2) as [-> | ->]; try done.
Qed.

End DemoReport.

(** Two blocks with a common frame: the second reuses its number. *)
Lemma profile_decodes_witness :
  match (session Heap DemoReport.blocks Report_new).2 with
  | Ok p => (location_id <$> sample p) = [[1; 2]; [2]] ∧ (value <$> sample p) = [[64]; [-1]]%Z
  | _ => False
  end ∧
  ∃ r p, session Heap DemoReport.blocks Report_new = (r, Ok p) ∧
    mapM (read_sample p) (sample p) = Some (expected Heap <$> DemoReport.blocks).
Proof.
  split; [vm_compute; split; reflexivity|].
  destruct (profile_decodes Heap DemoReport.blocks DemoReport.blocks_same) as (r&p&H1&H2&_).
  exact (ex_intro _ r (ex_intro _ p (conj H1 H2))).
Defined.

Lemma second_build_is_broken_witness :
  ∃ r p, (session Cpu DemoReport.blocks;; session Cpu [(1, 1, [DemoReport.main_frame])]%N) Report_new = (r, Ok p) ∧
    mapM (read_sample p) (sample p) = None.
Proof.
  destruct (second_build_is_broken Cpu DemoReport.blocks (3, 18446744073709551615, [DemoReport.main_frame])%N
    DemoReport.main_frame 1%N 1%N) as (r&p&H1&_&_&H2);
    [apply elem_of_cons; right; by apply list_elem_of_singleton|by apply list_elem_of_singleton|].
  exact (ex_intro _ r (ex_intro _ p (conj H1 H2))).
Defined.
