(* ===== verification/Protobuf.v ===== *)
(** * The runtime of the messages of crates/pprof/src/gperf/gperf.rs

    The generated types of [Gperf.v] read themselves from a [CodedInputStream] and write
    themselves to a [CodedOutputStream] of the protobuf crate, which is the parameter
    [Protobuf] with what it documents as laws.  A stream of input is the bytes up to its limit.
    [codes] says that some code writes a number of bytes which the loop of [merge_from] reads
    back as an update of the message; the messages are composed of its rules. *)

From S2P Require Import Prelude.

(** The streams, and the functions of [protobuf::rt], over an output [O], the sets [U] of
    unknown fields, and the errors [E]. *)
Class Protobuf (O U E : Type) := {
  write_int64 : N → Z → sm O E ();
  write_uint64 : N → N → sm O E ();
  write_bool : N → bool → sm O E ();
  write_string : N → list byte → sm O E ();
  (** field, cached size of the message, and how it writes itself *)
  write_message_field_with_cached_size : N → N → sm O E () → sm O E ();
  write_unknown_fields : U → sm O E ();

  read_raw_tag_or_eof : sm (list byte) E (option N);
  read_int64 : sm (list byte) E Z;
  read_uint64 : sm (list byte) E N;
  read_bool : sm (list byte) E bool;
  read_string : sm (list byte) E (list byte);
  (** the [merge_from] of the message, and a new one *)
  read_message {M} : sm (M * list byte) E () → M → sm (list byte) E M;
  read_singular_message_into_field {M} : sm (M * list byte) E () → M → sm (option M * list byte) E ();
  read_repeated_packed_int64_into : sm (list Z * list byte) E ();
  read_repeated_packed_uint64_into : sm (list N * list byte) E ();
  read_unknown_or_skip_group : N → sm (U * list byte) E ();

  int64_size : N → Z → N;
  uint64_size : N → N → N;
  string_size : N → list byte → N;
  compute_raw_varint64_size : N → N;
  unknown_fields_size : U → N;
  UnknownFields_new : U;

  (** what an output has got; whether it has failed; whether bytes are UTF-8 *)
  written : O → list byte;
  failed : O → bool;
  utf8 : list byte → bool;
}.

Definition i64 (v : Z) : Prop := (- 2 ^ 63 ≤ v < 2 ^ 63)%Z.
Definition u64 (v : N) : Prop := (v < 2 ^ 64)%N.

Section codec.
Context {O U E : Type} `{!Protobuf O U E}.

(** The code appends [b] to every output, or the output fails. *)
Definition emits (w : sm O E ()) (b : list byte) : Prop := ∀ o,
  match w o with
  | (o', Ok _) => written o' = written o ++ b
  | (o', Err _) => failed o' = true
  | (_, Panic) => False
  end.

(** The code writes a field of [n] bytes with the tag [tag], where [rd] reads [v]. *)
Definition encodes {A} (w : sm O E ()) (n tag : N) (rd : sm (list byte) E A) (v : A) : Prop :=
  ∃ b, emits w b ∧ N.of_nat (length b) = n ∧
    ∀ rest, ∃ body, read_raw_tag_or_eof (b ++ rest) = (body, Ok (Some tag)) ∧ rd body = (rest, Ok v).

(** A reader does not make its input longer, and does not panic. *)
Definition consumes {A} (rd : sm (list byte) E A) : Prop := ∀ i,
  length (rd i).1 ≤ length i ∧ (rd i).2 ≠ Panic.
Definition consumes_into {M A} (rd : sm (M * list byte) E A) : Prop := ∀ m i,
  length (rd (m, i)).1.2 ≤ length i ∧ (rd (m, i)).2 ≠ Panic.
End codec.

(** The wire format: a field of number [f] has the tag [8 * f] for a varint, and [8 * f + 2] for
    a length and bytes; the fields below 16 have a tag of one byte. *)
Class ProtobufLaws (O U E : Type) `{!Protobuf O U E} : Prop := {
  law_int64 f v : (0 < f < 16)%N → i64 v →
    encodes (write_int64 f v) (int64_size f v) (8 * f) read_int64 v;
  law_uint64 f v : (0 < f < 16)%N → u64 v →
    encodes (write_uint64 f v) (uint64_size f v) (8 * f) read_uint64 v;
  law_bool f v : (0 < f < 16)%N → encodes (write_bool f v) 2 (8 * f) read_bool v;
  law_string f v : (0 < f < 16)%N → utf8 v = true → (N.of_nat (length v) < 2 ^ 32)%N →
    encodes (write_string f v) (string_size f v) (8 * f + 2) read_string v;
  law_message {M} f b w (merge : sm (M * list byte) E ()) new m :
    (0 < f < 16)%N → emits w b → (N.of_nat (length b) < 2 ^ 32)%N → merge (new, b) = ((m, []), Ok ()) →
    encodes (write_message_field_with_cached_size f (N.of_nat (length b)) w)
      (1 + compute_raw_varint64_size (N.of_nat (length b)) + N.of_nat (length b))
      (8 * f + 2) (read_message merge new) m;
  law_singular_message {M} (merge : sm (M * list byte) E ()) new i i' m :
    read_message merge new i = (i', Ok m) →
    read_singular_message_into_field merge new (None, i) = ((Some m, i'), Ok ());
  law_no_unknown : emits (write_unknown_fields UnknownFields_new) [];
  law_no_unknown_size : unknown_fields_size UnknownFields_new = 0%N;
  law_eof : read_raw_tag_or_eof [] = ([], Ok None);
  law_tag i : match read_raw_tag_or_eof i with
              | (i', Ok (Some _)) => length i' < length i
              | (i', r) => length i' ≤ length i ∧ r ≠ Panic
              end;
  law_read_int64 : consumes read_int64;
  law_read_uint64 : consumes read_uint64;
  law_read_bool : consumes read_bool;
  law_read_string : consumes read_string;
  law_read_message {M} (merge : sm (M * list byte) E ()) new :
    consumes_into merge → consumes (read_message merge new);
  law_read_singular {M} (merge : sm (M * list byte) E ()) new :
    consumes_into merge → consumes_into (read_singular_message_into_field merge new);
  law_read_packed_int64 : consumes_into read_repeated_packed_int64_into;
  law_read_packed_uint64 : consumes_into read_repeated_packed_uint64_into;
  law_read_unknown tag : consumes_into (read_unknown_or_skip_group tag);
}.

(** ** The loop of [merge_from], and the fields *)
Section loop.
Context {O U E M : Type} `{!Protobuf O U E}.

(** [self.x = is.read()?], and a reader that is given a field. *)
Definition reads {A} (rd : sm (list byte) E A) (upd : A → M → M) : sm (M * list byte) E () := λ '(m, i),
  match rd i with
  | (i', Ok a) => ((upd a m, i'), Ok ())
  | (i', Err e) => ((m, i'), Err e)
  | (i', Panic) => ((m, i'), Panic)
  end.
Definition reads_into {F} (get : M → F) (set : F → M → M) (rd : sm (F * list byte) E ()) :
    sm (M * list byte) E () := λ '(m, i),
  let '((x, i'), r) := rd (get m, i) in ((set x m, i'), r).
(** [self.x.push(v)]. *)
Definition push {A} (get : M → list A) (set : list A → M → M) (x : A) (m : M) : M := set (get m ++ [x]) m.

(** [while let Some(tag) = is.read_raw_tag_or_eof()?], where [field] reads what follows a tag.
    Each round takes a byte at least, so that the bytes bound the rounds ([merge_loop_fuel]). *)
Fixpoint merge_rounds (fuel : nat) (field : N → sm (M * list byte) E ()) (s : M * list byte) :
    (M * list byte) * res E () :=
  match fuel with
  | 0 => (s, Panic)
  | S fuel =>
      match read_raw_tag_or_eof s.2 with
      | (i, Ok None) => ((s.1, i), Ok ())
      | (i, Ok (Some tag)) =>
          match field tag (s.1, i) with
          | (s', Ok _) => merge_rounds fuel field s'
          | (s', r) => (s', r)
          end
      | (i, Err e) => ((s.1, i), Err e)
      | (i, Panic) => ((s.1, i), Panic)
      end
  end.
Definition merge_loop (field : N → sm (M * list byte) E ()) : sm (M * list byte) E () := λ s,
  merge_rounds (S (length s.2)) field s.

(** [for v in l { w(v)? }], and the sum of the sizes of its fields. *)
Fixpoint for_each {A} (w : A → sm O E ()) (l : list A) : sm O E () :=
  match l with [] => mret () | x :: l => w x;; for_each w l end.
Definition sum_sizes {A} (n : A → N) (l : list A) : N := foldr (λ x, N.add (n x)) 0%N l.

(** A field of a record. *)
Class RecordField {F} (get : M → F) (set : F → M → M) : Prop := {
  get_set x m : get (set x m) = x;
  set_set x y m : set x (set y m) = set x m;
  set_get m : set (get m) m = m;
}.
Lemma reads_consumes {A} (rd : sm (list byte) E A) upd : consumes rd → consumes_into (reads rd upd).
Proof. intros H m i. destruct (H i) as [H1 H2]. unfold reads. by destruct (rd i) as [i' [a|e|]]. Qed.
Lemma reads_into_consumes {F} get set (rd : sm (F * list byte) E ()) :
  consumes_into rd → consumes_into (reads_into get set rd).
Proof. intros H m i. specialize (H (get m) i). unfold reads_into. by destruct (rd (get m, i)) as [[x i'] r]. Qed.
End loop.

#[export] Hint Extern 0 (RecordField _ _) => split; [done|done|by intros []] : typeclass_instances.

(** What a written field does to the message that reads it. *)
Section codes.
Context {O U E M : Type} `{!Protobuf O U E, !ProtobufLaws O U E} (field : N → sm (M * list byte) E ()).

Lemma merge_rounds_fuel n n' m i :
  (∀ tag, consumes_into (field tag)) → length i < n → length i < n' →
  merge_rounds n field (m, i) = merge_rounds n' field (m, i) ∧
  (merge_rounds n field (m, i)).2 ≠ Panic ∧ length (merge_rounds n field (m, i)).1.2 ≤ length i.
Proof.
  intros Hf. revert n' m i. induction n as [|n IH]; intros [|n'] m i Hn Hn'; try lia. simpl.
  pose proof (law_tag i) as Ht. destruct (read_raw_tag_or_eof i) as [i1 [[tag|]|e|]]; simpl;
    [|destruct Ht as [? ?]; by split_and!..].
  destruct (Hf tag m i1) as [H1 H2]. destruct (field tag (m, i1)) as [[m2 i2] [[]|e|]]; simpl in *;
    [|by split_and!; [| |lia]..].
  destruct (IH n' m2 i2) as (H3&H4&H5); [lia..|]. split; [done|]. split; [done|lia].
Qed.

Lemma merge_loop_consumes : (∀ tag, consumes_into (field tag)) → consumes_into (merge_loop field).
Proof.
  intros Hf m i. destruct (merge_rounds_fuel (S (length i)) (S (length i)) m i Hf) as (_&H1&H2); [lia..|].
  by unfold merge_loop.
Qed.

(** [w] writes [n] bytes, which the loop reads from the message [m] into [m']. *)
Definition codes (m : M) (w : sm O E ()) (n : N) (m' : M) : Prop :=
  ∃ b, emits w b ∧ N.of_nat (length b) = n ∧
    ∀ rest, merge_loop field (m, b ++ rest) = merge_loop field (m', rest).

Lemma codes_message m w n m' :
  codes m w n m' → ∃ b, emits w b ∧ N.of_nat (length b) = n ∧ merge_loop field (m, b) = ((m', []), Ok ()).
Proof.
  intros (b&Hw&Hn&Hr). exists b. split_and!; [done|done|]. specialize (Hr []). rewrite app_nil_r in Hr.
  rewrite Hr. unfold merge_loop. simpl. by rewrite law_eof.
Qed.

Lemma codes_eq m w n m' size x : codes m w n m' → n = size → m' = x → codes m w size x.
Proof. by intros H <- <-. Qed.
Lemma codes_nil m w : emits w [] → codes m w 0 m.
Proof. intros Hw. by exists []. Qed.
Lemma emits_ret : emits (mret ()) [].
Proof. intros o. by rewrite app_nil_r. Qed.

Lemma emits_bind (w1 w2 : sm O E ()) b1 b2 : emits w1 b1 → emits w2 b2 → emits (w1;; w2) (b1 ++ b2).
Proof.
  intros H1 H2 o. unfold mbind, sm_bind. specialize (H1 o). destruct (w1 o) as [o1 [[]|e|]]; [|done..].
  specialize (H2 o1). destruct (w2 o1) as [o2 [[]|e|]]; [|done..]. by rewrite H2, H1, app_assoc.
Qed.

Lemma codes_bind m1 m2 m3 w1 w2 n1 n2 :
  codes m1 w1 n1 m2 → codes m2 w2 n2 m3 → codes m1 (w1;; w2) (n1 + n2) m3.
Proof.
  intros (b1&Hw1&Hn1&Hr1) (b2&Hw2&Hn2&Hr2). exists (b1 ++ b2). split_and!.
  - by apply emits_bind.
  - rewrite length_app. lia.
  - intros rest. by rewrite <-app_assoc, Hr1, Hr2.
Qed.

Context (Hfield : ∀ tag, consumes_into (field tag)).

(** A field at [tag], where [rd] reads [v]. *)
Lemma codes_at {A} (w : sm O E ()) n tag (rd : sm (list byte) E A) v m m' :
  encodes w n tag rd v →
  (∀ i i', rd i = (i', Ok v) → field tag (m, i) = ((m', i'), Ok ())) → codes m w n m'.
Proof using Type*.
  intros (b&Hw&Hn&Hr) Htag. exists b. split_and!; [done|done|]. intros rest.
  destruct (Hr rest) as (body&H1&H2). unfold merge_loop at 1. simpl.
  pose proof (law_tag (b ++ rest)) as Hlt. rewrite H1 in *. pose proof (Htag _ _ H2) as H3.
  pose proof (Hfield tag m body) as [Hle _]. rewrite H3 in *. simpl in Hle.
  apply merge_rounds_fuel; [done|simpl; lia..].
Qed.

Lemma codes_field {A} (w : sm O E ()) n tag (rd : sm (list byte) E A) v upd m :
  encodes w n tag rd v → field tag = reads rd upd → codes m w n (upd v m).
Proof using Type*.
  intros He Htag. eapply codes_at; [exact He|]. intros i i' Hr. rewrite Htag. unfold reads. by rewrite Hr.
Qed.

(** A field is not written when it has its default; the reader keeps what it has. *)
Lemma codes_over {A} `{!EqDecision A} (d v : A) w n get set `{!RecordField (M:=M) get set} m :
  codes m w n (set v m) →
  codes m (if decide (v ≠ d) then w else mret ()) (if decide (v ≠ d) then n else 0%N)
    (set (if decide (v ≠ d) then v else get m) m).
Proof. intros Hc. case_decide; [done|]. rewrite set_get. apply codes_nil, emits_ret. Qed.
Lemma codes_unless {A} `{!EqDecision A} (d v : A) w n get set `{!RecordField (M:=M) get set} m :
  codes m w n (set v m) → get m = d →
  codes m (if decide (v ≠ d) then w else mret ()) (if decide (v ≠ d) then n else 0%N) (set v m).
Proof.
  intros Hc Hd. case_decide as Hv; [done|].
  assert (set v m = m) as -> by (destruct (decide (v = d)) as [->|]; [by rewrite <-Hd, set_get|done]).
  apply codes_nil, emits_ret.
Qed.

Lemma codes_repeated {A} (w : A → sm O E ()) n tag (rd : sm (list byte) E A) l get set
    `{!RecordField (M:=M) get set} m :
  Forall (λ x, encodes (w x) (n x) tag rd x) l → field tag = reads rd (push get set) →
  codes m (for_each w l) (sum_sizes n l) (set (get m ++ l) m).
Proof using Type*.
  intros Hl Htag. revert m. induction Hl as [|x l Hx _ IH]; intros m; simpl.
  - rewrite app_nil_r, set_get. apply codes_nil, emits_ret.
  - eapply codes_bind; [by eapply codes_field|].
    specialize (IH (push get set x m)). unfold push in *. by rewrite get_set, set_set, <-app_assoc in IH.
Qed.
End codes.

(** ** [protobuf::Message] *)
Record SpecialFields {U : Type} := { unknown_fields : U; cached_size : N }.
Arguments SpecialFields : clear implicits.

Section message.
Context {O U E : Type} `{!Protobuf O U E}.

Definition SpecialFields_new : SpecialFields U := {| unknown_fields := UnknownFields_new; cached_size := 0 |}.
(** [special_fields.cached_size().set(my_size as u32)]. *)
Definition set_cached_size (n : N) (s : SpecialFields U) : SpecialFields U :=
  {| unknown_fields := unknown_fields s; cached_size := (n mod 2 ^ 32)%N |}.
Definition set_unknown_fields (u : U) (s : SpecialFields U) : SpecialFields U :=
  {| unknown_fields := u; cached_size := cached_size s |}.

(** [compute_size] keeps the sizes in the cells of the message and of those in it. *)
Class Message (M : Type) := {
  message_new : M;
  merge_from : sm (M * list byte) E ();
  compute_size : M → M * N;
  write_to_with_cached_sizes : M → sm O E ();
  special_fields : M → SpecialFields U;
}.

Definition get_cached_size {M} `{!Message M} (m : M) : N := cached_size (special_fields m).

(** [for value in l { let len = value.compute_size(); my_size += 1 + varint(len) + len }]. *)
Fixpoint message_sizes {M} `{!Message M} (l : list M) : list M * N :=
  match l with
  | [] => ([], 0%N)
  | v :: l =>
      let '(v, len) := compute_size v in
      let '(l, n) := message_sizes l in
      (v :: l, (1 + compute_raw_varint64_size len + len + n)%N)
  end.
Definition write_message {M} `{!Message M} (f : N) (v : M) : sm O E () :=
  write_message_field_with_cached_size f (get_cached_size v) (write_to_with_cached_sizes v).

(** The same for a [MessageField]. *)
Definition message_field_size {M} `{!Message M} (o : option M) : option M * N :=
  match o with
  | Some v => let '(v, len) := compute_size v in (Some v, (1 + compute_raw_varint64_size len + len)%N)
  | None => (None, 0%N)
  end.
Definition write_message_field {M} `{!Message M} (f : N) (o : option M) : sm O E () :=
  match o with Some v => write_message f v | None => mret () end.

(** A message that is written after [compute_size] is the one that is read; [fresh] is the
    message with no sizes in its cells, which its equality does not see. *)
Class MessageLaws (M : Type) `{!Message M} (valid : M → Prop) (fresh : M → M) : Prop := {
  merge_consumes : consumes_into merge_from;
  message_codec m m' n : valid m → compute_size m = (m', n) → (n < 2 ^ 32)%N →
    get_cached_size m' = n ∧ fresh m' = fresh m ∧
    ∃ b, emits (write_to_with_cached_sizes m') b ∧ N.of_nat (length b) = n ∧
      merge_from (message_new, b) = ((fresh m, []), Ok ());
}.
End message.
Arguments Message O U E M : clear implicits.

Section message_fields.
Context {O U E M X : Type} `{!Protobuf O U E, !ProtobufLaws O U E} (field : N → sm (M * list byte) E ())
  `{!Message O U E X} (valid : X → Prop) (fresh : X → X) `{!MessageLaws X valid fresh}.
Context (Hfield : ∀ tag, consumes_into (field tag)).

Lemma encodes_message f v v' n :
  (0 < f < 16)%N → valid v → compute_size v = (v', n) → (n < 2 ^ 32)%N →
  fresh v' = fresh v ∧
  encodes (write_message f v') (1 + compute_raw_varint64_size n + n) (8 * f + 2)
    (read_message merge_from message_new) (fresh v).
Proof.
  intros Hf Hv Hc Hn. destruct (message_codec v v' n Hv Hc Hn) as (Hs&Hfr&b&Hw&Hl&Hm). split; [done|].
  unfold write_message. rewrite Hs, <-Hl. apply law_message; [done..|lia|done].
Qed.

Lemma codes_messages f l l' n (get : M → list X) set `{!RecordField get set} :
  (0 < f < 16)%N → Forall valid l → message_sizes l = (l', n) → (n < 2 ^ 32)%N →
  field (8 * f + 2)%N = reads (read_message merge_from message_new) (push get set) →
  fresh <$> l' = fresh <$> l ∧
  ∀ m, codes field m (for_each (write_message f) l') n (set (get m ++ (fresh <$> l)) m).
Proof using Type*.
  intros Hf Hl Hs Hn Htag. revert l' n Hs Hn. induction Hl as [|v l Hv _ IH]; intros l' n; simpl.
  - intros [= <- <-] _. split; [done|]. intros m. rewrite app_nil_r, set_get. apply codes_nil, emits_ret.
  - destruct (compute_size v) as [v' len] eqn:Hc. destruct (message_sizes l) as [l1 n1] eqn:Hs.
    intros [= <- <-] Hn. destruct (encodes_message f v v' len Hf Hv Hc) as [Hfr He]; [lia|].
    destruct (IH l1 n1 eq_refl) as [Hfr1 Hc1]; [lia|].
    split; [rewrite !fmap_cons; by f_equal|]. intros m. eapply codes_bind; [by eapply codes_field|].
    specialize (Hc1 (push get set (fresh v) m)). unfold push in *.
    by rewrite get_set, set_set, <-app_assoc in Hc1.
Qed.

(** A field of one message is read where it is not yet set. *)
Lemma codes_optional f o o' n (get : M → option X) set `{!RecordField get set} :
  (0 < f < 16)%N → from_option valid True o → message_field_size o = (o', n) → (n < 2 ^ 32)%N →
  field (8 * f + 2)%N = reads_into get set (read_singular_message_into_field merge_from message_new) →
  fresh <$> o' = fresh <$> o ∧
  ∀ m, get m = None ∨ o = None →
    codes field m (write_message_field f o') n (set ((fresh <$> o) ∪ get m) m).
Proof using Type*.
  intros Hf Hv Hs Hn Htag. destruct o as [v|]; simpl in *.
  - destruct (compute_size v) as [v' len] eqn:Hc. injection Hs as <- <-.
    destruct (encodes_message f v v' len Hf Hv Hc) as [Hfr He]; [lia|]. split; [simpl; by f_equal|].
    intros m [Hm|]; [|done]. rewrite Hm. simpl.
    eapply codes_at; [done|exact He|]. intros i i' Hr. rewrite Htag. unfold reads_into. rewrite Hm.
    by rewrite (law_singular_message _ _ _ _ _ Hr).
  - injection Hs as <- <-. split; [done|]. intros m _. simpl. rewrite (left_id_L None (∪)), set_get.
    apply codes_nil, emits_ret.
Qed.
End message_fields.
