(* ===== verification/Wire.v ===== *)
(** * The wire format of protobuf: an implementation of the runtime of [Protobuf.v]

    The witnesses of [Gperf.v] write to a list of bytes and read from it.  An integer is a
    varint, seven bits a byte with the low ones first; a field that is not known is an error. *)

From S2P Require Import Prelude Protobuf.

#[local] Open Scope N_scope.

Definition to_byte (n : N) : byte := default x00 (Byte.of_N (n mod 256)).

Lemma to_byte_N n : n < 256 → Byte.to_N (to_byte n) = n.
Proof.
  intros Hn. unfold to_byte. rewrite N.mod_small by done.
  destruct (Byte.of_N n) as [b|] eqn:Hb; [by apply Byte.to_of_N|]. apply Byte.of_N_None_iff in Hb. lia.
Qed.

Fixpoint varint (fuel : nat) (n : N) : list byte :=
  match fuel with
  | O => []
  | S fuel => if n <? 128 then [to_byte n] else to_byte (128 + n mod 128) :: varint fuel (n / 128)
  end.
Fixpoint read_varint (fuel : nat) (i : list byte) : list byte * res ErrorKind N :=
  match fuel, i with
  | O, _ => (i, Err InvalidData)
  | S _, [] => ([], Err UnexpectedEof)
  | S fuel, b :: i =>
      if Byte.to_N b <? 128 then (i, Ok (Byte.to_N b))
      else match read_varint fuel i with
           | (i, Ok n) => (i, Ok (Byte.to_N b - 128 + 128 * n))
           | r => r
           end
  end.

Lemma varint_roundtrip fuel n rest :
  n < 128 ^ N.of_nat fuel → fuel ≠ 0%nat → read_varint fuel (varint fuel n ++ rest) = (rest, Ok n).
Proof.
  revert n. induction fuel as [|fuel IH]; intros n Hn Hf; [done|]. simpl.
  pose proof (N.mod_lt n 128 ltac:(done)) as Hm.
  destruct (n <? 128) eqn:Hlt.
  - apply N.ltb_lt in Hlt. simpl. rewrite to_byte_N by lia. by rewrite (proj2 (N.ltb_lt _ _) Hlt).
  - apply N.ltb_ge in Hlt. simpl.
    pose proof (N.div_mod n 128 ltac:(done)) as Hd. set (r := n mod 128) in *. set (q := n / 128) in *.
    rewrite to_byte_N by lia. assert ((128 + r <? 128) = false) as -> by (apply N.ltb_ge; lia).
    rewrite Nat2N.inj_succ, N.pow_succ_r' in Hn.
    rewrite IH.
    + f_equal. f_equal. lia.
    + subst q. apply N.Div0.div_lt_upper_bound. lia.
    + intros ->. simpl in Hn. lia.
Qed.

Lemma read_varint_shorter fuel i :
  match read_varint fuel i with
  | (i', Ok _) => (length i' < length i)%nat
  | (i', Err _) => (length i' ≤ length i)%nat
  | (_, Panic) => False
  end.
Proof.
  revert i. induction fuel as [|fuel IH]; intros [|b i]; simpl; try lia.
  destruct (_ <? 128); [simpl; lia|]. specialize (IH i). destruct (read_varint fuel i) as [i' [n|e|]]; simpl; lia.
Qed.
Lemma read_varint_consumes fuel : consumes (read_varint fuel).
Proof.
  intros i. pose proof (read_varint_shorter fuel i) as H.
  destruct (read_varint fuel i) as [i' [n|e|]]; simpl in *; [split; [lia|done]..|done].
Qed.

(** A varint of 64 bits. *)
Definition put (n : N) : list byte := varint 10 n.
Definition take_varint : sm (list byte) ErrorKind N := read_varint 10.
Lemma take_put n rest : n < 2 ^ 64 → take_varint (put n ++ rest) = (rest, Ok n).
Proof. intros Hn. apply varint_roundtrip; [|done]. etrans; [exact Hn|done]. Qed.
Lemma put_small n : n < 128 → put n = [to_byte n].
Proof. intros Hn. unfold put. simpl. by rewrite (proj2 (N.ltb_lt _ _) Hn). Qed.
Lemma take_byte n rest : n < 128 → take_varint (to_byte n :: rest) = (rest, Ok n).
Proof. intros Hn. rewrite <-(take_put n rest) by lia. by rewrite put_small. Qed.

Definition of_i64 (v : Z) : N := Z.to_N (wrap 64 v).
Definition to_i64 (n : N) : Z :=
  let u := wrap 64 (Z.of_N n) in if (u <? 2 ^ 63)%Z then u else (u - 2 ^ 64)%Z.

(** Bytes with their length, for a reader of these bytes. *)
Definition take_bytes : sm (list byte) ErrorKind (list byte) := λ i,
  match take_varint i with
  | (i, Ok len) =>
      if decide (N.to_nat len ≤ length i)%nat then (drop (N.to_nat len) i, Ok (take (N.to_nat len) i))
      else (i, Err UnexpectedEof)
  | (i, Err e) => (i, Err e)
  | (i, Panic) => (i, Panic)
  end.
(** The varints of a packed field. *)
Fixpoint packed (fuel : nat) (i : list byte) : res ErrorKind (list N) :=
  match fuel, i with
  | O, _ => Err InvalidData
  | _, [] => Ok []
  | S fuel, _ =>
      match take_varint i with
      | (i, Ok n) => cons n <$> packed fuel i
      | (_, r) => (λ _, []) <$> r
      end
  end.
Definition take_packed {A} (f : N → A) : sm (list A * list byte) ErrorKind () := λ '(l, i),
  match take_bytes i with
  | (i, Ok b) =>
      match packed (S (length b)) b with
      | Ok ns => ((l ++ (f <$> ns), i), Ok ())
      | Err e => ((l, i), Err e)
      | Panic => ((l, i), Panic)
      end
  | (i, Err e) => ((l, i), Err e)
  | (i, Panic) => ((l, i), Panic)
  end.
Definition take_message {M} (merge : sm (M * list byte) ErrorKind ()) (new : M) : sm (list byte) ErrorKind M := λ i,
  match take_bytes i with
  | (i, Ok b) => let '((m, _), r) := merge (new, b) in (i, (λ _, m) <$> r)
  | (i, Err e) => (i, Err e)
  | (i, Panic) => (i, Panic)
  end.

Definition append (b : list byte) : sm (list byte) ErrorKind () := modify (λ o, o ++ b).
Definition take_mapped {A} (f : N → A) : sm (list byte) ErrorKind A := n ← take_varint; mret (f n).

#[export] Instance wire : Protobuf (list byte) () ErrorKind := {
  write_int64 f v := append (put (8 * f) ++ put (of_i64 v));
  write_uint64 f v := append (put (8 * f) ++ put v);
  write_bool f v := append (put (8 * f) ++ put (if v then 1 else 0));
  write_string f v := append (put (8 * f + 2) ++ put (N.of_nat (length v)) ++ v);
  write_message_field_with_cached_size f size w := append (put (8 * f + 2) ++ put size);; w;
  write_unknown_fields _ := mret ();
  read_raw_tag_or_eof i := match i with [] => ([], Ok None) | _ => take_mapped Some i end;
  read_int64 := take_mapped to_i64;
  read_uint64 := take_varint;
  read_bool := take_mapped (λ n, bool_decide (n ≠ 0));
  read_string := take_bytes;
  read_message M := take_message;
  read_singular_message_into_field M merge new := λ '(o, i),
    match take_message merge new i with
    | (i, Ok m) => ((Some m, i), Ok ())
    | (i, Err e) => ((o, i), Err e)
    | (i, Panic) => ((o, i), Panic)
    end;
  read_repeated_packed_int64_into := take_packed to_i64;
  read_repeated_packed_uint64_into := take_packed (λ n, n);
  read_unknown_or_skip_group tag := fail InvalidData;
  int64_size f v := N.of_nat (length (put (8 * f) ++ put (of_i64 v)));
  uint64_size f v := N.of_nat (length (put (8 * f) ++ put v));
  string_size f v := N.of_nat (length (put (8 * f + 2) ++ put (N.of_nat (length v)) ++ v));
  compute_raw_varint64_size n := N.of_nat (length (put n));
  unknown_fields_size _ := 0;
  UnknownFields_new := ();
  written o := o;
  failed o := false;
  utf8 v := true;
}.

(** ** The laws *)
Lemma emits_append b : emits (O:=list byte) (E:=ErrorKind) (append b) b.
Proof. by intros o. Qed.

Lemma tag_read tag rest :
  tag < 128 → read_raw_tag_or_eof (Protobuf:=wire) (put tag ++ rest) = (rest, Ok (Some tag)).
Proof.
  intros Ht. rewrite put_small by done. cbn [read_raw_tag_or_eof wire app].
  unfold take_mapped, mbind, sm_bind. by rewrite take_byte by done.
Qed.

(** A tag, and what a reader takes. *)
Lemma wire_encodes {A} tag b (rd : sm (list byte) ErrorKind A) v :
  tag < 128 → (∀ rest, rd (b ++ rest) = (rest, Ok v)) →
  encodes (append (put tag ++ b)) (N.of_nat (length (put tag ++ b))) tag rd v.
Proof.
  intros Ht Hr. exists (put tag ++ b). split; [apply emits_append|]. split; [done|].
  intros rest. exists (b ++ rest). split; [|done]. rewrite <-app_assoc. by apply tag_read.
Qed.

Lemma take_mapped_put {A} (g : N → A) n rest : n < 2 ^ 64 → take_mapped g (put n ++ rest) = (rest, Ok (g n)).
Proof. intros Hn. unfold take_mapped, mbind, sm_bind. by rewrite take_put. Qed.

Lemma take_bytes_put b rest :
  N.of_nat (length b) < 2 ^ 64 → take_bytes (put (N.of_nat (length b)) ++ b ++ rest) = (rest, Ok b).
Proof.
  intros Hb. unfold take_bytes. rewrite take_put by done. rewrite Nat2N.id, length_app.
  rewrite decide_True by lia. by rewrite drop_app_length, take_app_length.
Qed.

Lemma i64_roundtrip v : i64 v → of_i64 v < 2 ^ 64 ∧ to_i64 (of_i64 v) = v.
Proof.
  unfold i64, of_i64, to_i64, wrap. intros Hv. pose proof (Z.mod_pos_bound v (2 ^ 64) eq_refl) as Hm.
  split; [lia|]. rewrite Z2N.id by lia. rewrite Z.mod_mod by lia. simpl.
  destruct (Z_lt_le_dec v 0).
  - rewrite <-(Z.mod_unique v (2 ^ 64) (-1) (v + 2 ^ 64)) by lia. case_match eqn:H; [|lia]. apply Z.ltb_lt in H. lia.
  - rewrite Z.mod_small by lia. case_match eqn:H; [done|]. apply Z.ltb_ge in H. lia.
Qed.

Lemma take_mapped_consumes {A} (g : N → A) : consumes (take_mapped g).
Proof.
  intros i. destruct (read_varint_consumes 10 i) as [H1 H2]. unfold take_mapped, take_varint, mbind, sm_bind.
  by destruct (read_varint 10 i) as [i' [n|e|]].
Qed.
Lemma take_bytes_consumes i :
  (length (take_bytes i).1 ≤ length i)%nat ∧ (take_bytes i).2 ≠ Panic.
Proof.
  destruct (read_varint_consumes 10 i) as [H1 H2]. unfold take_bytes, take_varint.
  destruct (read_varint 10 i) as [i' [n|e|]]; simpl in *; [|done..].
  case_decide; simpl; [rewrite length_drop; split; [lia|done]|done].
Qed.
Lemma take_message_consumes {M} (merge : sm (M * list byte) ErrorKind ()) new :
  consumes_into merge → consumes (take_message merge new).
Proof.
  intros Hm i. destruct (take_bytes_consumes i) as [H1 H2]. unfold take_message.
  destruct (take_bytes i) as [i' [b|e|]]; simpl in *; [|done..].
  destruct (Hm new b) as [H3 H4]. by destruct (merge (new, b)) as [[m i2] [[]|e|]].
Qed.
Lemma packed_no_panic fuel i : packed fuel i ≠ Panic.
Proof.
  revert i. induction fuel as [|fuel IH]; intros i; [done|]. destruct i as [|b i]; [done|]. cbn [packed].
  pose proof (read_varint_consumes 10 (b :: i)) as [_ H]. unfold take_varint.
  destruct (read_varint 10 (b :: i)) as [i' [n|e|]]; simpl in *; [|done..].
  specialize (IH i'). by destruct (packed fuel i').
Qed.
Lemma take_packed_consumes {A} (g : N → A) : consumes_into (take_packed g).
Proof.
  intros l i. destruct (take_bytes_consumes i) as [H1 H2]. unfold take_packed.
  destruct (take_bytes i) as [i' [b|e|]]; cbn [fst snd] in *; [|done..].
  pose proof (packed_no_panic (S (length b)) b) as H. by destruct (packed (S (length b)) b).
Qed.

Lemma wire_message {M} f b w (merge : sm (M * list byte) ErrorKind ()) new m :
  0 < f < 16 → emits w b → N.of_nat (length b) < 2 ^ 32 → merge (new, b) = ((m, []), Ok ()) →
  encodes (write_message_field_with_cached_size f (N.of_nat (length b)) w)
    (1 + compute_raw_varint64_size (N.of_nat (length b)) + N.of_nat (length b))
    (8 * f + 2) (read_message merge new) m.
Proof.
  intros Hf Hw Hb Hm. set (tag := 8 * f + 2).
  exists ((put tag ++ put (N.of_nat (length b))) ++ b). split; [|split].
  - apply emits_bind; [apply emits_append|done].
  - rewrite !length_app, (put_small tag) by lia. cbn [compute_raw_varint64_size wire length]. lia.
  - intros rest. exists ((put (N.of_nat (length b)) ++ b) ++ rest). split.
    + rewrite <-!app_assoc. apply tag_read. lia.
    + cbn [read_message wire]. unfold take_message. rewrite <-app_assoc, take_bytes_put by lia. by rewrite Hm.
Qed.

#[export] Instance wire_laws : ProtobufLaws (list byte) () ErrorKind.
Proof.
  split.
  - intros f v Hf Hv. destruct (i64_roundtrip v Hv) as [H1 H2]. apply wire_encodes; [lia|].
    intros rest. cbn [read_int64 wire]. rewrite take_mapped_put by done. by rewrite H2.
  - intros f v Hf Hv. apply wire_encodes; [lia|]. intros rest. by apply take_put.
  - intros f v Hf. replace 2 with (N.of_nat (length (put (8 * f) ++ put (if v then 1 else 0)))).
    + apply wire_encodes; [lia|]. intros rest. cbn [read_bool wire]. rewrite take_mapped_put by (by destruct v).
      by destruct v.
    + rewrite length_app, !put_small by (lia || by destruct v). done.
  - intros f v Hf _ Hv. apply wire_encodes; [lia|]. intros rest. rewrite <-app_assoc. apply take_bytes_put. lia.
  - intros M f b w merge new m. apply wire_message.
  - intros M merge new i i' m Hr. cbn [read_singular_message_into_field wire]. cbn [read_message wire] in Hr.
    by rewrite Hr.
  - apply emits_ret.
  - done.
  - done.
  - intros [|b i]; [by split; [lia|]|]. cbn [read_raw_tag_or_eof wire]. unfold take_mapped, take_varint, mbind, sm_bind.
    pose proof (read_varint_shorter 10 (b :: i)) as H. destruct (read_varint 10 (b :: i)) as [i' [n|e|]]; [done|by split|done].
  - apply take_mapped_consumes.
  - apply read_varint_consumes.
  - apply take_mapped_consumes.
  - intros i. apply take_bytes_consumes.
  - intros M merge new. apply take_message_consumes.
  - intros M merge new Hm o i. destruct (take_message_consumes merge new Hm i) as [H1 H2].
    cbn [read_singular_message_into_field wire]. by destruct (take_message merge new i) as [i' [m|e|]].
  - apply take_packed_consumes.
  - apply take_packed_consumes.
  - by intros tag u i.
Qed.
