(* ===== verification/Gperf.v ===== *)
(** * crates/pprof/src/gperf/gperf.rs: the messages of gperf.proto

    The file is what rust-protobuf makes of proto/gperf.proto: a module for each of its
    messages, with the fields of the struct, [new] and the methods of [protobuf::Message], over
    the runtime of [Protobuf.v]. *)

From S2P Require Import Prelude Protobuf Wire.

Create HintDb protobuf discriminated.
#[export] Hint Resolve reads_consumes reads_into_consumes merge_loop_consumes law_read_int64 law_read_uint64
  law_read_bool law_read_string law_read_message law_read_singular law_read_packed_int64 law_read_packed_uint64
  law_read_unknown merge_consumes : protobuf.

(** A field that is written unless it has its default. *)
Ltac code_field Hfield Hv getter setter :=
  eapply codes_unless with (get := getter) (set := setter);
  [apply _
  |eapply codes_field;
    [exact Hfield|first [apply law_int64; [lia|apply Hv]|apply law_uint64; [lia|apply Hv]|apply law_bool; lia]
    |reflexivity]
  |reflexivity].
(** The items of a repeated field. *)
Ltac code_repeated Hfield Hl getter setter :=
  eapply codes_repeated with (get := getter) (set := setter);
  [exact Hfield|apply _
  |eapply Forall_impl; [apply Hl|];
   intros x Hx; first [apply law_int64; [lia|exact Hx]|apply law_uint64; [lia|exact Hx]
    |apply law_string; [lia|apply Hx..]]
  |reflexivity].
Ltac size_sum Hu := simpl; rewrite Hu, law_no_unknown_size, !N.add_assoc; reflexivity.

(** ** message ValueType *)
Module ValueType.
Record t {U : Type} := {
  type_ : Z;
  unit : Z;
  special_fields_ : SpecialFields U;
}.
Arguments t : clear implicits.

Section message.
Context {O U E : Type} `{!Protobuf O U E}.

Definition new : t U :=
  {| type_ := 0%Z; unit := 0%Z; special_fields_ := SpecialFields_new |}.
Definition set_type_ (x : Z) (m : t U) : t U :=
  {| type_ := x; unit := unit m; special_fields_ := special_fields_ m |}.
Definition set_unit (x : Z) (m : t U) : t U :=
  {| type_ := type_ m; unit := x; special_fields_ := special_fields_ m |}.
Definition set_special_fields (x : SpecialFields U) (m : t U) : t U :=
  {| type_ := type_ m; unit := unit m; special_fields_ := x |}.

(** [special_clear] is [SpecialFields::clear]. *)
Definition clear (special_clear : SpecialFields U → SpecialFields U) (m : t U) : t U :=
  {| type_ := 0%Z; unit := 0%Z; special_fields_ := special_clear (special_fields_ m) |}.

Definition merge_field (tag : N) : sm (t U * list byte) E () :=
  match tag with
  | 8 => reads read_int64 set_type_
  | 16 => reads read_int64 set_unit
  | tag => reads_into (λ m, unknown_fields (special_fields_ m))
      (λ u m, set_special_fields (set_unknown_fields u (special_fields_ m)) m)
      (read_unknown_or_skip_group tag)
  end%N.
Definition merge_from : sm (t U * list byte) E () := merge_loop merge_field.

Definition compute_size (m : t U) : t U * N :=
  let my_size := (
    (if decide (type_ m ≠ 0%Z) then int64_size 1 (type_ m) else 0) +
    (if decide (unit m ≠ 0%Z) then int64_size 2 (unit m) else 0) +
    unknown_fields_size (unknown_fields (special_fields_ m)))%N in
  (set_special_fields (set_cached_size my_size (special_fields_ m)) m, my_size).

Definition write_to_with_cached_sizes (m : t U) : sm O E () :=
  (if decide (type_ m ≠ 0%Z) then write_int64 1 (type_ m) else mret ());;
  (if decide (unit m ≠ 0%Z) then write_int64 2 (unit m) else mret ());;
  write_unknown_fields (unknown_fields (special_fields_ m)).

#[global] Instance message : Message O U E (t U) := {
  message_new := new;
  merge_from := merge_from;
  compute_size := compute_size;
  write_to_with_cached_sizes := write_to_with_cached_sizes;
  special_fields := special_fields_;
}.

(** The integers have their width, the strings are UTF-8, and no field is unknown. *)
Record valid (m : t U) : Prop := {
  valid_type_ : i64 (type_ m);
  valid_unit : i64 (unit m);
  valid_special_fields : unknown_fields (special_fields_ m) = UnknownFields_new;
}.
Definition fresh (m : t U) : t U :=
  set_special_fields (set_cached_size 0 (special_fields_ m)) m.

Section codec.
Context `{!ProtobufLaws O U E}.

Lemma ValueType_merge_field_consumes tag : consumes_into (merge_field tag).
Proof. unfold merge_field. repeat case_match; auto with protobuf. Qed.

Lemma ValueType_merge_from_consumes : consumes_into merge_from.
Proof. exact (merge_loop_consumes _ ValueType_merge_field_consumes). Qed.

Lemma ValueType_codec m m' n :
  valid m → compute_size m = (m', n) → (n < 2 ^ 32)%N →
  get_cached_size m' = n ∧ fresh m' = fresh m ∧
  ∃ b, emits (write_to_with_cached_sizes m') b ∧ N.of_nat (length b) = n ∧
    merge_from (new, b) = ((fresh m, []), Ok ()).
Proof.
  intros Hv [= <- <-] Hn. split; [exact (N.mod_small _ _ Hn)|]. split; [done|].
  eapply codes_message, codes_eq.
  - eapply codes_bind; [code_field ValueType_merge_field_consumes Hv (@type_ U) set_type_|].
    eapply codes_bind; [code_field ValueType_merge_field_consumes Hv (@unit U) set_unit|].
    apply codes_nil. simpl. rewrite (valid_special_fields _ Hv). apply law_no_unknown.
  - size_sum (valid_special_fields _ Hv).
  - destruct m as [? ? [u c]], Hv; simpl in *. by subst.
Qed.
#[global] Instance ValueType_laws : MessageLaws (t U) valid fresh.
Proof. split; [exact ValueType_merge_from_consumes|exact ValueType_codec]. Qed.
End codec.
End message.
#[global] Hint Resolve ValueType_merge_from_consumes : protobuf.
End ValueType.

(** ** message Label *)
Module Label.
Record t {U : Type} := {
  key : Z;
  str : Z;
  num : Z;
  num_unit : Z;
  special_fields_ : SpecialFields U;
}.
Arguments t : clear implicits.

Section message.
Context {O U E : Type} `{!Protobuf O U E}.

Definition new : t U :=
  {| key := 0%Z; str := 0%Z; num := 0%Z; num_unit := 0%Z; special_fields_ := SpecialFields_new |}.
Definition set_key (x : Z) (m : t U) : t U :=
  {| key := x; str := str m; num := num m; num_unit := num_unit m;
     special_fields_ := special_fields_ m |}.
Definition set_str (x : Z) (m : t U) : t U :=
  {| key := key m; str := x; num := num m; num_unit := num_unit m;
     special_fields_ := special_fields_ m |}.
Definition set_num (x : Z) (m : t U) : t U :=
  {| key := key m; str := str m; num := x; num_unit := num_unit m;
     special_fields_ := special_fields_ m |}.
Definition set_num_unit (x : Z) (m : t U) : t U :=
  {| key := key m; str := str m; num := num m; num_unit := x;
     special_fields_ := special_fields_ m |}.
Definition set_special_fields (x : SpecialFields U) (m : t U) : t U :=
  {| key := key m; str := str m; num := num m; num_unit := num_unit m; special_fields_ := x |}.

(** [special_clear] is [SpecialFields::clear]. *)
Definition clear (special_clear : SpecialFields U → SpecialFields U) (m : t U) : t U :=
  {| key := 0%Z; str := 0%Z; num := 0%Z; num_unit := 0%Z;
     special_fields_ := special_clear (special_fields_ m) |}.

Definition merge_field (tag : N) : sm (t U * list byte) E () :=
  match tag with
  | 8 => reads read_int64 set_key
  | 16 => reads read_int64 set_str
  | 24 => reads read_int64 set_num
  | 32 => reads read_int64 set_num_unit
  | tag => reads_into (λ m, unknown_fields (special_fields_ m))
      (λ u m, set_special_fields (set_unknown_fields u (special_fields_ m)) m)
      (read_unknown_or_skip_group tag)
  end%N.
Definition merge_from : sm (t U * list byte) E () := merge_loop merge_field.

Definition compute_size (m : t U) : t U * N :=
  let my_size := (
    (if decide (key m ≠ 0%Z) then int64_size 1 (key m) else 0) +
    (if decide (str m ≠ 0%Z) then int64_size 2 (str m) else 0) +
    (if decide (num m ≠ 0%Z) then int64_size 3 (num m) else 0) +
    (if decide (num_unit m ≠ 0%Z) then int64_size 4 (num_unit m) else 0) +
    unknown_fields_size (unknown_fields (special_fields_ m)))%N in
  (set_special_fields (set_cached_size my_size (special_fields_ m)) m, my_size).

Definition write_to_with_cached_sizes (m : t U) : sm O E () :=
  (if decide (key m ≠ 0%Z) then write_int64 1 (key m) else mret ());;
  (if decide (str m ≠ 0%Z) then write_int64 2 (str m) else mret ());;
  (if decide (num m ≠ 0%Z) then write_int64 3 (num m) else mret ());;
  (if decide (num_unit m ≠ 0%Z) then write_int64 4 (num_unit m) else mret ());;
  write_unknown_fields (unknown_fields (special_fields_ m)).

#[global] Instance message : Message O U E (t U) := {
  message_new := new;
  merge_from := merge_from;
  compute_size := compute_size;
  write_to_with_cached_sizes := write_to_with_cached_sizes;
  special_fields := special_fields_;
}.

(** The integers have their width, the strings are UTF-8, and no field is unknown. *)
Record valid (m : t U) : Prop := {
  valid_key : i64 (key m);
  valid_str : i64 (str m);
  valid_num : i64 (num m);
  valid_num_unit : i64 (num_unit m);
  valid_special_fields : unknown_fields (special_fields_ m) = UnknownFields_new;
}.
Definition fresh (m : t U) : t U :=
  set_special_fields (set_cached_size 0 (special_fields_ m)) m.

Section codec.
Context `{!ProtobufLaws O U E}.

Lemma Label_merge_field_consumes tag : consumes_into (merge_field tag).
Proof. unfold merge_field. repeat case_match; auto with protobuf. Qed.

Lemma Label_merge_from_consumes : consumes_into merge_from.
Proof. exact (merge_loop_consumes _ Label_merge_field_consumes). Qed.

Lemma Label_codec m m' n :
  valid m → compute_size m = (m', n) → (n < 2 ^ 32)%N →
  get_cached_size m' = n ∧ fresh m' = fresh m ∧
  ∃ b, emits (write_to_with_cached_sizes m') b ∧ N.of_nat (length b) = n ∧
    merge_from (new, b) = ((fresh m, []), Ok ()).
Proof.
  intros Hv [= <- <-] Hn. split; [exact (N.mod_small _ _ Hn)|]. split; [done|].
  eapply codes_message, codes_eq.
  - eapply codes_bind; [code_field Label_merge_field_consumes Hv (@key U) set_key|].
    eapply codes_bind; [code_field Label_merge_field_consumes Hv (@str U) set_str|].
    eapply codes_bind; [code_field Label_merge_field_consumes Hv (@num U) set_num|].
    eapply codes_bind; [code_field Label_merge_field_consumes Hv (@num_unit U) set_num_unit|].
    apply codes_nil. simpl. rewrite (valid_special_fields _ Hv). apply law_no_unknown.
  - size_sum (valid_special_fields _ Hv).
  - destruct m as [? ? ? ? [u c]], Hv; simpl in *. by subst.
Qed.
#[global] Instance Label_laws : MessageLaws (t U) valid fresh.
Proof. split; [exact Label_merge_from_consumes|exact Label_codec]. Qed.
End codec.
End message.
#[global] Hint Resolve Label_merge_from_consumes : protobuf.
End Label.

(** ** message Line *)
Module Line.
Record t {U : Type} := {
  function_id : N;
  line : Z;
  column : Z;
  special_fields_ : SpecialFields U;
}.
Arguments t : clear implicits.

Section message.
Context {O U E : Type} `{!Protobuf O U E}.

Definition new : t U :=
  {| function_id := 0%N; line := 0%Z; column := 0%Z; special_fields_ := SpecialFields_new |}.
Definition set_function_id (x : N) (m : t U) : t U :=
  {| function_id := x; line := line m; column := column m; special_fields_ := special_fields_ m |}.
Definition set_line (x : Z) (m : t U) : t U :=
  {| function_id := function_id m; line := x; column := column m;
     special_fields_ := special_fields_ m |}.
Definition set_column (x : Z) (m : t U) : t U :=
  {| function_id := function_id m; line := line m; column := x;
     special_fields_ := special_fields_ m |}.
Definition set_special_fields (x : SpecialFields U) (m : t U) : t U :=
  {| function_id := function_id m; line := line m; column := column m; special_fields_ := x |}.

(** [special_clear] is [SpecialFields::clear]. *)
Definition clear (special_clear : SpecialFields U → SpecialFields U) (m : t U) : t U :=
  {| function_id := 0%N; line := 0%Z; column := 0%Z;
     special_fields_ := special_clear (special_fields_ m) |}.

Definition merge_field (tag : N) : sm (t U * list byte) E () :=
  match tag with
  | 8 => reads read_uint64 set_function_id
  | 16 => reads read_int64 set_line
  | 24 => reads read_int64 set_column
  | tag => reads_into (λ m, unknown_fields (special_fields_ m))
      (λ u m, set_special_fields (set_unknown_fields u (special_fields_ m)) m)
      (read_unknown_or_skip_group tag)
  end%N.
Definition merge_from : sm (t U * list byte) E () := merge_loop merge_field.

Definition compute_size (m : t U) : t U * N :=
  let my_size := (
    (if decide (function_id m ≠ 0%N) then uint64_size 1 (function_id m) else 0) +
    (if decide (line m ≠ 0%Z) then int64_size 2 (line m) else 0) +
    (if decide (column m ≠ 0%Z) then int64_size 3 (column m) else 0) +
    unknown_fields_size (unknown_fields (special_fields_ m)))%N in
  (set_special_fields (set_cached_size my_size (special_fields_ m)) m, my_size).

Definition write_to_with_cached_sizes (m : t U) : sm O E () :=
  (if decide (function_id m ≠ 0%N) then write_uint64 1 (function_id m) else mret ());;
  (if decide (line m ≠ 0%Z) then write_int64 2 (line m) else mret ());;
  (if decide (column m ≠ 0%Z) then write_int64 3 (column m) else mret ());;
  write_unknown_fields (unknown_fields (special_fields_ m)).

#[global] Instance message : Message O U E (t U) := {
  message_new := new;
  merge_from := merge_from;
  compute_size := compute_size;
  write_to_with_cached_sizes := write_to_with_cached_sizes;
  special_fields := special_fields_;
}.

(** The integers have their width, the strings are UTF-8, and no field is unknown. *)
Record valid (m : t U) : Prop := {
  valid_function_id : u64 (function_id m);
  valid_line : i64 (line m);
  valid_column : i64 (column m);
  valid_special_fields : unknown_fields (special_fields_ m) = UnknownFields_new;
}.
Definition fresh (m : t U) : t U :=
  set_special_fields (set_cached_size 0 (special_fields_ m)) m.

Section codec.
Context `{!ProtobufLaws O U E}.

Lemma Line_merge_field_consumes tag : consumes_into (merge_field tag).
Proof. unfold merge_field. repeat case_match; auto with protobuf. Qed.

Lemma Line_merge_from_consumes : consumes_into merge_from.
Proof. exact (merge_loop_consumes _ Line_merge_field_consumes). Qed.

Lemma Line_codec m m' n :
  valid m → compute_size m = (m', n) → (n < 2 ^ 32)%N →
  get_cached_size m' = n ∧ fresh m' = fresh m ∧
  ∃ b, emits (write_to_with_cached_sizes m') b ∧ N.of_nat (length b) = n ∧
    merge_from (new, b) = ((fresh m, []), Ok ()).
Proof.
  intros Hv [= <- <-] Hn. split; [exact (N.mod_small _ _ Hn)|]. split; [done|].
  eapply codes_message, codes_eq.
  - eapply codes_bind; [code_field Line_merge_field_consumes Hv (@function_id U) set_function_id|].
    eapply codes_bind; [code_field Line_merge_field_consumes Hv (@line U) set_line|].
    eapply codes_bind; [code_field Line_merge_field_consumes Hv (@column U) set_column|].
    apply codes_nil. simpl. rewrite (valid_special_fields _ Hv). apply law_no_unknown.
  - size_sum (valid_special_fields _ Hv).
  - destruct m as [? ? ? [u c]], Hv; simpl in *. by subst.
Qed.
#[global] Instance Line_laws : MessageLaws (t U) valid fresh.
Proof. split; [exact Line_merge_from_consumes|exact Line_codec]. Qed.
End codec.
End message.
#[global] Hint Resolve Line_merge_from_consumes : protobuf.
End Line.

(** ** message Function *)
Module Function_.
Record t {U : Type} := {
  id : N;
  name : Z;
  system_name : Z;
  filename : Z;
  start_line : Z;
  special_fields_ : SpecialFields U;
}.
Arguments t : clear implicits.

Section message.
Context {O U E : Type} `{!Protobuf O U E}.

Definition new : t U :=
  {| id := 0%N; name := 0%Z; system_name := 0%Z; filename := 0%Z; start_line := 0%Z;
     special_fields_ := SpecialFields_new |}.
Definition set_id (x : N) (m : t U) : t U :=
  {| id := x; name := name m; system_name := system_name m; filename := filename m;
     start_line := start_line m; special_fields_ := special_fields_ m |}.
Definition set_name (x : Z) (m : t U) : t U :=
  {| id := id m; name := x; system_name := system_name m; filename := filename m;
     start_line := start_line m; special_fields_ := special_fields_ m |}.
Definition set_system_name (x : Z) (m : t U) : t U :=
  {| id := id m; name := name m; system_name := x; filename := filename m;
     start_line := start_line m; special_fields_ := special_fields_ m |}.
Definition set_filename (x : Z) (m : t U) : t U :=
  {| id := id m; name := name m; system_name := system_name m; filename := x;
     start_line := start_line m; special_fields_ := special_fields_ m |}.
Definition set_start_line (x : Z) (m : t U) : t U :=
  {| id := id m; name := name m; system_name := system_name m; filename := filename m;
     start_line := x; special_fields_ := special_fields_ m |}.
Definition set_special_fields (x : SpecialFields U) (m : t U) : t U :=
  {| id := id m; name := name m; system_name := system_name m; filename := filename m;
     start_line := start_line m; special_fields_ := x |}.

(** [special_clear] is [SpecialFields::clear]. *)
Definition clear (special_clear : SpecialFields U → SpecialFields U) (m : t U) : t U :=
  {| id := 0%N; name := 0%Z; system_name := 0%Z; filename := 0%Z; start_line := 0%Z;
     special_fields_ := special_clear (special_fields_ m) |}.

Definition merge_field (tag : N) : sm (t U * list byte) E () :=
  match tag with
  | 8 => reads read_uint64 set_id
  | 16 => reads read_int64 set_name
  | 24 => reads read_int64 set_system_name
  | 32 => reads read_int64 set_filename
  | 40 => reads read_int64 set_start_line
  | tag => reads_into (λ m, unknown_fields (special_fields_ m))
      (λ u m, set_special_fields (set_unknown_fields u (special_fields_ m)) m)
      (read_unknown_or_skip_group tag)
  end%N.
Definition merge_from : sm (t U * list byte) E () := merge_loop merge_field.

Definition compute_size (m : t U) : t U * N :=
  let my_size := (
    (if decide (id m ≠ 0%N) then uint64_size 1 (id m) else 0) +
    (if decide (name m ≠ 0%Z) then int64_size 2 (name m) else 0) +
    (if decide (system_name m ≠ 0%Z) then int64_size 3 (system_name m) else 0) +
    (if decide (filename m ≠ 0%Z) then int64_size 4 (filename m) else 0) +
    (if decide (start_line m ≠ 0%Z) then int64_size 5 (start_line m) else 0) +
    unknown_fields_size (unknown_fields (special_fields_ m)))%N in
  (set_special_fields (set_cached_size my_size (special_fields_ m)) m, my_size).

Definition write_to_with_cached_sizes (m : t U) : sm O E () :=
  (if decide (id m ≠ 0%N) then write_uint64 1 (id m) else mret ());;
  (if decide (name m ≠ 0%Z) then write_int64 2 (name m) else mret ());;
  (if decide (system_name m ≠ 0%Z) then write_int64 3 (system_name m) else mret ());;
  (if decide (filename m ≠ 0%Z) then write_int64 4 (filename m) else mret ());;
  (if decide (start_line m ≠ 0%Z) then write_int64 5 (start_line m) else mret ());;
  write_unknown_fields (unknown_fields (special_fields_ m)).

#[global] Instance message : Message O U E (t U) := {
  message_new := new;
  merge_from := merge_from;
  compute_size := compute_size;
  write_to_with_cached_sizes := write_to_with_cached_sizes;
  special_fields := special_fields_;
}.

(** The integers have their width, the strings are UTF-8, and no field is unknown. *)
Record valid (m : t U) : Prop := {
  valid_id : u64 (id m);
  valid_name : i64 (name m);
  valid_system_name : i64 (system_name m);
  valid_filename : i64 (filename m);
  valid_start_line : i64 (start_line m);
  valid_special_fields : unknown_fields (special_fields_ m) = UnknownFields_new;
}.
Definition fresh (m : t U) : t U :=
  set_special_fields (set_cached_size 0 (special_fields_ m)) m.

Section codec.
Context `{!ProtobufLaws O U E}.

Lemma Function_merge_field_consumes tag : consumes_into (merge_field tag).
Proof. unfold merge_field. repeat case_match; auto with protobuf. Qed.

Lemma Function_merge_from_consumes : consumes_into merge_from.
Proof. exact (merge_loop_consumes _ Function_merge_field_consumes). Qed.

Lemma Function_codec m m' n :
  valid m → compute_size m = (m', n) → (n < 2 ^ 32)%N →
  get_cached_size m' = n ∧ fresh m' = fresh m ∧
  ∃ b, emits (write_to_with_cached_sizes m') b ∧ N.of_nat (length b) = n ∧
    merge_from (new, b) = ((fresh m, []), Ok ()).
Proof.
  intros Hv [= <- <-] Hn. split; [exact (N.mod_small _ _ Hn)|]. split; [done|].
  eapply codes_message, codes_eq.
  - eapply codes_bind; [code_field Function_merge_field_consumes Hv (@id U) set_id|].
    eapply codes_bind; [code_field Function_merge_field_consumes Hv (@name U) set_name|].
    eapply codes_bind; [code_field Function_merge_field_consumes Hv (@system_name U) set_system_name|].
    eapply codes_bind; [code_field Function_merge_field_consumes Hv (@filename U) set_filename|].
    eapply codes_bind; [code_field Function_merge_field_consumes Hv (@start_line U) set_start_line|].
    apply codes_nil. simpl. rewrite (valid_special_fields _ Hv). apply law_no_unknown.
  - size_sum (valid_special_fields _ Hv).
  - destruct m as [? ? ? ? ? [u c]], Hv; simpl in *. by subst.
Qed.
#[global] Instance Function_laws : MessageLaws (t U) valid fresh.
Proof. split; [exact Function_merge_from_consumes|exact Function_codec]. Qed.
End codec.
End message.
#[global] Hint Resolve Function_merge_from_consumes : protobuf.
End Function_.

(** ** message Mapping *)
Module Mapping.
Record t {U : Type} := {
  id : N;
  memory_start : N;
  memory_limit : N;
  file_offset : N;
  filename : Z;
  build_id : Z;
  has_functions : bool;
  has_filenames : bool;
  has_line_numbers : bool;
  has_inline_frames : bool;
  special_fields_ : SpecialFields U;
}.
Arguments t : clear implicits.

Section message.
Context {O U E : Type} `{!Protobuf O U E}.

Definition new : t U :=
  {| id := 0%N; memory_start := 0%N; memory_limit := 0%N; file_offset := 0%N; filename := 0%Z;
     build_id := 0%Z; has_functions := false; has_filenames := false; has_line_numbers := false;
     has_inline_frames := false; special_fields_ := SpecialFields_new |}.
Definition set_id (x : N) (m : t U) : t U :=
  {| id := x; memory_start := memory_start m; memory_limit := memory_limit m;
     file_offset := file_offset m; filename := filename m; build_id := build_id m;
     has_functions := has_functions m; has_filenames := has_filenames m;
     has_line_numbers := has_line_numbers m; has_inline_frames := has_inline_frames m;
     special_fields_ := special_fields_ m |}.
Definition set_memory_start (x : N) (m : t U) : t U :=
  {| id := id m; memory_start := x; memory_limit := memory_limit m; file_offset := file_offset m;
     filename := filename m; build_id := build_id m; has_functions := has_functions m;
     has_filenames := has_filenames m; has_line_numbers := has_line_numbers m;
     has_inline_frames := has_inline_frames m; special_fields_ := special_fields_ m |}.
Definition set_memory_limit (x : N) (m : t U) : t U :=
  {| id := id m; memory_start := memory_start m; memory_limit := x; file_offset := file_offset m;
     filename := filename m; build_id := build_id m; has_functions := has_functions m;
     has_filenames := has_filenames m; has_line_numbers := has_line_numbers m;
     has_inline_frames := has_inline_frames m; special_fields_ := special_fields_ m |}.
Definition set_file_offset (x : N) (m : t U) : t U :=
  {| id := id m; memory_start := memory_start m; memory_limit := memory_limit m; file_offset := x;
     filename := filename m; build_id := build_id m; has_functions := has_functions m;
     has_filenames := has_filenames m; has_line_numbers := has_line_numbers m;
     has_inline_frames := has_inline_frames m; special_fields_ := special_fields_ m |}.
Definition set_filename (x : Z) (m : t U) : t U :=
  {| id := id m; memory_start := memory_start m; memory_limit := memory_limit m;
     file_offset := file_offset m; filename := x; build_id := build_id m;
     has_functions := has_functions m; has_filenames := has_filenames m;
     has_line_numbers := has_line_numbers m; has_inline_frames := has_inline_frames m;
     special_fields_ := special_fields_ m |}.
Definition set_build_id (x : Z) (m : t U) : t U :=
  {| id := id m; memory_start := memory_start m; memory_limit := memory_limit m;
     file_offset := file_offset m; filename := filename m; build_id := x;
     has_functions := has_functions m; has_filenames := has_filenames m;
     has_line_numbers := has_line_numbers m; has_inline_frames := has_inline_frames m;
     special_fields_ := special_fields_ m |}.
Definition set_has_functions (x : bool) (m : t U) : t U :=
  {| id := id m; memory_start := memory_start m; memory_limit := memory_limit m;
     file_offset := file_offset m; filename := filename m; build_id := build_id m;
     has_functions := x; has_filenames := has_filenames m; has_line_numbers := has_line_numbers m;
     has_inline_frames := has_inline_frames m; special_fields_ := special_fields_ m |}.
Definition set_has_filenames (x : bool) (m : t U) : t U :=
  {| id := id m; memory_start := memory_start m; memory_limit := memory_limit m;
     file_offset := file_offset m; filename := filename m; build_id := build_id m;
     has_functions := has_functions m; has_filenames := x; has_line_numbers := has_line_numbers m;
     has_inline_frames := has_inline_frames m; special_fields_ := special_fields_ m |}.
Definition set_has_line_numbers (x : bool) (m : t U) : t U :=
  {| id := id m; memory_start := memory_start m; memory_limit := memory_limit m;
     file_offset := file_offset m; filename := filename m; build_id := build_id m;
     has_functions := has_functions m; has_filenames := has_filenames m; has_line_numbers := x;
     has_inline_frames := has_inline_frames m; special_fields_ := special_fields_ m |}.
Definition set_has_inline_frames (x : bool) (m : t U) : t U :=
  {| id := id m; memory_start := memory_start m; memory_limit := memory_limit m;
     file_offset := file_offset m; filename := filename m; build_id := build_id m;
     has_functions := has_functions m; has_filenames := has_filenames m;
     has_line_numbers := has_line_numbers m; has_inline_frames := x;
     special_fields_ := special_fields_ m |}.
Definition set_special_fields (x : SpecialFields U) (m : t U) : t U :=
  {| id := id m; memory_start := memory_start m; memory_limit := memory_limit m;
     file_offset := file_offset m; filename := filename m; build_id := build_id m;
     has_functions := has_functions m; has_filenames := has_filenames m;
     has_line_numbers := has_line_numbers m; has_inline_frames := has_inline_frames m;
     special_fields_ := x |}.

(** [special_clear] is [SpecialFields::clear]. *)
Definition clear (special_clear : SpecialFields U → SpecialFields U) (m : t U) : t U :=
  {| id := 0%N; memory_start := 0%N; memory_limit := 0%N; file_offset := 0%N; filename := 0%Z;
     build_id := 0%Z; has_functions := false; has_filenames := false; has_line_numbers := false;
     has_inline_frames := false; special_fields_ := special_clear (special_fields_ m) |}.

Definition merge_field (tag : N) : sm (t U * list byte) E () :=
  match tag with
  | 8 => reads read_uint64 set_id
  | 16 => reads read_uint64 set_memory_start
  | 24 => reads read_uint64 set_memory_limit
  | 32 => reads read_uint64 set_file_offset
  | 40 => reads read_int64 set_filename
  | 48 => reads read_int64 set_build_id
  | 56 => reads read_bool set_has_functions
  | 64 => reads read_bool set_has_filenames
  | 72 => reads read_bool set_has_line_numbers
  | 80 => reads read_bool set_has_inline_frames
  | tag => reads_into (λ m, unknown_fields (special_fields_ m))
      (λ u m, set_special_fields (set_unknown_fields u (special_fields_ m)) m)
      (read_unknown_or_skip_group tag)
  end%N.
Definition merge_from : sm (t U * list byte) E () := merge_loop merge_field.

Definition compute_size (m : t U) : t U * N :=
  let my_size := (
    (if decide (id m ≠ 0%N) then uint64_size 1 (id m) else 0) +
    (if decide (memory_start m ≠ 0%N) then uint64_size 2 (memory_start m) else 0) +
    (if decide (memory_limit m ≠ 0%N) then uint64_size 3 (memory_limit m) else 0) +
    (if decide (file_offset m ≠ 0%N) then uint64_size 4 (file_offset m) else 0) +
    (if decide (filename m ≠ 0%Z) then int64_size 5 (filename m) else 0) +
    (if decide (build_id m ≠ 0%Z) then int64_size 6 (build_id m) else 0) +
    (if decide (has_functions m ≠ false) then 1 + 1 else 0) +
    (if decide (has_filenames m ≠ false) then 1 + 1 else 0) +
    (if decide (has_line_numbers m ≠ false) then 1 + 1 else 0) +
    (if decide (has_inline_frames m ≠ false) then 1 + 1 else 0) +
    unknown_fields_size (unknown_fields (special_fields_ m)))%N in
  (set_special_fields (set_cached_size my_size (special_fields_ m)) m, my_size).

Definition write_to_with_cached_sizes (m : t U) : sm O E () :=
  (if decide (id m ≠ 0%N) then write_uint64 1 (id m) else mret ());;
  (if decide (memory_start m ≠ 0%N) then write_uint64 2 (memory_start m) else mret ());;
  (if decide (memory_limit m ≠ 0%N) then write_uint64 3 (memory_limit m) else mret ());;
  (if decide (file_offset m ≠ 0%N) then write_uint64 4 (file_offset m) else mret ());;
  (if decide (filename m ≠ 0%Z) then write_int64 5 (filename m) else mret ());;
  (if decide (build_id m ≠ 0%Z) then write_int64 6 (build_id m) else mret ());;
  (if decide (has_functions m ≠ false) then write_bool 7 (has_functions m) else mret ());;
  (if decide (has_filenames m ≠ false) then write_bool 8 (has_filenames m) else mret ());;
  (if decide (has_line_numbers m ≠ false) then write_bool 9 (has_line_numbers m) else mret ());;
  (if decide (has_inline_frames m ≠ false) then write_bool 10 (has_inline_frames m) else mret ());;
  write_unknown_fields (unknown_fields (special_fields_ m)).

#[global] Instance message : Message O U E (t U) := {
  message_new := new;
  merge_from := merge_from;
  compute_size := compute_size;
  write_to_with_cached_sizes := write_to_with_cached_sizes;
  special_fields := special_fields_;
}.

(** The integers have their width, the strings are UTF-8, and no field is unknown. *)
Record valid (m : t U) : Prop := {
  valid_id : u64 (id m);
  valid_memory_start : u64 (memory_start m);
  valid_memory_limit : u64 (memory_limit m);
  valid_file_offset : u64 (file_offset m);
  valid_filename : i64 (filename m);
  valid_build_id : i64 (build_id m);
  valid_special_fields : unknown_fields (special_fields_ m) = UnknownFields_new;
}.
Definition fresh (m : t U) : t U :=
  set_special_fields (set_cached_size 0 (special_fields_ m)) m.

Section codec.
Context `{!ProtobufLaws O U E}.

Lemma Mapping_merge_field_consumes tag : consumes_into (merge_field tag).
Proof. unfold merge_field. repeat case_match; auto with protobuf. Qed.

Lemma Mapping_merge_from_consumes : consumes_into merge_from.
Proof. exact (merge_loop_consumes _ Mapping_merge_field_consumes). Qed.

Lemma Mapping_codec m m' n :
  valid m → compute_size m = (m', n) → (n < 2 ^ 32)%N →
  get_cached_size m' = n ∧ fresh m' = fresh m ∧
  ∃ b, emits (write_to_with_cached_sizes m') b ∧ N.of_nat (length b) = n ∧
    merge_from (new, b) = ((fresh m, []), Ok ()).
Proof.
  intros Hv [= <- <-] Hn. split; [exact (N.mod_small _ _ Hn)|]. split; [done|].
  eapply codes_message, codes_eq.
  - eapply codes_bind; [code_field Mapping_merge_field_consumes Hv (@id U) set_id|].
    eapply codes_bind; [code_field Mapping_merge_field_consumes Hv (@memory_start U) set_memory_start|].
    eapply codes_bind; [code_field Mapping_merge_field_consumes Hv (@memory_limit U) set_memory_limit|].
    eapply codes_bind; [code_field Mapping_merge_field_consumes Hv (@file_offset U) set_file_offset|].
    eapply codes_bind; [code_field Mapping_merge_field_consumes Hv (@filename U) set_filename|].
    eapply codes_bind; [code_field Mapping_merge_field_consumes Hv (@build_id U) set_build_id|].
    eapply codes_bind; [code_field Mapping_merge_field_consumes Hv (@has_functions U) set_has_functions|].
    eapply codes_bind; [code_field Mapping_merge_field_consumes Hv (@has_filenames U) set_has_filenames|].
    eapply codes_bind; [code_field Mapping_merge_field_consumes Hv (@has_line_numbers U) set_has_line_numbers|].
    eapply codes_bind; [code_field Mapping_merge_field_consumes Hv (@has_inline_frames U) set_has_inline_frames|].
    apply codes_nil. simpl. rewrite (valid_special_fields _ Hv). apply law_no_unknown.
  - size_sum (valid_special_fields _ Hv).
  - destruct m as [? ? ? ? ? ? ? ? ? ? [u c]], Hv; simpl in *. by subst.
Qed.
#[global] Instance Mapping_laws : MessageLaws (t U) valid fresh.
Proof. split; [exact Mapping_merge_from_consumes|exact Mapping_codec]. Qed.
End codec.
End message.
#[global] Hint Resolve Mapping_merge_from_consumes : protobuf.
End Mapping.

(** ** message Sample *)
Module Sample.
Record t {U : Type} := {
  location_id : list N;
  value : list Z;
  label : list (Label.t U);
  special_fields_ : SpecialFields U;
}.
Arguments t : clear implicits.

Section message.
Context {O U E : Type} `{!Protobuf O U E}.

Definition new : t U :=
  {| location_id := []; value := []; label := []; special_fields_ := SpecialFields_new |}.
Definition set_location_id (x : list N) (m : t U) : t U :=
  {| location_id := x; value := value m; label := label m; special_fields_ := special_fields_ m |}.
Definition set_value (x : list Z) (m : t U) : t U :=
  {| location_id := location_id m; value := x; label := label m;
     special_fields_ := special_fields_ m |}.
Definition set_label (x : list (Label.t U)) (m : t U) : t U :=
  {| location_id := location_id m; value := value m; label := x;
     special_fields_ := special_fields_ m |}.
Definition set_special_fields (x : SpecialFields U) (m : t U) : t U :=
  {| location_id := location_id m; value := value m; label := label m; special_fields_ := x |}.

(** [special_clear] is [SpecialFields::clear]. *)
Definition clear (special_clear : SpecialFields U → SpecialFields U) (m : t U) : t U :=
  {| location_id := []; value := []; label := [];
     special_fields_ := special_clear (special_fields_ m) |}.

Definition merge_field (tag : N) : sm (t U * list byte) E () :=
  match tag with
  | 10 => reads_into location_id set_location_id read_repeated_packed_uint64_into
  | 8 => reads read_uint64 (push location_id set_location_id)
  | 18 => reads_into value set_value read_repeated_packed_int64_into
  | 16 => reads read_int64 (push value set_value)
  | 26 => reads (read_message Label.merge_from Label.new) (push label set_label)
  | tag => reads_into (λ m, unknown_fields (special_fields_ m))
      (λ u m, set_special_fields (set_unknown_fields u (special_fields_ m)) m)
      (read_unknown_or_skip_group tag)
  end%N.
Definition merge_from : sm (t U * list byte) E () := merge_loop merge_field.

Definition compute_size (m : t U) : t U * N :=
  let '(label', size_label) := message_sizes (label m) in
  let my_size := (
    sum_sizes (uint64_size 1) (location_id m) +
    sum_sizes (int64_size 2) (value m) +
    size_label +
    unknown_fields_size (unknown_fields (special_fields_ m)))%N in
  (set_special_fields (set_cached_size my_size (special_fields_ m)) (set_label label' m), my_size).

Definition write_to_with_cached_sizes (m : t U) : sm O E () :=
  for_each (write_uint64 1) (location_id m);;
  for_each (write_int64 2) (value m);;
  for_each (write_message 3) (label m);;
  write_unknown_fields (unknown_fields (special_fields_ m)).

#[global] Instance message : Message O U E (t U) := {
  message_new := new;
  merge_from := merge_from;
  compute_size := compute_size;
  write_to_with_cached_sizes := write_to_with_cached_sizes;
  special_fields := special_fields_;
}.

(** The integers have their width, the strings are UTF-8, and no field is unknown. *)
Record valid (m : t U) : Prop := {
  valid_location_id : Forall u64 (location_id m);
  valid_value : Forall i64 (value m);
  valid_label : Forall Label.valid (label m);
  valid_special_fields : unknown_fields (special_fields_ m) = UnknownFields_new;
}.
Definition fresh (m : t U) : t U :=
  set_special_fields (set_cached_size 0 (special_fields_ m)) 
    (set_label (Label.fresh <$> label m) m).

Section codec.
Context `{!ProtobufLaws O U E}.

Lemma Sample_merge_field_consumes tag : consumes_into (merge_field tag).
Proof. unfold merge_field. repeat case_match; auto 6 with protobuf. Qed.
Lemma Sample_merge_from_consumes : consumes_into merge_from.
Proof. exact (merge_loop_consumes _ Sample_merge_field_consumes). Qed.

Lemma Sample_codec m m' n :
  valid m → compute_size m = (m', n) → (n < 2 ^ 32)%N →
  get_cached_size m' = n ∧ fresh m' = fresh m ∧
  ∃ b, emits (write_to_with_cached_sizes m') b ∧ N.of_nat (length b) = n ∧
    merge_from (new, b) = ((fresh m, []), Ok ()).
Proof.
  intros Hv Hc Hn. unfold compute_size in Hc. destruct (message_sizes (label m)) as [label' nl] eqn:Hl.
  injection Hc as <- <-.
  destruct (codes_messages merge_field Label.valid Label.fresh Sample_merge_field_consumes 3 (label m) label' nl
    label set_label) as [Hfr Hcl]; [lia|apply Hv|done|lia|done|].
  split; [exact (N.mod_small _ _ Hn)|]. split; [unfold fresh; simpl; by rewrite Hfr|].
  eapply codes_message, codes_eq.
  - eapply codes_bind; [code_repeated Sample_merge_field_consumes (valid_location_id _ Hv) (@location_id U) set_location_id|].
    eapply codes_bind; [code_repeated Sample_merge_field_consumes (valid_value _ Hv) (@value U) set_value|].
    eapply codes_bind; [apply Hcl|].
    apply codes_nil. simpl. rewrite (valid_special_fields _ Hv). apply law_no_unknown.
  - size_sum (valid_special_fields _ Hv).
  - destruct m as [? ? ? [u c]], Hv; simpl in *. by subst.
Qed.
#[global] Instance Sample_laws : MessageLaws (t U) valid fresh.
Proof. split; [exact Sample_merge_from_consumes|exact Sample_codec]. Qed.
End codec.
End message.
#[global] Hint Resolve Sample_merge_from_consumes : protobuf.
End Sample.

(** ** message Location *)
Module Location.
Record t {U : Type} := {
  id : N;
  mapping_id : N;
  address : N;
  line : list (Line.t U);
  is_folded : bool;
  special_fields_ : SpecialFields U;
}.
Arguments t : clear implicits.

Section message.
Context {O U E : Type} `{!Protobuf O U E}.

Definition new : t U :=
  {| id := 0%N; mapping_id := 0%N; address := 0%N; line := []; is_folded := false;
     special_fields_ := SpecialFields_new |}.
Definition set_id (x : N) (m : t U) : t U :=
  {| id := x; mapping_id := mapping_id m; address := address m; line := line m;
     is_folded := is_folded m; special_fields_ := special_fields_ m |}.
Definition set_mapping_id (x : N) (m : t U) : t U :=
  {| id := id m; mapping_id := x; address := address m; line := line m; is_folded := is_folded m;
     special_fields_ := special_fields_ m |}.
Definition set_address (x : N) (m : t U) : t U :=
  {| id := id m; mapping_id := mapping_id m; address := x; line := line m;
     is_folded := is_folded m; special_fields_ := special_fields_ m |}.
Definition set_line (x : list (Line.t U)) (m : t U) : t U :=
  {| id := id m; mapping_id := mapping_id m; address := address m; line := x;
     is_folded := is_folded m; special_fields_ := special_fields_ m |}.
Definition set_is_folded (x : bool) (m : t U) : t U :=
  {| id := id m; mapping_id := mapping_id m; address := address m; line := line m; is_folded := x;
     special_fields_ := special_fields_ m |}.
Definition set_special_fields (x : SpecialFields U) (m : t U) : t U :=
  {| id := id m; mapping_id := mapping_id m; address := address m; line := line m;
     is_folded := is_folded m; special_fields_ := x |}.

(** [special_clear] is [SpecialFields::clear]. *)
Definition clear (special_clear : SpecialFields U → SpecialFields U) (m : t U) : t U :=
  {| id := 0%N; mapping_id := 0%N; address := 0%N; line := []; is_folded := false;
     special_fields_ := special_clear (special_fields_ m) |}.

Definition merge_field (tag : N) : sm (t U * list byte) E () :=
  match tag with
  | 8 => reads read_uint64 set_id
  | 16 => reads read_uint64 set_mapping_id
  | 24 => reads read_uint64 set_address
  | 34 => reads (read_message Line.merge_from Line.new) (push line set_line)
  | 40 => reads read_bool set_is_folded
  | tag => reads_into (λ m, unknown_fields (special_fields_ m))
      (λ u m, set_special_fields (set_unknown_fields u (special_fields_ m)) m)
      (read_unknown_or_skip_group tag)
  end%N.
Definition merge_from : sm (t U * list byte) E () := merge_loop merge_field.

Definition compute_size (m : t U) : t U * N :=
  let '(line', size_line) := message_sizes (line m) in
  let my_size := (
    (if decide (id m ≠ 0%N) then uint64_size 1 (id m) else 0) +
    (if decide (mapping_id m ≠ 0%N) then uint64_size 2 (mapping_id m) else 0) +
    (if decide (address m ≠ 0%N) then uint64_size 3 (address m) else 0) +
    size_line +
    (if decide (is_folded m ≠ false) then 1 + 1 else 0) +
    unknown_fields_size (unknown_fields (special_fields_ m)))%N in
  (set_special_fields (set_cached_size my_size (special_fields_ m)) (set_line line' m), my_size).

Definition write_to_with_cached_sizes (m : t U) : sm O E () :=
  (if decide (id m ≠ 0%N) then write_uint64 1 (id m) else mret ());;
  (if decide (mapping_id m ≠ 0%N) then write_uint64 2 (mapping_id m) else mret ());;
  (if decide (address m ≠ 0%N) then write_uint64 3 (address m) else mret ());;
  for_each (write_message 4) (line m);;
  (if decide (is_folded m ≠ false) then write_bool 5 (is_folded m) else mret ());;
  write_unknown_fields (unknown_fields (special_fields_ m)).

#[global] Instance message : Message O U E (t U) := {
  message_new := new;
  merge_from := merge_from;
  compute_size := compute_size;
  write_to_with_cached_sizes := write_to_with_cached_sizes;
  special_fields := special_fields_;
}.

(** The integers have their width, the strings are UTF-8, and no field is unknown. *)
Record valid (m : t U) : Prop := {
  valid_id : u64 (id m);
  valid_mapping_id : u64 (mapping_id m);
  valid_address : u64 (address m);
  valid_line : Forall Line.valid (line m);
  valid_special_fields : unknown_fields (special_fields_ m) = UnknownFields_new;
}.
Definition fresh (m : t U) : t U :=
  set_special_fields (set_cached_size 0 (special_fields_ m)) 
    (set_line (Line.fresh <$> line m) m).

Section codec.
Context `{!ProtobufLaws O U E}.

Lemma Location_merge_field_consumes tag : consumes_into (merge_field tag).
Proof. unfold merge_field. repeat case_match; auto 6 with protobuf. Qed.
Lemma Location_merge_from_consumes : consumes_into merge_from.
Proof. exact (merge_loop_consumes _ Location_merge_field_consumes). Qed.

Lemma Location_codec m m' n :
  valid m → compute_size m = (m', n) → (n < 2 ^ 32)%N →
  get_cached_size m' = n ∧ fresh m' = fresh m ∧
  ∃ b, emits (write_to_with_cached_sizes m') b ∧ N.of_nat (length b) = n ∧
    merge_from (new, b) = ((fresh m, []), Ok ()).
Proof.
  intros Hv Hc Hn. unfold compute_size in Hc. destruct (message_sizes (line m)) as [line' nl] eqn:Hl.
  injection Hc as <- <-.
  destruct (codes_messages merge_field Line.valid Line.fresh Location_merge_field_consumes 4 (line m) line' nl
    line set_line) as [Hfr Hcl]; [lia|apply Hv|done|lia|done|].
  split; [exact (N.mod_small _ _ Hn)|]. split; [unfold fresh; simpl; by rewrite Hfr|].
  eapply codes_message, codes_eq.
  - eapply codes_bind; [code_field Location_merge_field_consumes Hv (@id U) set_id|].
    eapply codes_bind; [code_field Location_merge_field_consumes Hv (@mapping_id U) set_mapping_id|].
    eapply codes_bind; [code_field Location_merge_field_consumes Hv (@address U) set_address|].
    eapply codes_bind; [apply Hcl|].
    eapply codes_bind; [code_field Location_merge_field_consumes Hv (@is_folded U) set_is_folded|].
    apply codes_nil. simpl. rewrite (valid_special_fields _ Hv). apply law_no_unknown.
  - size_sum (valid_special_fields _ Hv).
  - destruct m as [? ? ? ? ? [u c]], Hv; simpl in *. by subst.
Qed.
#[global] Instance Location_laws : MessageLaws (t U) valid fresh.
Proof. split; [exact Location_merge_from_consumes|exact Location_codec]. Qed.
End codec.
End message.
#[global] Hint Resolve Location_merge_from_consumes : protobuf.
End Location.

(** ** message Profile *)
Module Profile.
Record t {U : Type} := {
  sample_type : list (ValueType.t U);
  sample : list (Sample.t U);
  mapping : list (Mapping.t U);
  location : list (Location.t U);
  function : list (Function_.t U);
  string_table : list (list byte);
  drop_frames : Z;
  keep_frames : Z;
  time_nanos : Z;
  duration_nanos : Z;
  period_type : option (ValueType.t U);
  period : Z;
  comment : list Z;
  default_sample_type : Z;
  special_fields_ : SpecialFields U;
}.
Arguments t : clear implicits.

Section message.
Context {O U E : Type} `{!Protobuf O U E}.

Definition new : t U :=
  {| sample_type := []; sample := []; mapping := []; location := []; function := [];
     string_table := []; drop_frames := 0%Z; keep_frames := 0%Z; time_nanos := 0%Z;
     duration_nanos := 0%Z; period_type := None; period := 0%Z; comment := [];
     default_sample_type := 0%Z; special_fields_ := SpecialFields_new |}.
Definition set_sample_type (x : list (ValueType.t U)) (m : t U) : t U :=
  {| sample_type := x; sample := sample m; mapping := mapping m; location := location m;
     function := function m; string_table := string_table m; drop_frames := drop_frames m;
     keep_frames := keep_frames m; time_nanos := time_nanos m; duration_nanos := duration_nanos m;
     period_type := period_type m; period := period m; comment := comment m;
     default_sample_type := default_sample_type m; special_fields_ := special_fields_ m |}.
Definition set_sample (x : list (Sample.t U)) (m : t U) : t U :=
  {| sample_type := sample_type m; sample := x; mapping := mapping m; location := location m;
     function := function m; string_table := string_table m; drop_frames := drop_frames m;
     keep_frames := keep_frames m; time_nanos := time_nanos m; duration_nanos := duration_nanos m;
     period_type := period_type m; period := period m; comment := comment m;
     default_sample_type := default_sample_type m; special_fields_ := special_fields_ m |}.
Definition set_mapping (x : list (Mapping.t U)) (m : t U) : t U :=
  {| sample_type := sample_type m; sample := sample m; mapping := x; location := location m;
     function := function m; string_table := string_table m; drop_frames := drop_frames m;
     keep_frames := keep_frames m; time_nanos := time_nanos m; duration_nanos := duration_nanos m;
     period_type := period_type m; period := period m; comment := comment m;
     default_sample_type := default_sample_type m; special_fields_ := special_fields_ m |}.
Definition set_location (x : list (Location.t U)) (m : t U) : t U :=
  {| sample_type := sample_type m; sample := sample m; mapping := mapping m; location := x;
     function := function m; string_table := string_table m; drop_frames := drop_frames m;
     keep_frames := keep_frames m; time_nanos := time_nanos m; duration_nanos := duration_nanos m;
     period_type := period_type m; period := period m; comment := comment m;
     default_sample_type := default_sample_type m; special_fields_ := special_fields_ m |}.
Definition set_function (x : list (Function_.t U)) (m : t U) : t U :=
  {| sample_type := sample_type m; sample := sample m; mapping := mapping m;
     location := location m; function := x; string_table := string_table m;
     drop_frames := drop_frames m; keep_frames := keep_frames m; time_nanos := time_nanos m;
     duration_nanos := duration_nanos m; period_type := period_type m; period := period m;
     comment := comment m; default_sample_type := default_sample_type m;
     special_fields_ := special_fields_ m |}.
Definition set_string_table (x : list (list byte)) (m : t U) : t U :=
  {| sample_type := sample_type m; sample := sample m; mapping := mapping m;
     location := location m; function := function m; string_table := x;
     drop_frames := drop_frames m; keep_frames := keep_frames m; time_nanos := time_nanos m;
     duration_nanos := duration_nanos m; period_type := period_type m; period := period m;
     comment := comment m; default_sample_type := default_sample_type m;
     special_fields_ := special_fields_ m |}.
Definition set_drop_frames (x : Z) (m : t U) : t U :=
  {| sample_type := sample_type m; sample := sample m; mapping := mapping m;
     location := location m; function := function m; string_table := string_table m;
     drop_frames := x; keep_frames := keep_frames m; time_nanos := time_nanos m;
     duration_nanos := duration_nanos m; period_type := period_type m; period := period m;
     comment := comment m; default_sample_type := default_sample_type m;
     special_fields_ := special_fields_ m |}.
Definition set_keep_frames (x : Z) (m : t U) : t U :=
  {| sample_type := sample_type m; sample := sample m; mapping := mapping m;
     location := location m; function := function m; string_table := string_table m;
     drop_frames := drop_frames m; keep_frames := x; time_nanos := time_nanos m;
     duration_nanos := duration_nanos m; period_type := period_type m; period := period m;
     comment := comment m; default_sample_type := default_sample_type m;
     special_fields_ := special_fields_ m |}.
Definition set_time_nanos (x : Z) (m : t U) : t U :=
  {| sample_type := sample_type m; sample := sample m; mapping := mapping m;
     location := location m; function := function m; string_table := string_table m;
     drop_frames := drop_frames m; keep_frames := keep_frames m; time_nanos := x;
     duration_nanos := duration_nanos m; period_type := period_type m; period := period m;
     comment := comment m; default_sample_type := default_sample_type m;
     special_fields_ := special_fields_ m |}.
Definition set_duration_nanos (x : Z) (m : t U) : t U :=
  {| sample_type := sample_type m; sample := sample m; mapping := mapping m;
     location := location m; function := function m; string_table := string_table m;
     drop_frames := drop_frames m; keep_frames := keep_frames m; time_nanos := time_nanos m;
     duration_nanos := x; period_type := period_type m; period := period m; comment := comment m;
     default_sample_type := default_sample_type m; special_fields_ := special_fields_ m |}.
Definition set_period_type (x : option (ValueType.t U)) (m : t U) : t U :=
  {| sample_type := sample_type m; sample := sample m; mapping := mapping m;
     location := location m; function := function m; string_table := string_table m;
     drop_frames := drop_frames m; keep_frames := keep_frames m; time_nanos := time_nanos m;
     duration_nanos := duration_nanos m; period_type := x; period := period m;
     comment := comment m; default_sample_type := default_sample_type m;
     special_fields_ := special_fields_ m |}.
Definition set_period (x : Z) (m : t U) : t U :=
  {| sample_type := sample_type m; sample := sample m; mapping := mapping m;
     location := location m; function := function m; string_table := string_table m;
     drop_frames := drop_frames m; keep_frames := keep_frames m; time_nanos := time_nanos m;
     duration_nanos := duration_nanos m; period_type := period_type m; period := x;
     comment := comment m; default_sample_type := default_sample_type m;
     special_fields_ := special_fields_ m |}.
Definition set_comment (x : list Z) (m : t U) : t U :=
  {| sample_type := sample_type m; sample := sample m; mapping := mapping m;
     location := location m; function := function m; string_table := string_table m;
     drop_frames := drop_frames m; keep_frames := keep_frames m; time_nanos := time_nanos m;
     duration_nanos := duration_nanos m; period_type := period_type m; period := period m;
     comment := x; default_sample_type := default_sample_type m;
     special_fields_ := special_fields_ m |}.
Definition set_default_sample_type (x : Z) (m : t U) : t U :=
  {| sample_type := sample_type m; sample := sample m; mapping := mapping m;
     location := location m; function := function m; string_table := string_table m;
     drop_frames := drop_frames m; keep_frames := keep_frames m; time_nanos := time_nanos m;
     duration_nanos := duration_nanos m; period_type := period_type m; period := period m;
     comment := comment m; default_sample_type := x; special_fields_ := special_fields_ m |}.
Definition set_special_fields (x : SpecialFields U) (m : t U) : t U :=
  {| sample_type := sample_type m; sample := sample m; mapping := mapping m;
     location := location m; function := function m; string_table := string_table m;
     drop_frames := drop_frames m; keep_frames := keep_frames m; time_nanos := time_nanos m;
     duration_nanos := duration_nanos m; period_type := period_type m; period := period m;
     comment := comment m; default_sample_type := default_sample_type m; special_fields_ := x |}.

(** [special_clear] is [SpecialFields::clear]. *)
Definition clear (special_clear : SpecialFields U → SpecialFields U) (m : t U) : t U :=
  {| sample_type := []; sample := []; mapping := []; location := []; function := [];
     string_table := []; drop_frames := 0%Z; keep_frames := 0%Z; time_nanos := 0%Z;
     duration_nanos := 0%Z; period_type := None; period := 0%Z; comment := [];
     default_sample_type := 0%Z; special_fields_ := special_clear (special_fields_ m) |}.

Definition merge_field (tag : N) : sm (t U * list byte) E () :=
  match tag with
  | 10 => reads (read_message ValueType.merge_from ValueType.new) (push sample_type set_sample_type)
  | 18 => reads (read_message Sample.merge_from Sample.new) (push sample set_sample)
  | 26 => reads (read_message Mapping.merge_from Mapping.new) (push mapping set_mapping)
  | 34 => reads (read_message Location.merge_from Location.new) (push location set_location)
  | 42 => reads (read_message Function_.merge_from Function_.new) (push function set_function)
  | 50 => reads read_string (push string_table set_string_table)
  | 56 => reads read_int64 set_drop_frames
  | 64 => reads read_int64 set_keep_frames
  | 72 => reads read_int64 set_time_nanos
  | 80 => reads read_int64 set_duration_nanos
  | 90 => reads_into period_type set_period_type
            (read_singular_message_into_field ValueType.merge_from ValueType.new)
  | 96 => reads read_int64 set_period
  | 106 => reads_into comment set_comment read_repeated_packed_int64_into
  | 104 => reads read_int64 (push comment set_comment)
  | 112 => reads read_int64 set_default_sample_type
  | tag => reads_into (λ m, unknown_fields (special_fields_ m))
      (λ u m, set_special_fields (set_unknown_fields u (special_fields_ m)) m)
      (read_unknown_or_skip_group tag)
  end%N.
Definition merge_from : sm (t U * list byte) E () := merge_loop merge_field.

Definition compute_size (m : t U) : t U * N :=
  let '(sample_type', size_sample_type) := message_sizes (sample_type m) in
  let '(sample', size_sample) := message_sizes (sample m) in
  let '(mapping', size_mapping) := message_sizes (mapping m) in
  let '(location', size_location) := message_sizes (location m) in
  let '(function', size_function) := message_sizes (function m) in
  let '(period_type', size_period_type) := message_field_size (period_type m) in
  let my_size := (
    size_sample_type +
    size_sample +
    size_mapping +
    size_location +
    size_function +
    sum_sizes (string_size 6) (string_table m) +
    (if decide (drop_frames m ≠ 0%Z) then int64_size 7 (drop_frames m) else 0) +
    (if decide (keep_frames m ≠ 0%Z) then int64_size 8 (keep_frames m) else 0) +
    (if decide (time_nanos m ≠ 0%Z) then int64_size 9 (time_nanos m) else 0) +
    (if decide (duration_nanos m ≠ 0%Z) then int64_size 10 (duration_nanos m) else 0) +
    size_period_type +
    (if decide (period m ≠ 0%Z) then int64_size 12 (period m) else 0) +
    sum_sizes (int64_size 13) (comment m) +
    (if decide (default_sample_type m ≠ 0%Z) then int64_size 14 (default_sample_type m) else 0) +
    unknown_fields_size (unknown_fields (special_fields_ m)))%N in
  let m := set_period_type period_type'
    (set_function function'
    (set_location location'
    (set_mapping mapping'
    (set_sample sample'
    (set_sample_type sample_type' m))))) in
  (set_special_fields (set_cached_size my_size (special_fields_ m)) m, my_size).

Definition write_to_with_cached_sizes (m : t U) : sm O E () :=
  for_each (write_message 1) (sample_type m);;
  for_each (write_message 2) (sample m);;
  for_each (write_message 3) (mapping m);;
  for_each (write_message 4) (location m);;
  for_each (write_message 5) (function m);;
  for_each (write_string 6) (string_table m);;
  (if decide (drop_frames m ≠ 0%Z) then write_int64 7 (drop_frames m) else mret ());;
  (if decide (keep_frames m ≠ 0%Z) then write_int64 8 (keep_frames m) else mret ());;
  (if decide (time_nanos m ≠ 0%Z) then write_int64 9 (time_nanos m) else mret ());;
  (if decide (duration_nanos m ≠ 0%Z) then write_int64 10 (duration_nanos m) else mret ());;
  write_message_field 11 (period_type m);;
  (if decide (period m ≠ 0%Z) then write_int64 12 (period m) else mret ());;
  for_each (write_int64 13) (comment m);;
  (if decide (default_sample_type m ≠ 0%Z) then write_int64 14 (default_sample_type m) else mret ());;
  write_unknown_fields (unknown_fields (special_fields_ m)).

#[global] Instance message : Message O U E (t U) := {
  message_new := new;
  merge_from := merge_from;
  compute_size := compute_size;
  write_to_with_cached_sizes := write_to_with_cached_sizes;
  special_fields := special_fields_;
}.

(** The integers have their width, the strings are UTF-8, and no field is unknown. *)
Record valid (m : t U) : Prop := {
  valid_sample_type : Forall ValueType.valid (sample_type m);
  valid_sample : Forall Sample.valid (sample m);
  valid_mapping : Forall Mapping.valid (mapping m);
  valid_location : Forall Location.valid (location m);
  valid_function : Forall Function_.valid (function m);
  valid_string_table : Forall (λ s, utf8 s = true ∧ (N.of_nat (length s) < 2 ^ 32)%N) (string_table m);
  valid_drop_frames : i64 (drop_frames m);
  valid_keep_frames : i64 (keep_frames m);
  valid_time_nanos : i64 (time_nanos m);
  valid_duration_nanos : i64 (duration_nanos m);
  valid_period_type : from_option ValueType.valid True (period_type m);
  valid_period : i64 (period m);
  valid_comment : Forall i64 (comment m);
  valid_default_sample_type : i64 (default_sample_type m);
  valid_special_fields : unknown_fields (special_fields_ m) = UnknownFields_new;
}.
Definition fresh (m : t U) : t U :=
  set_special_fields (set_cached_size 0 (special_fields_ m)) 
    (set_period_type (ValueType.fresh <$> period_type m)
    (set_function (Function_.fresh <$> function m)
    (set_location (Location.fresh <$> location m)
    (set_mapping (Mapping.fresh <$> mapping m)
    (set_sample (Sample.fresh <$> sample m)
    (set_sample_type (ValueType.fresh <$> sample_type m) m)))))).

Section codec.
Context `{!ProtobufLaws O U E}.

Lemma Profile_merge_field_consumes tag : consumes_into (merge_field tag).
Proof. unfold merge_field. repeat case_match; auto 6 with protobuf. Qed.
Lemma Profile_merge_from_consumes : consumes_into merge_from.
Proof. exact (merge_loop_consumes _ Profile_merge_field_consumes). Qed.

(** [m] read into [m0]: repeated fields go on, the others are replaced if they are written. *)
Definition merged (m0 m : t U) : t U :=
  let keep {A} `{!EqDecision A} (d old x : A) : A := if decide (x ≠ d) then x else old in
  {| sample_type := sample_type m0 ++ sample_type m; sample := sample m0 ++ sample m;
     mapping := mapping m0 ++ mapping m; location := location m0 ++ location m;
     function := function m0 ++ function m; string_table := string_table m0 ++ string_table m;
     drop_frames := keep 0%Z (drop_frames m0) (drop_frames m);
     keep_frames := keep 0%Z (keep_frames m0) (keep_frames m);
     time_nanos := keep 0%Z (time_nanos m0) (time_nanos m);
     duration_nanos := keep 0%Z (duration_nanos m0) (duration_nanos m);
     period_type := period_type m ∪ period_type m0;
     period := keep 0%Z (period m0) (period m); comment := comment m0 ++ comment m;
     default_sample_type := keep 0%Z (default_sample_type m0) (default_sample_type m);
     special_fields_ := special_fields_ m0 |}.

Lemma merged_new m : valid m → merged new (fresh m) = fresh m.
Proof.
  intros Hv. pose proof (valid_special_fields _ Hv) as Hu. destruct m as [? ? ? ? ? ? dr kf tn du pt pe ? ds [u c]].
  unfold merged, fresh, new, set_special_fields, set_cached_size. simpl in *. subst u.
  rewrite (right_id_L None (∪)). f_equal; (case_decide as Hd; [done|symmetry; first [exact Hd|by apply dec_stable]]).
Qed.

Ltac code_over Hv getter setter :=
  eapply codes_over with (get := getter) (set := setter);
  [apply _|eapply codes_field; [exact Profile_merge_field_consumes|apply law_int64; [lia|apply Hv]|reflexivity]].

Lemma Profile_codes m m' n :
  valid m → compute_size m = (m', n) → (n < 2 ^ 32)%N →
  get_cached_size m' = n ∧ fresh m' = fresh m ∧
  ∀ m0, period_type m0 = None ∨ period_type m = None →
    codes merge_field m0 (write_to_with_cached_sizes m') n (merged m0 (fresh m)).
Proof.
  intros Hv Hc Hn. unfold compute_size in Hc.
  destruct (message_sizes (sample_type m)) as [l1 n1] eqn:Hl1.
  destruct (message_sizes (sample m)) as [l2 n2] eqn:Hl2.
  destruct (message_sizes (mapping m)) as [l3 n3] eqn:Hl3.
  destruct (message_sizes (location m)) as [l4 n4] eqn:Hl4.
  destruct (message_sizes (function m)) as [l5 n5] eqn:Hl5.
  destruct (message_field_size (period_type m)) as [pt np] eqn:Hp. injection Hc as <- <-.
  destruct (codes_messages merge_field ValueType.valid ValueType.fresh Profile_merge_field_consumes 1 (sample_type m) l1 n1
    sample_type set_sample_type) as [Hf1 Hc1]; [lia|apply Hv|done|lia|done|].
  destruct (codes_messages merge_field Sample.valid Sample.fresh Profile_merge_field_consumes 2 (sample m) l2 n2
    sample set_sample) as [Hf2 Hc2]; [lia|apply Hv|done|lia|done|].
  destruct (codes_messages merge_field Mapping.valid Mapping.fresh Profile_merge_field_consumes 3 (mapping m) l3 n3
    mapping set_mapping) as [Hf3 Hc3]; [lia|apply Hv|done|lia|done|].
  destruct (codes_messages merge_field Location.valid Location.fresh Profile_merge_field_consumes 4 (location m) l4 n4
    location set_location) as [Hf4 Hc4]; [lia|apply Hv|done|lia|done|].
  destruct (codes_messages merge_field Function_.valid Function_.fresh Profile_merge_field_consumes 5 (function m) l5 n5
    function set_function) as [Hf5 Hc5]; [lia|apply Hv|done|lia|done|].
  destruct (codes_optional merge_field ValueType.valid ValueType.fresh Profile_merge_field_consumes 11
    (period_type m) pt np period_type set_period_type) as [Hfp Hcp]; [lia|apply Hv|done|lia|done|].
  split; [exact (N.mod_small _ _ Hn)|].
  split; [unfold fresh; simpl; by rewrite Hf1, Hf2, Hf3, Hf4, Hf5, Hfp|].
  intros m0 H0. eapply codes_eq.
  - eapply codes_bind; [apply Hc1|]. eapply codes_bind; [apply Hc2|]. eapply codes_bind; [apply Hc3|].
    eapply codes_bind; [apply Hc4|]. eapply codes_bind; [apply Hc5|].
    eapply codes_bind; [code_repeated Profile_merge_field_consumes (valid_string_table _ Hv) (@string_table U) set_string_table|].
    eapply codes_bind; [code_over Hv (@drop_frames U) set_drop_frames|].
    eapply codes_bind; [code_over Hv (@keep_frames U) set_keep_frames|].
    eapply codes_bind; [code_over Hv (@time_nanos U) set_time_nanos|].
    eapply codes_bind; [code_over Hv (@duration_nanos U) set_duration_nanos|].
    eapply codes_bind; [apply Hcp; exact H0|].
    eapply codes_bind; [code_over Hv (@period U) set_period|].
    eapply codes_bind; [code_repeated Profile_merge_field_consumes (valid_comment _ Hv) (@comment U) set_comment|].
    eapply codes_bind; [code_over Hv (@default_sample_type U) set_default_sample_type|].
    apply codes_nil. simpl. rewrite (valid_special_fields _ Hv). apply law_no_unknown.
  - size_sum (valid_special_fields _ Hv).
  - reflexivity.
Qed.

Lemma Profile_codec m m' n :
  valid m → compute_size m = (m', n) → (n < 2 ^ 32)%N →
  get_cached_size m' = n ∧ fresh m' = fresh m ∧
  ∃ b, emits (write_to_with_cached_sizes m') b ∧ N.of_nat (length b) = n ∧
    merge_from (new, b) = ((fresh m, []), Ok ()).
Proof.
  intros Hv Hc Hn. destruct (Profile_codes m m' n Hv Hc Hn) as (Hs&Hf&Hcodes). split_and!; [done|done|].
  pose proof (codes_message merge_field _ _ _ _ (Hcodes new (or_introl eq_refl))) as Hm.
  by rewrite (merged_new m Hv) in Hm.
Qed.
#[global] Instance Profile_laws : MessageLaws (t U) valid fresh.
Proof. split; [exact Profile_merge_from_consumes|exact Profile_codec]. Qed.
End codec.
End message.
#[global] Hint Resolve Profile_merge_from_consumes : protobuf.
End Profile.

(** ** Properties *)
Section properties.
Context {O U E : Type} `{!Protobuf O U E, !ProtobufLaws O U E}.

(** C13. A profile is read as it was written: when [compute_size] has been called, which keeps the
    sizes of all the messages in their cells and changes nothing else, [write_to_with_cached_sizes]
    writes exactly the number of bytes that [compute_size] has returned (below 2^32, the width of
    a cell), unless the output fails, and [merge_from] reads them into a new profile that is
    equal to the one written, with every nested sample, label, mapping, location, line and
    function, the fields left out for having their default included.  A profile that was used before and cleared
    reads the same. *)
Theorem profile_roundtrip (m m' : Profile.t U) n :
  Profile.valid m → Profile.compute_size m = (m', n) → (n < 2 ^ 32)%N →
  Profile.fresh m' = Profile.fresh m ∧
  ∃ b, N.of_nat (length b) = n ∧
    Profile.merge_from (Profile.new, b) = ((Profile.fresh m, []), Ok ()) ∧
    (∀ special_clear m0, special_clear (Profile.special_fields_ m0) = SpecialFields_new →
      Profile.merge_from (Profile.clear special_clear m0, b) = ((Profile.fresh m, []), Ok ())) ∧
    ∀ o, match Profile.write_to_with_cached_sizes m' o with
         | (o', Ok _) => written o' = written o ++ b
         | (o', Err _) => failed o' = true
         | (_, Panic) => False
         end.
Proof.
  intros Hv Hc Hn. destruct (Profile.Profile_codec m m' n Hv Hc Hn) as (_&Hf&b&Hw&Hl&Hm).
  split; [done|]. exists b. split_and!; [done|done| |exact Hw].
  intros special_clear m0 H0. unfold Profile.clear. by rewrite H0.
Qed.

(** C25. Profiles that are written one after the other are read as one.  The bytes of [m1] and then
    those of [m2], read by one [merge_from] into any profile [m0], are taken for one message, and
    the result has the repeated fields of the three in this order, and each scalar field from
    the last of them that does not have its default there ([merged]); the unknown fields and the cached size of
    [m0] stay.  At most one of the three may have a period type, whose fields would be merged too. *)
Theorem profiles_concatenate (m0 m1 m1' m2 m2' : Profile.t U) n1 n2 :
  Profile.valid m1 → Profile.compute_size m1 = (m1', n1) → (n1 < 2 ^ 32)%N →
  Profile.valid m2 → Profile.compute_size m2 = (m2', n2) → (n2 < 2 ^ 32)%N →
  length (filter is_Some [Profile.period_type m0; Profile.period_type m1; Profile.period_type m2]) ≤ 1 →
  ∃ b1 b2, emits (Profile.write_to_with_cached_sizes m1') b1 ∧
    emits (Profile.write_to_with_cached_sizes m2') b2 ∧
    Profile.merge_from (m0, b1 ++ b2) =
      ((Profile.merged (Profile.merged m0 (Profile.fresh m1)) (Profile.fresh m2), []), Ok ()).
Proof.
  intros Hv1 Hc1 Hn1 Hv2 Hc2 Hn2 Hp. rewrite !filter_cons, filter_nil in Hp.
  destruct (Profile.Profile_codes m1 m1' n1 Hv1 Hc1 Hn1) as (_&_&H1).
  destruct (Profile.Profile_codes m2 m2' n2 Hv2 Hc2 Hn2) as (_&_&H2).
  destruct (H1 m0) as (b1&Hw1&_&Hr1).
  { destruct (Profile.period_type m0), (Profile.period_type m1); simpl in Hp; auto. lia. }
  destruct (codes_message Profile.merge_field _ _ _ _ (H2 (Profile.merged m0 (Profile.fresh m1)) ltac:(
    simpl; destruct (Profile.period_type m0), (Profile.period_type m1), (Profile.period_type m2);
    simpl in *; auto; lia))) as (b2&Hw2&_&Hr2).
  exists b1, b2. split_and!; [done|done|]. unfold Profile.merge_from. by rewrite Hr1.
Qed.
End properties.

(** ** Witnesses: a profile with a location, over the wire format of [Wire.v] *)
Definition demo_line : Line.t () := Line.set_line (-3)%Z (Line.set_function_id 300%N Line.new).
Definition demo_location : Location.t () :=
  Location.set_is_folded true (Location.set_line [demo_line; Line.new] (Location.set_id 1%N Location.new)).
Definition demo_profile : Profile.t () :=
  Profile.set_comment [0; 5]%Z (Profile.set_period_type (Some (ValueType.set_unit 7%Z ValueType.new))
    (Profile.set_string_table [[]; bs "main"] (Profile.set_location [demo_location] Profile.new))).
Definition demo_sized : Profile.t () := (Profile.compute_size demo_profile).1.
Definition demo_bytes : list byte := (Profile.write_to_with_cached_sizes demo_sized []).1.

Lemma demo_valid : Profile.valid demo_profile.
Proof.
  assert (Location.valid demo_location) as Hl.
  { split; try done. repeat constructor; done. }
  split; try done; simpl; repeat constructor; done.
Qed.

Lemma profile_roundtrip_witness :
  Profile.fresh demo_sized = Profile.fresh demo_profile ∧ length demo_bytes = 40 ∧
  Profile.merge_from (Profile.new, demo_bytes) = ((Profile.fresh demo_profile, []), Ok ()).
Proof.
  destruct (profile_roundtrip demo_profile demo_sized (Profile.compute_size demo_profile).2 demo_valid)
    as (Hf&b&Hl&Hm&_&Hw); [vm_compute; reflexivity|vm_compute; reflexivity|].
  specialize (Hw []). assert (demo_bytes = b) as ->.
  { unfold demo_bytes. destruct (Profile.write_to_with_cached_sizes demo_sized []) as [o [[]|e|]];
      [exact Hw|discriminate Hw|destruct Hw]. }
  split; [exact Hf|]. split; [|exact Hm]. apply Nat2N.inj. rewrite Hl. vm_compute. reflexivity.
Defined.

(** The second profile has a comment and a period more. *)
Definition demo_more : Profile.t () := Profile.set_comment [9]%Z (Profile.set_period 4%Z Profile.new).

Lemma profiles_concatenate_witness :
  ∃ b1 b2, emits (Profile.write_to_with_cached_sizes demo_sized) b1 ∧
    emits (Profile.write_to_with_cached_sizes (Profile.compute_size demo_more).1) b2 ∧
    Profile.merge_from (Profile.new, b1 ++ b2) =
      ((Profile.set_comment [0; 5; 9]%Z (Profile.set_period 4%Z (Profile.fresh demo_profile)), []), Ok ()).
Proof.
  refine (profiles_concatenate Profile.new demo_profile demo_sized demo_more (Profile.compute_size demo_more).1
    (Profile.compute_size demo_profile).2 (Profile.compute_size demo_more).2 demo_valid _ _ _ _ _ _).
  - vm_compute. reflexivity.
  - vm_compute. reflexivity.
  - split; try done; simpl; repeat constructor; done.
  - vm_compute. reflexivity.
  - vm_compute. reflexivity.
  - apply Nat.leb_le. vm_compute. reflexivity.
Defined.
