(* ===== verification/GperfReport.v ===== *)
(** * From a report to its file: report.rs over gperf.rs

    [build] of [PprofReport.v] makes a profile with the fields that the code sets; here it is
    the message of [Gperf.v], whose other fields have their default, and it is written and read
    again. *)

From S2P Require Import Prelude Protobuf Wire Gperf PprofReport.

Section convert.
Context {O U E : Type} `{!Protobuf O U E}.

(** [..Default::default()]; the numbers are widened with [as]. *)
Definition proto_value_type (v : ValueType) : ValueType.t U :=
  ValueType.set_unit (Z.of_nat (vt_unit v)) (ValueType.set_type_ (Z.of_nat (vt_type v)) ValueType.new).
Definition proto_label (l : Label) : Label.t U :=
  Label.set_str (Z.of_nat (label_str l)) (Label.set_key (Z.of_nat (label_key l)) Label.new).
Definition proto_sample (s : Sample) : Sample.t U :=
  Sample.set_label (proto_label <$> label s) (Sample.set_value (value s)
    (Sample.set_location_id (N.of_nat <$> location_id s) Sample.new)).
Definition proto_line (l : Line) : Line.t U :=
  Line.set_line (as_i64 (line_line l)) (Line.set_function_id (N.of_nat (line_function_id l)) Line.new).
Definition proto_location (l : Location) : Location.t U :=
  Location.set_line (proto_line <$> loc_line l) (Location.set_address (loc_address l)
    (Location.set_id (N.of_nat (loc_id l)) Location.new)).
Definition proto_function (f : Function_) : Function_.t U :=
  Function_.set_start_line (as_i64 (fn_start_line f)) (Function_.set_filename (Z.of_nat (fn_filename f))
    (Function_.set_system_name (Z.of_nat (fn_system_name f)) (Function_.set_name (Z.of_nat (fn_name f))
      (Function_.set_id (N.of_nat (fn_id f)) Function_.new)))).
Definition proto_profile (p : Profile) : Profile.t U :=
  Profile.set_string_table (string_table_ p) (Profile.set_function (proto_function <$> function p)
    (Profile.set_location (proto_location <$> location p) (Profile.set_sample (proto_sample <$> sample p)
      (Profile.set_sample_type (proto_value_type <$> sample_type p) Profile.new)))).

(** What a reader of the file takes from the message. *)
Definition read_value_type (v : ValueType.t U) : ValueType :=
  {| vt_type := Z.to_nat (ValueType.type_ v); vt_unit := Z.to_nat (ValueType.unit v) |}.
Definition read_label (l : Label.t U) : Label :=
  {| label_key := Z.to_nat (Label.key l); label_str := Z.to_nat (Label.str l) |}.
Definition read_sample_ (s : Sample.t U) : Sample :=
  {| location_id := N.to_nat <$> Sample.location_id s; label := read_label <$> Sample.label s;
     value := Sample.value s |}.
Definition read_line (l : Line.t U) : Line :=
  {| line_function_id := N.to_nat (Line.function_id l); line_line := of_i64 (Line.line l) |}.
Definition read_location (l : Location.t U) : Location :=
  {| loc_id := N.to_nat (Location.id l); loc_line := read_line <$> Location.line l;
     loc_address := Location.address l |}.
Definition read_function (f : Function_.t U) : Function_ :=
  {| fn_id := N.to_nat (Function_.id f); fn_name := Z.to_nat (Function_.name f);
     fn_system_name := Z.to_nat (Function_.system_name f); fn_filename := Z.to_nat (Function_.filename f);
     fn_start_line := of_i64 (Function_.start_line f) |}.
Definition read_profile (p : Profile.t U) : Profile :=
  {| sample_type := read_value_type <$> Profile.sample_type p; sample := read_sample_ <$> Profile.sample p;
     string_table_ := Profile.string_table p; function := read_function <$> Profile.function p;
     location := read_location <$> Profile.location p |}.

(** ** The numbers of a profile fit the fields of the messages *)
Definition index_fits (n : nat) : Prop := (Z.of_nat n < 2 ^ 63)%Z.

Record label_fits (l : Label) : Prop := { lf_key : index_fits (label_key l); lf_str : index_fits (label_str l) }.
Record sample_fits (s : Sample) : Prop := {
  sf_location : Forall index_fits (location_id s);
  sf_label : Forall label_fits (label s);
  sf_value : Forall i64 (value s);
}.
Record line_fits (l : Line) : Prop := { nf_function : index_fits (line_function_id l); nf_line : u64 (line_line l) }.
Record location_fits (l : Location) : Prop := {
  of_id : index_fits (loc_id l);
  of_line : Forall line_fits (loc_line l);
  of_address : u64 (loc_address l);
}.
Record function_fits (f : Function_) : Prop := {
  ff_id : index_fits (fn_id f);
  ff_name : index_fits (fn_name f);
  ff_system_name : index_fits (fn_system_name f);
  ff_filename : index_fits (fn_filename f);
  ff_line : u64 (fn_start_line f);
}.
Record profile_fits (p : Profile) : Prop := {
  pf_type : Forall (λ v, index_fits (vt_type v) ∧ index_fits (vt_unit v)) (sample_type p);
  pf_sample : Forall sample_fits (sample p);
  pf_string : Forall (λ s, utf8 s = true ∧ (N.of_nat (length s) < 2 ^ 32)%N) (string_table_ p);
  pf_function : Forall function_fits (function p);
  pf_location : Forall location_fits (location p);
}.

Lemma index_i64 n : index_fits n → i64 (Z.of_nat n).
Proof. unfold index_fits, i64. lia. Qed.
Lemma index_u64 n : index_fits n → u64 (N.of_nat n).
Proof. unfold index_fits, u64. lia. Qed.
Lemma as_i64_range n : i64 (as_i64 n).
Proof.
  unfold as_i64, i64, wrap. pose proof (Z.mod_pos_bound (Z.of_N n) (2 ^ 64) eq_refl) as H.
  case_match eqn:Hlt; [apply Z.ltb_lt in Hlt|apply Z.ltb_ge in Hlt]; lia.
Qed.
Lemma as_i64_roundtrip n : u64 n → of_i64 (as_i64 n) = n.
Proof.
  unfold u64, of_i64, as_i64, wrap. intros Hn. rewrite (Z.mod_small (Z.of_N n)) by lia. simpl.
  case_match eqn:Hlt; [apply Z.ltb_lt in Hlt|apply Z.ltb_ge in Hlt].
  - rewrite Z.mod_small by lia. lia.
  - rewrite <-(Z.mod_unique (Z.of_N n - 2 ^ 64) (2 ^ 64) (-1) (Z.of_N n)) by lia. lia.
Qed.

(** A list that is converted forth and back. *)
Lemma fmap_back {A B} (f : A → B) (g : B → A) P l :
  Forall P l → (∀ x, P x → g (f x) = x) → g <$> (f <$> l) = l.
Proof.
  intros Hl Hgf. rewrite <-list_fmap_compose. etrans; [|apply list_fmap_id].
  apply list_fmap_ext. intros i x Hx. apply Hgf. by eapply Forall_lookup_1.
Qed.
Lemma Forall_proto {A B} (f : A → B) (P : A → Prop) (Q : B → Prop) l :
  Forall P l → (∀ x, P x → Q (f x)) → Forall Q (f <$> l).
Proof. intros Hl Hf. apply Forall_fmap. by eapply Forall_impl. Qed.

Lemma label_valid l : label_fits l → Label.valid (proto_label l).
Proof. intros [H1 H2]. by split; simpl; [apply index_i64..|done|done|]. Qed.
Lemma sample_valid s : sample_fits s → Sample.valid (proto_sample s).
Proof.
  intros [H1 H2 H3]. split; simpl; [by eapply Forall_proto, index_u64|done|by eapply Forall_proto, label_valid|done].
Qed.
Lemma line_valid l : line_fits l → Line.valid (proto_line l).
Proof. intros [H1 H2]. split; simpl; [by apply index_u64|apply as_i64_range|done|done]. Qed.
Lemma location_valid l : location_fits l → Location.valid (proto_location l).
Proof.
  intros [H1 H2 H3]. split; simpl; [by apply index_u64|done|done|by eapply Forall_proto, line_valid|done].
Qed.
Lemma function_valid f : function_fits f → Function_.valid (proto_function f).
Proof. intros []. split; simpl; [by apply index_u64|by apply index_i64..|apply as_i64_range|done]. Qed.

Lemma proto_profile_valid p : profile_fits p → Profile.valid (proto_profile p).
Proof.
  intros []. split; simpl; try done.
  - eapply Forall_proto; [done|]. intros v [H1 H2]. by split; simpl; [apply index_i64..|].
  - by eapply Forall_proto, sample_valid.
  - by eapply Forall_proto, location_valid.
  - by eapply Forall_proto, function_valid.
Qed.

Lemma read_proto p : profile_fits p → read_profile (proto_profile p) = p.
Proof.
  intros [H1 H2 H3 H4 H5]. destruct p as [vts smps strs fns locs]. unfold read_profile. simpl in *. f_equal.
  - eapply fmap_back; [done|]. intros [] _. unfold read_value_type. simpl. by rewrite !Nat2Z.id.
  - eapply fmap_back; [done|]. intros [ids labs vs] []. unfold read_sample_. simpl in *. f_equal.
    + eapply fmap_back; [done|]. intros n _. lia.
    + eapply fmap_back; [done|]. intros [] _. unfold read_label. simpl. by rewrite !Nat2Z.id.
  - eapply fmap_back; [done|]. intros [] []. unfold read_function. simpl in *.
    by rewrite !Nat2Z.id, Nat2N.id, as_i64_roundtrip.
  - eapply fmap_back; [done|]. intros [id ls a] []. unfold read_location. simpl in *. rewrite Nat2N.id. f_equal.
    eapply fmap_back; [done|]. intros [] []. unfold read_line. simpl in *. by rewrite Nat2N.id, as_i64_roundtrip.
Qed.

Lemma read_fresh (m : Profile.t U) : read_profile (Profile.fresh m) = read_profile m.
Proof.
  unfold read_profile. simpl. rewrite <-!list_fmap_compose. f_equal; apply list_fmap_ext; intros i x _; try done.
  - unfold read_sample_. simpl. rewrite <-!list_fmap_compose. done.
  - unfold read_location. simpl. rewrite <-!list_fmap_compose. done.
Qed.
End convert.

(** ** Properties *)

(** C24. A report reaches its reader: the profile that [build] makes of any reports (frames with
    one address being one symbol), written to a file and read from it by the generated code, is
    the profile that was built, and following its tables gives back, in order, the frames, label
    and value of every report.  Its indexes and numbers fit the fields of the messages, and the
    file is below 4 GiB. *)
Theorem report_reaches_its_reader {O U E : Type} `{!Protobuf O U E, !ProtobufLaws O U E} k l :
  same_symbols l →
  ∃ r p, session k l Report_new = (r, Ok p) ∧
    ∀ m n, profile_fits p → Profile.compute_size (proto_profile p) = (m, n) → (n < 2 ^ 32)%N →
    ∃ b m', N.of_nat (length b) = n ∧
      (∀ o, match Profile.write_to_with_cached_sizes m o with
            | (o', Ok _) => written o' = written o ++ b
            | (o', Err _) => failed o' = true
            | (_, Panic) => False
            end) ∧
      Profile.merge_from (Profile.new, b) = ((m', []), Ok ()) ∧ read_profile m' = p ∧
      mapM (read_sample (read_profile m')) (sample (read_profile m')) = Some (expected k <$> l).
Proof.
  intros Hsame. unfold session.
  destruct (report_all_spec k l [] [] Report_new (reports_inv_new k)) as (r&syms&He&Hr).
  rewrite (bind_known _ _ _ _ _ He). destruct (build_decodes k l syms r Hr Hsame) as (r'&p&Hb&Hs&_).
  exists r', p. split; [exact Hb|]. intros m n Hfit Hc Hn.
  destruct (Profile.Profile_codec _ _ _ (proto_profile_valid p Hfit) Hc Hn) as (_&_&b&Hw&Hlen&Hm).
  exists b, (Profile.fresh (proto_profile p)). rewrite read_fresh, read_proto by done. by split_and!.
Qed.

(** ** Witness: the blocks of [DemoReport], over the wire format of [Wire.v] *)
Definition blocks_profile : Profile :=
  match (session Heap DemoReport.blocks Report_new).2 with
  | Ok p => p
  | _ => {| sample_type := []; sample := []; string_table_ := []; function := []; location := [] |}
  end.
Lemma blocks_fit : profile_fits (U:=()) (E:=ErrorKind) (O:=list byte) blocks_profile.
Proof.
  assert (blocks_profile = ltac:(let x := eval vm_compute in blocks_profile in exact x)) as -> by (vm_compute; reflexivity).
  split; repeat (constructor; simpl); try done.
Qed.

Definition blocks_sized : Profile.t () * N :=
  Profile.compute_size (O:=list byte) (E:=ErrorKind) (proto_profile blocks_profile).
Definition blocks_file : list byte := (Profile.write_to_with_cached_sizes (E:=ErrorKind) blocks_sized.1 []).1.

Lemma report_reaches_its_reader_witness :
  match Profile.merge_from (O:=list byte) (E:=ErrorKind) (Profile.new, blocks_file) with
  | ((m', []), Ok _) =>
      mapM (read_sample (read_profile m')) (sample (read_profile m')) = Some (expected Heap <$> DemoReport.blocks)
  | _ => False
  end.
Proof.
  destruct (report_reaches_its_reader (O:=list byte) (U:=()) (E:=ErrorKind) Heap DemoReport.blocks
    DemoReport.blocks_same) as (r&p&Hs&H).
  assert (p = blocks_profile) as -> by (unfold blocks_profile; rewrite Hs; reflexivity).
  destruct (H blocks_sized.1 blocks_sized.2 blocks_fit) as (b&m'&_&Hw&Hm&_&Hread);
    [vm_compute; reflexivity|vm_compute; reflexivity|].
  specialize (Hw []). assert (blocks_file = b) as ->.
  { unfold blocks_file. destruct (Profile.write_to_with_cached_sizes blocks_sized.1 []) as [o [[]|e|]];
      [exact Hw|discriminate Hw|destruct Hw]. }
  rewrite Hm. exact Hread.
Defined.
