(* ===== verification/RecursiveMutex.v ===== *)
(** * crates/pprof/src/c/mod.rs: the recursive mutex of the heap profiler, and who enters it twice

    [RecursiveMutex] is [std::recursive_mutex] around a cell; a guard gives [&mut] to the cell.
    The second part is crates/pprof/src/profiler/heap.rs: the table of blocks is a hash map behind
    this mutex, and the calls that the map makes of the allocator come back to the profiler. *)

From S2P Require Import Prelude.

Section mutex.
Context {T : Type}.

(** The thread that holds the mutex and how often, the cell, and the guards that are alive, each
    with its thread. *)
Record RecursiveMutex := { c_mutex : option (nat * nat); cell : T; guards : list nat }.

Definition RecursiveMutex_new (v : T) : RecursiveMutex := {| c_mutex := None; cell := v; guards := [] |}.

(** [recursive_mutex_lock] by a thread; [None]: it waits. *)
Definition recursive_mutex_lock (t : nat) (c : option (nat * nat)) : option (nat * nat) :=
  match c with
  | None => Some (t, 1)
  | Some (t', n) => if decide (t = t') then Some (t, S n) else None
  end.
Definition recursive_mutex_unlock (c : option (nat * nat)) : option (nat * nat) :=
  match c with Some (t, S (S n)) => Some (t, S n) | _ => None end.

Definition lock (t : nat) (m : RecursiveMutex) : option RecursiveMutex :=
  c ← recursive_mutex_lock t (c_mutex m);
  Some {| c_mutex := Some c; cell := cell m; guards := t :: guards m |}.
(** The drop of the last guard that thread [t] has made. *)
Definition guard_drop (t : nat) (m : RecursiveMutex) : RecursiveMutex :=
  {| c_mutex := recursive_mutex_unlock (c_mutex m); cell := cell m; guards := tail (guards m) |}.
(** [deref_mut], and what is done through it. *)
Definition deref_mut (f : T → T) (m : RecursiveMutex) : RecursiveMutex :=
  {| c_mutex := c_mutex m; cell := f (cell m); guards := guards m |}.

Inductive mutex_step : RecursiveMutex → RecursiveMutex → Prop :=
| rm_lock m t m' : lock t m = Some m' → mutex_step m m'
| rm_use m f t : t ∈ guards m → mutex_step m (deref_mut f m)
| rm_drop m t : head (guards m) = Some t → mutex_step m (guard_drop t m).

(** The guards are those of the thread that holds the mutex. *)
Definition mutex_inv (m : RecursiveMutex) : Prop :=
  match c_mutex m with
  | None => guards m = []
  | Some (t, n) => n ≠ 0 ∧ guards m = replicate n t
  end.

Lemma lock_inv t m m' : mutex_inv m → lock t m = Some m' → mutex_inv m'.
Proof.
  unfold mutex_inv, lock. destruct (c_mutex m) as [[t' n]|]; simpl.
  - intros [Hn Hg]. case_decide; simpl; [|done]. intros [= <-]. subst t'. simpl. split; [done|]. by rewrite Hg.
  - intros Hg [= <-]. simpl. by rewrite Hg.
Qed.
Lemma guard_drop_mutex_inv t m : mutex_inv m → mutex_inv (guard_drop t m).
Proof.
  unfold mutex_inv, guard_drop. simpl. destruct (c_mutex m) as [[t' [|[|n]]]|]; simpl.
  - by intros [].
  - by intros [_ ->].
  - by intros [_ ->].
  - by intros ->.
Qed.
Lemma mutex_run_inv v m : rtc mutex_step (RecursiveMutex_new v) m → mutex_inv m.
Proof.
  apply rtc_invariant; [done|]. intros m1 m2 Hm Hs.
  destruct Hs as [m1 t m2 Hl|m1 f t _|m1 t _]; [by eapply lock_inv|done|by apply guard_drop_mutex_inv].
Qed.

(** Exclusion between threads, and none within one. *)
Lemma mutex_excludes_threads v m t t' :
  rtc mutex_step (RecursiveMutex_new v) m → t ∈ guards m → t' ∈ guards m → t = t'.
Proof.
  intros Hr. apply mutex_run_inv in Hr. unfold mutex_inv in Hr. destruct (c_mutex m) as [[t0 n]|].
  - destruct Hr as [_ ->]. by intros [-> _]%elem_of_replicate [-> _]%elem_of_replicate.
  - rewrite Hr. by intros ?%elem_of_nil.
Qed.
Lemma mutex_waits_for_others v m t :
  rtc mutex_step (RecursiveMutex_new v) m → lock t m = None ↔ ∃ t', t' ∈ guards m ∧ t' ≠ t.
Proof.
  intros Hr. apply mutex_run_inv in Hr. unfold mutex_inv in Hr. unfold lock.
  destruct (c_mutex m) as [[t0 n]|]; simpl.
  - destruct Hr as [Hn ->]. case_decide; simpl.
    + subst. split; [done|]. by intros (t'&[-> _]%elem_of_replicate&?).
    + split; [|done]. intros _. exists t0. split; [by apply elem_of_replicate|done].
  - rewrite Hr. split; [done|]. by intros (t'&?%elem_of_nil&_).
Qed.
End mutex.
Arguments RecursiveMutex : clear implicits.

(** ** heap.rs: the guards that a call of the allocator takes

    A call of [HeapProfilerAlloc], with the calls that come back to it while it runs.  [Alloc]: those of
    [get_backtrace], before the lock; those of [insert]; those of the drop of what [insert] returns.
    [Dealloc]: those of [remove], and of the drop of the [Block] that it returns, whose [frames] are on the
    heap.  A value that a statement does not bind is dropped before the guard, an older temporary of
    the same statement. *)
Inductive call := Alloc (frames op old : list call) | Dealloc (op old : list call).

(** [Enter] and [Leave]: the reference to the table, that the guard lends to a method of the map or to an
    iterator, begins and ends. *)
Inductive event := Lock | Enter | Leave | Drop_.

Section call_ind.
Variable P : call → Prop.
Hypothesis HA : ∀ frames op old, Forall P frames → Forall P op → Forall P old → P (Alloc frames op old).
Hypothesis HD : ∀ op old, Forall P op → Forall P old → P (Dealloc op old).
Fixpoint call_nested_ind (c : call) : P c :=
  let fix all (l : list call) : Forall P l :=
    match l with [] => Forall_nil_2 _ | c :: l => Forall_cons_2 _ _ _ (call_nested_ind c) (all l) end in
  match c with
  | Alloc frames op old => HA frames op old (all frames) (all op) (all old)
  | Dealloc op old => HD op old (all op) (all old)
  end.
End call_ind.

(** A statement that locks the table: the method, and the drop of what it returns. *)
Definition guarded (op old : list event) : list event := [Lock; Enter] ++ op ++ [Leave] ++ old ++ [Drop_].

(** [register] and [unregister]; [n] is the reentrancy counter of the thread before the call. *)
Fixpoint call_events (n : nat) (c : call) : list event :=
  let all n l := concat (map (call_events n) l) in
  match c with
  | Alloc frames op old =>
      if decide (S n = 1) then all (S n) frames ++ guarded (all (S n) op) (all (S n) old) else []
  | Dealloc op old => guarded (all n op) (all n old)
  end.
Definition calls_events (n : nat) (l : list call) : list event := concat (map (call_events n) l).
(** [report]: the snapshot iterates over the table, [op] are the calls of the vector; then the symbols
    and the user's callback, without the guard. *)
Definition report_events (n : nat) (op after : list call) : list event :=
  if decide (S n = 1) then guarded (calls_events (S n) op) [] ++ calls_events (S n) after else [].

(** What a thread outside of the profiler calls. *)
Inductive entry := Call (c : call) | Report (op after : list call).
Definition entry_events (e : entry) : list event :=
  match e with Call c => call_events 0 c | Report op after => report_events 0 op after end.

(** *** When a method of the table runs inside another one

    A call that gets to the lock; and a call in which some method of the table meets one that does. *)
Definition takes (n : nat) (c : call) : bool :=
  match c with Alloc _ _ _ => bool_decide (n = 0) | Dealloc _ _ => true end.
Fixpoint aliases (n : nat) (c : call) : bool :=
  match c with
  | Alloc frames op old =>
      bool_decide (n = 0) &&
      (existsb (aliases (S n)) frames || existsb (takes (S n)) op || existsb (aliases (S n)) old)
  | Dealloc op old => existsb (takes n) op || existsb (aliases n) old
  end.
Definition entry_aliases (e : entry) : bool :=
  match e with
  | Call c => aliases 0 c
  | Report op after => existsb (takes 1) op || existsb (aliases 1) after
  end.

(** The mutex, and the references to the cell that are alive. *)
Definition play {T} (t : nat) (e : event) (s : RecursiveMutex T * nat) : option (RecursiveMutex T * nat) :=
  match e with
  | Lock => m ← lock t s.1; Some (m, s.2)
  | Enter => Some (s.1, S s.2)
  | Leave => Some (s.1, pred s.2)
  | Drop_ => Some (guard_drop t s.1, s.2)
  end.
(** After the events of thread [t] that were played so far; [None]: it waits. *)
Fixpoint play_all {T} (t : nat) (es : list event) (s : RecursiveMutex T * nat) : option (RecursiveMutex T * nat) :=
  match es with [] => Some s | e :: es => s ← play t e s; play_all t es s end.
(** A state on the way. *)
Definition passes {T} (t : nat) (es : list event) (s s' : RecursiveMutex T * nat) : Prop :=
  ∃ es1 es2, es = es1 ++ es2 ∧ play_all t es1 s = Some s'.

(** *** Guards and references are bracketed *)
Inductive bracketed : list event → Prop :=
| br_nil : bracketed []
| br_app l k : bracketed l → bracketed k → bracketed (l ++ k)
| br_guarded l k : bracketed l → bracketed k → bracketed (guarded l k).

Lemma bracketed_concat (f : call → list event) l :
  Forall (λ c, bracketed (f c)) l → bracketed (concat (map f l)).
Proof. induction 1; simpl; by constructor. Qed.
Lemma bracketed_call c n : bracketed (call_events n c).
Proof.
  assert (∀ n l, Forall (λ c, ∀ n, bracketed (call_events n c)) l → bracketed (concat (map (call_events n) l))) as Hl.
  { intros k l H. apply bracketed_concat. by eapply Forall_impl. }
  revert n. induction c as [frames op old Hf Ho Hd|op old Ho Hd] using call_nested_ind; intros n; simpl.
  - case_decide; [|constructor]. constructor; [by apply Hl|]. constructor; by apply Hl.
  - constructor; by apply Hl.
Qed.
Lemma bracketed_calls n l : bracketed (calls_events n l).
Proof. apply bracketed_concat, Forall_true. intros c. apply bracketed_call. Qed.
Lemma bracketed_entry e : bracketed (entry_events e).
Proof.
  destruct e as [c|op after]; [apply bracketed_call|]. constructor; [constructor|]; [|constructor|];
    apply bracketed_calls.
Qed.

(** *** The numbers of guards and of references, event by event *)
Definition move (e : event) (x : nat * nat) : nat * nat :=
  match e with
  | Lock => (S x.1, x.2)
  | Enter => (x.1, S x.2)
  | Leave => (x.1, pred x.2)
  | Drop_ => (pred x.1, x.2)
  end.
Fixpoint levels (es : list event) (x : nat * nat) : list (nat * nat) :=
  x :: match es with [] => [] | e :: es => levels es (move e x) end.
Definition final (es : list event) (x : nat * nat) : nat * nat := foldl (λ x e, move e x) x es.

Lemma final_app l k x : final (l ++ k) x = final k (final l x).
Proof. apply foldl_app. Qed.
Lemma levels_head es x : x ∈ levels es x.
Proof. destruct es; by left. Qed.
Lemma levels_cons e es x y : y ∈ levels (e :: es) x ↔ y = x ∨ y ∈ levels es (move e x).
Proof. apply elem_of_cons. Qed.
Lemma levels_app l k x y : y ∈ levels (l ++ k) x ↔ y ∈ levels l x ∨ y ∈ levels k (final l x).
Proof.
  revert x. induction l as [|e l IH]; intros x; cbn [app].
  - cbn [levels]. rewrite list_elem_of_singleton. simpl. pose proof (levels_head k x). naive_solver.
  - rewrite !levels_cons, IH. naive_solver.
Qed.
Lemma final_bracketed es x : bracketed es → final es x = x.
Proof.
  intros H. revert x. induction H as [|l k _ IHl _ IHk|l k _ IHl _ IHk]; intros x; [done| |].
  - by rewrite final_app, IHl, IHk.
  - destruct x. unfold guarded. rewrite !final_app, IHl. simpl. by rewrite IHk.
Qed.
Lemma levels_guarded l k g b y :
  bracketed l → bracketed k →
  y ∈ levels (guarded l k) (g, b) ↔
    y = (g, b) ∨ y = (S g, b) ∨ y ∈ levels l (S g, S b) ∨ y ∈ levels k (S g, b).
Proof.
  intros Hl Hk. unfold guarded. cbn [app]. rewrite !levels_cons, levels_app, (final_bracketed l) by done.
  rewrite levels_cons, levels_app, (final_bracketed k) by done. cbn [move fst snd pred].
  rewrite levels_cons. cbn [levels move fst snd pred]. rewrite list_elem_of_singleton.
  pose proof (levels_head l (S g, S b)). pose proof (levels_head k (S g, b)). naive_solver.
Qed.

(** Each reference has a guard of its own. *)
Lemma levels_bracketed es g b y :
  bracketed es → y ∈ levels es (g, b) → ∃ i j, y = (g + i, b + j) ∧ j ≤ i.
Proof.
  intros H. revert g b. induction H as [|l k Hl IHl Hk IHk|l k Hl IHl Hk IHk]; intros g b.
  - intros ->%list_elem_of_singleton. exists 0, 0. split; [f_equal|]; lia.
  - rewrite levels_app, (final_bracketed l) by done. intros [?|?]; auto.
  - rewrite levels_guarded by done. intros [-> |[-> |[Hy|Hy]]].
    + exists 0, 0. split; [f_equal|]; lia.
    + exists 1, 0. split; [f_equal|]; lia.
    + destruct (IHl _ _ Hy) as (i&j&->&?). exists (S i), (S j). split; [f_equal|]; lia.
    + destruct (IHk _ _ Hy) as (i&j&->&?). exists (S i), j. split; [f_equal|]; lia.
Qed.

(** At least [d] references more than at the start. *)
Definition deep (d : nat) (es : list event) (g b : nat) : Prop := ∃ y, y ∈ levels es (g, b) ∧ b + d ≤ y.2.

Lemma deep_0 es g b : deep 0 es g b.
Proof. exists (g, b). split; [apply levels_head|simpl; lia]. Qed.
Lemma deep_nil d g b : ¬ deep (S d) [] g b.
Proof. intros (y&->%list_elem_of_singleton&Hy). simpl in Hy. lia. Qed.
Lemma deep_app d l k g b : bracketed l → deep d (l ++ k) g b ↔ deep d l g b ∨ deep d k g b.
Proof.
  intros Hl. unfold deep. setoid_rewrite levels_app. rewrite (final_bracketed l) by done. naive_solver.
Qed.
Lemma deep_guarded d l k g b :
  bracketed l → bracketed k →
  deep (S d) (guarded l k) g b ↔ deep d l (S g) (S b) ∨ deep (S d) k (S g) b.
Proof.
  intros Hl Hk. unfold deep. setoid_rewrite levels_guarded; [|done..]. split.
  - intros (y&[-> |[-> |[Hy|Hy]]]&Hle); simpl in Hle; [lia|lia| |]; [left|right]; exists y; (split; [done|lia]).
  - intros [(y&Hy&Hle)|(y&Hy&Hle)]; exists y; (split; [tauto|lia]).
Qed.
Lemma deep_calls d n l g b :
  deep (S d) (calls_events n l) g b ↔ ∃ c, c ∈ l ∧ deep (S d) (call_events n c) g b.
Proof.
  induction l as [|c l IH].
  - split; [by intros ?%deep_nil|]. by intros (c&?%elem_of_nil&_).
  - unfold calls_events. cbn [map concat]. rewrite (deep_app _ _ _ _ _ (bracketed_call c n)).
    fold (calls_events n l). rewrite IH. setoid_rewrite elem_of_cons. naive_solver.
Qed.

Lemma existsb_elem {B} (f : B → bool) l : existsb f l = true ↔ ∃ x, x ∈ l ∧ f x = true.
Proof. rewrite existsb_exists. by setoid_rewrite list_elem_of_In. Qed.

Lemma call_events_eq n c :
  call_events n c =
    match c with
    | Alloc frames op old =>
        if decide (S n = 1) then
          calls_events (S n) frames ++ guarded (calls_events (S n) op) (calls_events (S n) old)
        else []
    | Dealloc op old => guarded (calls_events n op) (calls_events n old)
    end.
Proof. by destruct c. Qed.

Lemma deep_takes n c g b : deep 1 (call_events n c) g b ↔ takes n c = true.
Proof.
  pose proof deep_0 as H0. rewrite call_events_eq. destruct c as [frames op old|op old]; cbn [takes].
  - case_decide; [rewrite bool_decide_true by lia|rewrite bool_decide_false by lia].
    + rewrite deep_app, deep_guarded by apply bracketed_calls. naive_solver.
    + split; [by intros ?%deep_nil|done].
  - rewrite deep_guarded by apply bracketed_calls. naive_solver.
Qed.
Lemma deep_takes_calls n l g b : deep 1 (calls_events n l) g b ↔ existsb (takes n) l = true.
Proof. rewrite deep_calls, existsb_elem. by setoid_rewrite deep_takes. Qed.

Lemma deep_aliases n c g b : deep 2 (call_events n c) g b ↔ aliases n c = true.
Proof.
  revert n g b. induction c as [frames op old Hf _ Hd|op old _ Hd] using call_nested_ind; intros n g b.
  all: assert (∀ l, Forall (λ c, ∀ n g b, deep 2 (call_events n c) g b ↔ aliases n c = true) l →
      ∀ n g b, deep 2 (calls_events n l) g b ↔ existsb (aliases n) l = true) as Hl by
    (intros l Hl k g' b'; rewrite deep_calls, existsb_elem; rewrite Forall_forall in Hl; naive_solver).
  - rewrite call_events_eq. cbn [aliases]. case_decide.
    + rewrite bool_decide_true, deep_app, deep_guarded by (lia || apply bracketed_calls).
      rewrite deep_takes_calls, !Hl by done. rewrite !andb_true_iff, !orb_true_iff. naive_solver.
    + rewrite bool_decide_false by lia. split; [by intros ?%deep_nil|done].
  - rewrite call_events_eq, deep_guarded by apply bracketed_calls. cbn [aliases].
    by rewrite deep_takes_calls, Hl, orb_true_iff.
Qed.
Lemma deep_entry e g b : deep 2 (entry_events e) g b ↔ entry_aliases e = true.
Proof.
  destruct e as [c|op after]; [apply deep_aliases|]. unfold entry_events, report_events, entry_aliases.
  rewrite decide_True, deep_app by first [done|repeat constructor; apply bracketed_calls].
  rewrite deep_guarded, deep_takes_calls, deep_calls, orb_true_iff, !existsb_elem
    by first [apply bracketed_calls|constructor].
  setoid_rewrite deep_aliases. pose proof (deep_nil 1 (S g) b). naive_solver.
Qed.

(** *** What the mutex has *)
Section heap.
Context {T : Type} (t : nat) (v : T).

(** The mutex that [t] holds [x.1] times, with [x.2] references. *)
Definition held (x : nat * nat) : RecursiveMutex T * nat :=
  ({| c_mutex := match x.1 with 0 => None | n => Some (t, n) end; cell := v; guards := replicate x.1 t |}, x.2).

Lemma play_held e x : play t e (held x) = Some (held (move e x)).
Proof.
  destruct x as [n b], e; try done.
  - unfold play, lock, held. simpl. destruct n; simpl; [done|]. by rewrite decide_True.
  - unfold play, guard_drop, held. by destruct n as [|[|n]].
Qed.
Lemma play_all_held es x : play_all t es (held x) = Some (held (final es x)).
Proof. revert x. induction es as [|e es IH]; intros x; [done|]. cbn [play_all]. rewrite play_held. apply IH. Qed.
Lemma passes_held es x s : passes t es (held x) s ↔ ∃ y, y ∈ levels es x ∧ s = held y.
Proof.
  split.
  - intros (es1&es2&->&Hp). rewrite play_all_held in Hp. injection Hp as <-. exists (final es1 x).
    split; [|done]. apply levels_app. right. apply levels_head.
  - intros (y&Hy&->). revert x Hy. induction es as [|e es IH]; intros x Hy.
    + apply list_elem_of_singleton in Hy as ->. by exists [], [].
    + apply levels_cons in Hy as [->|Hy]; [by exists [], (e :: es)|].
      destruct (IH _ Hy) as (es1&es2&->&Hp). exists (e :: es1), es2. split; [done|].
      cbn [play_all]. by rewrite play_held.
Qed.
End heap.

(** ** Property *)

(** C37. The mutex of the heap profiler keeps other threads out, but not the profiler itself.  In
    every run of the mutex the guards that are alive belong to one thread, and exactly the other
    threads wait.  A call of the allocator, or [report], never waits for itself, leaves the mutex as it was, and
    at any point has at most one reference to the table per guard.  Two references to the one table are alive
    together exactly when a method of the table, or its iterator, is under way while a call
    gets to the lock: a [dealloc] there always does, [unregister] having no reentrancy guard.  The
    [Block] of a tracked address, dropped under the guard, takes the mutex twice, but then [remove] is over. *)
Theorem map_is_borrowed_twice {T} (v : T) t :
  (∀ m t1 t2, rtc mutex_step (RecursiveMutex_new v) m →
    (t1 ∈ guards m → t2 ∈ guards m → t1 = t2) ∧ (lock t1 m = None ↔ ∃ t', t' ∈ guards m ∧ t' ≠ t1)) ∧
  (∀ e, play_all t (entry_events e) (RecursiveMutex_new v, 0) = Some (RecursiveMutex_new v, 0) ∧
    (∀ m b, passes t (entry_events e) (RecursiveMutex_new v, 0) (m, b) →
       ∃ n, guards m = replicate n t ∧ b ≤ n) ∧
    ((∃ m b, passes t (entry_events e) (RecursiveMutex_new v, 0) (m, b) ∧ 2 ≤ b) ↔ entry_aliases e = true)) ∧
  (∀ frames op old o d, Dealloc o d ∈ op → entry_aliases (Call (Alloc frames op old)) = true) ∧
  (∃ m, passes t (entry_events (Call (Dealloc [] [Dealloc [] []]))) (RecursiveMutex_new v, 0) (m, 1) ∧
     guards m = [t; t]) ∧
  entry_aliases (Call (Dealloc [] [Dealloc [] []])) = false.
Proof.
  change (RecursiveMutex_new v, 0) with (held t v (0, 0)). split_and!; [| | | |done].
  - intros m t1 t2 Hr. split; [by eapply mutex_excludes_threads|by eapply mutex_waits_for_others].
  - intros e. rewrite play_all_held, final_bracketed by apply bracketed_entry. split; [done|]. split.
    + intros m b ([i j]&Hy&[= -> ->])%passes_held. apply levels_bracketed in Hy as (i'&j'&[= -> ->]&?);
        [|apply bracketed_entry]. by exists i'.
    + rewrite <-(deep_entry e 0 0). unfold deep. setoid_rewrite passes_held. split.
      * intros (m&b&([i j]&Hy&[= -> ->])&Hb). by exists (i, j).
      * intros ([i j]&Hy&Hb). exists (held t v (i, j)).1, j. split; [by exists (i, j)|done].
  - intros frames op old o d Hin. simpl. rewrite !orb_true_iff, (existsb_elem (takes 1) op). left; right.
    by exists (Dealloc o d).
  - exists (held t v (2, 1)).1. split; [|done]. apply passes_held. exists (2, 1). split; [|done].
    cbn. do 5 right. left.
Qed.

(** An insertion that allocates a new table and frees the old one. *)
Lemma map_is_borrowed_twice_witness :
  ∃ m b, passes 7 [Lock; Enter; Lock; Enter; Leave; Drop_; Leave; Drop_] (RecursiveMutex_new 0, 0) (m, b) ∧ 2 ≤ b.
Proof.
  destruct (map_is_borrowed_twice 0 7) as (_&H&Ha&_).
  apply (H (Call (Alloc [] [Alloc [] [] []; Dealloc [] []] []))).
  apply (Ha [] [Alloc [] [] []; Dealloc [] []] [] [] []). right. left.
Defined.
