(* ===== verification/Profiler.v ===== *)
(** * crates/pprof/src/profiler: the heap and the CPU profiler

    The heap profiler wraps the system allocator.  Its own allocations reenter it, so an
    allocation or deallocation is an event with the events that happen inside it, of the same
    and of other threads; the guard of [crate::c::Reentrancy] is a counter per thread.  The
    pointers that the system allocator returns are part of the events.  The CPU profiler is a
    step relation: a sample reads the flag and pushes in two steps. *)

From S2P Require Import Prelude.
From S2P Require Import PprofReport.

(** ** heap.rs *)
Record HeapProfilerStats := { st_blocks : Z; st_memory_size : Z }.

Record Block := { blk_size : N; blk_frames : list N }.

Record HeapProfiler := {
  blocks : gmap N Block;
  counter : Z;
  memory_size : Z;
}.
Definition HeapProfiler_new : HeapProfiler := {| blocks := ∅; counter := 0; memory_size := 0 |}.

(** The global profiler and, per thread, the counter of the guard. *)
Record World := { global : option HeapProfiler; depth : gmap nat nat }.

Definition set_depth (d : gmap nat nat) (w : World) : World := {| global := global w; depth := d |}.
Definition count (t : nat) (w : World) : nat := default 0 (depth w !! t).

(** [Reentrancy::new], [is_ok] and drop. *)
Definition guard_new (t : nat) (w : World) : World * nat :=
  let n := S (count t w) in (set_depth (<[t := n]> (depth w)) w, n).
Definition guard_is_ok (n : nat) : bool := n =? 1.
Definition guard_drop (t : nat) (w : World) : World := set_depth (<[t := pred (count t w)]> (depth w)) w.

Definition on_profiler (f : HeapProfiler → HeapProfiler) (w : World) : World :=
  {| global := f <$> global w; depth := depth w |}.

Definition fetch_add (x : Z) (y : Z) : Z := wrap 64 (x + y).
Definition fetch_sub (x : Z) (y : Z) : Z := wrap 64 (x - y).

(** [HeapProfiler::register]; [inner] is what happens meanwhile: [get_backtrace] and the
    growth of the table call the allocator, and so do other threads. *)
Definition register (t : nat) (ptr size : N) (frames : list N) (inner : World → World) (w : World) : World :=
  let '(w, n) := guard_new t w in
  let w :=
    if guard_is_ok n then
      let w := inner w in
      on_profiler (λ h, {| blocks := <[ptr := {| blk_size := size; blk_frames := frames |}]> (blocks h);
                           counter := fetch_add (counter h) 1;
                           memory_size := fetch_add (memory_size h) (Z.of_N size) |}) w
    else inner w in
  guard_drop t w.

(** [HeapProfiler::unregister]; [inner] is what happens meanwhile, as the drop of the removed
    block. *)
Definition unregister (ptr size : N) (inner : World → World) (w : World) : World :=
  match h ← global w; blocks h !! ptr with
  | Some _ =>
      let w := on_profiler (λ h, {| blocks := delete ptr (blocks h); counter := counter h;
                                    memory_size := memory_size h |}) w in
      let w := inner w in
      on_profiler (λ h, {| blocks := blocks h; counter := fetch_sub (counter h) 1;
                           memory_size := fetch_sub (memory_size h) (Z.of_N size) |}) w
  | None => inner w
  end.

(** A call of the allocator by thread [t], with the calls inside it. *)
Inductive event :=
| Alloc (t : nat) (ptr size : N) (frames : list N) (inner : list event)
| Dealloc (ptr size : N) (inner : list event).

(** [GlobalAlloc for HeapProfilerAlloc]. *)
Fixpoint run (e : event) (w : World) : World :=
  match e with
  | Alloc t ptr size frames inner =>
      let inner w := foldl (λ w e, run e w) w inner in
      match global w with Some _ => register t ptr size frames inner w | None => inner w end
  | Dealloc ptr size inner =>
      let inner w := foldl (λ w e, run e w) w inner in
      match global w with Some _ => unregister ptr size inner w | None => inner w end
  end.
Definition runs (l : list event) (w : World) : World := foldl (λ w e, run e w) w l.

#[local] Notation M := (sm World ErrorKind).

Definition heap_profiler_start : M () := λ w,
  match global w with
  | Some _ => (w, Panic)
  | None => ({| global := Some HeapProfiler_new; depth := depth w |}, Ok ())
  end.

Definition generate_stats (h : HeapProfiler) : HeapProfilerStats :=
  {| st_blocks := counter h; st_memory_size := memory_size h |}.
Definition heap_profiler_stats : M HeapProfilerStats :=
  h ← gets global; match h with Some h => mret (generate_stats h) | None => panic end.

(** ** frames.rs *)
Section symbols.
(** [backtrace::resolve_unsynchronized]: the symbols that it calls back with, in order. *)
Context (resolve : N → list Symbol).

Definition frames_to_symbols (frames : list N) : list Symbol := omap (λ addr, head (resolve addr)) frames.

(** ** Reports of the heap profiler

    [R] is the state of the report, [cb] its [report_block_info] and [snapshot] the entries
    of the table in the order in which the iterator gives them. *)
Section report.
Context {R E : Type} (cb : N → N → list Symbol → sm R E bool).

Fixpoint report_loop (snapshot : list (N * Block)) : sm R E () :=
  match snapshot with
  | [] => mret ()
  | (ptr, bt) :: snapshot =>
      more ← cb ptr (blk_size bt) (frames_to_symbols (blk_frames bt));
      if more : bool then report_loop snapshot else mret ()
  end.

Definition heap_report (t : nat) (snapshot : list (N * Block)) (w : World) : sm R E () :=
  match global w with
  | Some _ => if guard_is_ok (guard_new t w).2 then report_loop snapshot else mret ()
  | None => panic
  end.
End report.
End symbols.

(** ** What the allocator promises

    [ok held live e live']: [live] are the blocks and their sizes, of which nobody frees those
    of [held] for the moment. *)
Inductive ok : gset N → gmap N N → event → gmap N N → Prop :=
| ok_alloc held live t ptr size frames inner live' :
    live !! ptr = None → oks ({[ptr]} ∪ held) (<[ptr := size]> live) inner live' →
    ok held live (Alloc t ptr size frames inner) live'
| ok_dealloc held live ptr size inner live' :
    live !! ptr = Some size → ptr ∉ held → oks ({[ptr]} ∪ held) live inner live' →
    ok held live (Dealloc ptr size inner) (delete ptr live')
with oks : gset N → gmap N N → list event → gmap N N → Prop :=
| oks_nil held live : oks held live [] live
| oks_cons held live e live1 l live2 :
    ok held live e live1 → oks held live1 l live2 → oks held live (e :: l) live2.

Scheme ok_mut := Induction for ok Sort Prop with oks_mut := Induction for oks Sort Prop.
Combined Scheme ok_oks_ind from ok_mut, oks_mut.

(** The specification: the blocks that a thread outside the profiler allocated and that were
    not freed since. [inside] are the threads inside. *)
Fixpoint tracked (inside : gset nat) (e : event) (m : gmap N N) : gmap N N :=
  match e with
  | Alloc t ptr size frames inner =>
      if decide (t ∈ inside) then foldl (λ m e, tracked inside e m) m inner
      else <[ptr := size]> (foldl (λ m e, tracked ({[t]} ∪ inside) e m) m inner)
  | Dealloc ptr size inner => foldl (λ m e, tracked inside e m) (delete ptr m) inner
  end.
Definition tracked_all (inside : gset nat) (l : list event) (m : gmap N N) : gmap N N :=
  foldl (λ m e, tracked inside e m) m l.

(** ** The invariant *)
Definition total (b : gmap N Block) : Z := map_fold (λ _ b z, (Z.of_N (blk_size b) + z)%Z) 0%Z b.

Lemma total_insert b p x : b !! p = None → total (<[p := x]> b) = (Z.of_N (blk_size x) + total b)%Z.
Proof. intros. unfold total. rewrite map_fold_insert_L; [done| |done]. intros. lia. Qed.

Lemma total_delete b p x : b !! p = Some x → total b = (Z.of_N (blk_size x) + total (delete p b))%Z.
Proof. intros Hp. rewrite <-(total_insert _ p), insert_delete_id; [done|done|apply lookup_delete_eq]. Qed.

(** The counters are ahead of the table by [d] blocks and [s] bytes. *)
Record heap_inv (inside : gset nat) (m : gmap N N) (d s : Z) (w : World) : Prop := {
  hi_depth t : t ∈ inside ↔ 0 < count t w;
  hi_heap : ∃ h, global w = Some h ∧ blk_size <$> blocks h = m ∧
    counter h = wrap 64 (Z.of_nat (size m) + d) ∧ memory_size h = wrap 64 (total (blocks h) + s);
}.

Lemma wrap_add_l x y : wrap 64 (wrap 64 x + y) = wrap 64 (x + y).
Proof. apply Zplus_mod_idemp_l. Qed.
Lemma wrap_sub_l x y : wrap 64 (wrap 64 x - y) = wrap 64 (x - y).
Proof. apply Zminus_mod_idemp_l. Qed.

(** What an event keeps: [m] and [live] before, [m'], [live'] and [w'] after. *)
Record kept (inside : gset nat) (held : gset N) (live live' m' : gmap N N) (d s : Z) (w w' : World) : Prop := {
  k_inv : heap_inv inside m' d s w';
  k_count t : count t w' = count t w;
  k_sub : m' ⊆ live';
  k_held p : p ∈ held → m' !! p = None ∧ live' !! p = live !! p;
}.

Record before (inside : gset nat) (held : gset N) (live m : gmap N N) (d s : Z) (w : World) : Prop := {
  b_inv : heap_inv inside m d s w;
  b_sub : m ⊆ live;
  b_held p : p ∈ held → m !! p = None ∧ is_Some (live !! p);
}.

Lemma kept_before inside held live live' m' d s w w' :
  (∀ p, p ∈ held → is_Some (live !! p)) →
  kept inside held live live' m' d s w w' → before inside held live' m' d s w'.
Proof.
  intros Hheld [H1 H2 H3 H4]. split; [done|done|]. intros p Hp.
  destruct (H4 p Hp) as [? ->]. auto.
Qed.

(** Entering and leaving the guard. *)
Lemma guard_inv inside m d s w t :
  heap_inv inside m d s w →
  heap_inv ({[t]} ∪ inside) m d s (guard_new t w).1 ∧
  guard_is_ok (guard_new t w).2 = bool_decide (t ∉ inside).
Proof.
  intros [Hd Hh]. unfold guard_new, guard_is_ok. cbn [fst snd]. split.
  - split; [|done]. intros t'. unfold count, set_depth. cbn [depth].
    destruct (decide (t' = t)) as [->|]; [rewrite lookup_insert_eq|rewrite lookup_insert_ne by done]; simpl.
    + set_solver by lia.
    + rewrite elem_of_union, elem_of_singleton. rewrite Hd. unfold count. naive_solver.
  - case_bool_decide as Ht; rewrite Hd in Ht; [apply Nat.eqb_eq|apply Nat.eqb_neq]; lia.
Qed.

Lemma guard_drop_inv inside m d s w w0 t :
  (∀ t', t' ∈ inside ↔ 0 < count t' w0) → heap_inv ({[t]} ∪ inside) m d s w →
  (∀ t', count t' w = count t' (guard_new t w0).1) →
  heap_inv inside m d s (guard_drop t w) ∧ ∀ t', count t' (guard_drop t w) = count t' w0.
Proof.
  intros Hin [Hd Hh] Hc.
  assert (∀ t', count t' (guard_drop t w) = count t' w0) as Hback.
  { intros t'. unfold guard_drop, set_depth, count at 1. cbn [depth].
    destruct (decide (t' = t)) as [->|]; [rewrite lookup_insert_eq|rewrite lookup_insert_ne by done]; simpl.
    - rewrite (Hc t). unfold guard_new, count, set_depth. simpl. by rewrite lookup_insert_eq.
    - pose proof (Hc t') as H. unfold guard_new, count, set_depth in *. simpl in H.
      by rewrite lookup_insert_ne in H. }
  split; [|done]. split; [|done]. intros t'. by rewrite Hback.
Qed.

(** A block enters the table. *)
Lemma insert_inv inside m d s w ptr size frames :
  heap_inv inside m d s w → m !! ptr = None →
  heap_inv inside (<[ptr := size]> m) d s
    (on_profiler (λ h, {| blocks := <[ptr := {| blk_size := size; blk_frames := frames |}]> (blocks h);
                          counter := fetch_add (counter h) 1;
                          memory_size := fetch_add (memory_size h) (Z.of_N size) |}) w).
Proof.
  intros [Hd (h&Hg&Hb&Hc&Hm)] Hnew. split; [done|]. unfold on_profiler. cbn [global]. rewrite Hg.
  eexists. split; [done|]. cbn [blocks counter memory_size fmap].
  assert (blocks h !! ptr = None) as Hnone.
  { rewrite <-Hb, lookup_fmap in Hnew. by apply fmap_None in Hnew. }
  split_and!.
  - by rewrite fmap_insert, Hb.
  - rewrite Hc. unfold fetch_add. rewrite wrap_add_l, map_size_insert_None by done. f_equal. lia.
  - rewrite Hm. unfold fetch_add. rewrite wrap_add_l, total_insert by done. f_equal. simpl. lia.
Qed.

(** A block leaves the table, and the counters are ahead. *)
Lemma delete_inv inside m d s w ptr size :
  heap_inv inside m d s w → m !! ptr = Some size →
  heap_inv inside (delete ptr m) (d + 1) (s + Z.of_N size)
    (on_profiler (λ h, {| blocks := delete ptr (blocks h); counter := counter h;
                          memory_size := memory_size h |}) w).
Proof.
  intros [Hd (h&Hg&Hb&Hc&Hm)] Hin. split; [done|]. unfold on_profiler. cbn [global]. rewrite Hg.
  eexists. split; [done|]. cbn [blocks counter memory_size fmap].
  pose proof Hin as Hp. rewrite <-Hb, lookup_fmap in Hp. apply fmap_Some in Hp as (b&Hp&->).
  split_and!.
  - by rewrite fmap_delete, Hb.
  - rewrite Hc, (map_size_delete_Some ptr m (mk_is_Some _ _ Hin)). f_equal.
    assert (size m ≠ 0); [|lia]. apply map_size_non_empty_iff. intros Hm0. by rewrite Hm0, lookup_empty in Hin.
  - rewrite Hm, (total_delete _ _ _ Hp). f_equal. lia.
Qed.

(** The counters catch up. *)
Lemma sub_inv inside m d s w size :
  heap_inv inside m (d + 1) (s + Z.of_N size) w →
  heap_inv inside m d s
    (on_profiler (λ h, {| blocks := blocks h; counter := fetch_sub (counter h) 1;
                          memory_size := fetch_sub (memory_size h) (Z.of_N size) |}) w).
Proof.
  intros [Hd (h&Hg&Hb&Hc&Hm)]. split; [done|]. unfold on_profiler. cbn [global]. rewrite Hg.
  eexists. split; [done|]. cbn [blocks counter memory_size fmap]. unfold fetch_sub.
  split_and!; [done| |].
  - rewrite Hc, wrap_sub_l. f_equal. lia.
  - rewrite Hm, wrap_sub_l. f_equal. lia.
Qed.

Lemma before_held inside held live m d s w p :
  before inside held live m d s w → p ∈ held → is_Some (live !! p).
Proof. intros H Hp. by apply (b_held _ _ _ _ _ _ _ H). Qed.

(** The inner events of an allocation. *)
Lemma alloc_before inside inside' held live m d s w w' ptr size :
  before inside held live m d s w → live !! ptr = None → heap_inv inside' m d s w' →
  before inside' ({[ptr]} ∪ held) (<[ptr := size]> live) m d s w'.
Proof.
  intros [_ Hsub Hheld] Hnew Hinv. pose proof (lookup_weaken_None _ _ _ Hnew Hsub) as Hm.
  split; [done|by apply insert_subseteq_r|].
  intros p [->%elem_of_singleton|Hp]%elem_of_union.
  - split; [done|]. rewrite lookup_insert_eq. by eexists.
  - destruct (Hheld p Hp) as [? Hl]. split; [done|].
    rewrite lookup_insert_ne; [done|]. intros ->. rewrite Hnew in Hl. by destruct Hl.
Qed.

(** The allocation of a thread that is inside the profiler, and of one that is not. *)
Lemma alloc_nested inside held live live' m d s w t ptr size frames inner :
  before inside held live m d s w → live !! ptr = None → t ∈ inside →
  (∀ w1, before inside ({[ptr]} ∪ held) (<[ptr := size]> live) m d s w1 →
    kept inside ({[ptr]} ∪ held) (<[ptr := size]> live) live' (tracked_all inside inner m) d s w1 (runs inner w1)) →
  kept inside held live live' (tracked_all inside inner m) d s w (register t ptr size frames (runs inner) w).
Proof.
  intros Hb Hnew Ht IH. pose proof (b_inv _ _ _ _ _ _ _ Hb) as Hinv.
  destruct (guard_inv _ _ _ _ _ t Hinv) as [Hinv1 Hok]. unfold register.
  destruct (guard_new t w) as [w1 n] eqn:Hgn. cbn [fst snd] in *.
  rewrite Hok, bool_decide_eq_false_2 by (intros H; by apply H).
  assert ({[t]} ∪ inside = inside) as Hset by set_solver. rewrite Hset in Hinv1.
  destruct (IH w1 (alloc_before _ _ _ _ _ _ _ _ _ _ _ Hb Hnew Hinv1)) as [K1 K2 K3 K4].
  rewrite <-Hset in K1.
  destruct (guard_drop_inv inside _ _ _ _ w t (hi_depth _ _ _ _ _ Hinv) K1) as [D1 D2].
  { intros t'. by rewrite K2, Hgn. }
  split; [by rewrite Hset in D1|done|done|]. intros p Hp. destruct (K4 p) as [? Hl]; [set_solver|].
  split; [done|]. rewrite Hl, lookup_insert_ne; [done|]. intros ->.
  destruct (before_held _ _ _ _ _ _ _ _ Hb Hp). congruence.
Qed.

Lemma alloc_outer inside held live live' m d s w t ptr size frames inner :
  before inside held live m d s w → live !! ptr = None → t ∉ inside →
  (∀ w1, before ({[t]} ∪ inside) ({[ptr]} ∪ held) (<[ptr := size]> live) m d s w1 →
    kept ({[t]} ∪ inside) ({[ptr]} ∪ held) (<[ptr := size]> live) live'
      (tracked_all ({[t]} ∪ inside) inner m) d s w1 (runs inner w1)) →
  kept inside held live live' (<[ptr := size]> (tracked_all ({[t]} ∪ inside) inner m)) d s w
    (register t ptr size frames (runs inner) w).
Proof.
  intros Hb Hnew Ht IH. pose proof (b_inv _ _ _ _ _ _ _ Hb) as Hinv.
  destruct (guard_inv _ _ _ _ _ t Hinv) as [Hinv1 Hok]. unfold register.
  destruct (guard_new t w) as [w1 n] eqn:Hgn. cbn [fst snd] in *.
  rewrite Hok, bool_decide_eq_true_2 by done.
  destruct (IH w1 (alloc_before _ _ _ _ _ _ _ _ _ _ _ Hb Hnew Hinv1)) as [K1 K2 K3 K4].
  destruct (K4 ptr) as [Kp1 Kp2]; [set_solver|]. rewrite lookup_insert_eq in Kp2.
  apply (insert_inv _ _ _ _ _ ptr size frames) in K1; [|done].
  destruct (guard_drop_inv inside _ _ _ _ w t (hi_depth _ _ _ _ _ Hinv) K1) as [D1 D2].
  { intros t'. rewrite Hgn. apply (K2 t'). }
  split; [done|done|by apply insert_subseteq_l|]. intros p Hp.
  assert (p ≠ ptr) as Hne by (intros ->; destruct (before_held _ _ _ _ _ _ _ _ Hb Hp); congruence).
  destruct (K4 p) as [? Hl]; [set_solver|]. rewrite Hl, !lookup_insert_ne by done. done.
Qed.

Lemma dealloc_kept inside held live live' m d s w ptr size inner :
  before inside held live m d s w → live !! ptr = Some size → ptr ∉ held →
  (∀ d s w1, before inside ({[ptr]} ∪ held) live (delete ptr m) d s w1 →
    kept inside ({[ptr]} ∪ held) live live' (tracked_all inside inner (delete ptr m)) d s w1 (runs inner w1)) →
  kept inside held live (delete ptr live') (tracked_all inside inner (delete ptr m)) d s w
    (unregister ptr size (runs inner) w).
Proof.
  intros [Hinv Hsub Hheld] Hlive Hnheld IH.
  destruct (hi_heap _ _ _ _ _ Hinv) as (h&Hg&Hbl&_).
  assert (∀ d s w1, heap_inv inside (delete ptr m) d s w1 →
    before inside ({[ptr]} ∪ held) live (delete ptr m) d s w1) as Hbefore.
  { intros d1 s1 w1 H1. split; [done|by etrans; [apply delete_subseteq|]|].
    intros p [->%elem_of_singleton|Hp]%elem_of_union; [by rewrite lookup_delete_eq|].
    rewrite lookup_delete_ne by set_solver. by apply Hheld. }
  assert (∀ d1 s1 w1 w2, kept inside ({[ptr]} ∪ held) live live' (tracked_all inside inner (delete ptr m)) d1 s1 w1 w2 →
    (∀ t, count t w1 = count t w) → ∀ w3, heap_inv inside (tracked_all inside inner (delete ptr m)) d s w3 →
    (∀ t, count t w3 = count t w2) →
    kept inside held live (delete ptr live') (tracked_all inside inner (delete ptr m)) d s w w3) as Hdone.
  { intros d1 s1 w1 w2 [K1 K2 K3 K4] Hc w3 H3 Hc3. destruct (K4 ptr) as [Kp _]; [set_solver|].
    split; [done|intros t; by rewrite Hc3, K2| |].
    - rewrite <-(delete_id _ _ Kp). by apply delete_mono.
    - intros p Hp. rewrite lookup_delete_ne by set_solver. apply K4. set_solver. }
  unfold unregister. rewrite Hg. cbn [mbind option_bind].
  destruct (blocks h !! ptr) as [b|] eqn:Hb.
  - assert (m !! ptr = Some size) as Hm.
    { assert (m !! ptr = Some (blk_size b)) as Hm by (by rewrite <-Hbl, lookup_fmap, Hb).
      pose proof (lookup_weaken _ _ _ _ Hm Hsub). congruence. }
    pose proof (IH _ _ _ (Hbefore _ _ _ (delete_inv _ _ _ _ _ _ _ Hinv Hm))) as K.
    eapply Hdone; [exact K|done|by apply sub_inv, (k_inv _ _ _ _ _ _ _ _ _ K)|done].
  - assert (m !! ptr = None) as Hm by (by rewrite <-Hbl, lookup_fmap, Hb).
    pose proof (delete_id _ _ Hm) as Hid.
    assert (heap_inv inside (delete ptr m) d s w) as Hinv' by (by rewrite Hid).
    pose proof (IH _ _ _ (Hbefore _ _ _ Hinv')) as K.
    eapply Hdone; [exact K|done|apply (k_inv _ _ _ _ _ _ _ _ _ K)|done].
Qed.

Lemma run_kept :
  (∀ held live e live', ok held live e live' → ∀ inside m d s w,
     before inside held live m d s w → kept inside held live live' (tracked inside e m) d s w (run e w)) ∧
  (∀ held live l live', oks held live l live' → ∀ inside m d s w,
     before inside held live m d s w → kept inside held live live' (tracked_all inside l m) d s w (runs l w)).
Proof.
  apply ok_oks_ind.
  - intros held live t ptr size frames inner live' Hnew Hin IH inside m d s w Hb. cbn [run tracked].
    destruct (hi_heap _ _ _ _ _ (b_inv _ _ _ _ _ _ _ Hb)) as (h&Hg&_). rewrite Hg.
    destruct (decide (t ∈ inside)) as [Ht|Ht].
    + eapply (alloc_nested inside); [done|done|done|auto].
    + eapply (alloc_outer inside); [done|done|done|auto].
  - intros held live ptr size inner live' Hlive Hnheld Hin IH inside m d s w Hb. cbn [run tracked].
    destruct (hi_heap _ _ _ _ _ (b_inv _ _ _ _ _ _ _ Hb)) as (h&Hg&_). rewrite Hg.
    eapply dealloc_kept; [done|done|done|auto].
  - intros held live inside m d s w [H1 H2 H3]. split; [done|done|done|]. intros p Hp. by destruct (H3 p Hp).
  - intros held live e live1 l live2 _ IH1 _ IH2 inside m d s w Hb. cbn.
    pose proof (IH1 inside m d s w Hb) as K1.
    pose proof (IH2 inside _ d s _ (kept_before _ _ _ _ _ _ _ _ _ (λ p, before_held _ _ _ _ _ _ _ p Hb) K1)) as K2.
    destruct K2 as [K21 K22 K23 K24]. split; [done|intros t; by rewrite K22, (k_count _ _ _ _ _ _ _ _ _ K1)|done|].
    intros p Hp. destruct (K24 p Hp) as [? ->]. split; [done|]. by apply (k_held _ _ _ _ _ _ _ _ _ K1).
Qed.

Definition bytes_of (m : gmap N N) : Z := map_fold (λ _ n z, (Z.of_N n + z)%Z) 0%Z m.

Lemma total_bytes (b : gmap N Block) : total b = bytes_of (blk_size <$> b).
Proof.
  induction b as [|p x b Hp IH] using map_ind; [done|].
  rewrite total_insert, fmap_insert by done. unfold bytes_of in *.
  rewrite map_fold_insert_L, IH; [done|intros; lia|by rewrite lookup_fmap, Hp].
Qed.

(** The program after [heap_profiler_start]. *)
Definition started : World := {| global := Some HeapProfiler_new; depth := ∅ |}.

Lemma started_before live : before ∅ ∅ live ∅ 0 0 started.
Proof.
  split; [|apply map_empty_subseteq|set_solver]. split.
  - intros t. unfold count. simpl. rewrite lookup_empty. simpl. set_solver by lia.
  - by exists HeapProfiler_new.
Qed.

Lemma runs_inv live l live' :
  oks ∅ live l live' →
  heap_inv ∅ (tracked_all ∅ l ∅) 0 0 (runs l started) ∧ tracked_all ∅ l ∅ ⊆ live'.
Proof.
  intros Hl. destruct (proj2 run_kept _ _ _ _ Hl ∅ ∅ 0%Z 0%Z started (started_before live)) as [H1 _ H3 _].
  by split.
Qed.

(** ** The report is a list of block reports *)
Definition entry_of (resolve : N → list Symbol) (x : N * Block) : entry :=
  (x.1, blk_size x.2, frames_to_symbols resolve (blk_frames x.2)).

Lemma report_loop_spec resolve snapshot : ∀ l0 syms r,
  reports_inv Heap l0 syms r →
  ∃ r' syms', report_loop resolve report_block_info snapshot r = (r', Ok ()) ∧
    reports_inv Heap (l0 ++ (entry_of resolve <$> snapshot)) (syms ++ syms') r'.
Proof.
  induction snapshot as [|[ptr b] snapshot IH]; intros l0 syms r Hr; cbn [report_loop].
  { exists r, []. simpl. rewrite !app_nil_r. by split. }
  destruct (report_entry_spec Heap l0 syms r (entry_of resolve (ptr, b)) Hr) as (r1&syms1&He&Hr1).
  rewrite (bind_known (report_block_info _ _ _) _ true r r1 He).
  destruct (IH _ _ _ Hr1) as (r'&syms'&He'&Hr'). exists r', (syms1 ++ syms').
  rewrite <-!app_assoc in Hr'. by split.
Qed.

(** ** cpu.rs *)
Record CpuSample := { cpu_times : N; cpu_frames : list N }.
Record CpuProfiler := { cpu_samples : list CpuSample; cpu_flag : bool }.
Definition CpuProfiler_new : CpuProfiler := {| cpu_samples := []; cpu_flag := false |}.

#[local] Notation C := (sm CpuProfiler ErrorKind).

(** [compare_exchange(..).expect(..)]. *)
Definition exchange_flag (old new : bool) : C () :=
  b ← gets cpu_flag;
  assert_ (Bool.eqb b old);;
  modify (λ p, {| cpu_samples := cpu_samples p; cpu_flag := new |}).

Definition cpu_start : C () := exchange_flag false true.
(** [report]: the samples that it hands to the report one by one. *)
Definition cpu_report : C (list CpuSample) :=
  exchange_flag true false;;
  l ← gets cpu_samples;
  modify (λ p, {| cpu_samples := []; cpu_flag := cpu_flag p |});;
  mret l.
(** [sample], after the flag was read: [now] is taken after the backtrace. *)
Definition cpu_push (instant now : N) (frames : list N) : C () :=
  modify (λ p, {| cpu_samples := cpu_samples p ++ [{| cpu_times := now - instant; cpu_frames := frames |}];
                  cpu_flag := cpu_flag p |}).

(** A run: the samplers that have read the flag (with the instant and the session in which they
    read it), the number of starts, and the reports so far. *)
Record CpuRun := {
  cpu : CpuProfiler;
  samplers : gmap nat (N * nat);
  starts : nat;
  reports : list (list CpuSample);
  pushed : list (CpuSample * nat);
}.
Definition CpuRun_new : CpuRun :=
  {| cpu := CpuProfiler_new; samplers := ∅; starts := 0; reports := []; pushed := [] |}.

Inductive cpu_step : CpuRun → CpuRun → Prop :=
| cpu_step_start r p :
    cpu_start (cpu r) = (p, Ok ()) →
    cpu_step r {| cpu := p; samplers := samplers r; starts := S (starts r); reports := reports r; pushed := pushed r |}
| cpu_step_report r p l :
    cpu_report (cpu r) = (p, Ok l) →
    cpu_step r {| cpu := p; samplers := samplers r; starts := starts r; reports := reports r ++ [l]; pushed := pushed r |}
| cpu_step_read r t instant :
    samplers r !! t = None → cpu_flag (cpu r) = true →
    cpu_step r {| cpu := cpu r; samplers := <[t := (instant, starts r)]> (samplers r); starts := starts r;
                  reports := reports r; pushed := pushed r |}
| cpu_step_push r t instant session now frames p :
    samplers r !! t = Some (instant, session) → cpu_push instant now frames (cpu r) = (p, Ok ()) →
    cpu_step r {| cpu := p; samplers := delete t (samplers r); starts := starts r; reports := reports r;
                  pushed := pushed r ++ [({| cpu_times := now - instant; cpu_frames := frames |}, session)] |}.

Record cpu_inv (r : CpuRun) : Prop := {
  ci_all : concat (reports r) ++ cpu_samples (cpu r) = (pushed r).*1;
  ci_sessions : Forall (λ x, 0 < x.2 ≤ starts r) (pushed r);
  ci_samplers t x : samplers r !! t = Some x → 0 < x.2 ≤ starts r;
  ci_starts : starts r = length (reports r) + (if cpu_flag (cpu r) then 1 else 0);
}.

Lemma exchange_flag_spec old new p p' :
  exchange_flag old new p = (p', Ok ()) →
  cpu_flag p = old ∧ p' = {| cpu_samples := cpu_samples p; cpu_flag := new |}.
Proof.
  unfold exchange_flag, gets, assert_, modify, mbind, sm_bind, mret, sm_ret.
  destruct p as [l []], old; simpl; intros; by simplify_eq.
Qed.

Lemma cpu_report_spec p p' l :
  cpu_report p = (p', Ok l) →
  cpu_flag p = true ∧ l = cpu_samples p ∧ p' = {| cpu_samples := []; cpu_flag := false |}.
Proof.
  unfold cpu_report. destruct p as [sl []]; [|done]. intros H. cbv in H. by simplify_eq.
Qed.

Lemma cpu_step_inv r r' : cpu_inv r → cpu_step r r' → cpu_inv r'.
Proof.
  intros [Ha Hs Ht Hn] Hstep. destruct Hstep as [r p Hp|r p l Hp|r t i Hr Hf|r t i n now fr p Hr Hp].
  - apply exchange_flag_spec in Hp as [Hf ->]. rewrite Hf in Hn. split; simpl; [done| | |lia].
    + eapply Forall_impl; [done|]. simpl. lia.
    + intros t x Hx. specialize (Ht t x Hx). lia.
  - apply cpu_report_spec in Hp as (Hf&->&->). rewrite Hf in Hn. split; simpl; try done.
    + rewrite concat_app. simpl. by rewrite !app_nil_r.
    + rewrite length_app. simpl. lia.
  - rewrite Hf in Hn. split; simpl; try done; [|by rewrite Hf].
    intros t' x [[<- <-]|[_ Hx]]%lookup_insert_Some; [simpl; lia|by eapply Ht].
  - cbv [cpu_push modify] in Hp. simplify_eq. split; simpl.
    + by rewrite fmap_app, app_assoc, Ha.
    + apply Forall_app. split; [done|]. constructor; [|constructor]. exact (Ht t _ Hr).
    + intros t' x [_ Hx]%lookup_delete_Some. by eapply Ht.
    + done.
Qed.

Lemma cpu_inv_new : cpu_inv CpuRun_new.
Proof. split; [done|constructor|intros t x Hx; simpl in Hx; by rewrite lookup_empty in Hx|done]. Qed.

(** From here on, the properties. *)

(** C15. The heap statistics are the live heap: after [heap_profiler_start], for every sequence of
    allocations and deallocations that keeps the contract of the system allocator (with any
    allocations and deallocations, of any threads, inside them), [heap_profiler_stats] answers the
    number and the total size of the blocks that a thread outside the profiler has
    allocated since and that were not freed; these are live blocks, with their sizes. *)
Theorem heap_stats_exact live l live' :
  oks ∅ live l live' →
  let m := tracked_all ∅ l ∅ in
  heap_profiler_stats (runs l started) =
    (runs l started, Ok {| st_blocks := wrap 64 (Z.of_nat (size m)); st_memory_size := wrap 64 (bytes_of m) |}) ∧
  m ⊆ live'.
Proof.
  intros Hl m. destruct (runs_inv live l live' Hl) as [[_ (h&Hg&Hb&Hc&Hm)] Hsub]. split; [|done].
  unfold heap_profiler_stats. rewrite (bind_known (gets global) _ (Some h) _ (runs l started))
    by (unfold gets; by rewrite Hg).
  unfold mret, sm_ret, generate_stats. rewrite Hc, Hm, total_bytes, Hb, !Z.add_0_r. done.
Qed.

(** C23. A heap profile is the live heap: the report of the heap profiler into an empty
    [GperfHeapProfilerReport], in whatever order the table is iterated, and [build] give a
    profile from which a reader gets, for every tracked block and no other, its address, its
    size and the symbols of the backtrace of its allocation. *)
Theorem heap_profile_is_the_live_heap resolve live l live' h t snapshot :
  oks ∅ live l live' → global (runs l started) = Some h → snapshot ≡ₚ map_to_list (blocks h) →
  same_symbols (entry_of resolve <$> snapshot) →
  (∃ r p, (heap_report resolve report_block_info t snapshot (runs l started);; heap_build) Report_new = (r, Ok p) ∧
    mapM (read_sample p) (sample p) = Some ((λ x, expected Heap (entry_of resolve x)) <$> snapshot)) ∧
  (λ x, (x.1, blk_size x.2)) <$> snapshot ≡ₚ map_to_list (tracked_all ∅ l ∅).
Proof.
  intros Hl Hg Hsnap Hsame. destruct (runs_inv live l live' Hl) as [[Hd (h'&Hg'&Hb&_)] _]. simplify_eq.
  split.
  - unfold heap_report. rewrite Hg. unfold guard_new. cbn [snd].
    assert (count t (runs l started) = 0) as -> by (destruct (Hd t) as [_ H]; set_solver by lia).
    destruct (report_loop_spec resolve snapshot [] [] Report_new (reports_inv_new Heap)) as (r&syms&He&Hr).
    rewrite (bind_known _ _ _ _ _ He).
    destruct (build_decodes Heap _ _ _ Hr Hsame) as (r'&p&Hp&Hread&_). exists r', p. split; [exact Hp|].
    rewrite Hread. simpl. by rewrite <-list_fmap_compose.
  - rewrite <-Hb, Hsnap, map_to_list_fmap. by apply reflexive_eq, list_fmap_ext.
Qed.

(** An allocation that fails is counted as a block: the null pointer is registered like
    any other, every time, and the table keeps it under one key.  After [n] of them the
    statistics show [n] blocks, of which nothing is ever subtracted. *)
Theorem failed_allocations_are_counted t sz frames n :
  let w := runs (replicate n (Alloc t 0 sz frames [])) started in
  heap_profiler_stats w =
    (w, Ok {| st_blocks := wrap 64 (Z.of_nat n); st_memory_size := wrap 64 (Z.of_nat n * Z.of_N sz) |}) ∧
  ∃ h, global w = Some h ∧ size (blocks h) ≤ 1.
Proof.
  intros w.
  assert (∃ h, global w = Some h ∧ counter h = wrap 64 (Z.of_nat n) ∧
    memory_size h = wrap 64 (Z.of_nat n * Z.of_N sz) ∧
    blocks h = (if decide (n = 0) then ∅ else {[0%N := {| blk_size := sz; blk_frames := frames |}]}) ∧
    count t w = 0) as (h&Hg&Hc&Hm&Hb&_).
  { subst w. induction n as [|n IH]; [by exists HeapProfiler_new|].
    rewrite replicate_S_end. unfold runs in *. rewrite foldl_app. cbn [foldl].
    destruct IH as (h&Hg&Hc&Hm&Hb&Hn). cbn [run]. rewrite Hg. unfold register, guard_new, guard_is_ok.
    rewrite Hn. cbn. rewrite Hg. eexists. split; [done|]. cbn. split_and!.
    - rewrite Hc. unfold fetch_add. rewrite wrap_add_l. f_equal. lia.
    - rewrite Hm. unfold fetch_add. rewrite wrap_add_l. f_equal. lia.
    - rewrite Hb. case_decide; [done|]. by rewrite insert_singleton_eq.
    - unfold guard_drop, count, set_depth. simpl. by rewrite !lookup_insert_eq. }
  split.
  - unfold heap_profiler_stats. rewrite (bind_known (gets global) _ (Some h) _ w) by (unfold gets; by rewrite Hg).
    unfold mret, sm_ret, generate_stats. by rewrite Hc, Hm.
  - exists h. split; [done|]. rewrite Hb. case_decide; [by rewrite map_size_empty; lia|by rewrite map_size_singleton].
Qed.

(** Every CPU sample is reported once: in every run of starts, stops and samplers, the
    reports together with the samples that wait are the pushed samples, in their order; there is
    one report per start, but for the last while the profiler runs; and every sample belongs
    to a session that was started. *)
Theorem cpu_samples_reported_once r :
  rtc cpu_step CpuRun_new r →
  concat (reports r) ++ cpu_samples (cpu r) = (pushed r).*1 ∧
  starts r = length (reports r) + (if cpu_flag (cpu r) then 1 else 0) ∧
  Forall (λ x, 1 ≤ x.2 ≤ starts r) (pushed r).
Proof.
  intros Hr. destruct (rtc_invariant _ cpu_inv _ _ cpu_inv_new cpu_step_inv Hr) as [Ha Hs _ Hn].
  split_and!; done.
Qed.

(** A sample of a session may be in the report of a later one: the flag is read before the
    backtrace is taken and the sample is pushed, so a sampler that is overtaken by
    [cpu_profiler_stop] and [cpu_profiler_start] puts its sample into the next session. *)
Theorem sample_of_an_earlier_session (instant now : N) (frames : list N) :
  ∃ r s, rtc cpu_step CpuRun_new r ∧ reports r = [[]; [s]] ∧ pushed r = [(s, 1)] ∧ starts r = 2.
Proof.
  eexists. exists {| cpu_times := now - instant; cpu_frames := frames |}. split; [|shelve].
  eapply rtc_l; [by eapply cpu_step_start|].
  eapply rtc_l; [by apply (cpu_step_read _ 7 instant)|].
  eapply rtc_l; [by eapply cpu_step_report|].
  eapply rtc_l; [by eapply cpu_step_start|].
  eapply rtc_l; [by apply (cpu_step_push _ 7 instant 1 now frames)|].
  eapply rtc_l; [by eapply cpu_step_report|]. apply rtc_refl.
  Unshelve. by split_and!.
Qed.

(** ** Witnesses *)
Module DemoHeap.

(** Thread 1 allocates 8 bytes; the backtrace allocates and frees meanwhile, and thread 2
    allocates 5 bytes.  Then a block from before the start is freed. *)
Definition before_start : gmap N N := {[ 500%N := 3%N ]}.
Definition trace : list event :=
  [Alloc 1 16 8 [4096]%N [Alloc 1 32 64 [] []; Alloc 2 48 5 [8192]%N []; Dealloc 32 64 []]; Dealloc 500 3 []].

Lemma trace_ok : ∃ live', oks ∅ before_start trace live'.
Proof.
  eexists. eapply oks_cons; [|eapply oks_cons; [|apply oks_nil]].
  - apply ok_alloc; [done|].
    eapply oks_cons; [apply ok_alloc; [done|apply oks_nil]|].
    eapply oks_cons; [apply ok_alloc; [done|apply oks_nil]|].
    eapply oks_cons; [apply ok_dealloc; [done|by apply (bool_decide_unpack _)|apply oks_nil]|]. apply oks_nil.
  - apply ok_dealloc; [done|by apply (bool_decide_unpack _)|apply oks_nil].
Qed.

(** The table, as the map iterates it. *)
Definition entries : list (N * Block) :=
  [(48, {| blk_size := 5; blk_frames := [8192] |}); (16, {| blk_size := 8; blk_frames := [4096] |})]%N.

Definition resolve (addr : N) : list Symbol :=
  if (addr =? 4096)%N then [DemoReport.main_frame; DemoReport.alloc_frame] else [].

End DemoHeap.

Lemma heap_stats_exact_witness :
  (heap_profiler_stats (runs DemoHeap.trace started)).2 = Ok {| st_blocks := 2; st_memory_size := 13 |} ∧
  tracked_all ∅ DemoHeap.trace ∅ = {[ 16%N := 8%N; 48%N := 5%N ]} ∧
  ∃ live', tracked_all ∅ DemoHeap.trace ∅ ⊆ live'.
Proof.
  destruct DemoHeap.trace_ok as [live' Hl].
  split; [vm_compute; reflexivity|]. split; [vm_compute; reflexivity|].
  exists live'. exact (proj2 (heap_stats_exact _ _ _ Hl)).
Defined.

Lemma heap_profile_is_the_live_heap_witness :
  ∃ h r p, (heap_report DemoHeap.resolve report_block_info 0 (map_to_list (blocks h)) (runs DemoHeap.trace started);;
      heap_build) Report_new = (r, Ok p) ∧
    global (runs DemoHeap.trace started) = Some h ∧ length (map_to_list (blocks h)) = 2 ∧
    mapM (read_sample p) (sample p) =
      Some ((λ x, expected Heap (entry_of DemoHeap.resolve x)) <$> map_to_list (blocks h)).
Proof.
  destruct DemoHeap.trace_ok as [live' Hl].
  assert ((λ h, map_to_list (blocks h)) <$> global (runs DemoHeap.trace started) = Some DemoHeap.entries) as Hm
    by (vm_compute; reflexivity).
  destruct (global (runs DemoHeap.trace started)) as [h|] eqn:Hg; [|discriminate].
  apply (inj Some) in Hm.
  assert (same_symbols (entry_of DemoHeap.resolve <$> map_to_list (blocks h))) as Hs.
  { rewrite Hm. intros e1 e2 s1 s2 H1 H2 Hs1 Hs2 _.
    assert (∀ e s, e ∈ entry_of DemoHeap.resolve <$> DemoHeap.entries → s ∈ e.2 → s = DemoReport.main_frame) as H.
    { intros e s [-> |[-> |He]%elem_of_cons]%elem_of_cons Hs; [by apply not_elem_of_nil in Hs| |by apply not_elem_of_nil in He].
      by apply list_elem_of_singleton in Hs. }
    by rewrite (H e1 s1 H1 Hs1), (H e2 s2 H2 Hs2). }
  destruct (heap_profile_is_the_live_heap DemoHeap.resolve _ _ _ h 0 _ Hl Hg (reflexivity _) Hs)
    as [(r&p&H1&H2) _].
  exists h, r, p. split_and!; [exact H1|done|by rewrite Hm|exact H2].
Defined.

Lemma cpu_samples_reported_once_witness :
  ∃ r s, reports r = [[]; [s]] ∧ concat (reports r) ++ cpu_samples (cpu r) = (pushed r).*1 ∧ starts r = 2.
Proof.
  assert (∃ r s, rtc cpu_step CpuRun_new r ∧ reports r = [[]; [s]] ∧ starts r = 2) as (r&s&Hr&Hrep&Hn).
  { eexists. exists {| cpu_times := 25 - 10; cpu_frames := [] |}. split; [|shelve].
    eapply rtc_l; [by eapply cpu_step_start|]. eapply rtc_l; [by eapply cpu_step_report|].
    eapply rtc_l; [by eapply cpu_step_start|]. eapply rtc_l; [by apply (cpu_step_read _ 7 10%N)|].
    eapply rtc_l; [by apply (cpu_step_push _ 7 10%N 2 25%N [])|].
    eapply rtc_l; [by eapply cpu_step_report|]. apply rtc_refl.
    Unshelve. by split_and!. }
  exists r, s. split_and!; [done| |done]. apply (cpu_samples_reported_once r Hr).
Defined.
