(* ===== verification/Tls.v ===== *)
(** * crates/net/tls: TLS streams over asynchronous streams

    The library boring reads and writes the bridge synchronously.  It is a parameter: each of
    its operations is a program that calls the bridge ([prog]) and returns the new state of the
    library with its answer.  The stream below is a parameter with its poll functions. *)

From S2P Require Import Prelude.

(** ** The stream below: [AsyncRead] and [AsyncWrite] *)
Class AsyncStream (Sm W : Type) := {
  s_poll_read : W → nat → Sm → Sm * Poll (res ErrorKind (list byte));
  s_poll_write : W → list byte → Sm → Sm * Poll (res ErrorKind nat);
  s_poll_flush : W → Sm → Sm * Poll (res ErrorKind ());
  s_poll_close : W → Sm → Sm * Poll (res ErrorKind ());
}.

(** ** bridge.rs *)
Record AsyncStreamBridge (Sm W : Type) := { stream : Sm; waker : option W }.
Arguments stream {Sm W} _.
Arguments waker {Sm W} _.

Section bridge.
Context {Sm W : Type} `{!AsyncStream Sm W}.
Notation Bridge := (AsyncStreamBridge Sm W).
Notation M := (sm Bridge ErrorKind).

Definition AsyncStreamBridge_new (s : Sm) : Bridge := {| stream := s; waker := None |}.
Definition set_waker (ctx : option W) (b : Bridge) : Bridge := {| stream := stream b; waker := ctx |}.

Definition with_context {A} (f : W → Sm → Sm * A) : M A := λ b,
  match waker b with
  | Some w => let '(s, a) := f w (stream b) in ({| stream := s; waker := waker b |}, Ok a)
  | None => (b, Panic)
  end.

(** A poll as the answer of a synchronous call. *)
Definition would_block {A} (p : Poll (res ErrorKind A)) : res ErrorKind A :=
  match p with Ready r => r | Pending => Err WouldBlock end.

Definition bridge_read (len : nat) : M (res ErrorKind (list byte)) :=
  p ← with_context (λ w s, s_poll_read w len s); mret (would_block p).
Definition bridge_write (buf : list byte) : M (res ErrorKind nat) :=
  p ← with_context (λ w s, s_poll_write w buf s); mret (would_block p).
Definition bridge_flush : M (res ErrorKind ()) :=
  p ← with_context (λ w s, s_poll_flush w s); mret (would_block p).
End bridge.

(** ** boring: programs that call the bridge *)
Inductive prog (A : Type) :=
| Ret (a : A)
| Read (len : nat) (k : res ErrorKind (list byte) → prog A)
| Write (buf : list byte) (k : res ErrorKind nat → prog A)
| Flush (k : res ErrorKind () → prog A).
Arguments Ret {A} a.
Arguments Read {A} len k.
Arguments Write {A} buf k.
Arguments Flush {A} k.

(** The error codes that the source names; [ssl::Error] is a code and the error of the stream. *)
Inductive ErrorCode := ZERO_RETURN | WANT_READ | WANT_WRITE | OTHER_CODE.
Record SslError := { code : ErrorCode; io_error : option ErrorKind }.
#[export] Instance ErrorCode_eq_dec : EqDecision ErrorCode.
Proof. solve_decision. Defined.

Inductive ShutdownResult := Sent | Received.
(** [ssl::HandshakeError], and success. *)
Inductive handshake_result (L : Type) :=
| HandshakeOk (l : L)
| HandshakeWouldBlock (l : L)
| HandshakeFailure (l : L) (e : SslError)
| SetupFailure.
Arguments HandshakeOk {L} l.
Arguments HandshakeWouldBlock {L} l.
Arguments HandshakeFailure {L} l e.
Arguments SetupFailure {L}.

Class Boring (L W : Type) := {
  ssl_read : nat → L → prog (L * res ErrorKind (list byte));
  ssl_write : list byte → L → prog (L * res ErrorKind nat);
  ssl_flush : L → prog (L * res ErrorKind ());
  ssl_shutdown : L → prog (L * (ShutdownResult + SslError));
  ssl_handshake : L → prog (handshake_result L);
  set_task_waker : option W → L → L;
}.

(** ** lib.rs *)
Record SslStream (L Sm W : Type) := { ssl : L; bridge : AsyncStreamBridge Sm W }.
Arguments ssl {L Sm W} _.
Arguments bridge {L Sm W} _.

Definition cvt {A} (r : res ErrorKind A) : Poll (res ErrorKind A) :=
  match r with
  | Ok v => Ready (Ok v)
  | Err e => if decide (e = WouldBlock) then Pending else Ready (Err e)
  | Panic => Ready Panic
  end.

(** [into_io_error().unwrap_or_else(..)]. *)
Definition into_io_error (e : SslError) : ErrorKind := default Other (io_error e).

Section lib.
Context {L Sm W : Type} `{!AsyncStream Sm W, !Boring L W}.
Notation Bridge := (AsyncStreamBridge Sm W).
Notation Stream := (SslStream L Sm W).
Notation M := (sm Stream ErrorKind).

Fixpoint exec {A} (p : prog A) : sm Bridge ErrorKind A :=
  match p with
  | Ret a => mret a
  | Read len k => r ← bridge_read len; exec (k r)
  | Write buf k => r ← bridge_write buf; exec (k r)
  | Flush k => r ← bridge_flush; exec (k r)
  end.

(** An operation of the library on a stream. *)
Definition ssl_call {A} (p : L → prog (L * A)) : M A := λ s,
  match exec (p (ssl s)) (bridge s) with
  | (b, Ok (l, a)) => ({| ssl := l; bridge := b |}, Ok a)
  | (b, Err e) => ({| ssl := ssl s; bridge := b |}, Err e)
  | (b, Panic) => ({| ssl := ssl s; bridge := b |}, Panic)
  end.

Definition on_bridge (f : Bridge → Bridge) (s : Stream) : Stream :=
  {| ssl := ssl s; bridge := f (bridge s) |}.

Definition run_in_context {A} (ctx : W) (f : M A) : M A :=
  modify (on_bridge (set_waker (Some ctx)));;
  result ← f;
  modify (on_bridge (set_waker None));;
  mret result.

Definition poll_read (ctx : W) (len : nat) : M (Poll (res ErrorKind (list byte))) :=
  run_in_context ctx (r ← ssl_call (ssl_read len); mret (cvt r)).
Definition poll_write (ctx : W) (buf : list byte) : M (Poll (res ErrorKind nat)) :=
  run_in_context ctx (r ← ssl_call (ssl_write buf); mret (cvt r)).
Definition poll_flush (ctx : W) : M (Poll (res ErrorKind ())) :=
  run_in_context ctx (r ← ssl_call ssl_flush; mret (cvt r)).

Definition inner_close (ctx : W) : M (Poll (res ErrorKind ())) := λ s,
  let '(st, p) := s_poll_close ctx (stream (bridge s)) in
  (on_bridge (λ b, {| stream := st; waker := waker b |}) s, Ok p).

Definition poll_close (ctx : W) : M (Poll (res ErrorKind ())) :=
  r ← run_in_context ctx (ssl_call ssl_shutdown);
  match r with
  | inl _ => inner_close ctx
  | inr e =>
      match code e with
      | ZERO_RETURN => inner_close ctx
      | WANT_READ | WANT_WRITE => mret Pending
      | OTHER_CODE => mret (Ready (Err (into_io_error e)))
      end
  end.

(** [HandshakeFuture]: the handshake that is in progress. *)
Definition HandshakeFuture : Type := option (L * Bridge).

Inductive HandshakeError :=
| Failure (l : L) (b : Bridge) (e : SslError)
| Setup.

Definition handshake_poll (ctx : W) (this : HandshakeFuture) :
    HandshakeFuture * res ErrorKind (Poll (Stream + HandshakeError)) :=
  match this with
  | None => (None, Panic)
  | Some (l, b) =>
      let b := set_waker (Some ctx) b in
      let l := set_task_waker (Some ctx) l in
      match exec (ssl_handshake l) b with
      | (b, Ok (HandshakeOk l)) =>
          (None, Ok (Ready (inl {| ssl := set_task_waker None l; bridge := set_waker None b |})))
      | (b, Ok (HandshakeWouldBlock l)) =>
          (Some (set_task_waker None l, set_waker None b), Ok Pending)
      | (b, Ok (HandshakeFailure l e)) => (None, Ok (Ready (inr (Failure l (set_waker None b) e))))
      | (b, Ok SetupFailure) => (None, Ok (Ready (inr Setup)))
      | (b, Err e) => (None, Err e)
      | (b, Panic) => (None, Panic)
      end
  end.

(** [connect] and [accept]: [setup] is [setup_connect] or [setup_accept]. *)
Definition tls_open (setup : option L) (s : Sm) : HandshakeFuture + HandshakeError :=
  match setup with
  | Some l => inl (Some (l, AsyncStreamBridge_new s))
  | None => inr Setup
  end.

(** [into_source_stream]. *)
Definition into_source_stream (e : HandshakeError) : option Sm :=
  match e with Failure _ b _ => Some (stream b) | Setup => None end.
End lib.

(** ** Running a program of the library *)
Section facts.
Context {L Sm W : Type} `{!AsyncStream Sm W, !Boring L W}.
Implicit Types (s : SslStream L Sm W) (b : AsyncStreamBridge Sm W) (w ctx : W).

(** Every poll of the stream with the waker [w] is in [R]. *)
Record polls_in (w : W) (R : relation Sm) : Prop := {
  pi_read len st : R st (s_poll_read w len st).1;
  pi_write buf st : R st (s_poll_write w buf st).1;
  pi_flush st : R st (s_poll_flush w st).1;
  pi_close st : R st (s_poll_close w st).1;
}.

(** A call of the bridge that holds [w] polls the stream with [w]. *)
Lemma with_context_ok {A} w b (f : W → Sm → Sm * A) :
  waker b = Some w →
  with_context f b = ({| stream := (f w (stream b)).1; waker := Some w |}, Ok (f w (stream b)).2).
Proof. intros Hw. unfold with_context. rewrite Hw. by destruct (f w (stream b)). Qed.

Lemma exec_ok {A} (p : prog A) w (R : relation Sm) `{!PreOrder R} b :
  polls_in w R → waker b = Some w →
  ∃ b' a, exec p b = (b', Ok a) ∧ waker b' = Some w ∧ R (stream b) (stream b').
Proof.
  intros Hin. revert b. induction p as [a|len k IH|buf k IH|k IH]; intros b Hw; cbn [exec].
  { by exists b, a. }
  all: unfold bridge_read, bridge_write, bridge_flush.
  all: match goal with Hw : waker ?b = Some ?w |- context [with_context ?f] =>
    rewrite (bind_known _ _ (would_block (f w (stream b)).2) b {| stream := (f w (stream b)).1; waker := Some w |})
      by (by rewrite (bind_known _ _ _ _ _ (with_context_ok w b f Hw))) end.
  all: match goal with IH : ∀ r b, _ → _ |- ∃ _ _, exec (_ ?r) ?b1 = _ ∧ _ =>
    destruct (IH r b1 eq_refl) as (b'&a&He&Hw'&HR) end.
  all: exists b', a; split_and!; [done|done|]; (etrans; [|exact HR]); apply Hin.
Qed.

(** The streams that the answer of a poll says are blocked. *)
Definition is_block {A} (r : res ErrorKind A) : bool :=
  match r with Err e => bool_decide (e = WouldBlock) | _ => false end.

(** A library that says that it is blocked only after the stream has said so. *)
Fixpoint honest {A} (says : A → bool) (blocked : bool) (p : prog A) : Prop :=
  match p with
  | Ret a => says a = true → blocked = true
  | Read _ k => ∀ r, honest says (blocked || is_block r) (k r)
  | Write _ k => ∀ r, honest says (blocked || is_block r) (k r)
  | Flush k => ∀ r, honest says (blocked || is_block r) (k r)
  end.

Definition says_want (r : ShutdownResult + SslError) : bool :=
  match r with inr e => bool_decide (code e = WANT_READ ∨ code e = WANT_WRITE) | inl _ => false end.

Record boring_law : Prop := {
  bl_read len (l : L) : honest (λ x, is_block x.2) false (ssl_read len l);
  bl_write buf (l : L) : honest (λ x, is_block x.2) false (ssl_write buf l);
  bl_flush (l : L) : honest (λ x, is_block x.2) false (ssl_flush l);
  bl_shutdown (l : L) : honest (λ x, says_want x.2) false (ssl_shutdown l);
}.

(** The contract of a poll function: [Pending] after the waker was registered; a ready answer is
    never [WouldBlock]. *)
Definition poll_law {A} (registered : Sm → Prop) (f : Sm → Sm * Poll (res ErrorKind A)) : Prop :=
  ∀ st, (registered st → registered (f st).1) ∧
    match (f st).2 with
    | Pending => registered (f st).1
    | Ready r => is_block r = false
    end.

Record stream_law (w : W) (registered : Sm → Prop) : Prop := {
  sl_read len : poll_law registered (s_poll_read w len);
  sl_write buf : poll_law registered (s_poll_write w buf);
  sl_flush : poll_law registered (s_poll_flush w);
  sl_close : poll_law registered (s_poll_close w);
}.

Lemma poll_law_block {A} registered (f : Sm → Sm * Poll (res ErrorKind A)) st blocked :
  poll_law registered f → (blocked = true → registered st) →
  blocked || is_block (would_block (f st).2) = true → registered (f st).1.
Proof.
  intros Hf Hb H. destruct (Hf st) as [H1 H2]. destruct (f st).2 as [|r]; simpl in *; [done|].
  rewrite H2, orb_false_r in H. auto.
Qed.

Lemma exec_registered {A} (p : prog A) says w registered : stream_law w registered → ∀ blocked b b' a,
  waker b = Some w → honest says blocked p → (blocked = true → registered (stream b)) →
  exec p b = (b', Ok a) → says a = true → registered (stream b').
Proof.
  intros Hl. induction p as [a0|len k IH|buf k IH|k IH]; intros blocked b b' a Hw Hh Hb; cbn [exec].
  { intros He Hs. unfold mret, sm_ret in He. simplify_eq. auto. }
  all: unfold bridge_read, bridge_write, bridge_flush; intros He Hs.
  all: match goal with Hw : waker ?b = Some ?w, He : context [with_context ?f] |- _ =>
    rewrite (bind_known _ _ (would_block (f w (stream b)).2) b {| stream := (f w (stream b)).1; waker := Some w |})
      in He by (by rewrite (bind_known _ _ _ _ _ (with_context_ok w b f Hw))) end.
  all: eapply IH; [|apply Hh| |exact He|exact Hs]; [done|].
  all: simpl; apply poll_law_block; [apply Hl|done].
Qed.

(** A call of the library in the context of [ctx]. *)
Lemma ssl_call_ok {A} (p : L → prog (L * A)) ctx (R : relation Sm) `{!PreOrder R} s :
  polls_in ctx R →
  ∃ s1 l a, ssl_call p (on_bridge (set_waker (Some ctx)) s) = (s1, Ok a) ∧
    R (stream (bridge s)) (stream (bridge s1)) ∧
    exec (p (ssl s)) (set_waker (Some ctx) (bridge s)) = (bridge s1, Ok (l, a)).
Proof.
  intros Hin. unfold ssl_call, on_bridge. cbn [ssl bridge].
  destruct (exec_ok (p (ssl s)) ctx R (set_waker (Some ctx) (bridge s)) Hin eq_refl) as (b'&[l a]&He&_&HR).
  rewrite He. do 3 eexists. by split_and!.
Qed.

Lemma run_in_context_ok {A} (f : sm (SslStream L Sm W) ErrorKind A) ctx s s1 a :
  f (on_bridge (set_waker (Some ctx)) s) = (s1, Ok a) →
  run_in_context ctx f s = (on_bridge (set_waker None) s1, Ok a).
Proof.
  intros Hf. unfold run_in_context. rewrite (bind_known (modify _) _ () s _ eq_refl).
  by rewrite (bind_known _ _ _ _ _ Hf).
Qed.

(** A poll of a [SslStream] that is one call of the library. *)
Lemma call_poll {A} (p : L → prog (L * res ErrorKind A)) ctx (R : relation Sm) `{!PreOrder R} s :
  polls_in ctx R →
  ∃ s' r l b, run_in_context ctx (r ← ssl_call p; mret (cvt r)) s = (s', Ok (cvt r)) ∧ waker (bridge s') = None ∧
    R (stream (bridge s)) (stream (bridge s')) ∧
    exec (p (ssl s)) (set_waker (Some ctx) (bridge s)) = (b, Ok (l, r)) ∧ stream (bridge s') = stream b.
Proof.
  intros Hin. destruct (ssl_call_ok p ctx R s Hin) as (s1&l&a&He&HR&Hx).
  eexists _, a, l, _. split; [apply run_in_context_ok; by rewrite (bind_known _ _ _ _ _ He)|].
  by split_and!.
Qed.

Lemma cvt_pending {A} (r : res ErrorKind A) : cvt r = Pending → is_block r = true.
Proof. destruct r; simpl; [done| |done]. case_decide; [by subst|done]. Qed.

(** What a poll leaves behind. *)
Definition poll_result {A} (ctx : W) (R : relation Sm) s (out : SslStream L Sm W * res ErrorKind (Poll A)) : Prop :=
  ∃ s' r, out = (s', Ok r) ∧ waker (bridge s') = None ∧ R (stream (bridge s)) (stream (bridge s')).

Lemma call_poll_result {A} (p : L → prog (L * res ErrorKind A)) ctx (R : relation Sm) `{!PreOrder R} s :
  polls_in ctx R → poll_result ctx R s (run_in_context ctx (r ← ssl_call p; mret (cvt r)) s).
Proof.
  intros Hin. destruct (call_poll p ctx R s Hin) as (s'&r&l&b&He&Hw&HR&_). by exists s', (cvt r).
Qed.

Lemma inner_close_result ctx (R : relation Sm) s s1 :
  polls_in ctx R → waker (bridge s1) = None → R (stream (bridge s)) (stream (bridge s1)) → Transitive R →
  poll_result ctx R s (inner_close ctx s1).
Proof.
  intros Hin Hw HR Htr. unfold inner_close. pose proof (pi_close _ _ Hin (stream (bridge s1))) as Hc.
  destruct (s_poll_close ctx (stream (bridge s1))) as [st p]. do 2 eexists. split; [done|]. cbn.
  split; [done|by etrans].
Qed.

Lemma poll_close_result ctx (R : relation Sm) `{!PreOrder R} s :
  polls_in ctx R → poll_result ctx R s (poll_close ctx s).
Proof.
  intros Hin. unfold poll_close. destruct (ssl_call_ok ssl_shutdown ctx R s Hin) as (s1&l&a&He&HR&_).
  rewrite (bind_known _ _ _ _ _ (run_in_context_ok _ _ _ _ _ He)).
  destruct a as [a|e]; [by apply inner_close_result; [| | |apply _]|].
  destruct (code e).
  1: by apply inner_close_result; [| | |apply _].
  all: by do 2 eexists.
Qed.

(** Any change of the stream, when only the outcome matters. *)
Definition any_change : relation Sm := λ _ _, True.
#[local] Instance any_change_preorder : PreOrder any_change.
Proof. by split. Qed.
Lemma polls_in_any w : polls_in w any_change.
Proof. done. Qed.

(** From here on, the properties. *)

(** A TLS stream polls the stream below with the waker of its own poll, and keeps no waker:
    whatever the library does with the bridge in a read, write, flush, shutdown or handshake,
    no call finds the bridge without a waker (which panics), everything that happens to the
    stream is a sequence of polls with the waker of the task, and afterwards the bridge holds
    no waker.  The handshake is kept exactly while it is pending. *)
Theorem tls_polls_with_the_task_waker (ctx : W) (R : relation Sm) `{!PreOrder R} s :
  polls_in ctx R →
  (∀ len, poll_result ctx R s (poll_read ctx len s)) ∧
  (∀ buf, poll_result ctx R s (poll_write ctx buf s)) ∧
  poll_result ctx R s (poll_flush ctx s) ∧
  poll_result ctx R s (poll_close ctx s) ∧
  (∀ l b, match handshake_poll ctx (Some (l, b)) with
    | (Some (_, b'), Ok Pending) => waker b' = None ∧ R (stream b) (stream b')
    | (None, Ok (Ready (inl s'))) => waker (bridge s') = None ∧ R (stream b) (stream (bridge s'))
    | (None, Ok (Ready (inr (Failure _ b' _)))) => waker b' = None ∧ R (stream b) (stream b')
    | (None, Ok (Ready (inr Setup))) => True
    | _ => False
    end).
Proof.
  intros Hin. split_and!.
  - intros len. by apply call_poll_result.
  - intros buf. by apply call_poll_result.
  - by apply call_poll_result.
  - by apply poll_close_result.
  - intros l b. unfold handshake_poll.
    destruct (exec_ok (ssl_handshake (set_task_waker (Some ctx) l)) ctx R (set_waker (Some ctx) b) Hin eq_refl)
      as (b'&a&He&_&HR). rewrite He. by destruct a.
Qed.

(** C39. A pending TLS stream is woken: if the library says that it is blocked (or wants to read or
    write) only after a call of the bridge has said so, and a pending poll of the stream below
    registers the waker, then every [Pending] of a read, write, flush or close leaves the waker
    of the task registered with the stream below. *)
Theorem tls_pending_is_registered (ctx : W) (registered : Sm → Prop) s s' :
  boring_law → stream_law ctx registered →
  (∀ len, poll_read ctx len s = (s', Ok Pending) → registered (stream (bridge s'))) ∧
  (∀ buf, poll_write ctx buf s = (s', Ok Pending) → registered (stream (bridge s'))) ∧
  (poll_flush ctx s = (s', Ok Pending) → registered (stream (bridge s'))) ∧
  (poll_close ctx s = (s', Ok Pending) → registered (stream (bridge s'))).
Proof.
  intros Hb Hl.
  pose proof (polls_in_any ctx) as Hin.
  assert (∀ A (p : L → prog (L * res ErrorKind A)), (∀ l, honest (λ x, is_block x.2) false (p l)) →
    run_in_context ctx (r ← ssl_call p; mret (cvt r)) s = (s', Ok Pending) → registered (stream (bridge s'))) as Hcall.
  { intros A p Hp Hrun. destruct (call_poll p ctx any_change s Hin) as (s1&r&l&b&He&_&_&Hx&Hst).
    rewrite Hrun in He. simplify_eq. rewrite Hst.
    eapply (exec_registered _ _ ctx registered Hl false); [| |done|exact Hx|]; [done|apply Hp|].
    by apply cvt_pending. }
  split_and!; [intros len; apply Hcall, Hb|intros buf; apply Hcall, Hb|apply Hcall, Hb|].
  unfold poll_close. destruct (ssl_call_ok ssl_shutdown ctx any_change s Hin) as (s1&l&a&He&_&Hx).
  rewrite (bind_known _ _ _ _ _ (run_in_context_ok _ _ _ _ _ He)).
  assert (says_want a = true → registered (stream (bridge s1))) as Hwant.
  { intros Ha. by eapply (exec_registered _ _ ctx registered Hl false); [| |done|exact Hx|]; [done|apply Hb|]. }
  assert (inner_close ctx (on_bridge (set_waker None) s1) = (s', Ok Pending) → registered (stream (bridge s'))) as Hclose.
  { unfold inner_close. cbn. pose proof (sl_close _ _ Hl (stream (bridge s1))) as [_ Hc].
    destruct (s_poll_close ctx (stream (bridge s1))) as [st q]. intros ?. by simplify_eq/=. }
  destruct a as [a|e]; [done|]. simpl in Hwant. destruct (code e); [done| | |done];
    intros [= <-]; by apply Hwant, bool_decide_eq_true; auto.
Qed.
End facts.

(** ** Witnesses: a library that does not encrypt, over a buffer *)
Module DemoTls.

(** The bytes to read, and the wakers of the pending reads. *)
Definition Pipe : Type := list byte * list nat.

#[export] Instance pipe_stream : AsyncStream Pipe nat := {|
  s_poll_read w len st :=
    match st.1 with
    | [] => ((st.1, w :: st.2), Pending)
    | inp => ((drop len inp, st.2), Ready (Ok (take len inp)))
    end;
  s_poll_write w buf st := (st, Ready (Ok (length buf)));
  s_poll_flush w st := (st, Ready (Ok ()));
  s_poll_close w st := (st, Ready (Ok ()));
|}.

#[export] Instance plain : Boring nat nat := {|
  ssl_read len l := Read len (λ r, Ret (S l, r));
  ssl_write buf l := Write buf (λ r, Ret (S l, r));
  ssl_flush l := Flush (λ r, Ret (l, r));
  ssl_shutdown l := Flush (λ _, Ret (l, inl Sent));
  ssl_handshake l := Write (bs "hello") (λ _, Read 2 (λ r, Ret
    match r with
    | Ok _ => HandshakeOk l
    | Err e => if decide (e = WouldBlock) then HandshakeWouldBlock l
               else HandshakeFailure l {| code := OTHER_CODE; io_error := Some e |}
    | Panic => SetupFailure
    end));
  set_task_waker w l := l;
|}.

Lemma plain_law : boring_law (L:=nat) (W:=nat).
Proof. split; intros; simpl; try intros r; simpl; try done; by destruct r. Qed.

Lemma pipe_law (w : nat) : stream_law (Sm:=Pipe) w (λ st, w ∈ st.2).
Proof.
  split; [intros len [[|b inp] ws]|intros buf st|intros st|intros st]; simpl; (split; [|try done]); try done.
  - set_solver.
  - set_solver.
Qed.

(** The wakers only grow. *)
Lemma pipe_polls (w : nat) : polls_in (Sm:=Pipe) w (λ st st', st.2 `suffix_of` st'.2).
Proof. split; try done. intros len [[|b inp] ws]; simpl; [by apply suffix_cons_r|done]. Qed.

Definition empty_pipe : SslStream nat Pipe nat := {| ssl := 0; bridge := AsyncStreamBridge_new ([], []) |}.

End DemoTls.
#[local] Existing Instances DemoTls.pipe_stream DemoTls.plain.

(** A read of an empty pipe is pending, with the waker in the pipe. *)
Lemma tls_pending_is_registered_witness :
  ∃ s' : SslStream nat DemoTls.Pipe nat,
    poll_read 7 16 DemoTls.empty_pipe = (s', Ok Pending) ∧ 7 ∈ (stream (bridge s')).2.
Proof.
  eexists. split; [reflexivity|].
  eapply (proj1 (tls_pending_is_registered 7 (λ st : DemoTls.Pipe, 7 ∈ st.2) DemoTls.empty_pipe _
    DemoTls.plain_law (DemoTls.pipe_law 7)) 16). reflexivity.
Defined.

Lemma tls_polls_with_the_task_waker_witness :
  poll_result (L:=nat) 7 (λ st st' : DemoTls.Pipe, st.2 `suffix_of` st'.2) DemoTls.empty_pipe
    (poll_close 7 DemoTls.empty_pipe).
Proof.
  assert (PreOrder (λ st st' : DemoTls.Pipe, st.2 `suffix_of` st'.2)) as Hpre.
  { split; [by intros st|intros st1 st2 st3 H1 H2; by etrans]. }
  exact (proj1 (proj2 (proj2 (proj2
    (tls_polls_with_the_task_waker 7 _ DemoTls.empty_pipe (DemoTls.pipe_polls 7)))))).
Defined.
