(* ===== verification/Rproxy.v ===== *)
(** * crates/rproxy: sessions and the gateway loop of the reverse proxy

    A session is a flag that all its clones share.  The tasks that the gateway spawns, one per
    inbound connection, are a step relation: an atomic access, or a poll of a session, per
    step.  The handshaker and the listeners' sockets are the choices of the steps. *)

From S2P Require Import Prelude.

Abbreviation result := (res ErrorKind ()).

(** ** utils.rs *)
Record SessionFlag := { closed : option result; waker : option nat }.
Definition SessionFlag_default : SessionFlag := {| closed := None; waker := None |}.

(** [Session::closed_with]: the flag afterwards, and the wakers that it wakes. *)
Definition closed_with (r : result) (flag : SessionFlag) : SessionFlag * list nat :=
  ({| closed := Some r; waker := None |}, match waker flag with Some w => [w] | None => [] end).

(** [Future for Session]. *)
Definition session_poll (w : nat) (flag : SessionFlag) : SessionFlag * Poll result :=
  match closed flag with
  | Some r => ({| closed := None; waker := waker flag |}, Ready r)
  | None => ({| closed := None; waker := Some w |}, Pending)
  end.

(** ** rproxy.rs *)

(** Where the task of a connection is in [Rproxy::handshake]. *)
Inductive Task :=
| THandshake
| TEstablished (sid : nat)
| TAwait (sid : nat) (polled : bool)
| TClosing (r : result)
| TSubtracted (r : result)
| TClosed (r : result)
| TFailed (e : ErrorKind).

(** [conns] and [closed_conns] are the counters of [Rproxy]; [woken] are the tasks whose waker
    was called and that have not run since; [dropped] counts the tasks that were dropped while
    they awaited their session. *)
Record Proxy := {
  conns : Z;
  closed_conns : Z;
  sessions : gmap nat SessionFlag;
  tasks : gmap nat Task;
  woken : gset nat;
  dropped : nat;
}.
Definition Rproxy_new : Proxy :=
  {| conns := 0; closed_conns := 0; sessions := ∅; tasks := ∅; woken := ∅; dropped := 0 |}.

Record RproxyStats := { actived : Z; closed_ : Z }.
Definition stats (p : Proxy) : RproxyStats := {| actived := conns p; closed_ := closed_conns p |}.

Definition set_task (t : nat) (k : Task) (p : Proxy) : Proxy :=
  {| conns := conns p; closed_conns := closed_conns p; sessions := sessions p; tasks := <[t := k]> (tasks p);
     woken := woken p; dropped := dropped p |}.
Definition set_session (sid : nat) (f : SessionFlag) (p : Proxy) : Proxy :=
  {| conns := conns p; closed_conns := closed_conns p; sessions := <[sid := f]> (sessions p); tasks := tasks p;
     woken := woken p; dropped := dropped p |}.
Definition set_counters (a c : Z) (p : Proxy) : Proxy :=
  {| conns := a; closed_conns := c; sessions := sessions p; tasks := tasks p; woken := woken p; dropped := dropped p |}.
Definition set_woken (w : gset nat) (p : Proxy) : Proxy :=
  {| conns := conns p; closed_conns := closed_conns p; sessions := sessions p; tasks := tasks p;
     woken := w; dropped := dropped p |}.

(** One step of a task that has its session. *)
Definition task_step (t : nat) (p : Proxy) : Proxy :=
  match tasks p !! t with
  | Some (TEstablished sid) =>
      set_task t (TAwait sid false) (set_counters (wrap 64 (conns p + 1)) (closed_conns p) p)
  | Some (TAwait sid _) =>
      let '(f, r) := session_poll t (default SessionFlag_default (sessions p !! sid)) in
      let p := set_woken (woken p ∖ {[t]}) (set_session sid f p) in
      match r with
      | Ready r => set_task t (TClosing r) p
      | Pending => set_task t (TAwait sid true) p
      end
  | Some (TClosing r) => set_task t (TSubtracted r) (set_counters (wrap 64 (conns p - 1)) (closed_conns p) p)
  | Some (TSubtracted r) => set_task t (TClosed r) (set_counters (conns p) (wrap 64 (closed_conns p + 1)) p)
  | _ => p
  end.

(** The tasks that have the session. *)
Definition has_session (sid : nat) (k : Task) : Prop := k = TEstablished sid ∨ ∃ b, k = TAwait sid b.

Inductive proxy_step : Proxy → Proxy → Prop :=
| step_spawn p t : tasks p !! t = None → proxy_step p (set_task t THandshake p)
| step_session p sid :
    sessions p !! sid = None → proxy_step p (set_session sid SessionFlag_default p)
| step_handshake_ok p t sid :
    tasks p !! t = Some THandshake → is_Some (sessions p !! sid) →
    (∀ t' k, tasks p !! t' = Some k → ¬ has_session sid k) → waker <$> sessions p !! sid = Some None →
    proxy_step p (set_task t (TEstablished sid) p)
| step_handshake_err p t e :
    tasks p !! t = Some THandshake → proxy_step p (set_task t (TFailed e) p)
| step_task p t : proxy_step p (task_step t p)
| step_close p sid r f :
    sessions p !! sid = Some f →
    proxy_step p (set_woken (woken p ∪ list_to_set (closed_with r f).2) (set_session sid (closed_with r f).1 p))
| step_drop p t k :
    tasks p !! t = Some k → (k = THandshake ∨ ∃ sid b, k = TAwait sid b) →
    proxy_step p {| conns := conns p; closed_conns := closed_conns p; sessions := sessions p;
                    tasks := delete t (tasks p); woken := woken p;
                    dropped := dropped p + match k with TAwait _ _ => 1 | _ => 0 end |}.

(** ** listener/tcp.rs, and the loop of [Rproxy::accept] *)
Section listeners.
Context {C T : Type}.

(** [Listener for TcpListener]: the answers of [TcpListener::accept] in order; after the last
    one the listener is taken to be gone. *)
Definition tcp_accept (answers : list (res ErrorKind C)) : option C * list (res ErrorKind C) :=
  match answers with
  | Ok c :: answers => (Some c, answers)
  | _ :: answers => (None, answers)
  | [] => (None, [])
  end.

(** [Listener for (TcpListener, SslAcceptor)]; [ssl c] is [hala_tls::accept] on [c]. *)
Fixpoint ssl_accept (ssl : C → option T) (answers : list (res ErrorKind C)) : option T * list (res ErrorKind C) :=
  match answers with
  | Ok c :: answers => match ssl c with Some t => (Some t, answers) | None => ssl_accept ssl answers end
  | _ :: answers => (None, answers)
  | [] => (None, [])
  end.

(** [while let Some((id, conn)) = listener.accept().await]: the connections that are spawned. *)
Fixpoint rproxy_accept {X A} (accept : A → option X * A) (fuel : nat) (a : A) : list X :=
  match fuel with
  | 0 => []
  | S fuel => match accept a with (Some c, a) => c :: rproxy_accept accept fuel a | (None, _) => [] end
  end.

(** The connections before the first error. *)
Fixpoint before_error (answers : list (res ErrorKind C)) : list C :=
  match answers with Ok c :: answers => c :: before_error answers | _ => [] end.
End listeners.

(** ** Counting tasks *)
Definition awaits (k : Task) : bool := match k with TAwait _ _ | TClosing _ => true | _ => false end.
Definition is_closed (k : Task) : bool := match k with TClosed _ => true | _ => false end.

Definition count_tasks (q : Task → bool) (m : gmap nat Task) : nat :=
  length (pool_hold (λ k, if q k then [()] else []) m).

Lemma count_update q m t k k' :
  m !! t = Some k → count_tasks q (<[t := k']> m) + Nat.b2n (q k) = count_tasks q m + Nat.b2n (q k').
Proof.
  intros Ht. pose proof (Permutation_length (pool_hold_update (λ k, if q k then [()] else []) m t k k' Ht)) as H.
  rewrite !length_app in H. unfold count_tasks. destruct (q k), (q k'); simpl in *; lia.
Qed.

Lemma count_insert q m t k : m !! t = None → count_tasks q (<[t := k]> m) = count_tasks q m + Nat.b2n (q k).
Proof.
  intros Ht. unfold count_tasks, pool_hold. rewrite map_to_list_insert by done.
  rewrite fmap_cons. cbn [concat snd]. rewrite length_app. destruct (q k); simpl; lia.
Qed.

Lemma count_delete q m t k : m !! t = Some k → count_tasks q (delete t m) + Nat.b2n (q k) = count_tasks q m.
Proof.
  intros Ht. rewrite <-(insert_delete_id m t k Ht) at 2. rewrite count_insert by apply lookup_delete_eq. done.
Qed.

(** ** The invariant *)
Record proxy_inv (p : Proxy) : Prop := {
  pi_conns : conns p = wrap 64 (Z.of_nat (count_tasks awaits (tasks p) + dropped p));
  pi_closed : closed_conns p = wrap 64 (Z.of_nat (count_tasks is_closed (tasks p)));
  pi_known t k sid : tasks p !! t = Some k → has_session sid k → is_Some (sessions p !! sid);
  pi_alone t t' k k' sid :
    tasks p !! t = Some k → tasks p !! t' = Some k' → has_session sid k → has_session sid k' → t = t';
  pi_waker t sid f : tasks p !! t = Some (TAwait sid true) → sessions p !! sid = Some f →
    match closed f with Some _ => t ∈ woken p | None => waker f = Some t end;
}.

Lemma has_session_await sid b : has_session sid (TAwait sid b).
Proof. right. by exists b. Qed.
Lemma has_session_established sid : has_session sid (TEstablished sid).
Proof. by left. Qed.
#[export] Hint Resolve has_session_await has_session_established : hala.

Lemma wrap_step x y d : x = wrap 64 y → wrap 64 (x + d) = wrap 64 (y + d).
Proof. intros ->. apply Zplus_mod_idemp_l. Qed.
Lemma wrap_same x y : x = wrap 64 y → x = wrap 64 (x + 0).
Proof. intros ->. rewrite Z.add_0_r. unfold wrap. by rewrite Zmod_mod. Qed.

(** A session that no task has. *)
Definition unused (sid : nat) (p : Proxy) : Prop := ∀ t k, tasks p !! t = Some k → ¬ has_session sid k.

(** A task changes its place, and keeps its session, has none or takes an unused one. *)
Lemma inv_sessions p p' t k k' :
  proxy_inv p → tasks p !! t = Some k → tasks p' = <[t := k']> (tasks p) →
  (∀ sid, is_Some (sessions p !! sid) → is_Some (sessions p' !! sid)) →
  (∀ sid, has_session sid k' → has_session sid k ∨ is_Some (sessions p !! sid) ∧ unused sid p) →
  (∀ t k sid, tasks p' !! t = Some k → has_session sid k → is_Some (sessions p' !! sid)) ∧
  (∀ t t' k k' sid, tasks p' !! t = Some k → tasks p' !! t' = Some k' →
    has_session sid k → has_session sid k' → t = t').
Proof.
  intros [_ _ Hknown Halone _] Ht -> Hsess Hk.
  assert (∀ t0 k0 sid, <[t := k']> (tasks p) !! t0 = Some k0 → has_session sid k0 →
    (∃ k1, tasks p !! t0 = Some k1 ∧ has_session sid k1) ∨ t0 = t ∧ is_Some (sessions p !! sid) ∧ unused sid p) as Hback.
  { intros t0 k0 sid [[<- <-]|[_ H0]]%lookup_insert_Some Hs; [|left; by exists k0].
    destruct (Hk _ Hs) as [?|?]; [left; by exists k|by right]. }
  split.
  - intros t0 k0 sid H0 Hs. destruct (Hback _ _ _ H0 Hs) as [(k1&H1&Hs1)|(_&?&_)]; eauto.
  - intros t1 t2 k1 k2 sid H1 H2 Hs1 Hs2.
    destruct (Hback _ _ _ H1 Hs1) as [(k1'&H1'&Hs1')|(->&_&Hu)],
      (Hback _ _ _ H2 Hs2) as [(k2'&H2'&Hs2')|(->&_&Hu')]; [by eauto| | |done].
    + by destruct (Hu' _ _ H1').
    + by destruct (Hu _ _ H2').
Qed.

(** Every step but a poll, for the task that makes it. *)
Lemma task_move_inv p p' t k k' :
  proxy_inv p → tasks p !! t = Some k → tasks p' = <[t := k']> (tasks p) →
  sessions p' = sessions p → woken p' = woken p → dropped p' = dropped p →
  conns p' = wrap 64 (conns p + (Z.b2z (awaits k') - Z.b2z (awaits k))) →
  closed_conns p' = wrap 64 (closed_conns p + (Z.b2z (is_closed k') - Z.b2z (is_closed k))) →
  (∀ sid, has_session sid k' → has_session sid k ∨ is_Some (sessions p !! sid) ∧ unused sid p) →
  (∀ sid, k' ≠ TAwait sid true) →
  proxy_inv p'.
Proof.
  intros Hinv Ht Htasks Hs Hw Hdr Hn' Hd' Hk Hpol.
  destruct (inv_sessions p p' t k k' Hinv Ht Htasks) as [S1 S2]; [by rewrite Hs|done|].
  pose proof (count_update awaits _ _ _ k' Ht) as Ha. pose proof (count_update is_closed _ _ _ k' Ht) as Hc.
  pose proof Hinv as [Hn Hd _ _ Hwaker]. split; [| |done|done|].
  - rewrite Hn', (wrap_step _ _ _ Hn), Htasks, Hdr. f_equal. destruct (awaits k), (awaits k'); simpl in *; lia.
  - rewrite Hd', (wrap_step _ _ _ Hd), Htasks. f_equal. destruct (is_closed k), (is_closed k'); simpl in *; lia.
  - intros t' sid f. rewrite Htasks, Hs, Hw. intros [[<- ?]|[_ H']]%lookup_insert_Some; [by destruct (Hpol sid)|].
    by apply Hwaker.
Qed.

(** The poll of a session. *)
Lemma session_poll_inv p t sid b : proxy_inv p → tasks p !! t = Some (TAwait sid b) → proxy_inv (task_step t p).
Proof.
  intros Hinv Ht. pose proof Hinv as [Hn Hd Hknown Halone Hwaker].
  destruct (Hknown t _ sid Ht) as [f Hf]; [auto with hala|].
  set (k' := match closed f with Some r => TClosing r | None => TAwait sid true end).
  set (f' := (session_poll t f).1).
  assert (task_step t p = set_task t k' (set_woken (woken p ∖ {[t]}) (set_session sid f' p))) as ->.
  { unfold task_step. rewrite Ht, Hf. subst k' f'. unfold session_poll. simpl. by destruct (closed f). }
  destruct (inv_sessions p (set_task t k' (set_woken (woken p ∖ {[t]}) (set_session sid f' p))) t _ k' Hinv Ht)
    as [S1 S2]; [done| | |].
  { intros sid'. simpl. intros ?. apply lookup_insert_is_Some'. by right. }
  { intros sid' Hs. left. subst k'. destruct (closed f).
    - by destruct Hs as [?|[? ?]].
    - destruct Hs as [?|[? ?]]; [done|]. simplify_eq. auto with hala. }
  pose proof (count_update awaits _ _ _ k' Ht) as Ha. pose proof (count_update is_closed _ _ _ k' Ht) as Hc.
  assert (awaits k' = true ∧ is_closed k' = false) as [Hka Hkc] by (subst k'; by destruct (closed f)).
  rewrite Hka in Ha. rewrite Hkc in Hc. split; simpl in *; try done.
  - rewrite Hn. f_equal. lia.
  - rewrite Hd. f_equal. lia.
  - intros t' sid' f0 H' Hf0. apply lookup_insert_Some in H' as [[<- Hk']|[Hne H']].
    + subst k' f'. unfold session_poll in *. destruct (closed f) as [r|] eqn:Hcl; [done|].
      injection Hk' as <-. rewrite lookup_insert_eq in Hf0. by simplify_eq/=.
    + assert (sid' ≠ sid) as Hsid.
      { intros ->. apply Hne. by eapply (Halone t t'); [exact Ht|exact H'|auto with hala..]. }
      rewrite lookup_insert_ne in Hf0 by done. specialize (Hwaker t' sid' f0 H' Hf0).
      destruct (closed f0); [set_solver|done].
Qed.

Lemma task_step_inv p t : proxy_inv p → proxy_inv (task_step t p).
Proof.
  intros Hinv. destruct (tasks p !! t) as [k|] eqn:Ht; [|by unfold task_step; rewrite Ht].
  pose proof Hinv as [Hn Hd _ _ _].
  destruct k as [|sid|sid polled|r|r|r|e]; try (unfold task_step; rewrite Ht; done).
  2: by eapply session_poll_inv.
  - apply (task_move_inv p _ t _ (TAwait sid false) Hinv Ht); unfold task_step; rewrite ?Ht; try done.
    + by eapply wrap_same.
    + intros sid' [?|[? ?]]; [done|]. simplify_eq. auto with hala.
  - apply (task_move_inv p _ t _ (TSubtracted r) Hinv Ht); unfold task_step; rewrite ?Ht; try done.
    + by eapply wrap_same.
    + by intros sid' [?|[? ?]].
  - apply (task_move_inv p _ t _ (TClosed r) Hinv Ht); unfold task_step; rewrite ?Ht; try done.
    + by eapply wrap_same.
    + by intros sid' [?|[? ?]].
Qed.

Lemma proxy_inv_new : proxy_inv Rproxy_new.
Proof. by split. Qed.

Lemma proxy_step_inv p p' : proxy_inv p → proxy_step p p' → proxy_inv p'.
Proof.
  intros Hinv Hstep. pose proof Hinv as [Hn Hd Hknown Halone Hwaker].
  destruct Hstep as [p t Ht|p sid Hs|p t sid Ht Hs Hun Hw|p t e Ht|p t|p sid r f Hf|p t k Ht Hk].
  - split; simpl; [by rewrite Hn, count_insert, Nat.add_0_r|by rewrite Hd, count_insert, Nat.add_0_r| | |].
    + intros t' k sid [[<- <-]|[_ H']]%lookup_insert_Some Hs; [by destruct Hs as [?|[? ?]]|eauto].
    + intros t1 t2 k1 k2 sid [[<- <-]|[_ H1]]%lookup_insert_Some [[<- <-]|[_ H2]]%lookup_insert_Some Hs1 Hs2; [done| | |eauto].
      * by destruct Hs1 as [?|[? ?]].
      * by destruct Hs2 as [?|[? ?]].
    + intros t' sid f [[_ ?]|[_ H']]%lookup_insert_Some; [done|by apply Hwaker].
  - split; simpl; try done.
    + intros t' k sid' H' Hs'. apply lookup_insert_is_Some'. eauto.
    + intros t' sid' f H' [[-> <-]|[_ Hf]]%lookup_insert_Some; [|by eapply Hwaker].
      destruct (Hknown _ _ sid' H') as [? ?]; [auto with hala|congruence].
  - apply (task_move_inv p _ t _ (TEstablished sid) Hinv Ht); try done; [by eapply wrap_same..|].
    intros sid' [?|[? ?]]; [|done]. simplify_eq. right. by split.
  - apply (task_move_inv p _ t _ (TFailed e) Hinv Ht); try done; [by eapply wrap_same..|].
    by intros sid' [?|[? ?]].
  - by apply task_step_inv.
  - split; simpl; try done.
    + intros t' k sid' H' Hs'. apply lookup_insert_is_Some'. eauto.
    + intros t' sid' f' H' [[-> <-]|[_ Hf']]%lookup_insert_Some; simpl.
      * specialize (Hwaker t' sid' f H' Hf). destruct (closed f); [set_solver|]. rewrite Hwaker. set_solver.
      * specialize (Hwaker t' sid' f' H' Hf'). destruct (closed f'); [set_solver|done].
  - pose proof (count_delete awaits _ _ _ Ht) as Ha. pose proof (count_delete is_closed _ _ _ Ht) as Hc.
    split; simpl.
    + rewrite Hn. f_equal. destruct Hk as [->|(sid&b&->)]; simpl in *; lia.
    + rewrite Hd. f_equal. destruct Hk as [->|(sid&b&->)]; simpl in *; lia.
    + intros t' k' sid [_ H']%lookup_delete_Some. eauto.
    + intros t1 t2 k1 k2 sid [_ H1]%lookup_delete_Some [_ H2]%lookup_delete_Some. eauto.
    + intros t' sid f [_ H']%lookup_delete_Some. by apply Hwaker.
Qed.

Lemma reachable_inv p : rtc proxy_step Rproxy_new p → proxy_inv p.
Proof. intros Hp. by eapply (rtc_invariant _ proxy_inv); [apply proxy_inv_new|apply proxy_step_inv|]. Qed.

(** From here on, the properties. *)

(** The statistics of the proxy: in every reachable state [actived] is the number of tasks
    that hold an open session, plus the tasks that were dropped while they awaited
    theirs, for which nothing is subtracted; [closed] is the number of sessions that ended. *)
Theorem rproxy_stats_exact p :
  rtc proxy_step Rproxy_new p →
  stats p = {| actived := wrap 64 (Z.of_nat (count_tasks awaits (tasks p) + dropped p));
               closed_ := wrap 64 (Z.of_nat (count_tasks is_closed (tasks p))) |}.
Proof. intros Hp. destruct (reachable_inv p Hp) as [Hn Hd _ _ _]. unfold stats. by rewrite Hn, Hd. Qed.

(** A closed session wakes its task: when the task of a connection waits for its session, its
    waker is in the session until [closed_with], which wakes it; then the next poll takes
    the result and the task goes on to close the connection. *)
Theorem closed_session_wakes_its_task p t sid f :
  rtc proxy_step Rproxy_new p → tasks p !! t = Some (TAwait sid true) → sessions p !! sid = Some f →
  match closed f with
  | None => ∀ r, (closed_with r f).2 = [t]
  | Some r => t ∈ woken p ∧ tasks (task_step t p) !! t = Some (TClosing r)
  end.
Proof.
  intros Hp Ht Hf. pose proof (pi_waker p (reachable_inv p Hp) t sid f Ht Hf) as H.
  destruct (closed f) as [r|] eqn:Hc.
  - split; [done|]. unfold task_step, session_poll. rewrite Ht, Hf. simpl. rewrite Hc. simpl.
    by rewrite lookup_insert_eq.
  - intros r. unfold closed_with. by rewrite H.
Qed.

(** A session has one waiter: [Session] is [Clone], but of two clones that wait only the last
    is woken, the result goes to the first poll after [closed_with], and the other clone
    waits for ever, with its waker in the session. *)
Theorem second_clone_waits_for_ever w1 w2 r flag :
  closed flag = None →
  let waiting := (session_poll w2 (session_poll w1 flag).1).1 in
  let '(done_, wakes) := closed_with r waiting in
  wakes = [w2] ∧
  (session_poll w2 done_).2 = Ready r ∧
  session_poll w1 (session_poll w2 done_).1 = ({| closed := None; waker := Some w1 |}, Pending).
Proof. intros Hc. unfold session_poll. rewrite Hc. simpl. by split_and!. Qed.

(** The gateway stops at the first error of [accept]: whatever the listener would
    have answered later, the connections that are served are those before the first
    error; of a TLS listener, those of them whose TLS handshake succeeds. *)
Theorem gateway_stops_at_first_error {C T} (ssl : C → option T) (answers : list (res ErrorKind C)) fuel :
  length answers < fuel →
  rproxy_accept tcp_accept fuel answers = before_error answers ∧
  rproxy_accept (ssl_accept ssl) fuel answers = omap ssl (before_error answers).
Proof.
  revert fuel. induction answers as [|[c|e|] answers IH]; intros [|fuel] Hlen; simpl in *; try lia; try done.
  destruct (IH fuel) as [IH1 IH2]; [lia|]. split; [by rewrite IH1|].
  destruct (ssl c) as [x|]; [by rewrite IH2|]. destruct (IH (S fuel)) as [_ H]; [lia|exact H].
Qed.

(** ** Witnesses *)
Module DemoProxy.

(** Task 1 waits for session 9. *)
Lemma waiting : ∃ p, rtc proxy_step Rproxy_new p ∧ tasks p !! 1 = Some (TAwait 9 true) ∧
  sessions p !! 9 = Some {| closed := None; waker := Some 1 |} ∧ actived (stats p) = 1%Z.
Proof.
  eexists. split; [|shelve].
  eapply rtc_l; [by apply (step_spawn _ 1)|].
  eapply rtc_l; [by apply (step_session _ 9)|].
  eapply rtc_l; [apply (step_handshake_ok _ 1 9); [done|by eexists| |done]|].
  { simpl. intros t' k [[<- <-]|[_ H]]%lookup_insert_Some; [by intros [?|[? ?]]|by rewrite lookup_empty in H]. }
  eapply rtc_l; [apply (step_task _ 1)|]. eapply rtc_l; [apply (step_task _ 1)|]. apply rtc_refl.
  Unshelve. split_and!; vm_compute; reflexivity.
Qed.

End DemoProxy.

Lemma rproxy_stats_exact_witness :
  ∃ p, rtc proxy_step Rproxy_new p ∧ actived (stats p) = 1%Z ∧
    actived (stats p) = wrap 64 (Z.of_nat (count_tasks awaits (tasks p) + dropped p)).
Proof.
  destruct DemoProxy.waiting as (p&Hp&_&_&Ha). exists p. split_and!; [done|done|].
  exact (f_equal actived (rproxy_stats_exact p Hp)).
Defined.

Lemma closed_session_wakes_its_task_witness :
  ∃ p, tasks p !! 1 = Some (TAwait 9 true) ∧
    (closed_with (Err BrokenPipe) {| closed := None; waker := Some 1 |}).2 = [1].
Proof.
  destruct DemoProxy.waiting as (p&Hp&Ht&Hs&_). exists p. split; [done|].
  exact (closed_session_wakes_its_task p 1 9 _ Hp Ht Hs (Err BrokenPipe)).
Defined.

Lemma second_clone_waits_for_ever_witness :
  (session_poll 1 (session_poll 2 (closed_with (Ok ()) (session_poll 2 (session_poll 1 SessionFlag_default).1).1).1).1).2 = Pending.
Proof.
  exact (f_equal snd (proj2 (proj2 (second_clone_waits_for_ever 1 2 (Ok ()) SessionFlag_default eq_refl)))).
Defined.

Lemma gateway_stops_at_first_error_witness :
  rproxy_accept tcp_accept 4 [Ok 1; Err (OtherKind 24); Ok 2] = [1].
Proof.
  exact (proj1 (gateway_stops_at_first_error (λ n : nat, Some n) [Ok 1; Err (OtherKind 24); Ok 2] 4
    ltac:(simpl; lia))).
Defined.
