(* ===== verification/ProxyQuic.v ===== *)
(** * crates/rproxy/src/listener/quic.rs: the streams of all connections in one channel

    [QuicStreamListener::from] spawns a task that accepts connections and, for each of them,
    a task that accepts its streams and sends them, with their ids, through a channel of
    the futures crate (class [Channel]); [accept] is the next message.  The
    QUIC listener and its connections are the choices of the steps; a task
    takes one step between two awaits. *)

From S2P Require Import Prelude.

(** ** [futures::channel::mpsc] *)
Inductive Next (Msg : Type) := NextPending | NextMsg (m : Msg) | NextClosed.
Arguments NextPending {Msg}.
Arguments NextMsg {Msg} m.
Arguments NextClosed {Msg}.

Class Channel (Msg Ch : Type) := {
  channel : nat → Ch;
  clone_sender : Ch → Ch;
  drop_sender : Ch → Ch;
  (** [None]: no room yet; [Some true]: queued; [Some false]: there is no receiver. *)
  start_send : Ch → Msg → Ch * option bool;
  (** the end of [send], after the message is queued *)
  flushed : Ch → bool;
  next : Ch → Ch * Next Msg;
  drop_receiver : Ch → Ch;
}.

(** What the channel promises: a bounded queue, which ends when its senders are gone. *)
Class ChannelLaws (Msg Ch : Type) `{!Channel Msg Ch} (messages : Ch → list Msg) (senders : Ch → nat)
    (alive : Ch → bool) : Prop := {
  law_channel n : messages (channel n) = [] ∧ senders (channel n) = 1 ∧ alive (channel n) = true;
  law_clone c : messages (clone_sender c) = messages c ∧
    senders (clone_sender c) = S (senders c) ∧ alive (clone_sender c) = alive c;
  law_drop c : messages (drop_sender c) = messages c ∧
    senders (drop_sender c) = pred (senders c) ∧ alive (drop_sender c) = alive c;
  law_send c m c' r : start_send c m = (c', r) →
    senders c' = senders c ∧ alive c' = alive c ∧
    match r with
    | Some true => alive c = true ∧ messages c' = messages c ++ [m]
    | Some false => alive c = false ∧ messages c' = messages c
    | None => messages c' = messages c
    end;
  law_next c c' r : next c = (c', r) →
    senders c' = senders c ∧ alive c' = alive c ∧
    match r with
    | NextMsg m => messages c = m :: messages c'
    | NextClosed => messages c = [] ∧ messages c' = [] ∧ senders c = 0
    | NextPending => messages c' = messages c ∧ (messages c = [] → senders c ≠ 0)
    end;
  law_drop_receiver c : senders (drop_receiver c) = senders c ∧ alive (drop_receiver c) = false ∧
    messages (drop_receiver c) = [];
}.

(** ** The tasks *)
Abbreviation QuicConnectionId := (list byte).

(** [ConnId::QuicStream]. *)
Record ConnId := { scid : QuicConnectionId; dcid : QuicConnectionId; id_stream : N }.

Record QuicConn := { source_id : QuicConnectionId; destination_id : QuicConnectionId }.
(** A stream holds its connection. *)
Record QuicStream := { conn : nat; stream_id : N }.

Definition message : Type := ConnId * QuicStream.

(** The task of a connection: in [accept_stream], in [send] before and after the
    message is queued, ended. *)
Inductive task := Accepting | Sending (m : message) | Flushing | Ended.

Section listener.
Context {Ch : Type} `{!Channel message Ch}.

(** [accepting]: the first task runs; [accepted], [delivered] are histories. *)
Record QuicStreamListener := {
  accepting : bool;
  conns : gmap nat (QuicConn * task);
  receiver : Ch;
  accepted : list QuicStream;
  delivered : list message;
}.

Definition set_receiver (c : Ch) (s : QuicStreamListener) : QuicStreamListener :=
  {| accepting := accepting s; conns := conns s; receiver := c; accepted := accepted s;
     delivered := delivered s |}.
Definition set_task (k : nat) (x : QuicConn) (t : task) (s : QuicStreamListener) : QuicStreamListener :=
  {| accepting := accepting s; conns := <[k := (x, t)]> (conns s); receiver := receiver s;
     accepted := accepted s; delivered := delivered s |}.

(** [From<QuicListener>]. *)
Definition QuicStreamListener_from : QuicStreamListener :=
  {| accepting := true; conns := ∅; receiver := channel 0; accepted := []; delivered := [] |}.

Inductive move :=
| AcceptConn (k : nat) (conn : option QuicConn)
| AcceptStream (k : nat) (id : option N)
| Send (k : nat)
| Flush (k : nat)
| Accept
| DropListener.

(** [ConnId::QuicStream(source_id, destination_id, stream_id)]. *)
Definition conn_id (x : QuicConn) (st : QuicStream) : ConnId :=
  {| scid := source_id x; dcid := destination_id x; id_stream := stream_id st |}.

(** The task of a connection ends: its sender is dropped. *)
Definition end_task (k : nat) (x : QuicConn) (s : QuicStreamListener) : QuicStreamListener :=
  set_receiver (drop_sender (receiver s)) (set_task k x Ended s).

(** One step; a step that is not enabled changes nothing. *)
Definition step (m : move) (s : QuicStreamListener) : QuicStreamListener :=
  match m with
  | AcceptConn k (Some x) =>
      if accepting s then
        match conns s !! k with
        | None => set_receiver (clone_sender (receiver s)) (set_task k x Accepting s)
        | Some _ => s
        end
      else s
  | AcceptConn _ None =>
      if accepting s then
        {| accepting := false; conns := conns s; receiver := drop_sender (receiver s);
           accepted := accepted s; delivered := delivered s |}
      else s
  | AcceptStream k id =>
      match conns s !! k with
      | Some (x, Accepting) =>
          match id with
          | Some id =>
              let st := {| conn := k; stream_id := id |} in
              {| accepting := accepting s; conns := <[k := (x, Sending (conn_id x st, st))]> (conns s);
                 receiver := receiver s; accepted := accepted s ++ [st]; delivered := delivered s |}
          | None => end_task k x s
          end
      | _ => s
      end
  | Send k =>
      match conns s !! k with
      | Some (x, Sending m) =>
          match start_send (receiver s) m with
          | (c, Some true) => set_receiver c (set_task k x Flushing s)
          | (c, Some false) => end_task k x (set_receiver c s)
          | (c, None) => set_receiver c s
          end
      | _ => s
      end
  | Flush k =>
      match conns s !! k with
      | Some (x, Flushing) => if flushed (receiver s) then set_task k x Accepting s else s
      | _ => s
      end
  | Accept =>
      match next (receiver s) with
      | (c, NextMsg m) =>
          {| accepting := accepting s; conns := conns s; receiver := c; accepted := accepted s;
             delivered := delivered s ++ [m] |}
      | (c, _) => set_receiver c s
      end
  | DropListener => set_receiver (drop_receiver (receiver s)) s
  end.

(** The answer of [accept] at a state: [Listener::accept]. *)
Definition accept (s : QuicStreamListener) : Poll (option message) :=
  match (next (receiver s)).2 with
  | NextPending => Pending
  | NextMsg m => Ready (Some m)
  | NextClosed => Ready None
  end.

Definition run (ms : list move) : QuicStreamListener := foldl (λ s m, step m s) QuicStreamListener_from ms.
End listener.
Arguments QuicStreamListener : clear implicits.

(** ** The streams of a connection, in order *)
Definition by_conn (k : nat) (l : list QuicStream) : list QuicStream := filter (λ st, conn st = k) l.

Lemma by_conn_app k l l' : by_conn k (l ++ l') = by_conn k l ++ by_conn k l'.
Proof. apply filter_app. Qed.
Lemma by_conn_one k st : by_conn k [st] = if decide (conn st = k) then [st] else [].
Proof. unfold by_conn. rewrite filter_cons. by case_decide. Qed.

Section invariant.
Context {Ch : Type} `{!Channel message Ch} (messages : Ch → list message) (senders : Ch → nat)
  (alive : Ch → bool) `{!ChannelLaws message Ch messages senders alive}.
Implicit Types (s : QuicStreamListener Ch).

(** The stream that a task holds. *)
Definition in_hand (k : nat) s : list QuicStream :=
  match conns s !! k with Some (_, Sending m) => [m.2] | _ => [] end.

(** The tasks that have not ended. *)
Definition running (t : task) : bool := match t with Ended => false | _ => true end.
Definition live (m : gmap nat (QuicConn * task)) : nat :=
  size (filter (λ x : nat * (QuicConn * task), running x.2.2 = true) m).

Definition well_labelled (m : gmap nat (QuicConn * task)) (x : message) : Prop :=
  ∃ q t, m !! conn x.2 = Some (q, t) ∧ x.1 = conn_id q x.2.

Record inv s : Prop := {
  inv_streams k : ∃ lost,
    by_conn k (accepted s) = by_conn k (delivered s).*2 ++ by_conn k (messages (receiver s)).*2 ++ lost ∧
    (alive (receiver s) = true → lost = in_hand k s);
  inv_hand k q m : conns s !! k = Some (q, Sending m) → conn m.2 = k ∧ m.1 = conn_id q m.2;
  inv_labels : Forall (well_labelled (conns s)) (delivered s ++ messages (receiver s));
  inv_senders : senders (receiver s) = (if accepting s then 1 else 0) + live (conns s);
}.

Lemma live_new m k x t : m !! k = None → live (<[k := (x, t)]> m) = Nat.b2n (running t) + live m.
Proof.
  intros Hk. unfold live. rewrite map_filter_insert. simpl. rewrite delete_id by done.
  case_decide as Ht; [|by destruct (running t)].
  rewrite Ht, map_size_insert_None; [done|]. apply map_lookup_filter_None. by left.
Qed.

Lemma live_set m k x t t' :
  m !! k = Some (x, t) →
  live (<[k := (x, t')]> m) + Nat.b2n (running t) = Nat.b2n (running t') + live m.
Proof.
  intros Hk. rewrite <-(insert_delete_id m k (x, t)) by done. rewrite insert_insert_eq.
  rewrite !live_new by apply lookup_delete_eq. lia.
Qed.

Lemma in_hand_set s k k' x t :
  in_hand k' (set_task k x t s) =
    if decide (k' = k) then match t with Sending m => [m.2] | _ => [] end else in_hand k' s.
Proof.
  unfold in_hand. simpl. case_decide; [subst; by rewrite lookup_insert_eq|by rewrite lookup_insert_ne].
Qed.

(** The labels of messages stay right when a task moves. *)
Lemma labels_set m k q t t' l :
  m !! k = Some (q, t) → Forall (well_labelled m) l → Forall (well_labelled (<[k := (q, t')]> m)) l.
Proof.
  intros Hk Hl. eapply Forall_impl; [exact Hl|]. intros x (q'&t0&Hx&Hid).
  destruct (decide (k = conn x.2)) as [->|].
  - rewrite Hk in Hx. injection Hx as -> ->. exists q', t'. by rewrite lookup_insert_eq.
  - exists q', t0. by rewrite lookup_insert_ne.
Qed.

(** A task moves without a stream, and the channel keeps its messages. *)
Lemma task_move_keeps_inv s k q t t' c :
  inv s → conns s !! k = Some (q, t) →
  (alive c = true → alive (receiver s) = true ∧ in_hand k s = []) →
  match t' with Sending _ => False | _ => True end →
  messages c = messages (receiver s) →
  senders c + Nat.b2n (running t) = senders (receiver s) + Nat.b2n (running t') →
  inv (set_receiver c (set_task k q t' s)).
Proof.
  intros [I1 I2 I3 I4] Hk Ha Ht Hm Hs. split; simpl.
  - intros k'. destruct (I1 k') as (lost&H1&H2). exists lost. rewrite Hm. split; [done|]. intros Hal.
    destruct (Ha Hal) as [Ha1 Ha2]. specialize (H2 Ha1). unfold in_hand at 1. simpl.
    destruct (decide (k' = k)) as [->|]; [rewrite lookup_insert_eq|by rewrite lookup_insert_ne].
    rewrite H2, Ha2. by destruct t'.
  - intros k' q' m [[<- [= <- ->]]|[_ Hk']]%lookup_insert_Some; [done|eauto].
  - rewrite Hm. by eapply labels_set.
  - pose proof (live_set _ _ _ _ t' Hk) as Hl. destruct (accepting s); lia.
Qed.

(** The channel answers without a change. *)
Lemma inv_same s c :
  inv s → messages c = messages (receiver s) → senders c = senders (receiver s) →
  alive c = alive (receiver s) → inv (set_receiver c s).
Proof.
  intros [I1 I2 I3 I4] Hm Hs Ha. split; simpl; [|done|by rewrite Hm|by rewrite Hs].
  intros k. destruct (I1 k) as (lost&H1&H2). exists lost. by rewrite Hm, Ha.
Qed.

Lemma running_sender s k q t :
  inv s → conns s !! k = Some (q, t) → running t = true → 0 < senders (receiver s).
Proof.
  intros [_ _ _ I4] Hk Ht. pose proof (live_set _ _ _ _ Ended Hk) as Hl. rewrite Ht in Hl. simpl in Hl. lia.
Qed.

Lemma inv_end s k q t :
  inv s → conns s !! k = Some (q, t) → running t = true →
  (alive (receiver s) = true → in_hand k s = []) → inv (end_task k q s).
Proof.
  intros Hi Hk Ht Ha. destruct (law_drop (receiver s)) as (D1&D2&D3).
  pose proof (running_sender s k q t Hi Hk Ht). apply task_move_keeps_inv with t; try done.
  - rewrite D3. auto.
  - rewrite D2, Ht. simpl. lia.
Qed.

Lemma inv_accept_conn s k x : inv s → inv (step (AcceptConn k x) s).
Proof.
  intros Hi. pose proof Hi as [I1 I2 I3 I4]. unfold step.
  destruct x as [x|], (accepting s) eqn:Hacc; try done.
  - destruct (conns s !! k) eqn:Hk; [done|]. destruct (law_clone (receiver s)) as (C1&C2&C3).
    split; simpl.
    + intros k'. destruct (I1 k') as (lost&H1&H2). exists lost. rewrite C1, C3. split; [done|].
      intros Ha. rewrite (H2 Ha). unfold in_hand. simpl.
      destruct (decide (k' = k)) as [->|]; [by rewrite lookup_insert_eq, Hk|by rewrite lookup_insert_ne].
    + intros k' q' m [[<- [=]]|[_ Hk']]%lookup_insert_Some. eauto.
    + rewrite C1. eapply Forall_impl; [exact I3|]. intros m (q'&t0&Hm&Hid). exists q', t0.
      rewrite lookup_insert_ne; [done|]. congruence.
    + rewrite C2, I4, Hacc, live_new by done. simpl. lia.
  - destruct (law_drop (receiver s)) as (D1&D2&D3). split; simpl; [|done|by rewrite D1|].
    + intros k'. rewrite D1, D3. apply I1.
    + rewrite D2, I4. simpl. lia.
Qed.

Lemma inv_accept_stream s k id : inv s → inv (step (AcceptStream k id) s).
Proof.
  intros Hi. pose proof Hi as [I1 I2 I3 I4]. unfold step.
  destruct (conns s !! k) as [[x []]|] eqn:Hk; try done. destruct id as [id|].
  - split; simpl.
    + intros k'. destruct (I1 k') as (lost&H1&H2). rewrite by_conn_app, by_conn_one, H1. simpl.
      unfold in_hand in *. simpl. destruct (decide (k' = k)) as [->|Hne].
      * exists (lost ++ [{| conn := k; stream_id := id |}]). rewrite decide_True by done.
        rewrite lookup_insert_eq. split; [by rewrite <-!app_assoc|].
        intros Ha. by rewrite (H2 Ha), Hk.
      * exists lost. rewrite decide_False by done. rewrite lookup_insert_ne by done.
        by rewrite app_nil_r.
    + intros k' q' m [[<- [= <- <-]]|[_ Hk']]%lookup_insert_Some; [done|eauto].
    + by eapply labels_set.
    + pose proof (live_set _ _ _ _ (Sending (conn_id x {| conn := k; stream_id := id |},
        {| conn := k; stream_id := id |})) Hk) as Hl. simpl in Hl. lia.
  - eapply inv_end; [done|done|done|]. intros _. unfold in_hand. by rewrite Hk.
Qed.

Lemma inv_send s k : inv s → inv (step (Send k) s).
Proof.
  intros Hi. unfold step. destruct (conns s !! k) as [[x [|m| |]]|] eqn:Hk; try done.
  destruct (start_send (receiver s) m) as [c r] eqn:Hs. apply law_send in Hs as (S1&S2&S3).
  destruct r as [[]|].
  - destruct S3 as [S3 S4]. pose proof Hi as [I1 I2 I3 I4]. destruct (I2 _ _ _ Hk) as [Hc Hid].
    split; simpl.
    + intros k'. destruct (I1 k') as (lost&H1&H2). specialize (H2 S3).
      exists (in_hand k' (set_task k x Flushing s)). split; [|done].
      rewrite in_hand_set, S4, fmap_app, by_conn_app. simpl. rewrite by_conn_one, H1, H2, Hc.
      destruct (decide (k' = k)) as [->|Hne].
      * rewrite decide_True by done. unfold in_hand. by rewrite Hk, app_nil_r.
      * rewrite decide_False by done. by rewrite app_nil_r.
    + intros k' q' m' [[<- [=]]|[_ Hk']]%lookup_insert_Some. eauto.
    + rewrite S4, app_assoc. apply Forall_app. split; [by eapply labels_set|].
      constructor; [|done]. exists x, Flushing. by rewrite Hc, lookup_insert_eq.
    + pose proof (live_set _ _ _ _ Flushing Hk) as Hl. simpl in Hl. lia.
  - destruct S3 as [S3 S4]. apply inv_end with (Sending m); [by apply inv_same|done|done|].
    simpl. rewrite S2, S3. done.
  - by apply inv_same.
Qed.

Lemma inv_step s m : inv s → inv (step m s).
Proof.
  intros Hi. destruct m as [k x|k id|k|k| |].
  - by apply inv_accept_conn.
  - by apply inv_accept_stream.
  - by apply inv_send.
  - unfold step. destruct (conns s !! k) as [[x []]|] eqn:Hk; try done. destruct (flushed _); [|done].
    assert (set_task k x Accepting s = set_receiver (receiver s) (set_task k x Accepting s)) as -> by done.
    eapply task_move_keeps_inv; [done|done| |done|done|done]. intros Ha. split; [done|]. unfold in_hand. by rewrite Hk.
  - unfold step. destruct (next (receiver s)) as [c r] eqn:Hn. apply law_next in Hn as (N1&N2&N3).
    destruct r as [|m|]; [by apply inv_same; [|apply N3| |]| |].
    + pose proof Hi as [I1 I2 I3 I4]. split; simpl; [|done| |by rewrite N1].
      * intros k. destruct (I1 k) as (lost&H1&H2). exists lost. rewrite N2. split; [|done].
        rewrite H1, N3, fmap_app, by_conn_app, !fmap_cons.
        change (m.2 :: (messages c).*2) with ([m.2] ++ (messages c).*2).
        by rewrite by_conn_app, <-!app_assoc.
      * rewrite <-app_assoc. simpl. by rewrite <-N3.
    + destruct N3 as (N3&N4&_). apply inv_same; [done|congruence|done|done].
  - unfold step. destruct (law_drop_receiver (receiver s)) as (D1&D2&D3). destruct Hi as [I1 I2 I3 I4].
    split; simpl; [|done| |by rewrite D1].
    + intros k. destruct (I1 k) as (lost&H1&_). exists (by_conn k (messages (receiver s)).*2 ++ lost).
      by rewrite D2, D3.
    + rewrite D3, app_nil_r. by apply Forall_app in I3 as [? _].
Qed.

Lemma run_inv ms : inv (run ms).
Proof.
  unfold run. assert (inv QuicStreamListener_from) as Hi.
  { destruct (law_channel 0) as (C1&C2&C3). split; simpl; [|done|by rewrite C1|by rewrite C2].
    intros k. exists []. by rewrite C1. }
  revert Hi. generalize QuicStreamListener_from. induction ms as [|m ms IH]; intros s Hs; [done|].
  simpl. by apply IH, inv_step.
Qed.
End invariant.

(** ** Properties *)

(** C40. The proxy delivers the streams of each connection once, in order and under their own
    ids.  At any point of any run: the streams of a connection that [accept] has
    delivered are the first ones that its [accept_stream] gave, each with the ids of
    its connection and its stream number; while the listener is not dropped, the rest of
    them is in the channel, or is the one that the task of the connection
    holds; and [accept] answers [None] only when the listener has
    stopped, every task has ended and, if the listener was not dropped, all streams accepted
    have been delivered. *)
Theorem streams_delivered_once {Ch} `{!Channel message Ch} (messages : Ch → list message)
    (senders : Ch → nat) (alive : Ch → bool) `{!ChannelLaws message Ch messages senders alive}
    (ms : list move) :
  let s := run (Ch:=Ch) ms in
  (∀ k, by_conn k (delivered s).*2 `prefix_of` by_conn k (accepted s)) ∧
  Forall (well_labelled (conns s)) (delivered s) ∧
  (alive (receiver s) = true → ∀ k,
     by_conn k (accepted s) =
       by_conn k (delivered s).*2 ++ by_conn k (messages (receiver s)).*2 ++ in_hand k s) ∧
  (accept s = Ready None →
     accepting s = false ∧ (∀ k x t, conns s !! k = Some (x, t) → t = Ended) ∧
     (alive (receiver s) = true → ∀ k, by_conn k (delivered s).*2 = by_conn k (accepted s))).
Proof.
  intros s. destruct (run_inv messages senders alive ms) as [I1 I2 I3 I4]. fold s in I1, I2, I3, I4.
  assert (alive (receiver s) = true → ∀ k,
     by_conn k (accepted s) =
       by_conn k (delivered s).*2 ++ by_conn k (messages (receiver s)).*2 ++ in_hand k s) as Hall.
  { intros Ha k. destruct (I1 k) as (lost&H1&H2). by rewrite H1, (H2 Ha). }
  split_and!; [|by apply Forall_app in I3 as [? _]|done|].
  - intros k. destruct (I1 k) as (lost&H1&_). rewrite H1. by apply prefix_app_r.
  - unfold accept. destruct (next (receiver s)) as [c r] eqn:Hn.
    pose proof (law_next _ _ _ Hn) as (_&_&N3). destruct r as [|m|]; simpl; [done|done|]. intros _.
    destruct N3 as (N3&_&N4). rewrite N4 in I4.
    assert (∀ k x t, conns s !! k = Some (x, t) → t = Ended) as Hend.
    { intros k x t Hk. pose proof (live_set _ _ _ _ Ended Hk) as Hl. destruct t; simpl in Hl; lia || done. }
    split_and!; [by destruct (accepting s)|exact Hend|].
    intros Ha k. rewrite (Hall Ha k), N3. unfold in_hand.
    destruct (conns s !! k) as [[x t]|] eqn:Hk; [apply Hend in Hk as ->|]; by rewrite app_nil_r.
Qed.

(** ** Witness: a channel of one slot *)
Record MockChannel := { slots : list message; mock_senders : nat; mock_alive : bool }.

#[export] Instance MockChannel_Channel : Channel message MockChannel := {
  channel _ := {| slots := []; mock_senders := 1; mock_alive := true |};
  clone_sender c := {| slots := slots c; mock_senders := S (mock_senders c); mock_alive := mock_alive c |};
  drop_sender c := {| slots := slots c; mock_senders := pred (mock_senders c); mock_alive := mock_alive c |};
  start_send c m :=
    if mock_alive c then
      match slots c with
      | [] => ({| slots := [m]; mock_senders := mock_senders c; mock_alive := true |}, Some true)
      | _ => (c, None)
      end
    else (c, Some false);
  flushed c := match slots c with [] => true | _ => negb (mock_alive c) end;
  next c :=
    match slots c with
    | m :: l => ({| slots := l; mock_senders := mock_senders c; mock_alive := mock_alive c |}, NextMsg m)
    | [] => (c, if decide (mock_senders c = 0) then NextClosed else NextPending)
    end;
  drop_receiver c := {| slots := []; mock_senders := mock_senders c; mock_alive := false |};
}.

#[export] Instance MockChannel_laws :
  ChannelLaws message MockChannel slots mock_senders mock_alive.
Proof.
  split; try done.
  - intros [l n a] m c' r. simpl. destruct a; [destruct l|]; intros [= <- <-]; by split_and!.
  - intros [l n a] c' r. simpl. destruct l as [|m l]; intros [= <- <-]; [|by split_and!].
    simpl. by case_decide.
Qed.

Definition demo_conn : QuicConn := {| source_id := [x00]; destination_id := [x01] |}.
(** Two streams of one connection; the second waits for room; both ends stop. *)
Definition demo_run : list move :=
  [AcceptConn 0 (Some demo_conn); AcceptStream 0 (Some 4%N); Send 0; Accept; Flush 0;
   AcceptStream 0 (Some 8%N); Send 0; AcceptConn 1 None; Accept; Flush 0; AcceptStream 0 None].

Lemma streams_delivered_once_witness :
  accept (run (Ch:=MockChannel) demo_run) = Ready None ∧
  by_conn 0 (delivered (run (Ch:=MockChannel) demo_run)).*2 = by_conn 0 (accepted (run (Ch:=MockChannel) demo_run)) ∧
  accepted (run (Ch:=MockChannel) demo_run) =
    [{| conn := 0; stream_id := 4 |}; {| conn := 0; stream_id := 8 |}].
Proof.
  destruct (streams_delivered_once (Ch:=MockChannel) slots mock_senders mock_alive demo_run) as (_&_&_&H).
  split; [vm_compute; reflexivity|]. split; [|vm_compute; reflexivity].
  refine (proj2 (proj2 (H _)) _ 0); vm_compute; reflexivity.
Defined.
